(* ===== verification/_CoqProject ===== *)
-Q . S2P
Prelude.v
Paths.v
Decimal.v
Digests.v
Ids.v
Proposal.v
Candidate.v
ProofRoots.v
Lineage.v
Integration.v
Journal.v
Protocol.v
Disk.v
Cas.v
Generation.v
Capability.v
Artifact.v
Scope.v
Apply.v
SafeGit.v
GitPin.v
Reflink.v
Mirror.v
Repository.v
Publication.v
Preparation.v
Preservation.v
Writer.v
Clone.v
Salvage.v
MemoryRepo.v
StrictJson.v
Ledger.v
Gateway.v
KernelPermit.v
Daemon.v
Served.v
Fixture.v
AuditJson.v
AuditPolicy.v
AuditInventory.v
AuditTool.v
AuditRecord.v
AuditAgreement.v
AuditObservation.v
AuditBootstrap.v
AuditCapture.v
