(* ===== verification/Prelude.v ===== *)
(** * Bullet Git: the repository kernel, its daemon and its proofs

    Bullet Git applies the work of an agent to a private clone of a repository.  A
    daemon ([crates/bullet-gitd]) reads one JSON request per line, asks an authority
    gateway for a single-use permit, and serves the request through the workspace
    writer ([crates/bullet-git-workspace]).  The writer keeps the work in immutable
    generations behind one pointer file, journals every mutation in checksummed batches
    ([crates/bullet-git-journal]), and stores every file version in a content store.
    The identities that bind all of this (digests, Candidates, proof roots, integration
    roots) are [crates/bullet-git-types].

    ** How the development is organised

    Every component is a file.  Its data are the records and enums of the source, its
    operations one definition per function, executable, and named as in the source.
    Refusals are values of [result]; [let?], [;?] (here) are the source's [?].  Code that changes
    persistent state is a [script] ([Disk]): it yields every state that it exposes, in
    order, and a crash leaves one of them, so "crash-safe" is a statement about each
    state of the trace.  What the program does not decide (an error of a system call,
    what another process does meanwhile, the bytes a peer sends) is a field of an
    environment record, keyed by the call's context text and path; the theorems are for
    every environment unless they name an assumption.

    - Types.  [Digests] (lib.rs: errors, digests, length-prefixed framing), [Ids]
      (ids.rs), [Proposal] (proposal.rs), [Candidate] (change.rs, change_candidate.rs),
      [ProofRoots] (change_proof.rs), [Lineage] (lineage.rs), [Integration]
      (integration*.rs).  Shown: parsers accept exactly the documented grammar; a
      proposal is accepted exactly when it is valid; a root verifies only for the
      subject it was bound to, or an exact pair of colliding preimages is exhibited
      (nothing is assumed of the hash); the lineage vector answers any sequence of
      changes, edges and queries as a finite map does.
    - Journal.  [Journal] (lib.rs, storage.rs, durable.rs of bullet-git-journal).
      Shown: every directory state of an append loads to the old or the new history;
      equal heads have equal histories or collide.
    - Workspace storage.  [Cas] (cas.rs, cas_io.rs, fsync.rs), [Generation]
      (generation*.rs, tree_copy.rs), [Scope] (scope.rs, patch.rs, status.rs,
      advisers.rs), [Apply] (apply.rs and apply/: the descriptor-relative application
      of a batch and its rollback, for every failure of every system call).  Shown:
      crash safety of put and publish, objects never change, the walk over the
      ancestors of a generation ends, a failed batch is rolled back exactly, a batch
      that meets a symbolic link is refused.
    - Git.  [GitPin] (safe_git/binary*.rs: the pinned executable and its bounded
      execution), [SafeGit] (safe_git.rs, git_config.rs, gc.rs: the isolated command and
      the inspection of the repository's configuration).  Shown: a pin executes bytes
      of its digest whatever happens to the disk; every command returns, bounded; a
      repository with a hostile configuration is refused before Git runs in it.
      Everything else uses Git through the class [GitBinary]: any answer, any change of
      the tree; [GitLaws] and [GitDirectories] state what is relied on.
    - Workspace life.  [Mirror] (mirror.rs: the lock), [Reflink] (reflink.rs), [Clone]
      ([PrivateClone::create]), [Repository] (repository*.rs: the writer, every
      operation a script over a [site]), [Publication] and [Preparation] (its
      invariant and the crash safety of its publications), [Artifact] and
      [Preservation] (preservation*.rs: the salvage artifact, its sealed receipt, the
      deletion), [Salvage] (their theorems), [Writer] (a concrete site).  Shown: at any
      crash point a workspace serves the old state or the complete new one; a
      workspace is deleted only when a sealed receipt names its state and the artifact
      holds that state, its entries, objects and journal.
    - Daemon.  [Protocol] (protocol.rs: bounded frames), [StrictJson] and [Ledger]
      (mutation_ledger*.rs, mutation_recovery.rs), [Gateway] (authority_gateway.rs and
      authority_gateway/), [KernelPermit] (kernel_permit.rs and kernel_permit/: the
      production checker over a Unix socket), [MemoryRepo] (lib.rs), [Daemon]
      (daemon.rs, daemon_handlers.rs, daemon/codec.rs, main.rs), [Served] (the daemon
      over the durable writer), [Fixture] (fixture_permit.rs, authority_gateway/fixture.rs,
      bin/fixture_main.rs: the demonstration's checker and its one-use root).  Shown:
      over any interleaving, crash and restart a mutation is executed at most once in a
      ledger directory, and settled to one outcome; a reported success is durable and
      published; every other end freezes the daemon; every request line is answered
      once and in order until the input ends, a handler panics or an answer cannot be
      delivered; a permit of [authorize] comes from one exchange with the authenticated
      server, for exactly that request, and a preservation receipt permits nothing but
      the deletion of its workspace; a fixture root serves one clone.
    - Audit ([crates/bullet-git-workspace/src/bin/bullet-ci-jankurai], the tool that
      admits the local audit scanner and checks what it leaves).  [AuditJson]
      (report_policy/strict_json.rs), [AuditPolicy] (report_policy/mod.rs: a report
      under the committed policy and the ratchet), [AuditTool] (tool.rs, admission.rs,
      descriptors.rs, execution.rs, record.rs: one run of the scanner and the record it
      leaves), [AuditInventory] (observation/inventory.rs, common.rs), [AuditRecord]
      (observation/tool_record.rs), [AuditObservation] (observation/validate.rs),
      [AuditBootstrap] (observation/bootstrap*.rs), [AuditCapture] (artifacts.rs,
      report.rs, observation/mod.rs, cli.rs: the collection, the published observation
      and its check), [AuditAgreement] (the producer against the validator).  Shown:
      accepted ratchet steps never decay; a collection accounts for every entry but the
      files its producer writes afterwards; the runner returns zero only for a record
      that was written and synced row by row, and every such record is accepted with
      just the status it returned; an observation that the check accepts is the one its
      run left, of a passing audit of that commit, with everything it rests on unchanged
      when read again.  The observation is unsigned: nothing is claimed of who wrote it.
    - [Prelude], [Paths], [Decimal], [Disk]: what the components share.

    Components meet at classes: [FinalAuthorityCheck] (gateway and its checker),
    [AgentRepository] and [WorkspaceService] (daemon and writer), [GitBinary] (writer
    and Git), and the codec classes.  A client is proved against the class, and the
    implementation is shown to be an instance ([KernelPermit.kernel_checker],
    [Fixture.fixture_checker], [Served.real_agent]).

    ** Parameters and assumptions

    BLAKE3, the [hex] crate, [serde_json] and [serde_jcs] on each type, Unicode
    normalization and case folding, and [Debug] of a string are classes; what is relied
    on is a class of laws of its own ([HexLaws], [GenerationCodecLaws], ...), of
    documented behaviour, and every theorem that uses one has a concrete instance on
    which it is applied, in the [...Reference] modules.  The system calls themselves are
    taken to be atomic, [rename] and [link] to replace or create a name in one step, and
    a state that a call has exposed to survive a crash or not as a whole.

    ** Integers, fuel and bounds

    [u64] and [u32] values are [N] with the source's checked or saturating operations
    written out ([checked_add], [saturating_add]).  Recursion that is not structural has
    fuel: [Generation.lineage_fuel] is the number of generation directories and one
    ([lineage_walk_terminates]); [GitPin.execute_fuel] is the deadline, as the clock
    advances in every round ([execute_bounded]); [trim] takes the length of the text;
    [AuditInventory.SCAN_FUEL] is 257 directories, as at most 256 entries are listed, and
    [AuditBootstrap.SOURCE_FUEL] 4,097 turns, as each counts one of 4,096 entries;
    the frame reader and the daemon's loop recurse on the chunks of the input.  A JSON
    value is taken to be read back when its arrays and objects are nested at most
    [AuditAgreement.MAX_NESTING] deep, the limit of the parser.

    ** What is not modelled

    [contracts/generated] and [bullet-git-types/src/schema_bundle.rs] are generated
    schemas.  Outside Linux the descriptor-relative application, the pinned Git and the
    socket refuse everything or take another path; only the Linux code is modelled.
    [fuzz], [ops], [scripts] and [tools] replay fuzz inputs and run the continuous
    integration; they have no part in what the programs do.  Of the audit tool the lines
    it prints are left out, with the killing of a child it gives up on.  The marker of a
    fixture root is written without a sync of its directory: a crash here is one of the
    process, not of the machine.  Pointer-level details (descriptor numbers, buffers) and
    the scheduling of threads inside a process are not modelled. *)

From stdpp Require Export base gmap list strings pretty sorting.
From Stdlib Require Export ZArith NArith Lia Init.Byte.
From Stdlib Require Strings.Byte Strings.Ascii Strings.String.
Export (notations) Stdlib.Strings.Ascii.

#[global] Open Scope string_scope.
#[global] Open Scope list_scope.
#[global] Open Scope N_scope.

(** ** Fallible code: Rust's [Result] *)

Inductive result (A E : Type) : Type :=
  | Ok (a : A)
  | Err (e : E).
Arguments Ok {A E} _.
Arguments Err {A E} _.

#[export] Instance result_eq_dec `{EqDecision A, EqDecision E} : EqDecision (result A E).
Proof. solve_decision. Defined.

(** The [?] operator. *)
Definition res_bind {A B E} (e : result A E) (k : A → result B E) : result B E :=
  match e with Ok a => k a | Err err => Err err end.

Definition map_err {A E F} (f : E → F) (e : result A E) : result A F :=
  match e with Ok a => Ok a | Err err => Err (f err) end.

Definition res_map {A B E} (f : A → B) (e : result A E) : result B E :=
  match e with Ok a => Ok (f a) | Err err => Err err end.

Definition ok_or {A E} (o : option A) (err : E) : result A E :=
  match o with Some a => Ok a | None => Err err end.

Definition res_ok {A E} (e : result A E) : option A :=
  match e with Ok a => Some a | Err _ => None end.

Definition is_ok {A E} (e : result A E) : bool :=
  match e with Ok _ => true | Err _ => false end.

(** [if c { return Err(err); }] *)
Definition fail_if {E} (c : bool) (err : E) : result unit E :=
  if c then Err err else Ok tt.

Declare Scope result_scope.
Delimit Scope result_scope with result.
Notation "'let?' x ':=' e 'in' k" := (res_bind e (λ x, k))
  (at level 200, x name, e at level 100, k at level 200) : result_scope.
Notation "'let?' ' p ':=' e 'in' k" := (res_bind e (λ x, match x with p => k end))
  (at level 200, p pattern, e at level 100, k at level 200) : result_scope.
Notation "e ;? k" := (res_bind e (λ _ : unit, k))
  (at level 100, k at level 200, right associativity) : result_scope.
#[global] Open Scope result_scope.

(** Loops whose body may return early. *)
Fixpoint try_for {A E} (f : A → result unit E) (l : list A) : result unit E :=
  match l with
  | [] => Ok tt
  | x :: l => f x ;? try_for f l
  end.

Fixpoint try_map {A B E} (f : A → result B E) (l : list A) : result (list B) E :=
  match l with
  | [] => Ok []
  | x :: l => let? y := f x in let? ys := try_map f l in Ok (y :: ys)
  end.

Fixpoint try_fold {A S E} (f : S → A → result S E) (s : S) (l : list A) : result S E :=
  match l with
  | [] => Ok s
  | x :: l => let? s := f s x in try_fold f s l
  end.

(** ** Machine integers: [u64], [u32] and [usize] are [N] below a bound *)

Definition u64_max : N := 18446744073709551615.
Definition usize_max : N := u64_max.
Definition isize_max : N := 9223372036854775807.

Definition checked_add (x y : N) : option N :=
  if x + y <=? u64_max then Some (x + y) else None.

Definition saturating_add (x y : N) : N := N.min (x + y) u64_max.

(** [Display] of an unsigned integer. *)
Definition u64_to_string (n : N) : string := pretty n.

(** ** Bytes and UTF-8 strings

    A Rust [String] is its sequence of UTF-8 bytes, a Rocq [string]; a
    [Vec<u8>] is a list of bytes.  Every string operation used by the sources
    has an ASCII pattern, for which the byte-wise reading is exact. *)

Abbreviation ascii := Ascii.ascii.
Abbreviation bytes := (list byte).

#[export] Instance byte_eq_dec : EqDecision byte := Byte.byte_eq_dec.

Definition as_bytes (s : string) : bytes := String.list_byte_of_string s.
Definition slen (s : string) : N := N.of_nat (String.length s).
Definition blen {A} (b : list A) : N := N.of_nat (length b).

Definition byte_of_N (x : N) : byte := default x00 (Byte.of_N (x mod 256)).

(** [to_le_bytes], for an integer of [n] bytes. *)
Fixpoint le_bytes (n : nat) (x : N) : bytes :=
  match n with
  | O => []
  | S n => byte_of_N x :: le_bytes n (x / 256)
  end.
Definition u64_le_bytes (x : N) : bytes := le_bytes 8 x.
#[global] Arguments u64_le_bytes : simpl never.
#[global] Arguments blen : simpl never.
#[global] Arguments slen : simpl never.

Fixpoint le_value (b : bytes) : N :=
  match b with
  | [] => 0
  | x :: b => Byte.to_N x + 256 * le_value b
  end.

Fixpoint chars_all (p : ascii → bool) (s : string) : bool :=
  match s with
  | EmptyString => true
  | String c s => p c && chars_all p s
  end.
Definition chars_any (p : ascii → bool) (s : string) : bool :=
  negb (chars_all (λ c, negb (p c)) s).

Definition is_ascii_digit (c : ascii) : bool :=
  (48 <=? Ascii.N_of_ascii c) && (Ascii.N_of_ascii c <=? 57).
Definition is_af (c : ascii) : bool :=
  (97 <=? Ascii.N_of_ascii c) && (Ascii.N_of_ascii c <=? 102).
Definition is_lower_hex_char (c : ascii) : bool := is_ascii_digit c || is_af c.
Definition is_ascii_hexdigit (c : ascii) : bool :=
  is_lower_hex_char c || ((65 <=? Ascii.N_of_ascii c) && (Ascii.N_of_ascii c <=? 70)).
Definition is_ascii_graphic (c : ascii) : bool :=
  (33 <=? Ascii.N_of_ascii c) && (Ascii.N_of_ascii c <=? 126).
Definition to_ascii_lower (c : ascii) : ascii :=
  if (65 <=? Ascii.N_of_ascii c) && (Ascii.N_of_ascii c <=? 90)
  then Ascii.ascii_of_N (Ascii.N_of_ascii c + 32) else c.

Fixpoint str_map (f : ascii → ascii) (s : string) : string :=
  match s with
  | EmptyString => EmptyString
  | String c s => String (f c) (str_map f s)
  end.
Definition to_ascii_lowercase (s : string) : string := str_map to_ascii_lower s.
Definition eq_ignore_ascii_case (s t : string) : bool :=
  String.eqb (to_ascii_lowercase s) (to_ascii_lowercase t).

Fixpoint strip_prefix (p s : string) : option string :=
  match p, s with
  | EmptyString, _ => Some s
  | String c p, String d s => if Ascii.eqb c d then strip_prefix p s else None
  | String _ _, EmptyString => None
  end.
Definition starts_with (p s : string) : bool :=
  match strip_prefix p s with Some _ => true | None => false end.

Fixpoint strip_suffix (q s : string) : option string :=
  if String.eqb s q then Some EmptyString
  else match s with
       | EmptyString => None
       | String c s => option_map (String c) (strip_suffix q s)
       end.
Definition ends_with (q s : string) : bool :=
  match strip_suffix q s with Some _ => true | None => false end.

Fixpoint str_contains (needle s : string) : bool :=
  starts_with needle s ||
  match s with EmptyString => false | String _ s => str_contains needle s end.

Fixpoint char_contains (c : ascii) (s : string) : bool :=
  match s with
  | EmptyString => false
  | String d s => Ascii.eqb c d || char_contains c s
  end.

(** [str::split] on a one-byte pattern; never empty. *)
Fixpoint split (c : ascii) (s : string) : list string :=
  match s with
  | EmptyString => [EmptyString]
  | String d s =>
      if Ascii.eqb c d then EmptyString :: split c s
      else match split c s with
           | [] => [String d EmptyString]
           | w :: ws => String d w :: ws
           end
  end.

Fixpoint split_once (c : ascii) (s : string) : option (string * string) :=
  match s with
  | EmptyString => None
  | String d s =>
      if Ascii.eqb c d then Some (EmptyString, s)
      else option_map (λ '(a, b), (String d a, b)) (split_once c s)
  end.

(** The byte slice [&s[n..]]. *)
Fixpoint str_drop (n : nat) (s : string) : string :=
  match n, s with
  | O, _ => s
  | S n, String _ s => str_drop n s
  | S _, EmptyString => EmptyString
  end.

(** [slice::windows(2)] with [any]. *)
Fixpoint windows2_any {A} (p : A → A → bool) (l : list A) : bool :=
  match l with
  | x :: ((y :: _) as l') => p x y || windows2_any p l'
  | _ => false
  end.

(** ** [BTreeMap<String, V>]: an association list sorted by key

    [btree_insert] returns the value it replaced, as [BTreeMap::insert]. *)
Fixpoint btree_insert {V} (k : string) (v : V) (m : list (string * V))
    : option V * list (string * V) :=
  match m with
  | [] => (None, [(k, v)])
  | (k', v') :: m' =>
      match String.compare k k' with
      | Eq => (Some v', (k, v) :: m')
      | Lt => (None, (k, v) :: m)
      | Gt => let '(o, m'') := btree_insert k v m' in (o, (k', v') :: m'')
      end
  end.

(** The nested loop [for (i, x) in it.enumerate() { for y in it.skip(i + 1) }]. *)
Fixpoint try_pairs {A E} (f : A → A → result unit E) (l : list A) : result unit E :=
  match l with
  | [] => Ok tt
  | x :: l => try_for (f x) l ;? try_pairs f l
  end.

(** ** Lemmas on results *)

Lemma res_bind_Ok {A B E} (e : result A E) (k : A → result B E) b :
  res_bind e k = Ok b ↔ ∃ a, e = Ok a ∧ k a = Ok b.
Proof. destruct e; simpl; naive_solver. Qed.

Lemma res_bind_unit {E} (e k : result unit E) : (e ;? k) = Ok tt ↔ e = Ok tt ∧ k = Ok tt.
Proof. destruct e as [[]|]; simpl; naive_solver. Qed.

Lemma res_bind_Err {A B E} (e : result A E) (k : A → result B E) err :
  res_bind e k = Err err ↔ e = Err err ∨ ∃ a, e = Ok a ∧ k a = Err err.
Proof. destruct e; simpl; naive_solver. Qed.

Lemma map_err_Ok {A E F} (f : E → F) (e : result A E) a :
  map_err f e = Ok a ↔ e = Ok a.
Proof. destruct e; simpl; naive_solver. Qed.

Lemma res_map_Ok {A B E} (f : A → B) (e : result A E) b :
  res_map f e = Ok b ↔ ∃ a, e = Ok a ∧ b = f a.
Proof. destruct e; simpl; naive_solver. Qed.

Lemma ok_or_Ok {A E} (o : option A) (err : E) a :
  ok_or o err = Ok a ↔ o = Some a.
Proof. destruct o; simpl; naive_solver. Qed.

Lemma fail_if_Ok {E} c (err : E) u : fail_if c err = Ok u ↔ c = false.
Proof. destruct c, u; simpl; naive_solver. Qed.

Lemma fail_if_Err {E} c (err err' : E) : fail_if c err = Err err' ↔ c = true ∧ err' = err.
Proof. destruct c; simpl; naive_solver. Qed.

Lemma is_ok_true {A E} (e : result A E) : is_ok e = true ↔ ∃ a, e = Ok a.
Proof. destruct e; simpl; naive_solver. Qed.

Lemma try_for_Ok {A E} (f : A → result unit E) l u :
  try_for f l = Ok u ↔ Forall (λ x, f x = Ok tt) l.
Proof.
  destruct u. induction l as [|x l IH]; simpl; [by split; [constructor|]|].
  rewrite res_bind_Ok, list.Forall_cons. split.
  - intros ([] & ? & ?%IH). done.
  - intros [? ?%IH]. by exists tt.
Qed.

Lemma try_map_Ok {A B E} (f : A → result B E) l l' :
  try_map f l = Ok l' ↔ Forall2 (λ x y, f x = Ok y) l l'.
Proof.
  revert l'. induction l as [|x l IH]; intros l'; simpl.
  - split; [intros [= <-]; constructor | intros H; inversion H; done].
  - rewrite res_bind_Ok. split.
    + intros (y & Hy & (ys & Hys%IH & [= <-])%res_bind_Ok). by constructor.
    + intros H. inversion H as [|? y ? ys Hy Hys]; subst.
      exists y. split; [done|]. apply res_bind_Ok. exists ys. by rewrite IH.
Qed.

Create HintDb results.
Create HintDb bools.
#[export] Hint Rewrite @res_bind_Ok @map_err_Ok @res_map_Ok @ok_or_Ok @fail_if_Ok
  @try_for_Ok @try_map_Ok : results.

(** Turn [e1; e2; ... = Ok v] hypotheses into the success of every step. *)
Ltac res_inv :=
  repeat match goal with
  | H : Ok _ = Ok _ |- _ => injection H as H; subst
  | H : Err _ = Err _ |- _ => injection H as H; subst
  | H : Ok _ = Err _ |- _ => discriminate H
  | H : Err _ = Ok _ |- _ => discriminate H
  | H : res_bind _ _ = Ok _ |- _ =>
      let a := fresh "r" in let Ha := fresh "Hr" in
      apply res_bind_Ok in H as (a & Ha & H)
  | H : fail_if _ _ = Ok _ |- _ => apply fail_if_Ok in H
  | H : map_err _ _ = Ok _ |- _ => apply map_err_Ok in H
  | H : ok_or _ _ = Ok _ |- _ => apply ok_or_Ok in H
  | H : res_map _ _ = Ok _ |- _ =>
      let a := fresh "r" in let Ha := fresh "Hr" in
      apply res_map_Ok in H as (a & Ha & H)
  | u : unit |- _ => destruct u
  end.

(** ** Sorted association lists *)

Lemma string_compare_gt_irrefl s : String.compare s s = Eq.
Proof. induction s as [|c s IH]; simpl; [done|]. unfold Ascii.compare. by rewrite N.compare_refl. Qed.

Lemma btree_insert_keys {V} k (v : V) m o m' :
  btree_insert k v m = (o, m') → o = None → map fst m' ≡ₚ k :: map fst m.
Proof.
  revert o m'. induction m as [|[k' v'] m IH]; intros o m'; simpl.
  - intros [= <- <-] _. done.
  - destruct (String.compare k k'); [intros [= <- <-] [=]|intros [= <- <-] _; done|].
    destruct (btree_insert k v m) as [o' m''] eqn:E. intros [= <- <-] ->. simpl.
    rewrite (IH None m''); [|done..]. by rewrite Permutation_swap.
Qed.

Lemma btree_insert_Some {V} k (v : V) m o m' :
  btree_insert k v m = (Some o, m') → k ∈ map fst m.
Proof.
  revert m'. induction m as [|[k' v'] m IH]; intros m'; simpl; [done|].
  destruct (String.compare k k') eqn:Hc; [|done|].
  - intros _. apply String.compare_eq_iff in Hc as ->. by left.
  - destruct (btree_insert k v m) as [o' m''] eqn:E. intros [= -> <-].
    right. by eapply IH.
Qed.

Definition keys_sorted {V} (m : list (string * V)) : Prop :=
  StronglySorted (λ x y, String.compare (fst x) (fst y) = Lt) m.

Lemma string_compare_trans_lt s t u :
  String.compare s t = Lt → String.compare t u = Lt → String.compare s u = Lt.
Proof.
  intros H1 H2. assert (String.le s u) as Hle.
  { transitivity t; unfold String.le, String.leb; [by rewrite H1|by rewrite H2]. }
  unfold String.le, String.leb in Hle. destruct (String.compare s u) eqn:E; [|done..].
  apply String.compare_eq_iff in E as ->.
  rewrite String.compare_antisym, H2 in H1. done.
Qed.

Lemma btree_insert_sorted {V} k (v : V) m :
  keys_sorted m → keys_sorted (snd (btree_insert k v m)) ∧
  ((∃ o, fst (btree_insert k v m) = Some o) ↔ k ∈ map fst m) ∧
  Forall (λ x, fst x = k ∨ fst x ∈ map fst m) (snd (btree_insert k v m)).
Proof.
  unfold keys_sorted. induction 1 as [|[k' v'] m Hm IH Hall]; simpl.
  - split; [repeat constructor|]. split; [|by repeat constructor; left].
    split; [intros [? [=]]|intros H; inversion H].
  - destruct (String.compare k k') eqn:Hc.
    + apply String.compare_eq_iff in Hc as ->. simpl. split; [by constructor|].
      split; [split; [by left|by eauto]|]. constructor; [by left|].
      rewrite Forall_forall. intros [a b] Hab. right. right.
      by apply (list_elem_of_fmap_2 fst m (a, b)).
    + simpl. split.
      * repeat constructor; [done..|]. eapply Forall_impl; [exact Hall|].
        intros [a b] Hab. simpl in *. by eapply string_compare_trans_lt.
      * split.
        -- split; [intros [? [=]]|]. intros [->|Hin]%elem_of_cons.
           ++ by rewrite string_compare_gt_irrefl in Hc.
           ++ exfalso. apply list_elem_of_fmap_1 in Hin as [[a b] [-> Hin]].
              rewrite Forall_forall in Hall. apply Hall in Hin. simpl in Hin, Hc.
              pose proof (string_compare_trans_lt _ _ _ Hc Hin) as Hx.
              by rewrite string_compare_gt_irrefl in Hx.
        -- constructor; [by left|]. rewrite Forall_forall. intros [a b] Hab. right.
           by apply (list_elem_of_fmap_2 fst ((k', v') :: m) (a, b)).
    + destruct (btree_insert k v m) as [o m'] eqn:E. simpl in *.
      destruct IH as (IH1 & IH2 & IH3). split; [|split].
      * constructor; [done|]. eapply Forall_impl; [exact IH3|].
        intros [a b] [Ha|Ha]; simpl in *.
        -- subst. rewrite String.compare_antisym, Hc. done.
        -- apply list_elem_of_fmap_1 in Ha as [[a' b'] [-> Hin]].
           rewrite Forall_forall in Hall. by apply Hall in Hin.
      * rewrite IH2, elem_of_cons. split; [by right|]. intros [->|]; [|done].
        by rewrite string_compare_gt_irrefl in Hc.
      * constructor; [right; by left|]. eapply Forall_impl; [exact IH3|].
        intros x [?|?]; [by left|right; by right].
Qed.

Lemma btree_insert_fresh {V} k (v : V) m m' :
  keys_sorted m → btree_insert k v m = (None, m') →
  keys_sorted m' ∧ k ∉ map fst m ∧ map fst m' ≡ₚ k :: map fst m.
Proof.
  intros Hs E. pose proof (btree_insert_sorted k v m Hs) as (H1 & H2 & _).
  rewrite E in *. simpl in *. split; [done|]. split.
  - intros Hin. apply H2 in Hin as [? [=]].
  - by eapply btree_insert_keys.
Qed.

Lemma try_pairs_Ok {A E} (f : A → A → result unit E) l u :
  try_pairs f l = Ok u ↔ ForallOrdPairs (λ x y, f x y = Ok tt) l.
Proof.
  destruct u. induction l as [|x l IH]; simpl.
  - split; [constructor|done].
  - rewrite res_bind_Ok. split.
    + intros ([] & H%try_for_Ok & ?%IH). by constructor.
    + intros H. inversion H; subst. exists tt.
      split; [by apply try_for_Ok|by apply IH].
Qed.

Lemma ForallOrdPairs_Permutation {A} (R : A → A → Prop) l l' :
  (∀ x y, R x y → R y x) → l ≡ₚ l' → ForallOrdPairs R l → ForallOrdPairs R l'.
Proof.
  intros Hsym Hp. induction Hp as [|x l l' Hp IH|x y l|]; intros H.
  - done.
  - inversion H; subst. constructor; [by rewrite <- Hp|by apply IH].
  - inversion H as [|? ? Hx Hr]; subst. inversion Hr; subst. inversion Hx; subst.
    constructor; [constructor; auto|]. by constructor.
  - auto.
Qed.

Lemma ForallOrdPairs_iff {A} (R S : A → A → Prop) l :
  (∀ x y, R x y ↔ S x y) → ForallOrdPairs R l ↔ ForallOrdPairs S l.
Proof.
  intros HRS. induction l as [|x l IH].
  - split; constructor.
  - split; intros H; inversion H; subst; constructor; try (by apply IH);
      (eapply Forall_impl; [eassumption|]); intros y; apply HRS.
Qed.

Lemma ForallOrdPairs_map {A B} (f : A → B) (R : B → B → Prop) l :
  ForallOrdPairs R (map f l) ↔ ForallOrdPairs (λ x y, R (f x) (f y)) l.
Proof.
  induction l as [|x l IH]; simpl.
  - split; constructor.
  - split; intros H; inversion H as [|? ? Hx Hr]; subst; constructor;
      [exact (proj1 (List.Forall_map _ _ _) Hx)|by apply IH
      |exact (proj2 (List.Forall_map _ _ _) Hx)|by apply IH].
Qed.

(** ** Booleans *)

Lemma negb_bool_decide_false (P : Prop) `{Decision P} :
  negb (bool_decide P) = false ↔ P.
Proof. by case_bool_decide. Qed.

Lemma bool_decide_ne_false (P : Prop) `{Decision P} :
  bool_decide (¬ P) = false ↔ P.
Proof. case_bool_decide; split; intros; [done|naive_solver..|]. by destruct (decide P). Qed.

Lemma existsb_false {A} (p : A → bool) l : existsb p l = false ↔ ∀ x, x ∈ l → p x = false.
Proof.
  induction l as [|x l IH]; simpl; [by split; [intros _ y Hy%elem_of_nil|]|].
  setoid_rewrite elem_of_cons. rewrite orb_false_iff, IH. naive_solver.
Qed.

#[export] Hint Rewrite andb_true_iff andb_false_iff orb_true_iff orb_false_iff
  negb_true_iff negb_false_iff N.leb_le N.leb_gt N.ltb_lt N.ltb_ge N.eqb_eq N.eqb_neq
  @bool_decide_eq_true @bool_decide_eq_false String.eqb_eq String.eqb_neq : bools.

Ltac bools := autorewrite with bools in *.

(** ** Little-endian integers *)

Lemma length_le_bytes n x : length (le_bytes n x) = n.
Proof. revert x; induction n; intros; simpl; [done|]. by rewrite IHn. Qed.

Lemma to_N_byte_of_N x : Byte.to_N (byte_of_N x) = x mod 256.
Proof.
  unfold byte_of_N. pose proof (N.mod_upper_bound x 256).
  destruct (Byte.of_N (x mod 256)) as [b|] eqn:Hb; simpl.
  - by apply Byte.to_of_N.
  - apply Byte.of_N_None_iff in Hb. lia.
Qed.

Lemma le_value_le_bytes n x : x < 256 ^ N.of_nat n → le_value (le_bytes n x) = x.
Proof.
  revert x; induction n as [|n IH]; intros x Hx; simpl.
  - change (256 ^ N.of_nat 0) with 1 in Hx. lia.
  - rewrite to_N_byte_of_N, IH.
    + pose proof (N.div_mod x 256). lia.
    + rewrite Nat2N.inj_succ, N.pow_succ_r' in Hx. by apply N.Div0.div_lt_upper_bound.
Qed.

Lemma u64_le_bytes_inj x y :
  x <= u64_max → y <= u64_max → u64_le_bytes x = u64_le_bytes y → x = y.
Proof.
  intros Hx Hy H. apply (f_equal le_value) in H. unfold u64_le_bytes in H.
  rewrite !le_value_le_bytes in H; [done|..]; unfold u64_max in *; simpl; lia.
Qed.

Lemma length_u64_le_bytes x : length (u64_le_bytes x) = 8%nat.
Proof. apply length_le_bytes. Qed.

(** ** Strings and bytes *)

#[export] Instance as_bytes_inj : Inj (=) (=) as_bytes.
Proof.
  intros s t H. apply (f_equal String.string_of_list_byte) in H. unfold as_bytes in H.
  by rewrite !String.string_of_list_byte_of_string in H.
Qed.

Lemma length_as_bytes s : length (as_bytes s) = String.length s.
Proof.
  unfold as_bytes, String.list_byte_of_string. rewrite length_map.
  induction s; simpl; by f_equal.
Qed.

Lemma blen_as_bytes s : blen (as_bytes s) = slen s.
Proof. unfold blen, slen. by rewrite length_as_bytes. Qed.

#[export] Instance u64_to_string_inj : Inj (=) (=) u64_to_string.
Proof. intros x y. apply pretty_N_inj. Qed.

Lemma string_app_nil s : "" +:+ s = s.
Proof. done. Qed.

Lemma string_app_cons c s t : String c s +:+ t = String c (s +:+ t).
Proof. done. Qed.

Lemma string_length_app s t : String.length (s +:+ t) = (String.length s + String.length t)%nat.
Proof. induction s; simpl; [done|]. unfold String.app in *. simpl. by f_equal. Qed.

Lemma slen_app s t : slen (s +:+ t) = slen s + slen t.
Proof. unfold slen. rewrite string_length_app. lia. Qed.

Lemma string_app_nil_r s : s +:+ "" = s.
Proof. induction s as [|c s IH]; [done|]. unfold String.app in *. simpl. by f_equal. Qed.

Lemma string_app_assoc s t u : (s +:+ t) +:+ u = s +:+ (t +:+ u).
Proof. induction s as [|c s IH]; [done|]. unfold String.app in *. simpl. by f_equal. Qed.

Lemma strip_prefix_Some p s r : strip_prefix p s = Some r ↔ s = p +:+ r.
Proof.
  revert s. induction p as [|c p IH]; intros s; simpl.
  - unfold String.app; simpl. naive_solver.
  - destruct s as [|d s]; [split; [done|]; unfold String.app; simpl; done|].
    destruct (Ascii.eqb_spec c d) as [->|Hne].
    + rewrite IH. unfold String.app; simpl. naive_solver.
    + split; [done|]. unfold String.app; simpl. congruence.
Qed.

Lemma string_app_inj_len s s' t t' :
  String.length s = String.length s' → s +:+ t = s' +:+ t' → s = s' ∧ t = t'.
Proof.
  revert s'. induction s as [|c s IH]; intros [|c' s']; simpl; try done.
  rewrite !string_app_cons. intros [= Hlen] [= -> H]. by destruct (IH s' Hlen H) as [-> ->].
Qed.

Lemma string_app_inj_len_r s s' t t' :
  String.length t = String.length t' → s +:+ t = s' +:+ t' → s = s' ∧ t = t'.
Proof.
  intros Hlen H. apply string_app_inj_len; [|done].
  apply (f_equal String.length) in H. rewrite !string_length_app in H. lia.
Qed.

Lemma str_drop_app p r : str_drop (String.length p) (p +:+ r) = r.
Proof. induction p as [|c p IH]; [done|]. by rewrite string_app_cons. Qed.

Lemma strip_prefix_app p r : strip_prefix p (p +:+ r) = Some r.
Proof. by apply strip_prefix_Some. Qed.

Lemma starts_with_spec p s : starts_with p s = true ↔ ∃ r, s = p +:+ r.
Proof.
  unfold starts_with. destruct (strip_prefix p s) as [r|] eqn:H.
  - apply strip_prefix_Some in H. naive_solver.
  - split; [done|]. intros [r Hr%strip_prefix_Some]. congruence.
Qed.

Lemma strip_suffix_eq q s :
  strip_suffix q s =
    if String.eqb s q then Some ""
    else match s with
         | EmptyString => None
         | String c s => option_map (String c) (strip_suffix q s)
         end.
Proof. by destruct s. Qed.

Lemma strip_suffix_Some q s r : strip_suffix q s = Some r ↔ s = r +:+ q.
Proof.
  revert r. induction s as [|c s IH]; intros r; rewrite strip_suffix_eq.
  - destruct (String.eqb_spec "" q) as [<-|Hne].
    + rewrite string_app_nil_r. naive_solver.
    + split; [done|]. destruct r; [|done]. rewrite string_app_nil. done.
  - destruct (String.eqb_spec (String c s) q) as [<-|Hne].
    + split; [intros [= <-]; done|]. intros H.
      apply (f_equal String.length) in H as Hl. rewrite string_length_app in Hl.
      destruct r; [done|]. simpl in Hl. lia.
    + destruct r as [|d r]; rewrite ?string_app_nil, ?string_app_cons.
      * split; [destruct (strip_suffix q s); done|]. done.
      * destruct (strip_suffix q s) as [r'|] eqn:E; simpl.
        -- assert (s = r' +:+ q) as E' by (by apply IH).
           split; [intros [= <- <-]; by rewrite E'|].
           intros [= <- H%IH]. by injection H as ->.
        -- split; [done|]. intros [= <- H%IH]. done.
Qed.

Lemma chars_all_app p s t : chars_all p (s +:+ t) = chars_all p s && chars_all p t.
Proof.
  induction s as [|c s IH]; simpl; [done|]. unfold String.app in *. simpl.
  by rewrite IH, andb_assoc.
Qed.

Lemma chars_all_impl (p q : ascii → bool) s :
  (∀ c, p c = true → q c = true) → chars_all p s = true → chars_all q s = true.
Proof. intros Hpq. induction s; simpl; [done|]. rewrite !andb_true_iff. naive_solver. Qed.

Lemma split_once_Some c s a b :
  split_once c s = Some (a, b) ↔ s = a +:+ String c b ∧ char_contains c a = false.
Proof.
  revert a b. induction s as [|d s IH]; intros a b; simpl.
  - split; [done|]. destruct a; naive_solver.
  - destruct (Ascii.eqb_spec c d) as [->|Hne].
    + split; [intros [= <- <-]; done|].
      destruct a as [|e a]; rewrite ?string_app_nil, ?string_app_cons.
      * naive_solver.
      * intros [[= <- H] H2]. simpl in H2. by rewrite Ascii.eqb_refl in H2.
    + destruct a as [|e a]; rewrite ?string_app_nil, ?string_app_cons; simpl.
      * destruct (split_once c s) as [[]|]; simpl; naive_solver congruence.
      * apply Ascii.eqb_neq in Hne.
        destruct (split_once c s) as [[a' b']|] eqn:E; simpl.
        -- assert (s = a' +:+ String c b' ∧ char_contains c a' = false) as E'
             by (by apply IH). split.
           ++ intros [= <- <- <-]. destruct E' as [-> ->]. by rewrite Hne.
           ++ intros [[= <- H] H2]. apply orb_false_iff in H2 as [_ H2].
              assert (Some (a', b') = Some (a, b)) as [= -> ->] by (by apply IH). done.
        -- split; [done|]. intros [[= <- H] H2]. apply orb_false_iff in H2 as [_ H2].
           assert (None = Some (a, b)) by (by apply IH). done.
Qed.

#[global] Opaque u64_le_bytes.
