(* ===== verification/Paths.v ===== *)
(** Absolute paths of [std::path], by their components. *)

From S2P Require Import Prelude.

(** The text of a path of components. *)
Definition path_text (p : list string) : string := String.concat "/" p.

(** [Path::components] of an absolute path, without the root. *)
Definition components (path : string) : list string :=
  List.filter (λ c, negb (String.eqb c "" || String.eqb c ".")) (split "/" path).

Definition absolute (path : list string) : string := "/" +:+ path_text path.

(** Two absolute paths are equal when their components are. *)
Definition same_path (p q : string) : bool := bool_decide (components p = components q).

(** [Path::parent] *)
Definition parent_path (path : string) : option string :=
  match reverse (components path) with [] => None | _ :: parent => Some (absolute (reverse parent)) end.

Lemma same_path_spec p q : same_path p q = true ↔ components p = components q.
Proof. unfold same_path. apply bool_decide_eq_true. Qed.
#[export] Hint Rewrite same_path_spec : bools.
