(* ===== verification/Decimal.v ===== *)
(** Decimal texts: fixed-width formatting ([{n:020}]), parsing of a [u64] from
    digits, and the facts about separators that file-name grammars need. *)

From S2P Require Import Prelude.

(** [format!("{n:020}")] is [dec_fixed 20]: every [u64] has at most twenty digits. *)
Definition digit_char (d : N) : ascii := Ascii.ascii_of_N (48 + d).
Fixpoint dec_fixed (width : nat) (n : N) : string :=
  match width with
  | O => ""
  | S width => dec_fixed width (n / 10) +:+ String (digit_char (n mod 10)) ""
  end.

(** The value of a text of digits, and [str::parse::<u64>] on such a text. *)
Fixpoint digits_value (acc : N) (s : string) : N :=
  match s with
  | EmptyString => acc
  | String c s => digits_value (acc * 10 + (Ascii.N_of_ascii c - 48)) s
  end.
Definition parse_u64_digits (s : string) : option N :=
  if digits_value 0 s <=? u64_max then Some (digits_value 0 s) else None.

Definition is_digits (s : string) : bool := chars_all is_ascii_digit s.

Definition u32_max : N := 4294967295.

(** [str::parse::<u32>] *)
Definition parse_u32 (s : string) : option N :=
  let digits := match s with String c r => if Ascii.eqb c "+" then r else s | "" => s end in
  if is_digits digits && negb (String.eqb digits "") && (digits_value 0 digits <=? u32_max)
  then Some (digits_value 0 digits) else None.

Lemma digit_char_value d : d < 10 → Ascii.N_of_ascii (digit_char d) = 48 + d.
Proof. intros Hd. unfold digit_char. apply Ascii.N_ascii_embedding. lia. Qed.

Lemma digit_char_digit d : d < 10 → is_ascii_digit (digit_char d) = true.
Proof. intros Hd. unfold is_ascii_digit. rewrite digit_char_value by done. bools. lia. Qed.

Lemma digits_value_app acc s t : digits_value acc (s +:+ t) = digits_value (digits_value acc s) t.
Proof. revert acc. induction s as [|c s IH]; intros acc; [done|]. rewrite string_app_cons. apply IH. Qed.

Lemma dec_fixed_length w n : String.length (dec_fixed w n) = w.
Proof.
  revert n. induction w as [|w IH]; intros n; simpl; [done|].
  rewrite string_length_app, IH. simpl. lia.
Qed.

Lemma dec_fixed_slen n : slen (dec_fixed 20 n) = 20.
Proof. unfold slen. by rewrite dec_fixed_length. Qed.

Lemma dec_fixed_digits w n : is_digits (dec_fixed w n) = true.
Proof.
  unfold is_digits. revert n. induction w as [|w IH]; intros n; simpl; [done|].
  rewrite chars_all_app, IH. simpl. rewrite digit_char_digit; [done|]. by apply N.mod_lt.
Qed.

Lemma dec_fixed_value w n : n < 10 ^ N.of_nat w → digits_value 0 (dec_fixed w n) = n.
Proof.
  revert n. induction w as [|w IH]; intros n Hn.
  - change (10 ^ N.of_nat 0) with 1 in Hn. simpl. lia.
  - rewrite Nat2N.inj_succ, N.pow_succ_r' in Hn. simpl.
    rewrite digits_value_app, IH by (by apply N.Div0.div_lt_upper_bound). simpl.
    rewrite digit_char_value by (by apply N.mod_lt).
    rewrite (N.add_comm 48), N.add_sub, N.mul_comm. symmetry. apply N.div_mod'.
Qed.

Lemma parse_dec_fixed n : n <= u64_max → parse_u64_digits (dec_fixed 20 n) = Some n.
Proof.
  intros Hn. unfold parse_u64_digits.
  rewrite dec_fixed_value by (unfold u64_max in Hn; change (10 ^ N.of_nat 20) with 100000000000000000000; lia).
  by apply N.leb_le in Hn as ->.
Qed.

(** ** Separators *)

Lemma char_contains_app c s t : char_contains c (s +:+ t) = char_contains c s || char_contains c t.
Proof.
  induction s as [|d s IH]; [done|]. rewrite string_app_cons. simpl. by rewrite IH, orb_assoc.
Qed.

Lemma chars_all_no_char p c s : p c = false → chars_all p s = true → char_contains c s = false.
Proof.
  intros Hc. induction s as [|d s IH]; simpl; [done|].
  intros [Hd Hs]%andb_true_iff. rewrite IH by done.
  destruct (Ascii.eqb_spec c d) as [->|]; [congruence|done].
Qed.

Lemma split_no_char c s : char_contains c s = false → split c s = [s].
Proof.
  induction s as [|d s IH]; simpl; [done|].
  intros [Hd Hs]%orb_false_iff. by rewrite Hd, IH.
Qed.

Lemma split_cons c a b : char_contains c a = false → split c (a +:+ String c b) = a :: split c b.
Proof.
  induction a as [|d a IH]; simpl.
  - intros _. by rewrite Ascii.eqb_refl.
  - intros [Hd Ha]%orb_false_iff. by rewrite Hd, IH.
Qed.

Lemma split_cons' c a b :
  char_contains c a = false → split c (a +:+ String c "" +:+ b) = a :: split c b.
Proof. apply split_cons. Qed.

Lemma digits_no_dash s : is_digits s = true → char_contains "-"%char s = false.
Proof. by apply chars_all_no_char. Qed.

Lemma lower_hex_no_dash s :
  chars_all is_lower_hex_char s = true → char_contains "-"%char s = false.
Proof. by apply chars_all_no_char. Qed.

(** ** [Display] of an unsigned integer *)

Lemma pretty_N_char_digit x : x < 10 → is_ascii_digit (pretty_N_char x) = true.
Proof.
  intros Hx. assert (x = 0 ∨ x = 1 ∨ x = 2 ∨ x = 3 ∨ x = 4 ∨ x = 5 ∨ x = 6 ∨ x = 7 ∨ x = 8 ∨ x = 9)
    as Hc by lia. by repeat destruct Hc as [->|Hc]; [..|subst].
Qed.

Lemma pretty_N_go_digits x s :
  is_digits s = true → s ≠ "" ∨ 0 < x → is_digits (pretty_N_go x s) = true ∧ pretty_N_go x s ≠ "".
Proof.
  revert s. induction (N.lt_wf_0 x) as [x _ IH]; intros s Hs Hne.
  destruct (decide (x = 0)) as [->|Hx].
  - rewrite pretty_N_go_0. split; [done|]. destruct Hne; [done|lia].
  - rewrite pretty_N_go_step by lia. apply IH.
    + apply N.div_lt; lia.
    + unfold is_digits in *. simpl. rewrite pretty_N_char_digit; [done|]. by apply N.mod_lt.
    + by left.
Qed.

Lemma u64_to_string_digits n : is_digits (u64_to_string n) = true ∧ u64_to_string n ≠ "".
Proof.
  unfold u64_to_string, pretty, pretty_N. case_decide; [done|].
  apply pretty_N_go_digits; [done|right; lia].
Qed.

Lemma pretty_N_char_value x : x < 10 → Ascii.N_of_ascii (pretty_N_char x) = 48 + x.
Proof.
  intros Hx. assert (x = 0 ∨ x = 1 ∨ x = 2 ∨ x = 3 ∨ x = 4 ∨ x = 5 ∨ x = 6 ∨ x = 7 ∨ x = 8 ∨ x = 9)
    as Hc by lia. by repeat destruct Hc as [->|Hc]; [..|subst].
Qed.

Lemma pretty_N_go_value x s : digits_value 0 (pretty_N_go x s) = digits_value x s.
Proof.
  revert s. induction (N.lt_wf_0 x) as [x _ IH]; intros s.
  destruct (decide (x = 0)) as [->|Hx]; [by rewrite pretty_N_go_0|].
  rewrite pretty_N_go_step by lia. rewrite IH by (apply N.div_lt; lia). simpl.
  rewrite pretty_N_char_value by (by apply N.mod_lt). f_equal.
  rewrite (N.add_comm 48), N.add_sub. pose proof (N.Div0.div_mod x 10). lia.
Qed.

Lemma u64_to_string_value n : digits_value 0 (u64_to_string n) = n.
Proof.
  unfold u64_to_string, pretty, pretty_N. case_decide; [by subst|]. apply pretty_N_go_value.
Qed.

Lemma parse_u32_to_string n : n <= u32_max → parse_u32 (u64_to_string n) = Some n.
Proof.
  intros Hn. unfold parse_u32. destruct (u64_to_string_digits n) as [Hd Hne].
  pose proof (u64_to_string_value n) as Hv.
  destruct (u64_to_string n) as [|c s] eqn:E; [done|].
  assert (Ascii.eqb c "+" = false) as ->.
  { unfold is_digits in Hd. simpl in Hd. apply andb_true_iff in Hd as [Hc _].
    destruct (Ascii.eqb_spec c "+") as [->|]; [by vm_compute in Hc|done]. }
  rewrite Hd, Hv. simpl. by rewrite (proj2 (N.leb_le n u32_max) Hn).
Qed.

#[global] Opaque dec_fixed u64_to_string.
