(* ===== verification/Digests.v ===== *)
(** [crates/bullet-git-types/src/lib.rs]: the typed identity errors, the
    32-byte [Digest] with its lowercase hexadecimal encoding, and the
    length-prefix framing under every multi-field hash preimage.

    Code outside the repository enters as two operational classes: [Blake3]
    (the hash function, about which nothing is assumed: binding theorems name
    the exact pair of colliding preimages) and [HexCrate] with the documented
    laws [HexLaws] of the [hex] crate.  [Reference] holds one concrete instance
    of each, used by the witnesses. *)

From S2P Require Import Prelude.

(** ** Errors *)

Inductive TypesError : Type :=
  | InvalidId (raw : string)
  | InvalidOid (raw : string)
  | Encoding (message : string).

#[export] Instance TypesError_eq_dec : EqDecision TypesError.
Proof. solve_decision. Defined.

Definition types_reason_code (e : TypesError) : string :=
  match e with
  | InvalidId _ => "INVALID_ID"
  | InvalidOid _ => "INVALID_OID"
  | Encoding _ => "ENCODING"
  end.

(** The [Display] text of [TypesError]. *)
Definition types_display (e : TypesError) : string :=
  match e with
  | InvalidId raw => "invalid id: " +:+ raw
  | InvalidOid raw => "invalid git oid: " +:+ raw
  | Encoding message => "invalid digest encoding: " +:+ message
  end.

(** ** Digests: [struct Digest([u8; 32])] *)

Record Digest : Type := mkDigest {
  digest_bytes : bytes;
  digest_len : Is_true (Nat.eqb (length digest_bytes) 32)
}.

Lemma digest_eq (d e : Digest) : digest_bytes d = digest_bytes e → d = e.
Proof.
  destruct d as [b Hb], e as [c Hc]; simpl. intros ->. f_equal. apply proof_irrel.
Qed.

#[export] Instance Digest_eq_dec : EqDecision Digest.
Proof.
  intros d e. destruct (decide (digest_bytes d = digest_bytes e)) as [H|H].
  - left. by apply digest_eq.
  - right. congruence.
Defined.

(** [Digest::as_bytes] *)
Definition digest_as_bytes (d : Digest) : bytes := digest_bytes d.

(** [<[u8; 32]>::try_from(Vec<u8>)] followed by [Digest::from_bytes]. *)
Definition digest_from_bytes (b : bytes) : option Digest :=
  match decide (Is_true (Nat.eqb (length b) 32)) with
  | left H => Some (mkDigest b H)
  | right _ => None
  end.

(** ** The [blake3] crate *)

Class Blake3 : Type := blake3_hash : bytes → Digest.

(** [Digest::of] *)
Definition digest_of `{Blake3} (b : bytes) : Digest := blake3_hash b.

(** Two exact preimages with one image. *)
Definition collides (h : bytes → Digest) (x y : bytes) : Prop := x ≠ y ∧ h x = h y.

(** ** The [hex] crate *)

Class HexCrate : Type := {
  hex_encode : bytes → string;
  hex_decode : string → result bytes string
}.

Class HexLaws `{HexCrate} : Prop := {
  hex_encode_length b : slen (hex_encode b) = 2 * blen b;
  hex_encode_lower b : chars_all is_lower_hex_char (hex_encode b) = true;
  hex_decode_encode b : hex_decode (hex_encode b) = Ok b;
  hex_decode_total s :
    N.even (slen s) = true → chars_all is_ascii_hexdigit s = true →
    ∃ b, hex_decode s = Ok b;
  hex_decode_sound s b :
    hex_decode s = Ok b → hex_encode b = to_ascii_lowercase s
}.

Section Digests.
Context `{Blake3, HexCrate}.

(** [Digest::to_hex] *)
Definition to_hex (d : Digest) : string := hex_encode (digest_bytes d).

(** [Digest::from_hex] *)
Definition from_hex (text : string) : result Digest TypesError :=
  fail_if (negb (slen text =? 64) || negb (chars_all is_lower_hex_char text))
    (Encoding "digest must be 64 lowercase hexadecimal characters") ;?
  let? raw := map_err Encoding (hex_decode text) in
  ok_or (digest_from_bytes raw) (Encoding "digest must be 32 bytes").

(** [frame]: appends the u64 little-endian length, then the bytes. *)
Definition frame (buf : bytes) (b : bytes) : bytes :=
  buf ++ u64_le_bytes (blen b) ++ b.

(** The buffer [framed_digest] builds. *)
Definition frames (fields : list bytes) : bytes := foldl frame [] fields.

(** [framed_digest] *)
Definition framed_digest (fields : list bytes) : Digest := digest_of (frames fields).

End Digests.

(** A buffer Rust can allocate: at most [isize::MAX] bytes. *)
Definition addressable (b : bytes) : Prop := blen b <= isize_max.

#[export] Instance addressable_dec b : Decision (addressable b).
Proof. unfold addressable. apply _. Defined.

(** ** Lemmas *)

Lemma length_digest_bytes d : length (digest_bytes d) = 32%nat.
Proof. destruct d as [b Hb]; simpl. apply Nat.eqb_eq. by apply Is_true_true. Qed.

Lemma digest_from_bytes_Some b d : digest_from_bytes b = Some d ↔ digest_bytes d = b.
Proof.
  unfold digest_from_bytes. destruct (decide _) as [Hb|Hb].
  - split; [by intros [= <-]|]. intros Hd. f_equal. by apply digest_eq.
  - split; [done|]. intros <-. destruct Hb. apply Is_true_true, Nat.eqb_eq, length_digest_bytes.
Qed.

Lemma digest_addressable d : addressable (digest_bytes d).
Proof. unfold addressable, blen. rewrite length_digest_bytes. unfold isize_max. lia. Qed.

Lemma u64_le_addressable x : addressable (u64_le_bytes x).
Proof. unfold addressable, blen. rewrite length_u64_le_bytes. unfold isize_max. lia. Qed.

#[export] Hint Resolve digest_addressable u64_le_addressable : framing.

(** A literal is addressable by evaluation. *)
#[export] Hint Extern 1 (addressable (as_bytes (String _ _))) =>
  (unfold addressable; vm_compute; discriminate) : framing.

#[global] Arguments frame : simpl never.

Lemma frames_app buf fields : foldl frame buf fields = buf ++ frames fields.
Proof.
  unfold frames. revert buf. induction fields as [|f fields IH]; intros buf; simpl.
  - by rewrite app_nil_r.
  - rewrite IH, (IH (frame [] f)). unfold frame at 1. unfold frame at 2. simpl. by rewrite <- !app_assoc.
Qed.

Lemma frames_cons f fields :
  frames (f :: fields) = u64_le_bytes (blen f) ++ f ++ frames fields.
Proof.
  unfold frames at 1. simpl. rewrite frames_app. unfold frame. simpl. by rewrite <- app_assoc.
Qed.

Lemma frame_frames fields f : frame (frames fields) f = frames (fields ++ [f]).
Proof. unfold frames. by rewrite foldl_app. Qed.

(** The encoding is a prefix code: a frame is read back from the front. *)
Lemma frame_inj f g r s :
  addressable f → addressable g →
  u64_le_bytes (blen f) ++ f ++ r = u64_le_bytes (blen g) ++ g ++ s → f = g ∧ r = s.
Proof.
  unfold addressable, isize_max. intros Hf Hg Heq.
  apply app_inj_1 in Heq as [Hlen Heq]; [|by rewrite !length_u64_le_bytes].
  apply u64_le_bytes_inj in Hlen; [|unfold u64_max; lia..].
  apply app_inj_1 in Heq; [done|]. unfold blen in Hlen. lia.
Qed.

Lemma frames_inj fs gs :
  Forall addressable fs → Forall addressable gs → frames fs = frames gs → fs = gs.
Proof.
  intros Hfs. revert gs. induction Hfs as [|f fs Hf Hfs IH]; intros gs Hgs Heq.
  - destruct gs as [|g gs]; [done|]. rewrite frames_cons in Heq.
    apply (f_equal length) in Heq. rewrite length_app, length_u64_le_bytes in Heq.
    unfold frames in Heq. simpl in Heq. lia.
  - destruct Hgs as [|g gs Hg Hgs]; rewrite !frames_cons in Heq.
    + apply (f_equal length) in Heq. rewrite length_app, length_u64_le_bytes in Heq.
      unfold frames in Heq. simpl in Heq. lia.
    + apply frame_inj in Heq as [-> Heq]; [|done..]. f_equal. by apply IH.
Qed.

(** The parts of an addressable buffer are addressable. *)
Lemma frames_addressable fs : addressable (frames fs) → Forall addressable fs.
Proof.
  induction fs as [|f fs IH]; [done|]. rewrite frames_cons.
  unfold addressable, blen in *. rewrite !length_app. intros Ha.
  constructor; [lia|]. apply IH. lia.
Qed.

(** One field of two equal field lists; [injection] would look inside the
    length prefixes. *)
Lemma cons_fields (x y : bytes) l k : x :: l = y :: k → x = y ∧ l = k.
Proof. by intros [= -> ->]. Qed.

Lemma framed_digest_binds `{Blake3} fs gs :
  Forall addressable fs → Forall addressable gs → framed_digest fs = framed_digest gs →
  fs = gs ∨ collides blake3_hash (frames fs) (frames gs).
Proof.
  intros Hf Hg Heq. destruct (decide (frames fs = frames gs)) as [E|E].
  - left. by apply frames_inj.
  - right. by split.
Qed.

Section HexFacts.
Context `{HexLaws}.

Lemma to_hex_slen d : slen (to_hex d) = 64.
Proof. unfold to_hex. rewrite hex_encode_length. unfold blen. by rewrite length_digest_bytes. Qed.

Lemma to_hex_lower d : chars_all is_lower_hex_char (to_hex d) = true.
Proof. apply hex_encode_lower. Qed.

Lemma from_hex_to_hex d : from_hex (to_hex d) = Ok d.
Proof.
  unfold from_hex. rewrite to_hex_slen, to_hex_lower. simpl.
  unfold to_hex. rewrite hex_decode_encode. simpl.
  assert (digest_from_bytes (digest_bytes d) = Some d) as -> by (by apply digest_from_bytes_Some).
  done.
Qed.

#[export] Instance to_hex_inj : Inj (=) (=) to_hex.
Proof. intros d e Heq. apply (f_equal from_hex) in Heq. rewrite !from_hex_to_hex in Heq. congruence. Qed.

Lemma lower_hex_no_upper s :
  chars_all is_lower_hex_char s = true → to_ascii_lowercase s = s.
Proof.
  unfold to_ascii_lowercase. induction s as [|c s IH]; simpl; [done|].
  intros [Hc Hs]%andb_true_iff. rewrite IH by done. f_equal.
  unfold to_ascii_lower, is_lower_hex_char, is_ascii_digit, is_af in *. bools.
  destruct (65 <=? Ascii.N_of_ascii c) eqn:E1; [|done].
  destruct (Ascii.N_of_ascii c <=? 90) eqn:E2; [|done]. bools. lia.
Qed.

Lemma lower_hex_hexdigit s :
  chars_all is_lower_hex_char s = true → chars_all is_ascii_hexdigit s = true.
Proof. apply chars_all_impl. intros c Hc. unfold is_ascii_hexdigit. by rewrite Hc. Qed.

Lemma from_hex_Ok text d :
  from_hex text = Ok d ↔ text = to_hex d.
Proof.
  split; [|intros ->; apply from_hex_to_hex].
  unfold from_hex. intros Hok. res_inv. bools. destruct Hr as [Hlen Hlow].
  apply hex_decode_sound in Hr0. rewrite lower_hex_no_upper in Hr0 by done.
  apply digest_from_bytes_Some in Hok. unfold to_hex. by rewrite Hok.
Qed.
End HexFacts.

#[export] Hint Resolve to_hex_lower to_hex_slen : framing.

(** ** Reference instances *)
Module Reference.

Definition nibble_char (n : N) : ascii :=
  Ascii.ascii_of_N (if n <? 10 then 48 + n else 87 + n).

Definition nibble_value (c : ascii) : option N :=
  let n := Ascii.N_of_ascii c in
  if is_ascii_digit c then Some (n - 48)
  else if is_af c then Some (n - 87)
  else if (65 <=? n) && (n <=? 70) then Some (n - 55)
  else None.

Fixpoint encode (b : bytes) : string :=
  match b with
  | [] => ""
  | x :: b =>
      String (nibble_char (Byte.to_N x / 16))
        (String (nibble_char (Byte.to_N x mod 16)) (encode b))
  end.

Fixpoint decode (s : string) : result bytes string :=
  match s with
  | "" => Ok []
  | String _ "" => Err "Odd number of digits"
  | String c (String d s) =>
      match nibble_value c, nibble_value d with
      | Some h, Some l => let? b := decode s in Ok (byte_of_N (16 * h + l) :: b)
      | _, _ => Err "Invalid character"
      end
  end.

#[export] Instance hex_crate : HexCrate := {| hex_encode := encode; hex_decode := decode |}.

Lemma nibble_value_Some c n :
  nibble_value c = Some n → n < 16 ∧ nibble_char n = to_ascii_lower c.
Proof. destruct c as [[] [] [] [] [] [] [] []]; vm_compute; intros [= <-]; done. Qed.

Lemma nibble_value_total c : is_ascii_hexdigit c = true → ∃ n, nibble_value c = Some n.
Proof. destruct c as [[] [] [] [] [] [] [] []]; vm_compute; try done; eauto. Qed.

Lemma two_induction (P : string → Prop) :
  P "" → (∀ c, P (String c "")) → (∀ c d s, P s → P (String c (String d s))) → ∀ s, P s.
Proof.
  intros H0 H1 H2 s. enough (P s ∧ ∀ c, P (String c s)) as [? _]; [done|].
  induction s as [|d s [IH1 IH2]]; split; auto.
Qed.

Lemma nibbles_of_byte h l :
  h < 16 → l < 16 →
  Byte.to_N (byte_of_N (16 * h + l)) / 16 = h ∧ Byte.to_N (byte_of_N (16 * h + l)) mod 16 = l.
Proof.
  intros Hh Hl. rewrite to_N_byte_of_N, N.mod_small by lia.
  replace (16 * h + l) with (l + h * 16) by lia.
  rewrite N.div_add, N.Div0.mod_add by lia.
  by rewrite N.div_small, N.mod_small by lia.
Qed.

#[export] Instance hex_laws : HexLaws.
Proof.
  split; simpl.
  - intros b. induction b as [|x b IH]; [done|]. unfold slen, blen in *. simpl. lia.
  - intros b. induction b as [|x b IH]; [done|]. simpl. rewrite IH.
    assert (is_lower_hex_char (nibble_char (Byte.to_N x / 16)) = true) as -> by (by destruct x).
    assert (is_lower_hex_char (nibble_char (Byte.to_N x mod 16)) = true) as -> by (by destruct x).
    done.
  - intros b. induction b as [|x b IH]; [done|]. simpl. rewrite IH. by destruct x.
  - intros s. induction s using two_induction; [by eexists|done|].
    intros Hev Hall. simpl in Hall. bools. destruct Hall as (Hc & Hd & Hs).
    apply nibble_value_total in Hc as [h Hh]. apply nibble_value_total in Hd as [l Hl].
    destruct IHs as [b Hb]; [|done|].
    { rewrite <- Hev.
      replace (slen (String c (String d s))) with (N.succ (N.succ (slen s)))
        by (unfold slen; simpl; lia).
      by rewrite N.even_succ_succ. }
    simpl. rewrite Hh, Hl, Hb. simpl. eauto.
  - intros s. induction s using two_induction; [by intros b [= <-]|done|].
    intros b. simpl. destruct (nibble_value c) as [h|] eqn:Hh; [|done].
    destruct (nibble_value d) as [l|] eqn:Hl; [|done]. intros Hb. res_inv.
    apply nibble_value_Some in Hh as [? Hh]. apply nibble_value_Some in Hl as [? Hl].
    simpl. destruct (nibbles_of_byte h l) as [-> ->]; [done..|].
    unfold to_ascii_lowercase in *. simpl. rewrite <- Hh, <- Hl. f_equal. f_equal. auto.
Qed.

(** A concrete hash: the low bytes of a positional checksum of the input. *)
Definition checksum (b : bytes) : N :=
  foldl (λ acc x, (acc * 257 + Byte.to_N x + 1) mod 2305843009213693951) 0 b.

Definition checksum_digest (b : bytes) : Digest.
Proof. refine (mkDigest (le_bytes 32 (checksum b)) _). abstract (by rewrite length_le_bytes). Defined.

#[export] Instance blake3 : Blake3 := checksum_digest.

End Reference.
