(* ===== verification/Ids.v ===== *)
(** [crates/bullet-git-types/src/ids.rs] and the [digest_id!] macro of
    [integration.rs]: prefixed identifiers and algorithm-tagged Git object ids.

    The [typed_id!] macro generates one newtype per prefix; here [typed_id p]
    is the newtype of prefix [p].  The field is private in the sources, so
    values arise from [parse], [from_seed] and [from_digest] only: [id_wf] is
    the invariant those three establish. *)

From S2P Require Import Prelude Digests.

Definition ID_HEX_LEN : N := 64.

Definition is_lower_hex (value : string) (expected_len : N) : bool :=
  (slen value =? expected_len) && chars_all is_lower_hex_char value.

(** ** [typed_id!] *)

Inductive typed_id (prefix : string) : Type := TypedId (raw : string).
Arguments TypedId {prefix} raw.

#[export] Instance typed_id_eq_dec p : EqDecision (typed_id p).
Proof. solve_decision. Defined.

Definition as_str {p} (i : typed_id p) : string := let '(TypedId raw) := i in raw.

Section TypedId.
Context `{Blake3, HexCrate}.

Definition from_seed (p seed : string) : typed_id p :=
  TypedId (p +:+ "_" +:+ to_hex (digest_of (as_bytes (p +:+ ":" +:+ seed)))).

(** [CandidateId::from_digest], [ContentId::from_digest] *)
Definition from_digest (p : string) (d : Digest) : typed_id p :=
  TypedId (p +:+ "_" +:+ to_hex d).
End TypedId.

Definition parse (p raw : string) : result (typed_id p) TypesError :=
  let expected := p +:+ "_" in
  fail_if (negb (starts_with expected raw) || negb (slen raw =? slen expected + ID_HEX_LEN))
    (InvalidId raw) ;?
  let body := str_drop (String.length expected) raw in
  fail_if (negb (is_lower_hex body ID_HEX_LEN)) (InvalidId raw) ;?
  Ok (TypedId raw).

Definition ChangeId : Type := typed_id "chg".
Definition CandidateId : Type := typed_id "can".
Definition CheckpointId : Type := typed_id "ckp".
Definition AttemptId : Type := typed_id "atm".
Definition ContentId : Type := typed_id "cnt".
Definition GateId : Type := typed_id "gat".
Definition RepositoryId : Type := typed_id "rep".
Definition WorkPackageId : Type := typed_id "wpk".
Definition VariantId : Type := typed_id "var".
Definition PlanRevisionId : Type := typed_id "pln".
Definition GraphRevisionId : Type := typed_id "grf".

(** ** [digest_id!] *)

Inductive digest_id (prefix : string) : Type := DigestId (raw : string).
Arguments DigestId {prefix} raw.

#[export] Instance digest_id_eq_dec p : EqDecision (digest_id p).
Proof. solve_decision. Defined.

Definition digest_id_str {p} (i : digest_id p) : string := let '(DigestId raw) := i in raw.

Section DigestId.
Context `{HexCrate}.

Definition digest_id_from_digest (p : string) (d : Digest) : digest_id p :=
  DigestId (p +:+ "_" +:+ to_hex d).

Definition digest_id_parse (p raw : string) : result (digest_id p) TypesError :=
  let? body := ok_or (strip_prefix (p +:+ "_") raw) (InvalidId raw) in
  let? _d := map_err (λ _, InvalidId raw) (from_hex body) in
  Ok (DigestId raw).
End DigestId.

Definition BindingId : Type := digest_id "bnd".
Definition IntegrationId : Type := digest_id "int".

(** ** Git object ids *)

Inductive GitOidAlgorithm : Type := Sha1 | Sha256.

#[export] Instance GitOidAlgorithm_eq_dec : EqDecision GitOidAlgorithm.
Proof. solve_decision. Defined.

Definition alg_as_str (a : GitOidAlgorithm) : string :=
  match a with Sha1 => "sha1" | Sha256 => "sha256" end.

Definition hex_len (a : GitOidAlgorithm) : N :=
  match a with Sha1 => 40 | Sha256 => 64 end.

Inductive GitOid : Type := MkGitOid (raw : string).

#[export] Instance GitOid_eq_dec : EqDecision GitOid.
Proof. solve_decision. Defined.

Definition oid_str (o : GitOid) : string := let '(MkGitOid raw) := o in raw.

(** [GitOid::new] *)
Definition oid_new (raw : string) : result GitOid TypesError :=
  let? '(tag, hex) := ok_or (split_once ":"%char raw) (InvalidOid raw) in
  let? algorithm :=
    (if String.eqb tag "sha1" then Ok Sha1
     else if String.eqb tag "sha256" then Ok Sha256
     else Err (InvalidOid raw)) in
  fail_if (negb (is_lower_hex hex (hex_len algorithm))) (InvalidOid raw) ;?
  Ok (MkGitOid raw).

(** [GitOid::from_hex] *)
Definition oid_from_hex (a : GitOidAlgorithm) (hex : string) : result GitOid TypesError :=
  fail_if (negb (is_lower_hex hex (hex_len a))) (InvalidOid hex) ;?
  Ok (MkGitOid (alg_as_str a +:+ ":" +:+ hex)).

(** [GitOid::algorithm] *)
Definition oid_algorithm (o : GitOid) : GitOidAlgorithm :=
  if starts_with "sha1:" (oid_str o) then Sha1 else Sha256.

(** [GitOid::hex]; [None] is the panic of [expect]. *)
Definition oid_hex (o : GitOid) : option string := snd <$> split_once ":"%char (oid_str o).

(** ** The invariants of the newtypes *)

Definition id_text_wf (p raw : string) : Prop :=
  ∃ hex, raw = p +:+ "_" +:+ hex ∧ slen hex = 64 ∧ chars_all is_lower_hex_char hex = true.

Definition id_wf {p} (i : typed_id p) : Prop := id_text_wf p (as_str i).

Definition oid_wf (o : GitOid) : Prop :=
  ∃ a hex, oid_str o = alg_as_str a +:+ ":" +:+ hex ∧ slen hex = hex_len a ∧
    chars_all is_lower_hex_char hex = true.

(** ** Lemmas *)

Lemma is_lower_hex_true v n :
  is_lower_hex v n = true ↔ slen v = n ∧ chars_all is_lower_hex_char v = true.
Proof. unfold is_lower_hex. by bools. Qed.

Lemma string_assoc3 p q r : p +:+ q +:+ r = (p +:+ q) +:+ r.
Proof. by rewrite string_app_assoc. Qed.

Lemma parse_text p raw (i : typed_id p) :
  parse p raw = Ok i ↔ i = TypedId raw ∧ id_text_wf p raw.
Proof.
  unfold parse, id_text_wf. split.
  - intros Hok. res_inv. bools. destruct Hr as [Hs Hl].
    apply starts_with_spec in Hs as [hex ->].
    rewrite str_drop_app in Hr0. apply is_lower_hex_true in Hr0 as [? ?].
    split; [done|]. exists hex. by rewrite string_app_assoc.
  - intros [-> (hex & -> & Hl & Hlow)]. rewrite string_assoc3.
    assert (starts_with (p +:+ "_") ((p +:+ "_") +:+ hex) = true) as ->
      by (apply starts_with_spec; eauto).
    rewrite slen_app, Hl, N.eqb_refl. simpl. rewrite str_drop_app.
    assert (is_lower_hex hex ID_HEX_LEN = true) as -> by (by apply is_lower_hex_true). done.
Qed.

Lemma id_text_wf_prefix p q raw : id_text_wf p raw → id_text_wf q raw → p = q.
Proof.
  intros (h & -> & Hl & _) (h' & Heq & Hl' & _).
  rewrite !string_assoc3 in Heq. unfold slen in *.
  apply string_app_inj_len_r in Heq as [Heq _]; [|lia].
  by apply string_app_inj_len_r in Heq as [-> _].
Qed.

Lemma id_wf_slen {p} (i : typed_id p) : id_wf i → slen (as_str i) = slen p + 65.
Proof.
  intros (h & -> & Hl & _). rewrite !slen_app, Hl. change (slen "_") with 1. lia.
Qed.

Lemma as_str_inj {p} (i j : typed_id p) : as_str i = as_str j → i = j.
Proof. destruct i, j; simpl. by intros ->. Qed.

Lemma digest_id_str_inj {p} (i j : digest_id p) : digest_id_str i = digest_id_str j → i = j.
Proof. destruct i, j; simpl. by intros ->. Qed.

Lemma oid_str_inj i j : oid_str i = oid_str j → i = j.
Proof. destruct i, j; simpl. by intros ->. Qed.

Lemma map_as_str_inj {p} (l k : list (typed_id p)) :
  map (λ i, as_bytes (as_str i)) l = map (λ i, as_bytes (as_str i)) k → l = k.
Proof.
  revert k. induction l as [|i l IH]; intros [|j k]; simpl; try done.
  intros [= H1%as_bytes_inj%as_str_inj H2]. by rewrite H1, (IH _ H2).
Qed.

Lemma map_digest_id_str_inj {p} (l k : list (digest_id p)) :
  map (λ i, as_bytes (digest_id_str i)) l = map (λ i, as_bytes (digest_id_str i)) k → l = k.
Proof.
  revert k. induction l as [|i l IH]; intros [|j k]; simpl; try done.
  intros [= H1%as_bytes_inj%digest_id_str_inj H2]. by rewrite H1, (IH _ H2).
Qed.

Lemma no_colon_tag a : char_contains ":"%char (alg_as_str a) = false.
Proof. by destruct a. Qed.

Lemma oid_new_Ok raw o : oid_new raw = Ok o ↔ o = MkGitOid raw ∧ oid_wf o.
Proof.
  unfold oid_new. split.
  - intros Hok. res_inv. destruct r as [tag hex]. apply split_once_Some in Hr as [-> _]. res_inv.
    apply negb_false_iff, is_lower_hex_true in Hr0 as [Hl Hlow]. split; [done|].
    exists r, hex. simpl. split; [|done]. enough (tag = alg_as_str r) as -> by done.
    destruct (String.eqb_spec tag "sha1") as [->|]; [by injection Hr as <-|].
    destruct (String.eqb_spec tag "sha256") as [->|]; [by injection Hr as <-|done].
  - intros [-> (a & hex & Hraw & Hl & Hlow)]. simpl in Hraw.
    assert (split_once ":"%char raw = Some (alg_as_str a, hex)) as ->.
    { apply split_once_Some. split; [done|apply no_colon_tag]. }
    simpl. assert (is_lower_hex hex (hex_len a) = true) as Hlx by (by apply is_lower_hex_true).
    destruct a; simpl in *; by rewrite Hlx.
Qed.

Lemma oid_wf_parts o :
  oid_wf o → ∃ hex, oid_hex o = Some hex ∧ oid_from_hex (oid_algorithm o) hex = Ok o.
Proof.
  intros (a & hex & Hraw & Hl & Hlow). exists hex. unfold oid_hex. rewrite Hraw.
  assert (split_once ":"%char (alg_as_str a +:+ ":" +:+ hex) = Some (alg_as_str a, hex)) as ->.
  { apply split_once_Some. split; [done|apply no_colon_tag]. }
  split; [done|]. unfold oid_algorithm. rewrite Hraw.
  assert (starts_with "sha1:" (alg_as_str a +:+ ":" +:+ hex) = bool_decide (a = Sha1)) as ->
    by (by destruct a).
  assert (is_lower_hex hex (hex_len a) = true) as Hlx by (by apply is_lower_hex_true).
  unfold oid_from_hex. destruct a; simpl in *; rewrite Hlx; simpl; f_equal; by apply oid_str_inj.
Qed.

Section Minted.
Context `{Blake3, HexLaws}.

Lemma minted_text_wf p d : id_text_wf p (p +:+ "_" +:+ to_hex d).
Proof. exists (to_hex d). auto with framing. Qed.

Lemma from_seed_wf p seed : id_wf (from_seed p seed).
Proof. apply minted_text_wf. Qed.

Lemma from_digest_wf p d : id_wf (from_digest p d).
Proof. apply minted_text_wf. Qed.

Lemma from_digest_inj p d e : from_digest p d = from_digest p e → d = e.
Proof.
  unfold from_digest. intros [= Heq]. rewrite !string_assoc3 in Heq.
  apply string_app_inj_len in Heq as [_ Heq]; [|done]. by apply to_hex_inj in Heq.
Qed.

Lemma digest_id_from_digest_inj p d e :
  digest_id_from_digest p d = digest_id_from_digest p e → d = e.
Proof.
  unfold digest_id_from_digest. intros [= Heq]. rewrite !string_assoc3 in Heq.
  apply string_app_inj_len in Heq as [_ Heq]; [|done]. by apply to_hex_inj in Heq.
Qed.

Lemma lower_hex64_from_hex body :
  slen body = 64 → chars_all is_lower_hex_char body = true → ∃ d, from_hex body = Ok d.
Proof.
  intros Hl Hlow.
  destruct (hex_decode_total body) as [b Hb]; [by rewrite Hl|by apply lower_hex_hexdigit|].
  pose proof (hex_decode_sound _ _ Hb) as He. rewrite lower_hex_no_upper in He by done.
  pose proof (hex_encode_length b) as Hlb. rewrite He, Hl in Hlb.
  assert (∃ d, digest_bytes d = b) as [d Hd].
  { assert (Is_true (Nat.eqb (length b) 32)) as Hb32.
    { apply Is_true_true, Nat.eqb_eq. unfold blen in Hlb. lia. }
    by exists (mkDigest b Hb32). }
  exists d. apply from_hex_Ok. unfold to_hex. by rewrite Hd.
Qed.

Lemma digest_id_parse_text p raw (i : digest_id p) :
  digest_id_parse p raw = Ok i ↔ i = DigestId raw ∧ id_text_wf p raw.
Proof.
  unfold digest_id_parse, id_text_wf. split.
  - intros Hok. res_inv. apply strip_prefix_Some in Hr as ->.
    apply from_hex_Ok in Hr0 as ->. split; [done|]. exists (to_hex r0).
    rewrite string_app_assoc. auto with framing.
  - intros [-> (hex & -> & Hl & Hlow)]. rewrite string_assoc3, strip_prefix_app. simpl.
    destruct (lower_hex64_from_hex hex Hl Hlow) as [d ->]. done.
Qed.
End Minted.

(** ** Properties *)

(** C40: [parse] accepts exactly the texts made of the prefix, an
    underscore and 64 lowercase hexadecimal characters, keeps the text
    unchanged, and no text parses as two different kinds of identifier. *)
Theorem typed_id_parse_exact p q raw :
  (∀ i, parse p raw = Ok i ↔ as_str i = raw ∧ id_text_wf p raw) ∧
  (is_ok (parse p raw) = true → is_ok (parse q raw) = true → p = q).
Proof.
  split.
  - intros i. rewrite parse_text. split; [intros [-> ?]; done|].
    intros [<- ?]. by destruct i.
  - rewrite !is_ok_true. intros [i [_ Hi]%parse_text] [j [_ Hj]%parse_text].
    by eapply id_text_wf_prefix.
Qed.
