(* ===== verification/Proposal.v ===== *)
(** [crates/bullet-git-types/src/proposal.rs]: canonical repository paths and
    the schema-1 patch proposal with its whole-batch validation.

    [unicode_normalization] (NFC) and the Unicode case tables behind
    [char::to_lowercase] are the class [Unicode]; nothing is assumed of them. *)

From S2P Require Import Prelude Digests Ids.

Definition PATCH_PROPOSAL_SCHEMA_VERSION : N := 1.
Definition MAX_PATCH_OPERATIONS : N := 128.
Definition MAX_CONTENT_BYTES : N := 1048576.
Definition MAX_AGGREGATE_CONTENT_BYTES : N := 32 * 1048576.

(** NFC normalisation, and [flat_map(char::to_lowercase)], of a string. *)
Class Unicode : Type := { nfc : string → string; to_lowercase : string → string }.

Inductive RepoPath : Type := MkRepoPath (raw : string).
Definition path_str (p : RepoPath) : string := let '(MkRepoPath raw) := p in raw.

#[export] Instance RepoPath_eq_dec : EqDecision RepoPath.
Proof. solve_decision. Defined.

Inductive Preimage : Type :=
  | PreAbsent
  | PreDigest (digest : Digest).

Inductive PatchMutation : Type :=
  | MutWrite (content_utf8 : string)
  | MutDelete.

Record PatchOperation : Type := {
  op_path : RepoPath;
  op_preimage : Preimage;
  op_mutation : PatchMutation
}.

Record PatchProposal : Type := {
  pp_schema_version : N;
  pp_proposal_id : ContentId;
  pp_producing_attempt_id : AttemptId;
  pp_base_checkpoint_id : CheckpointId;
  pp_base_checkpoint_digest : Digest;
  pp_operations : list PatchOperation;
  pp_gate_ids : list GateId
}.

Inductive ProposalError : Type :=
  | PUnsupportedSchema (version : N)
  | PInvalidOperationCount (count : N)
  | PGateRequired
  | PDuplicateGate
  | PContentTooLarge (path : string)
  | PAggregateContentTooLarge (total : N)
  | PMissingPreimage (path : string)
  | PPathCollision (first second : string)
  | PPathConflict (first second : string)
  | PInvalidRepoPath (path reason : string).

Definition proposal_reason_code (e : ProposalError) : string :=
  match e with
  | PUnsupportedSchema _ => "UNSUPPORTED_SCHEMA"
  | PInvalidOperationCount _ => "INVALID_OPERATION_COUNT"
  | PGateRequired => "GATE_REQUIRED"
  | PDuplicateGate => "DUPLICATE_GATE"
  | PContentTooLarge _ => "CONTENT_TOO_LARGE"
  | PAggregateContentTooLarge _ => "AGGREGATE_CONTENT_TOO_LARGE"
  | PMissingPreimage _ => "MISSING_PREIMAGE"
  | PPathCollision _ _ => "PATH_COLLISION"
  | PPathConflict _ _ => "PATH_CONFLICT"
  | PInvalidRepoPath _ _ => "INVALID_REPO_PATH"
  end.

(** [segment.chars().any(char::is_control)]: U+0000..U+001F and U+007F..U+009F,
    the latter block encoded as [C2 80] to [C2 9F] in UTF-8. *)
Fixpoint has_control (s : string) : bool :=
  match s with
  | EmptyString => false
  | String c s =>
      (Ascii.N_of_ascii c <? 32) || (Ascii.N_of_ascii c =? 127)
      || ((Ascii.N_of_ascii c =? 194)
          && match s with
             | String d _ => (128 <=? Ascii.N_of_ascii d) && (Ascii.N_of_ascii d <=? 159)
             | EmptyString => false
             end)
      || has_control s
  end.

(** [contains_path]: [child] lies strictly below [parent]. *)
Definition contains_path (parent child : string) : bool :=
  match strip_prefix parent child with
  | Some suffix => starts_with "/" suffix
  | None => false
  end.

(** The checks of [validate_repo_path] on one segment. *)
Definition validate_segment (raw segment : string) : result unit ProposalError :=
  fail_if (String.eqb segment "" || String.eqb segment "." || String.eqb segment "..")
    (PInvalidRepoPath raw "empty and dot segments are forbidden") ;?
  fail_if (eq_ignore_ascii_case segment ".git")
    (PInvalidRepoPath raw ".git is outside proposal authority") ;?
  fail_if (char_contains ":"%char segment || ends_with "." segment || ends_with " " segment
           || has_control segment)
    (PInvalidRepoPath raw "path contains a platform-unsafe component").

Section Proposal.
Context `{Unicode}.

(** [RepoPath::collision_key] *)
Definition collision_key (p : RepoPath) : string := to_lowercase (nfc (path_str p)).

Definition validate_repo_path (raw : string) : result unit ProposalError :=
  fail_if (String.eqb raw "" || (4096 <? slen raw) || starts_with "/" raw
           || char_contains "\"%char raw)
    (PInvalidRepoPath raw "path must be a non-empty repository-relative UTF-8 path") ;?
  fail_if (negb (String.eqb (nfc raw) raw))
    (PInvalidRepoPath raw "path must already be NFC normalized") ;?
  try_for (validate_segment raw) (split "/"%char raw).

(** [RepoPath::from_str] *)
Definition repo_path_parse (raw : string) : result RepoPath ProposalError :=
  validate_repo_path raw ;? Ok (MkRepoPath raw).

Definition sorted_gates (l : list GateId) : list string :=
  merge_sort String.le (map as_str l).

(** One iteration of the operation loop of [PatchProposal::validate]; the
    state is the [paths] map and the running content total. *)
Definition validate_operation (st : list (string * string) * N) (op : PatchOperation)
    : result (list (string * string) * N) ProposalError :=
  let '(paths, aggregate) := st in
  let? aggregate :=
    match op_mutation op with
    | MutWrite content_utf8 =>
        fail_if (MAX_CONTENT_BYTES <? slen content_utf8)
          (PContentTooLarge (path_str (op_path op))) ;?
        let? aggregate := ok_or (checked_add aggregate (slen content_utf8))
                            (PAggregateContentTooLarge usize_max) in
        fail_if (MAX_AGGREGATE_CONTENT_BYTES <? aggregate)
          (PAggregateContentTooLarge aggregate) ;?
        Ok aggregate
    | MutDelete => Ok aggregate
    end in
  match op_mutation op, op_preimage op with
  | MutDelete, PreAbsent => Err (PMissingPreimage (path_str (op_path op)))
  | _, _ =>
      match btree_insert (collision_key (op_path op)) (path_str (op_path op)) paths with
      | (Some existing, _) => Err (PPathCollision existing (path_str (op_path op)))
      | (None, paths) => Ok (paths, aggregate)
      end
  end.

Definition check_conflict (x y : string * string) : result unit ProposalError :=
  fail_if (contains_path (fst x) (fst y) || contains_path (fst y) (fst x))
    (PPathConflict (snd x) (snd y)).

(** [PatchProposal::validate] *)
Definition validate_proposal (p : PatchProposal) : result unit ProposalError :=
  fail_if (negb (pp_schema_version p =? PATCH_PROPOSAL_SCHEMA_VERSION))
    (PUnsupportedSchema (pp_schema_version p)) ;?
  fail_if ((blen (pp_operations p) =? 0) || (MAX_PATCH_OPERATIONS <? blen (pp_operations p)))
    (PInvalidOperationCount (blen (pp_operations p))) ;?
  fail_if (blen (pp_gate_ids p) =? 0) PGateRequired ;?
  fail_if (windows2_any String.eqb (sorted_gates (pp_gate_ids p))) PDuplicateGate ;?
  let? '(paths, _aggregate) := try_fold validate_operation ([], 0) (pp_operations p) in
  try_pairs check_conflict paths.

(** ** What a valid proposal is *)

Definition write_len (op : PatchOperation) : N :=
  match op_mutation op with MutWrite c => slen c | MutDelete => 0 end.

Definition total_len (ops : list PatchOperation) : N :=
  foldr (λ op acc, write_len op + acc) 0 ops.

Definition op_key (op : PatchOperation) : string := collision_key (op_path op).

Definition keys_disjoint (k l : string) : Prop :=
  contains_path k l = false ∧ contains_path l k = false.

Definition op_admitted (op : PatchOperation) : Prop :=
  write_len op <= MAX_CONTENT_BYTES ∧
  (op_mutation op = MutDelete → op_preimage op ≠ PreAbsent).

Record proposal_valid (p : PatchProposal) : Prop := {
  pv_schema : pp_schema_version p = 1;
  pv_count : 1 <= blen (pp_operations p) <= MAX_PATCH_OPERATIONS;
  pv_gates : pp_gate_ids p ≠ [];
  pv_gates_unique : NoDup (pp_gate_ids p);
  pv_ops : Forall op_admitted (pp_operations p);
  pv_total : total_len (pp_operations p) <= MAX_AGGREGATE_CONTENT_BYTES;
  pv_keys_unique : NoDup (map op_key (pp_operations p));
  pv_keys_disjoint : ForallOrdPairs keys_disjoint (map op_key (pp_operations p))
}.

(** ** Lemmas *)

Lemma contains_path_spec k l : contains_path k l = true ↔ ∃ r, l = k +:+ "/" +:+ r.
Proof.
  unfold contains_path. destruct (strip_prefix k l) as [s|] eqn:E.
  - apply strip_prefix_Some in E as ->. rewrite starts_with_spec.
    split; [intros [r ->]; eauto|]. intros [r Hr].
    apply string_app_inj_len in Hr as [_ ->]; eauto.
  - split; [done|]. intros [r Hr%strip_prefix_Some]. congruence.
Qed.

Lemma windows2_sorted (l : list string) :
  Sorted String.le l → (windows2_any String.eqb l = false ↔ NoDup l).
Proof.
  intros Hs%Sorted_StronglySorted; [|apply _].
  induction Hs as [|x l Hl IH Hx]; simpl; [by split; [constructor|]|].
  destruct l as [|y l].
  { split; [|done]. intros _. apply NoDup_singleton. }
  rewrite orb_false_iff, IH, (NoDup_cons x), String.eqb_neq. split.
  - intros [Hxy Hnd]. split; [|done]. intros [->|Hin]%elem_of_cons; [done|].
    inversion Hl as [|? ? _ Hy]; subst. rewrite Forall_forall in Hy.
    apply Hy in Hin. inversion Hx; subst. destruct Hxy. by apply (anti_symm String.le).
  - intros [Hx' Hnd]. split; [|done]. intros ->. apply Hx'. by left.
Qed.

Lemma sorted_gates_unique (l : list GateId) :
  windows2_any String.eqb (sorted_gates l) = false ↔ NoDup l.
Proof.
  unfold sorted_gates. rewrite windows2_sorted by apply (Sorted_merge_sort _).
  rewrite merge_sort_Permutation. split.
  - apply NoDup_fmap_1.
  - apply NoDup_fmap_2. intros i j. apply as_str_inj.
Qed.

Lemma validate_operation_Ok paths agg op paths' agg' :
  keys_sorted paths → agg <= MAX_AGGREGATE_CONTENT_BYTES →
  (validate_operation (paths, agg) op = Ok (paths', agg') ↔
   op_admitted op ∧ agg' = agg + write_len op ∧ agg' <= MAX_AGGREGATE_CONTENT_BYTES ∧
   op_key op ∉ map fst paths ∧
   paths' = snd (btree_insert (op_key op) (path_str (op_path op)) paths)).
Proof.
  intros Hs Hagg. unfold validate_operation, op_admitted, write_len, op_key.
  pose proof (btree_insert_sorted (collision_key (op_path op)) (path_str (op_path op)) paths Hs)
    as (_ & Hfresh & _).
  set (kv := btree_insert _ _ _) in *. destruct kv as [[o|] m']; simpl in Hfresh.
  { split.
    - intros Hok. res_inv. destruct (op_mutation op), (op_preimage op); discriminate.
    - intros (_ & _ & _ & Hn & _). destruct Hn. apply Hfresh. eauto. }
  assert (collision_key (op_path op) ∉ map fst paths) as Hn.
  { intros Hin. apply Hfresh in Hin as [? [=]]. }
  unfold checked_add, MAX_AGGREGATE_CONTENT_BYTES, MAX_CONTENT_BYTES, u64_max in *.
  destruct (op_mutation op) as [c|].
  - destruct (1048576 <? slen c) eqn:E1; simpl; bools; [split; [done|intros [[? _] _]; lia]|].
    destruct (agg + slen c <=? 18446744073709551615) eqn:E2; simpl; bools; [|split; [done|intros (_ & -> & ? & _); lia]].
    destruct (32 * 1048576 <? agg + slen c) eqn:E3; simpl; bools;
      [split; [done|intros (_ & -> & ? & _); lia]|].
    split; [intros [= <- <-]|intros (_ & -> & _ & _ & ->); done].
    split; [split; [lia|done]|]. split; [done|]. split; [lia|]. done.
  - simpl. destruct (op_preimage op); simpl.
    + split; [done|]. intros [[_ Hd] _]. by destruct Hd.
    + split; [intros [= <- <-]|intros (_ & -> & _ & _ & ->)].
      * split; [split; [lia|done]|]. split; [lia|]. split; [lia|]. done.
      * by rewrite N.add_0_r.
Qed.

#[local] Arguments validate_operation : simpl never.

(** The operation loop, from any reachable state. *)
Lemma validate_operations_Ok ops paths agg :
  keys_sorted paths → agg <= MAX_AGGREGATE_CONTENT_BYTES → NoDup (map fst paths) →
  (is_ok (try_fold validate_operation (paths, agg) ops) = true ↔
   Forall op_admitted ops ∧ agg + total_len ops <= MAX_AGGREGATE_CONTENT_BYTES ∧
   NoDup (map fst paths ++ map op_key ops)) ∧
  (∀ paths' agg', try_fold validate_operation (paths, agg) ops = Ok (paths', agg') →
     map fst paths' ≡ₚ map fst paths ++ map op_key ops).
Proof.
  revert paths agg. induction ops as [|op ops IH]; intros paths agg Hs Hagg Hnd; simpl.
  - rewrite app_nil_r. split; [|by intros ? ? [= <- <-]].
    split; [|done]. intros _. split; [constructor|]. split; [unfold total_len; simpl; lia|done].
  - destruct (validate_operation (paths, agg) op) as [[paths1 agg1]|err] eqn:E; simpl.
    + apply validate_operation_Ok in E as (Hop & -> & Hagg1 & Hfresh & ->); [|done..].
      destruct (btree_insert (op_key op) (path_str (op_path op)) paths) as [o m'] eqn:Eb.
      pose proof (btree_insert_sorted (op_key op) (path_str (op_path op)) paths Hs) as (H1 & H2 & _).
      rewrite Eb in H1, H2. simpl in H1, H2 |- *.
      destruct o as [o|]; [destruct Hfresh; apply H2; eauto|].
      pose proof (btree_insert_keys _ _ _ _ _ Eb eq_refl) as Hk.
      destruct (IH m' (agg + write_len op) H1 Hagg1) as [IHok IHk].
      { rewrite Hk. by constructor. }
      assert (map fst m' ++ map op_key ops ≡ₚ map fst paths ++ op_key op :: map op_key ops) as Hp.
      { rewrite Hk. simpl. by rewrite Permutation_middle. }
      split; [|intros ? ? Hx; apply IHk in Hx; by rewrite Hx].
      rewrite IHok, Hp, Forall_cons. unfold total_len; simpl. fold (total_len ops).
      rewrite N.add_assoc. tauto.
    + split; [|done]. split; [done|]. intros (Hops & Htot & Hnd').
      apply Forall_cons in Hops as [Hop Hops]. unfold total_len in Htot; simpl in Htot.
      assert (validate_operation (paths, agg) op
              = Ok (snd (btree_insert (op_key op) (path_str (op_path op)) paths),
                    agg + write_len op)) as Hx; [|congruence].
      apply validate_operation_Ok; [done..|]. split; [done|]. split; [done|].
      split; [lia|]. split; [|done]. apply NoDup_app in Hnd' as (_ & Hd & _).
      intros Hin. apply (Hd _ Hin). by left.
Qed.

Lemma keys_disjoint_sym k l : keys_disjoint k l → keys_disjoint l k.
Proof. intros [? ?]; by split. Qed.

Lemma check_conflict_Ok x y : check_conflict x y = Ok tt ↔ keys_disjoint (fst x) (fst y).
Proof. unfold check_conflict, keys_disjoint. by rewrite fail_if_Ok, orb_false_iff. Qed.

Lemma conflicts_Ok (paths : list (string * string)) keys u :
  map fst paths ≡ₚ keys →
  (try_pairs check_conflict paths = Ok u ↔ ForallOrdPairs keys_disjoint keys).
Proof.
  intros Hp. rewrite try_pairs_Ok.
  transitivity (ForallOrdPairs keys_disjoint (map fst paths)).
  - rewrite ForallOrdPairs_map. apply ForallOrdPairs_iff. intros x y. apply check_conflict_Ok.
  - split; apply ForallOrdPairs_Permutation; auto using keys_disjoint_sym, Permutation_sym.
Qed.

Lemma blen_zero {A} (l : list A) : blen l = 0 ↔ l = [].
Proof. unfold blen. destruct l; simpl; [done|]. split; [lia|done]. Qed.

Lemma proposal_validate_valid p :
  validate_proposal p = Ok tt ↔ proposal_valid p.
Proof.
  unfold validate_proposal.
  destruct (validate_operations_Ok (pp_operations p) [] 0) as [Hloop Hkeys];
    [constructor|unfold MAX_AGGREGATE_CONTENT_BYTES; lia|constructor|]. simpl in Hloop.
  split.
  - intros Hok. res_inv. destruct r3 as [paths agg]. bools. destruct Hr0 as [Hn Hmax].
    rewrite Hr3 in Hloop. destruct Hloop as [Hloop _]. destruct Hloop as (Hops & Htot & Hnd); [done|].
    apply (conflicts_Ok _ _ _ (Hkeys _ _ Hr3)) in Hok. simpl in *.
    constructor; try done; [lia| |].
    + intros Hx. by rewrite Hx in Hr1.
    + by apply sorted_gates_unique.
  - intros [Hschema Hcount Hg Hgu Hops Htot Hku Hkd].
    rewrite Hschema. unfold PATCH_PROPOSAL_SCHEMA_VERSION. simpl.
    assert ((blen (pp_operations p) =? 0) || (MAX_PATCH_OPERATIONS <? blen (pp_operations p)) = false)
      as -> by (bools; lia). simpl.
    assert (blen (pp_gate_ids p) =? 0 = false) as -> by (apply N.eqb_neq; by rewrite blen_zero). simpl.
    assert (windows2_any String.eqb (sorted_gates (pp_gate_ids p)) = false) as ->
      by (by apply sorted_gates_unique). simpl.
    destruct Hloop as [_ Hloop]. destruct (proj1 (is_ok_true _) (Hloop (conj Hops (conj Htot Hku))))
      as [[paths agg] E]. rewrite E. simpl.
    by apply (conflicts_Ok _ _ _ (Hkeys _ _ E)).
Qed.

(** ** Properties *)

(** C36: [PatchProposal::validate] accepts a proposal exactly when it is valid:
    schema 1, one to 128 operations, at least one gate and no repeated gate,
    every body within 1 MiB and all bodies within 32 MiB, no delete of an absent
    preimage, and portable path keys that are pairwise distinct with none a
    directory of another. *)
Theorem validate_proposal_exact p :
  validate_proposal p = Ok tt ↔ proposal_valid p.
Proof. apply proposal_validate_valid. Qed.

End Proposal.
