(* ===== verification/Candidate.v ===== *)
(** [crates/bullet-git-types/src/change.rs] and [change_candidate.rs]: Change
    evolution, the provenance-bound Candidate manifest with its canonical
    identities, and the write-set grant check.

    [serde_jcs::to_vec] is the class [Jcs]; its one law is that a [Vec<u8>] is
    addressable.  Nothing is assumed of the hash: an identity theorem names the
    two exact preimages that would collide. *)

From S2P Require Import Prelude Digests Ids Proposal.

Definition CANDIDATE_MANIFEST_SCHEMA_VERSION : N := 1.

(** ** Evolution edges *)

Inductive EvolutionKind : Type :=
  | Amend | Repair | Rebase | Squash | Split | Synthesis | CherryPick
  | MergeComposition | GeneratedRefresh.

#[export] Instance EvolutionKind_eq_dec : EqDecision EvolutionKind.
Proof. solve_decision. Defined.

Definition kind_invalidates_evidence (k : EvolutionKind) : bool :=
  match k with
  | Rebase | Squash | Split | MergeComposition | CherryPick => true
  | _ => false
  end.

Record EvolutionEdge : Type := {
  edge_from : CandidateId;
  edge_to : CandidateId;
  edge_kind : EvolutionKind
}.

Definition edge_invalidates_evidence (e : EvolutionEdge) : bool :=
  kind_invalidates_evidence (edge_kind e).

Record Change : Type := {
  change_id : ChangeId;
  change_mission : string;
  change_acceptance_root : Digest
}.

#[export] Instance Change_eq_dec : EqDecision Change.
Proof. solve_decision. Defined.

(** ** Provenance and manifests *)

Record CandidateProvenance : Type := {
  cp_schema_version : N;
  cp_repository_id : RepositoryId;
  cp_producing_attempt_id : AttemptId;
  cp_attempt_fence : N;
  cp_work_package_id : WorkPackageId;
  cp_variant_id : VariantId;
  cp_plan_revision_id : PlanRevisionId;
  cp_graph_revision_id : GraphRevisionId;
  cp_base_checkpoint_id : CheckpointId;
  cp_base_commit : GitOid;
  cp_parent_candidate_ids : list CandidateId;
  cp_granted_scope : list RepoPath;
  cp_context_capsule_id : ContentId;
  cp_configuration_snapshot_id : ContentId;
  cp_policy_snapshot_id : ContentId;
  cp_routing_snapshot_id : ContentId;
  cp_environment_digest : Digest;
  cp_toolchain_digest : Digest
}.

Record CandidateManifest : Type := {
  cm_schema_version : N;
  cm_repository_id : RepositoryId;
  cm_change_id : ChangeId;
  cm_producing_attempt_id : AttemptId;
  cm_attempt_fence : N;
  cm_work_package_id : WorkPackageId;
  cm_variant_id : VariantId;
  cm_plan_revision_id : PlanRevisionId;
  cm_graph_revision_id : GraphRevisionId;
  cm_base_checkpoint_id : CheckpointId;
  cm_base_commit : GitOid;
  cm_head_commit : GitOid;
  cm_tree_oid : GitOid;
  cm_patch_digest : Digest;
  cm_parent_candidate_ids : list CandidateId;
  cm_granted_scope : list RepoPath;
  cm_actual_scope : list RepoPath;
  cm_context_capsule_id : ContentId;
  cm_configuration_snapshot_id : ContentId;
  cm_policy_snapshot_id : ContentId;
  cm_routing_snapshot_id : ContentId;
  cm_environment_digest : Digest;
  cm_toolchain_digest : Digest
}.

Record CandidateContentManifest : Type := {
  cc_repository_id : RepositoryId;
  cc_base_commit : GitOid;
  cc_head_commit : GitOid;
  cc_tree_oid : GitOid;
  cc_patch_digest : Digest
}.

Inductive CandidateManifestError : Type :=
  | CUnsupportedSchema (version : N)
  | CInvalidFence
  | CActualScopeExceedsGrant (path : string)
  | CCandidateIdMismatch
  | CContentIdMismatch
  | CCanonicalJson (message : string).

Definition candidate_reason_code (e : CandidateManifestError) : string :=
  match e with
  | CUnsupportedSchema _ => "UNSUPPORTED_SCHEMA"
  | CInvalidFence => "INVALID_FENCE"
  | CActualScopeExceedsGrant _ => "ACTUAL_SCOPE_EXCEEDS_GRANT"
  | CCandidateIdMismatch => "CANDIDATE_ID_MISMATCH"
  | CContentIdMismatch => "CONTENT_ID_MISMATCH"
  | CCanonicalJson _ => "CANONICAL_JSON_FAILED"
  end.

(** [CandidateProvenance::validate] *)
Definition provenance_validate (p : CandidateProvenance) : result unit CandidateManifestError :=
  fail_if (negb (cp_schema_version p =? CANDIDATE_MANIFEST_SCHEMA_VERSION))
    (CUnsupportedSchema (cp_schema_version p)) ;?
  fail_if (cp_attempt_fence p =? 0) CInvalidFence.

Definition path_is_within (grant path : string) : bool :=
  String.eqb path grant
  || match strip_prefix grant path with
     | Some remainder => starts_with "/" remainder
     | None => false
     end.

Definition write_set_within_grant (granted actual : list RepoPath)
    : result unit CandidateManifestError :=
  try_for (λ path,
    fail_if (negb (existsb (λ grant, path_is_within (path_str grant) (path_str path)) granted))
      (CActualScopeExceedsGrant (path_str path))) actual.

(** [CandidateManifest::validate] *)
Definition manifest_validate (m : CandidateManifest) : result unit CandidateManifestError :=
  fail_if (negb (cm_schema_version m =? CANDIDATE_MANIFEST_SCHEMA_VERSION))
    (CUnsupportedSchema (cm_schema_version m)) ;?
  fail_if (cm_attempt_fence m =? 0) CInvalidFence ;?
  write_set_within_grant (cm_granted_scope m) (cm_actual_scope m).

(** ** Canonical hashing *)

(** [serde_jcs::to_vec], at one type of serialisable values. *)
Class Jcs (T : Type) : Type := to_jcs : T → result bytes string.
Class JcsLaws (T : Type) `{Jcs T} : Prop :=
  jcs_addressable : ∀ (x : T) b, to_jcs x = Ok b → addressable b.

Definition wire_tag : bytes := as_bytes "bullet-wire.v1" ++ [x00].

(** [hash_frame], on the bytes fed to the hasher so far. *)
Definition hash_frame (hasher b : bytes) : bytes := hasher ++ u64_le_bytes (blen b) ++ b.

(** The bytes [hash_canonical] feeds to the hasher. *)
Definition canonical_preimage (domain : string) (canonical : bytes) : bytes :=
  hash_frame (hash_frame wire_tag (as_bytes domain)) canonical.

Definition hash_canonical `{Blake3} {T} `{Jcs T} (domain : string) (value : T)
    : result Digest CandidateManifestError :=
  let? canonical := map_err CCanonicalJson (to_jcs value) in
  Ok (blake3_hash (canonical_preimage domain canonical)).

Record Candidate : Type := {
  cand_id : CandidateId;
  cand_content_id : ContentId;
  cand_manifest : CandidateManifest;
  cand_prepared_at : string
}.

Section Identity.
Context `{Blake3, HexCrate, !Jcs CandidateManifest, !Jcs CandidateContentManifest}.

Definition content_of (m : CandidateManifest) : CandidateContentManifest := {|
  cc_repository_id := cm_repository_id m;
  cc_base_commit := cm_base_commit m;
  cc_head_commit := cm_head_commit m;
  cc_tree_oid := cm_tree_oid m;
  cc_patch_digest := cm_patch_digest m
|}.

(** [CandidateManifest::content_id] *)
Definition content_id (m : CandidateManifest) : result ContentId CandidateManifestError :=
  res_map (from_digest "cnt") (hash_canonical "candidate.content" (content_of m)).

(** [CandidateManifest::candidate_id] *)
Definition candidate_id (m : CandidateManifest) : result CandidateId CandidateManifestError :=
  manifest_validate m ;?
  res_map (from_digest "can") (hash_canonical "candidate.provenance" m).

(** [Candidate::from_manifest] *)
Definition from_manifest (m : CandidateManifest) (prepared_at : string)
    : result Candidate CandidateManifestError :=
  let? cid := content_id m in
  let? id := candidate_id m in
  Ok {| cand_id := id; cand_content_id := cid; cand_manifest := m;
        cand_prepared_at := prepared_at |}.

(** [Candidate::validate_identity] *)
Definition validate_identity (c : Candidate) : result unit CandidateManifestError :=
  let? id := candidate_id (cand_manifest c) in
  fail_if (negb (bool_decide (cand_id c = id))) CCandidateIdMismatch ;?
  let? cid := content_id (cand_manifest c) in
  fail_if (negb (bool_decide (cand_content_id c = cid))) CContentIdMismatch.
End Identity.

(** ** Specification *)

(** [path] is the granted path or lies below it. *)
Definition within (grant path : string) : Prop :=
  path = grant ∨ ∃ rest, path = grant +:+ "/" +:+ rest.

Record manifest_valid (m : CandidateManifest) : Prop := {
  mv_schema : cm_schema_version m = 1;
  mv_fence : cm_attempt_fence m ≠ 0;
  mv_scope : ∀ path, path ∈ cm_actual_scope m →
    ∃ grant, grant ∈ cm_granted_scope m ∧ within (path_str grant) (path_str path)
}.

(** ** Lemmas *)

Lemma path_is_within_spec grant path : path_is_within grant path = true ↔ within grant path.
Proof.
  unfold path_is_within, within. rewrite orb_true_iff, String.eqb_eq.
  change (match strip_prefix grant path with
          | Some remainder => starts_with "/" remainder | None => false end)
    with (contains_path grant path).
  by rewrite contains_path_spec.
Qed.

Lemma within_trans a b c : within a b → within b c → within a c.
Proof.
  intros [->|[r ->]] [->|[s ->]]; unfold within; eauto.
  right. exists (r +:+ "/" +:+ s). by rewrite !string_app_assoc.
Qed.

Lemma write_set_within_grant_Ok granted actual :
  write_set_within_grant granted actual = Ok tt ↔
  ∀ path, path ∈ actual →
    ∃ grant, grant ∈ granted ∧ within (path_str grant) (path_str path).
Proof.
  unfold write_set_within_grant. rewrite try_for_Ok, Forall_forall.
  apply forall_proper; intros path. apply imp_iff_compat_l.
  rewrite fail_if_Ok, negb_false_iff, existsb_exists.
  apply exist_proper; intros grant. by rewrite list_elem_of_In, path_is_within_spec.
Qed.

Lemma manifest_validate_Ok m : manifest_validate m = Ok tt ↔ manifest_valid m.
Proof.
  unfold manifest_validate. split.
  - intros Hok. res_inv. bools. constructor; [done..|].
    by apply write_set_within_grant_Ok.
  - intros [Hs Hf Hw%write_set_within_grant_Ok]. rewrite Hs, Hw. simpl.
    by apply N.eqb_neq in Hf as ->.
Qed.

Lemma canonical_preimage_inj d e b c :
  addressable (as_bytes d) → addressable (as_bytes e) → addressable b → addressable c →
  canonical_preimage d b = canonical_preimage e c → d = e ∧ b = c.
Proof.
  intros Hd He Hb Hc Heq. unfold canonical_preimage, hash_frame in Heq.
  rewrite <- !app_assoc in Heq. apply app_inv_head in Heq.
  apply frame_inj in Heq as [->%as_bytes_inj Heq]; [|done..]. split; [done|].
  by eapply (frame_inj b c [] []); rewrite ?app_nil_r.
Qed.

Lemma candidate_id_Ok `{Blake3, HexCrate, Jcs CandidateManifest} m i :
  candidate_id m = Ok i ↔
  manifest_valid m ∧ ∃ h, hash_canonical "candidate.provenance" m = Ok h ∧ i = from_digest "can" h.
Proof.
  unfold candidate_id. rewrite res_bind_Ok. split.
  - intros ([] & Hv%manifest_validate_Ok & Hh%res_map_Ok). done.
  - intros [Hv%manifest_validate_Ok Hh]. exists tt. by rewrite res_map_Ok.
Qed.

(** Two values, of possibly different types, with one canonical digest. *)
Lemma hash_canonical_binds `{Blake3} {T U} `{JcsLaws T, JcsLaws U} d e (x : T) (y : U) h :
  addressable (as_bytes d) → addressable (as_bytes e) →
  hash_canonical d x = Ok h → hash_canonical e y = Ok h →
  ∃ b c, to_jcs x = Ok b ∧ to_jcs y = Ok c ∧
    ((d = e ∧ b = c) ∨
     collides blake3_hash (canonical_preimage d b) (canonical_preimage e c)).
Proof.
  intros Hd He Hx Hy. unfold hash_canonical in *. res_inv.
  exists r0, r. split; [done|]. split; [done|].
  destruct (decide (canonical_preimage d r0 = canonical_preimage e r)) as [Heq|Hne].
  - left. apply canonical_preimage_inj in Heq; [done..| |];
      [by apply (jcs_addressable x)|by apply (jcs_addressable y)].
  - right. by split.
Qed.

(** ** Properties *)

(** A Candidate manifest validates exactly when its schema is 1, its fence
    is nonzero and every path actually written is a granted path or lies
    strictly below one, at a component boundary. *)
Theorem manifest_validate_exact m : manifest_validate m = Ok tt ↔ manifest_valid m.
Proof. apply manifest_validate_Ok. Qed.

(** The write-set check composes: a write set within a grant that is itself
    within a wider grant is within the wider grant. *)
Theorem write_set_grant_trans outer granted actual :
  write_set_within_grant outer granted = Ok tt →
  write_set_within_grant granted actual = Ok tt →
  write_set_within_grant outer actual = Ok tt.
Proof.
  rewrite !write_set_within_grant_Ok. intros Ho Hg path Hp.
  destruct (Hg path Hp) as (g & Hgin & Hw). destruct (Ho g Hgin) as (o & ? & ?).
  exists o. split; [done|]. by eapply within_trans.
Qed.

Example write_set_grant_trans_witness :
  write_set_within_grant [MkRepoPath "src"] [MkRepoPath "src/a.rs"] = Ok tt.
Proof.
  apply (write_set_grant_trans _ [MkRepoPath "src"; MkRepoPath "src/a.rs"]); reflexivity.
Defined.

Section IdentityProps.
Context `{Blake3, HexCrate, !Jcs CandidateManifest, !Jcs CandidateContentManifest}.

(** A stored Candidate passes [validate_identity] exactly when it is the
    Candidate [from_manifest] mints from its own manifest and timestamp, so
    neither address can be substituted. *)
Theorem validate_identity_exact c :
  validate_identity c = Ok tt ↔ from_manifest (cand_manifest c) (cand_prepared_at c) = Ok c.
Proof.
  unfold validate_identity, from_manifest. destruct c as [id cid m t]; simpl. split.
  - intros Hok. res_inv. bools. subst. rewrite Hr1. simpl. by rewrite Hr.
  - intros Hok. apply res_bind_Ok in Hok as (cid' & Hc & Hok).
    apply res_bind_Ok in Hok as (id' & Hi & Hok). injection Hok as -> ->.
    rewrite Hi, Hc. simpl. by rewrite !bool_decide_eq_true_2.
Qed.
End IdentityProps.

(** A Candidate identity binds the whole manifest: two manifests with one
    Candidate id have the same canonical encoding, unless the two exact
    domain-separated preimages collide under BLAKE3; and a manifest without a
    valid schema, fence and write set has no identity at all. *)
Theorem candidate_id_binds `{Blake3, HexLaws, JcsLaws CandidateManifest} m n i :
  candidate_id m = Ok i → candidate_id n = Ok i →
  manifest_valid m ∧ manifest_valid n ∧
  ∃ b c, to_jcs m = Ok b ∧ to_jcs n = Ok c ∧
    (b = c ∨ collides blake3_hash (canonical_preimage "candidate.provenance" b)
                                 (canonical_preimage "candidate.provenance" c)).
Proof.
  intros (Hvm & h & Hm & ->)%candidate_id_Ok (Hvn & h' & Hn & <-%from_digest_inj)%candidate_id_Ok.
  split; [done|]. split; [done|].
  edestruct (hash_canonical_binds "candidate.provenance" "candidate.provenance" m n)
    as (b & c & Hb & Hc & Hbc); [auto with framing..|done|done|].
  exists b, c. split; [done|]. split; [done|]. destruct Hbc as [[_ ->]|Hbc]; auto.
Qed.

(** ** Witness instances *)
Module CandidateReference.
Import Reference.

Definition encode_manifest (m : CandidateManifest) : bytes :=
  u64_le_bytes (cm_attempt_fence m) ++ as_bytes (oid_str (cm_head_commit m)).

(** An encoder that refuses what does not fit; good enough to evaluate. *)
#[export] Instance jcs_manifest : Jcs CandidateManifest := λ m,
  if decide (addressable (encode_manifest m)) then Ok (encode_manifest m) else Err "too large".
#[export] Instance jcs_manifest_laws : JcsLaws CandidateManifest.
Proof. intros m b. unfold to_jcs, jcs_manifest. case_decide; [by intros [= <-]|done]. Qed.

#[export] Instance jcs_content : Jcs CandidateContentManifest := λ c,
  let b := digest_bytes (cc_patch_digest c) in
  if decide (addressable b) then Ok b else Err "too large".

Definition zero_digest : Digest := checksum_digest [].

Definition sample : CandidateManifest := {|
  cm_schema_version := 1;
  cm_repository_id := from_seed "rep" "r";
  cm_change_id := from_seed "chg" "c";
  cm_producing_attempt_id := from_seed "atm" "a";
  cm_attempt_fence := 3;
  cm_work_package_id := from_seed "wpk" "w";
  cm_variant_id := from_seed "var" "v";
  cm_plan_revision_id := from_seed "pln" "p";
  cm_graph_revision_id := from_seed "grf" "g";
  cm_base_checkpoint_id := from_seed "ckp" "k";
  cm_base_commit := MkGitOid "sha1:base";
  cm_head_commit := MkGitOid "sha1:head";
  cm_tree_oid := MkGitOid "sha1:tree";
  cm_patch_digest := zero_digest;
  cm_parent_candidate_ids := [];
  cm_granted_scope := [MkRepoPath "src"];
  cm_actual_scope := [MkRepoPath "src/a.rs"];
  cm_context_capsule_id := from_seed "cnt" "1";
  cm_configuration_snapshot_id := from_seed "cnt" "2";
  cm_policy_snapshot_id := from_seed "cnt" "3";
  cm_routing_snapshot_id := from_seed "cnt" "4";
  cm_environment_digest := zero_digest;
  cm_toolchain_digest := zero_digest
|}.

Definition sample_id : CandidateId :=
  from_digest "can" (blake3_hash (canonical_preimage "candidate.provenance" (encode_manifest sample))).

Lemma sample_has_id : candidate_id sample = Ok sample_id.
Proof. reflexivity. Qed.

Example candidate_id_binds_witness : manifest_valid sample.
Proof. exact (proj1 (candidate_id_binds sample sample sample_id sample_has_id sample_has_id)). Defined.
End CandidateReference.
