(* ===== verification/ProofRoots.v ===== *)
(** [crates/bullet-git-types/src/change_proof.rs]: the proof root that binds an
    exact Candidate and its eight named evidence leaves. *)

From S2P Require Import Prelude Digests Ids Candidate.

Record ProofInputs : Type := {
  scope_and_write_set : bytes;
  runner_and_sandbox : bytes;
  toolchain_and_deps : bytes;
  evidence : bytes;
  verifier_evidence : bytes;
  reviews : bytes;
  policy : bytes;
  approvals_and_effect_receipts : bytes
}.

(** [ProofInputs::empty] *)
Definition inputs_empty : ProofInputs := {|
  scope_and_write_set := []; runner_and_sandbox := []; toolchain_and_deps := [];
  evidence := []; verifier_evidence := []; reviews := []; policy := [];
  approvals_and_effect_receipts := []
|}.

(** [ProofInputs::named_leaves] *)
Definition named_leaves (i : ProofInputs) : list (string * bytes) := [
  ("scope_and_write_set", scope_and_write_set i);
  ("runner_and_sandbox", runner_and_sandbox i);
  ("toolchain_and_deps", toolchain_and_deps i);
  ("evidence", evidence i);
  ("verifier_evidence", verifier_evidence i);
  ("reviews", reviews i);
  ("policy", policy i);
  ("approvals_and_effect_receipts", approvals_and_effect_receipts i)
].

Record ProofRoot : Type := { pr_candidate : CandidateId; pr_root : Digest }.

#[export] Instance ProofRoot_eq_dec : EqDecision ProofRoot.
Proof. solve_decision. Defined.

Inductive ProofRootError : Type := PMismatch.

Definition proof_root_reason_code (e : ProofRootError) : string :=
  match e with PMismatch => "PROOF_ROOT_MISMATCH" end.

(** The [lineage] buffer of [ProofRoot::bind]. *)
Definition lineage_fields (m : CandidateManifest) : list bytes :=
  as_bytes (as_str (cm_change_id m))
  :: map (λ parent, as_bytes (as_str parent)) (cm_parent_candidate_ids m).

Definition lineage (m : CandidateManifest) : bytes :=
  foldl (λ buf parent, frame buf (as_bytes (as_str parent)))
    (frame [] (as_bytes (as_str (cm_change_id m)))) (cm_parent_candidate_ids m).

(** The sixteen fields [ProofRoot::bind] frames, in order. *)
Definition proof_fields (c : Candidate) (i : ProofInputs) : list bytes :=
  let m := cand_manifest c in [
    as_bytes "proof-root.v3";
    as_bytes (as_str (cand_id c));
    as_bytes (as_str (cand_content_id c));
    as_bytes (oid_str (cm_base_commit m));
    as_bytes (oid_str (cm_head_commit m));
    as_bytes (oid_str (cm_tree_oid m));
    digest_as_bytes (cm_patch_digest m);
    lineage m;
    scope_and_write_set i;
    runner_and_sandbox i;
    toolchain_and_deps i;
    evidence i;
    verifier_evidence i;
    reviews i;
    policy i;
    approvals_and_effect_receipts i
  ].

Section ProofRoot.
Context `{Blake3}.

(** [ProofRoot::bind] *)
Definition proof_bind (c : Candidate) (i : ProofInputs) : ProofRoot := {|
  pr_candidate := cand_id c;
  pr_root := framed_digest (proof_fields c i)
|}.

(** [ProofRoot::compute] *)
Definition proof_compute (c : Candidate) (scope evid revs pol : bytes) : ProofRoot :=
  proof_bind c {|
    scope_and_write_set := scope; runner_and_sandbox := []; toolchain_and_deps := [];
    evidence := evid; verifier_evidence := []; reviews := revs; policy := pol;
    approvals_and_effect_receipts := []
  |}.

(** [ProofRoot::verify] *)
Definition proof_verify (r : ProofRoot) (c : Candidate) (i : ProofInputs)
    : result unit ProofRootError :=
  fail_if (negb (bool_decide (r = proof_bind c i))) PMismatch ;? Ok tt.

Definition verify_proof_root (r : ProofRoot) (c : Candidate) (i : ProofInputs)
    : result unit ProofRootError := proof_verify r c i.
End ProofRoot.

(** ** What a proof root names *)

Record same_subject (c d : Candidate) : Prop := {
  ss_id : cand_id c = cand_id d;
  ss_content : cand_content_id c = cand_content_id d;
  ss_change : cm_change_id (cand_manifest c) = cm_change_id (cand_manifest d);
  ss_parents :
    cm_parent_candidate_ids (cand_manifest c) = cm_parent_candidate_ids (cand_manifest d);
  ss_base : cm_base_commit (cand_manifest c) = cm_base_commit (cand_manifest d);
  ss_head : cm_head_commit (cand_manifest c) = cm_head_commit (cand_manifest d);
  ss_tree : cm_tree_oid (cand_manifest c) = cm_tree_oid (cand_manifest d);
  ss_patch : cm_patch_digest (cand_manifest c) = cm_patch_digest (cand_manifest d)
}.

(** Every buffer a Rust value of these types holds fits the address space. *)
Definition proof_addressable (c : Candidate) (i : ProofInputs) : Prop :=
  Forall addressable (proof_fields c i).

(** ** Lemmas *)

Lemma lineage_frames m : lineage m = frames (lineage_fields m).
Proof.
  unfold lineage, lineage_fields, frames. simpl.
  generalize (frame [] (as_bytes (as_str (cm_change_id m)))) as buf.
  induction (cm_parent_candidate_ids m) as [|p l IH]; intros buf; simpl; [done|apply IH].
Qed.

Lemma lineage_inj m n :
  addressable (lineage m) → addressable (lineage n) → lineage m = lineage n →
  cm_change_id m = cm_change_id n ∧ cm_parent_candidate_ids m = cm_parent_candidate_ids n.
Proof.
  rewrite !lineage_frames. intros Hm%frames_addressable Hn%frames_addressable Heq.
  apply frames_inj in Heq; [|done..]. unfold lineage_fields in Heq.
  injection Heq as H1%as_bytes_inj%as_str_inj H2%map_as_str_inj. done.
Qed.

Lemma proof_fields_inj c d i j :
  proof_addressable c i → proof_addressable d j → proof_fields c i = proof_fields d j →
  same_subject c d ∧ i = j.
Proof.
  unfold proof_addressable, proof_fields. intros Hc Hd Heq.
  injection Heq as Hid Hcid Hb Hh Ht Hp Hl H1 H2 H3 H4 H5 H6 H7 H8.
  apply as_bytes_inj, as_str_inj in Hid, Hcid.
  apply as_bytes_inj, oid_str_inj in Hb, Hh, Ht. apply digest_eq in Hp.
  apply lineage_inj in Hl as [Hch Hpar].
  - split; [by constructor|]. destruct i, j; simpl in *; by subst.
  - rewrite !Forall_cons in Hc; tauto.
  - rewrite !Forall_cons in Hd; tauto.
Qed.

Lemma proof_verify_Ok `{Blake3} r c i : proof_verify r c i = Ok tt ↔ r = proof_bind c i.
Proof.
  unfold proof_verify. case_bool_decide; simpl; [done|]. done.
Qed.

(** ** Properties *)

(** A proof root minted for one Candidate and one set of inputs verifies
    only for that subject: the same ids, change, ordered parents, commits, tree
    and patch and the same eight leaves, unless the two exact framed preimages
    collide under BLAKE3.  No field can be shifted into its neighbour. *)
Theorem proof_root_binds_subject `{Blake3} c d i j :
  proof_addressable c i → proof_addressable d j →
  proof_verify (proof_bind c i) d j = Ok tt →
  (same_subject c d ∧ i = j) ∨
  collides blake3_hash (frames (proof_fields c i)) (frames (proof_fields d j)).
Proof.
  intros Hc Hd Hv%proof_verify_Ok. unfold proof_bind in Hv. injection Hv as _ Hroot.
  apply framed_digest_binds in Hroot as [Heq|?]; [left|by right|done..].
  by apply proof_fields_inj.
Qed.

Module ProofReference.
Import Reference CandidateReference.

Definition sample_candidate : Candidate := {|
  cand_id := from_seed "can" "c"; cand_content_id := from_seed "cnt" "c";
  cand_manifest := sample; cand_prepared_at := "t0"
|}.

Lemma sample_addressable : proof_addressable sample_candidate inputs_empty.
Proof. apply (bool_decide_unpack (Forall addressable _)). vm_compute. exact I. Qed.

Example proof_root_binds_subject_witness :
  (same_subject sample_candidate sample_candidate ∧ inputs_empty = inputs_empty) ∨
  collides blake3_hash (frames (proof_fields sample_candidate inputs_empty))
                       (frames (proof_fields sample_candidate inputs_empty)).
Proof.
  apply (proof_root_binds_subject sample_candidate sample_candidate inputs_empty inputs_empty
           sample_addressable sample_addressable).
  vm_compute. reflexivity.
Defined.
End ProofReference.
