(* ===== verification/Lineage.v ===== *)
(** [crates/bullet-git-types/src/lineage.rs]: the queryable Change graph, a
    vector of rows, and its refinement of a finite map from Change identity to
    Change and append-only edge history. *)

From S2P Require Import Prelude Digests Ids Candidate.

Record ChangeEvolution : Type := {
  evo_change : Change;
  evo_edges : list EvolutionEdge
}.

(** [ChangeEvolution::invalidated_predecessors] *)
Definition invalidated_predecessors (e : ChangeEvolution) : list CandidateId :=
  map edge_from (List.filter edge_invalidates_evidence (evo_edges e)).

Definition LineageGraph : Type := list ChangeEvolution.

Inductive LineageError : Type :=
  | LNotFound (id : string)
  | LSubjectMismatch (id : string).

Definition lineage_reason_code (e : LineageError) : string :=
  match e with
  | LNotFound _ => "CHANGE_NOT_FOUND"
  | LSubjectMismatch _ => "LINEAGE_SUBJECT_MISMATCH"
  end.

Definition row_id (row : ChangeEvolution) : ChangeId := change_id (evo_change row).

(** [self.changes.iter().find(|row| row.change.id == *id)] *)
Definition find_row (id : ChangeId) (g : LineageGraph) : option ChangeEvolution :=
  List.find (λ row, bool_decide (row_id row = id)) g.

(** [iter_mut().find(..)] followed by a mutation of the row found. *)
Fixpoint find_mut (id : ChangeId) (f : ChangeEvolution → ChangeEvolution) (g : LineageGraph)
    : option LineageGraph :=
  match g with
  | [] => None
  | row :: g =>
      if bool_decide (row_id row = id) then Some (f row :: g)
      else (λ g, row :: g) <$> find_mut id f g
  end.

(** [LineageGraph::record_change]; the result is the graph after the call. *)
Definition record_change (g : LineageGraph) (c : Change) : result LineageGraph LineageError :=
  match find_row (change_id c) g with
  | Some existing =>
      if negb (bool_decide (evo_change existing = c))
      then Err (LSubjectMismatch (as_str (change_id c)))
      else Ok g
  | None => Ok (g ++ [{| evo_change := c; evo_edges := [] |}])
  end.

Definition push_edge (e : EvolutionEdge) (row : ChangeEvolution) : ChangeEvolution :=
  {| evo_change := evo_change row; evo_edges := evo_edges row ++ [e] |}.

(** [LineageGraph::record_edge] *)
Definition record_edge (g : LineageGraph) (id : ChangeId) (e : EvolutionEdge)
    : result LineageGraph LineageError :=
  ok_or (find_mut id (push_edge e) g) (LNotFound (as_str id)).

(** [LineageGraph::query] *)
Definition query (g : LineageGraph) (id : ChangeId) : result ChangeEvolution LineageError :=
  ok_or (find_row id g) (LNotFound (as_str id)).

(** The three calls, and any sequence of them with the replies; a refused call and
    a query leave the graph as it was. *)
Inductive lineage_op : Type :=
  | OpChange (c : Change)
  | OpEdge (id : ChangeId) (e : EvolutionEdge)
  | OpQuery (id : ChangeId).
Inductive lineage_reply : Type := Recorded | Found (row : ChangeEvolution) | Refused (e : LineageError).

Definition recorded {G} (old : G) (r : result G LineageError) : G * lineage_reply :=
  match r with Ok g => (g, Recorded) | Err e => (old, Refused e) end.
Definition found {G} (g : G) (r : result ChangeEvolution LineageError) : G * lineage_reply :=
  (g, match r with Ok row => Found row | Err e => Refused e end).

Definition run_op (g : LineageGraph) (op : lineage_op) : LineageGraph * lineage_reply :=
  match op with
  | OpChange c => recorded g (record_change g c)
  | OpEdge id e => recorded g (record_edge g id e)
  | OpQuery id => found g (query g id)
  end.

Fixpoint run_session {G} (run : G → lineage_op → G * lineage_reply) (ops : list lineage_op) (g : G)
    : G * list lineage_reply :=
  match ops with
  | [] => (g, [])
  | op :: ops => let '(g, r) := run g op in let '(g, rs) := run_session run ops g in (g, r :: rs)
  end.

Definition run_ops (ops : list lineage_op) (g : LineageGraph) : LineageGraph :=
  foldl (λ g op, fst (run_op g op)) g ops.

(** ** Specification: a finite map keyed by the identity text *)

Abbreviation lineage_spec := (gmap string ChangeEvolution).

Definition spec_change (m : lineage_spec) (c : Change) : result lineage_spec LineageError :=
  match m !! as_str (change_id c) with
  | Some row =>
      if bool_decide (evo_change row = c) then Ok m
      else Err (LSubjectMismatch (as_str (change_id c)))
  | None => Ok (<[as_str (change_id c) := {| evo_change := c; evo_edges := [] |}]> m)
  end.
Definition spec_edge (m : lineage_spec) (id : ChangeId) (e : EvolutionEdge) : result lineage_spec LineageError :=
  match m !! as_str id with
  | Some row => Ok (<[as_str id := push_edge e row]> m)
  | None => Err (LNotFound (as_str id))
  end.
Definition spec_query (m : lineage_spec) (id : ChangeId) : result ChangeEvolution LineageError :=
  match m !! as_str id with Some row => Ok row | None => Err (LNotFound (as_str id)) end.

Definition spec_op (m : lineage_spec) (op : lineage_op) : lineage_spec * lineage_reply :=
  match op with
  | OpChange c => recorded m (spec_change m c)
  | OpEdge id e => recorded m (spec_edge m id e)
  | OpQuery id => found m (spec_query m id)
  end.

Fixpoint abs (g : LineageGraph) : lineage_spec :=
  match g with
  | [] => ∅
  | row :: g => <[as_str (row_id row) := row]> (abs g)
  end.

(** One row per Change. *)
Definition graph_wf (g : LineageGraph) : Prop := NoDup (map row_id g).

(** [h] continues [g]: every row of [g] is in [h] with the same Change and its
    edges extended at the end only. *)
Definition extends (g h : LineageGraph) : Prop :=
  ∀ id row, find_row id g = Some row →
    ∃ es, find_row id h = Some {| evo_change := evo_change row; evo_edges := evo_edges row ++ es |}.

(** ** Lemmas *)

Lemma find_row_abs g id : find_row id g = abs g !! as_str id.
Proof.
  induction g as [|row g IH]; simpl; [by rewrite lookup_empty|].
  case_bool_decide as E.
  - by rewrite E, lookup_insert_eq.
  - rewrite lookup_insert_ne; [done|]. intros Heq. by apply as_str_inj in Heq.
Qed.

Lemma abs_app_fresh g row :
  find_row (row_id row) g = None → abs (g ++ [row]) = <[as_str (row_id row) := row]> (abs g).
Proof.
  induction g as [|x g IH]; simpl; [done|].
  case_bool_decide as E; [done|]. intros Hn. rewrite IH by done.
  apply insert_insert_ne. intros Heq. by apply as_str_inj in Heq.
Qed.

Lemma find_mut_abs g id f :
  (∀ row, row_id (f row) = row_id row) →
  match find_row id g, find_mut id f g with
  | Some row, Some g' => abs g' = <[as_str id := f row]> (abs g) ∧ map row_id g' = map row_id g
  | None, None => True
  | _, _ => False
  end.
Proof.
  intros Hf. induction g as [|x g IH]; simpl; [done|].
  case_bool_decide as E.
  - simpl. rewrite Hf, E, insert_insert_eq. done.
  - change (List.find _ g) with (find_row id g).
    destruct (find_row id g), (find_mut id f g); simpl; try done.
    destruct IH as [-> ->]. split; [|done].
    apply insert_insert_ne. intros Heq. by apply as_str_inj in Heq.
Qed.

Lemma find_row_id id g row : find_row id g = Some row → row_id row = id.
Proof. intros [_ Hb]%List.find_some. by apply bool_decide_eq_true in Hb. Qed.

Lemma find_row_None id g : find_row id g = None ↔ id ∉ map row_id g.
Proof.
  induction g as [|x g IH]; simpl; [split; [intros _; apply not_elem_of_nil|done]|].
  change (List.find _ g) with (find_row id g). rewrite elem_of_cons.
  case_bool_decide as E; [split; [done|intros Hn; destruct Hn; by left]|].
  rewrite IH. split; [intros Hn [->|?]; done|tauto].
Qed.

Lemma record_change_refines g c :
  graph_wf g →
  match record_change g c with
  | Ok g' => graph_wf g' ∧ spec_change (abs g) c = Ok (abs g')
  | Err err => spec_change (abs g) c = Err err
  end.
Proof.
  unfold graph_wf, record_change, spec_change. intros Hwf. rewrite <- find_row_abs.
  destruct (find_row (change_id c) g) as [row|] eqn:E; [by case_bool_decide|].
  split; [|by rewrite abs_app_fresh].
  rewrite map_app. simpl. apply NoDup_app. split; [done|].
  split; [|apply NoDup_singleton].
  intros x Hx ->%list_elem_of_singleton. by apply find_row_None in E.
Qed.

Lemma record_edge_refines g id e :
  graph_wf g →
  match record_edge g id e with
  | Ok g' => graph_wf g' ∧ spec_edge (abs g) id e = Ok (abs g')
  | Err err => spec_edge (abs g) id e = Err err
  end.
Proof.
  unfold graph_wf, record_edge, spec_edge. intros Hwf. rewrite <- find_row_abs.
  pose proof (find_mut_abs g id (push_edge e) ltac:(done)) as Hm.
  destruct (find_row id g), (find_mut id (push_edge e) g) as [g'|]; simpl; try done.
  by destruct Hm as [-> ->].
Qed.

Lemma query_refines g id : query g id = spec_query (abs g) id.
Proof. unfold query, spec_query. rewrite <- find_row_abs. by destruct (find_row id g). Qed.

Lemma run_op_refines g op :
  graph_wf g →
  graph_wf (fst (run_op g op)) ∧ spec_op (abs g) op = (abs (fst (run_op g op)), snd (run_op g op)).
Proof.
  intros Hwf. destruct op as [c|id e|id]; simpl.
  - pose proof (record_change_refines g c Hwf) as Hr.
    destruct (record_change g c); [destruct Hr as [? ->]|rewrite Hr]; by split.
  - pose proof (record_edge_refines g id e Hwf) as Hr.
    destruct (record_edge g id e); [destruct Hr as [? ->]|rewrite Hr]; by split.
  - split; [done|]. unfold found. by rewrite query_refines.
Qed.

(** A row of [m] is kept by [m']: its Change is the same and its edges are only
    appended to. *)
Definition keeps_row (key : string) (row : ChangeEvolution) (m' : lineage_spec) : Prop :=
  ∃ es, m' !! key = Some {| evo_change := evo_change row; evo_edges := evo_edges row ++ es |}.

Lemma keeps_row_same key row m : m !! key = Some row → keeps_row key row m.
Proof. intros Hrow. exists []. rewrite app_nil_r. by destruct row. Qed.

Lemma spec_op_extends m op key row : m !! key = Some row → keeps_row key row (fst (spec_op m op)).
Proof.
  intros Hrow. destruct op as [c|id e|id]; simpl.
  - unfold spec_change. destruct (m !! as_str (change_id c)) as [r|] eqn:E.
    + case_bool_decide; by apply keeps_row_same.
    + apply keeps_row_same. simpl. rewrite lookup_insert_ne by congruence. done.
  - unfold spec_edge. destruct (m !! as_str id) as [r|] eqn:E; [|by apply keeps_row_same]. simpl.
    destruct (decide (as_str id = key)) as [<-|Hne].
    + exists [e]. rewrite lookup_insert_eq. by simplify_eq.
    + apply keeps_row_same. by rewrite lookup_insert_ne.
  - by apply keeps_row_same.
Qed.

Lemma extends_refl g : extends g g.
Proof.
  intros id row Hrow. exists []. rewrite Hrow. destruct row; simpl. by rewrite app_nil_r.
Qed.

Lemma extends_trans g h k : extends g h → extends h k → extends g k.
Proof.
  intros Hgh Hhk id row Hrow. apply Hgh in Hrow as [es Hh].
  apply Hhk in Hh as [fs Hk]. exists (es ++ fs). simpl in Hk. by rewrite <- app_assoc in Hk.
Qed.

Lemma run_op_wf g op : graph_wf g → graph_wf (fst (run_op g op)) ∧ extends g (fst (run_op g op)).
Proof.
  intros Hwf. destruct (run_op_refines g op Hwf) as [Hwf' Hspec]. split; [done|]. intros id row Hrow.
  rewrite find_row_abs in Hrow |- *. apply (spec_op_extends _ op) in Hrow. by rewrite Hspec in Hrow.
Qed.

(** ** Properties *)

(** C37: the row vector implements the finite map: from a graph with one row per
    Change, any sequence of [record_change], [record_edge] and [query] gets, call by
    call, the replies of the map operations, refusals and the rows found included,
    keeps one row per Change, and ends in the graph that represents the map's
    result. *)
Theorem lineage_refines_map ops g :
  graph_wf g →
  let '(g', replies) := run_session run_op ops g in
  run_session spec_op ops (abs g) = (abs g', replies) ∧ graph_wf g'.
Proof.
  revert g. induction ops as [|op ops IH]; intros g Hwf; simpl; [done|].
  destruct (run_op_refines g op Hwf) as [Hwf' ->]. destruct (run_op g op) as [g1 r]. simpl in *.
  specialize (IH g1 Hwf'). destruct (run_session run_op ops g1) as [g2 rs]. by destruct IH as [-> ?].
Qed.

(** From the empty graph, any sequence of calls keeps one row per Change and
    only extends what an earlier prefix recorded: a Change's subject never
    changes and its edges are only appended, so evidence once invalidated in a
    Change stays invalidated. *)
Theorem lineage_append_only ops1 ops2 id row :
  find_row id (run_ops ops1 []) = Some row →
  graph_wf (run_ops (ops1 ++ ops2) []) ∧
  ∃ es, find_row id (run_ops (ops1 ++ ops2) [])
        = Some {| evo_change := evo_change row; evo_edges := evo_edges row ++ es |} ∧
    invalidated_predecessors row `prefix_of`
      invalidated_predecessors
        {| evo_change := evo_change row; evo_edges := evo_edges row ++ es |}.
Proof.
  assert (∀ ops g, graph_wf g → graph_wf (run_ops ops g) ∧ extends g (run_ops ops g)) as Hrun.
  { intros ops. unfold run_ops. induction ops as [|op ops IH]; intros g Hwf; simpl.
    - split; [done|apply extends_refl].
    - destruct (run_op_wf g op Hwf) as [Hwf' He]. destruct (IH _ Hwf') as [? ?].
      split; [done|]. by eapply extends_trans. }
  intros Hrow. destruct (Hrun ops1 []) as [Hwf1 _]; [constructor|].
  destruct (Hrun ops2 (run_ops ops1 []) Hwf1) as [Hwf2 He].
  unfold run_ops in *. rewrite foldl_app. split; [done|].
  destruct (He id row Hrow) as [es Hes]. exists es. split; [done|].
  unfold invalidated_predecessors. simpl. rewrite List.filter_app, map_app.
  by exists (map edge_from (List.filter edge_invalidates_evidence es)).
Qed.

Module LineageReference.
Definition chg : Change :=
  {| change_id := TypedId "chg_x"; change_mission := "m";
     change_acceptance_root := CandidateReference.zero_digest |}.
Definition edge k : EvolutionEdge :=
  {| edge_from := TypedId "can_a"; edge_to := TypedId "can_b"; edge_kind := k |}.

(** A Change, an edge, a query, and the refusals of a second subject and of an
    unknown Change. *)
Definition session1 : list lineage_op :=
  [OpQuery (TypedId "chg_x"); OpChange chg; OpEdge (TypedId "chg_x") (edge Rebase); OpChange chg;
   OpQuery (TypedId "chg_x");
   OpChange {| change_id := TypedId "chg_x"; change_mission := "other"; change_acceptance_root := change_acceptance_root chg |};
   OpEdge (TypedId "chg_y") (edge Repair)].
Definition replies1 : list lineage_reply :=
  [Refused (LNotFound "chg_x"); Recorded; Recorded; Recorded;
   Found {| evo_change := chg; evo_edges := [edge Rebase] |};
   Refused (LSubjectMismatch "chg_x"); Refused (LNotFound "chg_y")].

Example lineage_refines_map_witness :
  run_session spec_op session1 ∅
    = (<["chg_x" := {| evo_change := chg; evo_edges := [edge Rebase] |}]> ∅, replies1).
Proof.
  assert (run_session run_op session1 [] = ([{| evo_change := chg; evo_edges := [edge Rebase] |}], replies1)) as Hrun
    by (vm_compute; reflexivity).
  pose proof (lineage_refines_map session1 [] ltac:(constructor)) as Hm. rewrite Hrun in Hm. exact (proj1 Hm).
Defined.

Example lineage_append_only_witness :
  graph_wf (run_ops ([OpChange chg; OpEdge (TypedId "chg_x") (edge Rebase)]
                     ++ [OpEdge (TypedId "chg_x") (edge Repair)]) []) ∧
  ∃ es, find_row (TypedId "chg_x")
          (run_ops ([OpChange chg; OpEdge (TypedId "chg_x") (edge Rebase)]
                    ++ [OpEdge (TypedId "chg_x") (edge Repair)]) [])
        = Some {| evo_change := chg; evo_edges := [edge Rebase] ++ es |} ∧
    invalidated_predecessors {| evo_change := chg; evo_edges := [edge Rebase] |} `prefix_of`
      invalidated_predecessors {| evo_change := chg; evo_edges := [edge Rebase] ++ es |}.
Proof.
  apply (lineage_append_only [OpChange chg; OpEdge (TypedId "chg_x") (edge Rebase)]
           [OpEdge (TypedId "chg_x") (edge Repair)] (TypedId "chg_x")
           {| evo_change := chg; evo_edges := [edge Rebase] |}).
  vm_compute. reflexivity.
Defined.
End LineageReference.
