(* ===== verification/Integration.v ===== *)
(** [crates/bullet-git-types/src/integration.rs], [integration_binding.rs],
    [integration_error.rs] and [integration/root.rs]: proof-carrying Candidate
    bindings, the Integration manifest over an ordered Candidate set, and the
    integration root minted only from verified bindings. *)

From S2P Require Import Prelude Digests Ids Candidate ProofRoots.

Definition INTEGRATION_MANIFEST_SCHEMA_VERSION : N := 1.
Definition MAX_INTEGRATION_CANDIDATES : N := 64.
Definition MAX_BOUND_GATE_IDS : N := 16.
Definition MAX_PROVIDER_VERSION_BYTES : N := 128.
Definition MAX_TARGET_REF_BYTES : N := 256.

Inductive IntegrationError : Type :=
  | IUnsupportedSchema (version : N)
  | ICandidate (inner : CandidateManifestError)
  | IProofRootSubjectMismatch
  | IEnvelopeMismatch (field : string)
  | IInvalidProviderVersion
  | IEmptyGateSet
  | IGateIdsNotAscending
  | IGateSetTooLarge (count : N)
  | IBindingMismatch
  | IInvalidTargetRef (target_ref : string)
  | IEmptyCandidateSet
  | ICandidateSetTooLarge (count : N)
  | IDuplicateCandidate (id : string)
  | IBindingSetMismatch (why : string)
  | IDuplicateBinding (id : string)
  | IMergeGroupEqualsTarget
  | IProofRootNotDerived (why : string)
  | IIntegrationRootMismatch.

Definition integration_reason_code (e : IntegrationError) : string :=
  match e with
  | IUnsupportedSchema _ => "UNSUPPORTED_SCHEMA"
  | ICandidate inner => candidate_reason_code inner
  | IProofRootSubjectMismatch => "PROOF_ROOT_SUBJECT_MISMATCH"
  | IEnvelopeMismatch _ => "ENVELOPE_MISMATCH"
  | IInvalidProviderVersion => "INVALID_PROVIDER_VERSION"
  | IEmptyGateSet => "EMPTY_GATE_SET"
  | IGateIdsNotAscending => "GATE_IDS_NOT_ASCENDING"
  | IGateSetTooLarge _ => "GATE_SET_TOO_LARGE"
  | IBindingMismatch => "BINDING_MISMATCH"
  | IInvalidTargetRef _ => "INVALID_TARGET_REF"
  | IEmptyCandidateSet => "EMPTY_CANDIDATE_SET"
  | ICandidateSetTooLarge _ => "CANDIDATE_SET_TOO_LARGE"
  | IDuplicateCandidate _ => "DUPLICATE_CANDIDATE_ID"
  | IBindingSetMismatch _ => "BINDING_SET_MISMATCH"
  | IDuplicateBinding _ => "DUPLICATE_BINDING_ID"
  | IMergeGroupEqualsTarget => "MERGE_GROUP_EQUALS_TARGET"
  | IProofRootNotDerived _ => "PROOF_ROOT_NOT_DERIVED"
  | IIntegrationRootMismatch => "INTEGRATION_ROOT_MISMATCH"
  end.

Definition require_schema (schema_version : N) : result unit IntegrationError :=
  fail_if (negb (schema_version =? INTEGRATION_MANIFEST_SCHEMA_VERSION))
    (IUnsupportedSchema schema_version).

(** [validate_gate_ids]: ids compare as their texts. *)
Definition validate_gate_ids (gate_ids : list GateId) : result unit IntegrationError :=
  fail_if (blen gate_ids =? 0) IEmptyGateSet ;?
  fail_if (MAX_BOUND_GATE_IDS <? blen gate_ids) (IGateSetTooLarge (blen gate_ids)) ;?
  fail_if (windows2_any (λ a b, String.leb (as_str b) (as_str a)) gate_ids)
    IGateIdsNotAscending.

Definition forbidden_ref_byte (c : ascii) : bool :=
  negb (is_ascii_graphic c) || char_contains c "~^:?*[\".

Definition validate_target_ref (target_ref : string) : result unit IntegrationError :=
  fail_if
    ((MAX_TARGET_REF_BYTES <? slen target_ref)
     || negb (starts_with "refs/" target_ref)
     || ends_with "/" target_ref
     || ends_with "." target_ref
     || ends_with ".lock" target_ref
     || existsb (λ needle, str_contains needle target_ref) [".."; "//"; "/."; "@{"]
     || chars_any forbidden_ref_byte target_ref)
    (IInvalidTargetRef target_ref).

(** ** Bindings *)

Record ExecutionEnvelope : Type := {
  runner_image_digest : Digest;
  provider_version : string;
  lock_digest : Digest;
  toolchain_digest : Digest;
  environment_digest : Digest
}.

#[export] Instance ExecutionEnvelope_eq_dec : EqDecision ExecutionEnvelope.
Proof. solve_decision. Defined.

Definition envelope_validate (e : ExecutionEnvelope) : result unit IntegrationError :=
  fail_if (String.eqb (provider_version e) ""
           || (MAX_PROVIDER_VERSION_BYTES <? slen (provider_version e))
           || negb (chars_all is_ascii_graphic (provider_version e)))
    IInvalidProviderVersion.

Record CandidateBinding : Type := {
  b_schema_version : N;
  b_candidate_id : CandidateId;
  b_content_id : ContentId;
  b_gate_ids : list GateId;
  b_proof_root : Digest;
  b_envelope : ExecutionEnvelope
}.

#[export] Instance CandidateBinding_eq_dec : EqDecision CandidateBinding.
Proof. solve_decision. Defined.

(** [CandidateBinding::validate] *)
Definition binding_validate (b : CandidateBinding) : result unit IntegrationError :=
  require_schema (b_schema_version b) ;?
  validate_gate_ids (b_gate_ids b) ;?
  envelope_validate (b_envelope b).

Record CandidateBindingCheck : Type := {
  ck_binding : CandidateBinding;
  ck_candidate : Candidate;
  ck_proof_root : ProofRoot;
  ck_expected_gate_ids : list GateId;
  ck_expected_envelope : ExecutionEnvelope
}.

Record IntegrationManifest : Type := {
  im_schema_version : N;
  im_target_ref : string;
  im_target_sha : GitOid;
  im_candidate_ids : list CandidateId;
  im_binding_ids : list BindingId;
  im_merge_group_sha : option GitOid;
  im_proof_root : Digest;
  im_policy_snapshot_id : ContentId
}.

Record IntegrationInputs : Type := {
  merge_method : bytes;
  conflict_resolutions : bytes;
  integration_evidence : bytes;
  approvals_and_effects : bytes
}.

(** [IntegrationInputs::named_leaves] *)
Definition integration_named_leaves (i : IntegrationInputs) : list (string * bytes) := [
  ("merge_method", merge_method i);
  ("conflict_resolutions", conflict_resolutions i);
  ("integration_evidence", integration_evidence i);
  ("approvals_and_effect_receipts", approvals_and_effects i)
].

Record IntegrationRoot : Type := { ir_subject : IntegrationId; ir_root : Digest }.

#[export] Instance IntegrationRoot_eq_dec : EqDecision IntegrationRoot.
Proof. solve_decision. Defined.

(** The [BTreeSet] loops: refuse the first element already seen. *)
Fixpoint reject_repeats {A} (text : A → string) (err : string → IntegrationError)
    (seen : gset string) (l : list A) : result unit IntegrationError :=
  match l with
  | [] => Ok tt
  | id :: l =>
      fail_if (bool_decide (text id ∈ seen)) (err (text id)) ;?
      reject_repeats text err ({[ text id ]} ∪ seen) l
  end.

(** [IntegrationManifest::validate] *)
Definition integration_validate (m : IntegrationManifest) : result unit IntegrationError :=
  require_schema (im_schema_version m) ;?
  validate_target_ref (im_target_ref m) ;?
  fail_if (blen (im_candidate_ids m) =? 0) IEmptyCandidateSet ;?
  fail_if (MAX_INTEGRATION_CANDIDATES <? blen (im_candidate_ids m))
    (ICandidateSetTooLarge (blen (im_candidate_ids m))) ;?
  reject_repeats as_str IDuplicateCandidate ∅ (im_candidate_ids m) ;?
  fail_if (negb (blen (im_binding_ids m) =? blen (im_candidate_ids m)))
    (IBindingSetMismatch "binding count differs from the candidate set") ;?
  reject_repeats digest_id_str IDuplicateBinding ∅ (im_binding_ids m) ;?
  fail_if (bool_decide (im_merge_group_sha m = Some (im_target_sha m))) IMergeGroupEqualsTarget.

Definition combined_fields (roots : list ProofRoot) : list bytes :=
  flat_map (λ root, [as_bytes (as_str (pr_candidate root)); digest_as_bytes (pr_root root)]) roots.

(** The [leaves] buffer of [combined_proof_root]. *)
Definition combined_leaves (roots : list ProofRoot) : bytes :=
  foldl (λ buf root,
    frame (frame buf (as_bytes (as_str (pr_candidate root)))) (digest_as_bytes (pr_root root)))
    [] roots.

Definition combined_proof_root `{Blake3} (roots : list ProofRoot) : Digest :=
  framed_digest [as_bytes "integration.proof-requirement.v1"; combined_leaves roots].

Definition id_frames {A} (text : A → string) (ids : list A) : bytes :=
  foldl (λ buf id, frame buf (as_bytes (text id))) [] ids.

(** The thirteen fields [IntegrationRoot::bind] frames, in order. *)
Definition integration_fields (subject : IntegrationId) (m : IntegrationManifest)
    (i : IntegrationInputs) : list bytes := [
  as_bytes "integration-root.v1";
  as_bytes (digest_id_str subject);
  as_bytes (im_target_ref m);
  as_bytes (oid_str (im_target_sha m));
  id_frames as_str (im_candidate_ids m);
  id_frames digest_id_str (im_binding_ids m);
  as_bytes (match im_merge_group_sha m with Some o => oid_str o | None => "" end);
  digest_as_bytes (im_proof_root m);
  as_bytes (as_str (im_policy_snapshot_id m));
  merge_method i;
  conflict_resolutions i;
  integration_evidence i;
  approvals_and_effects i
].

Section Integration.
Context `{Blake3, HexCrate, !Jcs CandidateManifest, !Jcs CandidateContentManifest,
          !Jcs CandidateBinding, !Jcs IntegrationManifest}.

(** [CandidateBinding::bind] *)
Definition binding_bind (candidate : Candidate) (root : ProofRoot) (gate_ids : list GateId)
    (envelope : ExecutionEnvelope) : result CandidateBinding IntegrationError :=
  map_err ICandidate (validate_identity candidate) ;?
  fail_if (negb (bool_decide (pr_candidate root = cand_id candidate))) IProofRootSubjectMismatch ;?
  let manifest := cand_manifest candidate in
  fail_if (negb (bool_decide (toolchain_digest envelope = cm_toolchain_digest manifest)))
    (IEnvelopeMismatch "toolchain_digest") ;?
  fail_if (negb (bool_decide (environment_digest envelope = cm_environment_digest manifest)))
    (IEnvelopeMismatch "environment_digest") ;?
  let binding := {|
    b_schema_version := INTEGRATION_MANIFEST_SCHEMA_VERSION;
    b_candidate_id := cand_id candidate;
    b_content_id := cand_content_id candidate;
    b_gate_ids := gate_ids;
    b_proof_root := pr_root root;
    b_envelope := envelope
  |} in
  binding_validate binding ;?
  Ok binding.

(** [CandidateBinding::verify] *)
Definition binding_verify (b : CandidateBinding) (candidate : Candidate) (root : ProofRoot)
    (expected_gate_ids : list GateId) (expected_envelope : ExecutionEnvelope)
    : result unit IntegrationError :=
  let? expected := binding_bind candidate root expected_gate_ids expected_envelope in
  fail_if (negb (bool_decide (b = expected))) IBindingMismatch.

(** [CandidateBinding::binding_id] *)
Definition binding_id (b : CandidateBinding) : result BindingId IntegrationError :=
  binding_validate b ;?
  let? d := map_err ICandidate (hash_canonical "candidate.binding" b) in
  Ok (digest_id_from_digest "bnd" d).

(** [CandidateBindingCheck::verify] *)
Definition check_verify (ck : CandidateBindingCheck) : result unit IntegrationError :=
  binding_verify (ck_binding ck) (ck_candidate ck) (ck_proof_root ck)
    (ck_expected_gate_ids ck) (ck_expected_envelope ck).

(** [IntegrationManifest::integration_id] *)
Definition integration_id (m : IntegrationManifest) : result IntegrationId IntegrationError :=
  integration_validate m ;?
  let? d := map_err ICandidate (hash_canonical "integration.manifest" m) in
  Ok (digest_id_from_digest "int" d).

(** [IntegrationManifest::verify_proof_root] *)
Definition integration_verify_proof_root (m : IntegrationManifest) (roots : list ProofRoot)
    : result unit IntegrationError :=
  integration_validate m ;?
  fail_if (negb (blen roots =? blen (im_candidate_ids m)))
    (IProofRootNotDerived "candidate root count differs from the candidate set") ;?
  try_for (λ '(expected, root),
    fail_if (negb (bool_decide (pr_candidate root = expected)))
      (IProofRootNotDerived "candidate roots do not follow the ordered candidate set"))
    (zip (im_candidate_ids m) roots) ;?
  fail_if (negb (bool_decide (combined_proof_root roots = im_proof_root m)))
    (IProofRootNotDerived "proof_root is not the combined root of the candidate roots").

(** The loop body of [verify_bindings]. *)
Definition verify_one (row : (CandidateId * ProofRoot) * (BindingId * CandidateBindingCheck))
    : result unit IntegrationError :=
  let '((candidate_id, root), (expected_id, check)) := row in
  fail_if (negb (bool_decide (ck_proof_root check = root)))
    (IBindingSetMismatch "checked proof root differs from the ordered Candidate root") ;?
  check_verify check ;?
  let binding := ck_binding check in
  fail_if (negb (bool_decide (b_candidate_id binding = candidate_id))
           || negb (bool_decide (b_proof_root binding = pr_root root)))
    (IBindingSetMismatch "binding does not name the corresponding Candidate proof root") ;?
  let? id := binding_id binding in
  fail_if (negb (bool_decide (id = expected_id)))
    (IBindingSetMismatch "binding identity differs from the ordered manifest identity").

(** [IntegrationManifest::verify_bindings] *)
Definition verify_bindings (m : IntegrationManifest) (roots : list ProofRoot)
    (checks : list CandidateBindingCheck) : result unit IntegrationError :=
  integration_verify_proof_root m roots ;?
  fail_if (negb (blen checks =? blen (im_binding_ids m)))
    (IBindingSetMismatch "supplied binding count differs from the manifest") ;?
  try_for verify_one (zip (zip (im_candidate_ids m) roots) (zip (im_binding_ids m) checks)).

(** [IntegrationRoot::bind] *)
Definition integration_bind (m : IntegrationManifest) (roots : list ProofRoot)
    (checks : list CandidateBindingCheck) (inputs : IntegrationInputs)
    : result IntegrationRoot IntegrationError :=
  let? subject := integration_id m in
  verify_bindings m roots checks ;?
  Ok {| ir_subject := subject;
        ir_root := framed_digest (integration_fields subject m inputs) |}.

(** [IntegrationRoot::verify] *)
Definition integration_verify (r : IntegrationRoot) (m : IntegrationManifest)
    (roots : list ProofRoot) (checks : list CandidateBindingCheck) (inputs : IntegrationInputs)
    : result unit IntegrationError :=
  let? expected := integration_bind m roots checks inputs in
  fail_if (negb (bool_decide (r = expected))) IIntegrationRootMismatch.

End Integration.

(** ** Specification *)

Definition target_ref_wf (r : string) : Prop :=
  slen r <= MAX_TARGET_REF_BYTES ∧ (∃ rest, r = "refs/" +:+ rest) ∧
  (∀ q, q ∈ ["/"; "."; ".lock"] → ends_with q r = false) ∧
  (∀ needle, needle ∈ [".."; "//"; "/."; "@{"] → str_contains needle r = false) ∧
  chars_all (λ c, negb (forbidden_ref_byte c)) r = true.

Record integration_valid (m : IntegrationManifest) : Prop := {
  iv_schema : im_schema_version m = 1;
  iv_ref : target_ref_wf (im_target_ref m);
  iv_count : 1 <= blen (im_candidate_ids m) <= MAX_INTEGRATION_CANDIDATES;
  iv_candidates : NoDup (im_candidate_ids m);
  iv_binding_count : length (im_binding_ids m) = length (im_candidate_ids m);
  iv_bindings : NoDup (im_binding_ids m);
  iv_merge_group : im_merge_group_sha m ≠ Some (im_target_sha m)
}.

(** A gate set: one to sixteen identities in strictly ascending order. *)
Definition gate_set_wf (gates : list GateId) : Prop :=
  1 <= blen gates <= MAX_BOUND_GATE_IDS ∧
  StronglySorted (λ a b, String.compare (as_str a) (as_str b) = Lt) gates.

(** One Candidate of an integration, backed by its checked binding. *)
Record backed `{Blake3, HexCrate, !Jcs CandidateManifest, !Jcs CandidateContentManifest,
    !Jcs CandidateBinding} (id : CandidateId) (bid : BindingId) (root : ProofRoot)
    (ck : CandidateBindingCheck) : Prop := {
  bk_root : ck_proof_root ck = root;
  bk_subject : pr_candidate root = id;
  bk_identity : validate_identity (ck_candidate ck) = Ok tt;
  bk_id : cand_id (ck_candidate ck) = id;
  bk_binding : ck_binding ck = {|
    b_schema_version := 1;
    b_candidate_id := id;
    b_content_id := cand_content_id (ck_candidate ck);
    b_gate_ids := ck_expected_gate_ids ck;
    b_proof_root := pr_root root;
    b_envelope := ck_expected_envelope ck
  |};
  bk_toolchain :
    toolchain_digest (ck_expected_envelope ck) = cm_toolchain_digest (cand_manifest (ck_candidate ck));
  bk_environment :
    environment_digest (ck_expected_envelope ck)
    = cm_environment_digest (cand_manifest (ck_candidate ck));
  bk_gates : gate_set_wf (ck_expected_gate_ids ck);
  bk_binding_id : binding_id (ck_binding ck) = Ok bid
}.

(** ** Lemmas *)

Lemma require_schema_Ok v : require_schema v = Ok tt ↔ v = 1.
Proof.
  unfold require_schema, INTEGRATION_MANIFEST_SCHEMA_VERSION.
  by rewrite fail_if_Ok, negb_false_iff, N.eqb_eq.
Qed.

Lemma windows2_ascending (l : list GateId) :
  windows2_any (λ a b, String.leb (as_str b) (as_str a)) l = false ↔
  StronglySorted (λ a b, String.compare (as_str a) (as_str b) = Lt) l.
Proof.
  assert (∀ x y : GateId, String.leb (as_str y) (as_str x) = false ↔
            String.compare (as_str x) (as_str y) = Lt) as Hlt.
  { intros x y. unfold String.leb. rewrite (String.compare_antisym (as_str y) (as_str x)).
    by destruct (String.compare (as_str x) (as_str y)). }
  induction l as [|x l IH]; simpl; [split; [constructor|done]|].
  destruct l as [|y l]; [split; [by repeat constructor|done]|].
  rewrite orb_false_iff, IH, Hlt. split.
  - intros [Hxy Hs]. constructor; [done|]. constructor; [done|].
    inversion Hs as [|? ? _ Hy]; subst. eapply Forall_impl; [exact Hy|].
    intros z Hz. by eapply string_compare_trans_lt.
  - intros Hs. inversion Hs as [|? ? Hs' Hx]; subst. by inversion Hx; subst.
Qed.

Lemma validate_gate_ids_Ok l : validate_gate_ids l = Ok tt ↔ gate_set_wf l.
Proof.
  unfold validate_gate_ids, gate_set_wf. split.
  - intros Hok. res_inv. bools. apply windows2_ascending in Hok. split; [lia|done].
  - intros [Hn Hs%windows2_ascending].
    assert (blen l =? 0 = false) as -> by (bools; lia). simpl.
    assert (MAX_BOUND_GATE_IDS <? blen l = false) as -> by (bools; lia). simpl.
    by rewrite Hs.
Qed.

Lemma reject_repeats_Ok {A} (text : A → string) err seen l :
  (∀ x y, text x = text y → x = y) →
  (reject_repeats text err seen l = Ok tt ↔
   NoDup l ∧ ∀ x, x ∈ l → text x ∉ seen).
Proof.
  intros Hinj. revert seen. induction l as [|x l IH]; intros seen; simpl.
  - split; [|done]. intros _. split; [constructor|]. by intros x Hx%elem_of_nil.
  - rewrite res_bind_Ok, NoDup_cons. setoid_rewrite fail_if_Ok.
    setoid_rewrite bool_decide_eq_false. setoid_rewrite IH. setoid_rewrite elem_of_cons.
    split.
    + intros (_ & Hx & Hnd & Hl). split; [split; [|done]|].
      * intros Hin. apply (Hl x Hin). set_solver.
      * intros y [->|Hy]; [done|]. specialize (Hl y Hy). set_solver.
    + intros [[Hx Hnd] Hl]. exists tt. split; [apply Hl; by left|]. split; [done|].
      intros y Hy [->%elem_of_singleton%Hinj|Hin]%elem_of_union; [done|].
      by apply (Hl y); [right|].
Qed.

Lemma validate_target_ref_Ok r : validate_target_ref r = Ok tt ↔ target_ref_wf r.
Proof.
  unfold validate_target_ref, target_ref_wf, chars_any. rewrite fail_if_Ok.
  rewrite !orb_false_iff, N.ltb_ge, !negb_false_iff, starts_with_spec.
  rewrite existsb_false. split.
  - intros ((((((? & ?) & ?) & ?) & ?) & ?) & ?). split_and!; try done.
    intros q Hq. repeat (apply elem_of_cons in Hq as [->|Hq]; [done|]). by apply elem_of_nil in Hq.
  - intros (? & ? & Hq & ? & ?). split_and!; try done; apply Hq; set_solver.
Qed.

Lemma integration_validate_Ok m : integration_validate m = Ok tt ↔ integration_valid m.
Proof.
  unfold integration_validate. split.
  - intros Hok. repeat (apply res_bind_Ok in Hok as ([] & ? & Hok)).
    res_inv. constructor.
    + by apply require_schema_Ok.
    + by apply validate_target_ref_Ok.
    + bools. lia.
    + by apply (reject_repeats_Ok as_str IDuplicateCandidate ∅ _ as_str_inj).
    + bools. unfold blen in *. lia.
    + by apply (reject_repeats_Ok digest_id_str IDuplicateBinding ∅ _ digest_id_str_inj).
    + by apply bool_decide_eq_false in Hok.
  - intros [Hs%require_schema_Ok Hr%validate_target_ref_Ok Hc Hnd Hbc Hbnd Hmg].
    rewrite Hs, Hr. simpl.
    assert (blen (im_candidate_ids m) =? 0 = false) as -> by (bools; lia). simpl.
    assert (MAX_INTEGRATION_CANDIDATES <? blen (im_candidate_ids m) = false) as -> by (bools; lia).
    simpl. rewrite (proj2 (reject_repeats_Ok as_str IDuplicateCandidate ∅ _ as_str_inj))
      by set_solver. simpl. unfold blen. rewrite Hbc, N.eqb_refl. simpl.
    rewrite (proj2 (reject_repeats_Ok digest_id_str IDuplicateBinding ∅ _ digest_id_str_inj))
      by set_solver. simpl. by rewrite bool_decide_eq_false_2.
Qed.

Lemma combined_leaves_frames roots : combined_leaves roots = frames (combined_fields roots).
Proof.
  unfold combined_leaves, combined_fields, frames. generalize (@nil byte) as buf.
  induction roots as [|r roots IH]; intros buf; simpl; [done|apply IH].
Qed.

Lemma combined_fields_inj roots roots' : combined_fields roots = combined_fields roots' → roots = roots'.
Proof.
  revert roots'. induction roots as [|[c r] roots IH]; intros [|[c' r'] roots']; simpl; try done.
  intros [= H1%as_bytes_inj%as_str_inj H2%digest_eq H3%IH]. by subst.
Qed.

Lemma id_frames_frames {A} (text : A → string) ids :
  id_frames text ids = frames (map (λ id, as_bytes (text id)) ids).
Proof.
  unfold id_frames, frames. generalize (@nil byte) as buf.
  induction ids as [|i ids IH]; intros buf; simpl; [done|apply IH].
Qed.

Lemma combined_proof_root_inj `{Blake3} roots roots' :
  addressable (combined_leaves roots) → addressable (combined_leaves roots') →
  combined_proof_root roots = combined_proof_root roots' →
  roots = roots' ∨
  collides blake3_hash (frames [as_bytes "integration.proof-requirement.v1"; combined_leaves roots])
                       (frames [as_bytes "integration.proof-requirement.v1"; combined_leaves roots']).
Proof.
  intros Ha Ha' Heq. apply framed_digest_binds in Heq as [Heq|?]; [left|by right|..].
  - injection Heq as Heq. rewrite !combined_leaves_frames in *.
    apply frames_inj in Heq; [|by apply frames_addressable..]. by apply combined_fields_inj.
  - repeat constructor; auto with framing.
  - repeat constructor; auto with framing.
Qed.

Lemma zip_lookup {A B} (l : list A) (k : list B) i x y :
  zip l k !! i = Some (x, y) ↔ l !! i = Some x ∧ k !! i = Some y.
Proof. rewrite lookup_zip_with_Some. naive_solver. Qed.

Section Facts.
Context `{Blake3, HexCrate, !Jcs CandidateManifest, !Jcs CandidateContentManifest,
          !Jcs CandidateBinding, !Jcs IntegrationManifest}.

Lemma binding_bind_Ok c r gates env b :
  binding_bind c r gates env = Ok b →
  validate_identity c = Ok tt ∧ pr_candidate r = cand_id c ∧
  toolchain_digest env = cm_toolchain_digest (cand_manifest c) ∧
  environment_digest env = cm_environment_digest (cand_manifest c) ∧
  gate_set_wf gates ∧
  b = {| b_schema_version := 1; b_candidate_id := cand_id c;
         b_content_id := cand_content_id c; b_gate_ids := gates;
         b_proof_root := pr_root r; b_envelope := env |}.
Proof.
  unfold binding_bind, binding_validate. simpl. intros Hok.
  repeat (apply res_bind_Ok in Hok as ([] & ? & Hok)). res_inv. bools.
  by split_and!; [..|apply validate_gate_ids_Ok|].
Qed.

Lemma verify_proof_root_facts m roots :
  integration_verify_proof_root m roots = Ok tt →
  integration_valid m ∧ length roots = length (im_candidate_ids m) ∧
  combined_proof_root roots = im_proof_root m ∧
  ∀ i id root, im_candidate_ids m !! i = Some id → roots !! i = Some root →
    pr_candidate root = id.
Proof.
  unfold integration_verify_proof_root. intros Hok.
  repeat (apply res_bind_Ok in Hok as ([] & ? & Hok)). res_inv. bools.
  match goal with Hf : try_for _ _ = Ok _ |- _ =>
    rewrite try_for_Ok, Forall_lookup in Hf; rename Hf into Hall end.
  split; [by apply integration_validate_Ok|]. split; [unfold blen in *; lia|].
  split; [done|]. intros i id root Hid Hroot.
  specialize (Hall i (id, root)). simpl in Hall.
  rewrite zip_lookup, fail_if_Ok in Hall. bools. auto.
Qed.

Lemma verify_bindings_facts m roots checks :
  verify_bindings m roots checks = Ok tt →
  integration_verify_proof_root m roots = Ok tt ∧
  length checks = length (im_binding_ids m) ∧
  ∀ i id bid root ck,
    im_candidate_ids m !! i = Some id → im_binding_ids m !! i = Some bid →
    roots !! i = Some root → checks !! i = Some ck → backed id bid root ck.
Proof.
  unfold verify_bindings. intros Hok.
  apply res_bind_Ok in Hok as ([] & Hpr & Hok). apply res_bind_Ok in Hok as ([] & Hl & Hok).
  res_inv. bools. split; [done|]. split; [unfold blen in *; lia|].
  intros i id bid root ck Hid Hbid Hroot Hck.
  rewrite try_for_Ok, Forall_lookup in Hok. specialize (Hok i ((id, root), (bid, ck))).
  rewrite !zip_lookup in Hok. specialize (Hok ltac:(done)). simpl in Hok.
  apply res_bind_Ok in Hok as ([] & H1 & Hok). apply res_bind_Ok in Hok as ([] & Hv & Hok).
  apply res_bind_Ok in Hok as ([] & H2 & Hok). apply res_bind_Ok in Hok as (id' & Hbi & Hok).
  res_inv. bools. subst. destruct H2 as [<- _].
  unfold check_verify, binding_verify in Hv. apply res_bind_Ok in Hv as (b & Hb & Hv).
  res_inv. bools. apply binding_bind_Ok in Hb as (? & Hsub & ? & ? & ? & ->).
  constructor; rewrite ?Hv; simpl; try done. by rewrite <- Hv.
Qed.

Lemma integration_bind_Ok m roots checks inputs r :
  integration_bind m roots checks inputs = Ok r →
  integration_id m = Ok (ir_subject r) ∧ verify_bindings m roots checks = Ok tt ∧
  ir_root r = framed_digest (integration_fields (ir_subject r) m inputs).
Proof.
  unfold integration_bind. intros Hok.
  apply res_bind_Ok in Hok as (s & Hs & Hok). apply res_bind_Ok in Hok as ([] & Hv & Hok).
  by injection Hok as <-.
Qed.
End Facts.

(** What an integration root names. *)
Record same_integration (m n : IntegrationManifest) : Prop := {
  si_ref : im_target_ref m = im_target_ref n;
  si_sha : im_target_sha m = im_target_sha n;
  si_candidates : im_candidate_ids m = im_candidate_ids n;
  si_bindings : im_binding_ids m = im_binding_ids n;
  si_merge_group : im_merge_group_sha m = im_merge_group_sha n;
  si_proof_root : im_proof_root m = im_proof_root n;
  si_policy : im_policy_snapshot_id m = im_policy_snapshot_id n
}.

Definition merge_group_text (m : IntegrationManifest) : string :=
  match im_merge_group_sha m with Some o => oid_str o | None => "" end.

Lemma merge_group_text_inj m n :
  (∀ o, im_merge_group_sha m = Some o → oid_wf o) →
  (∀ o, im_merge_group_sha n = Some o → oid_wf o) →
  merge_group_text m = merge_group_text n → im_merge_group_sha m = im_merge_group_sha n.
Proof.
  assert (∀ o, oid_wf o → oid_str o ≠ "") as Hne.
  { intros o (a & hex & -> & _). by destruct a. }
  unfold merge_group_text. intros Hm Hn Heq.
  destruct (im_merge_group_sha m) as [o|], (im_merge_group_sha n) as [o'|]; try done.
  - by apply oid_str_inj in Heq as ->.
  - by destruct (Hne o (Hm o eq_refl)).
  - by destruct (Hne o' (Hn o' eq_refl)).
Qed.

Lemma integration_fields_inj s t m n i j :
  (∀ o, im_merge_group_sha m = Some o → oid_wf o) →
  (∀ o, im_merge_group_sha n = Some o → oid_wf o) →
  Forall addressable (integration_fields s m i) → Forall addressable (integration_fields t n j) →
  integration_fields s m i = integration_fields t n j →
  s = t ∧ same_integration m n ∧ i = j.
Proof.
  unfold integration_fields. intros Hm Hn Ha Hb Heq.
  rewrite !Forall_cons in Ha, Hb.
  injection Heq as Hs Hr Hsha Hc Hbd Hmg Hp Hpol H1 H2 H3 H4.
  apply as_bytes_inj in Hs, Hr, Hsha, Hpol. apply digest_id_str_inj in Hs.
  apply oid_str_inj in Hsha. apply as_str_inj in Hpol. apply digest_eq in Hp.
  apply as_bytes_inj, merge_group_text_inj in Hmg; [|done..].
  rewrite !id_frames_frames in *.
  apply frames_inj in Hc; [|apply frames_addressable; tauto..].
  apply frames_inj in Hbd; [|apply frames_addressable; tauto..].
  apply map_as_str_inj in Hc. apply map_digest_id_str_inj in Hbd.
  split; [done|]. split; [by constructor|]. destruct i, j; simpl in *; by subst.
Qed.

(** ** Properties *)

(** [IntegrationManifest::validate] accepts exactly the manifests with
    schema 1, a well-formed full ref, one to 64 distinct Candidates, as many
    distinct bindings, and a merge-group head other than the target. *)
Theorem integration_validate_exact m : integration_validate m = Ok tt ↔ integration_valid m.
Proof. apply integration_validate_Ok. Qed.

Section BindingProps.
Context `{Blake3, HexCrate, !Jcs CandidateManifest, !Jcs CandidateContentManifest,
          !Jcs CandidateBinding, !Jcs IntegrationManifest}.

(** When [verify_bindings] accepts, every Candidate of the manifest, at its
    place in the order, is backed: a root and a checked binding are supplied
    for it, the Candidate's stored addresses are the ones its manifest derives,
    the root names it, the envelope has its toolchain and environment, the gate
    set is strictly ascending, and the binding's identity is the one the
    manifest lists.  The manifest is valid and its proof root is the combined
    root of exactly those roots. *)
Theorem verify_bindings_sound m roots checks :
  verify_bindings m roots checks = Ok tt →
  integration_valid m ∧ im_proof_root m = combined_proof_root roots ∧
  ∀ i id, im_candidate_ids m !! i = Some id →
    ∃ bid root ck, im_binding_ids m !! i = Some bid ∧ roots !! i = Some root ∧
      checks !! i = Some ck ∧ backed id bid root ck.
Proof.
  intros (Hpr%verify_proof_root_facts & Hlc & Hb)%verify_bindings_facts.
  destruct Hpr as (Hv & Hlr & Hroot & _). split; [done|]. split; [done|].
  intros i id Hid. pose proof (lookup_lt_Some _ _ _ Hid) as Hlt.
  pose proof (iv_binding_count m Hv) as Hlb.
  destruct (lookup_lt_is_Some_2 (im_binding_ids m) i) as [bid Hbid]; [lia|].
  destruct (lookup_lt_is_Some_2 roots i) as [root Hr]; [lia|].
  destruct (lookup_lt_is_Some_2 checks i) as [ck Hck]; [lia|].
  exists bid, root, ck. split_and!; try done. by eapply Hb.
Qed.

(** C24: an integration root binds its subject: a root minted for one manifest
    and verified against another names the same target, Candidates, bindings,
    merge group, proof root, policy, inputs and ordered Candidate roots, unless
    one of the two exact pairs of framed preimages collides under BLAKE3. *)
Theorem integration_root_binds_subject m n roots roots' checks checks' i j r :
  (∀ o, im_merge_group_sha m = Some o → oid_wf o) →
  (∀ o, im_merge_group_sha n = Some o → oid_wf o) →
  Forall addressable (integration_fields (ir_subject r) m i) →
  Forall addressable (integration_fields (ir_subject r) n j) →
  addressable (combined_leaves roots) → addressable (combined_leaves roots') →
  integration_bind m roots checks i = Ok r →
  integration_verify r n roots' checks' j = Ok tt →
  (same_integration m n ∧ i = j ∧ roots = roots') ∨
  collides blake3_hash (frames (integration_fields (ir_subject r) m i))
                       (frames (integration_fields (ir_subject r) n j)) ∨
  collides blake3_hash
    (frames [as_bytes "integration.proof-requirement.v1"; combined_leaves roots])
    (frames [as_bytes "integration.proof-requirement.v1"; combined_leaves roots']).
Proof.
  intros Hm Hn Ha Hb Hc Hd (_ & Hvm & Hrm)%integration_bind_Ok Hver.
  unfold integration_verify in Hver. apply res_bind_Ok in Hver as (r' & Hbind & Heq).
  res_inv. bools. subst r'.
  apply integration_bind_Ok in Hbind as (_ & Hvn & Hrn). rewrite Hrm in Hrn.
  apply framed_digest_binds in Hrn as [Hf|?]; [|by auto..].
  apply integration_fields_inj in Hf as (_ & Hsame & ->); [|done..].
  apply verify_bindings_facts in Hvm as [Hvm _]. apply verify_bindings_facts in Hvn as [Hvn _].
  apply verify_proof_root_facts in Hvm as (_ & _ & Hpm & _).
  apply verify_proof_root_facts in Hvn as (_ & _ & Hpn & _).
  rewrite (si_proof_root _ _ Hsame), <- Hpn in Hpm.
  apply combined_proof_root_inj in Hpm as [?|?]; auto.
Qed.
End BindingProps.

(** ** A concrete integration of one bound Candidate *)
Module IntegrationReference.
Import Reference CandidateReference ProofReference.

#[export] Instance jcs_binding : Jcs CandidateBinding := λ b,
  let e := as_bytes (as_str (b_candidate_id b)) ++ digest_bytes (b_proof_root b) in
  if decide (addressable e) then Ok e else Err "too large".
#[export] Instance jcs_integration : Jcs IntegrationManifest := λ m,
  let e := as_bytes (im_target_ref m) ++ digest_bytes (im_proof_root m) in
  if decide (addressable e) then Ok e else Err "too large".

Definition fail_candidate : Candidate :=
  {| cand_id := TypedId ""; cand_content_id := TypedId ""; cand_manifest := sample;
     cand_prepared_at := "" |}.
Definition candidate : Candidate := default fail_candidate (res_ok (from_manifest sample "t0")).
Definition gates : list GateId := [TypedId "gat_a"; TypedId "gat_b"].
Definition envelope : ExecutionEnvelope := {|
  runner_image_digest := zero_digest; provider_version := "codex-1.0";
  lock_digest := zero_digest; toolchain_digest := zero_digest;
  environment_digest := zero_digest
|}.
Definition root : ProofRoot := proof_bind candidate inputs_empty.
Definition binding : CandidateBinding := {|
  b_schema_version := 1; b_candidate_id := cand_id candidate;
  b_content_id := cand_content_id candidate; b_gate_ids := gates;
  b_proof_root := pr_root root; b_envelope := envelope
|}.
Definition check : CandidateBindingCheck := {|
  ck_binding := binding; ck_candidate := candidate; ck_proof_root := root;
  ck_expected_gate_ids := gates; ck_expected_envelope := envelope
|}.
Definition manifest : IntegrationManifest := {|
  im_schema_version := 1; im_target_ref := "refs/heads/main";
  im_target_sha := MkGitOid "sha1:target"; im_candidate_ids := [cand_id candidate];
  im_binding_ids := [default (DigestId "") (res_ok (binding_id binding))];
  im_merge_group_sha := None; im_proof_root := combined_proof_root [root];
  im_policy_snapshot_id := TypedId "cnt_policy"
|}.
Definition inputs : IntegrationInputs := {|
  merge_method := as_bytes "squash"; conflict_resolutions := [];
  integration_evidence := []; approvals_and_effects := []
|}.
Definition minted : IntegrationRoot :=
  default {| ir_subject := DigestId ""; ir_root := zero_digest |}
    (res_ok (integration_bind manifest [root] [check] inputs)).

Lemma verified : verify_bindings manifest [root] [check] = Ok tt.
Proof. vm_compute. reflexivity. Qed.

Example verify_bindings_sound_witness :
  integration_valid manifest ∧ im_proof_root manifest = combined_proof_root [root] ∧
  ∀ i id, im_candidate_ids manifest !! i = Some id →
    ∃ bid root' ck, im_binding_ids manifest !! i = Some bid ∧ [root] !! i = Some root' ∧
      [check] !! i = Some ck ∧ backed id bid root' ck.
Proof. apply (verify_bindings_sound manifest [root] [check]). vm_compute. reflexivity. Defined.

Lemma minted_addressable : Forall addressable (integration_fields (ir_subject minted) manifest inputs).
Proof. apply (bool_decide_unpack (Forall addressable _)). vm_compute. exact I. Qed.

Lemma leaves_addressable : addressable (combined_leaves [root]).
Proof. apply (bool_decide_unpack (addressable _)). vm_compute. exact I. Qed.

Lemma minted_bind : integration_bind manifest [root] [check] inputs = Ok minted.
Proof. vm_compute. reflexivity. Qed.

Lemma minted_verify : integration_verify minted manifest [root] [check] inputs = Ok tt.
Proof. vm_compute. reflexivity. Qed.

Example integration_root_binds_subject_witness :
  (same_integration manifest manifest ∧ inputs = inputs ∧ [root] = [root]) ∨
  collides blake3_hash (frames (integration_fields (ir_subject minted) manifest inputs))
                       (frames (integration_fields (ir_subject minted) manifest inputs)) ∨
  collides blake3_hash
    (frames [as_bytes "integration.proof-requirement.v1"; combined_leaves [root]])
    (frames [as_bytes "integration.proof-requirement.v1"; combined_leaves [root]]).
Proof.
  apply (integration_root_binds_subject manifest manifest [root] [root] [check] [check]
           inputs inputs minted).
  - intros o [=].
  - intros o [=].
  - apply minted_addressable.
  - apply minted_addressable.
  - apply leaves_addressable.
  - apply leaves_addressable.
  - apply minted_bind.
  - apply minted_verify.
Defined.
End IntegrationReference.
