(* ===== verification/Journal.v ===== *)
(** [crates/bullet-git-journal/src/lib.rs], [storage.rs] and [durable.rs]: the
    workspace journal, its checkpoints, and the directory of immutable
    checksummed batch files behind it.

    A directory is a map from names to entries.  [publish_batch] returns the
    sequence of directory states it goes through: a crash exposes any of them.
    The replies of the file system are the fields of [publish_env]; the JSON
    codec of a batch is the class [BatchCodec], which decodes what it encoded
    (the line feed the code appends is JSON white space). *)

From S2P Require Import Prelude Decimal Digests Ids.

Definition CHECKPOINT_DOMAIN : string := "bullet-git.checkpoint.v3".
Definition JOURNAL_TREE_DOMAIN : string := "bullet-git.journal-tree.v2".
Definition SCHEMA_VERSION : N := 2.
Definition DOMAIN : string := "bullet-git-journal-batch-v2".

(** ** Operations and checkpoints ([lib.rs]) *)

Inductive JournalOpKind : Type := KWrite | KDelete.

#[export] Instance JournalOpKind_eq_dec : EqDecision JournalOpKind.
Proof. solve_decision. Defined.

Definition frame_tag (k : JournalOpKind) : string :=
  match k with KWrite => "w" | KDelete => "d" end.

Record JournalOp : Type := {
  jo_seq : N;
  jo_path : string;
  jo_kind : JournalOpKind;
  jo_before : option Digest;
  jo_after : option Digest
}.

#[export] Instance JournalOp_eq_dec : EqDecision JournalOp.
Proof. solve_decision. Defined.

Record Checkpoint : Type := {
  ckp_id : CheckpointId;
  ckp_through_seq : N;
  ckp_tree : Digest;
  ckp_git_tree : option GitOid;
  ckp_digest : Digest
}.

(** [Journal { ops }] *)
Definition Journal : Type := list JournalOp.

Definition frame_optional_digest (buffer : bytes) (digest : option Digest) : bytes :=
  match digest with
  | Some d => frame (frame buffer (as_bytes "present")) (digest_as_bytes d)
  | None => frame buffer (as_bytes "absent")
  end.

(** The five framed fields of one operation, shared by both hashes. *)
Definition frame_op (buf : bytes) (op : JournalOp) : bytes :=
  let buf := frame buf (u64_le_bytes (jo_seq op)) in
  let buf := frame buf (as_bytes (frame_tag (jo_kind op))) in
  let buf := frame buf (as_bytes (jo_path op)) in
  let buf := frame_optional_digest buf (jo_before op) in
  frame_optional_digest buf (jo_after op).

Section Journal.
Context `{Blake3, HexCrate}.

(** [Journal::push] *)
Definition journal_push (j : Journal) (path : string) (kind : JournalOpKind)
    (before after : option Digest) : Journal :=
  j ++ [{| jo_seq := blen j + 1; jo_path := path; jo_kind := kind;
           jo_before := before; jo_after := after |}].

(** [Journal::record] *)
Definition journal_record (j : Journal) (path : string) (contents : bytes) : Journal :=
  journal_push j path KWrite None (Some (digest_of contents)).

(** [Journal::record_delete] *)
Definition journal_record_delete (j : Journal) (path : string) (before : bytes) : Journal :=
  journal_push j path KDelete (Some (digest_of before)) None.

Definition checkpoint_fields (through_seq : N) (tree : Digest) (git_tree : option GitOid)
    : list bytes := [
  as_bytes CHECKPOINT_DOMAIN;
  u64_le_bytes through_seq;
  digest_as_bytes tree;
  match git_tree with Some o => as_bytes (oid_str o) | None => as_bytes "none" end
].

Definition checkpoint_digest (through_seq : N) (tree : Digest) (git_tree : option GitOid) : Digest :=
  framed_digest (checkpoint_fields through_seq tree git_tree).

Definition checkpoint_id (d : Digest) : CheckpointId := from_seed "ckp" (to_hex d).

(** The buffer [Journal::checkpoint] hashes. *)
Definition journal_tree_preimage (j : Journal) : bytes :=
  foldl frame_op (frame [] (as_bytes JOURNAL_TREE_DOMAIN)) j.

(** [Journal::checkpoint] *)
Definition checkpoint (j : Journal) : Checkpoint :=
  let through_seq := match last j with Some op => jo_seq op | None => 0 end in
  let tree := digest_of (journal_tree_preimage j) in
  let digest := checkpoint_digest through_seq tree None in
  {| ckp_id := checkpoint_id digest; ckp_through_seq := through_seq; ckp_tree := tree;
     ckp_git_tree := None; ckp_digest := digest |}.

(** [Checkpoint::rebind_identity] *)
Definition rebind_identity (c : Checkpoint) : Checkpoint :=
  let digest := checkpoint_digest (ckp_through_seq c) (ckp_tree c) (ckp_git_tree c) in
  {| ckp_id := checkpoint_id digest; ckp_through_seq := ckp_through_seq c;
     ckp_tree := ckp_tree c; ckp_git_tree := ckp_git_tree c; ckp_digest := digest |}.

(** [Checkpoint::bind_git_tree] *)
Definition bind_git_tree (c : Checkpoint) (git_tree : GitOid) : Checkpoint :=
  rebind_identity {| ckp_id := ckp_id c; ckp_through_seq := ckp_through_seq c;
    ckp_tree := ckp_tree c; ckp_git_tree := Some git_tree; ckp_digest := ckp_digest c |}.

(** [Checkpoint::identity_is_valid] *)
Definition identity_is_valid (c : Checkpoint) : bool :=
  let digest := checkpoint_digest (ckp_through_seq c) (ckp_tree c) (ckp_git_tree c) in
  bool_decide (ckp_digest c = digest) && bool_decide (ckp_id c = checkpoint_id digest).
End Journal.

(** ** Batch files ([storage.rs]) *)

Inductive JournalError : Type :=
  | JIo (message : string)
  | JCorrupt (message : string)
  | JPoisoned.

Definition journal_reason_code (e : JournalError) : string :=
  match e with
  | JIo _ => "JOURNAL_IO_FAILED"
  | JCorrupt _ => "CORRUPT_JOURNAL"
  | JPoisoned => "JOURNAL_POISONED"
  end.

Definition may_have_published (e : JournalError) : bool :=
  match e with JPoisoned => true | _ => false end.

Definition journal_io (context error : string) : JournalError := JIo (context +:+ ": " +:+ error).

Record StoredBatch : Type := {
  sb_schema_version : N;
  sb_start_seq : N;
  sb_end_seq : N;
  sb_previous_checksum : option Digest;
  sb_ops : list JournalOp;
  sb_checksum : Digest
}.

(** [serde_json::to_vec] and [serde_json::from_slice] on a batch. *)
Class BatchCodec : Type := {
  encode_batch : StoredBatch → result bytes string;
  decode_batch : bytes → result StoredBatch string
}.
Class BatchCodecLaws `{BatchCodec} : Prop :=
  decode_encode_batch b e : encode_batch b = Ok e → decode_batch (e ++ [x0a]) = Ok b.

(** What a directory lists: a regular file or anything else. *)
Inductive entry : Type := EFile (contents : bytes) | EOther.
Abbreviation dir := (gmap string entry).

Definition batch_preimage (previous : option Digest) (ops : list JournalOp) : bytes :=
  let buf := frame [] (as_bytes DOMAIN) in
  let buf := match previous with
             | Some d => frame (frame buf (as_bytes "previous")) (digest_as_bytes d)
             | None => frame buf (as_bytes "genesis")
             end in
  let buf := frame buf (u64_le_bytes (blen ops)) in
  foldl frame_op buf ops.

Definition batch_checksum `{Blake3} (previous : option Digest) (ops : list JournalOp) : Digest :=
  digest_of (batch_preimage previous ops).

(** [StoredBatch::new] *)
Definition batch_new `{Blake3} (start_seq end_seq : N) (previous : option Digest)
    (ops : list JournalOp) : StoredBatch :=
  {| sb_schema_version := SCHEMA_VERSION; sb_start_seq := start_seq; sb_end_seq := end_seq;
     sb_previous_checksum := previous; sb_ops := ops;
     sb_checksum := batch_checksum previous ops |}.

Definition batch_name (start end_ : N) : string :=
  dec_fixed 20 start +:+ "-" +:+ dec_fixed 20 end_ +:+ ".json".

Definition parse_batch_name (name : string) : option (N * N) :=
  match strip_suffix ".json" name with
  | None => None
  | Some stem =>
      match split_once "-"%char stem with
      | None => None
      | Some (start, end_) =>
          if negb (slen start =? 20) || negb (slen end_ =? 20)
             || negb (is_digits start) || negb (is_digits end_)
          then None
          else match parse_u64_digits start, parse_u64_digits end_ with
               | Some s, Some e => Some (s, e)
               | _, _ => None
               end
      end
  end.

Definition is_temp_name (name : string) : bool :=
  match strip_prefix ".batch-" name with
  | None => false
  | Some name =>
      match strip_suffix ".tmp" name with
      | None => false
      | Some stem =>
          match split "-"%char stem with
          | [f0; f1; f2; f3; f4] =>
              (slen f0 =? 20) && (slen f1 =? 20) && is_digits f0 && is_digits f1
              && negb (String.eqb f2 "") && is_digits f2
              && (slen f3 =? 64) && chars_all is_lower_hex_char f3
              && negb (String.eqb f4 "") && is_digits f4
          | _ => false
          end
      end
  end.

(** The content shape a kind requires. *)
Definition content_shape_valid (op : JournalOp) : bool :=
  match jo_kind op with
  | KWrite => bool_decide (is_Some (jo_after op))
  | KDelete => bool_decide (is_Some (jo_before op)) && bool_decide (jo_after op = None)
  end.

Definition NUL : ascii := Ascii.ascii_of_N 0.

(** The loop body of [validate_batch]. *)
Definition validate_batch_op (start : N) (row : N * JournalOp) : result unit JournalError :=
  let '(offset, op) := row in
  let? wanted := ok_or (checked_add start offset) (JCorrupt "sequence overflow") in
  fail_if (negb (jo_seq op =? wanted) || String.eqb (jo_path op) ""
           || char_contains NUL (jo_path op) || negb (content_shape_valid op))
    (JCorrupt ("invalid operation at sequence " +:+ u64_to_string wanted)).

(** [iter().enumerate()] *)
Definition enumerate {A} (l : list A) : list (N * A) := imap (λ i x, (N.of_nat i, x)) l.

Definition validate_batch `{Blake3} (b : StoredBatch) (file_start file_end expected : N)
    (previous : option Digest) : result unit JournalError :=
  fail_if (negb (sb_schema_version b =? SCHEMA_VERSION))
    (JCorrupt ("unsupported schema " +:+ u64_to_string (sb_schema_version b))) ;?
  fail_if (negb (sb_start_seq b =? file_start) || negb (sb_end_seq b =? file_end)
           || negb (sb_start_seq b =? expected))
    (JCorrupt ("sequence gap or filename mismatch at " +:+ u64_to_string file_start +:+ "-"
               +:+ u64_to_string file_end +:+ ", expected " +:+ u64_to_string expected)) ;?
  fail_if ((blen (sb_ops b) =? 0) || negb (bool_decide (sb_previous_checksum b = previous)))
    (JCorrupt "empty batch or checksum-chain mismatch") ;?
  try_for (validate_batch_op (sb_start_seq b)) (enumerate (sb_ops b)) ;?
  fail_if (match last (sb_ops b) with
           | Some op => negb (jo_seq op =? sb_end_seq b)
           | None => true
           end) (JCorrupt "batch end sequence mismatch") ;?
  fail_if (negb (bool_decide (batch_checksum previous (sb_ops b) = sb_checksum b)))
    (JCorrupt ("checksum mismatch at " +:+ u64_to_string (sb_start_seq b) +:+ "-"
               +:+ u64_to_string (sb_end_seq b))).

(** The scan of [load_batches]: one listed entry. *)
Definition scan_entry (batches : list (N * N * bytes)) (e : string * entry)
    : result (list (N * N * bytes)) JournalError :=
  match e with
  | (name, EFile contents) =>
      match parse_batch_name name with
      | Some range => Ok (batches ++ [(range, contents)])
      | None =>
          if is_temp_name name then Ok batches
          else Err (JCorrupt ("unexpected journal entry " +:+ name))
      end
  | (name, EOther) => Err (JCorrupt ("unexpected journal entry " +:+ name))
  end.

(** The tuple order of the [sort_by_key] keys. *)
Definition range_le (x y : N * N * bytes) : Prop :=
  let '((s1, e1), _) := x in
  let '((s2, e2), _) := y in
  s1 < s2 ∨ (s1 = s2 ∧ e1 <= e2).
#[export] Instance range_le_dec : RelDecision range_le.
Proof. intros [[s1 e1] ?] [[s2 e2] ?]. apply _. Defined.

Section Storage.
Context `{Blake3, HexCrate, BatchCodec}.

(** The replay loop of [load_batches]: the state is (ops, previous, expected). *)
Definition replay_batch (st : list JournalOp * option Digest * N) (file : N * N * bytes)
    : result (list JournalOp * option Digest * N) JournalError :=
  let '(ops, previous, expected) := st in
  let '((file_start, file_end), contents) := file in
  let? batch := map_err (λ e, JCorrupt (batch_name file_start file_end +:+ " is invalid JSON: " +:+ e))
                  (decode_batch contents) in
  validate_batch batch file_start file_end expected previous ;?
  let? expected := ok_or (checked_add (sb_end_seq batch) 1) (JCorrupt "sequence overflow") in
  Ok (ops ++ sb_ops batch, Some (sb_checksum batch), expected).

(** [load_batches], on the entries in the order [read_dir] lists them. *)
Definition load_batches (entries : list (string * entry))
    : result (list JournalOp * option Digest) JournalError :=
  let? batches := try_fold scan_entry [] entries in
  let? '((ops, previous), _) := try_fold replay_batch ([], None, 1) (merge_sort range_le batches) in
  Ok (ops, previous).

(** The replies of the file system to one [publish_batch]. *)
Record publish_env : Type := {
  pe_pid : N;
  pe_create_error : N → option string;
  pe_write_error : option (nat * string);
  pe_cleanup_ok : bool;
  pe_link_error : option string;
  pe_dirsync_fails : bool;
  pe_remove_ok : bool
}.

Definition staging_name (env : publish_env) (b : StoredBatch) (attempt : N) : string :=
  ".batch-" +:+ dec_fixed 20 (sb_start_seq b) +:+ "-" +:+ dec_fixed 20 (sb_end_seq b) +:+ "-"
  +:+ u64_to_string (pe_pid env) +:+ "-" +:+ to_hex (sb_checksum b) +:+ "-"
  +:+ u64_to_string attempt +:+ ".tmp".

(** [create_staging_file]: [create_new] refuses a name already present. *)
Fixpoint create_staging_file (env : publish_env) (d : dir) (b : StoredBatch) (attempts : list N)
    : result string JournalError :=
  match attempts with
  | [] => Err (JIo "could not allocate a unique journal staging file")
  | attempt :: attempts =>
      let name := staging_name env b attempt in
      match pe_create_error env attempt with
      | Some e => Err (journal_io "create journal staging file" e)
      | None =>
          match d !! name with
          | Some _ => create_staging_file env d b attempts
          | None => Ok name
          end
      end
  end.

Definition attempts_128 : list N := map N.of_nat (seq 0 128).

Definition already_exists (name : string) : JournalError :=
  JCorrupt ("batch " +:+ name +:+ " already exists").

(** [publish_batch]: the directory states after each call that changes it,
    and the result. *)
Definition publish_batch (env : publish_env) (d : dir) (b : StoredBatch)
    : list dir * result unit JournalError :=
  match encode_batch b with
  | Err e => ([], Err (JCorrupt ("encode batch: " +:+ e)))
  | Ok encoded =>
      let contents := encoded ++ [x0a] in
      let final := batch_name (sb_start_seq b) (sb_end_seq b) in
      match d !! final with
      | Some _ => ([], Err (already_exists final))
      | None =>
          match create_staging_file env d b attempts_128 with
          | Err e => ([], Err e)
          | Ok staging =>
              let d1 := <[staging := EFile []]> d in
              let removed (d : dir) := if pe_cleanup_ok env then delete staging d else d in
              match pe_write_error env with
              | Some (n, e) =>
                  let d2 := <[staging := EFile (take n contents)]> d1 in
                  ([d1; d2; removed d2], Err (journal_io "write journal batch" e))
              | None =>
                  let d2 := <[staging := EFile contents]> d1 in
                  match pe_link_error env with
                  | Some e => ([d1; d2; removed d2], Err (journal_io "publish journal batch" e))
                  | None =>
                      match d2 !! final with
                      | Some _ => ([d1; d2; removed d2], Err (already_exists final))
                      | None =>
                          let d3 := <[final := EFile contents]> d2 in
                          if pe_dirsync_fails env then ([d1; d2; d3], Err JPoisoned)
                          else
                            let d4 := if pe_remove_ok env then delete staging d3 else d3 in
                            ([d1; d2; d3; d4], Ok tt)
                      end
                  end
              end
          end
      end
  end.
End Storage.

(** ** The durable journal ([durable.rs]) *)

Record JournalMutation : Type := {
  mut_path : string;
  mut_kind : JournalOpKind;
  mut_before : option Digest;
  mut_after : option Digest
}.

(** [JournalMutation::write], [JournalMutation::delete] *)
Definition mutation_write (path : string) (before : option Digest) (after : Digest) : JournalMutation :=
  {| mut_path := path; mut_kind := KWrite; mut_before := before; mut_after := Some after |}.
Definition mutation_delete (path : string) (before : Digest) : JournalMutation :=
  {| mut_path := path; mut_kind := KDelete; mut_before := Some before; mut_after := None |}.

Record DurableJournal : Type := {
  dj_ops : Journal;
  dj_head_checksum : option Digest;
  dj_healthy : bool
}.

(** What [symlink_metadata] reports for the journal path. *)
Inductive dir_meta : Type := MetaDirectory | MetaOther | MetaMissing | MetaError (e : string).

(** [prepare_directory]; the replies of [create_dir_all] and of the two
    directory syncs are [create], [sync] and [parent_sync]. *)
Definition prepare_directory (meta : dir_meta) (create sync parent_sync : option string)
    : result unit JournalError :=
  match meta with
  | MetaDirectory => Ok tt
  | MetaOther => Err (JCorrupt "not an ordinary directory")
  | MetaMissing =>
      match create with Some e => Err (journal_io "create journal" e) | None => Ok tt end ;?
      match sync with Some e => Err (journal_io "sync journal directory" e) | None => Ok tt end ;?
      match parent_sync with Some e => Err (journal_io "sync journal directory" e) | None => Ok tt end
  | MetaError e => Err (journal_io "inspect journal" e)
  end.

Section Durable.
Context `{Blake3, HexCrate, BatchCodec}.

(** [DurableJournal::open] *)
Definition journal_open (meta : dir_meta) (create sync parent_sync : option string)
    (entries : list (string * entry)) : result DurableJournal JournalError :=
  prepare_directory meta create sync parent_sync ;?
  let? '(ops, head) := load_batches entries in
  Ok {| dj_ops := ops; dj_head_checksum := head; dj_healthy := true |}.

(** The loop body of [append_batch]. *)
Definition admit_mutation (start_seq : N) (row : N * JournalMutation) : result JournalOp JournalError :=
  let '(offset, mutation) := row in
  fail_if (String.eqb (mut_path mutation) "" || char_contains NUL (mut_path mutation))
    (JCorrupt "invalid empty or NUL path") ;?
  let? seq := ok_or (checked_add start_seq offset) (JCorrupt "sequence overflow") in
  Ok {| jo_seq := seq; jo_path := mut_path mutation; jo_kind := mut_kind mutation;
        jo_before := mut_before mutation; jo_after := mut_after mutation |}.

(** The batch [append_batch] builds before any file is touched. *)
Definition build_batch (j : DurableJournal) (mutations : list JournalMutation)
    : result StoredBatch JournalError :=
  let current_len := blen (dj_ops j) in
  let? start_seq := ok_or (checked_add current_len 1) (JCorrupt "sequence overflow") in
  let? ops := try_map (admit_mutation start_seq) (enumerate mutations) in
  let? last_op := ok_or (last ops) (JCorrupt "empty batch") in
  Ok (batch_new start_seq (jo_seq last_op) (dj_head_checksum j) ops).

(** [append_batch] *)
Definition append_batch (env : publish_env) (j : DurableJournal) (d : dir)
    (mutations : list JournalMutation) : list dir * DurableJournal * result unit JournalError :=
  match build_batch j mutations with
  | Err e => ([], j, Err e)
  | Ok batch =>
      match publish_batch env d batch with
      | (trace, Err e) => (trace, j, Err e)
      | (trace, Ok _) =>
          (trace, {| dj_ops := dj_ops j ++ sb_ops batch;
                     dj_head_checksum := Some (sb_checksum batch);
                     dj_healthy := dj_healthy j |}, Ok tt)
      end
  end.

(** [DurableJournal::record_batch] *)
Definition record_batch (env : publish_env) (j : DurableJournal) (d : dir)
    (mutations : list JournalMutation) : list dir * DurableJournal * result unit JournalError :=
  if negb (dj_healthy j) then ([], j, Err JPoisoned)
  else match mutations with
  | [] => ([], j, Ok tt)
  | _ =>
      let '(trace, j', r) := append_batch env j d mutations in
      match r with
      | Err _ => (trace, {| dj_ops := dj_ops j'; dj_head_checksum := dj_head_checksum j';
                            dj_healthy := false |}, r)
      | Ok _ => (trace, j', r)
      end
  end.
End Durable.

(** ** Names *)

Lemma parse_batch_name_name s e :
  s <= u64_max → e <= u64_max → parse_batch_name (batch_name s e) = Some (s, e).
Proof.
  intros Hs He. unfold parse_batch_name, batch_name.
  assert (strip_suffix ".json" (dec_fixed 20 s +:+ "-" +:+ dec_fixed 20 e +:+ ".json")
          = Some (dec_fixed 20 s +:+ "-" +:+ dec_fixed 20 e)) as ->.
  { apply strip_suffix_Some. by rewrite !string_app_assoc. }
  assert (split_once "-"%char (dec_fixed 20 s +:+ "-" +:+ dec_fixed 20 e)
          = Some (dec_fixed 20 s, dec_fixed 20 e)) as ->.
  { apply split_once_Some. split; [done|]. apply digits_no_dash, dec_fixed_digits. }
  rewrite !dec_fixed_slen, !dec_fixed_digits. simpl. by rewrite !parse_dec_fixed.
Qed.

Lemma string_app5 a b c d e : a +:+ b +:+ c +:+ d +:+ e = (a +:+ b +:+ c +:+ d) +:+ e.
Proof. by rewrite !string_app_assoc. Qed.

Lemma tmp_not_batch x : parse_batch_name (x +:+ ".tmp") = None.
Proof.
  unfold parse_batch_name. destruct (strip_suffix ".json" (x +:+ ".tmp")) as [r|] eqn:E; [|done].
  apply strip_suffix_Some in E. change ".json" with ("." +:+ "json") in E.
  rewrite <- string_app_assoc in E. by apply string_app_inj_len_r in E as [_ ?].
Qed.

Section Names.
Context `{Blake3, HexLaws}.

Lemma staging_name_temp env b attempt :
  is_temp_name (staging_name env b attempt) = true ∧
  parse_batch_name (staging_name env b attempt) = None.
Proof.
  unfold staging_name. split.
  - unfold is_temp_name.
    destruct (u64_to_string_digits (pe_pid env)) as [Hp1 Hp2].
    destruct (u64_to_string_digits attempt) as [Ha1 Ha2].
    set (p := u64_to_string (pe_pid env)) in *. set (a := u64_to_string attempt) in *.
    set (h := to_hex (sb_checksum b)).
    pose proof (to_hex_lower (sb_checksum b)) as Hh1. pose proof (to_hex_slen (sb_checksum b)) as Hh2.
    fold h in Hh1, Hh2.
    rewrite strip_prefix_app.
    set (s0 := dec_fixed 20 (sb_start_seq b)). set (s1 := dec_fixed 20 (sb_end_seq b)).
    assert (strip_suffix ".tmp" (s0 +:+ "-" +:+ s1 +:+ "-" +:+ p +:+ "-" +:+ h +:+ "-" +:+ a +:+ ".tmp")
            = Some (s0 +:+ "-" +:+ s1 +:+ "-" +:+ p +:+ "-" +:+ h +:+ "-" +:+ a)) as ->.
    { apply strip_suffix_Some. rewrite !string_app_assoc. reflexivity. }
    rewrite !split_cons', split_no_char; try by (apply digits_no_dash; (done || apply dec_fixed_digits)).
    2: by apply lower_hex_no_dash.
    unfold s0, s1. rewrite !dec_fixed_slen, !dec_fixed_digits, Hp1, Ha1, Hh1, Hh2. simpl.
    apply String.eqb_neq in Hp2, Ha2. by rewrite Hp2, Ha2.
  - rewrite !(string_assoc3 _ _ ".tmp"), ?string_assoc3. apply tmp_not_batch.
Qed.
End Names.

(** ** The batches of a directory *)

(** An entry [load_batches] accepts. *)
Definition entry_ok (e : string * entry) : Prop :=
  (∃ c, snd e = EFile c) ∧ (parse_batch_name (fst e) ≠ None ∨ is_temp_name (fst e) = true).

Definition batch_file (e : string * entry) : list (N * N * bytes) :=
  match e with
  | (name, EFile c) => match parse_batch_name name with Some r => [(r, c)] | None => [] end
  | _ => []
  end.

Definition batch_files (es : list (string * entry)) : list (N * N * bytes) := flat_map batch_file es.

Lemma scan_entries es acc :
  Forall entry_ok es → try_fold scan_entry acc es = Ok (acc ++ batch_files es).
Proof.
  intros Hok. revert acc. induction Hok as [|[name e] es [[c Hc] Hn] Hok IH]; intros acc; simpl.
  - by rewrite app_nil_r.
  - simpl in Hc, Hn. subst e. destruct (parse_batch_name name) as [r|]; simpl.
    + rewrite IH. by rewrite <- app_assoc.
    + destruct Hn as [?|Hn]; [done|]. rewrite Hn. simpl. apply IH.
Qed.

Lemma batch_files_perm es es' : es ≡ₚ es' → batch_files es ≡ₚ batch_files es'.
Proof. intros Hp. unfold batch_files. induction Hp; simpl; try (by auto); [by f_equiv|solve_Permutation|by etrans]. Qed.

Lemma batch_files_delete d t :
  parse_batch_name t = None →
  batch_files (map_to_list (delete t d)) ≡ₚ batch_files (map_to_list d).
Proof.
  intros Ht. destruct (d !! t) as [e|] eqn:E; [|by rewrite delete_id].
  rewrite <- (batch_files_perm _ _ (map_to_list_delete d t e E)). simpl.
  destruct e; simpl; by rewrite ?Ht.
Qed.

Lemma batch_files_insert_temp d t e :
  parse_batch_name t = None →
  batch_files (map_to_list (<[t := e]> d)) ≡ₚ batch_files (map_to_list d).
Proof.
  intros Ht. rewrite <- insert_delete_eq.
  rewrite (batch_files_perm _ _ (map_to_list_insert (delete t d) t e ltac:(apply lookup_delete_eq))).
  simpl. rewrite batch_files_delete by done. destruct e; simpl; by rewrite ?Ht.
Qed.

Lemma batch_files_insert d name r c :
  d !! name = None → parse_batch_name name = Some r →
  batch_files (map_to_list (<[name := EFile c]> d)) ≡ₚ (r, c) :: batch_files (map_to_list d).
Proof.
  intros Hn Hr. rewrite (batch_files_perm _ _ (map_to_list_insert d name _ Hn)). simpl. by rewrite Hr.
Qed.

(** ** Chains of batches *)

#[export] Instance range_le_total : Total range_le.
Proof. intros [[s1 e1] ?] [[s2 e2] ?]. simpl. lia. Qed.
#[export] Instance range_le_trans : Transitive range_le.
Proof. intros [[s1 e1] ?] [[s2 e2] ?] [[s3 e3] ?]. simpl. lia. Qed.

Section Chains.
Context `{Blake3, HexCrate, BatchCodecLaws}.

(** [bs] continues a journal whose head is [previous] and whose next sequence
    number is [expected]. *)
Fixpoint chain (previous : option Digest) (expected : N) (bs : list StoredBatch) : Prop :=
  match bs with
  | [] => True
  | b :: bs =>
      validate_batch b (sb_start_seq b) (sb_end_seq b) expected previous = Ok tt ∧
      sb_end_seq b + 1 <= u64_max ∧
      chain (Some (sb_checksum b)) (sb_end_seq b + 1) bs
  end.

Definition chain_head (previous : option Digest) (bs : list StoredBatch) : option Digest :=
  match last bs with Some b => Some (sb_checksum b) | None => previous end.

Definition chain_next (expected : N) (bs : list StoredBatch) : N :=
  match last bs with Some b => sb_end_seq b + 1 | None => expected end.

Definition chain_ops (bs : list StoredBatch) : list JournalOp := flat_map sb_ops bs.

Definition batch_contents (b : StoredBatch) (c : bytes) : Prop :=
  ∃ e, encode_batch b = Ok e ∧ c = e ++ [x0a].

(** A listed file that holds a batch. *)
Definition file_of (f : N * N * bytes) (b : StoredBatch) : Prop :=
  fst f = (sb_start_seq b, sb_end_seq b) ∧ decode_batch (snd f) = Ok b.

(** Directory [d] holds exactly the batches [bs], and temporary files. *)
Definition holds (d : dir) (bs : list StoredBatch) : Prop :=
  Forall entry_ok (map_to_list d) ∧
  ∃ fs, batch_files (map_to_list d) ≡ₚ fs ∧ Forall2 file_of fs bs.

(** What a healthy handle and its directory agree on. *)
Definition journal_inv (d : dir) (j : DurableJournal) : Prop :=
  ∃ bs, holds d bs ∧ chain None 1 bs ∧ dj_ops j = chain_ops bs ∧
    dj_head_checksum j = chain_head None bs.

Lemma enumerate_lookup {A} (l : list A) i x :
  enumerate l !! i = Some x ↔ ∃ y, l !! i = Some y ∧ x = (N.of_nat i, y).
Proof. unfold enumerate. rewrite list_lookup_imap_Some. naive_solver. Qed.

Lemma validate_batch_facts b fs fe expected previous :
  validate_batch b fs fe expected previous = Ok tt →
  sb_schema_version b = 2 ∧ sb_start_seq b = fs ∧ sb_end_seq b = fe ∧ sb_start_seq b = expected ∧
  sb_ops b ≠ [] ∧ sb_previous_checksum b = previous ∧
  (∀ i op, sb_ops b !! i = Some op →
     jo_seq op = sb_start_seq b + N.of_nat i ∧ jo_seq op <= u64_max) ∧
  sb_end_seq b + 1 = sb_start_seq b + blen (sb_ops b) ∧
  sb_checksum b = batch_checksum previous (sb_ops b).
Proof.
  unfold validate_batch. intros Hok.
  repeat (apply res_bind_Ok in Hok as ([] & ? & Hok)). res_inv. bools.
  match goal with Hf : try_for _ _ = Ok _ |- _ =>
    rewrite try_for_Ok, Forall_lookup in Hf; rename Hf into Hall end.
  assert (∀ i op, sb_ops b !! i = Some op →
     jo_seq op = sb_start_seq b + N.of_nat i ∧ jo_seq op <= u64_max) as Hseq.
  { intros i op Hop. specialize (Hall i (N.of_nat i, op)).
    rewrite enumerate_lookup in Hall. specialize (Hall ltac:(eauto)). simpl in Hall.
    apply res_bind_Ok in Hall as (w & Hw & Hall). res_inv. bools.
    unfold checked_add in Hw. destruct (_ <=? _) eqn:E; [|done]. injection Hw as <-. bools.
    destruct Hall as [[[? ?] ?] ?]. lia. }
  unfold SCHEMA_VERSION in *. split_and!; try tauto; try done.
  - intros Hnil. rewrite Hnil in *. unfold blen in *. simpl in *. tauto.
  - destruct (last (sb_ops b)) as [op|] eqn:El; [|done]. bools.
    rewrite last_lookup in El. pose proof (lookup_lt_Some _ _ _ El).
    apply Hseq in El as [El _]. unfold blen. lia.
Qed.

Lemma chain_app previous expected bs b :
  chain previous expected (bs ++ [b]) ↔
  chain previous expected bs ∧
  validate_batch b (sb_start_seq b) (sb_end_seq b) (chain_next expected bs)
    (chain_head previous bs) = Ok tt ∧ sb_end_seq b + 1 <= u64_max.
Proof.
  revert previous expected. induction bs as [|x bs IH]; intros previous expected; simpl.
  - unfold chain_next, chain_head. simpl. tauto.
  - rewrite IH. unfold chain_next, chain_head. destruct (last bs) eqn:E; simpl.
    + destruct bs; [done|]. change (last (x :: s0 :: bs)) with (last (s0 :: bs)). rewrite E. tauto.
    + destruct bs as [|y bs]; [simpl; tauto|]. apply last_None in E. done.
Qed.

Lemma chain_count previous expected bs :
  chain previous expected bs → chain_next expected bs = expected + blen (chain_ops bs).
Proof.
  revert previous expected. induction bs as [|b bs IH]; intros previous expected; simpl.
  - intros _. unfold chain_next, blen. simpl. lia.
  - intros (Hv & _ & Hc). apply validate_batch_facts in Hv as (_ & _ & _ & Hs & _ & _ & _ & He & _).
    apply IH in Hc. unfold chain_ops, blen in *. simpl. rewrite length_app.
    unfold chain_next in *. destruct bs as [|y bs]; simpl in *; [lia|].
    destruct (last (y :: bs)) as [z|] eqn:E; [lia|]. by apply last_None in E.
Qed.

Lemma chain_starts previous expected bs b :
  chain previous expected bs → b ∈ bs → expected <= sb_start_seq b.
Proof.
  revert previous expected. induction bs as [|x bs IH]; intros previous expected; [by intros _ ?%elem_of_nil|].
  simpl. intros (Hv & _ & Hc).
  apply validate_batch_facts in Hv as (_ & _ & _ & Hs & Hne & _ & _ & He & _).
  intros [->|Hin]%elem_of_cons; [lia|]. apply (IH _ _ Hc) in Hin.
  assert (0 < blen (sb_ops x)) by (unfold blen; destruct (sb_ops x); simpl; [done|lia]). lia.
Qed.

Lemma chain_sorted previous expected fs bs :
  chain previous expected bs → Forall2 file_of fs bs →
  StronglySorted (λ x y : N * N * bytes, x.1.1 < y.1.1) fs.
Proof.
  intros Hc Hf. revert previous expected Hc. induction Hf as [|f x fs bs Hfx Hf IH]; intros previous expected;
    simpl; [constructor|].
  intros (Hv & _ & Hc). constructor; [by eapply IH|].
  apply validate_batch_facts in Hv as (_ & _ & _ & Hs & Hne & _ & _ & He & _).
  rewrite Forall_forall. intros g Hg.
  apply list_elem_of_lookup in Hg as [i Hi]. destruct (Forall2_lookup_l _ _ _ _ _ Hf Hi) as (b & Hb & [Hgb _]).
  apply list_elem_of_lookup_2, (chain_starts _ _ _ _ Hc) in Hb.
  rewrite (proj1 Hfx), Hgb. simpl.
  assert (0 < blen (sb_ops x)) by (unfold blen; destruct (sb_ops x); simpl; [done|lia]). lia.
Qed.

Lemma sorted_starts_unique (l : list (N * N * bytes)) x y :
  StronglySorted (λ x y : N * N * bytes, x.1.1 < y.1.1) l →
  x ∈ l → y ∈ l → x.1.1 = y.1.1 → x = y.
Proof.
  induction 1 as [|z l Hs IH Hz]; [by intros ?%elem_of_nil|].
  rewrite Forall_forall in Hz. rewrite !elem_of_cons.
  intros [->|Hx] [->|Hy] Heq; auto; exfalso.
  - apply Hz in Hy. lia.
  - apply Hz in Hx. lia.
Qed.

Lemma sort_chain previous expected bs fs l :
  chain previous expected bs → Forall2 file_of fs bs → l ≡ₚ fs → merge_sort range_le l = fs.
Proof.
  intros Hc Hf Hp. pose proof (chain_sorted _ _ _ _ Hc Hf) as Hs.
  apply (StronglySorted_unique_strong range_le).
  - intros [[s1 e1] c1] [[s2 e2] c2]. rewrite merge_sort_Permutation, Hp. intros Hin1 Hin2 Hle Hge.
    eapply sorted_starts_unique; [exact Hs|done|done|]. simpl in *. lia.
  - apply (StronglySorted_merge_sort range_le).
  - clear -Hs. induction Hs as [|[[s e] c] l Hs IH Hf]; constructor; [done|].
    eapply Forall_impl; [exact Hf|]. intros [[s' e'] c'] Hlt. simpl in *. by left.
  - by rewrite merge_sort_Permutation.
Qed.

Lemma replay_chain ops previous expected fs bs :
  chain previous expected bs → Forall2 file_of fs bs →
  try_fold replay_batch (ops, previous, expected) fs
  = Ok (ops ++ chain_ops bs, chain_head previous bs, chain_next expected bs).
Proof.
  intros Hc Hf. revert ops previous expected Hc.
  induction Hf as [|[[fs0 fe0] c] b fs bs [Hr Hb] Hf IH]; intros ops previous expected; simpl.
  - intros _. unfold chain_ops. simpl. by rewrite app_nil_r.
  - intros (Hv & Hend & Hc). simpl in Hr, Hb. injection Hr as -> ->.
    rewrite Hb. simpl. rewrite Hv. simpl.
    unfold checked_add. apply N.leb_le in Hend as Hle. rewrite Hle. simpl.
    rewrite IH by done. unfold chain_ops. simpl. rewrite <- app_assoc.
    unfold chain_head, chain_next. destruct bs as [|y bs]; [done|].
    change (last (b :: y :: bs)) with (last (y :: bs)).
    destruct (last (y :: bs)) as [z|] eqn:E; [done|]. by apply last_None in E.
Qed.

Lemma load_holds d bs es :
  holds d bs → chain None 1 bs → es ≡ₚ map_to_list d →
  load_batches es = Ok (chain_ops bs, chain_head None bs).
Proof.
  intros (Hok & fs & Hf & Hfs) Hc Hp. unfold load_batches.
  rewrite scan_entries by (by rewrite Hp). simpl.
  rewrite (sort_chain None 1 bs fs) by (try done; by rewrite (batch_files_perm _ _ Hp)).
  by rewrite (replay_chain [] None 1 fs bs).
Qed.
End Chains.

(** ** Publishing one batch *)

Section Publish.
Context `{Blake3, HexLaws, !BatchCodec, !BatchCodecLaws}.

Lemma entries_insert d name e :
  entry_ok (name, e) → Forall entry_ok (map_to_list d) → Forall entry_ok (map_to_list (<[name := e]> d)).
Proof.
  rewrite !Forall_forall. intros Hok Hall [n e'] Hin%elem_of_map_to_list.
  apply lookup_insert_Some in Hin as [[<- <-]|[_ Hin]]; [done|].
  by apply Hall, elem_of_map_to_list.
Qed.

Lemma entries_delete d name :
  Forall entry_ok (map_to_list d) → Forall entry_ok (map_to_list (delete name d)).
Proof.
  rewrite !Forall_forall. intros Hall [n e'] Hin%elem_of_map_to_list.
  apply lookup_delete_Some in Hin as [_ Hin]. by apply Hall, elem_of_map_to_list.
Qed.

Lemma holds_temp_insert d bs env b attempt c :
  holds d bs → holds (<[staging_name env b attempt := EFile c]> d) bs.
Proof.
  intros (Hok & fs & Hf & Hfs). destruct (staging_name_temp env b attempt) as [Ht Hn].
  split; [|exists fs; split; [|done]].
  - apply entries_insert; [|done]. split; simpl; eauto.
  - by rewrite batch_files_insert_temp.
Qed.

Lemma holds_temp_delete d bs env b attempt :
  holds d bs → holds (delete (staging_name env b attempt) d) bs.
Proof.
  intros (Hok & fs & Hf & Hfs). destruct (staging_name_temp env b attempt) as [Ht Hn].
  split; [|exists fs; split; [|done]].
  - by apply entries_delete.
  - by rewrite batch_files_delete.
Qed.

Lemma holds_batch_insert d bs b e :
  holds d bs → d !! batch_name (sb_start_seq b) (sb_end_seq b) = None →
  sb_start_seq b <= u64_max → sb_end_seq b <= u64_max → encode_batch b = Ok e →
  holds (<[batch_name (sb_start_seq b) (sb_end_seq b) := EFile (e ++ [x0a])]> d) (bs ++ [b]).
Proof.
  intros (Hok & fs & Hf & Hfs) Hnew Hs Hen Hc.
  pose proof (parse_batch_name_name _ _ Hs Hen) as Hp.
  split; [|exists (fs ++ [((sb_start_seq b, sb_end_seq b), e ++ [x0a])]); split].
  - apply entries_insert; [|done]. split; simpl; [eauto|left; congruence].
  - by rewrite (batch_files_insert _ _ _ _ Hnew Hp), Hf, Permutation_cons_append.
  - apply Forall2_app; [done|]. constructor; [|constructor]. split; [done|]. by apply decode_encode_batch.
Qed.

Lemma create_staging_name env d b attempts name :
  create_staging_file env d b attempts = Ok name →
  (∃ attempt, name = staging_name env b attempt) ∧ d !! name = None.
Proof.
  induction attempts as [|a attempts IH]; simpl; [done|].
  destruct (pe_create_error env a); [done|].
  destruct (d !! staging_name env b a) eqn:E; [apply IH|]. intros [= <-]. eauto.
Qed.

(** Every state a publication goes through holds the old batches or the old
    batches and the new one; success holds the new one, and an error that does
    not claim otherwise holds the old ones. *)
Lemma publish_holds env d bs b :
  holds d bs → sb_start_seq b <= u64_max → sb_end_seq b <= u64_max →
  let '(trace, r) := publish_batch env d b in
  Forall (λ d', holds d' bs ∨ holds d' (bs ++ [b])) trace ∧
  match r with
  | Ok _ => holds (default d (last trace)) (bs ++ [b])
  | Err e => may_have_published e = false → holds (default d (last trace)) bs
  end.
Proof.
  intros Hd Hs He. unfold publish_batch.
  destruct (encode_batch b) as [e|] eqn:Ee; [|split; [constructor|done]].
  destruct (d !! _) eqn:Hfinal; [split; [constructor|done]|].
  destruct (create_staging_file env d b attempts_128) as [staging|err] eqn:Ec.
  2: { split; [constructor|]. by intros _. }
  apply create_staging_name in Ec as [[a ->] Hfresh].
  set (t := staging_name env b a) in *. set (final := batch_name _ _) in *.
  assert (Ht : ∀ d' bs' c, holds d' bs' → holds (<[t := EFile c]> d') bs')
    by (intros; by apply holds_temp_insert).
  assert (Hdel : ∀ d' bs', holds d' bs' → holds (delete t d') bs')
    by (intros; by apply holds_temp_delete).
  assert (Hrm : ∀ (ok : bool) d' bs', holds d' bs' → holds (if ok then delete t d' else d') bs')
    by (intros []; auto).
  cbv zeta. destruct (pe_write_error env) as [[n werr]|]; [simpl; split; [rewrite ?Forall_cons; auto 20 using List.Forall_nil|auto]|].
  destruct (pe_link_error env); [simpl; split; [rewrite ?Forall_cons; auto 20 using List.Forall_nil|auto]|].
  destruct (<[t:=EFile (e ++ [x0a])]> (<[t:=EFile []]> d) !! final) eqn:Hf2; [simpl; split; [rewrite ?Forall_cons; auto 20 using List.Forall_nil|auto]|].
  assert (Hnew : holds (<[final := EFile (e ++ [x0a])]> (<[t := EFile (e ++ [x0a])]> (<[t := EFile []]> d)))
                   (bs ++ [b])) by (apply holds_batch_insert; auto).
  destruct (pe_dirsync_fails env); (simpl; split; [rewrite ?Forall_cons; auto 20 using List.Forall_nil|auto]). done.
Qed.

Lemma mapM_length {A B E} (f : A → result B E) l l' : try_map f l = Ok l' → length l = length l'.
Proof. rewrite try_map_Ok. apply Forall2_length. Qed.

(** A mutation built by [JournalMutation::write] or [JournalMutation::delete]. *)
Definition mutation_wf (m : JournalMutation) : Prop :=
  (∃ path before after, m = mutation_write path before after) ∨
  (∃ path before, m = mutation_delete path before).

(** The operation records the mutation. *)
Definition records (m : JournalMutation) (op : JournalOp) : Prop :=
  jo_path op = mut_path m ∧ jo_kind op = mut_kind m ∧ jo_before op = mut_before m ∧
  jo_after op = mut_after m.

Lemma admit_mutation_Ok start i m op :
  mutation_wf m → admit_mutation start (i, m) = Ok op →
  validate_batch_op start (i, op) = Ok tt ∧ records m op ∧ jo_seq op = start + i ∧ start + i <= u64_max.
Proof.
  intros Hwf. unfold admit_mutation, validate_batch_op. intros Hok.
  apply res_bind_Ok in Hok as ([] & Hp & Hok). apply res_bind_Ok in Hok as (s & Hs & Hok). res_inv.
  rewrite Hs. simpl. rewrite N.eqb_refl. simpl. apply orb_false_iff in Hp as [-> ->]. simpl.
  unfold checked_add in Hs. destruct (_ <=? _) eqn:E; [|done]. injection Hs as <-. bools.
  split; [|done].
  by destruct Hwf as [(p & be & af & ->)|(p & be & ->)].
Qed.

Lemma build_batch_facts j muts b :
  Forall mutation_wf muts → build_batch j muts = Ok b →
  sb_start_seq b = blen (dj_ops j) + 1 ∧
  sb_end_seq b = blen (dj_ops j) + blen muts ∧ sb_end_seq b <= u64_max ∧
  validate_batch b (sb_start_seq b) (sb_end_seq b) (blen (dj_ops j) + 1) (dj_head_checksum j) = Ok tt ∧
  Forall2 records muts (sb_ops b).
Proof.
  intros Hwf Hb. unfold build_batch in Hb.
  apply res_bind_Ok in Hb as (start & Hstart & Hb). apply res_bind_Ok in Hb as (ops & Hops & Hb).
  apply res_bind_Ok in Hb as (lo & Hlast & Hb). res_inv.
  unfold checked_add in Hstart. destruct (_ <=? _) eqn:E; [|done]. injection Hstart as <-. bools.
  set (start := blen (dj_ops j) + 1) in *.
  pose proof (mapM_length _ _ _ Hops) as Hlen. unfold enumerate in Hlen. rewrite length_imap in Hlen.
  apply try_map_Ok in Hops. simpl.
  assert (∀ i op, ops !! i = Some op → ∃ m, muts !! i = Some m ∧
            validate_batch_op start (N.of_nat i, op) = Ok tt ∧ records m op ∧
            jo_seq op = start + N.of_nat i ∧ start + N.of_nat i <= u64_max) as Hop.
  { intros i op Hi. destruct (Forall2_lookup_r _ _ _ _ _ Hops Hi) as (x & Hx & Ha).
    apply enumerate_lookup in Hx as (m & Hm & ->). exists m. split; [done|].
    apply admit_mutation_Ok; [|done]. rewrite Forall_forall in Hwf. apply Hwf.
    by eapply list_elem_of_lookup_2. }
  assert (blen muts = blen ops) as Hbl by (unfold blen; lia).
  assert (0 < length ops)%nat as Hpos by (destruct ops; [done|simpl; lia]).
  rewrite last_lookup in Hlast. destruct (Hop _ _ Hlast) as (_ & _ & _ & _ & Hseq & Hmax).
  assert (jo_seq lo = blen (dj_ops j) + blen muts) as Hend by (unfold start, blen in *; lia).
  split; [done|]. split; [done|]. split; [unfold start, blen in *; lia|]. split.
  - unfold validate_batch. simpl. rewrite !N.eqb_refl. simpl.
    assert (blen ops =? 0 = false) as -> by (bools; unfold blen; lia). simpl.
    rewrite bool_decide_eq_true_2 by done. simpl.
    assert (try_for (validate_batch_op start) (enumerate ops) = Ok tt) as ->.
    { apply try_for_Ok, Forall_lookup. intros i x (op & Hi & ->)%enumerate_lookup.
      by destruct (Hop _ _ Hi) as (? & _ & ? & _). }
    simpl. rewrite last_lookup, Hlast, N.eqb_refl. simpl. by rewrite bool_decide_eq_true_2.
  - apply Forall2_same_length_lookup_2; [lia|]. intros i m op Hm Hi.
    destruct (Hop _ _ Hi) as (m' & Hm' & _ & Hr & _). congruence.
Qed.

(** The journal a batch would produce. *)
Definition with_batch (j : DurableJournal) (b : StoredBatch) : DurableJournal :=
  {| dj_ops := dj_ops j ++ sb_ops b; dj_head_checksum := Some (sb_checksum b);
     dj_healthy := dj_healthy j |}.

Lemma chain_ops_app bs b : chain_ops (bs ++ [b]) = chain_ops bs ++ sb_ops b.
Proof. unfold chain_ops. rewrite flat_map_app. simpl. by rewrite app_nil_r. Qed.

Lemma chain_head_app p bs b : chain_head p (bs ++ [b]) = Some (sb_checksum b).
Proof. unfold chain_head. by rewrite last_snoc. Qed.

Lemma chain_extend j d bs b muts :
  holds d bs → chain None 1 bs → dj_ops j = chain_ops bs → dj_head_checksum j = chain_head None bs →
  Forall mutation_wf muts → blen (dj_ops j) + blen muts < u64_max →
  build_batch j muts = Ok b → chain None 1 (bs ++ [b]).
Proof.
  intros Hd Hc Hops Hh Hwf Hsize Hb.
  destruct (build_batch_facts j muts b Hwf Hb) as (Hs & He & Hmax & Hv & _).
  apply chain_app. split; [done|].
  pose proof (chain_count _ _ _ Hc) as Hcount. rewrite Hcount, <- Hops, <- Hh.
  rewrite (N.add_comm 1). split; [done|]. lia.
Qed.
End Publish.

(** ** What the hashes bind *)

Definition opt_fields (d : option Digest) : list bytes :=
  match d with
  | Some d => [as_bytes "present"; digest_as_bytes d]
  | None => [as_bytes "absent"]
  end.

Definition op_fields (op : JournalOp) : list bytes :=
  u64_le_bytes (jo_seq op) :: as_bytes (frame_tag (jo_kind op)) :: as_bytes (jo_path op)
  :: opt_fields (jo_before op) ++ opt_fields (jo_after op).

#[local] Arguments op_fields : simpl never.

Definition previous_fields (previous : option Digest) : list bytes :=
  match previous with
  | Some d => [as_bytes "previous"; digest_as_bytes d]
  | None => [as_bytes "genesis"]
  end.

Definition batch_fields (previous : option Digest) (ops : list JournalOp) : list bytes :=
  as_bytes DOMAIN :: previous_fields previous ++ u64_le_bytes (blen ops) :: flat_map op_fields ops.

(** The operation's path fits the address space and its number fits [u64]. *)
Definition op_wf (op : JournalOp) : Prop :=
  addressable (as_bytes (jo_path op)) ∧ jo_seq op <= u64_max.

Lemma frame_one buf f : frame buf f = buf ++ frames [f].
Proof. rewrite <- frames_app. done. Qed.

Lemma frames_app2 fs gs : frames (fs ++ gs) = frames fs ++ frames gs.
Proof. unfold frames at 1. rewrite foldl_app. apply frames_app. Qed.

Lemma frame_optional_fields buf d : frame_optional_digest buf d = buf ++ frames (opt_fields d).
Proof.
  destruct d as [d|]; unfold frame_optional_digest, opt_fields; simpl; rewrite !frame_one; [|done].
  by rewrite <- app_assoc, <- frames_app2.
Qed.

Lemma frame_op_fields buf op : frame_op buf op = buf ++ frames (op_fields op).
Proof.
  unfold frame_op, op_fields. rewrite !frame_optional_fields, !frame_one.
  rewrite <- !app_assoc, <- !frames_app2. done.
Qed.

Lemma foldl_frame_op buf ops : foldl frame_op buf ops = buf ++ frames (flat_map op_fields ops).
Proof.
  revert buf. induction ops as [|op ops IH]; intros buf; cbn [foldl flat_map]; [by rewrite app_nil_r|].
  by rewrite IH, frame_op_fields, frames_app2, app_assoc.
Qed.

Lemma batch_preimage_frames previous ops : batch_preimage previous ops = frames (batch_fields previous ops).
Proof.
  unfold batch_preimage, batch_fields. rewrite foldl_frame_op.
  destruct previous as [d|]; simpl; rewrite !frame_one; simpl;
    rewrite <- ?app_assoc, <- !frames_app2; done.
Qed.

#[local] Hint Extern 1 (addressable (as_bytes DOMAIN)) =>
  (unfold addressable; vm_compute; discriminate) : framing.

Lemma opt_fields_addressable d : Forall addressable (opt_fields d).
Proof. destruct d; repeat constructor; auto with framing. Qed.

Lemma op_fields_addressable op : op_wf op → Forall addressable (op_fields op).
Proof.
  intros [Hp _]. unfold op_fields. repeat (apply Forall_cons; split); try assumption; auto with framing.
  - destruct (jo_kind op); simpl; auto with framing.
  - apply Forall_app. split; apply opt_fields_addressable.
Qed.

Lemma ops_fields_addressable ops : Forall op_wf ops → Forall addressable (flat_map op_fields ops).
Proof.
  induction 1 as [|op ops Hop Hops IH]; cbn [flat_map]; [constructor|].
  apply Forall_app. split; [by apply op_fields_addressable|done].
Qed.

Lemma batch_fields_addressable previous ops :
  Forall op_wf ops → Forall addressable (batch_fields previous ops).
Proof.
  intros Hops. unfold batch_fields. apply Forall_cons. split; [auto with framing|].
  apply Forall_app. split; [destruct previous; repeat constructor; auto with framing|].
  apply Forall_cons. split; [auto with framing|]. by apply ops_fields_addressable.
Qed.

Lemma opt_fields_inj d e r s : opt_fields d ++ r = opt_fields e ++ s → d = e ∧ r = s.
Proof. destruct d, e; simpl; try done. - by intros [= ->%digest_eq ->]. - by intros [= ->]. Qed.

(** Field by field: [injection] would look inside the encoded fields. *)
Lemma op_fields_inj op op' r s :
  op_wf op → op_wf op' → op_fields op ++ r = op_fields op' ++ s → op = op' ∧ r = s.
Proof.
  intros [_ Hs] [_ Hs']. unfold op_fields. simpl. intros Heq.
  apply cons_fields in Heq as [Hseq Heq]. apply cons_fields in Heq as [Hk Heq].
  apply cons_fields in Heq as [Hp Hr]. rewrite <- !app_assoc in Hr.
  apply opt_fields_inj in Hr as [Hb Hr]. apply opt_fields_inj in Hr as [Ha Hr].
  apply u64_le_bytes_inj in Hseq; [|done..]. apply as_bytes_inj in Hp. split; [|done].
  destruct op as [q p k be af], op' as [q' p' k' be' af']; simpl in *.
  destruct k, k'; try done; by subst.
Qed.

Lemma ops_fields_inj ops ops' :
  Forall op_wf ops → Forall op_wf ops' → flat_map op_fields ops = flat_map op_fields ops' → ops = ops'.
Proof.
  intros Hops. revert ops'. induction Hops as [|op ops Hop Hops IH]; intros ops' Hops' Heq.
  - by destruct ops'.
  - destruct Hops' as [|op' ops' Hop' Hops']; [done|]. cbn [flat_map] in Heq.
    apply op_fields_inj in Heq as [-> Heq]; [|done..]. f_equal. by apply IH.
Qed.

Lemma batch_fields_inj p q ops ops' :
  Forall op_wf ops → Forall op_wf ops' → batch_fields p ops = batch_fields q ops' → p = q ∧ ops = ops'.
Proof.
  unfold batch_fields. intros Ho Ho' [_ Heq]%cons_fields.
  destruct p as [d|], q as [e|]; simpl in Heq; apply cons_fields in Heq as [Htag Heq]; try done.
  - apply cons_fields in Heq as [->%digest_eq Heq]. apply cons_fields in Heq as [_ Heq].
    split; [done|]. by apply ops_fields_inj.
  - apply cons_fields in Heq as [_ Heq]. split; [done|]. by apply ops_fields_inj.
Qed.

Section Bindings.
Context `{Blake3, HexCrate, BatchCodec}.

Lemma batch_checksum_binds p q ops ops' :
  Forall op_wf ops → Forall op_wf ops' → batch_checksum p ops = batch_checksum q ops' →
  (p = q ∧ ops = ops') ∨ collides blake3_hash (batch_preimage p ops) (batch_preimage q ops').
Proof.
  unfold batch_checksum. rewrite !batch_preimage_frames. intros Ho Ho' Heq.
  apply framed_digest_binds in Heq as [Heq|?]; [left|by right|by apply batch_fields_addressable..].
  by apply batch_fields_inj.
Qed.

(** A load is a chain. *)
Lemma replay_inv files ops previous expected ops' previous' expected' :
  try_fold replay_batch (ops, previous, expected) files = Ok (ops', previous', expected') →
  ∃ bs, chain previous expected bs ∧ Forall2 file_of files bs ∧ ops' = ops ++ chain_ops bs ∧
    previous' = chain_head previous bs.
Proof.
  revert ops previous expected. induction files as [|[[fs fe] c] files IH]; intros ops previous expected; simpl.
  - intros [= <- <- _]. exists []. unfold chain_ops. simpl. rewrite app_nil_r. by split_and!.
  - intros Hok. apply res_bind_Ok in Hok as ([[ops1 p1] e1] & Hb & Hok).
    apply res_bind_Ok in Hb as (b & Hd & Hb). apply res_bind_Ok in Hb as ([] & Hv & Hb).
    apply res_bind_Ok in Hb as (ex & Hex & Hb). res_inv.
    unfold checked_add in Hex. destruct (_ <=? _) eqn:E; [|done]. injection Hex as <-. bools.
    apply IH in Hok as (bs & Hc & Hf & -> & ->). exists (b :: bs).
    pose proof (validate_batch_facts _ _ _ _ _ Hv) as (_ & Hs & He & _).
    split; [simpl; by rewrite Hs, He in *|].
    split; [constructor; [|done]; split; simpl; [by rewrite Hs, He|]|].
    { by destruct (decode_batch c) as [b'|]; [injection Hd as ->|]. }
    unfold chain_ops. simpl. rewrite app_assoc. split; [done|].
    unfold chain_head. destruct bs as [|y bs]; [done|].
    change (last (b :: y :: bs)) with (last (y :: bs)).
    destruct (last (y :: bs)) eqn:El; [done|]. by apply last_None in El.
Qed.

Lemma load_inv es ops h :
  load_batches es = Ok (ops, h) →
  ∃ bs, chain None 1 bs ∧ ops = chain_ops bs ∧ h = chain_head None bs.
Proof.
  unfold load_batches. intros Hok. apply res_bind_Ok in Hok as (files & _ & Hok).
  apply res_bind_Ok in Hok as ([[ops1 h1] e1] & Hr & Hok). injection Hok as <- <-.
  apply replay_inv in Hr as (bs & ? & _ & -> & ->). by exists bs.
Qed.

Lemma scan_entries_inv es acc files :
  try_fold scan_entry acc es = Ok files → Forall entry_ok es ∧ files = acc ++ batch_files es.
Proof.
  revert acc. induction es as [|[name e] es IH]; intros acc; simpl.
  - intros [= <-]. rewrite app_nil_r. by split; [constructor|].
  - intros Hok. apply res_bind_Ok in Hok as (acc' & He & Hok). apply IH in Hok as [Hes ->].
    destruct e as [c|]; [|done]. destruct (parse_batch_name name) as [r|] eqn:Ep; [|destruct (is_temp_name name) eqn:Et].
    all: try done; injection He as <-; split; simpl; rewrite ?Ep, <- ?app_assoc; try done; constructor; try done.
    + split; simpl; [eauto|left; congruence].
    + split; simpl; [eauto|by right].
Qed.

(** A directory that loads is one the appends are safe on. *)
Lemma load_journal_inv d es ops h :
  es ≡ₚ map_to_list d → load_batches es = Ok (ops, h) →
  journal_inv d {| dj_ops := ops; dj_head_checksum := h; dj_healthy := true |}.
Proof.
  intros Hp. unfold load_batches. intros Hok. apply res_bind_Ok in Hok as (files & Hscan & Hok).
  apply res_bind_Ok in Hok as ([[ops1 h1] e1] & Hr & Hok). injection Hok as <- <-.
  apply scan_entries_inv in Hscan as [Hes ->]. apply replay_inv in Hr as (bs & Hc & Hf & -> & ->).
  exists bs. split; [|by split_and!]. split; [by rewrite <- Hp|].
  eexists. split; [|exact Hf]. simpl. by rewrite merge_sort_Permutation, (batch_files_perm _ _ Hp).
Qed.

Lemma chain_seqs previous expected bs :
  chain previous expected bs →
  ∀ i op, chain_ops bs !! i = Some op → jo_seq op = expected + N.of_nat i ∧ jo_seq op <= u64_max.
Proof.
  revert previous expected. induction bs as [|b bs IH]; intros previous expected; [done|].
  simpl. intros (Hv & _ & Hc) i op. unfold chain_ops. simpl.
  apply validate_batch_facts in Hv as (_ & _ & _ & Hs & _ & _ & Hseq & He & _).
  intros [Hi|[Hge Hi]]%lookup_app_Some.
  - apply Hseq in Hi as [? ?]. lia.
  - apply (IH _ _ Hc) in Hi as [? ?]. unfold blen in He. lia.
Qed.

(** One head checksum, one history. *)
Lemma chain_binds bs bs' :
  chain None 1 bs → chain None 1 bs' → Forall op_wf (chain_ops bs) → Forall op_wf (chain_ops bs') →
  chain_head None bs = chain_head None bs' →
  chain_ops bs = chain_ops bs' ∨
  ∃ p o q o', collides blake3_hash (batch_preimage p o) (batch_preimage q o').
Proof.
  revert bs'. induction bs as [|b bs IH] using rev_ind; intros bs'.
  - intros _ _ _ _. destruct bs' as [|b' bs' _] using rev_ind; [by left|]. by rewrite chain_head_app.
  - intros [Hc [Hv _]]%chain_app. destruct bs' as [|b' bs' _] using rev_ind; [by rewrite chain_head_app|].
    intros [Hc' [Hv' _]]%chain_app. rewrite !chain_ops_app, !chain_head_app, !Forall_app.
    intros [Ho1 Ho2] [Ho1' Ho2'] [= Heq].
    apply validate_batch_facts in Hv as (_ & _ & _ & _ & _ & _ & _ & _ & Hk).
    apply validate_batch_facts in Hv' as (_ & _ & _ & _ & _ & _ & _ & _ & Hk').
    rewrite Hk, Hk' in Heq. apply batch_checksum_binds in Heq as [[Hp Hops]|?]; [|by right; eauto 10|done..].
    destruct (IH bs' Hc Hc' Ho1 Ho1' Hp) as [->|?]; [left; by rewrite Hops|by right].
Qed.
End Bindings.

(** ** Properties *)

Section JournalProps.
Context `{Blake3, HexLaws, !BatchCodec, !BatchCodecLaws}.

(** The statement of [record_batch_crash_safe]; the repository builds on it. *)
Lemma record_batch_spec env d j muts trace j' r :
  journal_inv d j → Forall mutation_wf muts → blen (dj_ops j) + blen muts < u64_max →
  record_batch env j d muts = (trace, j', r) →
  (∀ d' es, d' ∈ d :: trace → es ≡ₚ map_to_list d' →
     load_batches es = Ok (dj_ops j, dj_head_checksum j) ∨
     ∃ b, build_batch j muts = Ok b ∧
       load_batches es = Ok (dj_ops j ++ sb_ops b, Some (sb_checksum b))) ∧
  match r with
  | Ok _ =>
      journal_inv (default d (last trace)) j' ∧
      (∀ es, es ≡ₚ map_to_list (default d (last trace)) →
         load_batches es = Ok (dj_ops j', dj_head_checksum j')) ∧
      ∃ ops, dj_ops j' = dj_ops j ++ ops ∧ Forall2 records muts ops
  | Err e =>
      dj_healthy j' = false ∧
      (may_have_published e = false → ∀ es, es ≡ₚ map_to_list (default d (last trace)) →
         load_batches es = Ok (dj_ops j, dj_head_checksum j))
  end.
Proof.
  intros (bs & Hd & Hc & Hops & Hhead) Hwf Hsize Hrec.
  assert (∀ d' es, holds d' bs → es ≡ₚ map_to_list d' →
            load_batches es = Ok (dj_ops j, dj_head_checksum j)) as Hold.
  { intros d' es Hd' Hp. rewrite Hops, Hhead. by eapply load_holds. }
  assert (Hself : ∀ d' es, d' ∈ [d] → es ≡ₚ map_to_list d' →
            load_batches es = Ok (dj_ops j, dj_head_checksum j)).
  { intros d' es ->%list_elem_of_singleton. by apply Hold. }
  unfold record_batch in Hrec. destruct (dj_healthy j) eqn:Hh; simpl in Hrec.
  2: { injection Hrec as <- <- <-. split; [eauto|]. by split. }
  destruct muts as [|m0 muts0].
  { injection Hrec as <- <- <-. split; [eauto|]. split; [by exists bs|]. split; [eauto|].
    exists []. by rewrite app_nil_r. }
  set (muts := m0 :: muts0) in *. unfold append_batch in Hrec.
  destruct (build_batch j muts) as [b|e] eqn:Hb.
  2: { injection Hrec as <- <- <-. split; [eauto|]. split; [done|]. eauto. }
  pose proof (build_batch_facts j muts b Hwf Hb) as (Hs & He & Hmax & _ & Hrecs).
  pose proof (chain_extend j d bs b muts Hd Hc Hops Hhead Hwf Hsize Hb) as Hc'.
  assert (∀ d' es, holds d' (bs ++ [b]) → es ≡ₚ map_to_list d' →
            load_batches es = Ok (dj_ops j ++ sb_ops b, Some (sb_checksum b))) as Hnew.
  { intros d' es Hd' Hp. rewrite Hops, <- chain_ops_app, <- (chain_head_app None bs b).
    by eapply load_holds. }
  pose proof (publish_holds env d bs b Hd ltac:(lia) Hmax) as Hpub.
  destruct (publish_batch env d b) as [tr [[]|e]]; destruct Hpub as [Htr Hend];
    injection Hrec as <- <- <-.
  - split.
    + intros d' es [->|Hin]%elem_of_cons Hp; [eauto|]. rewrite Forall_forall in Htr.
      destruct (Htr d' Hin); eauto.
    + split; [|split; [eauto|exists (sb_ops b); done]].
      exists (bs ++ [b]). split_and!; try done; simpl.
      * by rewrite chain_ops_app, Hops.
      * by rewrite chain_head_app.
  - split; [|split; [done|eauto]].
    intros d' es [->|Hin]%elem_of_cons Hp; [eauto|]. rewrite Forall_forall in Htr.
    destruct (Htr d' Hin); eauto.
Qed.

(** C8: recording a batch is atomic under a crash at any point.  Whatever the
    file system replies, every directory state the call goes through, in
    whatever order it is listed, loads to the journal's operations or to them
    followed by the whole batch and nothing else.  When the call succeeds the
    final directory loads to the handle's new state, which records exactly the
    mutations, and handle and directory agree again; when it fails with an
    error that does not claim a possible publication, the old operations load;
    and after any failure the handle refuses further batches. *)
Theorem record_batch_crash_safe env d j muts trace j' r :
  journal_inv d j → Forall mutation_wf muts → blen (dj_ops j) + blen muts < u64_max →
  record_batch env j d muts = (trace, j', r) →
  (∀ d' es, d' ∈ d :: trace → es ≡ₚ map_to_list d' →
     load_batches es = Ok (dj_ops j, dj_head_checksum j) ∨
     ∃ b, build_batch j muts = Ok b ∧
       load_batches es = Ok (dj_ops j ++ sb_ops b, Some (sb_checksum b))) ∧
  match r with
  | Ok _ =>
      journal_inv (default d (last trace)) j' ∧
      (∀ es, es ≡ₚ map_to_list (default d (last trace)) →
         load_batches es = Ok (dj_ops j', dj_head_checksum j')) ∧
      ∃ ops, dj_ops j' = dj_ops j ++ ops ∧ Forall2 records muts ops
  | Err e =>
      dj_healthy j' = false ∧
      (may_have_published e = false → ∀ es, es ≡ₚ map_to_list (default d (last trace)) →
         load_batches es = Ok (dj_ops j, dj_head_checksum j))
  end.
Proof. apply record_batch_spec. Qed.

(** The head checksum names the whole history: two directories that load
    with the same head have the same operations, unless two exact batch
    preimages collide under BLAKE3; and the operations of any directory that
    loads are numbered one, two, three and so on without a gap. *)
Theorem load_batches_binds_history es es' ops ops' h :
  load_batches es = Ok (ops, h) → load_batches es' = Ok (ops', h) →
  Forall (λ op, addressable (as_bytes (jo_path op))) (ops ++ ops') →
  (ops = ops' ∨ ∃ p o q o', collides blake3_hash (batch_preimage p o) (batch_preimage q o')) ∧
  ∀ i op, ops !! i = Some op → jo_seq op = 1 + N.of_nat i.
Proof.
  intros (bs & Hc & -> & ->)%load_inv (bs' & Hc' & -> & Hh)%load_inv [Ha Ha']%Forall_app.
  pose proof (chain_seqs _ _ _ Hc) as Hq. pose proof (chain_seqs _ _ _ Hc') as Hq'.
  split; [|intros i op Hi; by apply Hq].
  apply chain_binds; [done..| | |done].
  - rewrite Forall_lookup in Ha |- *. intros i op Hi. split; [by eapply Ha|by eapply Hq].
  - rewrite Forall_lookup in Ha' |- *. intros i op Hi. split; [by eapply Ha'|by eapply Hq'].
Qed.
End JournalProps.

(** ** Checkpoints *)

(** A checkpoint of [j], bound to a Git tree when there is one. *)
Definition checkpoint_of `{Blake3, HexCrate} (j : Journal) (git_tree : option GitOid) : Checkpoint :=
  match git_tree with
  | Some t => bind_git_tree (checkpoint j) t
  | None => checkpoint j
  end.

Lemma journal_tree_frames j :
  journal_tree_preimage j = frames (as_bytes JOURNAL_TREE_DOMAIN :: flat_map op_fields j).
Proof.
  unfold journal_tree_preimage. rewrite foldl_frame_op, frame_one. simpl.
  by rewrite <- frames_app2.
Qed.

Lemma oid_text_not_none o : oid_wf o → oid_str o ≠ "none".
Proof. intros (a & hex & -> & _). by destruct a. Qed.

Lemma git_tree_text_inj t t' :
  (∀ o, t = Some o → oid_wf o) → (∀ o, t' = Some o → oid_wf o) →
  match t with Some o => as_bytes (oid_str o) | None => as_bytes "none" end
  = match t' with Some o => as_bytes (oid_str o) | None => as_bytes "none" end → t = t'.
Proof.
  intros Ht Ht'. destruct t as [o|], t' as [o'|]; intros Heq; try done; apply as_bytes_inj in Heq.
  - by apply oid_str_inj in Heq as ->.
  - by destruct (oid_text_not_none o (Ht o eq_refl)).
  - by destruct (oid_text_not_none o' (Ht' o' eq_refl)).
Qed.

(** A Git tree is named by well-formed text that fits the address space. *)
Definition git_tree_wf (t : option GitOid) : Prop :=
  ∀ o, t = Some o → oid_wf o ∧ addressable (as_bytes (oid_str o)).

#[local] Hint Extern 1 (addressable (as_bytes CHECKPOINT_DOMAIN)) =>
  (unfold addressable; vm_compute; discriminate) : framing.
#[local] Hint Extern 1 (addressable (as_bytes JOURNAL_TREE_DOMAIN)) =>
  (unfold addressable; vm_compute; discriminate) : framing.

Section Checkpoints.
Context `{Blake3, HexCrate}.

Lemma checkpoint_of_digest j t :
  ckp_digest (checkpoint_of j t)
  = checkpoint_digest (ckp_through_seq (checkpoint j)) (digest_of (journal_tree_preimage j)) t.
Proof. by destruct t. Qed.

Lemma checkpoint_fields_addressable s tree t : git_tree_wf t → Forall addressable (checkpoint_fields s tree t).
Proof.
  intros Ht. unfold checkpoint_fields. repeat (apply Forall_cons; split); auto with framing.
  destruct t as [o|]; [by apply (Ht o)|auto with framing].
Qed.

Lemma through_seq_bound j : Forall op_wf j → ckp_through_seq (checkpoint j) <= u64_max.
Proof.
  intros Hj. simpl. destruct (last j) as [op|] eqn:E; [|unfold u64_max; lia].
  rewrite Forall_forall in Hj. apply (Hj op). rewrite last_lookup in E. by eapply list_elem_of_lookup_2.
Qed.

(** A checkpoint covers the journal and the Git tree it was bound to: two
    checkpoints with one digest freeze the same operations in the same order
    and the same tree, unless one of the two exact pairs of preimages collides
    under BLAKE3; and every checkpoint the code freezes or binds passes its own
    identity check. *)
Theorem checkpoint_binds_journal j j' t t' :
  Forall op_wf j → Forall op_wf j' → git_tree_wf t → git_tree_wf t' →
  ckp_digest (checkpoint_of j t) = ckp_digest (checkpoint_of j' t') →
  (identity_is_valid (checkpoint_of j t) = true ∧ identity_is_valid (checkpoint_of j' t') = true) ∧
  ((j = j' ∧ t = t') ∨
   (∃ s s' d d', collides blake3_hash (frames (checkpoint_fields s d t)) (frames (checkpoint_fields s' d' t'))) ∨
   collides blake3_hash (journal_tree_preimage j) (journal_tree_preimage j')).
Proof.
  intros Hj Hj' Ht Ht' Heq. split.
  { assert (∀ k u, identity_is_valid (checkpoint_of k u) = true) as Hv; [|by split].
    intros k [u|]; unfold identity_is_valid; simpl; by rewrite !bool_decide_eq_true_2. }
  rewrite !checkpoint_of_digest in Heq. unfold checkpoint_digest in Heq.
  apply framed_digest_binds in Heq as [Heq|?]; [|by right; left; eauto 10|by apply checkpoint_fields_addressable..].
  unfold checkpoint_fields in Heq. apply cons_fields in Heq as [_ Heq].
  apply cons_fields in Heq as [_ Heq]. apply cons_fields in Heq as [Htree Heq].
  apply cons_fields in Heq as [Hgit _].
  apply git_tree_text_inj in Hgit; [|intros o ->; by apply Ht|intros o ->; by apply Ht'].
  apply digest_eq in Htree. unfold digest_of in Htree.
  destruct (decide (journal_tree_preimage j = journal_tree_preimage j')) as [Hp|Hp]; [left|right; right; by split].
  split; [|done]. rewrite !journal_tree_frames in Hp.
  apply frames_inj in Hp; [|apply Forall_cons; split; [auto with framing|by apply ops_fields_addressable]..].
  apply cons_fields in Hp as [_ Hp]. by apply ops_fields_inj.
Qed.
End Checkpoints.

(** The file-name grammar separates published from unpublished files: a
    batch name parses back to its range, whatever the two 64-bit numbers are,
    and no staging name is ever taken for a batch, nor a batch name for a
    temporary file. *)
Theorem batch_name_grammar `{Blake3, HexLaws} s e env b attempt :
  s <= u64_max → e <= u64_max →
  parse_batch_name (batch_name s e) = Some (s, e) ∧ is_temp_name (batch_name s e) = false ∧
  is_temp_name (staging_name env b attempt) = true ∧ parse_batch_name (staging_name env b attempt) = None.
Proof.
  intros Hs He. split; [by apply parse_batch_name_name|]. split; [|apply staging_name_temp].
  unfold is_temp_name. destruct (strip_prefix ".batch-" (batch_name s e)) as [r|] eqn:E; [|done].
  apply strip_prefix_Some in E. unfold batch_name in E.
  assert (Hd : chars_all is_ascii_digit (dec_fixed 20 s) = true) by apply dec_fixed_digits.
  pose proof (dec_fixed_length 20 s) as Hl. destruct (dec_fixed 20 s) as [|c x]; [done|].
  rewrite string_app_cons in E. injection E as -> _. by simpl in Hd.
Qed.

(** ** A concrete journal *)
Module JournalReference.
Import Reference.

#[export] Instance StoredBatch_eq_dec : EqDecision StoredBatch.
Proof. solve_decision. Defined.

Definition write_a : JournalMutation := mutation_write "a.txt" None (checksum_digest [x01]).
Definition empty : DurableJournal := {| dj_ops := []; dj_head_checksum := None; dj_healthy := true |}.
Definition first_batch : StoredBatch :=
  batch_new 1 1 None [{| jo_seq := 1; jo_path := "a.txt"; jo_kind := KWrite; jo_before := None;
                         jo_after := Some (checksum_digest [x01]) |}].

(** A codec of this one batch. *)
#[export] Instance one_batch : BatchCodec := {|
  encode_batch b := if decide (b = first_batch) then Ok [x7b; x7d] else Err "unsupported";
  decode_batch c := if decide (c = [x7b; x7d; x0a]) then Ok first_batch else Err "invalid"
|}.
#[export] Instance one_batch_laws : BatchCodecLaws.
Proof. intros b e. simpl. case_decide as Hb; [|done]. intros [= <-]. by rewrite Hb. Qed.

Definition calm : publish_env := {|
  pe_pid := 7; pe_create_error := λ _, None; pe_write_error := None; pe_cleanup_ok := true;
  pe_link_error := None; pe_dirsync_fails := false; pe_remove_ok := true
|}.

Definition published : dir := {[ batch_name 1 1 := EFile [x7b; x7d; x0a] ]}.

Lemma empty_inv : journal_inv ∅ empty.
Proof. exists []. split; [|done]. split; [constructor|]. by exists []. Qed.

Definition run : list dir * DurableJournal * result unit JournalError :=
  record_batch calm empty ∅ [write_a].

Lemma run_ok : record_batch calm empty ∅ [write_a] = (fst (fst run), snd (fst run), Ok tt).
Proof.
  assert (snd run = Ok tt) as Hr by (vm_compute; reflexivity).
  fold run.
  destruct run as [[trace j] r]. simpl in *. by rewrite Hr.
Qed.

Example record_batch_crash_safe_witness :
  ∃ ops, dj_ops (snd (fst run)) = [] ++ ops ∧ Forall2 records [write_a] ops.
Proof.
  refine (proj2 (proj2 (proj2 (record_batch_crash_safe calm ∅ empty [write_a]
    (fst (fst run)) (snd (fst run)) (Ok tt) empty_inv _ _ run_ok)))).
  - constructor; [|constructor]. left. unfold write_a. eauto.
  - vm_compute. reflexivity.
Defined.

Lemma published_loads :
  load_batches (map_to_list published) = Ok (sb_ops first_batch, Some (sb_checksum first_batch)).
Proof. vm_compute. reflexivity. Qed.

Definition first_op : JournalOp :=
  {| jo_seq := 1; jo_path := "a.txt"; jo_kind := KWrite; jo_before := None;
     jo_after := Some (checksum_digest [x01]) |}.

Lemma first_paths : Forall (λ op, addressable (as_bytes (jo_path op))) (sb_ops first_batch ++ sb_ops first_batch).
Proof. apply (bool_decide_unpack (Forall _ _)). vm_compute. exact I. Qed.

Example load_batches_binds_history_witness : jo_seq first_op = 1 + N.of_nat 0.
Proof.
  exact (proj2 (load_batches_binds_history (map_to_list published) (map_to_list published)
    (sb_ops first_batch) (sb_ops first_batch) (Some (sb_checksum first_batch))
    published_loads published_loads first_paths) 0%nat first_op eq_refl).
Defined.

Lemma first_ops_wf : Forall op_wf (sb_ops first_batch).
Proof. repeat constructor; unfold addressable; vm_compute; discriminate. Qed.

Lemma no_tree_wf : git_tree_wf None.
Proof. by intros o. Qed.

Example checkpoint_binds_journal_witness :
  identity_is_valid (checkpoint_of (sb_ops first_batch) None) = true.
Proof.
  exact (proj1 (proj1 (checkpoint_binds_journal (sb_ops first_batch) (sb_ops first_batch) None None
           first_ops_wf first_ops_wf no_tree_wf no_tree_wf eq_refl))).
Defined.

Example batch_name_grammar_witness :
  parse_batch_name (batch_name 7 18446744073709551615) = Some (7, 18446744073709551615).
Proof.
  refine (proj1 (batch_name_grammar 7 18446744073709551615 calm first_batch 0 _ _));
    vm_compute; discriminate.
Defined.
End JournalReference.
