(* ===== verification/Protocol.v ===== *)
(** [crates/bullet-gitd/src/protocol.rs]: the bounded JSONL frame reader.

    A [BufRead] is the list of chunks its successive [fill_buf] calls expose;
    the head is what is buffered now, and [consume] drops a prefix of it. *)

From S2P Require Import Prelude Proposal.

Definition FRAME_ENVELOPE_BYTES : N := 1048576.
Definition MAX_FRAME_BYTES : N := 2 * MAX_AGGREGATE_CONTENT_BYTES + FRAME_ENVELOPE_BYTES.

Inductive FrameReadError : Type :=
  | FIo (message : string)
  | FTooLarge
  | FInvalidUtf8.

Definition frame_reason_code (e : FrameReadError) : string :=
  match e with
  | FIo _ => "PROTOCOL_IO_FAILED"
  | FTooLarge => "FRAME_TOO_LARGE"
  | FInvalidUtf8 => "INVALID_UTF8"
  end.

(** The [Display] text of [FrameReadError]. *)
Definition frame_display (e : FrameReadError) : string :=
  match e with
  | FIo m => "read protocol frame: " +:+ m
  | FTooLarge => "protocol frame exceeds " +:+ u64_to_string MAX_FRAME_BYTES +:+ " bytes"
  | FInvalidUtf8 => "protocol frame is not valid UTF-8"
  end.

(** ** UTF-8: [String::from_utf8] *)

Definition byte_in (lo hi : N) (b : byte) : bool := (lo <=? Byte.to_N b) && (Byte.to_N b <=? hi).
Definition continuation (b : byte) : bool := byte_in 128 191 b.

Fixpoint valid_utf8 (s : bytes) : bool :=
  match s with
  | [] => true
  | a :: s1 =>
      if byte_in 0 127 a then valid_utf8 s1
      else match s1 with
      | [] => false
      | b :: s2 =>
          if byte_in 194 223 a then continuation b && valid_utf8 s2
          else match s2 with
          | [] => false
          | c :: s3 =>
              if byte_in 224 239 a then
                byte_in (if byte_in 224 224 a then 160 else 128)
                        (if byte_in 237 237 a then 159 else 191) b
                && continuation c && valid_utf8 s3
              else match s3 with
              | [] => false
              | d :: s4 =>
                  byte_in 240 244 a
                  && byte_in (if byte_in 240 240 a then 144 else 128)
                             (if byte_in 244 244 a then 143 else 191) b
                  && continuation c && continuation d && valid_utf8 s4
              end
          end
      end
  end.

Definition from_utf8 (b : bytes) : option string :=
  if valid_utf8 b then Some (String.string_of_list_byte b) else None.

(** ** The reader *)

Inductive chunk : Type := Data (b : bytes) | IoError (e : string).

Definition newline : byte := x0a.

(** [available.iter().position(|byte| *byte == b'\n')], as the bytes before
    the line feed and after it. *)
Fixpoint split_newline (b : bytes) : option (bytes * bytes) :=
  match b with
  | [] => None
  | x :: b =>
      if Byte.eqb x newline then Some ([], b)
      else option_map (λ '(p, q), (x :: p, q)) (split_newline b)
  end.

(** The buffer after [consume] of all but [rest]. *)
Definition push_back (rest : bytes) (r : list chunk) : list chunk :=
  match rest with [] => r | _ => Data rest :: r end.

(** [String::from_utf8(bytes).map(Some)] *)
Definition finish (acc : bytes) : result (option string) FrameReadError :=
  match from_utf8 acc with Some s => Ok (Some s) | None => Err FInvalidUtf8 end.

(** The loop of [read_frame], with the bytes read so far and the chunks left. *)
Fixpoint read_loop (acc : bytes) (r : list chunk) : result (option string) FrameReadError * list chunk :=
  match r with
  | [] => (if blen acc =? 0 then Ok None else finish acc, [])
  | IoError e :: r => (Err (FIo e), r)
  | Data [] :: r' => (if blen acc =? 0 then Ok None else finish acc, r)
  | Data available :: r' =>
      let payload := match split_newline available with Some (p, _) => p | None => available end in
      match checked_add (blen acc) (blen payload) with
      | None => (Err FTooLarge, r)
      | Some next_len =>
          if MAX_FRAME_BYTES <? next_len then (Err FTooLarge, r)
          else match split_newline available with
               | Some (p, rest) => (finish (acc ++ p), push_back rest r')
               | None => read_loop (acc ++ available) r'
               end
      end
  end.

Definition read_frame (r : list chunk) : result (option string) FrameReadError * list chunk :=
  read_loop [] r.

(** ** Specification: one line of a byte stream *)

Definition stream (r : list chunk) : bytes :=
  flat_map (λ c, match c with Data b => b | IoError _ => [] end) r.

(** Chunks a reader of [s] can expose: nonempty data. *)
Definition reads (r : list chunk) (s : bytes) : Prop :=
  Forall (λ c, ∃ b, c = Data b ∧ b ≠ []) r ∧ stream r = s.

Definition frame_spec (acc s : bytes) : result (option string) FrameReadError :=
  let line := acc ++ match split_newline s with Some (p, _) => p | None => s end in
  if MAX_FRAME_BYTES <? blen line then Err FTooLarge
  else match split_newline s, line with
       | None, [] => Ok None
       | _, _ => finish line
       end.

(** A reader that exposes a whole file at once. *)
Definition reader_of (s : bytes) : list chunk := match s with [] => [] | _ => [Data s] end.

(** ** Lemmas *)

Lemma split_newline_app p q :
  split_newline (p ++ q) =
    match split_newline p with
    | Some (a, b) => Some (a, b ++ q)
    | None => option_map (λ '(a, b), (p ++ a, b)) (split_newline q)
    end.
Proof.
  induction p as [|x p IH]; simpl.
  - by destruct (split_newline q) as [[]|].
  - destruct (Byte.eqb x newline); [done|]. rewrite IH.
    destruct (split_newline p) as [[]|]; simpl; [done|].
    by destruct (split_newline q) as [[]|].
Qed.

Lemma split_newline_Some s p q : split_newline s = Some (p, q) → s = p ++ newline :: q ∧ split_newline p = None.
Proof.
  revert p. induction s as [|x s IH]; intros p; simpl; [done|].
  destruct (Byte.eqb x newline) eqn:E.
  - intros [= <- <-]. by apply Byte.byte_dec_bl in E as ->.
  - destruct (split_newline s) as [[a b]|]; [|done]. simpl. intros [= <- <-].
    destruct (IH a eq_refl) as [-> Ha]. simpl. by rewrite E, Ha.
Qed.

Lemma split_newline_line p q : split_newline p = None → split_newline (p ++ newline :: q) = Some (p, q).
Proof. intros Hp. rewrite split_newline_app, Hp. simpl. by rewrite app_nil_r. Qed.

Lemma blen_app {A} (a b : list A) : blen (a ++ b) = blen a + blen b.
Proof. unfold blen. rewrite length_app. lia. Qed.

Lemma reads_cons b r s : b ≠ [] → reads r s → reads (Data b :: r) (b ++ s).
Proof. intros Hb [Hr <-]. split; [constructor; eauto|done]. Qed.

Lemma reads_push_back rest r s : reads r s → reads (push_back rest r) (rest ++ s).
Proof. destruct rest; [done|]. intros Hr. by apply reads_cons. Qed.

Lemma reads_reader_of s : reads (reader_of s) s.
Proof. destruct s; [by split|]. split; [repeat constructor; eauto|]. simpl. by rewrite app_nil_r. Qed.

Lemma read_loop_data acc av r :
  av ≠ [] →
  read_loop acc (Data av :: r) =
    match checked_add (blen acc) (blen (match split_newline av with Some (p, _) => p | None => av end)) with
    | None => (Err FTooLarge, Data av :: r)
    | Some next_len =>
        if MAX_FRAME_BYTES <? next_len then (Err FTooLarge, Data av :: r)
        else match split_newline av with
             | Some (p, rest) => (finish (acc ++ p), push_back rest r)
             | None => read_loop (acc ++ av) r
             end
    end.
Proof. by destruct av. Qed.

Lemma checked_add_small x y :
  x <= MAX_FRAME_BYTES → x + y <= MAX_FRAME_BYTES → checked_add x y = Some (x + y).
Proof.
  unfold checked_add, MAX_FRAME_BYTES, MAX_AGGREGATE_CONTENT_BYTES, FRAME_ENVELOPE_BYTES, u64_max.
  intros Hx Hy. assert (x + y <=? 18446744073709551615 = true) as -> by (bools; lia). done.
Qed.

(** A chunk whose payload does not fit is refused whatever follows. *)
Lemma too_large_chunk (acc payload : bytes) (k : result (option string) FrameReadError * list chunk) r :
  MAX_FRAME_BYTES < blen acc + blen payload →
  match checked_add (blen acc) (blen payload) with
  | None => (Err FTooLarge, r)
  | Some next_len => if MAX_FRAME_BYTES <? next_len then (Err FTooLarge, r) else k
  end = (Err FTooLarge, r).
Proof.
  intros Hlt. unfold checked_add. destruct (_ <=? u64_max); [|done]. by apply N.ltb_lt in Hlt as ->.
Qed.

Lemma frame_spec_too_large acc s p rest :
  s = p ++ rest → MAX_FRAME_BYTES < blen acc + blen p →
  split_newline p = None → frame_spec acc s = Err FTooLarge.
Proof.
  intros -> Hlt Hp. unfold frame_spec. rewrite split_newline_app, Hp.
  destruct (split_newline rest) as [[a q]|]; simpl.
  - assert (MAX_FRAME_BYTES <? blen (acc ++ p ++ a) = true) as -> by (rewrite !blen_app; bools; lia). done.
  - assert (MAX_FRAME_BYTES <? blen (acc ++ p ++ rest) = true) as -> by (rewrite !blen_app; bools; lia). done.
Qed.

(** What the reader leaves after a line. *)
Definition after_line (s : bytes) : bytes := match split_newline s with Some (_, q) => q | None => [] end.

Lemma read_loop_spec acc r s :
  reads r s → blen acc <= MAX_FRAME_BYTES →
  fst (read_loop acc r) = frame_spec acc s ∧
  ∀ line, fst (read_loop acc r) = Ok (Some line) → reads (snd (read_loop acc r)) (after_line s).
Proof.
  intros Hr Hacc. revert acc s Hr Hacc. induction r as [|c r IH]; intros acc s [Hf Hs] Hacc.
  - simpl in Hs. subst s. unfold frame_spec. simpl. rewrite app_nil_r.
    apply N.ltb_ge in Hacc as Hle. rewrite Hle. split; [by destruct acc|].
    intros line _. by split.
  - apply Forall_cons in Hf as [(av & -> & Hne) Hf].
    assert (reads r (stream r)) as Hr by (by split).
    change (stream (Data av :: r)) with (av ++ stream r) in Hs. subst s.
    rewrite read_loop_data by done.
    destruct (split_newline av) as [[p rest]|] eqn:Es.
    + apply split_newline_Some in Es as [-> Hp].
      destruct (decide (blen acc + blen p <= MAX_FRAME_BYTES)) as [Hfit|Hbig].
      * rewrite checked_add_small by done. apply N.ltb_ge in Hfit as Hfit'. rewrite Hfit'. simpl.
        unfold frame_spec, after_line. rewrite <- app_assoc, <- app_comm_cons, split_newline_line by done.
        rewrite blen_app, Hfit'. split; [by destruct (acc ++ p)|]. intros line _. by apply reads_push_back.
      * rewrite too_large_chunk by lia. simpl. split; [|done].
        symmetry. apply (frame_spec_too_large _ _ p (newline :: rest ++ stream r)); [|lia|done].
        by rewrite <- app_assoc.
    + destruct (decide (blen acc + blen av <= MAX_FRAME_BYTES)) as [Hfit|Hbig].
      * rewrite checked_add_small by done. apply N.ltb_ge in Hfit as Hfit'. rewrite Hfit'.
        destruct (IH (acc ++ av) (stream r) Hr) as [IH1 IH2]; [by rewrite blen_app|].
        unfold frame_spec, after_line in *. rewrite split_newline_app, Es.
        rewrite IH1 in *. destruct (split_newline (stream r)) as [[a q]|]; simpl;
          rewrite <- ?app_assoc in *; (split; [|exact IH2]); [done|].
        by destruct acc, av.
      * rewrite too_large_chunk by lia. simpl. split; [|done].
        symmetry. apply (frame_spec_too_large _ _ av (stream r)); [done|lia|done].
Qed.

Lemma read_frame_spec r s :
  reads r s →
  fst (read_frame r) = frame_spec [] s ∧
  ∀ line, fst (read_frame r) = Ok (Some line) → reads (snd (read_frame r)) (after_line s).
Proof. intros Hr. apply read_loop_spec; [done|]. by vm_compute. Qed.

(** ** Properties *)

(** C39: the frame a reader returns depends on the bytes only, never on how they
    arrive: on any chunking of a stream [read_frame] returns the first line
    (without its line feed), refuses it exactly when it is longer than
    [MAX_FRAME_BYTES] or not UTF-8, reports the end of the stream only when
    nothing is left, and leaves exactly what follows the line. *)
Theorem read_frame_chunking r r' s :
  reads r s → reads r' s →
  fst (read_frame r) = fst (read_frame r') ∧
  fst (read_frame r) = frame_spec [] s ∧
  ∀ line, fst (read_frame r) = Ok (Some line) →
    slen line <= MAX_FRAME_BYTES ∧ reads (snd (read_frame r)) (after_line s).
Proof.
  intros [H1 H2]%read_frame_spec [H1' _]%read_frame_spec.
  split; [congruence|]. split; [done|]. intros line Hl. split; [|by eapply H2].
  rewrite H1 in Hl. unfold frame_spec in Hl.
  assert (∀ b, MAX_FRAME_BYTES <? blen b = false → finish b = Ok (Some line) → slen line <= MAX_FRAME_BYTES) as Hfin.
  { intros b Hb. unfold finish, from_utf8. destruct (valid_utf8 b); [|done]. intros [= <-].
    bools. rewrite <- blen_as_bytes. unfold as_bytes. by rewrite String.list_byte_of_string_of_list_byte. }
  simpl in Hl. destruct (split_newline s) as [[p q]|].
  - destruct (_ <? blen p) eqn:E; [done|]. by eapply Hfin.
  - destruct (_ <? blen s) eqn:E; [done|]. destruct s; [done|]. by eapply Hfin.
Qed.

Example read_frame_chunking_witness :
  fst (read_frame [Data [x61]; Data [x62; x0a; x63]]) = Ok (Some "ab") ∧
  fst (read_frame [Data [x61]; Data [x62; x0a; x63]]) = fst (read_frame [Data [x61; x62; x0a; x63]]).
Proof.
  split; [reflexivity|].
  refine (proj1 (read_frame_chunking [Data [x61]; Data [x62; x0a; x63]] [Data [x61; x62; x0a; x63]]
    [x61; x62; x0a; x63] _ _)); (split; [repeat constructor; eexists; by split|reflexivity]).
Defined.
