(* ===== verification/Disk.v ===== *)
(** Code that changes persistent state call by call: a [script S E A] runs from
    a state [S] and yields every state it exposes, in order, and its result.  A
    crash leaves one of the exposed states; an error stops the script.  [run_spec]
    is its logic: an invariant of every exposed state and a postcondition. *)

From S2P Require Import Prelude.

Definition script (S E A : Type) : Type := S → list S * result A E.

(** The state a script started in [s] leaves when it exposed [trace]. *)
Definition left_in {S} (s : S) (trace : list S) : S := default s (last trace).

Section Script.
Context {S : Type} {E : Type}.

Definition script_ret {A} (a : A) : script S E A := λ _, ([], Ok a).

Definition script_bind {A B} (m : script S E A) (k : A → script S E B) : script S E B := λ s,
  let '(trace, r) := m s in
  match r with
  | Err e => (trace, Err e)
  | Ok a => let '(trace', r') := k a (left_in s trace) in (trace ++ trace', r')
  end.

(** A pure check, a read of the state, and one state change. *)
Definition lift {A} (r : result A E) : script S E A := λ _, ([], r).
Definition read {A} (f : S → result A E) : script S E A := λ s, ([], f s).
Definition step (f : S → S) : script S E unit := λ s, ([f s], Ok tt).

Definition run_spec {A} (s : S) (m : script S E A) (I : S → Prop) (Q : result A E → S → Prop) : Prop :=
  Forall I (fst (m s)) ∧ Q (snd (m s)) (left_in s (fst (m s))).

Lemma left_in_app (s : S) (t t' : list S) : left_in s (t ++ t') = left_in (left_in s t) t'.
Proof. unfold left_in. rewrite last_app. by destruct (last t'). Qed.

Lemma left_in_cons (s s' : S) (t : list S) : left_in s (s' :: t) = left_in s' t.
Proof. apply (left_in_app s [s'] t). Qed.

Lemma run_bind {A B} s (m : script S E A) (k : A → script S E B) I Q :
  run_spec s m I (λ r s', match r with
                          | Ok a => run_spec s' (k a) I Q
                          | Err e => Q (Err e) s'
                          end) →
  run_spec s (script_bind m k) I Q.
Proof.
  unfold run_spec, script_bind. destruct (m s) as [t [a|e]]; simpl; [|done].
  destruct (k a (left_in s t)) as [t' r']; simpl. intros (Ht & Ht' & Hq). split.
  - by apply Forall_app.
  - by rewrite left_in_app.
Qed.

Lemma run_ret {A} s (a : A) I (Q : result A E → S → Prop) :
  Q (Ok a) s → run_spec s (script_ret a) I Q.
Proof. intros H. split; [apply Forall_nil_2|exact H]. Qed.

Lemma run_lift {A} s (r : result A E) I (Q : result A E → S → Prop) :
  Q r s → run_spec s (lift r) I Q.
Proof. intros H. split; [apply Forall_nil_2|exact H]. Qed.

Lemma run_read {A} s (f : S → result A E) I (Q : result A E → S → Prop) :
  Q (f s) s → run_spec s (read f) I Q.
Proof. intros H. split; [apply Forall_nil_2|exact H]. Qed.

Lemma run_step s (f : S → S) I (Q : result unit E → S → Prop) :
  I (f s) → Q (Ok tt) (f s) → run_spec s (step f) I Q.
Proof. intros Hi Hq. split; [apply Forall_cons_2; [exact Hi|apply Forall_nil_2]|exact Hq]. Qed.

Lemma run_bind_lift {A B} s (r : result A E) (k : A → script S E B) I Q :
  (∀ e, r = Err e → Q (Err e) s) → (∀ a, r = Ok a → run_spec s (k a) I Q) →
  run_spec s (script_bind (lift r) k) I Q.
Proof. intros He Ha. apply run_bind, run_lift. destruct r; auto. Qed.

Lemma run_bind_read {A B} s (f : S → result A E) (k : A → script S E B) I Q :
  (∀ e, f s = Err e → Q (Err e) s) → (∀ a, f s = Ok a → run_spec s (k a) I Q) →
  run_spec s (script_bind (read f) k) I Q.
Proof. intros He Ha. apply run_bind, run_read. destruct (f s); auto. Qed.

Lemma run_bind_step {B} s (f : S → S) (k : unit → script S E B) I (Q : result B E → S → Prop) :
  I (f s) → run_spec (f s) (k tt) I Q → run_spec s (script_bind (step f) k) I Q.
Proof. intros Hi Hk. by apply run_bind, run_step. Qed.

Lemma run_weaken {A} s (m : script S E A) (I J : S → Prop) (Q R : result A E → S → Prop) :
  (∀ s, I s → J s) → (∀ r s', Q r s' → R r s') → run_spec s m I Q → run_spec s m J R.
Proof. intros HI HQ [Hi Hq]. split; [by eapply Forall_impl|by apply HQ]. Qed.

Lemma run_of {A} s (m : script S E A) I Q trace r :
  run_spec s m I Q → m s = (trace, r) → Forall I trace ∧ Q r (left_in s trace).
Proof. intros [Ht Hr] Hm. rewrite Hm in Ht, Hr. by split. Qed.
End Script.

(** ** Scripts in scripts *)

(** [m] acting on a part of the state. *)
Definition script_in {S T E A} (get : S → T) (put : T → S → S) (m : script T E A) : script S E A := λ s,
  let '(trace, r) := m (get s) in (map (λ t, put t s) trace, r).
Definition script_map_err {S E F A} (f : E → F) (m : script S E A) : script S F A := λ s,
  let '(trace, r) := m s in (trace, map_err f r).
(** [m]'s result, error or not. *)
Definition script_try {S E F A} (m : script S E A) : script S F (result A E) := λ s,
  let '(trace, r) := m s in (trace, Ok r).

Section Inside.
Context {S : Type}.

Lemma run_script_in {T E A} (get : S → T) (put : T → S → S) s (m : script T E A) I Q :
  (∀ s, put (get s) s = s) →
  run_spec (get s) m (λ t, I (put t s)) (λ r t, Q r (put t s)) → run_spec s (script_in get put m) I Q.
Proof.
  intros Hput [Hi Hq]. unfold run_spec, script_in. destruct (m (get s)) as [trace r]. simpl in *.
  split; [by apply List.Forall_map|]. unfold left_in in *.
  change (map (λ t, put t s) trace) with ((λ t, put t s) <$> trace). rewrite fmap_last.
  destruct (last trace); simpl in *; [done|]. by rewrite Hput in Hq.
Qed.

Lemma run_map_err {E F A} s (f : E → F) (m : script S E A) I (Q : result A F → S → Prop) :
  run_spec s m I (λ r, Q (map_err f r)) → run_spec s (script_map_err f m) I Q.
Proof. intros Hm. unfold run_spec, script_map_err in *. by destruct (m s). Qed.

Lemma run_try {E F A} s (m : script S E A) I (Q : result (result A E) F → S → Prop) :
  run_spec s m I (λ r, Q (Ok r)) → run_spec s (script_try m) I Q.
Proof. intros Hm. unfold run_spec, script_try in *. by destruct (m s). Qed.
End Inside.

(** ** Scripts that preserve an invariant *)

(** A script that preserves [J], and what its result says besides. *)
Definition keeps_to {S E A} (J : S → Prop) (m : script S E A) (P : A → S → Prop) : Prop :=
  ∀ s, J s → run_spec s m J (λ r s', J s' ∧ ∀ a, r = Ok a → P a s').

Lemma keeps_to_bind {S E A B} (J : S → Prop) (m : script S E A) (k : A → script S E B) P Q :
  keeps_to J m P → (∀ a s, J s → P a s → run_spec s (k a) J (λ r s', J s' ∧ ∀ b, r = Ok b → Q b s')) →
  keeps_to J (script_bind m k) Q.
Proof.
  intros Hm Hk s Hs. apply run_bind. eapply run_weaken; [done| |by apply Hm].
  intros [a|e] s' [Hs' Ha]; [|by split]. by apply Hk; [|apply Ha].
Qed.

Lemma keeps_to_then {S E A B} (J : S → Prop) (m : script S E A) (k : A → script S E B) Q :
  keeps_to J m (λ _ _, True) → (∀ a, keeps_to J (k a) Q) → keeps_to J (script_bind m k) Q.
Proof. intros Hm Hk. eapply keeps_to_bind; [exact Hm|]. intros a s Hs _. by apply Hk. Qed.

Lemma keeps_to_lift {S E A} (J : S → Prop) (r : result A E) (P : A → S → Prop) :
  (∀ a s, r = Ok a → P a s) → keeps_to J (lift r) P.
Proof. intros Hr s Hs. apply run_lift. split; [done|]. intros a Ha. by apply Hr. Qed.

Lemma keeps_to_ret {S E A} (J : S → Prop) (a : A) (P : A → S → Prop) :
  (∀ s, J s → P a s) → keeps_to J (@script_ret S E A a) P.
Proof. intros Hp s Hs. apply run_ret. split; [done|]. intros ? [= <-]. by apply Hp. Qed.

Lemma keeps_to_read {S E A} (J : S → Prop) (f : S → result A E) (P : A → S → Prop) :
  (∀ a s, J s → f s = Ok a → P a s) → keeps_to J (read f) P.
Proof. intros Hp s Hs. apply run_read. split; [done|]. intros a Ha. by apply Hp. Qed.

Lemma keeps_to_map_err {S E F A} (J : S → Prop) (f : E → F) (m : script S E A) P :
  keeps_to J m P → keeps_to J (script_map_err f m) P.
Proof.
  intros Hm s Hs. apply run_map_err. eapply run_weaken; [done| |by apply Hm].
  intros [a|e] s' [Hs' Ha]; (split; [done|]); [|done]. intros ? [= <-]. by apply Ha.
Qed.

Lemma keeps_to_weaken {S E A} (J : S → Prop) (m : script S E A) (P Q : A → S → Prop) :
  keeps_to J m P → (∀ a s, J s → P a s → Q a s) → keeps_to J m Q.
Proof.
  intros Hm Hpq s Hs. eapply run_weaken; [done| |by apply Hm].
  intros r s' [Hs' Ha]. split; [done|]. intros a Hr. by apply Hpq, Ha.
Qed.

(** ** Which errors can come out *)

Definition refuses {A E} (P : E → Prop) (r : result A E) : Prop := ∀ e, r = Err e → P e.
Definition raises {S A E} (P : E → Prop) (m : script S E A) : Prop := ∀ s, refuses P (snd (m s)).

Section Refusals.
Context {E : Type} (P : E → Prop).

Lemma refuses_ok {A} (a : A) : refuses P (Ok a).
Proof. by intros e. Qed.
Lemma refuses_err {A} e : P e → refuses P (@Err A E e).
Proof. by intros H ? [= <-]. Qed.
Lemma refuses_bind {A B} (r : result A E) (k : A → result B E) :
  refuses P r → (∀ a, refuses P (k a)) → refuses P (res_bind r k).
Proof. intros Hr Hk. destruct r as [a|e]; [apply Hk|]. intros ? [= <-]. by apply Hr. Qed.
Lemma refuses_fail_if c e : P e → refuses P (fail_if c e).
Proof. intros He. destruct c; [by apply refuses_err|by intros ?]. Qed.
Lemma refuses_ok_or {A} (o : option A) e : P e → refuses P (ok_or o e).
Proof. intros He. destruct o; [by intros ?|by apply refuses_err]. Qed.
Lemma refuses_map_err {A F} (f : F → E) (r : result A F) : (∀ e, P (f e)) → refuses P (map_err f r).
Proof. intros Hf. destruct r; [by intros ?|by apply refuses_err]. Qed.
Lemma refuses_try_for {A} (f : A → result unit E) l :
  (∀ x, x ∈ l → refuses P (f x)) → refuses P (try_for f l).
Proof.
  induction l as [|x l IH]; intros Hf; simpl; [apply refuses_ok|].
  apply refuses_bind; [apply Hf; by left|]. intros _. apply IH. intros y Hy. apply Hf. by right.
Qed.
Lemma refuses_if {A} (c : bool) (x y : result A E) :
  refuses P x → refuses P y → refuses P (if c then x else y).
Proof. by destruct c. Qed.

Lemma raises_lift {S A} (r : result A E) : refuses P r → raises (S := S) P (lift r).
Proof. by intros Hr s. Qed.
Lemma raises_read {S A} (f : S → result A E) : (∀ s, refuses P (f s)) → raises P (read f).
Proof. intros Hf s. apply Hf. Qed.
Lemma raises_step {S} (f : S → S) : raises P (step f).
Proof. by intros s e. Qed.
Lemma raises_ret {S A} (a : A) : raises (S := S) P (script_ret a).
Proof. by intros s e. Qed.
Lemma raises_bind {S A B} (m : script S E A) (k : A → script S E B) :
  raises P m → (∀ a, raises P (k a)) → raises P (script_bind m k).
Proof.
  intros Hm Hk s. unfold script_bind. specialize (Hm s). destruct (m s) as [t [a|e]]; simpl in *.
  - specialize (Hk a (left_in s t)). by destruct (k a (left_in s t)).
  - intros ? [= <-]. by apply Hm.
Qed.

Lemma run_raises {S A} s (m : script S E A) I (Q : result A E → S → Prop) :
  raises P m → run_spec s m I Q →
  run_spec s m I (λ r s', Q r s' ∧ refuses P r).
Proof. intros Hr [Hi Hq]. split; [done|]. split; [done|apply Hr]. Qed.
End Refusals.

Create HintDb refusals.
#[export] Hint Resolve refuses_ok refuses_err refuses_bind refuses_fail_if refuses_ok_or
  refuses_map_err refuses_if raises_lift raises_read raises_step raises_ret raises_bind : refusals.

Declare Scope script_scope.
Delimit Scope script_scope with script.
Notation "'exec' x ':=' m 'in' k" := (script_bind m (λ x, k))
  (at level 10, x name, m at level 100, k at level 200) : script_scope.
Notation "m ;; k" := (script_bind m (λ _ : unit, k))
  (at level 100, k at level 200, right associativity) : script_scope.

#[global] Arguments script_bind : simpl never.
