(* ===== verification/Cas.v ===== *)
(** [crates/bullet-git-workspace/src/cas.rs], [cas_io.rs] and [fsync.rs]: the
    immutable content store of a workspace and the admission of its root.

    The store's directory is a map from names to entries.  [put] returns the
    sequence of directory states it goes through (a crash exposes any of them),
    the store it leaves and its result; the replies of the file system, the
    injected [Faults] and an object another process publishes in between are
    the fields of [put_env]. *)

From S2P Require Import Prelude Decimal Digests Disk.

Definition CAS_DOMAIN : string := "bullet-git.cas-object.v1".
Definition TEMP_ATTEMPTS : nat := 128.
Definition MAX_CAS_OBJECT_BYTES : N := 1048576.

(** ** Results *)

Inductive PutDisposition : Type := Published | Existing.

#[export] Instance PutDisposition_eq_dec : EqDecision PutDisposition.
Proof. solve_decision. Defined.

Record CasPut : Type := {
  cput_digest : Digest;
  cput_disposition : PutDisposition
}.

Inductive CasError : Type :=
  | CasInvalidRoot (message : string)
  | CasObjectTooLarge (max actual : N)
  | CasCorrupt (message : string)
  | CasOutcomeUnknown (message : string)
  | CasIo (message : string).

Definition cas_reason_code (e : CasError) : string :=
  match e with
  | CasInvalidRoot _ => "CAS_ROOT_INVALID"
  | CasObjectTooLarge _ _ => "CAS_OBJECT_TOO_LARGE"
  | CasCorrupt _ => "CAS_CORRUPT"
  | CasOutcomeUnknown _ => "CAS_OUTCOME_UNKNOWN"
  | CasIo _ => "CAS_IO_FAILED"
  end.

(** ** The trusted root ([fsync.rs]) *)

(** What [symlink_metadata] reports of one path component. *)
Record component_meta : Type := {
  cm_is_dir : bool;
  cm_uid : N;
  cm_mode : N
}.

Definition unix_component_is_trusted (root_owner owner mode : N) (is_root : bool) : bool :=
  let trusted_owner := (owner =? root_owner) || (owner =? 0) in
  let externally_writable := negb (N.land mode 18 =? 0) in
  let protected_ancestor :=
    negb externally_writable || (negb is_root && negb (N.land mode 512 =? 0)) in
  trusted_owner && protected_ancestor.

(** One round of the ancestor loop; [depth] 0 is the root itself. *)
Definition validate_component (root_owner : N) (row : N * (string * result component_meta string))
    : result unit string :=
  let '(depth, (component, reply)) := row in
  let? metadata := map_err (λ e, "cannot inspect " +:+ component +:+ ": " +:+ e) reply in
  fail_if (negb (cm_is_dir metadata)) (component +:+ " is not an ordinary ancestor directory") ;?
  fail_if (negb (unix_component_is_trusted root_owner (cm_uid metadata) (cm_mode metadata)
                   (depth =? 0)))
    (component +:+ " has an untrusted owner or writable mode").

Definition validate_storage_ancestry (root_owner : N)
    (ancestors : list (string * result component_meta string)) : result unit string :=
  try_for (validate_component root_owner) (imap (λ i x, (N.of_nat i, x)) ancestors).

(** [validate_storage_root] for the replies of [symlink_metadata],
    [canonicalize] and the inspection of the ancestors, the root first. *)
Definition validate_storage_root (root : string) (is_absolute : bool)
    (meta : result component_meta string) (canonical : result string string)
    (ancestors : list (string * result component_meta string)) : result string string :=
  fail_if (negb is_absolute) "root must be an absolute server-selected path" ;?
  let? metadata := map_err (λ e, root +:+ ": " +:+ e) meta in
  fail_if (negb (cm_is_dir metadata)) (root +:+ " is not an ordinary directory") ;?
  let? canonical := map_err (λ e, root +:+ ": " +:+ e) canonical in
  fail_if (negb (String.eqb canonical root))
    (root +:+ " contains a symlink or non-canonical component") ;?
  validate_storage_ancestry (cm_uid metadata) ancestors ;?
  Ok canonical.

(** ** Fault injection ([fsync.rs]) *)

Inductive Boundary : Type := Allocate | Write | FileSync | Publish | DirectorySync.

Definition boundary_debug (b : Boundary) : string :=
  match b with
  | Allocate => "Allocate"
  | Write => "Write"
  | FileSync => "FileSync"
  | Publish => "Publish"
  | DirectorySync => "DirectorySync"
  end.

Definition injected (b : Boundary) : CasError :=
  CasIo ("injected " +:+ boundary_debug b +:+ " failure").

(** [Faults::check] *)
Definition faults_check (trips : Boundary → bool) (b : Boundary) : result unit CasError :=
  if trips b then Err (injected b) else Ok tt.

(** ** Entries and names ([cas_io.rs]) *)

(** A regular file with its read-only bit; anything else, which [exists]
    follows when it is a symbolic link. *)
Inductive cas_entry : Type :=
  | CFile (contents : bytes) (readonly : bool)
  | COther (resolves : bool).
Abbreviation cas_dir := (gmap string cas_entry).

Definition io_error (context error : string) : CasError := CasIo (context +:+ ": " +:+ error).

Definition is_digest_name (name : string) : bool :=
  (slen name =? 64) && chars_all is_lower_hex_char name.

Definition is_staging_name (name : string) : bool :=
  match strip_prefix ".cas-" name with
  | None => false
  | Some value =>
      match strip_suffix ".tmp" value with
      | None => false
      | Some stem =>
          match split "-"%char stem with
          | [f0; f1; f2] =>
              is_digest_name f0
              && negb (String.eqb f1 "") && is_digits f1
              && negb (String.eqb f2 "") && is_digits f2
          | _ => false
          end
      end
  end.

(** The replies to the three calls of [verify_object]. *)
Record verify_io : Type := {
  vio_inspect : option string;
  vio_open : option string;
  vio_read : option string
}.

Definition io_step (context : string) (reply : option string) : result unit CasError :=
  match reply with Some e => Err (io_error context e) | None => Ok tt end.

(** The [Debug] text of a name. *)
Class StrDebug : Type := str_debug : string → string.

Section Cas.
Context `{Blake3, HexCrate, StrDebug}.

Definition cas_digest (b : bytes) : Digest := framed_digest [as_bytes CAS_DOMAIN; b].

(** [verify_object] on the entry found at [path]. *)
Definition verify_object (io : verify_io) (path : string) (e : option cas_entry) (expected : Digest)
    : result bytes CasError :=
  io_step "inspect object" (vio_inspect io) ;?
  match e with
  | None => Err (io_error "inspect object" "No such file or directory (os error 2)")
  | Some (COther _) => Err (CasCorrupt (path +:+ " is not a regular object"))
  | Some (CFile contents readonly) =>
      fail_if (MAX_CAS_OBJECT_BYTES <? blen contents)
        (CasCorrupt (path +:+ " exceeds the object bound")) ;?
      fail_if (negb readonly) (CasCorrupt (path +:+ " is a writable authoritative object")) ;?
      io_step "open object" (vio_open io) ;?
      io_step "read object" (vio_read io) ;?
      fail_if ((MAX_CAS_OBJECT_BYTES <? blen contents)
               || negb (bool_decide (cas_digest contents = expected)))
        (CasCorrupt (path +:+ " bytes do not match its object name")) ;?
      Ok contents
  end.

(** ** The store *)

Record ImmutableCas : Type := {
  cas_root : string;
  cas_lock_poisoned : bool;
  cas_poisoned : bool
}.

Definition object_path (s : ImmutableCas) (name : string) : string :=
  cas_root s +:+ "/" +:+ name.

Definition lock_operation (s : ImmutableCas) : result unit CasError :=
  fail_if (cas_lock_poisoned s)
    (CasOutcomeUnknown "operation lock is poisoned; reopen before use").

Definition require_healthy (s : ImmutableCas) : result unit CasError :=
  fail_if (cas_poisoned s)
    (CasOutcomeUnknown "instance is poisoned; reopen and revalidate before use").

(** [poison] *)
Definition poison (s : ImmutableCas) (message : string) : ImmutableCas * CasError :=
  ({| cas_root := cas_root s; cas_lock_poisoned := cas_lock_poisoned s; cas_poisoned := true |},
   CasOutcomeUnknown message).

(** The replies to one scan of the root. *)
Record scan_env : Type := {
  se_type : string → option string;
  se_verify : string → verify_io;
  se_metadata : string → option string
}.

(** One round of [validate_entries]: what [read_dir] yields is a failure, or a
    name ([None] when it is not UTF-8) with its entry. *)
Definition validate_entry (env : scan_env) (s : ImmutableCas)
    (row : result (option string * cas_entry) string) : result unit CasError :=
  let? '(file_name, e) := map_err (io_error "read CAS entry") row in
  let? name := ok_or file_name (CasCorrupt "CAS entry name is not valid UTF-8") in
  io_step "inspect CAS entry" (se_type env name) ;?
  if is_digest_name name then
    match e with
    | COther _ =>
        Err (CasCorrupt ("authoritative entry " +:+ str_debug name +:+ " is not a regular file"))
    | CFile _ _ =>
        let? digest := map_err (λ e, CasCorrupt (types_display e)) (from_hex name) in
        let? _contents := verify_object (se_verify env name) (object_path s name) (Some e) digest in
        Ok tt
    end
  else if is_staging_name name then
    match e with
    | COther _ =>
        Err (CasCorrupt ("staging entry " +:+ str_debug name +:+ " is not a regular file"))
    | CFile contents _ =>
        io_step "inspect CAS staging file" (se_metadata env name) ;?
        fail_if (MAX_CAS_OBJECT_BYTES <? blen contents)
          (CasCorrupt ("staging entry " +:+ str_debug name +:+ " exceeds the object bound"))
    end
  else Err (CasCorrupt ("unknown CAS entry " +:+ str_debug name)).

Definition validate_entries (env : scan_env) (s : ImmutableCas)
    (listing : result (list (result (option string * cas_entry) string)) string)
    : result unit CasError :=
  let? rows := map_err (io_error "read CAS root") listing in
  try_for (validate_entry env s) rows.

(** [ImmutableCas::open], given the admission of its root and the reply of the
    directory sync. *)
Definition cas_open (env : scan_env) (root : result string string)
    (listing : result (list (result (option string * cas_entry) string)) string)
    (dirsync : option string) : result ImmutableCas CasError :=
  let? root := map_err CasInvalidRoot root in
  let s := {| cas_root := root; cas_lock_poisoned := false; cas_poisoned := false |} in
  validate_entries env s listing ;?
  match dirsync with
  | Some e => Err (CasOutcomeUnknown
                     ("cannot establish recovered directory durability: " +:+ e))
  | None => Ok s
  end.

(** What [symlink_metadata] replies to [get]: an error other than not-found. *)
Definition get (inspect : option string) (io : verify_io) (d : cas_dir) (s : ImmutableCas)
    (digest : Digest) : result (option bytes) CasError :=
  lock_operation s ;?
  require_healthy s ;?
  io_step "inspect object" inspect ;?
  match d !! to_hex digest with
  | None => Ok None
  | Some e => res_map Some (verify_object io (object_path s (to_hex digest)) (Some e) digest)
  end.

(** ** [put] *)

(** The replies to the calls of one [put]; [pu_race] is an entry another
    process leaves at the destination before the link. *)
Record put_env : Type := {
  pu_pid : N;
  pu_faults : Boundary → bool;
  pu_verify : verify_io;
  pu_create : N → option string;
  pu_write : option (nat * string);
  pu_readonly : option string;
  pu_sync : option string;
  pu_race : option cas_entry;
  pu_link : option string;
  pu_unlink : option string;
  pu_dirsync : option string
}.

Definition cas_staging_name (env : put_env) (digest : Digest) (sequence : N) : string :=
  ".cas-" +:+ to_hex digest +:+ "-" +:+ u64_to_string (pu_pid env) +:+ "-"
  +:+ u64_to_string sequence +:+ ".tmp".

(** [create_staging_file]; the state is the process-wide [TEMP_SEQUENCE]. *)
Fixpoint cas_create_staging (env : put_env) (d : cas_dir) (digest : Digest)
    (attempts : nat) (sequence : N) : N * result string CasError :=
  match attempts with
  | O => (sequence, Err (CasIo "could not allocate a unique object staging file"))
  | S attempts =>
      let next := (sequence + 1) mod (u64_max + 1) in
      let name := cas_staging_name env digest sequence in
      match d !! name with
      | Some _ => cas_create_staging env d digest attempts next
      | None =>
          match pu_create env sequence with
          | Some e => (next, Err (io_error "allocate object staging file" e))
          | None => (next, Ok name)
          end
      end
  end.

(** [destination.exists()] follows symbolic links. *)
Definition entry_exists (e : option cas_entry) : bool :=
  match e with
  | None => false
  | Some (CFile _ _) => true
  | Some (COther resolves) => resolves
  end.

Definition half (b : bytes) : nat := Nat.div2 (length b).

(** [sync_for_adoption], then the adopted object. *)
Definition adopt (env : put_env) (s : ImmutableCas) (digest : Digest)
    : ImmutableCas * result CasPut CasError :=
  match pu_dirsync env with
  | Some e =>
      let '(s, err) := poison s ("cannot establish object durability: " +:+ e) in (s, Err err)
  | None => (s, Ok {| cput_digest := digest; cput_disposition := Existing |})
  end.

(** The end of [put_inner], from the hard link on. *)
Definition put_link (env : put_env) (d : cas_dir) (s : ImmutableCas) (staging : string)
    (digest : Digest) (contents : bytes) : list cas_dir * ImmutableCas * result CasPut CasError :=
  let destination := to_hex digest in
  match pu_link env with
  | Some e => ([], s, Err (io_error "publish object" e))
  | None =>
      match d !! destination with
      | Some found =>
          match verify_object (pu_verify env) (object_path s destination) (Some found) digest with
          | Err e => ([], s, Err e)
          | Ok _ =>
              let d1 := match pu_unlink env with Some _ => d | None => delete staging d end in
              let '(s, r) := adopt env s digest in
              ([d1], s, r)
          end
      | None =>
          let d1 := <[destination := CFile contents true]> d in
          match pu_unlink env with
          | Some e =>
              let '(s, err) := poison s ("object published but staging-file unlink failed: " +:+ e) in
              ([d1], s, Err err)
          | None =>
              let d2 := delete staging d1 in
              if pu_faults env DirectorySync then
                let '(s, err) := poison s "injected directory-sync failure" in
                ([d1; d2], s, Err err)
              else
                match pu_dirsync env with
                | Some e =>
                    let '(s, err) :=
                      poison s ("object published but directory sync failed: " +:+ e) in
                    ([d1; d2], s, Err err)
                | None =>
                    ([d1; d2], s, Ok {| cput_digest := digest; cput_disposition := Published |})
                end
          end
      end
  end.

(** The write, the immutable bit and the file sync of the staging file. *)
Definition put_stage (env : put_env) (d : cas_dir) (staging : string) (contents : bytes)
    : list cas_dir * result unit CasError :=
  let created := <[staging := CFile [] false]> d in
  let written n := <[staging := CFile (take n contents) false]> d in
  if pu_faults env Write then
    match pu_write env with
    | Some (n, e) =>
        ([created; written (Nat.min n (half contents))], Err (io_error "write partial object" e))
    | None => ([created; written (half contents)], Err (injected Write))
    end
  else
    match pu_write env with
    | Some (n, e) => ([created; written n], Err (io_error "write object" e))
    | None =>
        let full := <[staging := CFile contents false]> d in
        match pu_readonly env with
        | Some e => ([created; full], Err (io_error "make object immutable" e))
        | None =>
            let sealed := <[staging := CFile contents true]> d in
            ([created; full; sealed],
             faults_check (pu_faults env) FileSync ;?
             io_step "sync object" (pu_sync env) ;?
             faults_check (pu_faults env) Publish)
        end
    end.

Definition with_race (env : put_env) (destination : string) (d : cas_dir) : cas_dir :=
  match pu_race env with
  | Some e => if decide (d !! destination = None) then <[destination := e]> d else d
  | None => d
  end.

(** [put_inner]: the directory states, the store and [TEMP_SEQUENCE] it
    leaves, and the result. *)
Definition put (env : put_env) (d : cas_dir) (sequence : N) (s : ImmutableCas) (contents : bytes)
    : list cas_dir * (ImmutableCas * N) * result CasPut CasError :=
  match lock_operation s ;? require_healthy s with
  | Err e => ([], (s, sequence), Err e)
  | Ok _ =>
      if MAX_CAS_OBJECT_BYTES <? blen contents then
        ([], (s, sequence), Err (CasObjectTooLarge MAX_CAS_OBJECT_BYTES (blen contents)))
      else
        let digest := cas_digest contents in
        let destination := to_hex digest in
        if entry_exists (d !! destination) then
          match verify_object (pu_verify env) (object_path s destination) (d !! destination) digest with
          | Err e => ([], (s, sequence), Err e)
          | Ok _ => let '(s, r) := adopt env s digest in ([], (s, sequence), r)
          end
        else
          match faults_check (pu_faults env) Allocate with
          | Err e => ([], (s, sequence), Err e)
          | Ok _ =>
              let '(sequence, created) := cas_create_staging env d digest TEMP_ATTEMPTS sequence in
              match created with
              | Err e => ([], (s, sequence), Err e)
              | Ok staging =>
                  let '(trace, staged) := put_stage env d staging contents in
                  match staged with
                  | Err e => (trace, (s, sequence), Err e)
                  | Ok _ =>
                      let raced := with_race env destination (left_in d trace) in
                      let '(trace2, s, r) := put_link env raced s staging digest contents in
                      (trace ++ raced :: trace2, (s, sequence), r)
                  end
              end
          end
  end.
End Cas.

(** ** What a valid store directory is *)

Section CasSpec.
Context `{Blake3, HexCrate}.

(** An object: immutable, bounded, named by its own digest. *)
Definition object_valid (name : string) (e : cas_entry) : Prop :=
  ∃ c, e = CFile c true ∧ blen c <= MAX_CAS_OBJECT_BYTES ∧ name = to_hex (cas_digest c).

(** A leftover of an interrupted [put]; it is never read as an object. *)
Definition staging_valid (name : string) (e : cas_entry) : Prop :=
  is_staging_name name = true ∧ ∃ c r, e = CFile c r ∧ blen c <= MAX_CAS_OBJECT_BYTES.

Definition entry_valid (name : string) (e : cas_entry) : Prop :=
  object_valid name e ∨ staging_valid name e.

Definition cas_valid (d : cas_dir) : Prop := map_Forall entry_valid d.

Definition io_quiet (io : verify_io) : Prop :=
  vio_inspect io = None ∧ vio_open io = None ∧ vio_read io = None.

Definition scan_quiet (env : scan_env) : Prop :=
  ∀ name, se_type env name = None ∧ se_metadata env name = None ∧ io_quiet (se_verify env name).

(** [d'] keeps every entry of [d] that is not a staging file, and adds at most
    the destination. *)
Definition preserves (destination : string) (d d' : cas_dir) : Prop :=
  ∀ name, is_staging_name name = false →
    d' !! name = d !! name ∨ name = destination ∧ d !! name = None.

(** What another process may leave at the destination. *)
Definition race_valid (env : put_env) (destination : string) : Prop :=
  ∀ e, pu_race env = Some e → object_valid destination e.
End CasSpec.

(** ** Lemmas *)

Section CasFacts.
Context `{Blake3, HexLaws, StrDebug}.

Lemma io_step_Ok context reply u : io_step context reply = Ok u ↔ reply = None.
Proof. destruct reply, u; simpl; naive_solver. Qed.

Lemma verify_object_Ok io path e expected c :
  verify_object io path e expected = Ok c ↔
  io_quiet io ∧ e = Some (CFile c true) ∧ blen c <= MAX_CAS_OBJECT_BYTES ∧ cas_digest c = expected.
Proof.
  unfold verify_object, io_quiet. rewrite res_bind_Ok. setoid_rewrite io_step_Ok.
  destruct e as [[b r|r]|]; [|naive_solver..].
  repeat setoid_rewrite res_bind_Ok. setoid_rewrite fail_if_Ok. setoid_rewrite io_step_Ok.
  setoid_rewrite orb_false_iff. setoid_rewrite negb_false_iff.
  setoid_rewrite N.ltb_ge. setoid_rewrite bool_decide_eq_true. split.
  - intros (_ & ? & _ & ? & _ & ? & _ & ? & _ & ? & _ & [? ?] & [= <-]). naive_solver.
  - intros ((? & ? & ?) & [= -> ->] & ? & ?). repeat (exists tt; split; [done|]). done.
Qed.

Lemma is_digest_name_to_hex d : is_digest_name (to_hex d) = true.
Proof. unfold is_digest_name. by rewrite to_hex_slen, to_hex_lower. Qed.

(** Every digest name is the text of a digest. *)
Lemma from_hex_total name : is_digest_name name = true → ∃ d, name = to_hex d.
Proof.
  unfold is_digest_name. intros [Hlen Hlow]%andb_true_iff. apply N.eqb_eq in Hlen.
  destruct (hex_decode_total name) as [b Hb]; [by rewrite Hlen|by apply lower_hex_hexdigit|].
  pose proof (hex_decode_sound _ _ Hb) as He. rewrite lower_hex_no_upper in He by done.
  pose proof (hex_encode_length b) as Hl. rewrite He, Hlen in Hl.
  destruct (digest_from_bytes b) as [d|] eqn:Hd.
  - exists d. apply digest_from_bytes_Some in Hd. unfold to_hex. by rewrite Hd.
  - unfold digest_from_bytes in Hd. destruct (decide _) as [|Hn]; [done|].
    destruct Hn. apply Is_true_true, Nat.eqb_eq. unfold blen in Hl. lia.
Qed.

Lemma staging_not_digest name : is_staging_name name = true → is_digest_name name = false.
Proof.
  unfold is_staging_name. destruct (strip_prefix ".cas-" name) as [v|] eqn:E; [|done].
  apply strip_prefix_Some in E as ->. intros _. unfold is_digest_name. simpl.
  by rewrite andb_false_r.
Qed.

Lemma digest_not_staging name : is_digest_name name = true → is_staging_name name = false.
Proof.
  destruct (is_staging_name name) eqn:E; [|done]. by rewrite (staging_not_digest _ E).
Qed.

Lemma to_hex_not_staging d : is_staging_name (to_hex d) = false.
Proof. apply digest_not_staging, is_digest_name_to_hex. Qed.

Lemma cas_staging_name_staging env d n : is_staging_name (cas_staging_name env d n) = true.
Proof.
  unfold is_staging_name, cas_staging_name. rewrite strip_prefix_app.
  destruct (u64_to_string_digits (pu_pid env)) as [Hp1 Hp2].
  destruct (u64_to_string_digits n) as [Hn1 Hn2].
  set (p := u64_to_string (pu_pid env)) in *. set (a := u64_to_string n) in *.
  assert (strip_suffix ".tmp" (to_hex d +:+ "-" +:+ p +:+ "-" +:+ a +:+ ".tmp")
          = Some (to_hex d +:+ "-" +:+ p +:+ "-" +:+ a)) as ->.
  { apply strip_suffix_Some. rewrite !string_app_assoc. reflexivity. }
  rewrite !split_cons', split_no_char; try by (apply digits_no_dash).
  2: apply lower_hex_no_dash, to_hex_lower.
  rewrite is_digest_name_to_hex, Hp1, Hn1. apply String.eqb_neq in Hp2, Hn2. by rewrite Hp2, Hn2.
Qed.

Lemma cas_create_staging_name env d digest attempts sequence sequence' name :
  cas_create_staging env d digest attempts sequence = (sequence', Ok name) →
  is_staging_name name = true ∧ d !! name = None.
Proof.
  revert sequence. induction attempts as [|attempts IH]; intros sequence; simpl; [done|].
  destruct (d !! cas_staging_name env digest sequence) eqn:E; [apply IH|].
  destruct (pu_create env sequence); [done|]. intros [= _ <-].
  split; [apply cas_staging_name_staging|done].
Qed.

Lemma object_valid_digest name e d :
  entry_valid name e → name = to_hex d → object_valid name e.
Proof.
  intros [?|[Hs _]] ->; [done|]. by rewrite to_hex_not_staging in Hs.
Qed.

(** ** The directory states of a [put] *)

Lemma valid_insert_staging d name c r :
  cas_valid d → is_staging_name name = true → blen c <= MAX_CAS_OBJECT_BYTES →
  cas_valid (<[name := CFile c r]> d).
Proof. intros Hd Hs Hc. apply map_Forall_insert_2; [|done]. right. split; [done|]. eauto. Qed.

Lemma blen_take n (c : bytes) : blen (take n c) <= blen c.
Proof. unfold blen. rewrite length_take. lia. Qed.

Lemma preserves_refl destination d : preserves destination d d.
Proof. intros name _. by left. Qed.

Lemma preserves_insert_staging destination d d' name e :
  is_staging_name name = true → preserves destination d d' →
  preserves destination d (<[name := e]> d').
Proof.
  intros Hs Hp n Hn. rewrite lookup_insert_ne by (intros ->; congruence). by apply Hp.
Qed.

Lemma preserves_delete_staging destination d d' name :
  is_staging_name name = true → preserves destination d d' →
  preserves destination d (delete name d').
Proof.
  intros Hs Hp n Hn. rewrite lookup_delete_ne by (intros ->; congruence). by apply Hp.
Qed.

Lemma preserves_insert_destination destination d d' e :
  d !! destination = None → preserves destination d d' →
  preserves destination d (<[destination := e]> d').
Proof.
  intros Hd Hp n Hn. destruct (decide (n = destination)) as [->|Hne]; [by right|].
  rewrite lookup_insert_ne by done. by apply Hp.
Qed.

(** Every state is valid and keeps the objects. *)
Definition state_ok (destination : string) (d d' : cas_dir) : Prop :=
  cas_valid d' ∧ preserves destination d d'.

Lemma put_stage_states env d staging contents trace r destination :
  cas_valid d → is_staging_name staging = true → blen contents <= MAX_CAS_OBJECT_BYTES →
  put_stage env d staging contents = (trace, r) →
  Forall (state_ok destination d) trace ∧
  (is_ok r = true → left_in d trace = <[staging := CFile contents true]> d) ∧
  (∀ e, r = Err e → ∃ m, e = CasIo m).
Proof.
  intros Hd Hs Hc.
  assert (∀ c ro, blen c <= blen contents → state_ok destination d (<[staging := CFile c ro]> d)) as Hok.
  { intros c ro Hlen. split; [apply valid_insert_staging; [done..|lia]|].
    apply preserves_insert_staging; [done|apply preserves_refl]. }
  assert (blen (@nil byte) <= blen contents) by (unfold blen; simpl; lia).
  unfold put_stage, left_in. pose proof blen_take as Ht.
  destruct (pu_faults env Write), (pu_write env) as [[n e]|];
    [| | |destruct (pu_readonly env)]; intros [= <- <-];
    (split; [repeat (apply Forall_cons_2; [by apply Hok; auto|]); apply Forall_nil_2|]);
    (split; [simpl; try done|]).
  all: unfold faults_check, injected, io_step, io_error; simpl.
  all: repeat case_match; naive_solver.
Qed.

Lemma with_race_state env destination d :
  race_valid env destination → cas_valid d → state_ok destination d (with_race env destination d).
Proof.
  intros Hr Hd. unfold with_race. destruct (pu_race env) as [e|] eqn:E.
  - case_decide as Hn; [|by split; [|apply preserves_refl]]. split.
    + apply map_Forall_insert_2; [|done]. left. by apply Hr.
    + apply preserves_insert_destination; [done|apply preserves_refl].
  - by split; [|apply preserves_refl].
Qed.

Lemma state_ok_trans destination d d1 d2 :
  cas_valid d → state_ok destination d d1 → state_ok destination d1 d2 → is_digest_name destination = true →
  state_ok destination d d2.
Proof.
  intros _ [_ H1'] [Hv H2'] Hdest. split; [done|]. intros n Hn.
  destruct (H2' n Hn) as [->|[-> Hn1]]; [by apply H1'|].
  destruct (H1' destination Hn) as [E|[_ E]]; [|by right]. right. split; congruence.
Qed.

(** How a [put] that was admitted ends. *)
Inductive put_outcome (d : cas_dir) (race : option cas_entry) (contents : bytes)
    (trace : list cas_dir) (s' : ImmutableCas) : result CasPut CasError → Prop :=
  | PutRefused e :
      cas_poisoned s' = false → (∀ m, e ≠ CasOutcomeUnknown m) →
      left_in d trace !! to_hex (cas_digest contents) = d !! to_hex (cas_digest contents) ∨
      left_in d trace !! to_hex (cas_digest contents) = race →
      put_outcome d race contents trace s' (Err e)
  | PutUnknown m :
      cas_poisoned s' = true → put_outcome d race contents trace s' (Err (CasOutcomeUnknown m))
  | PutStored disposition c :
      cas_poisoned s' = false →
      left_in d trace !! to_hex (cas_digest contents) = Some (CFile c true) →
      blen c <= MAX_CAS_OBJECT_BYTES → cas_digest c = cas_digest contents →
      (disposition = Published → c = contents) →
      put_outcome d race contents trace s'
        (Ok {| cput_digest := cas_digest contents; cput_disposition := disposition |}).

Lemma verify_object_known io path e expected err m :
  verify_object io path e expected = Err err → err ≠ CasOutcomeUnknown m.
Proof.
  intros Ev ->. unfold verify_object, io_step, io_error, fail_if in Ev.
  repeat case_match; simpl in *; simplify_eq; repeat case_match; simplify_eq.
Qed.

Lemma put_link_states env d s staging contents trace s' r race :
  cas_valid d → is_staging_name staging = true →
  blen contents <= MAX_CAS_OBJECT_BYTES → cas_poisoned s = false →
  put_link env d s staging (cas_digest contents) contents = (trace, s', r) →
  Forall (state_ok (to_hex (cas_digest contents)) d) trace ∧
  put_outcome d race contents trace s' r ∧ cas_lock_poisoned s' = cas_lock_poisoned s.
Proof.
  intros Hd Hs Hlen Hp. set (destination := to_hex (cas_digest contents)).
  unfold put_link, adopt, poison. fold destination.
  assert (staging ≠ destination) as Hne by (intros ->; unfold destination in Hs; by rewrite to_hex_not_staging in Hs).
  assert (state_ok destination d (delete staging d)) as Hdel.
  { split; [by apply map_Forall_delete|]. apply preserves_delete_staging; [done|apply preserves_refl]. }
  assert (state_ok destination d d) as Hrefl by (split; [done|apply preserves_refl]).
  destruct (pu_link env) as [e|].
  { intros [= <- <- <-]. split; [done|]. split; [|done]. constructor; [done|done|by left]. }
  destruct (d !! destination) as [found|] eqn:E.
  - destruct (verify_object _ _ _ _) as [c|e] eqn:Ev.
    + apply verify_object_Ok in Ev as (_ & [= ->] & Hc & Hcd).
      destruct (pu_unlink env), (pu_dirsync env); intros [= <- <- <-];
        (split; [by apply list.Forall_singleton|]); (split; [|done]);
        (by apply PutUnknown) || (eapply PutStored; try done);
        unfold left_in; simpl; by rewrite ?lookup_delete_ne.
    + intros [= <- <- <-]. split; [done|]. split; [|done]. constructor; [done| |by left].
      intros m. by eapply verify_object_known.
  - set (d1 := <[destination := CFile contents true]> d).
    assert (state_ok destination d d1) as H1'.
    { split; [|by apply preserves_insert_destination; [|apply preserves_refl]].
      apply map_Forall_insert_2; [|done]. left. by exists contents. }
    assert (state_ok destination d (delete staging d1)) as H2'.
    { split; [by apply map_Forall_delete, H1'|]. by apply preserves_delete_staging, H1'. }
    destruct (pu_unlink env); [|destruct (pu_faults env DirectorySync); [|destruct (pu_dirsync env)]];
      intros [= <- <- <-]; (split; [by repeat (apply Forall_cons_2; [done|])|]); (split; [|done]);
      (by apply PutUnknown) || (eapply PutStored; try done).
    unfold left_in. simpl. rewrite lookup_delete_ne by done. apply lookup_insert_eq.
Qed.

(** Before the link the destination is untouched. *)
Lemma put_stage_final env d staging contents trace r name :
  put_stage env d staging contents = (trace, r) → name ≠ staging →
  left_in d trace !! name = d !! name.
Proof.
  intros Est Hne. unfold put_stage in Est.
  repeat case_match; simplify_eq; unfold left_in; simpl; by rewrite lookup_insert_ne.
Qed.

Lemma cas_create_staging_known env d digest attempts sequence sequence' e m :
  cas_create_staging env d digest attempts sequence = (sequence', Err e) → e ≠ CasOutcomeUnknown m.
Proof.
  intros Ec ->. revert sequence Ec. induction attempts as [|n IH]; intros sequence; simpl; [done|].
  case_match; [apply IH|]. by case_match.
Qed.

Lemma with_race_lookup env destination d :
  with_race env destination d !! destination = d !! destination ∨
  with_race env destination d !! destination = pu_race env.
Proof.
  unfold with_race. destruct (pu_race env); [|by left]. case_decide; [|by left].
  right. apply lookup_insert_eq.
Qed.

Lemma put_outcome_after d d' race contents trace trace' s r :
  left_in d trace' !! to_hex (cas_digest contents) = left_in d' trace !! to_hex (cas_digest contents) →
  d' !! to_hex (cas_digest contents) = d !! to_hex (cas_digest contents) ∨
  d' !! to_hex (cas_digest contents) = race →
  put_outcome d' race contents trace s r → put_outcome d race contents trace' s r.
Proof.
  intros Hf Hd Ho. destruct Ho as [e ?? Hr|m ?|disp c ?????].
  - constructor; [done..|]. rewrite Hf. destruct Hr as [->| ->]; [|by right]. done.
  - by constructor.
  - econstructor; [done| |done..]. by rewrite Hf.
Qed.

#[local] Arguments cas_create_staging : simpl never.

(** Everything there is to know of one [put] on a valid directory. *)
Lemma put_states env d sequence s contents trace s' sequence' r :
  cas_valid d → race_valid env (to_hex (cas_digest contents)) →
  cas_lock_poisoned s = false → cas_poisoned s = false →
  put env d sequence s contents = (trace, (s', sequence'), r) →
  Forall (state_ok (to_hex (cas_digest contents)) d) trace ∧
  put_outcome d (pu_race env) contents trace s' r ∧ cas_lock_poisoned s' = false.
Proof.
  intros Hd Hrace Hlock Hp. unfold put, lock_operation, require_healthy. rewrite Hlock, Hp. simpl.
  set (destination := to_hex (cas_digest contents)) in *.
  destruct (MAX_CAS_OBJECT_BYTES <? blen contents) eqn:Hlen; bools.
  { intros [= <- <- <- <-]. split_and!; [done| |done]. constructor; [done|done|by left]. }
  destruct (entry_exists (d !! destination)) eqn:Hex.
  - destruct (verify_object _ _ _ _) as [c|e] eqn:Ev.
    + apply verify_object_Ok in Ev as (_ & Hc & Hcl & Hcd). unfold adopt, poison.
      destruct (pu_dirsync env); intros [= <- <- <- <-]; (split_and!; [done| |done]);
        (by apply PutUnknown) || (by eapply PutStored).
    + intros [= <- <- <- <-]. split_and!; [done| |done]. constructor; [done| |by left].
      intros m. by eapply verify_object_known.
  - unfold faults_check. destruct (pu_faults env Allocate).
    { intros [= <- <- <- <-]. split_and!; [done| |done]. constructor; [done|done|by left]. }
    destruct (cas_create_staging _ _ _ _ _) as [seq1 [staging|e]] eqn:Ec.
    2: { intros [= <- <- <- <-]. split_and!; [done| |done]. constructor; [done| |by left].
         intros m. by eapply cas_create_staging_known. }
    apply cas_create_staging_name in Ec as [Hs Hfresh].
    assert (destination ≠ staging) as Hne by (intros <-; unfold destination in Hs; by rewrite to_hex_not_staging in Hs).
    destruct (put_stage env d staging contents) as [tr staged] eqn:Est.
    pose proof (put_stage_states _ _ _ _ _ _ destination Hd Hs Hlen Est) as (Htr & Hfin & Herr).
    pose proof (put_stage_final _ _ _ _ _ _ _ Est Hne) as Hkeep.
    destruct staged as [u|e].
    2: { intros [= <- <- <- <-]. split_and!; [done| |done].
         destruct (Herr e eq_refl) as [m ->]. constructor; [done|done|by left]. }
    specialize (Hfin eq_refl).
    destruct (put_link _ _ _ _ _ _) as [[tr2 s2] r2] eqn:Epl. intros [= <- <- <- <-].
    assert (cas_valid (left_in d tr)) as Hvf by (rewrite Hfin; by apply valid_insert_staging).
    assert (state_ok destination d (left_in d tr)) as Hokf.
    { split; [done|]. rewrite Hfin. apply preserves_insert_staging; [done|apply preserves_refl]. }
    pose proof (with_race_state env destination _ Hrace Hvf) as Hr.
    pose proof (state_ok_trans destination d _ _ Hd Hokf Hr (is_digest_name_to_hex _)) as Hokr.
    eapply put_link_states with (race := pu_race env) in Epl as (Htr2 & Hout & Hlk);
      [|apply Hr|done..].
    split; [|split; [|congruence]].
    + apply Forall_app. split; [done|]. apply Forall_cons_2; [done|].
      eapply Forall_impl; [exact Htr2|]. intros d' Hd'.
      exact (state_ok_trans _ _ _ _ Hd Hokr Hd' (is_digest_name_to_hex _)).
    + eapply put_outcome_after; [| |exact Hout].
      * by rewrite left_in_app, left_in_cons.
      * destruct (with_race_lookup env destination (left_in d tr)) as [E|E]; [left|by right].
        etransitivity; [exact E|exact Hkeep].
Qed.
End CasFacts.

(** ** Properties *)

Section CasTheorems.
Context `{Blake3, HexLaws, StrDebug}.

(** A crash, or any later call, leaves one of the states a [put] goes through. *)
Inductive cas_step (d : cas_dir) : cas_dir → Prop :=
  | CasStep env sequence s contents trace out d' :
      race_valid env (to_hex (cas_digest contents)) →
      put env d sequence s contents = (trace, out.1, out.2) → d' ∈ trace → cas_step d d'.

Definition row_of (row : string * cas_entry) : result (option string * cas_entry) string :=
  Ok (Some (fst row), snd row).

(** A round that succeeds, whatever the environment replies. *)
Lemma validate_entry_sound env s row :
  validate_entry env s row = Ok tt → ∃ name e, row = row_of (name, e) ∧ entry_valid name e.
Proof.
  unfold row_of, validate_entry. intros Hok. destruct row as [[[name|] e]|err]; try done.
  apply res_bind_Ok in Hok as (? & [= <-] & Hok). apply res_bind_Ok in Hok as (? & [= <-] & Hok).
  apply res_bind_Ok in Hok as ([] & _ & Hok). exists name, e. split; [done|].
  destruct (is_digest_name name) eqn:Ed.
  - destruct e as [c r|]; [|done]. destruct (from_hex_total _ Ed) as [dg ->].
    rewrite from_hex_to_hex in Hok. apply res_bind_Ok in Hok as (? & [= <-] & Hok). apply res_bind_Ok in Hok as (c' & Hv & _).
    apply verify_object_Ok in Hv as (_ & [= <- ->] & Hc & <-). left. exists c. split; [done|].
    by split.
  - destruct (is_staging_name name) eqn:Es; [|done]. destruct e as [c r|]; [|done]. right. split; [done|].
    apply res_bind_Ok in Hok as ([] & _ & Hok). apply fail_if_Ok, N.ltb_ge in Hok. eauto.
Qed.

Lemma validate_entry_Ok env s row :
  scan_quiet env →
  (validate_entry env s row = Ok tt ↔ ∃ name e, row = row_of (name, e) ∧ entry_valid name e).
Proof.
  intros Hq. unfold row_of, validate_entry. destruct row as [[[name|] e]|err]; simpl; [|naive_solver..].
  destruct (Hq name) as (Ht & Hm & Hv). rewrite Ht. simpl.
  transitivity (entry_valid name e); [|naive_solver]. unfold entry_valid.
  destruct (is_digest_name name) eqn:Ed.
  - pose proof (digest_not_staging _ Ed) as Hs. unfold staging_valid. rewrite Hs.
    destruct (from_hex_total _ Ed) as [dg ->]. rewrite from_hex_to_hex.
    destruct e as [c r|]; [|unfold object_valid; naive_solver]. simpl.
    destruct (verify_object _ _ _ _) as [c'|err] eqn:Ev; simpl.
    + apply verify_object_Ok in Ev as (_ & [= <- ->] & Hc & <-). split; [|done].
      intros _. left. by exists c.
    + split; [done|]. intros [(c' & [= -> ->] & Hc & Hd%(inj to_hex))|[[=] _]].
      assert (verify_object (se_verify env (to_hex dg)) (object_path s (to_hex dg))
                (Some (CFile c' true)) dg = Ok c') as Hok; [|congruence].
      apply verify_object_Ok. by rewrite <- Hd.
  - destruct (is_staging_name name) eqn:Es.
    + rewrite Hm. destruct e as [c r|]; simpl.
      * rewrite fail_if_Ok, N.ltb_ge. unfold object_valid, staging_valid. split; [naive_solver|].
        intros [(c' & [= -> ->] & _ & ->)|(_ & c' & r' & [= -> ->] & ?)]; [|done].
        by rewrite is_digest_name_to_hex in Ed.
      * unfold object_valid, staging_valid. naive_solver.
    + split; [done|]. intros [(c & -> & _ & ->)|[Hs _]]; [|congruence].
      by rewrite is_digest_name_to_hex in Ed.
Qed.

Lemma cas_open_sound env root rows dirsync s :
  cas_open env root (Ok rows) dirsync = Ok s →
  cas_lock_poisoned s = false ∧ Forall (λ row, ∃ name e, row = row_of (name, e) ∧ entry_valid name e) rows.
Proof.
  unfold cas_open, validate_entries. intros Hok. apply res_bind_Ok in Hok as (r & _ & Hok).
  apply res_bind_Ok in Hok as ([] & Hrows & Hok). apply try_for_Ok in Hrows.
  destruct dirsync; [done|]. injection Hok as <-. split; [done|].
  eapply Forall_impl; [exact Hrows|]. apply validate_entry_sound.
Qed.

(** Opening a store on a readable directory succeeds exactly when every
    entry is an immutable bounded object named by its digest or a bounded
    staging leftover, and the directory sync succeeds; anything else, a name that
    is not UTF-8 included, refuses the whole store. *)
Theorem cas_open_exact env root rows dirsync s :
  scan_quiet env →
  (cas_open env (Ok root) (Ok rows) dirsync = Ok s ↔
   dirsync = None ∧
   s = {| cas_root := root; cas_lock_poisoned := false; cas_poisoned := false |} ∧
   Forall (λ row, ∃ name e, row = row_of (name, e) ∧ entry_valid name e) rows).
Proof.
  intros Hq. unfold cas_open, validate_entries. simpl. rewrite res_bind_Ok. split.
  - intros ([] & Hrows%try_for_Ok & Hs). destruct dirsync; [done|]. injection Hs as <-.
    split_and!; [done..|]. eapply Forall_impl; [exact Hrows|]. intros row.
    by apply validate_entry_Ok.
  - intros (-> & -> & Hrows). exists tt. split; [|done]. apply try_for_Ok.
    eapply Forall_impl; [exact Hrows|]. intros row. by apply validate_entry_Ok.
Qed.

(** C9: a [put] on a valid store, under any file-system reply, injected fault or
    race with another process: every directory state it exposes is valid and
    keeps every object; it poisons the store exactly when it answers
    CAS_OUTCOME_UNKNOWN; any other refusal leaves the destination as it was (or
    as the racing process made it); and success means that an object with the
    digest of the contents is there, byte for byte the contents when this call
    published it.  A poisoned store refuses and touches nothing. *)
Theorem cas_put_crash_safe env d sequence s contents trace s' sequence' r :
  cas_valid d → race_valid env (to_hex (cas_digest contents)) → cas_lock_poisoned s = false →
  put env d sequence s contents = (trace, (s', sequence'), r) →
  (cas_poisoned s = true → trace = [] ∧ s' = s ∧ ∃ m, r = Err (CasOutcomeUnknown m)) ∧
  (cas_poisoned s = false →
     Forall (λ d', cas_valid d' ∧ preserves (to_hex (cas_digest contents)) d d') trace ∧
     put_outcome d (pu_race env) contents trace s' r).
Proof.
  intros Hd Hr Hlock Hput. split; intros Hp.
  - unfold put, lock_operation, require_healthy in Hput. rewrite Hlock, Hp in Hput. simpl in Hput.
    simplify_eq. eauto.
  - eapply put_states in Hput as (Htr & Ho & _); [|done..]. done.
Qed.

Lemma cas_steps_keep d d' :
  cas_valid d → rtc cas_step d d' →
  cas_valid d' ∧
  ∀ name e, is_digest_name name = true → d !! name = Some e → d' !! name = Some e.
Proof.
  intros Hd Hsteps. induction Hsteps as [|d d1 d' [env n s c tr [[s' n'] r] d1' Hrace Hput Hin] _ IH];
    [done|].
  assert (state_ok (to_hex (cas_digest c)) d d1') as [Hv Hp].
  { simpl in Hput. destruct (cas_lock_poisoned s) eqn:El, (cas_poisoned s) eqn:Ep;
      try (unfold put, lock_operation, require_healthy in Hput; rewrite El, ?Ep in Hput;
           simpl in Hput; simplify_eq; by apply elem_of_nil in Hin).
    eapply put_states in Hput as (Htr & _); [|done..]. rewrite Forall_forall in Htr. by apply Htr. }
  destruct (IH Hv) as [Hv' Hkeep]. split; [done|]. intros name e Hname He.
  apply Hkeep; [done|]. destruct (Hp name) as [->|[_ Hn]]; [by apply digest_not_staging|done|congruence].
Qed.

(** C27: whatever sequence of [put]s, crashes and reopens a store goes through, its
    directory stays valid and every object ever stored stays, unchanged. *)
Theorem cas_objects_immutable d d' :
  cas_valid d → rtc cas_step d d' →
  cas_valid d' ∧
  ∀ name e, is_digest_name name = true → d !! name = Some e → d' !! name = Some e.
Proof. apply cas_steps_keep. Qed.

(** C28: reading back what a successful [put] reported, on any directory the store
    reaches later through [put]s, crashes and reopens, gives the bytes that were put, or two
    exact preimages that collide. *)
Theorem cas_put_get env d sequence s contents trace s' sequence' p d' reader io :
  cas_valid d → race_valid env (to_hex (cas_digest contents)) →
  cas_lock_poisoned s = false → cas_poisoned s = false → io_quiet io →
  put env d sequence s contents = (trace, (s', sequence'), Ok p) →
  rtc cas_step (left_in d trace) d' →
  cas_lock_poisoned reader = false → cas_poisoned reader = false →
  cput_digest p = cas_digest contents ∧
  ∃ c, get None io d' reader (cput_digest p) = Ok (Some c) ∧
       (c = contents ∨ collides blake3_hash (frames [as_bytes CAS_DOMAIN; c])
                         (frames [as_bytes CAS_DOMAIN; contents])).
Proof.
  intros Hd Hr Hlock Hp Hio Hput Hpres Hl' Hp'.
  assert (blen contents <= MAX_CAS_OBJECT_BYTES) as Hlen.
  { unfold put, lock_operation, require_healthy in Hput. rewrite Hlock, Hp in Hput. simpl in Hput.
    destruct (MAX_CAS_OBJECT_BYTES <? blen contents) eqn:E; [done|]. by bools. }
  eapply put_states in Hput as (Htr & Ho & _); [|done..].
  assert (cas_valid (left_in d trace)) as Hfv.
  { unfold left_in. destruct (last trace) as [d1|] eqn:El; [|done].
    apply last_Some_elem_of in El. rewrite Forall_forall in Htr. by apply Htr. }
  inversion Ho as [| |disp c Hs Hf Hc Hcd Hpub]; subst. simpl. split; [done|].
  assert (d' !! to_hex (cas_digest contents) = Some (CFile c true)) as Hget.
  { by apply (cas_steps_keep _ _ Hfv Hpres); [apply is_digest_name_to_hex|]. }
  exists c. split.
  - unfold get, lock_operation, require_healthy. rewrite Hl', Hp'. simpl. rewrite Hget.
    apply res_map_Ok. exists c. split; [|done]. by apply verify_object_Ok.
  - unfold cas_digest in Hcd. apply framed_digest_binds in Hcd as [E|?]; [|by right|..].
    + left. by apply cons_fields in E as [_ [E _]%cons_fields].
    + repeat constructor; unfold addressable, isize_max, MAX_CAS_OBJECT_BYTES in *;
        [vm_compute; discriminate|lia].
    + repeat constructor; unfold addressable, isize_max, MAX_CAS_OBJECT_BYTES in *;
        [vm_compute; discriminate|lia].
Qed.
End CasTheorems.

(** ** A concrete store *)
Module CasReference.
Import Reference.

#[export] Instance str_debug_quote : StrDebug := λ s, s.

Definition calm_io : verify_io := {| vio_inspect := None; vio_open := None; vio_read := None |}.
Definition calm_scan : scan_env :=
  {| se_type _ := None; se_verify _ := calm_io; se_metadata _ := None |}.
Definition calm_put : put_env := {|
  pu_pid := 7; pu_faults _ := false; pu_verify := calm_io; pu_create _ := None; pu_write := None;
  pu_readonly := None; pu_sync := None; pu_race := None; pu_link := None; pu_unlink := None;
  pu_dirsync := None
|}.
Definition root : string := "/cas".
Definition opened : ImmutableCas :=
  {| cas_root := root; cas_lock_poisoned := false; cas_poisoned := false |}.
Definition payload : bytes := [x01; x02].
Definition run := put calm_put ∅ 1 opened payload.
Definition stored : cas_dir := left_in ∅ (fst (fst run)).
Definition receipt : CasPut :=
  {| cput_digest := cas_digest payload; cput_disposition := Published |}.

Lemma run_eq : put calm_put ∅ 1 opened payload = (fst (fst run), (opened, 2), Ok receipt).
Proof. vm_compute. reflexivity. Qed.

Lemma calm_race name : race_valid calm_put name.
Proof. by intros e. Qed.

Lemma empty_valid : cas_valid ∅.
Proof. apply map_Forall_empty. Qed.

Lemma payload_entry :
  ∃ name e, row_of (to_hex (cas_digest payload), CFile payload true) = row_of (name, e) ∧ entry_valid name e.
Proof.
  eexists _, _. split; [done|]. left. exists payload. split_and!; [done| |done].
  vm_compute. discriminate.
Qed.

Example cas_open_exact_witness :
  cas_open calm_scan (Ok root) (Ok [row_of (to_hex (cas_digest payload), CFile payload true)]) None
    = Ok opened.
Proof.
  apply (cas_open_exact calm_scan root
           [row_of (to_hex (cas_digest payload), CFile payload true)] None opened).
  - intros n. repeat split.
  - split; [reflexivity|]. split; [reflexivity|]. constructor; [exact payload_entry|constructor].
Defined.

Example cas_put_crash_safe_witness :
  put_outcome ∅ None payload (fst (fst run)) opened (Ok receipt).
Proof.
  exact (proj2 (proj2 (cas_put_crash_safe calm_put ∅ 1 opened payload (fst (fst run)) opened 2
    (Ok receipt) empty_valid (calm_race _) eq_refl run_eq) eq_refl)).
Defined.

Lemma stored_in : stored ∈ fst (fst run).
Proof. apply last_Some_elem_of. vm_compute. reflexivity. Qed.

Lemma stored_step : rtc cas_step ∅ stored.
Proof.
  apply rtc_once. eapply (CasStep _ calm_put 1 opened payload (fst (fst run)) ((opened, 2), Ok receipt)).
  - apply calm_race.
  - exact run_eq.
  - exact stored_in.
Qed.

Example cas_objects_immutable_witness : cas_valid stored.
Proof. exact (proj1 (cas_objects_immutable ∅ stored empty_valid stored_step)). Defined.

Example cas_put_get_witness : cput_digest receipt = cas_digest payload.
Proof.
  refine (proj1 (cas_put_get calm_put ∅ 1 opened payload (fst (fst run)) opened 2 receipt
    stored opened calm_io empty_valid (calm_race _) eq_refl eq_refl _ run_eq _ eq_refl eq_refl)).
  - repeat split.
  - apply rtc_refl.
Defined.
End CasReference.
