(* ===== verification/Generation.v ===== *)
(** [crates/bullet-git-workspace/src/generation.rs], [generation_store.rs],
    [generation/binding.rs] and [tree_copy.rs]: immutable workspace generations
    behind one durable active pointer.

    A work directory is its control files and the tree of every generation
    directory.  Calls that change it are [script]s: they expose each state a
    crash may leave.  The JSON codec of the two control files is a class; every
    other reply of the file system is [ge_io], indexed by the context text of the
    call and the path it is made on. *)

From S2P Require Import Prelude Decimal Digests Ids Journal Disk Cas.

Definition GENERATION_SCHEMA_VERSION : N := 1.
Definition MANIFEST_DOMAIN : string := "bullet-git-generation-manifest-v1".
Definition POINTER_DOMAIN : string := "bullet-git-active-generation-v1".
Definition ACTIVE_FILE : string := "active.json".
Definition GENERATIONS_DIR : string := "generations".
Definition MAX_CONTROL_BYTES : N := 64 * 1024.

Inductive GenerationError : Type :=
  | GenCorrupt (message : string)
  | GenUnsupported (message : string)
  | GenIo (message : string)
  | GenOutcomeUnknown (message : string).

Definition generation_reason_code (e : GenerationError) : string :=
  match e with
  | GenCorrupt _ => "GENERATION_CORRUPT"
  | GenUnsupported _ => "GENERATION_UNSUPPORTED"
  | GenIo _ => "GENERATION_IO_FAILED"
  | GenOutcomeUnknown _ => "GENERATION_OUTCOME_UNKNOWN"
  end.

Definition generation_may_have_published (e : GenerationError) : bool :=
  match e with GenOutcomeUnknown _ => true | _ => false end.

Definition gen_io (context error : string) : GenerationError := GenIo (context +:+ ": " +:+ error).

(** ** Control records *)

Record ParentGeneration : Type := {
  pg_generation : N;
  pg_manifest_digest : Digest
}.

Record GenerationManifest : Type := {
  gm_schema_version : N;
  gm_attempt_id : string;
  gm_workspace_nonce_hex : string;
  gm_generation : N;
  gm_parent : option ParentGeneration;
  gm_checkpoint : Checkpoint;
  gm_manifest_digest : Digest
}.

Record ActivePointer : Type := {
  ap_schema_version : N;
  ap_generation : N;
  ap_manifest_digest : Digest;
  ap_pointer_digest : Digest
}.

(** [serde_json] on the two control records. *)
Class GenerationCodec : Type := {
  encode_manifest : GenerationManifest → result bytes string;
  decode_manifest : bytes → result GenerationManifest string;
  encode_pointer : ActivePointer → result bytes string;
  decode_pointer : bytes → result ActivePointer string
}.

Section Records.
Context `{Blake3, HexCrate}.

Definition manifest_fields (attempt_id nonce_hex : string) (generation : N)
    (parent : option ParentGeneration) (checkpoint : Checkpoint) : list bytes := [
  as_bytes MANIFEST_DOMAIN;
  as_bytes attempt_id;
  as_bytes nonce_hex;
  u64_le_bytes generation;
  as_bytes (match parent with Some _ => "parent" | None => "root" end);
  match parent with Some p => u64_le_bytes (pg_generation p) | None => repeat x00 8 end;
  match parent with Some p => digest_as_bytes (pg_manifest_digest p) | None => repeat x00 32 end;
  digest_as_bytes (ckp_digest checkpoint)
].

Definition manifest_digest (attempt_id nonce_hex : string) (generation : N)
    (parent : option ParentGeneration) (checkpoint : Checkpoint) : Digest :=
  framed_digest (manifest_fields attempt_id nonce_hex generation parent checkpoint).

Definition pointer_digest (generation : N) (manifest : Digest) : Digest :=
  framed_digest [as_bytes POINTER_DOMAIN; u64_le_bytes generation; digest_as_bytes manifest].

(** [GenerationManifest::new] *)
Definition manifest_new (attempt_id workspace_nonce_hex : string) (generation : N)
    (parent : option ParentGeneration) (checkpoint : Checkpoint)
    : result GenerationManifest GenerationError :=
  fail_if (negb (identity_is_valid checkpoint) || bool_decide (ckp_git_tree checkpoint = None))
    (GenCorrupt "generation checkpoint lacks an exact valid Git tree") ;?
  Ok {| gm_schema_version := GENERATION_SCHEMA_VERSION;
        gm_attempt_id := attempt_id;
        gm_workspace_nonce_hex := workspace_nonce_hex;
        gm_generation := generation;
        gm_parent := parent;
        gm_checkpoint := checkpoint;
        gm_manifest_digest :=
          manifest_digest attempt_id workspace_nonce_hex generation parent checkpoint |}.

(** [GenerationManifest::validate] *)
Definition manifest_check (m : GenerationManifest) : result unit GenerationError :=
  let expected := manifest_digest (gm_attempt_id m) (gm_workspace_nonce_hex m) (gm_generation m)
                    (gm_parent m) (gm_checkpoint m) in
  fail_if (negb (gm_schema_version m =? GENERATION_SCHEMA_VERSION)
           || negb (identity_is_valid (gm_checkpoint m))
           || bool_decide (ckp_git_tree (gm_checkpoint m) = None)
           || negb (bool_decide (gm_manifest_digest m = expected)))
    (GenCorrupt "generation manifest identity mismatch").

(** [ActivePointer::new], [ActivePointer::validate] *)
Definition pointer_new (m : GenerationManifest) : ActivePointer :=
  {| ap_schema_version := GENERATION_SCHEMA_VERSION;
     ap_generation := gm_generation m;
     ap_manifest_digest := gm_manifest_digest m;
     ap_pointer_digest := pointer_digest (gm_generation m) (gm_manifest_digest m) |}.

Definition pointer_check (p : ActivePointer) : result unit GenerationError :=
  fail_if (negb (ap_schema_version p =? GENERATION_SCHEMA_VERSION)
           || negb (bool_decide (ap_pointer_digest p
                                 = pointer_digest (ap_generation p) (ap_manifest_digest p))))
    (GenCorrupt "active generation pointer identity mismatch").
End Records.

(** ** Names *)

Definition generation_name (generation : N) : string :=
  "generation-" +:+ dec_fixed 20 generation.

Definition parse_generation_name (name : string) : option N :=
  match strip_prefix "generation-" name with
  | None => None
  | Some suffix =>
      if (slen suffix =? 20) && is_digits suffix then parse_u64_digits suffix else None
  end.

(** ** File trees *)

Inductive node : Type :=
  | NFile (contents : bytes) (mode : N)
  | NDir (mode : N) (entries : list (string * node))
  | NSymlink (target : string)
  | NSpecial.

(** A work directory.  [w_generations] is its [generations] directory when
    that is one (any other entry of that name is not a directory);
    [w_entries] has the other entries. *)
Record wspace : Type := {
  w_is_dir : bool;
  w_entries : gmap string node;
  w_generations : option (gmap string node)
}.

Inductive GenerationBoundary : Type :=
  | GenerationFileSync
  | GenerationRename
  | GenerationDirectorySync
  | PointerWrite
  | PointerFileSync
  | PointerRename
  | PointerDirectorySync.

Definition generation_boundary_debug (b : GenerationBoundary) : string :=
  match b with
  | GenerationFileSync => "GenerationFileSync"
  | GenerationRename => "GenerationRename"
  | GenerationDirectorySync => "GenerationDirectorySync"
  | PointerWrite => "PointerWrite"
  | PointerFileSync => "PointerFileSync"
  | PointerRename => "PointerRename"
  | PointerDirectorySync => "PointerDirectorySync"
  end.

(** The replies of the system: the error of the call with a context on a path,
    what a failing write or copy leaves behind, and the injected faults. *)
Record gen_env : Type := {
  ge_io : string → string → option string;
  ge_pid : N;
  ge_faults : GenerationBoundary → bool;
  ge_written : nat;
  ge_copied : option node
}.

Definition generation_faults_check (env : gen_env) (b : GenerationBoundary)
    : result unit GenerationError :=
  if ge_faults env b
  then Err (GenIo ("injected " +:+ generation_boundary_debug b +:+ " failure")) else Ok tt.

Definition call (env : gen_env) (context path : string) : result unit GenerationError :=
  match ge_io env context path with Some e => Err (gen_io context e) | None => Ok tt end.

Definition not_found : string := "No such file or directory (os error 2)".
Definition file_exists : string := "File exists (os error 17)".
Definition not_empty : string := "Directory not empty (os error 39)".
Definition not_a_directory : string := "Not a directory (os error 20)".
Definition is_a_directory : string := "Is a directory (os error 21)".

Definition join (path name : string) : string := path +:+ "/" +:+ name.

Fixpoint entry_of (l : list (string * node)) (name : string) : option node :=
  match l with
  | [] => None
  | (k, n) :: l => if String.eqb k name then Some n else entry_of l name
  end.

Fixpoint entry_put (l : list (string * node)) (name : string) (n : node) : list (string * node) :=
  match l with
  | [] => [(name, n)]
  | (k, m) :: l => if String.eqb k name then (k, n) :: l else (k, m) :: entry_put l name n
  end.

Definition child (n : option node) (name : string) : option node :=
  match n with Some (NDir _ es) => entry_of es name | _ => None end.

Definition put_child (n : node) (name : string) (c : node) : node :=
  match n with NDir mode es => NDir mode (entry_put es name c) | n => n end.

Definition is_dir (n : option node) : bool :=
  match n with Some (NDir _ _) => true | _ => false end.

(** [require_directory] *)
Definition require_directory (path : string) (n : node) : result unit GenerationError :=
  fail_if (negb (is_dir (Some n))) (GenCorrupt (path +:+ " is not an ordinary directory")).

(** [require_ordinary_directory] *)
Definition require_ordinary_directory (env : gen_env) (path : string) (n : option node)
    : result unit GenerationError :=
  call env "inspect generation root" path ;?
  let? n := ok_or n (gen_io "inspect generation root" not_found) in
  require_directory path n.

(** [read_json] with the decoder of its type. *)
Definition read_json {T} (decode : bytes → result T string) (env : gen_env) (path : string)
    (n : option node) : result T GenerationError :=
  call env "inspect generation control file" path ;?
  match n with
  | None => Err (gen_io "inspect generation control file" not_found)
  | Some (NFile contents _) =>
      fail_if (MAX_CONTROL_BYTES <? blen contents)
        (GenCorrupt ("invalid generation control file " +:+ path)) ;?
      call env "read generation control file" path ;?
      map_err (λ e, GenCorrupt ("invalid control JSON at " +:+ path +:+ ": " +:+ e)) (decode contents)
  | Some _ => Err (GenCorrupt ("invalid generation control file " +:+ path))
  end.

(** ** Copying and syncing trees ([tree_copy.rs]) *)

Definition DIR_MODE : N := 493.
Definition PRIVATE_FILE_MODE : N := 384.
Definition PRIVATE_DIR_MODE : N := 448.

Definition reject_dot_names (name : string) : result unit GenerationError :=
  fail_if (String.eqb name "." || String.eqb name "..") (GenCorrupt "dot path component").

(** The directory loop of [copy_entries]: what was created, and the result. *)
Definition copy_loop (copy : string → node → option node * result unit GenerationError)
    (env : gen_env) (source : string) : list (string * node) →
    list (string * node) * result unit GenerationError :=
  fix loop entries :=
    match entries with
    | [] => ([], Ok tt)
    | (name, n) :: entries =>
        let from := join source name in
        match call env "read generation entry" from ;? reject_dot_names name ;?
              call env "inspect generation entry" from with
        | Err e => ([], Err e)
        | Ok _ =>
            let '(copied, r) := copy from n in
            let here := match copied with Some c => [(name, c)] | None => [] end in
            match r with
            | Err e => (here, Err e)
            | Ok _ => let '(rest, r) := loop entries in (here ++ rest, r)
            end
        end
    end.

(** One entry of [copy_entries], with the recursion on directories. *)
Fixpoint copy_entry (env : gen_env) (from : string) (n : node) {struct n}
    : option node * result unit GenerationError :=
  match n with
  | NDir mode entries =>
      match call env "create copied directory" from with
      | Err e => (None, Err e)
      | Ok _ =>
          match call env "read generation directory" from with
          | Err e => (Some (NDir DIR_MODE []), Err e)
          | Ok _ =>
              let '(copied, r) := copy_loop (copy_entry env) env from entries in
              match r ;? call env "copy directory permissions" from with
              | Err e => (Some (NDir DIR_MODE copied), Err e)
              | Ok _ => (Some (NDir mode copied), Ok tt)
              end
          end
      end
  | NFile contents mode =>
      match call env "copy generation file" from with
      | Err e => (ge_copied env, Err e)
      | Ok _ => (Some (NFile contents mode), call env "copy file permissions" from)
      end
  | NSymlink target =>
      match call env "read generation symlink" from ;? call env "copy generation symlink" from with
      | Err e => (None, Err e)
      | Ok _ => (Some (NSymlink target), Ok tt)
      end
  | NSpecial => (None, Err (GenCorrupt ("special filesystem entry is forbidden: " +:+ from)))
  end.

(** [copy_tree] *)
Definition copy_tree (env : gen_env) (source : string) (n : option node)
    : option node * result unit GenerationError :=
  match call env "inspect source" source with
  | Err e => (None, Err e)
  | Ok _ =>
      match n with
      | None => (None, Err (gen_io "inspect source" not_found))
      | Some (NDir mode entries) =>
          match call env "create generation directory" source with
          | Err e => (None, Err e)
          | Ok _ =>
              match call env "read generation directory" source with
              | Err e => (Some (NDir DIR_MODE []), Err e)
              | Ok _ =>
                  let '(copied, r) := copy_loop (copy_entry env) env source entries in
                  match r ;? call env "copy generation directory permissions" source with
                  | Err e => (Some (NDir DIR_MODE copied), Err e)
                  | Ok _ => (Some (NDir mode copied), Ok tt)
                  end
              end
          end
      | Some n => (None, require_directory source n)
      end
  end.

Definition sync_loop (sync : string → node → result unit GenerationError) (env : gen_env)
    (directory : string) (entries : list (string * node)) : result unit GenerationError :=
  try_for (λ row, let '(name, n) := (row : string * node) in
    call env "read sync entry" (join directory name) ;?
    call env "inspect sync entry" (join directory name) ;?
    sync (join directory name) n) entries.

(** One entry of [sync_entries], with the recursion on directories. *)
Fixpoint sync_entry (env : gen_env) (path : string) (n : node) {struct n}
    : result unit GenerationError :=
  match n with
  | NDir _ entries =>
      call env "read sync directory" path ;?
      sync_loop (sync_entry env) env path entries ;?
      call env "sync generation directory" path
  | NFile _ _ => call env "sync generation file" path
  | NSymlink _ => Ok tt
  | NSpecial => Err (GenCorrupt ("special filesystem entry is forbidden: " +:+ path))
  end.

(** [sync_tree] *)
Definition sync_tree (env : gen_env) (root : string) (n : option node) : result unit GenerationError :=
  call env "inspect sync root" root ;?
  let? n := ok_or n (gen_io "inspect sync root" not_found) in
  require_directory root n ;?
  match n with
  | NDir _ entries =>
      call env "read sync directory" root ;? sync_loop (sync_entry env) env root entries
  | _ => Ok tt
  end ;?
  call env "sync generation root" root.

(** ** The generations directory *)

Section Store.
Context `{Blake3, HexCrate, StrDebug, GenerationCodec}.

Definition unexpected_entry (name : string) : GenerationError :=
  GenCorrupt ("unexpected generation entry " +:+ str_debug name).

(** One listed name in [next_generation]. *)
Definition next_round (env : gen_env) (generations : string) (maximum : option N) (name : string)
    : result (option N) GenerationError :=
  call env "read generation entry" (join generations name) ;?
  match parse_generation_name name with
  | Some number =>
      Ok (Some (match maximum with Some value => N.max value number | None => number end))
  | None =>
      if starts_with ".stage-" name then Ok maximum else Err (unexpected_entry name)
  end.

Definition next_generation (env : gen_env) (generations : string) (names : list string)
    : result N GenerationError :=
  call env "read generations" generations ;?
  let? maximum := try_fold (next_round env generations) None names in
  ok_or (checked_add (default 0 maximum) 1) (GenCorrupt "generation counter overflow").

(** One listed entry in [inspect_generation_entries]. *)
Definition inspect_round (env : gen_env) (generations : string) (row : string * node)
    : result unit GenerationError :=
  let '(name, n) := row in
  call env "read generation entry" (join generations name) ;?
  call env "inspect generation entry" (join generations name) ;?
  fail_if (negb (starts_with ".stage-" name)
             && bool_decide (parse_generation_name name = None)
           || negb (is_dir (Some n))) (unexpected_entry name).

Definition inspect_generation_entries (env : gen_env) (generations : string)
    (entries : list (string * node)) : result unit GenerationError :=
  call env "read generations" generations ;?
  try_for (inspect_round env generations) entries.

Definition read_manifest (env : gen_env) (generations : string) (gens : gmap string node)
    (generation : N) : result GenerationManifest GenerationError :=
  let name := generation_name generation in
  read_json decode_manifest env (join (join generations name) "manifest.json")
    (child (gens !! name) "manifest.json").

(** The loop of [validate_lineage]; [None] is fuel exhaustion. *)
Fixpoint lineage_loop (fuel : nat) (env : gen_env) (generations : string)
    (gens : gmap string node) (attempt_id nonce_hex : string) (current : GenerationManifest)
    : option (result unit GenerationError) :=
  match fuel with
  | O => None
  | S fuel =>
      match gm_parent current with
      | None =>
          Some (if gm_generation current =? 0 then Ok tt
                else Err (GenCorrupt "non-root generation lacks a parent"))
      | Some parent =>
          if gm_generation current <=? pg_generation parent
          then Some (Err (GenCorrupt "generation parent does not precede its child"))
          else
            match (let? prior := read_manifest env generations gens (pg_generation parent) in
                   manifest_check prior ;?
                   fail_if (negb (String.eqb (gm_attempt_id prior) attempt_id)
                            || negb (String.eqb (gm_workspace_nonce_hex prior) nonce_hex)
                            || negb (gm_generation prior =? pg_generation parent)
                            || negb (bool_decide (gm_manifest_digest prior
                                                  = pg_manifest_digest parent)))
                     (GenCorrupt "generation parent identity mismatch") ;?
                   Ok prior) with
            | Err e => Some (Err e)
            | Ok prior => lineage_loop fuel env generations gens attempt_id nonce_hex prior
            end
      end
  end.

(** Enough fuel: every round reads a different generation directory. *)
Definition lineage_fuel (gens : gmap string node) : nat := S (size gens).

Definition out_of_fuel : GenerationError := GenCorrupt "".

Definition validate_lineage (env : gen_env) (generations : string) (gens : gmap string node)
    (active : GenerationManifest) (attempt_id nonce_hex : string) : result unit GenerationError :=
  default (Err out_of_fuel)
    (lineage_loop (lineage_fuel gens) env generations gens attempt_id nonce_hex active).

(** [GenerationStore]; [gs_active_repo] is the [repo] directory of the
    generation directory of that name. *)
Record GenerationStore : Type := {
  gs_work_dir : string;
  gs_attempt_id : string;
  gs_nonce_hex : string;
  gs_active : GenerationManifest;
  gs_active_repo : string
}.

Definition generations_node (w : wspace) : option node :=
  match w_generations w with
  | Some gens => Some (NDir PRIVATE_DIR_MODE (map_to_list gens))
  | None => option_map (λ _, NSymlink "") (w_entries w !! GENERATIONS_DIR)
  end.

Definition work_node (w : wspace) : option node :=
  Some (if w_is_dir w then NDir PRIVATE_DIR_MODE [] else NSymlink "").

(** [GenerationStore::open] *)
Definition generation_open (env : gen_env) (w : wspace) (work_dir attempt_id nonce_hex : string)
    : result GenerationStore GenerationError :=
  require_ordinary_directory env work_dir (work_node w) ;?
  let generations := join work_dir GENERATIONS_DIR in
  require_ordinary_directory env generations (generations_node w) ;?
  let gens := default ∅ (w_generations w) in
  inspect_generation_entries env generations (map_to_list gens) ;?
  let? pointer := read_json decode_pointer env (join work_dir ACTIVE_FILE)
                    (w_entries w !! ACTIVE_FILE) in
  pointer_check pointer ;?
  let name := generation_name (ap_generation pointer) in
  let? manifest := read_manifest env generations gens (ap_generation pointer) in
  manifest_check manifest ;?
  fail_if (negb (String.eqb (gm_attempt_id manifest) attempt_id)
           || negb (String.eqb (gm_workspace_nonce_hex manifest) nonce_hex)
           || negb (gm_generation manifest =? ap_generation pointer)
           || negb (bool_decide (gm_manifest_digest manifest = ap_manifest_digest pointer)))
    (GenCorrupt "active pointer does not bind the requested workspace") ;?
  validate_lineage env generations gens manifest attempt_id nonce_hex ;?
  require_ordinary_directory env (join (join generations name) "repo")
    (child (gens !! name) "repo") ;?
  require_ordinary_directory env (join (join generations name) "journal")
    (child (gens !! name) "journal") ;?
  Ok {| gs_work_dir := work_dir; gs_attempt_id := attempt_id; gs_nonce_hex := nonce_hex;
        gs_active := manifest; gs_active_repo := name |}.
End Store.

(** ** Publication ([generation.rs], [generation_store.rs]) *)

Abbreviation gen_script := (script wspace GenerationError).

#[local] Open Scope script_scope.

Definition with_generations (f : gmap string node → gmap string node) (w : wspace) : wspace :=
  {| w_is_dir := w_is_dir w; w_entries := w_entries w;
     w_generations := option_map f (w_generations w) |}.

Definition with_entries (f : gmap string node → gmap string node) (w : wspace) : wspace :=
  {| w_is_dir := w_is_dir w; w_entries := f (w_entries w); w_generations := w_generations w |}.

Definition generations_of (w : wspace) : gmap string node := default ∅ (w_generations w).

(** The first free name of an allocation loop, by its creation context. *)
Fixpoint first_free (env : gen_env) (context exhausted dir : string) (d : gmap string node)
    (name_of : N → string) (attempts : list N) : result string GenerationError :=
  match attempts with
  | [] => Err (GenIo exhausted)
  | attempt :: attempts =>
      match d !! name_of attempt with
      | Some _ => first_free env context exhausted dir d name_of attempts
      | None => call env context (join dir (name_of attempt)) ;? Ok (name_of attempt)
      end
  end.

Definition stage_name (env : gen_env) (generation attempt : N) : string :=
  ".stage-" +:+ dec_fixed 20 generation +:+ "-" +:+ u64_to_string (ge_pid env) +:+ "-"
  +:+ u64_to_string attempt.

Definition pointer_stage_name (env : gen_env) (generation attempt : N) : string :=
  ".active-stage-" +:+ dec_fixed 20 generation +:+ "-" +:+ u64_to_string (ge_pid env) +:+ "-"
  +:+ u64_to_string attempt.

Definition allocate_staging (env : gen_env) (generations : string) (generation : N)
    : gen_script string :=
  exec name := read (λ w, first_free env "allocate staged generation"
    "could not allocate a unique staged generation" generations (generations_of w)
    (stage_name env generation) attempts_128) in
  step (with_generations (insert name (NDir DIR_MODE []))) ;;
  script_ret name.

Definition allocate_pointer_stage (env : gen_env) (work_dir : string) (generation : N)
    : gen_script string :=
  exec name := read (λ w, first_free env "allocate staged active pointer"
    "could not allocate a unique staged active pointer" work_dir (w_entries w)
    (pointer_stage_name env generation) attempts_128) in
  step (with_entries (insert name (NFile [] PRIVATE_FILE_MODE))) ;;
  script_ret name.

(** A child of a generation directory appears or changes. *)
Definition put_generation_child (dir name : string) (n : node) (gens : gmap string node)
    : gmap string node :=
  alter (λ d, put_child d name n) dir gens.

(** The copy of a tree into [dir/name]. *)
Definition copy_into (env : gen_env) (source : string) (n : wspace → option node) (dir name : string)
    : gen_script unit :=
  exec copied := read (λ w, Ok (copy_tree env source (n w))) in
  match fst copied with
  | Some c => step (with_generations (put_generation_child dir name c))
  | None => script_ret tt
  end ;;
  lift (snd copied).

(** [write_json_to]: the bytes of the control file grow through [put]. *)
Definition write_json_to {T} (encode : T → result bytes string) (env : gen_env) (path : string)
    (put : bytes → wspace → wspace) (value : T) : gen_script unit :=
  exec encoded := lift (map_err (λ e, GenCorrupt ("encode control JSON: " +:+ e)) (encode value)) in
  match call env "write generation control file" path with
  | Err e => step (put (take (ge_written env) (encoded ++ [x0a]))) ;; lift (Err e)
  | Ok _ => step (put (encoded ++ [x0a]))
  end.

(** [write_json] of a control file of the generation directory [dir]. *)
Definition write_json {T} (encode : T → result bytes string) (env : gen_env) (path dir name : string)
    (value : T) : gen_script unit :=
  lift (call env "create generation control file" path) ;;
  read (λ w, fail_if (bool_decide (is_Some (child (generations_of w !! dir) name)))
               (gen_io "create generation control file" file_exists)) ;;
  step (with_generations (put_generation_child dir name (NFile [] PRIVATE_FILE_MODE))) ;;
  write_json_to encode env path
    (λ b, with_generations (put_generation_child dir name (NFile b PRIVATE_FILE_MODE))) value ;;
  lift (call env "sync generation control file" path).

(** [write_json_file] of an entry of the work directory. *)
Definition write_json_file {T} (encode : T → result bytes string) (env : gen_env) (path name : string)
    (value : T) : gen_script unit :=
  lift (call env "open staged generation control file" path) ;;
  step (with_entries (insert name (NFile [] PRIVATE_FILE_MODE))) ;;
  write_json_to encode env path
    (λ b, with_entries (insert name (NFile b PRIVATE_FILE_MODE))) value.

(** [rename] of a generation directory: an empty directory is replaced. *)
Definition rename_generation (env : gen_env) (path from to : string) : gen_script unit :=
  lift (call env "publish generation directory" path) ;;
  exec n := read (λ w, ok_or (generations_of w !! from)
                         (gen_io "publish generation directory" not_found)) in
  read (λ w, match generations_of w !! to with
             | None | Some (NDir _ []) => Ok tt
             | Some (NDir _ _) => Err (gen_io "publish generation directory" not_empty)
             | Some _ => Err (gen_io "publish generation directory" not_a_directory)
             end) ;;
  step (with_generations (λ gens, <[to := n]> (delete from gens))).

(** [replace_pointer] on unix. *)
Definition replace_pointer (env : gen_env) (path from to : string) : gen_script unit :=
  lift (call env "replace active generation pointer" path) ;;
  exec n := read (λ w, ok_or (w_entries w !! from)
                         (gen_io "replace active generation pointer" not_found)) in
  read (λ w, fail_if (is_dir (w_entries w !! to))
               (gen_io "replace active generation pointer" is_a_directory)) ;;
  step (with_entries (λ entries, <[to := n]> (delete from entries))).

Record StagedGeneration : Type := {
  sg_staging_dir : string;
  sg_final_dir : string;
  sg_generation : N
}.

(** [GenerationBootstrap]: its work directory; the generation is number 0. *)
Record GenerationBootstrap : Type := { gb_work_dir : string; gb_generation_dir : string }.

Section Publish.
Context `{Blake3, HexCrate, StrDebug, GenerationCodec}.

(** [GenerationStore::stage] *)
Definition generation_stage (env : gen_env) (store : GenerationStore) : gen_script StagedGeneration :=
  let generations := join (gs_work_dir store) GENERATIONS_DIR in
  let active := join generations (gs_active_repo store) in
  exec generation := read (λ w, next_generation env generations
                                 (map fst (map_to_list (generations_of w)))) in
  exec staging_dir := allocate_staging env generations generation in
  copy_into env (join active "repo")
    (λ w, child (generations_of w !! gs_active_repo store) "repo") staging_dir "repo" ;;
  copy_into env (join active "journal")
    (λ w, child (generations_of w !! gs_active_repo store) "journal") staging_dir "journal" ;;
  script_ret {| sg_staging_dir := staging_dir; sg_final_dir := generation_name generation;
                sg_generation := generation |}.

(** [publish_with], in three parts.  First: the generation directory. *)
Definition publish_generation (env : gen_env) (generations : string) (stage : StagedGeneration)
    (manifest : GenerationManifest) : gen_script unit :=
  let staging := join generations (sg_staging_dir stage) in
  lift (generation_faults_check env GenerationFileSync) ;;
  write_json encode_manifest env (join staging "manifest.json") (sg_staging_dir stage)
    "manifest.json" manifest ;;
  read (λ w, sync_tree env staging (generations_of w !! sg_staging_dir stage)) ;;
  lift (generation_faults_check env GenerationRename) ;;
  rename_generation env staging (sg_staging_dir stage) (sg_final_dir stage) ;;
  lift (generation_faults_check env GenerationDirectorySync) ;;
  lift (call env "sync generations directory" generations).

(** Second: the staged pointer. *)
Definition publish_pointer_stage (env : gen_env) (work_dir : string) (generation : N)
    (manifest : GenerationManifest) : gen_script string :=
  exec pointer_stage := allocate_pointer_stage env work_dir generation in
  lift (generation_faults_check env PointerWrite) ;;
  write_json_file encode_pointer env (join work_dir pointer_stage) pointer_stage
    (pointer_new manifest) ;;
  lift (generation_faults_check env PointerFileSync) ;;
  lift (call env "sync staged active pointer" (join work_dir pointer_stage)) ;;
  script_ret pointer_stage.

(** Third: the switch. *)
Definition publish_switch (env : gen_env) (work_dir pointer_stage : string) : gen_script unit :=
  lift (generation_faults_check env PointerRename) ;;
  replace_pointer env (join work_dir pointer_stage) pointer_stage ACTIVE_FILE ;;
  lift (if ge_faults env PointerDirectorySync
        then Err (GenOutcomeUnknown "injected active-pointer directory-sync failure")
        else match ge_io env "sync active-pointer directory" work_dir with
             | Some e => Err (GenOutcomeUnknown ("sync active-pointer directory: " +:+ e))
             | None => Ok tt
             end).

(** [publish_with]: the store it leaves; on an error that is the old one. *)
Definition generation_publish (env : gen_env) (store : GenerationStore) (stage : StagedGeneration)
    (checkpoint : Checkpoint) : gen_script GenerationStore :=
  let parent := {| pg_generation := gm_generation (gs_active store);
                   pg_manifest_digest := gm_manifest_digest (gs_active store) |} in
  exec manifest := lift (manifest_new (gs_attempt_id store) (gs_nonce_hex store)
                           (sg_generation stage) (Some parent) checkpoint) in
  publish_generation env (join (gs_work_dir store) GENERATIONS_DIR) stage manifest ;;
  exec pointer_stage := publish_pointer_stage env (gs_work_dir store) (sg_generation stage)
                          manifest in
  publish_switch env (gs_work_dir store) pointer_stage ;;
  script_ret {| gs_work_dir := gs_work_dir store; gs_attempt_id := gs_attempt_id store;
                gs_nonce_hex := gs_nonce_hex store; gs_active := manifest;
                gs_active_repo := sg_final_dir stage |}.

(** [create_directory] *)
Definition create_directory (env : gen_env) (path : string) (present : wspace → bool)
    (create : wspace → wspace) : gen_script unit :=
  lift (call env "create generation layout" path) ;;
  read (λ w, fail_if (present w) (gen_io "create generation layout" file_exists)) ;;
  step create ;;
  lift (call env "secure generation directory" path).

(** [GenerationBootstrap::prepare] *)
Definition bootstrap_prepare (env : gen_env) (work_dir : string) : gen_script GenerationBootstrap :=
  let generations := join work_dir GENERATIONS_DIR in
  let name := generation_name 0 in
  read (λ w, require_ordinary_directory env work_dir (work_node w)) ;;
  create_directory env generations
    (λ w, bool_decide (is_Some (generations_node w)))
    (λ w, {| w_is_dir := w_is_dir w; w_entries := w_entries w; w_generations := Some ∅ |}) ;;
  create_directory env (join generations name)
    (λ w, bool_decide (is_Some (generations_of w !! name)))
    (with_generations (insert name (NDir PRIVATE_DIR_MODE []))) ;;
  create_directory env (join (join generations name) "journal")
    (λ w, bool_decide (is_Some (child (generations_of w !! name) "journal")))
    (with_generations (put_generation_child name "journal" (NDir PRIVATE_DIR_MODE []))) ;;
  script_ret {| gb_work_dir := work_dir; gb_generation_dir := name |}.

(** [write_initial_pointer] *)
Definition write_initial_pointer (env : gen_env) (work_dir : string) (pointer : ActivePointer)
    : gen_script unit :=
  exec stage := allocate_pointer_stage env work_dir (ap_generation pointer) in
  write_json_file encode_pointer env (join work_dir stage) stage pointer ;;
  lift (call env "sync initial active pointer" (join work_dir stage)) ;;
  replace_pointer env (join work_dir stage) stage ACTIVE_FILE ;;
  lift (call env "sync initial active pointer directory" work_dir).

(** [GenerationBootstrap::finish] *)
Definition bootstrap_finish (env : gen_env) (b : GenerationBootstrap) (attempt_id nonce_hex : string)
    (checkpoint : Checkpoint) : gen_script GenerationStore :=
  let generations := join (gb_work_dir b) GENERATIONS_DIR in
  let dir := join generations (gb_generation_dir b) in
  exec manifest := lift (manifest_new attempt_id nonce_hex 0 None checkpoint) in
  write_json encode_manifest env (join dir "manifest.json") (gb_generation_dir b)
    "manifest.json" manifest ;;
  read (λ w, sync_tree env dir (generations_of w !! gb_generation_dir b)) ;;
  lift (call env "sync initial generations directory" generations) ;;
  write_initial_pointer env (gb_work_dir b) (pointer_new manifest) ;;
  script_ret {| gs_work_dir := gb_work_dir b; gs_attempt_id := attempt_id;
                gs_nonce_hex := nonce_hex; gs_active := manifest;
                gs_active_repo := gb_generation_dir b |}.

(** ** The public binding ([generation/binding.rs]) *)

Record GenerationParentBinding : Type := { gpb_generation : N; gpb_manifest_digest : Digest }.

Record ActiveGenerationBinding : Type := {
  agb_generation : N;
  agb_parent : option GenerationParentBinding;
  agb_manifest_digest : Digest;
  agb_pointer_digest : Digest;
  agb_checkpoint : Checkpoint
}.

(** [GenerationStore::binding] *)
Definition generation_binding (store : GenerationStore) : ActiveGenerationBinding :=
  let active := gs_active store in
  {| agb_generation := gm_generation active;
     agb_parent := option_map (λ p, {| gpb_generation := pg_generation p;
                                       gpb_manifest_digest := pg_manifest_digest p |})
                     (gm_parent active);
     agb_manifest_digest := gm_manifest_digest active;
     agb_pointer_digest := pointer_digest (gm_generation active) (gm_manifest_digest active);
     agb_checkpoint := gm_checkpoint active |}.
End Publish.

(** ** What a readable work directory is *)

Section GenerationSpec.
Context `{Blake3, HexCrate, GenerationCodec}.

Definition gen_entry_ok (name : string) (n : node) : Prop :=
  (starts_with ".stage-" name = true ∨ is_Some (parse_generation_name name)) ∧
  is_dir (Some n) = true.

(** The control file [n] holds [value]. *)
Definition control_file {T} (decode : bytes → result T string) (n : option node) (value : T) : Prop :=
  ∃ b mode, n = Some (NFile b mode) ∧ blen b <= MAX_CONTROL_BYTES ∧ decode b = Ok value.

Definition has_manifest (gens : gmap string node) (generation : N) (m : GenerationManifest) : Prop :=
  control_file decode_manifest (child (gens !! generation_name generation) "manifest.json") m ∧
  manifest_check m = Ok tt ∧ gm_generation m = generation.

(** An unbroken chain of manifests, each named by its child's digest, down to
    generation zero. *)
Inductive lineage (gens : gmap string node) (attempt_id nonce_hex : string)
    : GenerationManifest → Prop :=
  | lineage_root m :
      gm_parent m = None → gm_generation m = 0 → lineage gens attempt_id nonce_hex m
  | lineage_child m p prior :
      gm_parent m = Some p → pg_generation p < gm_generation m →
      has_manifest gens (pg_generation p) prior →
      gm_attempt_id prior = attempt_id → gm_workspace_nonce_hex prior = nonce_hex →
      gm_manifest_digest prior = pg_manifest_digest p →
      lineage gens attempt_id nonce_hex prior → lineage gens attempt_id nonce_hex m.

Record opens (w : wspace) (store : GenerationStore) : Prop := {
  op_dir : w_is_dir w = true;
  op_generations : is_Some (w_generations w);
  op_entries : map_Forall gen_entry_ok (generations_of w);
  op_pointer : ∃ p, control_file decode_pointer (w_entries w !! ACTIVE_FILE) p ∧
                    pointer_check p = Ok tt ∧
                    ap_generation p = gm_generation (gs_active store) ∧
                    ap_manifest_digest p = gm_manifest_digest (gs_active store);
  op_manifest : has_manifest (generations_of w) (gm_generation (gs_active store)) (gs_active store);
  op_attempt : gm_attempt_id (gs_active store) = gs_attempt_id store;
  op_nonce : gm_workspace_nonce_hex (gs_active store) = gs_nonce_hex store;
  op_lineage : lineage (generations_of w) (gs_attempt_id store) (gs_nonce_hex store)
                 (gs_active store);
  op_name : gs_active_repo store = generation_name (gm_generation (gs_active store));
  op_repo : is_dir (child (generations_of w !! gs_active_repo store) "repo") = true;
  op_journal : is_dir (child (generations_of w !! gs_active_repo store) "journal") = true
}.

Definition calm (env : gen_env) : Prop := ∀ context path, ge_io env context path = None.
End GenerationSpec.

(** ** Lemmas: trees *)

Lemma node_tree_ind (P : node → Prop) :
  (∀ c m, P (NFile c m)) → (∀ m es, Forall (λ row, P (snd row)) es → P (NDir m es)) →
  (∀ t, P (NSymlink t)) → P NSpecial → ∀ n, P n.
Proof.
  intros Hf Hd Hs Hx. fix IH 1. intros [c m|m es|t|]; [apply Hf| |apply Hs|apply Hx].
  apply Hd. induction es as [|[name n] es IHes]; constructor; [apply IH|apply IHes].
Qed.

(** ** Lemmas: names and control files *)

Lemma call_calm env context path : calm env → call env context path = Ok tt.
Proof. intros Hc. unfold call. by rewrite Hc. Qed.

Lemma parse_generation_name_name n : n <= u64_max → parse_generation_name (generation_name n) = Some n.
Proof.
  intros Hn. unfold parse_generation_name, generation_name. rewrite strip_prefix_app.
  rewrite dec_fixed_slen, dec_fixed_digits. by apply parse_dec_fixed.
Qed.

Lemma stage_not_generation name : starts_with ".stage-" name = true → parse_generation_name name = None.
Proof. intros [r ->]%starts_with_spec. done. Qed.

Lemma generation_not_stage n : starts_with ".stage-" (generation_name n) = false.
Proof. done. Qed.

Lemma entry_of_put l name n name' :
  entry_of (entry_put l name n) name' = if String.eqb name name' then Some n else entry_of l name'.
Proof.
  induction l as [|[k m] l IH]; simpl; [by destruct (String.eqb_spec name name')|].
  destruct (String.eqb_spec k name) as [->|Hk]; simpl.
  - by destruct (String.eqb_spec name name').
  - rewrite IH. destruct (String.eqb_spec k name') as [->|]; [|done].
    destruct (String.eqb_spec name name'); [congruence|done].
Qed.

Lemma child_put_child n name c name' :
  is_dir (Some n) = true →
  child (Some (put_child n name c)) name' =
    if String.eqb name name' then Some c else child (Some n) name'.
Proof. destruct n; simpl; try done. intros _. apply entry_of_put. Qed.

Lemma is_dir_put_child n name c : is_dir (Some (put_child n name c)) = is_dir (Some n).
Proof. by destruct n. Qed.

Lemma read_json_Ok {T} (decode : bytes → result T string) env path n v :
  calm env → (read_json decode env path n = Ok v ↔ control_file decode n v).
Proof.
  intros Hc. unfold read_json, control_file. rewrite !call_calm by done. simpl.
  destruct n as [[b mode| | |]|]; simpl; try naive_solver.
  rewrite res_bind_Ok. setoid_rewrite fail_if_Ok. setoid_rewrite map_err_Ok.
  setoid_rewrite N.ltb_ge. split.
  - intros ([] & ? & ?). eauto.
  - intros (b' & m' & [= <- <-] & ? & ?). by exists tt.
Qed.

(** What succeeds, whatever the environment replies, found what a calm reader does. *)
Lemma read_json_sound {T} (decode : bytes → result T string) env path n v :
  read_json decode env path n = Ok v → control_file decode n v.
Proof.
  unfold read_json, control_file. intros Hok. res_inv. destruct n as [[b mode| | |]|]; try done.
  apply res_bind_Ok in Hok as ([] & Hb & Hd). apply fail_if_Ok, N.ltb_ge in Hb.
  apply res_bind_Ok in Hd as ([] & _ & Hd). apply map_err_Ok in Hd. eauto.
Qed.

Lemma require_ordinary_sound env path n :
  require_ordinary_directory env path n = Ok tt → is_dir n = true.
Proof.
  unfold require_ordinary_directory, require_directory. intros Hok. res_inv.
  destruct n as [n|]; [|done]. simplify_eq. by apply negb_false_iff in Hok.
Qed.

Lemma require_ordinary_Ok env path n :
  calm env → (require_ordinary_directory env path n = Ok tt ↔ is_dir n = true).
Proof.
  intros Hc. unfold require_ordinary_directory, require_directory. rewrite call_calm by done. simpl.
  destruct n as [n|]; simpl; [|done]. rewrite fail_if_Ok. by rewrite negb_false_iff.
Qed.

(** ** Lemmas: the lineage walk *)

(** The generation directories numbered below [bound]. *)
Definition below (bound : N) (row : string * node) : Prop :=
  match parse_generation_name (fst row) with Some n => n < bound | None => False end.
#[export] Instance below_dec bound row : Decision (below bound row).
Proof. unfold below. destruct (parse_generation_name (fst row)); apply _. Defined.

Definition generations_below (bound : N) (gens : gmap string node) : gmap string node :=
  filter (below bound) gens.

Lemma generations_below_lt n bound gens :
  n < bound → n <= u64_max → is_Some (gens !! generation_name n) →
  (size (generations_below n gens) < size (generations_below bound gens))%nat.
Proof.
  intros Hlt Hn [d Hd]. apply map_subset_size. apply map_subset_alt. split.
  - apply map_subseteq_spec. intros k v. unfold generations_below.
    rewrite !map_lookup_filter_Some. unfold below. simpl.
    intros [Hk Hb]. split; [done|]. destruct (parse_generation_name k); [lia|done].
  - exists (generation_name n). unfold generations_below. split.
    + apply map_lookup_filter_None. right. intros v _. unfold below. simpl.
      rewrite parse_generation_name_name by done. lia.
    + exists d. apply map_lookup_filter_Some. split; [done|]. unfold below. simpl.
      by rewrite parse_generation_name_name.
Qed.

Lemma generations_below_size bound gens : (size (generations_below bound gens) <= size gens)%nat.
Proof. apply map_subseteq_size, map_filter_subseteq. Qed.

Section LineageFacts.
Context `{Blake3, HexCrate, StrDebug, GenerationCodec}.

Lemma read_manifest_present env generations gens n m :
  read_manifest env generations gens n = Ok m → is_Some (gens !! generation_name n).
Proof.
  unfold read_manifest, read_json. intros Hok.
  destruct (gens !! generation_name n) as [d|]; [by eexists|].
  apply res_bind_Ok in Hok as (? & _ & Hok). done.
Qed.

(** Termination: the walk reads a different generation directory each round. *)
Lemma lineage_loop_total fuel env generations gens attempt_id nonce_hex current :
  gm_generation current <= u64_max →
  (size (generations_below (gm_generation current) gens) < fuel)%nat →
  ∃ r, lineage_loop fuel env generations gens attempt_id nonce_hex current = Some r.
Proof.
  revert current. induction fuel as [|fuel IH]; intros current Hb Hf; [lia|]. simpl.
  destruct (gm_parent current) as [parent|]; [|by eexists].
  destruct (gm_generation current <=? pg_generation parent) eqn:E; [by eexists|]. bools.
  destruct (read_manifest env generations gens (pg_generation parent)) as [prior|e] eqn:Er;
    [|by eexists].
  simpl. destruct (manifest_check prior ;? _) as [prior'|e] eqn:Ec; [|by eexists].
  res_inv. bools. destruct Hr0 as [[_ Hg] _]. apply IH; [lia|].
  apply read_manifest_present in Er. rewrite Hg.
  eapply Nat.lt_le_trans; [apply generations_below_lt; [exact E|lia|exact Er]|lia].
Qed.

Lemma lineage_loop_more fuel k env generations gens attempt_id nonce_hex current r :
  lineage_loop fuel env generations gens attempt_id nonce_hex current = Some r →
  lineage_loop (fuel + k) env generations gens attempt_id nonce_hex current = Some r.
Proof.
  revert current. induction fuel as [|fuel IH]; intros current; simpl; [done|].
  destruct (gm_parent current) as [parent|]; [|done].
  destruct (gm_generation current <=? pg_generation parent); [done|].
  destruct (res_bind _ _) as [prior|e]; [|done]. apply IH.
Qed.

Lemma lineage_loop_sound fuel env generations gens attempt_id nonce_hex current :
  lineage_loop fuel env generations gens attempt_id nonce_hex current = Some (Ok tt) →
  lineage gens attempt_id nonce_hex current.
Proof.
  revert current. induction fuel as [|fuel IH]; intros current; simpl; [done|].
  destruct (gm_parent current) as [parent|] eqn:Ep.
  - destruct (gm_generation current <=? pg_generation parent) eqn:E; [done|]. bools.
    destruct (res_bind _ _) as [prior|e] eqn:Er; [|done]. intros Hl%IH.
    res_inv. bools. destruct Hr1 as [[[? ?] ?] ?].
    eapply lineage_child; try done. split; [|done].
    by apply read_json_sound in Hr.
  - destruct (N.eqb_spec (gm_generation current) 0); [|done]. intros _. by apply lineage_root.
Qed.

Lemma lineage_loop_complete env generations gens attempt_id nonce_hex current :
  calm env → lineage gens attempt_id nonce_hex current →
  ∃ fuel, lineage_loop fuel env generations gens attempt_id nonce_hex current = Some (Ok tt).
Proof.
  intros Hc. induction 1 as [m Hp Hg|m p prior Hp Hlt (Hcf & Hck & Hg) Ha Hn Hd _ [fuel IH]].
  - exists 1%nat. simpl. by rewrite Hp, Hg.
  - exists (S fuel). simpl. rewrite Hp. apply N.leb_gt in Hlt as ->.
    assert (read_manifest env generations gens (pg_generation p) = Ok prior) as ->
      by (by apply read_json_Ok).
    simpl. rewrite Hck. simpl.
    assert (negb (String.eqb (gm_attempt_id prior) attempt_id)
            || negb (String.eqb (gm_workspace_nonce_hex prior) nonce_hex)
            || negb (gm_generation prior =? pg_generation p)
            || negb (bool_decide (gm_manifest_digest prior = pg_manifest_digest p)) = false) as ->.
    { bools. by rewrite Ha, Hn, Hg, Hd. }
    simpl. exact IH.
Qed.

Lemma validate_lineage_Ok env generations gens attempt_id nonce_hex m :
  calm env → gm_generation m <= u64_max →
  (validate_lineage env generations gens m attempt_id nonce_hex = Ok tt ↔
   lineage gens attempt_id nonce_hex m).
Proof.
  intros Hc Hm. unfold validate_lineage.
  destruct (lineage_loop_total (lineage_fuel gens) env generations gens attempt_id nonce_hex m Hm)
    as [r Hr].
  { unfold lineage_fuel. pose proof (generations_below_size (gm_generation m) gens). lia. }
  rewrite Hr. simpl. split.
  - intros ->. by eapply lineage_loop_sound.
  - intros Hl. destruct (lineage_loop_complete env generations gens attempt_id nonce_hex m Hc Hl)
      as [fuel Hf].
    apply (lineage_loop_more _ (lineage_fuel gens)) in Hf.
    apply (lineage_loop_more _ fuel) in Hr. rewrite Nat.add_comm in Hr. congruence.
Qed.

Lemma lineage_manifests gens gens' attempt_id nonce_hex m :
  (∀ n x, child (gens !! generation_name n) "manifest.json" = Some x →
          child (gens' !! generation_name n) "manifest.json" = Some x) →
  lineage gens attempt_id nonce_hex m → lineage gens' attempt_id nonce_hex m.
Proof.
  intros Hg. induction 1 as [m Hp Hm|m p prior Hp Hlt (Hcf & Hck & Hgp) Ha Hn Hd _ IH].
  - by apply lineage_root.
  - eapply lineage_child; try done. split; [|done].
    destruct Hcf as (b & mode & Hch & ?). exists b, mode. split; [|done]. by apply Hg.
Qed.

Lemma lineage_mono gens gens' attempt_id nonce_hex m :
  (∀ n d, gens !! generation_name n = Some d → gens' !! generation_name n = Some d) →
  lineage gens attempt_id nonce_hex m → lineage gens' attempt_id nonce_hex m.
Proof.
  intros Hg. apply lineage_manifests. intros n x.
  destruct (gens !! generation_name n) as [d|] eqn:E; [|done]. by rewrite (Hg _ _ E).
Qed.

Lemma inspect_round_sound env generations row :
  inspect_round env generations row = Ok tt → gen_entry_ok (fst row) (snd row).
Proof.
  destruct row as [name n]. unfold inspect_round, gen_entry_ok. intros Hok. res_inv. bools.
  unfold is_Some. cbn [fst snd].
  destruct (parse_generation_name name); naive_solver.
Qed.

Lemma inspect_round_calm env generations row :
  calm env → gen_entry_ok (fst row) (snd row) → inspect_round env generations row = Ok tt.
Proof.
  destruct row as [name n]. intros Hc. unfold inspect_round, gen_entry_ok. rewrite !call_calm by done.
  cbn [res_bind fst snd]. rewrite fail_if_Ok, orb_false_iff, andb_false_iff, !negb_false_iff.
  rewrite bool_decide_eq_false. unfold is_Some.
  destruct (parse_generation_name name); naive_solver.
Qed.

Lemma manifest_binding m attempt_id nonce_hex p :
  negb (String.eqb (gm_attempt_id m) attempt_id)
  || negb (String.eqb (gm_workspace_nonce_hex m) nonce_hex)
  || negb (gm_generation m =? ap_generation p)
  || negb (bool_decide (gm_manifest_digest m = ap_manifest_digest p)) = false ↔
  gm_attempt_id m = attempt_id ∧ gm_workspace_nonce_hex m = nonce_hex ∧
  gm_generation m = ap_generation p ∧ gm_manifest_digest m = ap_manifest_digest p.
Proof. bools. naive_solver. Qed.

Lemma validate_lineage_sound env generations gens m attempt_id nonce_hex :
  validate_lineage env generations gens m attempt_id nonce_hex = Ok tt →
  lineage gens attempt_id nonce_hex m.
Proof.
  unfold validate_lineage. destruct (lineage_loop _ _ _ _ _ _ _) as [r|] eqn:E; [|done].
  simpl. intros ->. by eapply lineage_loop_sound.
Qed.

(** Whatever opens, opens to what its directory serves. *)
Lemma generation_open_sound env w work_dir attempt_id nonce_hex store :
  generation_open env w work_dir attempt_id nonce_hex = Ok store →
  opens w store ∧ gs_work_dir store = work_dir ∧ gs_attempt_id store = attempt_id ∧
  gs_nonce_hex store = nonce_hex.
Proof.
  unfold generation_open, inspect_generation_entries. intros Hok. res_inv. simpl.
  apply require_ordinary_sound in Hr, Hr0, Hr8, Hr9.
  apply try_for_Ok in Hr1. apply read_json_sound in Hr2, Hr4. apply manifest_binding in Hr6 as (Ha & Hn & Hg & Hd).
  apply validate_lineage_sound in Hr7. split; [|done]. constructor; simpl.
  + unfold work_node in Hr. by destruct (w_is_dir w).
  + unfold generations_node in Hr0. destruct (w_generations w); [by eexists|].
    by destruct (w_entries w !! GENERATIONS_DIR).
  + apply map_Forall_to_list. eapply Forall_impl; [exact Hr1|]. intros [name n]. apply (inspect_round_sound _ _ (name, n)).
  + exists r2. by rewrite Hg, Hd.
  + rewrite Hg. by split.
  + done.
  + done.
  + done.
  + by rewrite Hg.
  + done.
  + done.
Qed.

(** Opening, for a reader whose calls succeed. *)
Lemma generation_open_Ok env w work_dir attempt_id nonce_hex store :
  calm env → (∀ b p, decode_pointer b = Ok p → ap_generation p <= u64_max) →
  (generation_open env w work_dir attempt_id nonce_hex = Ok store ↔
   opens w store ∧ gs_work_dir store = work_dir ∧ gs_attempt_id store = attempt_id ∧
   gs_nonce_hex store = nonce_hex).
Proof.
  intros Hc Hwidth. split; [apply generation_open_sound|]. unfold generation_open, inspect_generation_entries.
  rewrite call_calm by done. simpl.
  intros ([Hdir [gens Hgens] Hent (p & Hp & Hpc & Hpg & Hpd) (Hm & Hmc & _) Ha Hn Hl Hname Hrepo Hjrn]
            & <- & <- & <-).
    assert (ap_generation p <= u64_max) as Hpw.
    { destruct Hp as (pb & pm & _ & _ & Hdec). by eapply Hwidth. }
    unfold generations_of in *. rewrite Hgens in *. simpl in *.
    assert (is_dir (work_node w) = true) as Hr by (unfold work_node; by rewrite Hdir).
    assert (is_dir (generations_node w) = true) as Hr0 by (unfold generations_node; by rewrite Hgens).
    apply (require_ordinary_Ok env (gs_work_dir store) _ Hc) in Hr.
    apply (require_ordinary_Ok env (join (gs_work_dir store) GENERATIONS_DIR) _ Hc) in Hr0.
    rewrite Hr, Hr0. simpl.
    assert (try_for (inspect_round env (join (gs_work_dir store) GENERATIONS_DIR)) (map_to_list gens)
            = Ok tt) as Hr1.
    { apply try_for_Ok. apply map_Forall_to_list in Hent. eapply Forall_impl; [exact Hent|].
      intros [name n]. by apply (inspect_round_calm _ _ (name, n)). }
    rewrite Hr1. simpl. apply (read_json_Ok _ env (join (gs_work_dir store) ACTIVE_FILE) _ _ Hc) in Hp.
    rewrite Hp. simpl. rewrite Hpc. simpl.
    assert (read_manifest env (join (gs_work_dir store) GENERATIONS_DIR) gens (ap_generation p)
            = Ok (gs_active store)) as ->.
    { apply (read_json_Ok _ _ _ _ _ Hc). by rewrite Hpg. }
    simpl. rewrite Hmc. simpl. rewrite (proj2 (manifest_binding (gs_active store) _ _ p)) by done. simpl.
    rewrite (proj2 (validate_lineage_Ok _ _ _ _ _ _ Hc ltac:(by rewrite <- Hpg)) Hl). simpl.
    rewrite Hpg, <- Hname.
    rewrite (proj2 (require_ordinary_Ok _ _ _ Hc) Hrepo). simpl.
    rewrite (proj2 (require_ordinary_Ok _ _ _ Hc) Hjrn). simpl. by destruct store.
Qed.
End LineageFacts.

(** ** Lemmas: publication *)

(** What the types of a manifest's fields guarantee. *)
Definition manifest_widths (m : GenerationManifest) : Prop :=
  gm_generation m <= u64_max ∧ (∀ p, gm_parent m = Some p → pg_generation p <= u64_max) ∧
  addressable (as_bytes (gm_attempt_id m)) ∧ addressable (as_bytes (gm_workspace_nonce_hex m)).

Class GenerationCodecLaws `{GenerationCodec} : Prop := {
  decode_encode_manifest m b : encode_manifest m = Ok b → decode_manifest (b ++ [x0a]) = Ok m;
  decode_encode_pointer p b : encode_pointer p = Ok b → decode_pointer (b ++ [x0a]) = Ok p;
  decode_pointer_width b p : decode_pointer b = Ok p → ap_generation p <= u64_max;
  decode_manifest_width b m : decode_manifest b = Ok m → manifest_widths m
}.

(** [w'] keeps what opening [w] reads, and lists only what opening admits. *)
Record keeps (w w' : wspace) : Prop := {
  kp_dir : w_is_dir w' = w_is_dir w;
  kp_active : w_entries w' !! ACTIVE_FILE = w_entries w !! ACTIVE_FILE;
  kp_generations : is_Some (w_generations w');
  kp_entries : map_Forall gen_entry_ok (generations_of w');
  kp_old n d : generations_of w !! generation_name n = Some d →
               generations_of w' !! generation_name n = Some d
}.

Lemma generations_of_with f w :
  is_Some (w_generations w) → generations_of (with_generations f w) = f (generations_of w).
Proof. intros [g Hg]. unfold generations_of, with_generations. simpl. by rewrite Hg. Qed.

Lemma keeps_entries w w' name n :
  keeps w w' → name ≠ ACTIVE_FILE → keeps w (with_entries (insert name n) w').
Proof.
  intros [] Hn. constructor; try done. simpl. by rewrite lookup_insert_ne.
Qed.

Lemma generation_name_not_stage n dir :
  starts_with ".stage-" dir = true → generation_name n ≠ dir.
Proof. intros Hs <-. done. Qed.

Lemma keeps_put_child w w' dir name n :
  keeps w w' → starts_with ".stage-" dir = true →
  keeps w (with_generations (put_generation_child dir name n) w').
Proof.
  intros [] Hs. constructor; try done.
  - unfold with_generations. simpl. destruct kp_generations0 as [g ->]. by eexists.
  - rewrite generations_of_with by done. intros k v. unfold put_generation_child.
    rewrite lookup_alter_Some. intros [(<- & d & Hd & ->)|[_ Hk]].
    + destruct (kp_entries0 _ _ Hd) as [H1' H2']. split; [done|]. by rewrite is_dir_put_child.
    + by apply kp_entries0.
  - intros m d Hd. rewrite generations_of_with by done. unfold put_generation_child.
    rewrite lookup_alter_ne; [by apply kp_old0|].
    intros E. by eapply generation_name_not_stage.
Qed.

Lemma keeps_insert_stage w w' name es mode :
  keeps w w' → starts_with ".stage-" name = true →
  keeps w (with_generations (insert name (NDir mode es)) w').
Proof.
  intros [] Hs. constructor; try done.
  - unfold with_generations. simpl. destruct kp_generations0 as [g ->]. by eexists.
  - rewrite generations_of_with by done. apply map_Forall_insert_2; [|done]. split; [by left|done].
  - intros m d Hd. rewrite generations_of_with by done.
    rewrite lookup_insert_ne; [by apply kp_old0|]. intros E.
    by eapply generation_name_not_stage.
Qed.

Lemma keeps_rename w w' from n number :
  keeps w w' → starts_with ".stage-" from = true → number <= u64_max →
  generations_of w !! generation_name number = None → is_dir (Some n) = true →
  keeps w (with_generations (λ gens, <[generation_name number := n]> (delete from gens)) w').
Proof.
  intros [] Hs Hnum Hnew Hdir. constructor; try done.
  - unfold with_generations. simpl. destruct kp_generations0 as [g ->]. by eexists.
  - rewrite generations_of_with by done. apply map_Forall_insert_2.
    + split; [right; rewrite parse_generation_name_name by done; by eexists|done].
    + by apply map_Forall_delete.
  - intros m d Hd. rewrite generations_of_with by done. rewrite lookup_insert_ne by congruence.
    rewrite lookup_delete_ne; [by apply kp_old0|]. intros E.
    by eapply generation_name_not_stage.
Qed.

Section PublishFacts.
Context `{Blake3, HexCrate, StrDebug, GenerationCodecLaws}.

Lemma opens_keeps w w' store : opens w store → keeps w w' → opens w' store.
Proof.
  intros [Hdir [g Hg] Hent Hp (Hm & Hmc & Hmg) Ha Hn Hl Hname Hrepo Hjrn] [Kd Ka Kg Ke Ko].
  assert (∀ n name x, child (generations_of w !! generation_name n) name = Some x →
            child (generations_of w' !! generation_name n) name = Some x) as Hchild.
  { intros n name x. destruct (generations_of w !! generation_name n) as [d|] eqn:E; [|done].
    by rewrite (Ko _ _ E). }
  assert (∀ n name, is_dir (child (generations_of w !! generation_name n) name) = true →
            is_dir (child (generations_of w' !! generation_name n) name) = true) as Hcd.
  { intros n name. destruct (child (generations_of w !! _) name) as [x|] eqn:E; [|done].
    by rewrite (Hchild _ _ _ E). }
  constructor; try done.
  - by rewrite Kd.
  - by rewrite Ka.
  - split; [|done]. destruct Hm as (b & mode & Hb & ?). exists b, mode. split; [|done].
    by apply Hchild.
  - by eapply lineage_mono.
  - rewrite Hname in *. by apply Hcd.
  - rewrite Hname in *. by apply Hcd.
Qed.

(** The writers of control files. *)
Lemma write_json_to_spec {T} (encode : T → result bytes string) env path put value w
    (J : wspace → Prop) :
  J w → (∀ b w', J w' → J (put b w')) →
  run_spec w (write_json_to encode env path put value) J
    (λ r w', J w' ∧ (r = Ok tt → ∃ b, encode value = Ok b ∧ w' = put (b ++ [x0a]) w)).
Proof.
  intros Hw Hput. unfold write_json_to. apply run_bind_lift; [done|].
  intros encoded He. apply map_err_Ok in He. destruct (call _ _ _).
  - apply run_step; [by apply Hput|]. split; [by apply Hput|]. eauto.
  - apply run_bind_step; [by apply Hput|]. apply run_lift. split; [by apply Hput|done].
Qed.

Lemma write_json_spec {T} (encode : T → result bytes string) env path dir name value w
    (J : wspace → Prop) :
  J w →
  (∀ w', J w' → is_Some (w_generations w') ∧ is_dir (generations_of w' !! dir) = true) →
  (∀ n w', J w' → J (with_generations (put_generation_child dir name n) w')) →
  run_spec w (write_json encode env path dir name value) J
    (λ r w', J w' ∧ (r = Ok tt → ∃ b, encode value = Ok b ∧
       child (generations_of w' !! dir) name = Some (NFile (b ++ [x0a]) PRIVATE_FILE_MODE) ∧
       ∀ k, k ≠ name → child (generations_of w' !! dir) k = child (generations_of w !! dir) k)).
Proof.
  intros Hw HJ Hput. unfold write_json.
  apply run_bind_lift; [done|]. intros _ _. apply run_bind_read; [done|]. intros _ _.
  apply run_bind_step; [by apply Hput|]. set (w1 := with_generations _ w).
  assert (J w1) as Hw1 by (by apply Hput).
  apply run_bind. eapply run_weaken; [done| |apply write_json_to_spec with (J := J); [done|]].
  2: { intros b w' Hw'. by apply Hput. }
  intros [[]|e] w' [Hw' Hok]; [|done]. destruct (Hok eq_refl) as (b & He & ->).
  apply run_lift. split; [done|]. intros _. exists b. split; [done|].
  destruct (HJ _ Hw) as [Hg Hd]. destruct (HJ _ Hw1) as [Hg1 Hd1].
  rewrite generations_of_with by done. unfold put_generation_child at 1 2.
  rewrite lookup_alter_eq. unfold w1. rewrite generations_of_with by done.
  unfold put_generation_child. rewrite lookup_alter_eq.
  destruct (generations_of w !! dir) as [d|]; [|done]. simpl option_map.
  change (child (Some (put_child (put_child d name (NFile [] PRIVATE_FILE_MODE)) name
            (NFile (b ++ [x0a]) PRIVATE_FILE_MODE))) name = Some (NFile (b ++ [x0a]) PRIVATE_FILE_MODE) ∧
          ∀ k, k ≠ name →
            child (Some (put_child (put_child d name (NFile [] PRIVATE_FILE_MODE)) name
              (NFile (b ++ [x0a]) PRIVATE_FILE_MODE))) k = child (Some d) k).
  split.
  - rewrite child_put_child by (by rewrite is_dir_put_child). by rewrite String.eqb_refl.
  - intros k Hk. rewrite !child_put_child by (by rewrite ?is_dir_put_child).
    destruct (String.eqb_spec name k); [congruence|done].
Qed.

Lemma first_free_Ok env context exhausted dir d name_of attempts name :
  first_free env context exhausted dir d name_of attempts = Ok name →
  d !! name = None ∧ ∃ attempt, name = name_of attempt.
Proof.
  induction attempts as [|a attempts IH]; simpl; [done|].
  destruct (d !! name_of a) eqn:E; [apply IH|]. intros Hok. res_inv. eauto.
Qed.

Lemma pointer_stage_not_active env generation attempt :
  pointer_stage_name env generation attempt ≠ ACTIVE_FILE.
Proof. done. Qed.

Lemma stage_name_starts env generation attempt :
  starts_with ".stage-" (stage_name env generation attempt) = true.
Proof. apply starts_with_spec. unfold stage_name. eauto. Qed.

(** The manifest and the store a publication is about to install. *)
Definition manifest_of (attempt_id nonce_hex : string) (generation : N)
    (parent : option ParentGeneration) (checkpoint : Checkpoint) : GenerationManifest :=
  {| gm_schema_version := GENERATION_SCHEMA_VERSION;
     gm_attempt_id := attempt_id;
     gm_workspace_nonce_hex := nonce_hex;
     gm_generation := generation;
     gm_parent := parent;
     gm_checkpoint := checkpoint;
     gm_manifest_digest := manifest_digest attempt_id nonce_hex generation parent checkpoint |}.

Definition next_manifest (store : GenerationStore) (stage : StagedGeneration) (checkpoint : Checkpoint)
    : GenerationManifest :=
  manifest_of (gs_attempt_id store) (gs_nonce_hex store) (sg_generation stage)
    (Some {| pg_generation := gm_generation (gs_active store);
             pg_manifest_digest := gm_manifest_digest (gs_active store) |}) checkpoint.

Definition next_store (store : GenerationStore) (stage : StagedGeneration) (checkpoint : Checkpoint)
    : GenerationStore :=
  {| gs_work_dir := gs_work_dir store; gs_attempt_id := gs_attempt_id store;
     gs_nonce_hex := gs_nonce_hex store; gs_active := next_manifest store stage checkpoint;
     gs_active_repo := sg_final_dir stage |}.

(** A staging directory with its copied trees, numbered above every generation. *)
Record stage_ready (w : wspace) (store : GenerationStore) (stage : StagedGeneration) : Prop := {
  sr_staging : starts_with ".stage-" (sg_staging_dir stage) = true;
  sr_final : sg_final_dir stage = generation_name (sg_generation stage);
  sr_above : gm_generation (gs_active store) < sg_generation stage;
  sr_width : sg_generation stage <= u64_max;
  sr_fresh : generations_of w !! generation_name (sg_generation stage) = None;
  sr_repo : is_dir (child (generations_of w !! sg_staging_dir stage) "repo") = true;
  sr_journal : is_dir (child (generations_of w !! sg_staging_dir stage) "journal") = true
}.

(** The control files of [m] stay readable: the reader refuses more than 64 KiB. *)
Definition control_fits (m : GenerationManifest) : Prop :=
  (∀ b, encode_manifest m = Ok b → blen b < MAX_CONTROL_BYTES) ∧
  (∀ b, encode_pointer (pointer_new m) = Ok b → blen b < MAX_CONTROL_BYTES).

Lemma manifest_new_Ok attempt_id nonce_hex generation parent checkpoint m :
  manifest_new attempt_id nonce_hex generation parent checkpoint = Ok m →
  m = manifest_of attempt_id nonce_hex generation parent checkpoint ∧ manifest_check m = Ok tt.
Proof.
  unfold manifest_new, manifest_check. intros Hok. res_inv. split; [done|]. simpl.
  apply orb_false_iff in Hr as [Hi Ht]. rewrite Hi, Ht. by rewrite bool_decide_eq_true_2.
Qed.

Lemma pointer_check_new m : pointer_check (pointer_new m) = Ok tt.
Proof. unfold pointer_check. simpl. by rewrite bool_decide_eq_true_2. Qed.

(** The new generation directory, complete, in a state that keeps [w]. *)
Definition same_trees (gens : gmap string node) (from : string) (gens' : gmap string node) (to : string)
    : Prop :=
  child (gens' !! to) "repo" = child (gens !! from) "repo" ∧
  child (gens' !! to) "journal" = child (gens !! from) "journal".

Definition generation_placed (w : wspace) (m : GenerationManifest) (staging name : string)
    (w' : wspace) : Prop :=
  keeps w w' ∧
  (∃ b, encode_manifest m = Ok b ∧
     child (generations_of w' !! name) "manifest.json" = Some (NFile (b ++ [x0a]) PRIVATE_FILE_MODE)) ∧
  same_trees (generations_of w) staging (generations_of w') name ∧
  is_dir (child (generations_of w' !! name) "repo") = true ∧
  is_dir (child (generations_of w' !! name) "journal") = true.

Lemma keeps_refl w store : opens w store → keeps w w.
Proof. intros []. by constructor. Qed.

Lemma publish_generation_spec env generations w store stage m :
  opens w store → stage_ready w store stage →
  run_spec w (publish_generation env generations stage m) (keeps w)
    (λ r w', keeps w w' ∧ (r = Ok tt → generation_placed w m (sg_staging_dir stage) (sg_final_dir stage) w')).
Proof.
  intros Hopen [Hst Hfin Habove Hw Hfresh Hrepo Hjrn]. unfold publish_generation.
  set (staged := λ w', keeps w w' ∧
    same_trees (generations_of w) (sg_staging_dir stage) (generations_of w') (sg_staging_dir stage)).
  assert (staged w) as Hs by (split; [by eapply keeps_refl|by split]).
  apply run_bind_lift; [intros e _; split; [by apply Hs|done]|]. intros _ _.
  apply run_bind. eapply run_weaken;
    [| |apply write_json_spec with (J := staged); [exact Hs| |]].
  - by intros w' [? _].
  - intros [[]|e] w' [[Hk [Hr Hj]] Hok]; [|by split]. destruct (Hok eq_refl) as (b & He & Hb & _).
    assert (is_dir (child (generations_of w' !! sg_staging_dir stage) "repo") = true) as Hrd by (by rewrite Hr).
    assert (is_dir (child (generations_of w' !! sg_staging_dir stage) "journal") = true) as Hjd by (by rewrite Hj).
    apply run_bind_read; [by split|]. intros _ _.
    apply run_bind_lift; [by split|]. intros _ _.
    unfold rename_generation. apply run_bind. apply run_bind_lift; [by split|]. intros _ _.
    apply run_bind_read; [by split|]. intros n Hn. apply ok_or_Ok in Hn.
    apply run_bind_read; [by split|]. intros _ _.
    rewrite Hn in Hr, Hj, Hb, Hrd, Hjd.
    assert (is_dir (Some n) = true) as Hd by (by destruct n).
    pose proof (keeps_rename _ _ _ n (sg_generation stage) Hk Hst Hw Hfresh Hd) as Hk2.
    rewrite <- Hfin in Hk2. apply run_step; [done|].
    set (w2 := with_generations _ w') in *.
    assert (generation_placed w m (sg_staging_dir stage) (sg_final_dir stage) w2) as Hp.
    { split; [done|]. unfold w2, same_trees. rewrite generations_of_with by apply Hk.
      rewrite lookup_insert_eq. eauto 10. }
    apply run_bind_lift; [by split|]. intros _ _. apply run_lift. by split.
  - intros w' [Hk [Hr _]]. split; [apply Hk|]. rewrite <- Hr in Hrepo.
    by destruct (generations_of w' !! _) as [[]|].
  - intros n w' [Hk [Hr Hj]]. split; [by apply keeps_put_child|].
    unfold same_trees in *. rewrite generations_of_with by apply Hk. unfold put_generation_child.
    rewrite lookup_alter_eq. rewrite <- Hr in Hrepo.
    destruct (generations_of w' !! sg_staging_dir stage) as [d|]; [|done]. simpl option_map.
    assert (is_dir (Some d) = true) as Hd by (by destruct d).
    change (child (Some (put_child d "manifest.json" n)) "repo" = child (generations_of w !! sg_staging_dir stage) "repo" ∧
            child (Some (put_child d "manifest.json" n)) "journal" = child (generations_of w !! sg_staging_dir stage) "journal").
    by rewrite !child_put_child.
Qed.

Lemma placed_entries w m staging name w' k n :
  generation_placed w m staging name w' → k ≠ ACTIVE_FILE →
  generation_placed w m staging name (with_entries (insert k n) w').
Proof. intros (Hk & Hrest) Hne. split; [by apply keeps_entries|done]. Qed.

Lemma publish_pointer_stage_spec env work_dir generation w m staging name w1 :
  generation_placed w m staging name w1 →
  run_spec w1 (publish_pointer_stage env work_dir generation m) (generation_placed w m staging name)
    (λ r w', generation_placed w m staging name w' ∧
       ∀ stage, r = Ok stage → stage ≠ ACTIVE_FILE ∧
         ∃ b, encode_pointer (pointer_new m) = Ok b ∧
              w_entries w' !! stage = Some (NFile (b ++ [x0a]) PRIVATE_FILE_MODE)).
Proof.
  intros Hp. unfold publish_pointer_stage, allocate_pointer_stage.
  apply run_bind. apply run_bind_read; [done|]. intros stage Hfree.
  apply first_free_Ok in Hfree as [_ [attempt Hname]].
  assert (stage ≠ ACTIVE_FILE) as Hne by (rewrite Hname; apply pointer_stage_not_active).
  apply run_bind_step; [by apply placed_entries|]. apply run_ret.
  apply run_bind_lift; [by intros; split; [apply placed_entries|]|]. intros _ _.
  unfold write_json_file. apply run_bind.
  apply run_bind_lift; [by intros; split; [apply placed_entries|]|]. intros _ _.
  apply run_bind_step; [by repeat apply placed_entries|].
  eapply run_weaken; [done| |apply write_json_to_spec with (J := generation_placed w m staging name)].
  2: by repeat apply placed_entries.
  2: by intros; apply placed_entries.
  intros [[]|e] w2 [Hp2 Hok]; [|by split].
  destruct (Hok eq_refl) as (b & He & ->).
  apply run_bind_lift; [by split|]. intros _ _. apply run_bind_lift; [by split|]. intros _ _.
  apply run_ret. split; [done|]. intros ? [= <-]. split; [done|]. exists b. split; [done|].
  apply lookup_insert_eq.
Qed.

(** The pointer of a placed generation with a lineage switches the directory to it. *)
Lemma switched_opens w m work_dir attempt_id nonce_hex staging name w' b :
  w_is_dir w' = true → control_fits m → manifest_check m = Ok tt →
  name = generation_name (gm_generation m) → gm_attempt_id m = attempt_id →
  gm_workspace_nonce_hex m = nonce_hex →
  generation_placed w m staging name w' → lineage (generations_of w') attempt_id nonce_hex m →
  encode_pointer (pointer_new m) = Ok b →
  opens (with_entries (insert ACTIVE_FILE (NFile (b ++ [x0a]) PRIVATE_FILE_MODE)) w')
    {| gs_work_dir := work_dir; gs_attempt_id := attempt_id; gs_nonce_hex := nonce_hex;
       gs_active := m; gs_active_repo := name |}.
Proof.
  intros Hdir [Hfm Hfp] Hcheck -> Ha Hn ([Kd Ka Kg Ke Ko] & (mb & Hmb & Hmc) & _ & Hr & Hj) Hl Hb.
  assert (∀ x : bytes, blen x < MAX_CONTROL_BYTES → blen (x ++ [x0a]) <= MAX_CONTROL_BYTES) as Hbl.
  { intros x. unfold blen, MAX_CONTROL_BYTES. rewrite length_app. simpl. lia. }
  constructor; simpl; try done.
  - exists (pointer_new m). rewrite lookup_insert_eq. split; [|split; [apply pointer_check_new|done]].
    exists (b ++ [x0a]), PRIVATE_FILE_MODE. split; [done|]. split; [by apply Hbl, Hfp|].
    by apply decode_encode_pointer.
  - split; [|done]. exists (mb ++ [x0a]), PRIVATE_FILE_MODE.
    split; [exact Hmc|]. split; [by apply Hbl, Hfm|]. by apply decode_encode_manifest.
Qed.

Lemma placed_delete w m staging name w' k :
  generation_placed w m staging name w' → k ≠ ACTIVE_FILE →
  generation_placed w m staging name (with_entries (delete k) w').
Proof.
  intros [[] Hrest] Hne. split; [|done]. constructor; try done. simpl. by rewrite lookup_delete_ne.
Qed.

(** Before the switch no refusal claims that the pointer may have moved. *)
Definition pre_switch (e : GenerationError) : Prop := generation_may_have_published e = false.

Lemma call_pre_switch env context path : refuses pre_switch (call env context path).
Proof. unfold call. destruct (ge_io env context path); [by apply refuses_err|by apply refuses_ok]. Qed.

Lemma faults_pre_switch env b : refuses pre_switch (generation_faults_check env b).
Proof. unfold generation_faults_check. apply refuses_if; [by apply refuses_err|by apply refuses_ok]. Qed.

Lemma require_directory_pre_switch path n : refuses pre_switch (require_directory path n).
Proof. by apply refuses_fail_if. Qed.

#[local] Hint Resolve call_pre_switch faults_pre_switch require_directory_pre_switch : refusals.
#[local] Hint Extern 0 (pre_switch _) => reflexivity : refusals.
Ltac refusals := eauto 20 with refusals.

Lemma sync_entry_pre_switch env path n : refuses pre_switch (sync_entry env path n).
Proof.
  revert path. induction n as [c m|m es IH|t|] using node_tree_ind; intros path; simpl; refusals.
  apply refuses_bind; [refusals|]. intros _. apply refuses_bind; [|refusals].
  apply refuses_try_for. intros [name n] Hin. rewrite Forall_forall in IH.
  apply refuses_bind; [refusals|]. intros _. apply refuses_bind; [refusals|]. intros _.
  apply (IH (name, n) Hin).
Qed.

Lemma sync_tree_pre_switch env path n : refuses pre_switch (sync_tree env path n).
Proof.
  unfold sync_tree. repeat (apply refuses_bind; [refusals|intros ?]); [|refusals].
  destruct a0 as [| m es | |]; refusals.
  apply refuses_bind; [refusals|]. intros _. apply refuses_try_for. intros [name x] _.
  repeat (apply refuses_bind; [refusals|intros ?]). apply sync_entry_pre_switch.
Qed.

Lemma write_json_to_pre_switch {T} (encode : T → result bytes string) env path put v :
  raises pre_switch (write_json_to encode env path put v).
Proof.
  apply raises_bind; [refusals|]. intros b. pose proof (call_pre_switch env "write generation control file" path).
  destruct (call _ _ _); refusals.
Qed.

Lemma first_free_pre_switch env context exhausted dir d name_of attempts :
  refuses pre_switch (first_free env context exhausted dir d name_of attempts).
Proof.
  induction attempts as [|a attempts IH]; simpl; [refusals|].
  destruct (d !! name_of a); refusals.
Qed.

#[local] Hint Resolve sync_tree_pre_switch write_json_to_pre_switch first_free_pre_switch : refusals.

Lemma write_json_pre_switch {T} (encode : T → result bytes string) env path dir name v :
  raises pre_switch (write_json encode env path dir name v).
Proof. unfold write_json. repeat (apply raises_bind; [refusals|intros ?]). refusals. Qed.

Lemma rename_pre_switch env path from to : raises pre_switch (rename_generation env path from to).
Proof.
  unfold rename_generation. repeat (apply raises_bind; [refusals|intros ?]); [|refusals].
  apply raises_read. intros w. destruct (_ !! to) as [[|? [|]| |]|]; refusals.
Qed.

#[local] Hint Resolve write_json_pre_switch rename_pre_switch : refusals.

Lemma publish_generation_pre_switch env generations stage m :
  raises pre_switch (publish_generation env generations stage m).
Proof. unfold publish_generation. repeat (apply raises_bind; [refusals|intros ?]). refusals. Qed.

Lemma publish_pointer_stage_pre_switch env work_dir generation m :
  raises pre_switch (publish_pointer_stage env work_dir generation m).
Proof.
  unfold publish_pointer_stage, allocate_pointer_stage, write_json_file.
  repeat first [apply write_json_to_pre_switch | apply raises_bind; [|intros ?] | progress refusals].
Qed.

(** The old generation active and kept, or the new one with the staged trees. *)
Definition serves_old (w : wspace) (store : GenerationStore) (w' : wspace) : Prop :=
  opens w' store ∧ keeps w w'.
Definition serves_new (w : wspace) (store : GenerationStore) (stage : StagedGeneration)
    (checkpoint : Checkpoint) (w' : wspace) : Prop :=
  opens w' (next_store store stage checkpoint) ∧
  same_trees (generations_of w) (sg_staging_dir stage) (generations_of w') (sg_final_dir stage).

Lemma publish_trees_spec env w store stage checkpoint :
  opens w store → stage_ready w store stage → control_fits (next_manifest store stage checkpoint) →
  run_spec w (generation_publish env store stage checkpoint)
    (λ w', serves_old w store w' ∨ serves_new w store stage checkpoint w')
    (λ r w', match r with
             | Ok s => s = next_store store stage checkpoint ∧ serves_new w store stage checkpoint w'
             | Err e => if generation_may_have_published e then serves_new w store stage checkpoint w'
                        else serves_old w store w'
             end).
Proof.
  intros Hopen Hready Hfits. unfold generation_publish.
  assert (∀ w', keeps w w' → serves_old w store w') as Hold by (intros; split; [by eapply opens_keeps|done]).
  pose proof (keeps_refl _ _ Hopen) as Hself.
  apply run_bind_lift.
  { intros e He. unfold manifest_new in He.
    apply res_bind_Err in He as [He|(? & _ & [=])]. by apply fail_if_Err in He as [_ ->]. }
  intros m Hm. apply manifest_new_Ok in Hm as [-> Hcheck].
  change (manifest_of _ _ _ _ _) with (next_manifest store stage checkpoint) in *.
  apply run_bind. eapply run_weaken;
    [| |eapply run_raises; [apply publish_generation_pre_switch|by eapply publish_generation_spec]].
  { intros w' Hk. left. by apply Hold. }
  intros [[]|e] w1 [[Hk1 Hp1] He1]; [|rewrite (He1 _ eq_refl); by apply Hold].
  specialize (Hp1 eq_refl). apply run_bind. eapply run_weaken;
    [| |eapply run_raises; [apply publish_pointer_stage_pre_switch|by eapply publish_pointer_stage_spec]].
  { intros w' [Hk _]. left. by apply Hold. }
  intros [ps|e] w2 [[Hp2 Hok] He2]; [|rewrite (He2 _ eq_refl); apply Hold, Hp2].
  destruct (Hok _ eq_refl) as (Hne & b & Hb & Hf).
  assert (serves_old w store w2) as Hold2 by apply Hold, Hp2.
  pose proof (proj1 Hold2) as Hopen2.
  unfold publish_switch. apply run_bind. apply run_bind_lift.
  { intros e He. rewrite (faults_pre_switch _ _ _ He). exact Hold2. }
  intros _ _. unfold replace_pointer. apply run_bind. apply run_bind_lift.
  { intros e He. rewrite (call_pre_switch _ _ _ _ He). exact Hold2. }
  intros _ _. apply run_bind_read.
  { intros e He. rewrite Hf in He. done. }
  intros n Hn. apply ok_or_Ok in Hn. rewrite Hf in Hn. injection Hn as <-.
  apply run_bind_read.
  { intros e He. apply fail_if_Err in He as [_ ->]. exact Hold2. }
  intros _ _.
  assert (serves_new w store stage checkpoint (with_entries (insert ACTIVE_FILE (NFile (b ++ [x0a]) PRIVATE_FILE_MODE))
            (with_entries (delete ps) w2))) as Hnew.
  { pose proof (placed_delete _ _ _ _ _ _ Hp2 Hne) as Hp3.
    split; [|apply Hp3]. eapply switched_opens; [|done|done|apply Hready|done|done|exact Hp3| |done].
    - apply Hopen2.
    - eapply lineage_child; [done|apply Hready|apply Hopen2|apply Hopen|apply Hopen|done|apply Hopen2]. }
  apply run_step; [by right|]. apply run_lift.
  destruct (ge_faults env PointerDirectorySync); [done|].
  destruct (ge_io env _ _); [done|]. apply run_ret. done.
Qed.

Lemma publish_spec env w store stage checkpoint :
  opens w store → stage_ready w store stage → control_fits (next_manifest store stage checkpoint) →
  run_spec w (generation_publish env store stage checkpoint)
    (λ w', opens w' store ∨ opens w' (next_store store stage checkpoint))
    (λ r w', match r with
             | Ok s => s = next_store store stage checkpoint ∧ opens w' s
             | Err e => opens w' (if generation_may_have_published e
                                  then next_store store stage checkpoint else store)
             end).
Proof.
  intros Hopen Hready Hfits. eapply run_weaken; [| |by apply publish_trees_spec].
  - intros w' [[? _]|[? _]]; [by left|by right].
  - intros [s'|e] w'; [intros (-> & ? & _); by split|].
    destruct (generation_may_have_published e); by intros [? _].
Qed.
End PublishFacts.

(** ** Lemmas: staging *)

(** A tree that can be copied: no special entry, no dot name. *)
Inductive plain : node → Prop :=
  | plain_file c m : plain (NFile c m)
  | plain_dir m es :
      Forall (λ row, fst row ≠ "." ∧ fst row ≠ ".." ∧ plain (snd row)) es → plain (NDir m es)
  | plain_symlink t : plain (NSymlink t).

Section StageFacts.
Context `{Blake3, HexCrate, StrDebug, GenerationCodecLaws}.

Lemma reject_dot_names_Ok name : reject_dot_names name = Ok tt ↔ name ≠ "." ∧ name ≠ "..".
Proof. unfold reject_dot_names. rewrite fail_if_Ok. bools. tauto. Qed.

Lemma copy_loop_cons copy env source name n es :
  copy_loop copy env source ((name, n) :: es) =
    match call env "read generation entry" (join source name) ;? reject_dot_names name ;?
          call env "inspect generation entry" (join source name) with
    | Err e => ([], Err e)
    | Ok _ =>
        let '(copied, r) := copy (join source name) n in
        let here := match copied with Some c => [(name, c)] | None => [] end in
        match r with
        | Err e => (here, Err e)
        | Ok _ => let '(rest, r) := copy_loop copy env source es in (here ++ rest, r)
        end
    end.
Proof. done. Qed.

(** What a copy that succeeds made is the tree itself. *)
Lemma copy_loop_same copy env source es :
  Forall (λ row, ∀ from c r, copy from (snd row) = (c, r) → r = Ok tt →
            c = Some (snd row) ∧ plain (snd row)) es →
  ∀ copied, copy_loop copy env source es = (copied, Ok tt) →
  copied = es ∧ Forall (λ row, fst row ≠ "." ∧ fst row ≠ ".." ∧ plain (snd row)) es.
Proof.
  induction 1 as [|[name n] es Hn _ IH]; intros copied; [by intros [= <-]|]. rewrite copy_loop_cons.
  destruct (call env "read generation entry" _ ;? _) as [[]|e] eqn:Ed; [|done].
  res_inv. apply reject_dot_names_Ok in Hr0 as [Hd1 Hd2].
  destruct (copy (join source name) n) as [c r] eqn:Ec.
  destruct r as [[]|e]; [|done]. destruct (Hn _ _ _ Ec eq_refl) as [-> Hp].
  destruct (copy_loop copy env source es) as [rest r] eqn:El. intros [= <- ->].
  destruct (IH rest eq_refl) as [-> Hes]. split; [done|]. by constructor.
Qed.

Lemma copy_entry_same env n from c r :
  copy_entry env from n = (c, r) → r = Ok tt → c = Some n ∧ plain n.
Proof.
  revert from c r. induction n as [b m|m es IH|t|] using node_tree_ind; intros from c r; simpl.
  - destruct (call env "copy generation file" from); intros [= <- <-]; [|done]. by split; constructor.
  - destruct (call env "create copied directory" from); [|by intros [= <- <-]].
    destruct (call env "read generation directory" from); [|by intros [= <- <-]].
    destruct (copy_loop (copy_entry env) env from es) as [copied rl] eqn:El.
    destruct (rl ;? _) as [u|e] eqn:Er; [|by intros [= <- <-]].
    intros [= <- <-] _. res_inv. subst rl.
    apply (copy_loop_same _ _ _ _ IH) in El as [-> Hes].
    by split; [|constructor].
  - destruct (call env _ from ;? _); intros [= <- <-]; [|done]. by split; constructor.
  - by intros [= <- <-].
Qed.

Lemma copy_loop_total copy env source es :
  calm env → Forall (λ row, ∀ from, copy from (snd row) = (Some (snd row), Ok tt)) es →
  Forall (λ row : string * node, fst row ≠ "." ∧ fst row ≠ "..") es →
  copy_loop copy env source es = (es, Ok tt).
Proof.
  intros Hc. induction 1 as [|[name n] es Hn _ IH]; [done|]. rewrite copy_loop_cons.
  intros Hd. inversion Hd as [|? ? Hd1 Hd2]; subst. simpl in *.
  rewrite !call_calm by done. simpl. apply reject_dot_names_Ok in Hd1 as ->. simpl.
  by rewrite Hn, IH.
Qed.

Lemma copy_entry_total env n from : calm env → plain n → copy_entry env from n = (Some n, Ok tt).
Proof.
  intros Hc. revert from. induction n as [b m|m es IH|t|] using node_tree_ind; intros from Hp;
    inversion Hp as [|? ? Hes|]; subst; simpl; rewrite ?call_calm by done; simpl; try done.
  rewrite copy_loop_total; [done|done| |].
  - rewrite Forall_forall in IH, Hes |- *. intros row Hin from'. apply IH; [done|].
    by apply (Hes row Hin).
  - eapply Forall_impl; [exact Hes|]. intros row. simpl. tauto.
Qed.

Lemma copy_tree_same env source n c r :
  copy_tree env source n = (c, r) → r = Ok tt → c = n ∧ is_dir n = true ∧ ∀ x, n = Some x → plain x.
Proof.
  unfold copy_tree. destruct (call env "inspect source" source); [|by intros [= <- <-]].
  destruct n as [n|]; [|by intros [= <- <-]].
  destruct n as [b m|m es|t|]; try (by intros [= <- <-]).
  destruct (call env "create generation directory" source); [|by intros [= <- <-]].
  destruct (call env "read generation directory" source); [|by intros [= <- <-]].
  destruct (copy_loop (copy_entry env) env source es) as [copied rl] eqn:El.
  destruct (rl ;? _) as [u|e] eqn:Er; [|by intros [= <- <-]].
  intros [= <- <-] _. res_inv. subst rl. apply copy_loop_same in El as [-> Hes].
  - split; [done|]. split; [done|]. intros x [= <-]. by constructor.
  - apply Forall_forall. intros [name n] _ from c r. apply copy_entry_same.
Qed.

Lemma next_rounds_above env generations names start maximum :
  try_fold (next_round env generations) start names = Ok maximum →
  default 0 start <= default 0 maximum ∧
  ∀ name k, name ∈ names → parse_generation_name name = Some k → k <= default 0 maximum.
Proof.
  revert start. induction names as [|name names IH]; intros start; simpl.
  - intros [= <-]. split; [lia|]. by intros ? ? ?%elem_of_nil.
  - intros Hok. res_inv. apply IH in Hok as [Hle Hall]. unfold next_round in Hr. res_inv.
    assert (default 0 start <= default 0 r ∧
            ∀ k, parse_generation_name name = Some k → k <= default 0 r) as [Hs Hk].
    { destruct (parse_generation_name name) as [number|].
      - injection Hr as <-. simpl. destruct start; simpl; split; [lia| |lia|];
          intros k [= <-]; lia.
      - destruct (starts_with ".stage-" name); [|done]. injection Hr as <-. by split. }
    split; [lia|]. intros name' k [->|Hin]%elem_of_cons Hp; [specialize (Hk k Hp); lia|].
    by eapply Hall.
Qed.

Lemma next_generation_above env generations names n :
  next_generation env generations names = Ok n →
  0 < n <= u64_max ∧ ∀ name k, name ∈ names → parse_generation_name name = Some k → k < n.
Proof.
  unfold next_generation, checked_add. intros Hok. res_inv.
  destruct (default 0 r0 + 1 <=? u64_max) eqn:E; [|done]. injection Hok as <-. bools.
  apply next_rounds_above in Hr0 as [_ Hall]. split; [lia|].
  intros name k Hin Hk. specialize (Hall _ _ Hin Hk). lia.
Qed.

Lemma copy_into_spec env source n dir name w (J : wspace → Prop) :
  J w → (∀ c w', J w' → J (with_generations (put_generation_child dir name c) w')) →
  run_spec w (copy_into env source n dir name) J
    (λ r w', J w' ∧ (r = Ok tt → ∃ c, n w = Some c ∧ is_dir (Some c) = true ∧
               w' = with_generations (put_generation_child dir name c) w)).
Proof.
  intros Hw Hput. unfold copy_into. apply run_bind_read; [done|]. intros [copied r] [= Hcopy].
  simpl. destruct copied as [c|]; [apply run_bind_step; [by apply Hput|]|apply run_bind, run_ret];
    apply run_lift; (split; [auto|]); intros Hr; simpl in Hr.
  - destruct (copy_tree_same _ _ _ _ _ Hcopy Hr) as (Hn & Hd & _). exists c.
    rewrite <- Hn in *. done.
  - destruct (copy_tree_same _ _ _ _ _ Hcopy Hr) as (Hn & Hd & _). rewrite <- Hn in Hd. done.
Qed.

Lemma child_after_put w dir name c k :
  is_Some (w_generations w) → is_dir (generations_of w !! dir) = true →
  child (generations_of (with_generations (put_generation_child dir name c) w) !! dir) k =
    if String.eqb name k then Some c else child (generations_of w !! dir) k.
Proof.
  intros Hg Hd. rewrite generations_of_with by done. unfold put_generation_child.
  rewrite lookup_alter_eq. destruct (generations_of w !! dir) as [d|]; [|done].
  change (option_map (λ d0, put_child d0 name c) (Some d)) with (Some (put_child d name c)).
  apply (child_put_child d name c k Hd).
Qed.

Lemma dir_after_put w dir name c :
  is_Some (w_generations w) →
  is_dir (generations_of (with_generations (put_generation_child dir name c) w) !! dir)
    = is_dir (generations_of w !! dir).
Proof.
  intros Hg. rewrite generations_of_with by done. unfold put_generation_child.
  rewrite lookup_alter_eq. destruct (generations_of w !! dir) as [d|]; [|done].
  apply is_dir_put_child.
Qed.

Lemma generation_stage_spec env w store :
  opens w store → gm_generation (gs_active store) <= u64_max →
  run_spec w (generation_stage env store) (keeps w)
    (λ r w', keeps w w' ∧ ∀ stage, r = Ok stage →
       stage_ready w' store stage ∧
       child (generations_of w' !! sg_staging_dir stage) "repo"
         = child (generations_of w !! gs_active_repo store) "repo" ∧
       child (generations_of w' !! sg_staging_dir stage) "journal"
         = child (generations_of w !! gs_active_repo store) "journal").
Proof.
  intros Hopen Hwidth. pose proof (keeps_refl _ _ Hopen) as Hk0. unfold generation_stage.
  apply run_bind_read; [done|]. intros n Hn. apply next_generation_above in Hn as [Hnw Habove].
  assert (∀ name, is_Some (generations_of w !! name) → name ∈ map fst (map_to_list (generations_of w)))
    as Hlist.
  { intros name [d Hd]. apply (list_elem_of_fmap_2 fst _ (name, d)). by apply elem_of_map_to_list. }
  assert (is_Some (generations_of w !! generation_name (gm_generation (gs_active store)))) as Hact.
  { destruct (op_manifest _ _ Hopen) as [(b & mode & Hb & _) _].
    destruct (generations_of w !! _); [by eexists|done]. }
  assert (gm_generation (gs_active store) < n) as Hlt.
  { eapply Habove; [by apply Hlist|]. by apply parse_generation_name_name. }
  assert (generations_of w !! generation_name n = None) as Hfresh.
  { destruct (generations_of w !! generation_name n) as [d|] eqn:E; [|done].
    assert (n < n); [|lia]. eapply Habove; [apply Hlist; by eexists|].
    apply parse_generation_name_name, Hnw. }
  unfold allocate_staging. apply run_bind. apply run_bind_read; [done|]. intros staging Hfree.
  apply first_free_Ok in Hfree as [_ [attempt Hname]].
  assert (starts_with ".stage-" staging = true) as Hst by (rewrite Hname; apply stage_name_starts).
  apply run_bind_step; [by apply keeps_insert_stage|]. apply run_ret.
  set (w1 := with_generations _ w).
  set (J := λ w', keeps w w' ∧ is_dir (generations_of w' !! staging) = true ∧
                  generations_of w' !! generation_name n = None).
  assert (J w1) as Hj1.
  { split; [by apply keeps_insert_stage|]. unfold w1. rewrite !generations_of_with by apply Hopen.
    rewrite lookup_insert_eq. split; [done|]. rewrite lookup_insert_ne; [done|].
    intros E. by eapply generation_name_not_stage. }
  assert (∀ name c w', J w' → J (with_generations (put_generation_child staging name c) w')) as Hput.
  { intros name c w' (Hk & Hd & Hf). split; [by apply keeps_put_child|]. split.
    - rewrite dir_after_put; [done|apply Hk].
    - rewrite generations_of_with by apply Hk. unfold put_generation_child.
      rewrite lookup_alter_ne; [done|]. intros E. by eapply generation_name_not_stage. }
  assert (∀ w' k, keeps w w' → child (generations_of w' !! gs_active_repo store) k
            = child (generations_of w !! gs_active_repo store) k) as Hsame.
  { intros w' k Hk. rewrite (op_name _ _ Hopen). destruct Hact as [d Hd].
    by rewrite Hd, (kp_old _ _ Hk _ _ Hd). }
  apply run_bind. eapply run_weaken; [| |apply copy_into_spec with (J := J); [done|apply Hput]]; [by intros ? []|].
  intros [[]|e] w2 [Hj2 Hok]; [|by split; [apply Hj2|]].
  destruct (Hok eq_refl) as (c1 & Hc1 & Hd1 & Hw2). rewrite Hsame in Hc1 by apply Hj1.
  apply run_bind. eapply run_weaken; [| |apply copy_into_spec with (J := J); [done|apply Hput]]; [by intros ? []|].
  intros [[]|e] w3 [Hj3 Hok3]; [|by split; [apply Hj3|]].
  destruct (Hok3 eq_refl) as (c2 & Hc2 & Hd2 & Hw3). rewrite Hsame in Hc2 by apply Hj2.
  apply run_ret. split; [apply Hj3|]. intros stage [= <-]. simpl.
  assert (child (generations_of w3 !! staging) "repo" = Some c1) as Hrepo.
  { rewrite Hw3, child_after_put by apply Hj2. simpl. rewrite Hw2, child_after_put by apply Hj1.
    done. }
  assert (child (generations_of w3 !! staging) "journal" = Some c2) as Hjrn.
  { rewrite Hw3, child_after_put by apply Hj2. done. }
  split; [|by rewrite Hrepo, Hjrn, Hc1, Hc2]. constructor; simpl; try done.
  - apply Hnw.
  - apply Hj3.
  - by rewrite Hrepo.
  - by rewrite Hjrn.
Qed.
End StageFacts.

(** ** Lemmas: the first generation *)

Section BootstrapFacts.
Context `{Blake3, HexCrate, StrDebug, GenerationCodecLaws}.

(** A prepared work directory whose repository has been cloned. *)
Record bootstrap_ready (w : wspace) (b : GenerationBootstrap) : Prop := {
  br_dir : w_is_dir w = true;
  br_inactive : w_entries w !! ACTIVE_FILE = None;
  br_generations : is_Some (w_generations w);
  br_entries : map_Forall gen_entry_ok (generations_of w);
  br_name : gb_generation_dir b = generation_name 0;
  br_repo : is_dir (child (generations_of w !! gb_generation_dir b) "repo") = true;
  br_journal : is_dir (child (generations_of w !! gb_generation_dir b) "journal") = true
}.

Definition first_store (b : GenerationBootstrap) (attempt_id nonce_hex : string)
    (checkpoint : Checkpoint) : GenerationStore :=
  {| gs_work_dir := gb_work_dir b; gs_attempt_id := attempt_id; gs_nonce_hex := nonce_hex;
     gs_active := manifest_of attempt_id nonce_hex 0 None checkpoint;
     gs_active_repo := gb_generation_dir b |}.

Definition inactive (w : wspace) : Prop := w_entries w !! ACTIVE_FILE = None.

Lemma bootstrap_finish_spec env w b attempt_id nonce_hex checkpoint :
  bootstrap_ready w b → control_fits (manifest_of attempt_id nonce_hex 0 None checkpoint) →
  run_spec w (bootstrap_finish env b attempt_id nonce_hex checkpoint)
    (λ w', inactive w' ∨ opens w' (first_store b attempt_id nonce_hex checkpoint))
    (λ r w', (inactive w' ∨ opens w' (first_store b attempt_id nonce_hex checkpoint)) ∧
       ∀ s, r = Ok s → s = first_store b attempt_id nonce_hex checkpoint ∧ opens w' s).
Proof.
  intros [Hdir Hin Hg He Hname Hrepo Hjrn] Hfits. unfold bootstrap_finish.
  set (m := manifest_of attempt_id nonce_hex 0 None checkpoint) in *.
  set (new := first_store b attempt_id nonce_hex checkpoint).
  apply run_bind_lift; [by intros; split; [left|]|]. intros m' Hm.
  apply manifest_new_Ok in Hm as [-> Hcheck]. fold m in Hcheck |- *.
  set (ready := λ w', w_is_dir w' = true ∧ inactive w' ∧ is_Some (w_generations w') ∧
    map_Forall gen_entry_ok (generations_of w') ∧
    is_dir (child (generations_of w' !! gb_generation_dir b) "repo") = true ∧
    is_dir (child (generations_of w' !! gb_generation_dir b) "journal") = true).
  assert (ready w) as Hw by done.
  apply run_bind. eapply run_weaken; [| |apply write_json_spec with (J := ready); [done| |]].
  { intros w' Hw'. left. apply Hw'. }
  2: { intros w' (_ & _ & Hg' & _ & Hr & _). split; [done|].
       by destruct (generations_of w' !! _) as [[]|]. }
  2: { intros n w' (Hd & Hi & Hg' & He' & Hr & Hj). split; [done|]. split; [done|].
       assert (is_dir (generations_of w' !! gb_generation_dir b) = true) as Hdd
         by (by destruct (generations_of w' !! _) as [[]|]).
       split; [destruct Hg' as [g Hg']; unfold with_generations; simpl; rewrite Hg'; by eexists|].
       rewrite !child_after_put by done. split; [|done].
       rewrite generations_of_with by done. intros k v. unfold put_generation_child.
       rewrite lookup_alter_Some. intros [(<- & d & Hdk & ->)|[_ Hk]]; [|by apply He'].
       destruct (He' _ _ Hdk) as [? ?]. split; [done|]. by rewrite is_dir_put_child. }
  intros [[]|e] w1 [Hw1 Hok]; [|split; [left; apply Hw1|done]].
  destruct (Hok eq_refl) as (mb & Hmb & Hmc & _). clear Hok.
  destruct Hw1 as (Hd1 & Hi1 & Hg1 & He1 & Hr1 & Hj1).
  apply run_bind_read; [by intros; split; [left|]|]. intros _ _.
  apply run_bind_lift; [by intros; split; [left|]|]. intros _ _.
  assert (generation_placed w1 m (gb_generation_dir b) (gb_generation_dir b) w1) as Hp1.
  { split; [by constructor|]. split; [by exists mb|done]. }
  unfold write_initial_pointer, allocate_pointer_stage.
  assert (∀ w', generation_placed w1 m (gb_generation_dir b) (gb_generation_dir b) w' → inactive w') as Hina.
  { intros w' [[] _]. unfold inactive. by rewrite kp_active0. }
  apply run_bind. apply run_bind. apply run_bind_read; [by intros; split; [left|]|]. intros ps Hfree.
  apply first_free_Ok in Hfree as [_ [attempt Hps]].
  assert (ps ≠ ACTIVE_FILE) as Hne by (rewrite Hps; apply pointer_stage_not_active).
  assert (generation_placed w1 m (gb_generation_dir b) (gb_generation_dir b)
            (with_entries (insert ps (NFile [] PRIVATE_FILE_MODE)) w1)) as Hp2
    by (by apply placed_entries).
  apply run_bind_step; [left; by apply Hina|]. apply run_ret.
  unfold write_json_file. apply run_bind.
  apply run_bind_lift; [by intros; split; [left; apply Hina|]|]. intros _ _.
  apply run_bind_step; [left; by apply Hina, placed_entries|].
  eapply run_weaken;
    [| |apply write_json_to_spec with (J := generation_placed w1 m (gb_generation_dir b) (gb_generation_dir b))].
  { intros w' Hw'. left. by apply Hina. }
  2: by repeat apply placed_entries.
  2: by intros; apply placed_entries.
  intros [[]|e] w2 [Hp3 Hok]; [|split; [left; by apply Hina|done]].
  destruct (Hok eq_refl) as (pb & Hpb & ->).
  apply run_bind_lift; [by intros; split; [left; apply Hina|]|]. intros _ _.
  unfold replace_pointer. apply run_bind. apply run_bind_lift; [by intros; split; [left; apply Hina|]|].
  intros _ _. apply run_bind_read; [by intros; split; [left; apply Hina|]|].
  intros n Hn. apply ok_or_Ok in Hn. simpl in Hn. rewrite lookup_insert_eq in Hn. injection Hn as <-.
  apply run_bind_read; [by intros; split; [left; apply Hina|]|]. intros _ _.
  set (w3 := with_entries (insert ps (NFile (pb ++ [x0a]) PRIVATE_FILE_MODE)) _) in *.
  assert (opens (with_entries (insert ACTIVE_FILE (NFile (pb ++ [x0a]) PRIVATE_FILE_MODE))
            (with_entries (delete ps) w3)) new) as Hnew.
  { pose proof (placed_delete _ _ _ _ _ _ Hp3 Hne) as Hp4.
    eapply switched_opens; [|done|done|done|done|done|exact Hp4| |done]; [done|].
    by apply lineage_root. }
  apply run_step; [by right|]. apply run_lift. destruct (call _ _ _); [|by split; [right|]].
  apply run_ret. split; [by right|]. by intros s [= <-].
Qed.
End BootstrapFacts.

(** ** Lemmas: what a manifest digest commits to *)

Section LineageBinding.
Context `{Blake3, HexCrate, StrDebug, GenerationCodecLaws}.

(** The manifests of a lineage, from [m] down to the root. *)
Inductive lineage_path (gens : gmap string node) : GenerationManifest → list GenerationManifest → Prop :=
  | path_root m : gm_parent m = None → gm_generation m = 0 → lineage_path gens m [m]
  | path_child m p prior ms :
      gm_parent m = Some p → has_manifest gens (pg_generation p) prior →
      gm_manifest_digest prior = pg_manifest_digest p →
      lineage_path gens prior ms → lineage_path gens m (m :: ms).

Definition same_identity (m m' : GenerationManifest) : Prop :=
  gm_attempt_id m = gm_attempt_id m' ∧
  gm_workspace_nonce_hex m = gm_workspace_nonce_hex m' ∧
  gm_generation m = gm_generation m' ∧
  gm_parent m = gm_parent m' ∧
  ckp_digest (gm_checkpoint m) = ckp_digest (gm_checkpoint m').

Definition fields_of (m : GenerationManifest) : list bytes :=
  manifest_fields (gm_attempt_id m) (gm_workspace_nonce_hex m) (gm_generation m) (gm_parent m)
    (gm_checkpoint m).

Definition manifests_collide (m m' : GenerationManifest) : Prop :=
  collides blake3_hash (frames (fields_of m)) (frames (fields_of m')).

Lemma lineage_has_path gens attempt_id nonce_hex m :
  lineage gens attempt_id nonce_hex m → ∃ ms, lineage_path gens m ms.
Proof.
  induction 1 as [m Hp Hg|m p prior Hp Hlt Hm _ _ Hd _ [ms IH]].
  - exists [m]. by constructor.
  - exists (m :: ms). by econstructor.
Qed.

Lemma manifest_check_digest m :
  manifest_check m = Ok tt → gm_manifest_digest m = framed_digest (fields_of m).
Proof. unfold manifest_check. intros Hok. apply fail_if_Ok in Hok. bools. tauto. Qed.

Lemma has_manifest_widths gens n m : has_manifest gens n m → manifest_widths m.
Proof. intros [(b & mode & _ & _ & Hd) _]. by eapply decode_manifest_width. Qed.

Lemma fields_addressable m : manifest_widths m → Forall addressable (fields_of m).
Proof.
  intros (Hg & Hp & Ha & Hn). unfold fields_of, manifest_fields.
  repeat apply Forall_cons_2;
    [vm_compute; discriminate|exact Ha|exact Hn|apply u64_le_addressable| | |
     |apply digest_addressable|apply Forall_nil_2].
  - destruct (gm_parent m); unfold addressable; vm_compute; discriminate.
  - destruct (gm_parent m); [apply u64_le_addressable|unfold addressable; vm_compute; discriminate].
  - destruct (gm_parent m); [apply digest_addressable|unfold addressable; vm_compute; discriminate].
Qed.

Lemma fields_identity m m' :
  manifest_widths m → manifest_widths m' → fields_of m = fields_of m' → same_identity m m'.
Proof.
  intros (Hg & Hp & _) (Hg' & Hp' & _) E. unfold fields_of, manifest_fields in E.
  apply cons_fields in E as [_ E]. apply cons_fields in E as [E1 E]. apply cons_fields in E as [E2 E].
  apply cons_fields in E as [E3 E]. apply cons_fields in E as [E4 E]. apply cons_fields in E as [E5 E].
  apply cons_fields in E as [E6 E]. apply cons_fields in E as [E7 _].
  apply (inj as_bytes) in E1, E2. apply u64_le_bytes_inj in E3; [|done..].
  split_and!; try done; [|by apply digest_eq].
  destruct (gm_parent m) as [[g d]|], (gm_parent m') as [[g' d']|]; try done.
  apply u64_le_bytes_inj in E5; [|by apply (Hp _ eq_refl)|by apply (Hp' _ eq_refl)].
  apply digest_eq in E6. simpl in *. by subst.
Qed.

Lemma digest_binds_identity m m' :
  manifest_check m = Ok tt → manifest_check m' = Ok tt → manifest_widths m → manifest_widths m' →
  gm_manifest_digest m = gm_manifest_digest m' → same_identity m m' ∨ manifests_collide m m'.
Proof.
  intros Hc Hc' Hw Hw' Heq.
  rewrite (manifest_check_digest _ Hc), (manifest_check_digest _ Hc') in Heq.
  destruct (framed_digest_binds _ _ (fields_addressable _ Hw) (fields_addressable _ Hw') Heq)
    as [E|Hcol]; [left|by right]. by apply fields_identity.
Qed.

Lemma lineage_path_head gens m ms : lineage_path gens m ms → m ∈ ms.
Proof. destruct 1; by left. Qed.

Lemma lineage_path_binds gens gens' m m' ms ms' :
  lineage_path gens m ms → lineage_path gens' m' ms' →
  manifest_check m = Ok tt → manifest_check m' = Ok tt → manifest_widths m → manifest_widths m' →
  gm_manifest_digest m = gm_manifest_digest m' →
  Forall2 same_identity ms ms' ∨ ∃ x x', x ∈ ms ∧ x' ∈ ms' ∧ manifests_collide x x'.
Proof.
  intros Hpath. revert m' ms'. induction Hpath as [m Hp Hg|m p prior ms Hp Hm Hd Hpath IH];
    intros m' ms' Hpath' Hc Hc' Hw Hw' Heq;
    destruct (digest_binds_identity m m' Hc Hc' Hw Hw' Heq) as [Hid|Hcol];
    try (right; exists m, m'; split; [by left|]; split; [by eapply lineage_path_head|exact Hcol]);
    pose proof Hid as (_ & _ & _ & Hpar & _); rewrite Hp in Hpar;
    inversion Hpath' as [? Hp' Hg'|? p' prior' ms2 Hp' Hm' Hd' Hpath2]; subst;
    rewrite Hp' in Hpar; try done.
  - left. apply Forall2_cons_2; [exact Hid|apply Forall2_nil_2].
  - injection Hpar as <-.
    destruct (IH _ _ Hpath2) as [Hall|(x & x' & Hx & Hx' & Hcol)].
    + apply Hm.
    + apply Hm'.
    + by eapply has_manifest_widths.
    + by eapply has_manifest_widths.
    + congruence.
    + left. by constructor.
    + right. exists x, x'. split; [by right|]. split; [by right|done].
Qed.
End LineageBinding.

(** ** Properties *)

Section GenerationTheorems.
Context `{Blake3, HexCrate, StrDebug, GenerationCodecLaws}.

(** Reopening the work directory as the owner of [store]. *)
Definition reopens (reader : gen_env) (w : wspace) (store : GenerationStore) : Prop :=
  generation_open reader w (gs_work_dir store) (gs_attempt_id store) (gs_nonce_hex store) = Ok store.

Lemma reopens_opens reader w store : calm reader → (reopens reader w store ↔ opens w store).
Proof.
  intros Hc. unfold reopens. rewrite generation_open_Ok; [naive_solver|done|apply decode_pointer_width].
Qed.

(** C7: publishing a staged generation, whatever call fails and whatever fault
    is injected: every directory state it exposes reopens to the old generation
    or to the new one, complete with its lineage; success leaves the new one and
    returns its store; GENERATION_OUTCOME_UNKNOWN is answered exactly when the
    new one may already be active, and every other refusal leaves the old. *)
Theorem generation_publish_crash_safe reader env w store stage checkpoint trace r :
  calm reader → reopens reader w store → stage_ready w store stage →
  control_fits (next_manifest store stage checkpoint) →
  generation_publish env store stage checkpoint w = (trace, r) →
  Forall (λ w', reopens reader w' store ∨
                reopens reader w' (next_store store stage checkpoint)) trace ∧
  match r with
  | Ok s => s = next_store store stage checkpoint ∧ reopens reader (left_in w trace) s
  | Err e => reopens reader (left_in w trace)
               (if generation_may_have_published e then next_store store stage checkpoint else store)
  end.
Proof.
  intros Hc Hopen Hready Hfits E. apply (reopens_opens _ _ _ Hc) in Hopen.
  pose proof (publish_spec env w store stage checkpoint Hopen Hready Hfits) as [Htr Hr].
  rewrite E in Htr, Hr. simpl in Htr, Hr. split.
  - eapply Forall_impl; [exact Htr|]. intros w'. by rewrite !reopens_opens.
  - destruct r; rewrite reopens_opens by done; exact Hr.
Qed.

(** Staging the next generation never moves the active one, whatever fails;
    a stage it returns is ready to publish: a fresh number above every
    generation directory, without overflow, and exact copies of the active
    repository and journal trees. *)
Theorem generation_stage_ready reader env w store trace r :
  calm reader → reopens reader w store → gm_generation (gs_active store) <= u64_max →
  generation_stage env store w = (trace, r) →
  Forall (λ w', reopens reader w' store) trace ∧
  ∀ stage, r = Ok stage →
    stage_ready (left_in w trace) store stage ∧
    ∀ name, name = "repo" ∨ name = "journal" →
      child (generations_of (left_in w trace) !! sg_staging_dir stage) name
        = child (generations_of w !! gs_active_repo store) name.
Proof.
  intros Hc Hopen Hwidth E. apply (reopens_opens _ _ _ Hc) in Hopen.
  pose proof (generation_stage_spec env w store Hopen Hwidth) as [Htr Hr].
  rewrite E in Htr, Hr. simpl in Htr, Hr. split.
  - eapply Forall_impl; [exact Htr|]. intros w' Hk. rewrite reopens_opens by done.
    by eapply opens_keeps.
  - intros stage Hs. destruct Hr as [_ Hr]. destruct (Hr _ Hs) as (? & ? & ?). split; [done|].
    by intros name [->| ->].
Qed.

(** Installing the first generation: until the pointer is switched the
    directory has no active generation, afterwards it reopens to generation
    zero; success means it does. *)
Theorem bootstrap_finish_opens reader env w b attempt_id nonce_hex checkpoint trace r :
  calm reader → bootstrap_ready w b →
  control_fits (manifest_of attempt_id nonce_hex 0 None checkpoint) →
  bootstrap_finish env b attempt_id nonce_hex checkpoint w = (trace, r) →
  Forall (λ w', inactive w' ∨ reopens reader w' (first_store b attempt_id nonce_hex checkpoint)) trace ∧
  ∀ s, r = Ok s →
    s = first_store b attempt_id nonce_hex checkpoint ∧ reopens reader (left_in w trace) s.
Proof.
  intros Hc Hready Hfits E.
  pose proof (bootstrap_finish_spec env w b attempt_id nonce_hex checkpoint Hready Hfits) as [Htr Hr].
  rewrite E in Htr, Hr. simpl in Htr, Hr. split.
  - eapply Forall_impl; [exact Htr|]. intros w'. by rewrite reopens_opens.
  - destruct Hr as [_ Hr]. intros s Hs. destruct (Hr _ Hs). by rewrite reopens_opens.
Qed.

(** C38: the lineage walk always ends: on any directory, under any replies, it
    needs at most one round per generation directory and one for the root, and
    more fuel never changes its answer. *)
Theorem lineage_walk_terminates env generations gens attempt_id nonce_hex current k :
  gm_generation current <= u64_max →
  ∃ r, lineage_loop (S (size gens)) env generations gens attempt_id nonce_hex current = Some r ∧
       lineage_loop (S (size gens) + k) env generations gens attempt_id nonce_hex current = Some r.
Proof.
  intros Hw.
  destruct (lineage_loop_total (S (size gens)) env generations gens attempt_id nonce_hex current Hw)
    as [r Hr].
  { pose proof (generations_below_size (gm_generation current) gens). lia. }
  exists r. split; [done|]. by apply lineage_loop_more.
Qed.

(** The digest of an active manifest commits to its whole history: two
    openings with the same digest have the same attempt, nonce, generation,
    parent link and checkpoint at every step down to generation zero, or exhibit
    two manifests whose exact preimages collide. *)
Theorem generation_digest_binds_history reader w w' store store' :
  calm reader → reopens reader w store → reopens reader w' store' →
  gm_manifest_digest (gs_active store) = gm_manifest_digest (gs_active store') →
  ∃ ms ms', lineage_path (generations_of w) (gs_active store) ms ∧
            lineage_path (generations_of w') (gs_active store') ms' ∧
            (Forall2 same_identity ms ms' ∨
             ∃ m m', m ∈ ms ∧ m' ∈ ms' ∧ manifests_collide m m').
Proof.
  intros Hc Ho Ho' Heq. apply (reopens_opens _ _ _ Hc) in Ho, Ho'.
  destruct (lineage_has_path _ _ _ _ (op_lineage _ _ Ho)) as [ms Hms].
  destruct (lineage_has_path _ _ _ _ (op_lineage _ _ Ho')) as [ms' Hms'].
  exists ms, ms'. split; [done|]. split; [done|].
  pose proof (op_manifest _ _ Ho) as Hm. pose proof (op_manifest _ _ Ho') as Hm'.
  eapply lineage_path_binds; [done|done|apply Hm|apply Hm'| | |done]; by eapply has_manifest_widths.
Qed.

(** Copying a tree: success means the copy is the tree itself, modes and
    links included; and when no call fails a tree is copied exactly when it is a
    directory without special files and dot names. *)
Theorem copy_tree_exact env source n copied :
  (∀ r, copy_tree env source (Some n) = (copied, r) → r = Ok tt → copied = Some n ∧ plain n) ∧
  (calm env → is_dir (Some n) = true → plain n → copy_tree env source (Some n) = (Some n, Ok tt)).
Proof.
  split.
  - intros r E Hr. destruct (copy_tree_same _ _ _ _ _ E Hr) as (-> & _ & Hp). eauto.
  - intros Hc Hd Hp. destruct n as [|mode es| |]; try done. unfold copy_tree.
    inversion Hp as [|? ? Hes|]; subst. rewrite !call_calm by done.
    rewrite copy_loop_total; [done|done| |].
    + eapply Forall_impl; [exact Hes|]. intros row (_ & _ & Hrow) from. by apply copy_entry_total.
    + eapply Forall_impl; [exact Hes|]. simpl. tauto.
Qed.
End GenerationTheorems.

(** ** A concrete work directory *)
Module GenerationReference.
Import Reference CasReference.

#[export] Instance Checkpoint_eq_dec : EqDecision Checkpoint.
Proof. solve_decision. Defined.
#[export] Instance ParentGeneration_eq_dec : EqDecision ParentGeneration.
Proof. solve_decision. Defined.
#[export] Instance GenerationManifest_eq_dec : EqDecision GenerationManifest.
Proof. solve_decision. Defined.
#[export] Instance ActivePointer_eq_dec : EqDecision ActivePointer.
Proof. solve_decision. Defined.

Definition ckp (tree : string) : Checkpoint := bind_git_tree (checkpoint []) (MkGitOid tree).
Definition m0 : GenerationManifest := manifest_of "attempt" "abab" 0 None (ckp "sha1:1").
Definition store0 : GenerationStore :=
  {| gs_work_dir := "/work"; gs_attempt_id := "attempt"; gs_nonce_hex := "abab";
     gs_active := m0; gs_active_repo := generation_name 0 |}.
Definition stage1 : StagedGeneration :=
  {| sg_staging_dir := ".stage-1"; sg_final_dir := generation_name 1; sg_generation := 1 |}.
Definition m1 : GenerationManifest := next_manifest store0 stage1 (ckp "sha1:2").

(** A codec of these two manifests and their pointers. *)
#[export] Instance two_codec : GenerationCodec := {|
  encode_manifest m := if decide (m = m0) then Ok [x30] else if decide (m = m1) then Ok [x31]
                       else Err "unsupported";
  decode_manifest b := if decide (b = [x30; x0a]) then Ok m0
                       else if decide (b = [x31; x0a]) then Ok m1 else Err "invalid";
  encode_pointer p := if decide (p = pointer_new m0) then Ok [x30]
                      else if decide (p = pointer_new m1) then Ok [x31] else Err "unsupported";
  decode_pointer b := if decide (b = [x30; x0a]) then Ok (pointer_new m0)
                      else if decide (b = [x31; x0a]) then Ok (pointer_new m1) else Err "invalid"
|}.

Lemma small_widths m :
  m = m0 ∨ m = m1 → manifest_widths m.
Proof.
  intros [->| ->]; (split; [vm_compute; discriminate|]);
    (split; [|split; vm_compute; discriminate]); intros p; [done|].
  intros [= <-]. vm_compute. discriminate.
Qed.

#[export] Instance two_codec_laws : GenerationCodecLaws.
Proof.
  split.
  - intros m b. simpl. case_decide as E; [intros [= <-]; rewrite E; reflexivity|].
    case_decide as E'; [intros [= <-]; rewrite E'; reflexivity|intros [=]].
  - intros m b. simpl. case_decide as E; [intros [= <-]; rewrite E; reflexivity|].
    case_decide as E'; [intros [= <-]; rewrite E'; reflexivity|intros [=]].
  - intros b p. simpl. case_decide; [intros [= <-]; vm_compute; discriminate|].
    case_decide; [intros [= <-]; vm_compute; discriminate|intros [=]].
  - intros b m. simpl. case_decide; [intros [= <-]; apply small_widths; by left|].
    case_decide; [intros [= <-]; apply small_widths; by right|intros [=]].
Qed.

Definition calm_env : gen_env :=
  {| ge_io _ _ := None; ge_pid := 7; ge_faults _ := false; ge_written := 0; ge_copied := None |}.
Lemma calm_env_calm : calm calm_env.
Proof. done. Qed.

Definition repo_tree : node := NDir DIR_MODE [("value", NFile [x01] 420)].
Definition generation_dir (manifest : list (string * node)) : node :=
  NDir DIR_MODE (manifest ++ [("repo", repo_tree); ("journal", NDir DIR_MODE [])]).

Definition w0 : wspace := {|
  w_is_dir := true;
  w_entries := {[ ACTIVE_FILE := NFile [x30; x0a] PRIVATE_FILE_MODE ]};
  w_generations := Some (<[".stage-1" := generation_dir []]>
    {[ generation_name 0 := generation_dir [("manifest.json", NFile [x30; x0a] PRIVATE_FILE_MODE)] ]})
|}.

Lemma w0_reopens : reopens calm_env w0 store0.
Proof. vm_compute. reflexivity. Qed.

Lemma stage1_ready : stage_ready w0 store0 stage1.
Proof. by constructor. Qed.

Lemma codec_fits m : control_fits m.
Proof.
  split; intros b; simpl; (case_decide; [intros [= <-]; vm_compute; reflexivity|]);
    (case_decide; [intros [= <-]; vm_compute; reflexivity|intros [=]]).
Qed.

Definition published := generation_publish calm_env store0 stage1 (ckp "sha1:2") w0.
Lemma published_eq : generation_publish calm_env store0 stage1 (ckp "sha1:2") w0 = (fst published, snd published).
Proof. unfold published. apply surjective_pairing. Qed.

Example generation_publish_crash_safe_witness :
  Forall (λ w', reopens calm_env w' store0 ∨
                reopens calm_env w' (next_store store0 stage1 (ckp "sha1:2"))) (fst published).
Proof.
  destruct (generation_publish_crash_safe calm_env calm_env w0 store0 stage1 (ckp "sha1:2")
    (fst published) (snd published) calm_env_calm w0_reopens stage1_ready (codec_fits _)
    published_eq) as [Hstates _].
  exact Hstates.
Defined.

Definition staged := generation_stage calm_env store0 w0.
Lemma staged_eq : generation_stage calm_env store0 w0 = (fst staged, snd staged).
Proof. unfold staged. apply surjective_pairing. Qed.

Lemma m0_width : gm_generation (gs_active store0) <= u64_max.
Proof. vm_compute. discriminate. Qed.

Example generation_stage_ready_witness : Forall (λ w', reopens calm_env w' store0) (fst staged).
Proof.
  destruct (generation_stage_ready calm_env calm_env w0 store0 (fst staged) (snd staged)
    calm_env_calm w0_reopens m0_width staged_eq) as [Hstates _].
  exact Hstates.
Defined.

Definition boot : GenerationBootstrap :=
  {| gb_work_dir := "/work"; gb_generation_dir := generation_name 0 |}.
Definition boot_w : wspace := {|
  w_is_dir := true; w_entries := ∅;
  w_generations := Some {[ generation_name 0 := generation_dir [] ]}
|}.
Definition finished := bootstrap_finish calm_env boot "attempt" "abab" (ckp "sha1:1") boot_w.
Lemma finished_eq : bootstrap_finish calm_env boot "attempt" "abab" (ckp "sha1:1") boot_w = (fst finished, snd finished).
Proof. unfold finished. apply surjective_pairing. Qed.

Lemma boot_ready : bootstrap_ready boot_w boot.
Proof.
  constructor; try done. apply map_Forall_singleton. split; [|done]. right.
  by rewrite parse_generation_name_name.
Qed.

Example bootstrap_finish_opens_witness :
  Forall (λ w', inactive w' ∨ reopens calm_env w' (first_store boot "attempt" "abab" (ckp "sha1:1")))
    (fst finished).
Proof.
  destruct (bootstrap_finish_opens calm_env calm_env boot_w boot "attempt" "abab" (ckp "sha1:1")
    (fst finished) (snd finished) calm_env_calm boot_ready (codec_fits _) finished_eq) as [Hstates _].
  exact Hstates.
Defined.

Lemma m1_width : gm_generation m1 <= u64_max.
Proof. vm_compute. discriminate. Qed.

Example lineage_walk_terminates_witness :
  ∃ r, lineage_loop 3 calm_env "/work/generations" (generations_of w0) "attempt" "abab" m1 = Some r.
Proof.
  destruct (lineage_walk_terminates calm_env "/work/generations" (generations_of w0)
              "attempt" "abab" m1 0 m1_width) as (r & Hr & _).
  exists r. exact Hr.
Defined.

Example generation_digest_binds_history_witness :
  ∃ ms, lineage_path (generations_of w0) (gs_active store0) ms.
Proof.
  destruct (generation_digest_binds_history calm_env w0 w0 store0 store0 calm_env_calm
              w0_reopens w0_reopens eq_refl) as (ms & ms' & Hms & _).
  exists ms. exact Hms.
Defined.
End GenerationReference.
