(* ===== verification/Capability.v ===== *)
(** The typed refusals of the workspace crate ([bullet-git-workspace/src/lib.rs],
    [git_binary_error.rs], [preservation.rs]) and the authority every repository
    call must present ([bullet-git-types/src/authority.rs],
    [repository.rs]: [ExpectedAuthority]).  [serde_json] on a token is the class
    [TokenDecoder]. *)

From S2P Require Import Prelude Digests Proposal Candidate Lineage Journal Cas Generation.

(** ** Authority tokens *)

Record AuthorityEnvelope : Type := { ae_token : bytes }.

Definition is_present (a : AuthorityEnvelope) : bool := negb (blen (ae_token a) =? 0).

Inductive AuthorityError : Type :=
  | AuUnauthorized (message : string)
  | AuStaleAuthority (message : string).

Definition authority_reason_code (e : AuthorityError) : string :=
  match e with
  | AuUnauthorized _ => "UNAUTHORIZED"
  | AuStaleAuthority _ => "STALE_AUTHORITY"
  end.

Record WireAuthorityToken : Type := {
  wt_variant_id : string;
  wt_attempt_id : string;
  wt_attempt_fence : N;
  wt_workspace_nonce : bytes
}.

(** [serde_json::from_slice::<WireAuthorityToken>] *)
Class TokenDecoder : Type := decode_token : bytes → result WireAuthorityToken string.

(** [WireAuthorityToken::parse] *)
Definition token_parse `{TokenDecoder} (token : bytes) : result WireAuthorityToken AuthorityError :=
  fail_if (blen token =? 0) (AuUnauthorized "empty authority token") ;?
  map_err (λ e, AuUnauthorized ("unparseable authority token: " +:+ e)) (decode_token token).

(** [WireAuthorityToken::verify] *)
Definition token_verify (t : WireAuthorityToken) (expected_attempt : string) (expected_fence : N)
    (expected_nonce : bytes) : result unit AuthorityError :=
  fail_if (negb (String.eqb (wt_attempt_id t) expected_attempt))
    (AuStaleAuthority ("token attempt " +:+ wt_attempt_id t +:+ " != " +:+ expected_attempt)) ;?
  fail_if (negb (wt_attempt_fence t =? expected_fence))
    (AuStaleAuthority ("token fence " +:+ u64_to_string (wt_attempt_fence t) +:+ " != "
                       +:+ u64_to_string expected_fence)) ;?
  fail_if (negb (bool_decide (wt_workspace_nonce t = expected_nonce)))
    (AuStaleAuthority "token workspace nonce mismatch").

(** ** Git binary and preservation refusals *)

Inductive GitBinaryError : Type :=
  | GbPathNotAbsolute (path : string)
  | GbUnreadable (path reason : string)
  | GbSymlink (path : string)
  | GbNotRegular (path : string)
  | GbNotExecutable (path : string)
  | GbDigestMismatch (path expected actual : string)
  | GbStaging (path reason : string)
  | GbAlreadyPinned (path : string)
  | GbNotFound (reason : string)
  | GbDeadlineExceeded (verb : string) (limit_ms : N)
  | GbOutputBoundExceeded (verb stream : string) (limit : N).

Definition git_binary_reason_code (e : GitBinaryError) : string :=
  match e with
  | GbPathNotAbsolute _ => "GIT_BINARY_PATH_NOT_ABSOLUTE"
  | GbUnreadable _ _ => "GIT_BINARY_UNREADABLE"
  | GbSymlink _ => "GIT_BINARY_SYMLINK"
  | GbNotRegular _ => "GIT_BINARY_NOT_REGULAR"
  | GbNotExecutable _ => "GIT_BINARY_NOT_EXECUTABLE"
  | GbDigestMismatch _ _ _ => "GIT_BINARY_DIGEST_MISMATCH"
  | GbStaging _ _ => "GIT_BINARY_STAGING_FAILED"
  | GbAlreadyPinned _ => "GIT_BINARY_ALREADY_PINNED"
  | GbNotFound _ => "GIT_BINARY_NOT_FOUND"
  | GbDeadlineExceeded _ _ => "GIT_DEADLINE_EXCEEDED"
  | GbOutputBoundExceeded _ _ _ => "GIT_OUTPUT_BOUND_EXCEEDED"
  end.

Inductive PreservationError : Type :=
  | PvInvalidDestination (message : string)
  | PvCorrupt (message : string)
  | PvReceiptRefused (message : string)
  | PvUnsupported (message : string)
  | PvIo (message : string)
  | PvOutcomeUnknown (message : string).

Definition preservation_reason_code (e : PreservationError) : string :=
  match e with
  | PvInvalidDestination _ => "PRESERVATION_INVALID_DESTINATION"
  | PvCorrupt _ => "PRESERVATION_CORRUPT"
  | PvReceiptRefused _ => "PRESERVATION_RECEIPT_REFUSED"
  | PvUnsupported _ => "PRESERVATION_UNSUPPORTED"
  | PvIo _ => "PRESERVATION_IO_FAILED"
  | PvOutcomeUnknown _ => "PRESERVATION_OUTCOME_UNKNOWN"
  end.

(** ** The refusals of a repository capability *)

Inductive CapabilityError : Type :=
  | CapUnauthorized (message : string)
  | CapStaleAuthority (message : string)
  | CapProposalAttemptMismatch (expected found : string)
  | CapCandidateSubjectMismatch (field expected found : string)
  | CapStaleCheckpoint (message : string)
  | CapStalePreimage (path : string)
  | CapOutOfScope (path : string)
  | CapPathAbsent (path : string)
  | CapDuplicatePath (path : string)
  | CapInvalidOperationCount (max actual : N)
  | CapContentTooLarge (path : string) (max actual : N)
  | CapAggregateContentTooLarge (max actual : N)
  | CapPathCollision (first second : string)
  | CapSymlinkForbidden (path : string)
  | CapWorktreeForbidden (path : string)
  | CapWrongRepository (path : string)
  | CapWrongBranch (expected found : string)
  | CapSequencerActive (state : string)
  | CapUnclassifiedUntracked (path : string)
  | CapBaseMissing (sha : string)
  | CapMirrorLockTimeout (message : string)
  | CapGit (message : string)
  | CapJournal (message : string)
  | CapContentStore (e : CasError)
  | CapGeneration (e : GenerationError)
  | CapPreservation (e : PreservationError)
  | CapHostileGitConfig (message : string)
  | CapGitBinary (e : GitBinaryError)
  | CapIo (message : string)
  | CapTypes (message : string)
  | CapProposal (e : ProposalError)
  | CapCandidateManifest (e : CandidateManifestError)
  | CapLineage (e : LineageError).

Definition capability_reason_code (e : CapabilityError) : string :=
  match e with
  | CapUnauthorized _ => "UNAUTHORIZED"
  | CapStaleAuthority _ => "STALE_AUTHORITY"
  | CapProposalAttemptMismatch _ _ => "PROPOSAL_ATTEMPT_MISMATCH"
  | CapCandidateSubjectMismatch _ _ _ => "CANDIDATE_SUBJECT_MISMATCH"
  | CapStaleCheckpoint _ => "STALE_CHECKPOINT"
  | CapStalePreimage _ => "STALE_PREIMAGE"
  | CapOutOfScope _ => "OUT_OF_SCOPE"
  | CapPathAbsent _ => "PATH_ABSENT"
  | CapDuplicatePath _ => "DUPLICATE_PATH"
  | CapInvalidOperationCount _ _ => "INVALID_OPERATION_COUNT"
  | CapContentTooLarge _ _ _ => "CONTENT_TOO_LARGE"
  | CapAggregateContentTooLarge _ _ => "AGGREGATE_CONTENT_TOO_LARGE"
  | CapPathCollision _ _ => "PATH_COLLISION"
  | CapSymlinkForbidden _ => "SYMLINK_FORBIDDEN"
  | CapWorktreeForbidden _ => "WORKTREE_FORBIDDEN"
  | CapWrongRepository _ => "WRONG_REPOSITORY"
  | CapWrongBranch _ _ => "WRONG_BRANCH"
  | CapSequencerActive _ => "SEQUENCER_ACTIVE"
  | CapUnclassifiedUntracked _ => "UNCLASSIFIED_UNTRACKED"
  | CapBaseMissing _ => "BASE_MISSING"
  | CapMirrorLockTimeout _ => "MIRROR_LOCK_TIMEOUT"
  | CapGit _ => "GIT_FAILED"
  | CapJournal _ => "JOURNAL_FAILED"
  | CapContentStore e => cas_reason_code e
  | CapGeneration e => generation_reason_code e
  | CapPreservation e => preservation_reason_code e
  | CapHostileGitConfig _ => "HOSTILE_GIT_CONFIG"
  | CapGitBinary e => git_binary_reason_code e
  | CapIo _ => "IO_FAILED"
  | CapTypes _ => "INVALID_TYPES"
  | CapProposal e => proposal_reason_code e
  | CapCandidateManifest e => candidate_reason_code e
  | CapLineage e => lineage_reason_code e
  end.

(** The [Display] text of [JournalError], and the [From] conversions. *)
Definition journal_display (e : JournalError) : string :=
  match e with
  | JIo m => "journal io failure: " +:+ m
  | JCorrupt m => "corrupt journal: " +:+ m
  | JPoisoned => "journal is poisoned after a failed append"
  end.

Definition from_journal_error (e : JournalError) : CapabilityError :=
  CapJournal (journal_reason_code e +:+ ": " +:+ journal_display e).

Definition from_authority_error (e : AuthorityError) : CapabilityError :=
  match e with
  | AuUnauthorized m => CapUnauthorized m
  | AuStaleAuthority m => CapStaleAuthority m
  end.

Definition from_types_error (e : TypesError) : CapabilityError := CapTypes (types_display e).

Definition io_err (context error : string) : CapabilityError := CapIo (context +:+ ": " +:+ error).

(** ** The authority a workspace expects *)

Record ExpectedAuthority : Type := {
  ea_attempt_id : string;
  ea_attempt_fence : N;
  ea_workspace_nonce : bytes
}.

(** [ExpectedAuthority::require] *)
Definition require `{TokenDecoder} (expected : ExpectedAuthority) (auth : AuthorityEnvelope)
    : result WireAuthorityToken CapabilityError :=
  let? token := map_err from_authority_error (token_parse (ae_token auth)) in
  map_err from_authority_error
    (token_verify token (ea_attempt_id expected) (ea_attempt_fence expected)
       (ea_workspace_nonce expected)) ;?
  Ok token.

(** ** Properties *)

(** A token that names the expected writer. *)
Definition names (expected : ExpectedAuthority) (t : WireAuthorityToken) : Prop :=
  wt_attempt_id t = ea_attempt_id expected ∧ wt_attempt_fence t = ea_attempt_fence expected ∧
  wt_workspace_nonce t = ea_workspace_nonce expected.

Lemma require_Ok `{TokenDecoder} expected auth t :
  require expected auth = Ok t ↔
  ae_token auth ≠ [] ∧ decode_token (ae_token auth) = Ok t ∧ names expected t.
Proof.
  unfold require, token_parse, token_verify, names. split.
  - intros Hok. res_inv. bools. split; [|done]. intros E. apply Hr3. by rewrite E.
  - intros (Hne & Hd & Ha & Hf & Hn). rewrite Hd.
    assert (blen (ae_token auth) =? 0 = false) as -> by (apply N.eqb_neq; by rewrite blen_zero).
    simpl. rewrite Ha, Hf, Hn, String.eqb_refl, N.eqb_refl. simpl.
    by rewrite bool_decide_eq_true_2.
Qed.

(** An envelope is admitted exactly when its bytes are non-empty and decode to
    a token of the expected attempt, fence and workspace nonce; every refusal is
    UNAUTHORIZED when nothing decodes and STALE_AUTHORITY when another writer is
    named. *)
Theorem require_exact `{TokenDecoder} expected auth :
  match require expected auth with
  | Ok t => ae_token auth ≠ [] ∧ decode_token (ae_token auth) = Ok t ∧ names expected t
  | Err e =>
      (capability_reason_code e = "UNAUTHORIZED" ∧
         (ae_token auth = [] ∨ ∃ m, decode_token (ae_token auth) = Err m)) ∨
      (capability_reason_code e = "STALE_AUTHORITY" ∧
         ∃ t, decode_token (ae_token auth) = Ok t ∧ ¬ names expected t)
  end.
Proof.
  destruct (require expected auth) as [t|e] eqn:E; [by apply require_Ok|].
  unfold require, token_parse in E. destruct (blen (ae_token auth) =? 0) eqn:Hl; simpl in E.
  { injection E as <-. left. split; [done|]. left. apply N.eqb_eq in Hl. by apply blen_zero in Hl. }
  destruct (decode_token (ae_token auth)) as [t|m] eqn:Hd; simpl in E.
  2: { injection E as <-. left. split; [done|]. right. by exists m. }
  right. unfold token_verify in E.
  assert (∀ (P : Prop), ¬ P → P → False) as Hfalse by auto.
  destruct (String.eqb_spec (wt_attempt_id t) (ea_attempt_id expected)) as [Ha|Ha]; simpl in E.
  2: { injection E as <-. split; [done|]. exists t. split; [done|]. by intros (? & _). }
  destruct (N.eqb_spec (wt_attempt_fence t) (ea_attempt_fence expected)) as [Hf|Hf]; simpl in E.
  2: { injection E as <-. split; [done|]. exists t. split; [done|]. by intros (_ & ? & _). }
  case_bool_decide as Hn; simpl in E; [done|].
  injection E as <-. split; [done|]. exists t. split; [done|]. by intros (_ & _ & ?).
Qed.
