(* ===== verification/Artifact.v ===== *)
(** The hashing of [crates/bullet-git-workspace/src/preservation_io.rs]: one
    digest of every entry and byte of a directory tree, which seals a preserved
    workspace.  [entry_at] is what the tree shows at a path; the digest determines
    it everywhere. *)

From S2P Require Import Prelude Paths Digests Protocol Generation Capability.

Definition HASH_DOMAIN : string := "bullet-git-preservation-artifact-v1".

(** [io] *)
Definition preservation_io (context error : string) : PreservationError := PvIo (context +:+ ": " +:+ error).

Definition artifact_call (env : gen_env) (context path : string) : result unit PreservationError :=
  match ge_io env context path with Some e => Err (preservation_io context e) | None => Ok tt end.

(** What [hash_field] and [hash_mode] feed the hasher. *)
Definition hash_field (b : bytes) : bytes := u64_le_bytes (blen b) ++ b.
Definition hash_mode (mode : N) : bytes := hash_field (le_bytes 4 (N.land mode 4095)).

(** [entries.sort_by_key(DirEntry::file_name)] *)
Definition name_le {A} (a b : string * A) : Prop := String.le (fst a) (fst b).
#[export] Instance name_le_dec {A} : RelDecision (@name_le A).
Proof. intros a b. unfold name_le. apply _. Defined.

Definition below_root (root : string) (relative : list string) : string := path_text (root :: relative).

Definition to_str (s : string) (e : PreservationError) : result string PreservationError :=
  if valid_utf8 (as_bytes s) then Ok s else Err e.

(** One round of the loop of [hash_entries]; [inner] is the recursion on it. *)
Definition hash_entry (env : gen_env) (root : string) (relative : list string) (n : node)
    (inner : result bytes PreservationError) : result bytes PreservationError :=
  let path := below_root root relative in
  let? text := to_str (path_text relative) (PvUnsupported "non-UTF-8 artifact path") in
  artifact_call env "inspect artifact" path ;?
  let? rest :=
    match n with
    | NDir mode _ =>
        let? inner := inner in
        Ok (hash_field (as_bytes "directory") ++ hash_mode mode ++ inner)
    | NFile contents mode =>
        artifact_call env "open artifact" path ;?
        artifact_call env "hash artifact" path ;?
        Ok (hash_field (as_bytes "file") ++ hash_mode mode
            ++ hash_field (u64_le_bytes (blen contents)) ++ contents)
    | NSymlink target =>
        artifact_call env "read artifact symlink" path ;?
        let? target := to_str target (PvUnsupported "non-UTF-8 symlink target") in
        Ok (hash_field (as_bytes "symlink") ++ hash_field (as_bytes target))
    | NSpecial => Err (PvCorrupt ("special artifact entry: " +:+ path))
    end in
  Ok (hash_field (as_bytes text) ++ rest).

(** [hash_entries] of the directory [n], as the bytes it feeds the hasher. *)
Fixpoint hash_entries (env : gen_env) (root : string) (relative : list string) (n : node) {struct n}
    : result bytes PreservationError :=
  match n with
  | NDir _ entries =>
      artifact_call env "read artifact directory" (below_root root relative) ;?
      artifact_call env "read artifact entry" (below_root root relative) ;?
      let? rows := try_map snd (merge_sort name_le (map (λ row, let '(name, c) := (row : string * node) in
        (name, hash_entry env root (relative ++ [name]) c (hash_entries env root (relative ++ [name]) c)))
        entries)) in
      Ok (concat rows)
  | _ => Err (preservation_io "read artifact directory" not_a_directory)
  end.

(** [hash_artifact] *)
Definition hash_artifact `{Blake3} (env : gen_env) (root : string) (n : option node)
    : result Digest PreservationError :=
  match n with
  | None => Err (preservation_io "read artifact directory" not_found)
  | Some n =>
      let? entries := hash_entries env root [] n in
      Ok (digest_of (hash_field (as_bytes HASH_DOMAIN) ++ entries))
  end.

(** ** Specification: what a tree shows *)

Inductive leaf : Type :=
  | LDir (mode : N)
  | LFile (mode : N) (contents : bytes)
  | LLink (target : string).

Definition leaf_of (n : node) : option leaf :=
  match n with
  | NDir mode _ => Some (LDir (N.land mode 4095))
  | NFile contents mode => Some (LFile (N.land mode 4095) contents)
  | NSymlink target => Some (LLink target)
  | NSpecial => None
  end.

Fixpoint entry_at (n : node) (p : list string) : option leaf :=
  match p with
  | [] => leaf_of n
  | name :: p => match n with NDir _ es => entry_of es name ≫= λ c, entry_at c p | _ => None end
  end.

(** A directory tree a file system can hold: names are unique, nonempty and
    without separator. *)
Inductive named : node → Prop :=
  | named_file c m : named (NFile c m)
  | named_link t : named (NSymlink t)
  | named_special : named NSpecial
  | named_dir m es :
      NoDup es.*1 → Forall (λ row, fst row ≠ "" ∧ char_contains "/" (fst row) = false ∧ named (snd row)) es →
      named (NDir m es).

(** The entries below [relative], in the order of hashing. *)
Fixpoint entries_below (relative : list string) (n : node) {struct n} : list (list string * leaf) :=
  match n with
  | NDir _ es =>
      concat (map snd (merge_sort name_le (map (λ row, let '(name, c) := (row : string * node) in
        (name, match leaf_of c with
               | Some l => (relative ++ [name], l) :: entries_below (relative ++ [name]) c
               | None => []
               end)) es)))
  | _ => []
  end.

Definition leaf_bytes (l : leaf) : bytes :=
  match l with
  | LDir m => hash_field (as_bytes "directory") ++ hash_field (le_bytes 4 m)
  | LFile m c => hash_field (as_bytes "file") ++ hash_field (le_bytes 4 m) ++ hash_field (u64_le_bytes (blen c)) ++ c
  | LLink t => hash_field (as_bytes "symlink") ++ hash_field (as_bytes t)
  end.
Definition entry_bytes (row : list string * leaf) : bytes :=
  hash_field (as_bytes (path_text (fst row))) ++ leaf_bytes (snd row).

(** The buffers of one entry can be allocated. *)
Definition leaf_fits (l : leaf) : Prop :=
  match l with LDir m => m < 4096 | LFile m c => m < 4096 ∧ addressable c | LLink t => addressable (as_bytes t) end.
Definition entry_fits (row : list string * leaf) : Prop :=
  fst row ≠ [] ∧ Forall (λ c, c ≠ "" ∧ char_contains "/" c = false) (fst row) ∧
  addressable (as_bytes (path_text (fst row))) ∧ leaf_fits (snd row).
Definition leaf_addressable (l : leaf) : Prop :=
  match l with LDir _ => True | LFile _ c => addressable c | LLink t => addressable (as_bytes t) end.
Definition tree_fits (n : node) : Prop := ∀ p l,
  entry_at n p = Some l → addressable (as_bytes (path_text p)) ∧ leaf_addressable l.

(** The exact preimage of the digest. *)
Definition artifact_bytes (n : node) : bytes :=
  hash_field (as_bytes HASH_DOMAIN) ++ concat (map entry_bytes (entries_below [] n)).

(** ** Lemmas: sorting *)

Section SortMap.
Context {A B : Type} (R : A → A → Prop) (S : B → B → Prop) `{!RelDecision R, !RelDecision S} (f : A → B).
Hypothesis f_order : ∀ x y, S (f x) (f y) ↔ R x y.

Lemma list_merge_map l k : list_merge S (map f l) (map f k) = map f (list_merge R l k).
Proof.
  revert k. induction l as [|x l IHl]; intros k; [by destruct k|].
  induction k as [|y k IHk]; [done|]. simpl.
  destruct (decide (R x y)) as [Hr|Hr], (decide (S (f x) (f y))) as [Hs|Hs]; rewrite f_order in Hs; try done.
  - simpl. f_equal. apply (IHl (y :: k)).
  - simpl. f_equal. exact IHk.
Qed.

Lemma merge_stack_map st l :
  merge_list_to_stack S (map (option_map (map f)) st) (map f l)
  = map (option_map (map f)) (merge_list_to_stack R st l).
Proof.
  revert l. induction st as [|[k|] st IH]; intros l; [done| |done].
  simpl. f_equal. rewrite list_merge_map. apply IH.
Qed.

Lemma merge_sort_aux_map st l :
  merge_sort_aux S (map (option_map (map f)) st) (map f l) = map f (merge_sort_aux R st l).
Proof.
  revert st. induction l as [|x l IH]; intros st.
  - simpl. induction st as [|[k|] st IHst]; [done| |done]. simpl. by rewrite IHst, list_merge_map.
  - simpl. rewrite <- IH. f_equal. apply (merge_stack_map st [x]).
Qed.

Lemma merge_sort_map l : merge_sort S (map f l) = map f (merge_sort R l).
Proof. apply (merge_sort_aux_map [] l). Qed.
End SortMap.

(** Two computations on the rows of a directory are sorted alike. *)
Lemma sorted_rows {A B C} (g : string → C → A) (h : string → C → B) (es : list (string * C)) :
  ∃ es', es' ≡ₚ es ∧
    merge_sort name_le (map (λ row, let '(name, c) := row in (name, g name c)) es)
      = map (λ row, (fst row, g (fst row) (snd row))) es' ∧
    merge_sort name_le (map (λ row, let '(name, c) := row in (name, h name c)) es)
      = map (λ row, (fst row, h (fst row) (snd row))) es'.
Proof.
  exists (merge_sort name_le es). split; [apply merge_sort_Permutation|].
  split; (erewrite <- (merge_sort_map name_le name_le);
    [f_equal; apply map_ext; by intros []|by intros [] []]).
Qed.

(** ** Lemmas: what is hashed *)

Lemma to_str_Ok s e t : to_str s e = Ok t → t = s.
Proof. unfold to_str. destruct (valid_utf8 _); [|done]. by intros [= <-]. Qed.

Lemma hash_entry_Ok env root rel n inner b :
  hash_entry env root rel n inner = Ok b →
  ∃ l, leaf_of n = Some l ∧
    match n with
    | NDir _ _ => ∃ c, inner = Ok c ∧ b = entry_bytes (rel, l) ++ c
    | _ => b = entry_bytes (rel, l)
    end.
Proof.
  unfold hash_entry. intros (text & Ht%to_str_Ok & Hb)%res_bind_Ok. subst text.
  apply res_bind_Ok in Hb as ([] & _ & Hb). apply res_bind_Ok in Hb as (rest & Hr & Hb). injection Hb as <-.
  destruct n as [c m|m es|t|]; [| | |done]; simpl.
  - apply res_bind_Ok in Hr as ([] & _ & Hr). apply res_bind_Ok in Hr as ([] & _ & Hr). injection Hr as <-.
    eexists. split; [done|]. reflexivity.
  - apply res_bind_Ok in Hr as (c & -> & [= <-]). eexists. split; [done|]. exists c. split; [done|].
    unfold entry_bytes. simpl. by rewrite <- !app_assoc.
  - apply res_bind_Ok in Hr as ([] & _ & Hr). apply res_bind_Ok in Hr as (t' & ->%to_str_Ok & Hr). injection Hr as <-.
    eexists. split; [done|]. reflexivity.
Qed.

Lemma hash_entries_below env root rel n b :
  hash_entries env root rel n = Ok b → b = concat (map entry_bytes (entries_below rel n)).
Proof.
  revert rel b. induction n as [c m|m es IH|t|] using node_tree_ind; intros rel b; [done| |done..].
  cbn [hash_entries entries_below]. intros ([] & _ & Hb)%res_bind_Ok. apply res_bind_Ok in Hb as ([] & _ & Hb).
  apply res_bind_Ok in Hb as (rows & Hr & Hb). injection Hb as <-.
  destruct (sorted_rows (λ name c, hash_entry env root (rel ++ [name]) c (hash_entries env root (rel ++ [name]) c))
    (λ name c, match leaf_of c with
               | Some l => (rel ++ [name], l) :: entries_below (rel ++ [name]) c
               | None => []
               end) es) as (es' & Hp & Hh & Hb). rewrite Hh in Hr. rewrite Hb. clear Hh Hb.
  assert (Forall (λ row : string * node, ∀ rel b, hash_entries env root rel (snd row) = Ok b →
    b = concat (map entry_bytes (entries_below rel (snd row)))) es') as IH' by (by rewrite Hp).
  apply try_map_Ok in Hr. clear IH Hp es. revert rows Hr.
  induction es' as [|[name c] es IHes]; intros rows Hr; inversion Hr as [|? b ? bs Hb Hbs]; subst; [done|].
  apply Forall_cons in IH' as [Hc IH']. simpl. rewrite (IHes IH' bs Hbs), map_app, concat_app. f_equal.
  simpl in Hb, Hc. apply hash_entry_Ok in Hb as (l & -> & Hb). simpl.
  destruct c as [c m'|m' es'|t|]; try (by rewrite app_nil_r).
  destruct Hb as (inner & Hi & ->). by rewrite (Hc _ _ Hi).
Qed.

Lemma hash_artifact_Ok `{Blake3} env root n d :
  hash_artifact env root n = Ok d → ∃ t, n = Some t ∧ d = digest_of (artifact_bytes t).
Proof.
  unfold hash_artifact. destruct n as [t|]; [|done]. intros (b & Hb & [= <-])%res_bind_Ok.
  apply hash_entries_below in Hb as ->. by exists t.
Qed.

(** ** Lemmas: paths *)

Lemma split_app_sep c s t : char_contains c s = false → split c (s +:+ String c t) = s :: split c t.
Proof.
  induction s as [|d s IH]; simpl.
  - intros _. by rewrite Ascii.eqb_refl.
  - intros [Hc Hs]%orb_false_iff. rewrite Hc, IH by done. done.
Qed.

Lemma split_none c s : char_contains c s = false → split c s = [s].
Proof.
  induction s as [|d s IH]; simpl; [done|]. intros [Hc Hs]%orb_false_iff. by rewrite Hc, IH.
Qed.

Lemma split_path_text p : p ≠ [] → Forall (λ c, char_contains "/" c = false) p → split "/" (path_text p) = p.
Proof.
  unfold path_text. induction p as [|c p IH]; [done|]. intros _ [Hc Hp]%Forall_cons.
  destruct p as [|c' p]; [by apply split_none|].
  change (String.concat "/" (c :: c' :: p)) with (c +:+ String "/" (String.concat "/" (c' :: p))).
  rewrite split_app_sep by done. by rewrite IH.
Qed.

Lemma path_text_inj p q :
  p ≠ [] → q ≠ [] → Forall (λ c, char_contains "/" c = false) p → Forall (λ c, char_contains "/" c = false) q →
  path_text p = path_text q → p = q.
Proof.
  intros Hp Hq Hp' Hq' Heq. rewrite <- (split_path_text p), <- (split_path_text q) by done. by rewrite Heq.
Qed.

(** ** Lemmas: the encoding is a prefix code *)

Lemma hash_field_inj a b r s :
  addressable a → addressable b → hash_field a ++ r = hash_field b ++ s → a = b ∧ r = s.
Proof. unfold hash_field. rewrite <- !app_assoc. apply frame_inj. Qed.

Lemma mode_field_inj m m' r s :
  m < 4096 → m' < 4096 → hash_field (le_bytes 4 m) ++ r = hash_field (le_bytes 4 m') ++ s → m = m' ∧ r = s.
Proof.
  intros Hm Hm' Heq. apply hash_field_inj in Heq as [Hb ->];
    [|unfold addressable, blen; rewrite length_le_bytes; unfold isize_max; lia..].
  split; [|done]. apply (f_equal le_value) in Hb. rewrite !le_value_le_bytes in Hb by (simpl; lia). done.
Qed.

Lemma content_inj c c' r s :
  addressable c → addressable c' →
  hash_field (u64_le_bytes (blen c)) ++ c ++ r = hash_field (u64_le_bytes (blen c')) ++ c' ++ s → c = c' ∧ r = s.
Proof.
  intros Hc Hc' Heq. apply hash_field_inj in Heq as [Hb Heq]; [|apply u64_le_addressable..].
  unfold addressable, isize_max in *. apply u64_le_bytes_inj in Hb; [|unfold u64_max; lia..].
  apply app_inj_1 in Heq; [done|]. unfold blen in Hb. lia.
Qed.

Lemma leaf_bytes_inj l l' r s :
  leaf_fits l → leaf_fits l' → leaf_bytes l ++ r = leaf_bytes l' ++ s → l = l' ∧ r = s.
Proof.
  assert (addressable (as_bytes "directory") ∧ addressable (as_bytes "file") ∧ addressable (as_bytes "symlink"))
    as (Hd & Hf & Hs) by (split_and!; by vm_compute).
  destruct l as [m|m c|t], l' as [m'|m' c'|t']; intros Hl Hl' Heq; simpl in Hl, Hl', Heq;
    rewrite <- !app_assoc in Heq; apply hash_field_inj in Heq as [Hk Heq]; try done.
  - by apply mode_field_inj in Heq as [-> ->].
  - destruct Hl as [? ?], Hl' as [? ?]. apply mode_field_inj in Heq as [-> Heq]; [|done..].
    by apply content_inj in Heq as [-> ->].
  - by apply hash_field_inj in Heq as [->%as_bytes_inj ->].
Qed.

Lemma entry_bytes_inj e e' r s :
  entry_fits e → entry_fits e' → entry_bytes e ++ r = entry_bytes e' ++ s → e = e' ∧ r = s.
Proof.
  destruct e as [p l], e' as [p' l']. intros (Hp & Hn & Ha & Hl) (Hp' & Hn' & Ha' & Hl') Heq. simpl in *.
  unfold entry_bytes in Heq. simpl in Heq. rewrite <- !app_assoc in Heq.
  apply hash_field_inj in Heq as [Hk Heq]; [|done..].
  apply leaf_bytes_inj in Heq as [-> ->]; [|done..]. apply as_bytes_inj, path_text_inj in Hk as ->; [done|done|done|..];
    (eapply Forall_impl; [eassumption|]; by intros c [_ ?]).
Qed.

Lemma entry_bytes_nonempty e r : entry_bytes e ++ r ≠ [].
Proof.
  unfold entry_bytes, hash_field. rewrite <- !app_assoc. intros Heq%(f_equal length).
  rewrite length_app, length_u64_le_bytes in Heq. simpl in Heq. lia.
Qed.

Lemma entries_inj l l' :
  Forall entry_fits l → Forall entry_fits l' →
  concat (map entry_bytes l) = concat (map entry_bytes l') → l = l'.
Proof.
  intros Hl. revert l'. induction Hl as [|e l He Hl IH]; intros l' Hl' Heq; destruct Hl' as [|e' l' He' Hl']; simpl in Heq.
  - done.
  - by destruct (entry_bytes_nonempty e' (concat (map entry_bytes l'))).
  - by destruct (entry_bytes_nonempty e (concat (map entry_bytes l))).
  - apply entry_bytes_inj in Heq as [-> Heq]; [|done..]. f_equal. by apply IH.
Qed.

(** ** Lemmas: the entries are what the tree shows *)

Lemma entry_of_elem es name c : NoDup es.*1 → (name, c) ∈ es → entry_of es name = Some c.
Proof.
  induction es as [|[k d] es IH]; [by intros _ ?%elem_of_nil|]. simpl. intros [Hk Hnd]%NoDup_cons Hin.
  apply elem_of_cons in Hin as [[= -> ->]|Hin]; [by rewrite String.eqb_refl|].
  destruct (String.eqb_spec k name) as [->|]; [|by apply IH].
  destruct Hk. apply list_elem_of_fmap. by exists (name, c).
Qed.

Lemma entry_of_Some es name c : entry_of es name = Some c → (name, c) ∈ es.
Proof.
  induction es as [|[k d] es IH]; [done|]. simpl. destruct (String.eqb_spec k name) as [->|].
  - intros [= ->]. by left.
  - intros Hs. right. by apply IH.
Qed.

Lemma elem_of_entries_dir rel m es row :
  row ∈ entries_below rel (NDir m es) ↔
  ∃ name c l, (name, c) ∈ es ∧ leaf_of c = Some l ∧
    (row = (rel ++ [name], l) ∨ row ∈ entries_below (rel ++ [name]) c).
Proof.
  cbn [entries_below]. destruct (sorted_rows (λ name c, match leaf_of c with
    | Some l => (rel ++ [name], l) :: entries_below (rel ++ [name]) c
    | None => []
    end) (λ _ c, c) es) as (es' & Hp & -> & _).
  setoid_rewrite <- Hp. clear es Hp. rename es' into es. induction es as [|[name c] es IH]; simpl.
  - split; [by intros ?%elem_of_nil|]. by intros (? & ? & ? & ?%elem_of_nil & _).
  - rewrite elem_of_app, IH. clear IH. split.
    + intros [Hr|(name' & c' & l & Hin & Hl & Hr)].
      * destruct (leaf_of c) as [l|] eqn:El; [|by apply elem_of_nil in Hr].
        exists name, c, l. split; [by left|]. split; [done|]. by apply elem_of_cons in Hr.
      * exists name', c', l. split; [by right|done].
    + intros (name' & c' & l & Hin & Hl & Hr). apply elem_of_cons in Hin as [[= -> ->]|Hin]; [left|right; eauto 10].
      rewrite Hl. by apply elem_of_cons.
Qed.

Lemma elem_of_entries rel n q l :
  named n → (q, l) ∈ entries_below rel n ↔ ∃ p, p ≠ [] ∧ q = rel ++ p ∧ entry_at n p = Some l.
Proof.
  revert rel q. induction n as [c m|m es IH|t|] using node_tree_ind; intros rel q Hn; simpl.
  1,3,4: split; [by intros ?%elem_of_nil|by intros ([|] & ? & _ & ?)].
  inversion Hn as [| | |? ? Hnd Hes]; subst. rewrite Forall_forall in IH, Hes.
  assert (∀ name c, (name, c) ∈ es → ∀ rel q,
    (q, l) ∈ entries_below rel c ↔ ∃ p, p ≠ [] ∧ q = rel ++ p ∧ entry_at c p = Some l) as IH'.
  { intros name c Hin rel' q'. apply (IH (name, c) Hin rel' q'). by apply (Hes (name, c)). }
  rewrite (elem_of_entries_dir rel m es). split.
  - intros (name & c & l' & Hin & Hl & [[= -> ->]|Hr]).
    + exists [name]. split_and!; [done..|]. simpl. by rewrite (entry_of_elem _ _ _ Hnd Hin).
    + apply (IH' _ _ Hin) in Hr as (p & Hp & -> & He). exists (name :: p). rewrite <- app_assoc.
      split_and!; [done..|]. simpl. by rewrite (entry_of_elem _ _ _ Hnd Hin).
  - intros (p & Hp & -> & He). destruct p as [|name p]; [done|]. simpl in He.
    destruct (entry_of es name) as [c|] eqn:Ec; [|done]. apply entry_of_Some in Ec. simpl in He.
    assert (∃ l', leaf_of c = Some l') as [l' Hl'].
    { destruct p; [simpl in He; eauto|]. destruct c; [done|by eexists|done..]. }
    exists name, c, l'. split; [done|]. split; [done|]. destruct p as [|name' p].
    + left. simpl in He. congruence.
    + right. apply (IH' _ _ Ec). exists (name' :: p). by rewrite <- app_assoc.
Qed.

Lemma entry_names n p l :
  named n → entry_at n p = Some l → Forall (λ c, c ≠ "" ∧ char_contains "/" c = false) p.
Proof.
  revert p. induction n as [c m|m es IH|t|] using node_tree_ind; intros [|name p] Hn; simpl; try done.
  inversion Hn as [| | |? ? Hnd Hes]; subst. destruct (entry_of es name) as [c|] eqn:Ec; [|done].
  apply entry_of_Some in Ec. rewrite Forall_forall in IH, Hes. destruct (Hes _ Ec) as (Hne & Hsep & Hc).
  intros He. constructor; [done|]. by apply (IH _ Ec p).
Qed.

Lemma leaf_of_mode n l : leaf_of n = Some l → match l with LDir m | LFile m _ => m < 4096 | LLink _ => True end.
Proof.
  assert (∀ m, N.land m 4095 < 4096) as Hm.
  { intros m. change 4095 with (N.ones 12). rewrite N.land_ones. by apply N.mod_lt. }
  destruct n; intros [= <-]; try done; apply Hm.
Qed.

Lemma entry_at_mode n p l : entry_at n p = Some l → match l with LDir m | LFile m _ => m < 4096 | LLink _ => True end.
Proof.
  revert n. induction p as [|name p IH]; intros n; [by apply leaf_of_mode|]. simpl.
  destruct n as [|m es| |]; try done. destruct (entry_of es name) as [c|]; [|done]. apply IH.
Qed.

Lemma entries_fit n : named n → tree_fits n → Forall entry_fits (entries_below [] n).
Proof.
  intros Hn Hf. apply Forall_forall. intros [q l] Hin. apply elem_of_entries in Hin as (p & Hp & -> & He); [|done].
  destruct (Hf _ _ He) as [Ha Hl]. pose proof (entry_at_mode _ _ _ He) as Hm. simpl.
  split; [done|]. split; [by eapply entry_names|]. split; [done|]. by destruct l.
Qed.

Lemma entries_determine n n' :
  named n → named n' → entries_below [] n = entries_below [] n' →
  ∀ p, p ≠ [] → entry_at n p = entry_at n' p.
Proof.
  intros Hn Hn' Heq p Hp. apply option_eq. intros l.
  assert (∀ t, named t → entry_at t p = Some l ↔ (p, l) ∈ entries_below [] t) as Hiff.
  { intros t Ht. rewrite elem_of_entries by done. split; [by exists p|]. by intros (q & _ & -> & ?). }
  by rewrite (Hiff n), (Hiff n'), Heq.
Qed.

(** A tree is bounded when its entries are. *)
Lemma tree_fits_entries n :
  named n → match leaf_of n with Some l => leaf_addressable l | None => True end →
  Forall (λ row, addressable (as_bytes (path_text (fst row))) ∧ leaf_addressable (snd row)) (entries_below [] n) →
  tree_fits n.
Proof.
  intros Hn Hroot Hall p l Hp. destruct p as [|name p].
  - simpl in Hp. rewrite Hp in Hroot. by split.
  - rewrite Forall_forall in Hall. apply (Hall (name :: p, l)). apply elem_of_entries; [done|]. by exists (name :: p).
Qed.

#[export] Instance leaf_addressable_dec l : Decision (leaf_addressable l).
Proof. destruct l; apply _. Defined.

(** ** Properties *)

Section Properties.
Context `{Blake3}.

Lemma artifact_digest_binds n n' :
  named n → named n' → tree_fits n → tree_fits n' →
  digest_of (artifact_bytes n) = digest_of (artifact_bytes n') →
  (∀ p, p ≠ [] → entry_at n p = entry_at n' p) ∨ collides blake3_hash (artifact_bytes n) (artifact_bytes n').
Proof.
  intros Hn Hn' Hf Hf' Hd. destruct (decide (artifact_bytes n = artifact_bytes n')) as [Heq|Hne]; [|by right].
  left. apply entries_determine; [done..|]. unfold artifact_bytes in Heq. apply app_inv_head in Heq.
  apply entries_inj; [by apply entries_fit..|done].
Qed.

(** The artifact digest is a fingerprint of the whole tree.  Two directory
    trees that hash alike show, at every path below their roots, the same kind of
    entry, the same permission bits, the same file bytes and the same link target,
    in whatever order their directories list them and however they are read, or
    their exact preimages are a collision of BLAKE3. *)
Theorem hash_artifact_binds env env' root root' n n' d :
  named n → named n' → tree_fits n → tree_fits n' →
  hash_artifact env root (Some n) = Ok d → hash_artifact env' root' (Some n') = Ok d →
  (∀ p, p ≠ [] → entry_at n p = entry_at n' p) ∨ collides blake3_hash (artifact_bytes n) (artifact_bytes n').
Proof.
  intros Hn Hn' Hf Hf' (t & [= <-] & Ht)%hash_artifact_Ok (t' & [= <-] & Ht')%hash_artifact_Ok.
  apply artifact_digest_binds; [done..|congruence].
Qed.
End Properties.

(** ** One tree listed in two orders *)

Module ArtifactReference.
Import Reference.

Definition calm_env : gen_env :=
  {| ge_io _ _ := None; ge_pid := 7; ge_faults _ := false; ge_written := 0; ge_copied := None |}.
Definition file_a : string * node := ("a", NFile [x01; x02] 420).
Definition sub_b : string * node := ("b", NDir 493 [("link", NSymlink "../a"); ("empty", NFile [] 33188)]).
Definition tree1 : node := NDir 448 [file_a; sub_b].
Definition tree2 : node := NDir 493 [sub_b; file_a].

Lemma named1 : named tree1.
Proof. repeat (constructor; try set_solver). Qed.
Lemma named2 : named tree2.
Proof. repeat (constructor; try set_solver). Qed.
Lemma fits1 : tree_fits tree1.
Proof. apply (tree_fits_entries _ named1); [done|]. apply (bool_decide_unpack (Forall _ _)). vm_compute. exact I. Qed.
Lemma fits2 : tree_fits tree2.
Proof. apply (tree_fits_entries _ named2); [done|]. apply (bool_decide_unpack (Forall _ _)). vm_compute. exact I. Qed.

Definition digest1 : Digest := digest_of (artifact_bytes tree1).
Lemma hash1 : hash_artifact calm_env "/keep" (Some tree1) = Ok digest1.
Proof. vm_compute. reflexivity. Qed.
Lemma hash2 : hash_artifact calm_env "/other" (Some tree2) = Ok digest1.
Proof. vm_compute. reflexivity. Qed.

Example hash_artifact_binds_witness :
  (∀ p, p ≠ [] → entry_at tree1 p = entry_at tree2 p) ∨
  collides blake3_hash (artifact_bytes tree1) (artifact_bytes tree2).
Proof.
  exact (hash_artifact_binds calm_env calm_env "/keep" "/other" tree1 tree2 digest1
    named1 named2 fits1 fits2 hash1 hash2).
Defined.
End ArtifactReference.
