(* ===== verification/Scope.v ===== *)
(** [crates/bullet-git-workspace/src/scope.rs], [patch.rs], [status.rs],
    [advisers.rs] and [lineage.rs]: normalized paths, the scope grant over them,
    whole-batch admission, the classification of [git status] lines, and the
    process-local lineage.

    [nfc] is the class of [Proposal.v]; [char::to_lowercase] applied to each
    character of a path is [chars_to_lowercase]. *)

From S2P Require Import Prelude Decimal Digests Ids Proposal Candidate Lineage Journal Capability.

Class CharCase : Type := chars_to_lowercase : string → string.

(** ** Scope ([scope.rs]) *)

Section Scope.
Context `{Unicode}.

(** The loop body of [normalize_rel_path]. *)
Definition normalize_segment (raw segment : string) : result unit CapabilityError :=
  fail_if (String.eqb segment "" || String.eqb segment "." || String.eqb segment "..")
    (CapOutOfScope raw) ;?
  fail_if (eq_ignore_ascii_case segment ".git" || char_contains ":"%char segment
           || (ends_with "." segment || ends_with " " segment))
    (CapOutOfScope raw).

Definition normalize_rel_path (raw : string) : result string CapabilityError :=
  let normalized := nfc raw in
  fail_if (String.eqb normalized "" || starts_with "/" normalized
           || char_contains "\"%char normalized || char_contains NUL normalized)
    (CapOutOfScope raw) ;?
  try_for (normalize_segment raw) (split "/"%char normalized) ;?
  Ok (String.concat "/" (split "/"%char normalized)).

Record ScopeGrant : Type := { allowed_prefixes : list string }.

(** [ScopeGrant::new] *)
Definition scope_new (prefixes : list string) : result ScopeGrant CapabilityError :=
  let? allowed := try_map (λ prefix,
      normalize_rel_path (default prefix (strip_suffix "/" prefix))) prefixes in
  Ok {| allowed_prefixes := allowed |}.

(** [iter().zip().all(==)] *)
Fixpoint zip_equal (l k : list string) : bool :=
  match l, k with
  | a :: l, b :: k => String.eqb a b && zip_equal l k
  | _, _ => true
  end.

(** [ScopeGrant::permits] *)
Definition permits (g : ScopeGrant) (normalized_path : string) : bool :=
  let path_segments := split "/"%char normalized_path in
  existsb (λ prefix,
    let prefix_segments := split "/"%char prefix in
    (blen prefix_segments <=? blen path_segments) && zip_equal prefix_segments path_segments)
    (allowed_prefixes g).

(** [ScopeGrant::check] *)
Definition scope_check (g : ScopeGrant) (raw : string) : result string CapabilityError :=
  let? normalized := normalize_rel_path raw in
  if permits g normalized then Ok normalized else Err (CapOutOfScope raw).
End Scope.

(** ** Batches ([patch.rs]) *)

Inductive PatchOp : Type :=
  | OpWrite (contents : bytes)
  | OpDelete.

Record PatchHunk : Type := { hunk_path : string; hunk_op : PatchOp }.

(** [PatchHunk::write], [PatchHunk::delete] *)
Definition hunk_write (path : string) (contents : bytes) : PatchHunk :=
  {| hunk_path := path; hunk_op := OpWrite contents |}.
Definition hunk_delete (path : string) : PatchHunk :=
  {| hunk_path := path; hunk_op := OpDelete |}.

Section Batch.
Context `{Unicode, CharCase}.

(** The state of the admission loop: the paths so far in order, the [seen] set,
    the [portable] map and the running byte total. *)
Record batch_state : Type := {
  bs_normalized : list string;
  bs_seen : gset string;
  bs_portable : gmap string string;
  bs_aggregate : N
}.

Definition batch_start : batch_state :=
  {| bs_normalized := []; bs_seen := ∅; bs_portable := ∅; bs_aggregate := 0 |}.

(** The loop body of [validate_batch]. *)
Definition validate_hunk (grant : ScopeGrant) (exists_ : string → bool) (s : batch_state)
    (patch : PatchHunk) : result batch_state CapabilityError :=
  let? path := scope_check grant (hunk_path patch) in
  let? aggregate :=
    match hunk_op patch with
    | OpWrite contents =>
        fail_if (MAX_CONTENT_BYTES <? blen contents)
          (CapContentTooLarge path MAX_CONTENT_BYTES (blen contents)) ;?
        let? aggregate := ok_or (checked_add (bs_aggregate s) (blen contents))
                            (CapAggregateContentTooLarge MAX_AGGREGATE_CONTENT_BYTES usize_max) in
        fail_if (MAX_AGGREGATE_CONTENT_BYTES <? aggregate)
          (CapAggregateContentTooLarge MAX_AGGREGATE_CONTENT_BYTES aggregate) ;?
        Ok aggregate
    | OpDelete => Ok (bs_aggregate s)
    end in
  fail_if (bool_decide (path ∈ bs_seen s)) (CapDuplicatePath path) ;?
  let portable_key := chars_to_lowercase path in
  match bs_portable s !! portable_key with
  | Some first => Err (CapPathCollision first path)
  | None =>
      fail_if (match hunk_op patch with OpDelete => negb (exists_ path) | OpWrite _ => false end)
        (CapPathAbsent path) ;?
      Ok {| bs_normalized := bs_normalized s ++ [path];
            bs_seen := {[ path ]} ∪ bs_seen s;
            bs_portable := <[portable_key := path]> (bs_portable s);
            bs_aggregate := aggregate |}
  end.

Definition validate_batch (grant : ScopeGrant) (patches : list PatchHunk) (exists_ : string → bool)
    : result (list string) CapabilityError :=
  fail_if ((blen patches =? 0) || (MAX_PATCH_OPERATIONS <? blen patches))
    (CapInvalidOperationCount MAX_PATCH_OPERATIONS (blen patches)) ;?
  let? s := try_fold (validate_hunk grant exists_) batch_start patches in
  Ok (bs_normalized s).
End Batch.

(** ** [git status] lines ([status.rs]) *)

Inductive StatusEntry : Type :=
  | Tracked (path : string)
  | Untracked (path : string).

(** [str::splitn(n, c)]: the first [n - 1] separators split. *)
Fixpoint splitn (n : nat) (c : ascii) (s : string) : list string :=
  match n with
  | O => []
  | S O => [s]
  | S n => match split_once c s with
           | Some (a, b) => a :: splitn n c b
           | None => [s]
           end
  end.

Definition TAB : ascii := Ascii.ascii_of_N 9.

Definition parse_status_line (line : string) : option StatusEntry :=
  match split_once " "%char line with
  | None => None
  | Some (kind, rest) =>
      if String.eqb kind "?" then Some (Untracked rest)
      else if String.eqb kind "1" then Tracked <$> (splitn 8 " "%char rest !! 7%nat)
      else if String.eqb kind "u" then Tracked <$> (splitn 10 " "%char rest !! 9%nat)
      else if String.eqb kind "2" then
        (λ tail, Tracked (default tail (head (split TAB tail)))) <$> (splitn 9 " "%char rest !! 8%nat)
      else None
  end.

(** [RealRepository::classify_scan] ([repository_guards.rs]), on one entry. *)
Definition classify_entry `{Unicode} (grant : ScopeGrant) (entry : StatusEntry)
    : result string CapabilityError :=
  match entry with
  | Untracked path =>
      match normalize_rel_path path with
      | Ok n => if permits grant n then Ok path else Err (CapUnclassifiedUntracked path)
      | Err _ => Err (CapUnclassifiedUntracked path)
      end
  | Tracked path =>
      let? normalized := normalize_rel_path path in
      fail_if (negb (permits grant normalized)) (CapOutOfScope path) ;?
      Ok normalized
  end.

(** [Vec::dedup] *)
Fixpoint dedup (l : list string) : list string :=
  match l with
  | x :: ((y :: _) as l') => if String.eqb x y then dedup l' else x :: dedup l'
  | l => l
  end.

Definition classify_scan `{Unicode} (grant : ScopeGrant) (entries : list StatusEntry)
    : result (list string) CapabilityError :=
  let? touched := try_map (classify_entry grant) entries in
  Ok (dedup (merge_sort String.le touched)).

(** [serde_json::to_string], or the text for a scope it refuses. *)
Class ScopeText : Type := scope_text : list RepoPath → string.

(** ** Advisers ([advisers.rs]) *)

Record Advice : Type := { advice_note : string; advice_paths : list string }.

Definition overlaps (existing key : string) : bool :=
  String.eqb existing key || starts_with (key +:+ "/") existing || starts_with (existing +:+ "/") key.

(** The loop of [forecast_conflicts] over all paths of all intents. *)
Fixpoint forecast_loop (seen : list string) (keys : list string) : list string :=
  match keys with
  | [] => []
  | key :: keys =>
      let rest := forecast_loop (seen ++ [key]) keys in
      if existsb (λ existing, overlaps existing key) seen then key :: rest else rest
  end.

Definition forecast_conflicts (intents : list (list RepoPath)) : Advice :=
  let collisions := forecast_loop [] (map path_str (List.concat intents)) in
  {| advice_note := if decide (collisions = []) then "no path overlap forecast"
                    else "path overlap forecast; write-set proof still decides";
     advice_paths := collisions |}.

Definition intent_aware_revert (written : list RepoPath) : Advice :=
  {| advice_note := "revert advice only; apply_change remains the writer";
     advice_paths := map path_str written |}.

Definition patch_algebra_disjoint (left right : list RepoPath) : Advice :=
  let overlap := forecast_conflicts [left; right] in
  {| advice_note := if decide (advice_paths overlap = [])
       then "disjoint writes may commute; still require independent Evidence"
       else "writes overlap; do not commute without a new Candidate";
     advice_paths := advice_paths overlap |}.

(** ** Lemmas: segments *)

Lemma split_nonempty c s : split c s ≠ [].
Proof. destruct s as [|d s]; simpl; [done|]. destruct (Ascii.eqb c d); [done|]. by destruct (split c s). Qed.

Lemma concat_cons sep x l : l ≠ [] → String.concat sep (x :: l) = x +:+ sep +:+ String.concat sep l.
Proof. by destruct l. Qed.

Lemma concat_split c s : String.concat (String c "") (split c s) = s.
Proof.
  induction s as [|d s IH]; [done|]. simpl. destruct (Ascii.eqb_spec c d) as [->|Hne].
  - rewrite concat_cons by apply split_nonempty. by rewrite IH.
  - destruct (split c s) as [|w ws] eqn:E; [by destruct (split_nonempty c s)|].
    rewrite <- IH. by destruct ws.
Qed.

Lemma split_app c s t : split c (s +:+ String c "" +:+ t) = split c s ++ split c t.
Proof.
  induction s as [|d s IH].
  - rewrite string_app_nil, string_app_cons, string_app_nil. simpl. by rewrite Ascii.eqb_refl.
  - rewrite string_app_cons. simpl. destruct (Ascii.eqb c d); [by rewrite IH|].
    rewrite IH. destruct (split c s) as [|w ws] eqn:E; [by destruct (split_nonempty c s)|]. done.
Qed.

Lemma concat_app sep l k :
  l ≠ [] → k ≠ [] → String.concat sep (l ++ k) = String.concat sep l +:+ sep +:+ String.concat sep k.
Proof.
  intros Hl Hk. induction l as [|x l IH]; [done|]. destruct l as [|y l].
  - simpl app. by rewrite concat_cons.
  - rewrite <- app_comm_cons, !concat_cons by done. by rewrite IH, !string_app_assoc.
Qed.

(** A list of segments is a prefix of another exactly when the texts say so. *)
Lemma split_prefix c q p :
  (∃ k, split c p = split c q ++ k) ↔ p = q ∨ ∃ r, p = q +:+ String c "" +:+ r.
Proof.
  split.
  - intros [k Hk]. pose proof (f_equal (String.concat (String c "")) Hk) as E.
    rewrite concat_split in E. destruct k as [|x k].
    + rewrite app_nil_r, concat_split in E. by left.
    + rewrite concat_app, concat_split in E by (done || apply split_nonempty). right. eauto.
  - intros [->|[r ->]]; [exists []; by rewrite app_nil_r|]. exists (split c r). apply split_app.
Qed.

Lemma zip_equal_prefix l k :
  (blen l <=? blen k) && zip_equal l k = true ↔ ∃ m, k = l ++ m.
Proof.
  rewrite andb_true_iff, N.leb_le. revert k. induction l as [|a l IH]; intros k; simpl.
  - split; [by exists k|]. intros _. split; [unfold blen; simpl; lia|done].
  - destruct k as [|b k]; [split; [unfold blen; simpl; lia|by intros [m [=]]]|].
    rewrite andb_true_iff, String.eqb_eq. assert (blen (a :: l) <= blen (b :: k) ↔ blen l <= blen k) as ->
      by (unfold blen; simpl; lia).
    split; [intros (Hle & -> & Hz); destruct (proj1 (IH k) (conj Hle Hz)) as [m ->]; by exists m|].
    intros [m [= -> ->]]. destruct (proj2 (IH (l ++ m))) as [? ?]; [by exists m|]. done.
Qed.

(** ** What a normalized path is *)

Definition segment_portable (segment : string) : Prop :=
  segment ≠ "" ∧ segment ≠ "." ∧ segment ≠ ".." ∧
  eq_ignore_ascii_case segment ".git" = false ∧ char_contains ":"%char segment = false ∧
  ends_with "." segment = false ∧ ends_with " " segment = false.

Record rel_path (p : string) : Prop := {
  rp_nonempty : p ≠ "";
  rp_relative : starts_with "/" p = false;
  rp_backslash : char_contains "\"%char p = false;
  rp_nul : char_contains NUL p = false;
  rp_segments : Forall segment_portable (split "/"%char p)
}.

(** NFC normalization is idempotent (Unicode Standard Annex 15). *)
Class NfcLaws `{Unicode} : Prop := nfc_idempotent s : nfc (nfc s) = nfc s.

Section ScopeFacts.
Context `{Unicode}.

Lemma normalize_segment_Ok raw segment :
  normalize_segment raw segment = Ok tt ↔ segment_portable segment.
Proof.
  unfold normalize_segment, segment_portable. rewrite res_bind_unit, !fail_if_Ok.
  rewrite !orb_false_iff, !String.eqb_neq. tauto.
Qed.

Lemma normalize_rel_path_Ok raw p :
  normalize_rel_path raw = Ok p ↔ p = nfc raw ∧ rel_path p.
Proof.
  unfold normalize_rel_path. rewrite (concat_split "/"%char). split.
  - intros Hok. res_inv. split; [done|]. apply try_for_Ok in Hr0.
    rewrite !orb_false_iff, String.eqb_neq in Hr. destruct Hr as [[[? ?] ?] ?].
    constructor; try done. eapply Forall_impl; [exact Hr0|]. intros s. by apply normalize_segment_Ok.
  - intros [-> [Hne Hrel Hb Hn Hs]]. apply String.eqb_neq in Hne. rewrite Hne, Hrel, Hb, Hn. simpl.
    assert (try_for (normalize_segment raw) (split "/"%char (nfc raw)) = Ok tt) as ->; [|done].
    apply try_for_Ok. eapply Forall_impl; [exact Hs|]. intros s. by apply normalize_segment_Ok.
Qed.

(** Covered segment-wise is covered textually, at a segment boundary. *)
Lemma permits_prefix g p :
  permits g p = true ↔
  ∃ q, q ∈ allowed_prefixes g ∧ (p = q ∨ ∃ r, p = q +:+ "/" +:+ r).
Proof.
  unfold permits. rewrite existsb_exists. split.
  - intros (q & Hin & Hq). exists q. split; [by apply list_elem_of_In|].
    apply (split_prefix "/"%char), zip_equal_prefix, Hq.
  - intros (q & Hin & Hq). exists q. split; [by apply list_elem_of_In|].
    apply zip_equal_prefix, (split_prefix "/"%char), Hq.
Qed.

Lemma scope_check_Ok g raw p :
  scope_check g raw = Ok p ↔ p = nfc raw ∧ rel_path p ∧ permits g p = true.
Proof.
  unfold scope_check. rewrite res_bind_Ok. split.
  - intros (p' & Hn%normalize_rel_path_Ok & Hp). destruct (permits g p') eqn:E; [|done].
    injection Hp as <-. tauto.
  - intros (-> & Hr & Hp). exists (nfc raw). rewrite normalize_rel_path_Ok, Hp. done.
Qed.

(** Normalization succeeds exactly on texts whose NFC form is a portable
    relative path (no absolute path, backslash, NUL, empty, dot or .git segment,
    stream syntax, trailing dot or space), returns that form, is idempotent, and
    refuses everything else as OUT_OF_SCOPE naming the raw path. *)
Theorem normalize_rel_path_exact `{!NfcLaws} raw :
  match normalize_rel_path raw with
  | Ok p => p = nfc raw ∧ rel_path p ∧ normalize_rel_path p = Ok p
  | Err e => e = CapOutOfScope raw ∧ ¬ rel_path (nfc raw)
  end.
Proof.
  destruct (normalize_rel_path raw) as [p|e] eqn:E.
  - apply normalize_rel_path_Ok in E as [-> Hr]. split; [done|]. split; [done|].
    apply normalize_rel_path_Ok. by rewrite nfc_idempotent.
  - split.
    + unfold normalize_rel_path in E. apply res_bind_Err in E as [E|([] & _ & E)].
      { by apply fail_if_Err in E as [_ ->]. }
      apply res_bind_Err in E as [E|([] & _ & [=])]. revert E.
      induction (split "/"%char (nfc raw)) as [|s l IH]; simpl; [done|].
      intros [E|([] & _ & E)]%res_bind_Err; [|by apply IH].
      unfold normalize_segment in E. apply res_bind_Err in E as [E|([] & _ & E)];
        by apply fail_if_Err in E as [_ ->].
    + intros Hr. assert (normalize_rel_path raw = Ok (nfc raw)) as Hok; [|congruence].
      by apply normalize_rel_path_Ok.
Qed.

(** The segment-wise coverage test is the textual one at a segment boundary:
    a path is permitted exactly when it is a granted prefix or lies below one. *)
Theorem permits_is_path_prefix g p :
  permits g p = existsb (λ q, String.eqb p q || starts_with (q +:+ "/") p) (allowed_prefixes g).
Proof.
  apply Bool.eq_true_iff_eq. rewrite permits_prefix, existsb_exists. split.
  - intros (q & Hin & Hq). exists q. split; [by apply list_elem_of_In|].
    rewrite orb_true_iff, String.eqb_eq, starts_with_spec.
    destruct Hq as [?|[r ->]]; [by left|right]. exists r. by rewrite string_app_assoc.
  - intros (q & Hin & Hq). exists q. split; [by apply list_elem_of_In|].
    rewrite orb_true_iff, String.eqb_eq, starts_with_spec in Hq.
    destruct Hq as [?|[r ->]]; [by left|right]. exists r. by rewrite string_app_assoc.
Qed.
End ScopeFacts.

(** ** Batch admission *)

Section BatchFacts.
Context `{Unicode, CharCase}.

Definition hunk_len (h : PatchHunk) : N :=
  match hunk_op h with OpWrite c => blen c | OpDelete => 0 end.

Definition batch_len (hs : list PatchHunk) : N := foldr (λ h acc, hunk_len h + acc) 0 hs.

(** [h] may be applied, at the normalized path [p]. *)
Definition hunk_admitted (g : ScopeGrant) (exists_ : string → bool) (h : PatchHunk) (p : string) : Prop :=
  scope_check g (hunk_path h) = Ok p ∧ hunk_len h <= MAX_CONTENT_BYTES ∧
  (hunk_op h = OpDelete → exists_ p = true).

Record batch_inv (s : batch_state) : Prop := {
  bi_seen p : p ∈ bs_seen s ↔ p ∈ bs_normalized s;
  bi_portable k : is_Some (bs_portable s !! k) ↔ k ∈ map chars_to_lowercase (bs_normalized s);
  bi_nodup : NoDup (map chars_to_lowercase (bs_normalized s));
  bi_aggregate : bs_aggregate s <= MAX_AGGREGATE_CONTENT_BYTES
}.

Lemma batch_start_inv : batch_inv batch_start.
Proof.
  constructor; simpl.
  - intros p. set_solver.
  - intros k. rewrite lookup_empty. split; [by intros [? [=]]|]. by intros ?%elem_of_nil.
  - constructor.
  - vm_compute. discriminate.
Qed.

Lemma validate_hunk_Ok g exists_ s h s' :
  batch_inv s →
  (validate_hunk g exists_ s h = Ok s' ↔
   ∃ p, hunk_admitted g exists_ h p ∧
        bs_aggregate s + hunk_len h <= MAX_AGGREGATE_CONTENT_BYTES ∧
        chars_to_lowercase p ∉ map chars_to_lowercase (bs_normalized s) ∧
        s' = {| bs_normalized := bs_normalized s ++ [p];
                bs_seen := {[ p ]} ∪ bs_seen s;
                bs_portable := <[chars_to_lowercase p := p]> (bs_portable s);
                bs_aggregate := bs_aggregate s + hunk_len h |}).
Proof.
  intros [Hseen Hport _ Hagg]. unfold validate_hunk, hunk_admitted, hunk_len.
  assert (∀ p, chars_to_lowercase p ∉ map chars_to_lowercase (bs_normalized s) →
            p ∉ bs_seen s ∧ bs_portable s !! chars_to_lowercase p = None) as Hfresh.
  { intros p Hp. split.
    - intros Hin%Hseen. apply Hp. by apply list_elem_of_fmap_2.
    - apply eq_None_not_Some. by rewrite Hport. }
  unfold MAX_AGGREGATE_CONTENT_BYTES, checked_add, u64_max in *. split.
  - intros Hok. apply res_bind_Ok in Hok as (p & Hp & Hok).
    apply res_bind_Ok in Hok as (agg & Ha & Hok). apply res_bind_Ok in Hok as ([] & Hs & Hok).
    destruct (bs_portable s !! chars_to_lowercase p) eqn:E; [done|].
    apply res_bind_Ok in Hok as ([] & He & Hok). injection Hok as <-.
    assert (chars_to_lowercase p ∉ map chars_to_lowercase (bs_normalized s)) as Hnew.
    { rewrite <- Hport, E. by intros [? [=]]. }
    apply fail_if_Ok in He. exists p. destruct (hunk_op h) as [c|].
    + res_inv. bools. destruct (bs_aggregate s + blen c <=? 18446744073709551615); [|done].
      injection Hr0 as <-. bools. done.
    + injection Ha as <-. apply negb_false_iff in He. rewrite N.add_0_r.
      split_and!; try done; vm_compute; discriminate.
  - intros (p & (Hp & Hlen & Hdel) & Hsum & Hnew & ->). rewrite Hp. simpl.
    destruct (Hfresh p Hnew) as [Hns Hnp]. rewrite (bool_decide_eq_false_2 _ Hns), Hnp.
    destruct (hunk_op h) as [c|]; simpl.
    + assert (MAX_CONTENT_BYTES <? blen c = false) as -> by (by apply N.ltb_ge). simpl.
      assert (bs_aggregate s + blen c <=? 18446744073709551615 = true) as ->
        by (apply N.leb_le; lia). simpl.
      by assert (32 * 1048576 <? bs_aggregate s + blen c = false) as -> by (by apply N.ltb_ge).
    + rewrite Hdel by done. by rewrite N.add_0_r.
Qed.

Lemma validate_hunk_inv g exists_ s h s' :
  batch_inv s → validate_hunk g exists_ s h = Ok s' → batch_inv s'.
Proof.
  intros Hi Hok. pose proof Hi as [Hseen Hport Hnd Hagg].
  apply (validate_hunk_Ok _ _ _ _ _ Hi) in Hok as (p & _ & Hsum & Hnew & ->).
  constructor; simpl.
  - intros q. rewrite elem_of_app, list_elem_of_singleton, <- Hseen. set_solver.
  - intros k. rewrite map_app, elem_of_app, <- Hport. simpl. rewrite list_elem_of_singleton.
    destruct (decide (k = chars_to_lowercase p)) as [->|Hne].
    + rewrite lookup_insert_eq. naive_solver.
    + rewrite lookup_insert_ne by done. naive_solver.
  - rewrite map_app. apply NoDup_app. split; [done|]. split; [|apply NoDup_singleton].
    intros x Hx ->%list_elem_of_singleton. done.
  - exact Hsum.
Qed.

Lemma validate_hunks_sound g exists_ s hs s' :
  batch_inv s → try_fold (validate_hunk g exists_) s hs = Ok s' →
  ∃ ps, Forall2 (hunk_admitted g exists_) hs ps ∧
        bs_aggregate s + batch_len hs <= MAX_AGGREGATE_CONTENT_BYTES ∧
        NoDup (map chars_to_lowercase (bs_normalized s ++ ps)) ∧
        bs_normalized s' = bs_normalized s ++ ps.
Proof.
  revert s. induction hs as [|h hs IH]; intros s Hi; simpl.
  - intros [= <-]. exists []. pose proof Hi as []. rewrite app_nil_r.
    by rewrite N.add_0_r.
  - intros Hok. apply res_bind_Ok in Hok as (s1 & H1 & Hok).
    pose proof (validate_hunk_inv _ _ _ _ _ Hi H1) as Hi1.
    destruct (IH s1 Hi1 Hok) as (ps & Hall & Hsum & Hnd & Hn).
    apply (validate_hunk_Ok _ _ _ _ _ Hi) in H1 as (p & Hp & Hs1 & Hnew & ->).
    simpl in *. exists (p :: ps). rewrite <- app_assoc in Hnd, Hn. simpl in Hnd, Hn.
    split_and!; try done; [by constructor|]. unfold batch_len in *. simpl. lia.
Qed.

Lemma validate_hunks_complete g exists_ s hs ps :
  batch_inv s → Forall2 (hunk_admitted g exists_) hs ps →
  bs_aggregate s + batch_len hs <= MAX_AGGREGATE_CONTENT_BYTES →
  NoDup (map chars_to_lowercase (bs_normalized s ++ ps)) →
  ∃ s', try_fold (validate_hunk g exists_) s hs = Ok s' ∧ bs_normalized s' = bs_normalized s ++ ps.
Proof.
  intros Hi Hall. revert s Hi. induction Hall as [|h p hs ps Hp Hall IH]; intros s Hi Hsum Hnd; simpl.
  - exists s. by rewrite app_nil_r.
  - unfold batch_len in Hsum. simpl in Hsum. fold (batch_len hs) in Hsum.
    assert (validate_hunk g exists_ s h = Ok
      {| bs_normalized := bs_normalized s ++ [p]; bs_seen := {[ p ]} ∪ bs_seen s;
         bs_portable := <[chars_to_lowercase p := p]> (bs_portable s);
         bs_aggregate := bs_aggregate s + hunk_len h |}) as H1.
    { apply (validate_hunk_Ok _ _ _ _ _ Hi). exists p. split; [done|]. split; [lia|].
      split; [|done]. rewrite map_app in Hnd. apply NoDup_app in Hnd as (_ & Hd & _).
      intros Hin. apply (Hd _ Hin). by left. }
    rewrite H1. simpl. pose proof (validate_hunk_inv _ _ _ _ _ Hi H1) as Hi1.
    destruct (IH _ Hi1) as (s' & Hs' & Hn); simpl; [lia|by rewrite <- app_assoc|].
    exists s'. split; [done|]. rewrite Hn. simpl. by rewrite <- app_assoc.
Qed.

Lemma validate_batch_Ok g hs exists_ ps :
  validate_batch g hs exists_ = Ok ps ↔
  1 <= blen hs <= MAX_PATCH_OPERATIONS ∧ Forall2 (hunk_admitted g exists_) hs ps ∧
  batch_len hs <= MAX_AGGREGATE_CONTENT_BYTES ∧ NoDup (map chars_to_lowercase ps).
Proof.
  unfold validate_batch. split.
  - intros Hok. res_inv. bools.
    destruct (validate_hunks_sound g exists_ batch_start hs r0 batch_start_inv Hr0)
      as (ps & Hall & Hsum & Hnd & Hn). simpl in *. rewrite Hn. split; [lia|]. done.
  - intros (Hlen & Hall & Hsum & Hnd).
    assert ((blen hs =? 0) || (MAX_PATCH_OPERATIONS <? blen hs) = false) as -> by (bools; lia). simpl.
    destruct (validate_hunks_complete g exists_ batch_start hs ps batch_start_inv Hall) as (s' & Hs & Hn);
      [done|done|]. rewrite Hs. simpl. by rewrite Hn.
Qed.

(** A batch is admitted, at these paths, exactly when it has one to 128
    operations, every path normalizes inside the grant, no two paths are equal
    after portable case folding, every body is within 1 MiB and all within
    32 MiB, and every delete names an existing file. *)
Theorem validate_batch_exact g hs exists_ ps :
  validate_batch g hs exists_ = Ok ps ↔
  1 <= blen hs <= MAX_PATCH_OPERATIONS ∧
  Forall2 (λ h p, p = nfc (hunk_path h) ∧ rel_path p ∧ permits g p = true ∧
                  hunk_len h <= MAX_CONTENT_BYTES ∧
                  (hunk_op h = OpDelete → exists_ p = true)) hs ps ∧
  batch_len hs <= MAX_AGGREGATE_CONTENT_BYTES ∧ NoDup (map chars_to_lowercase ps).
Proof.
  rewrite validate_batch_Ok. apply and_iff_compat_l, and_iff_compat_r.
  split; intros Hall; (eapply Forall2_impl; [exact Hall|]); intros h p; unfold hunk_admitted;
    rewrite scope_check_Ok; tauto.
Qed.
End BatchFacts.

(** ** A concrete grant *)
Module ScopeReference.

#[export] Instance plain_unicode : Unicode := {| nfc s := s; to_lowercase s := to_ascii_lowercase s |}.
#[export] Instance plain_case : CharCase := to_ascii_lowercase.
#[export] Instance plain_nfc_laws : NfcLaws.
Proof. by intros s. Qed.

Example normalize_rel_path_exact_witness : normalize_rel_path "src/a.rs" = Ok "src/a.rs".
Proof. exact (proj2 (proj2 (normalize_rel_path_exact "src/a.rs"))). Defined.
End ScopeReference.
