(* ===== verification/Apply.v ===== *)
(** [crates/bullet-git-workspace/src/apply.rs], [apply/dirfd.rs] and
    [apply/dirfd_stage.rs]: the descriptor-relative application of a validated
    batch to a staged tree, and its rollback.

    The state is the file tree and a call counter.  Every system call asks the
    [kernel] at its number whether it fails and with which [errno], so a theorem
    over all kernels covers every failure at every call.  A descriptor is the
    location it was opened at; [openat2] with [RESOLVE_NO_SYMLINKS] is [look].
    The stage is private to the writer: only its own calls change the tree.  The
    Linux branch is modelled. *)

From S2P Require Import Prelude Digests Disk Journal Cas Generation Capability Scope.

(** ** The kernel *)

Inductive errno : Type :=
  | LOOP | XDEV | NOTDIR | NOENT | EXIST | ISDIR | AGAIN
  | OtherErrno (code : N).

(** Why a call may fail whatever the tree holds; ENOENT and EEXIST are answers
    about the tree. *)
Inductive failure : Type := FailAgain | FailLoop | FailXdev | FailNotdir | FailOther (code : N).

Definition failure_errno (f : failure) : errno :=
  match f with
  | FailAgain => AGAIN
  | FailLoop => LOOP
  | FailXdev => XDEV
  | FailNotdir => NOTDIR
  | FailOther code => OtherErrno code
  end.

Record kernel : Type := {
  k_fail : nat → option failure;     (** how call [n] fails, when it does *)
  k_link : nat → bool;               (** a final symbolic link answers ELOOP, else ENOTDIR *)
  k_short : nat → nat;               (** what a failing write leaves behind *)
  k_text : errno → string            (** the system's message *)
}.

Record world : Type := { w_tree : node; w_calls : nat }.

Definition op (E A : Type) : Type := world → result A E * world.

Definition done_with {A} (r : A) : world → A * world := λ w, (r, w).
(** Run [m], then go on with its result, error or not. *)
Definition attempt {A B} (m : world → A * world) (k : A → world → B * world) : world → B * world :=
  λ w, let '(r, w) := m w in k r w.
Definition andthen {E A B} (m : op E A) (k : A → op E B) : op E B :=
  attempt m (λ r, match r with Ok a => k a | Err e => done_with (Err e) end).

Declare Scope apply_scope.
Delimit Scope apply_scope with apply.
Notation "'perform' x ':=' m 'in' k" := (andthen m (λ x, k))
  (at level 10, x name, m at level 100, k at level 200) : apply_scope.
Notation "m ;; k" := (andthen m (λ _ : unit, k))
  (at level 100, k at level 200, right associativity) : apply_scope.
#[local] Open Scope apply_scope.

(** A call: its number is taken, it may fail, else it acts on the tree. *)
Definition syscall {A} (k : kernel) (f : nat → node → result A errno * node) : op errno A := λ w,
  let n := w_calls w in
  match k_fail k n with
  | Some e => (Err (failure_errno e), {| w_tree := w_tree w; w_calls := S n |})
  | None => let '(r, t) := f n (w_tree w) in (r, {| w_tree := t; w_calls := S n |})
  end.

(** ** Trees *)

(** What a final symbolic link answers, and resolution without following any. *)
Definition link_errno (loop : bool) : errno := if loop then LOOP else NOTDIR.

Fixpoint look (loop : bool) (n : node) (path : list string) : result node errno :=
  match path with
  | [] => Ok n
  | c :: rest =>
      match n with
      | NDir _ es =>
          match entry_of es c with
          | None => Err NOENT
          | Some (NSymlink _) => Err (match rest with [] => link_errno loop | _ => LOOP end)
          | Some n => look loop n rest
          end
      | _ => Err NOTDIR
      end
  end.

Definition is_link (n : node) : bool := match n with NSymlink _ => true | _ => false end.

(** [f] applied to the node at [path]. *)
Fixpoint alter_at (n : node) (path : list string) (f : node → node) : node :=
  match path with
  | [] => f n
  | c :: rest =>
      match n with
      | NDir mode es =>
          match entry_of es c with
          | Some m => NDir mode (entry_put es c (alter_at m rest f))
          | None => n
          end
      | n => n
      end
  end.

Definition remove_child (name : string) (n : node) : node :=
  match n with
  | NDir mode es => NDir mode (filter (λ row, fst row ≠ name) es)
  | n => n
  end.

Definition set_contents (f : bytes → bytes) (n : node) : node :=
  match n with NFile b mode => NFile (f b) mode | n => n end.

(** ** Refusals ([dirfd.rs]) *)

Definition RESOLUTION_RETRIES : nat := 16.

Record RestoreFailure : Type := {
  rf_path : string;
  rf_reason_code : string;
  rf_message : string
}.

Inductive DirfdError : Type :=
  | DInvalidPath (path reason : string)
  | DSymlink (path : string)
  | DNotDirectory (path : string)
  | DAbsent (path : string)
  | DNotRegularFile (path : string)
  | DIo (path context message : string)
  | DRestore (failures : list RestoreFailure).

Definition dirfd_reason_code (e : DirfdError) : string :=
  match e with
  | DInvalidPath _ _ => "OUT_OF_SCOPE"
  | DSymlink _ => "SYMLINK_FORBIDDEN"
  | DNotDirectory _ | DIo _ _ _ => "IO_FAILED"
  | DAbsent _ | DNotRegularFile _ => "PATH_ABSENT"
  | DRestore _ => "GENERATION_IO_FAILED"
  end.

Definition dirfd_display `{StrDebug} (e : DirfdError) : string :=
  match e with
  | DInvalidPath path reason => reason +:+ ": " +:+ str_debug path
  | DSymlink path => "symlink component or target: " +:+ path
  | DNotDirectory path => "directory component is not a directory: " +:+ path
  | DAbsent path => "no file to delete at: " +:+ path
  | DNotRegularFile path => "not a regular file: " +:+ path
  | DIo path context message => context +:+ " at " +:+ path +:+ ": " +:+ message
  | DRestore failures =>
      foldl (λ text f, text +:+ " " +:+ rf_path f +:+ " [" +:+ rf_reason_code f +:+ ": "
                       +:+ rf_message f +:+ "];")
        ("rollback refused for " +:+ u64_to_string (blen failures) +:+ " path(s):") failures
  end.

(** The loop body of [validate_path]. *)
Definition validate_path_component (path component : string) : result unit DirfdError :=
  if String.eqb component "" then Err (DInvalidPath path "empty component")
  else if String.eqb component "." then Err (DInvalidPath path "dot component")
  else if String.eqb component ".." then Err (DInvalidPath path "parent traversal component")
  else if eq_ignore_ascii_case component ".git"
  then Err (DInvalidPath path "git metadata component")
  else Ok tt.

Definition validate_path (path : string) : result (list string) DirfdError :=
  fail_if (String.eqb path "") (DInvalidPath path "empty path") ;?
  fail_if (starts_with "/" path) (DInvalidPath path "absolute path") ;?
  fail_if (char_contains "\"%char path) (DInvalidPath path "backslash component separator") ;?
  fail_if (char_contains NUL path) (DInvalidPath path "NUL byte") ;?
  try_for (validate_path_component path) (split "/"%char path) ;?
  Ok (split "/"%char path).

Section Calls.
Context (k : kernel).

Definition classify (e : errno) (path context : string) : DirfdError :=
  match e with
  | LOOP => DSymlink path
  | XDEV => DInvalidPath path "resolution left the staged root"
  | NOTDIR => DNotDirectory path
  | _ => DIo path context (k_text k e)
  end.

Definition io (path context : string) (e : errno) : DirfdError := DIo path context (k_text k e).

(** ** Calls of a descriptor *)

(** [open_beneath]: EAGAIN is retried, a bounded number of times. *)
Fixpoint retry {A} (attempts : nat) (m : op errno A) : op errno A :=
  attempt m (λ r,
    match r, attempts with
    | Err AGAIN, S attempts => retry attempts m
    | r, _ => done_with r
    end).
Definition open_beneath {A} (m : op errno A) : op errno A := retry RESOLUTION_RETRIES m.

Definition open_directory (parent relative : list string) : op errno (list string) :=
  open_beneath (syscall k (λ n t,
    (match look (k_link k n) t (parent ++ relative) with
     | Ok (NDir _ _) => Ok (parent ++ relative)
     | Ok _ => Err NOTDIR
     | Err e => Err e
     end, t))).

(** [openat2] for reading: a directory or a special file opens too. *)
Definition open_for_read (parent relative : list string) : op errno (list string) :=
  open_beneath (syscall k (λ n t,
    (res_map (λ _, parent ++ relative) (look (k_link k n) t (parent ++ relative)), t))).

Definition NEW_FILE_MODE : N := 438.
Definition NEW_DIR_MODE : N := 511.

(** [openat2] with [O_WRONLY | O_CREAT] on one component. *)
Definition open_for_write (parent : list string) (leaf : string) : op errno (list string) :=
  open_beneath (syscall k (λ n t,
    match look (k_link k n) t (parent ++ [leaf]) with
    | Ok (NDir _ _) => (Err ISDIR, t)
    | Ok _ => (Ok (parent ++ [leaf]), t)
    | Err NOENT =>
        (Ok (parent ++ [leaf]),
         alter_at t parent (λ d, put_child d leaf (NFile [] NEW_FILE_MODE)))
    | Err e => (Err e, t)
    end)).

(** [statat] without following a final link. *)
Definition stat_at (parent : list string) (leaf : string) : op errno node :=
  syscall k (λ _ t,
    (match look true t parent with
     | Ok (NDir _ es) => ok_or (entry_of es leaf) NOENT
     | Ok _ => Err NOTDIR
     | Err e => Err e
     end, t)).

Definition mkdir_at (parent : list string) (name : string) : op errno unit :=
  syscall k (λ _ t,
    match look true t parent with
    | Ok (NDir _ es) =>
        match entry_of es name with
        | Some _ => (Err EXIST, t)
        | None => (Ok tt, alter_at t parent (λ d, put_child d name (NDir NEW_DIR_MODE [])))
        end
    | Ok _ => (Err NOTDIR, t)
    | Err e => (Err e, t)
    end).

Definition unlink_at (parent : list string) (leaf : string) : op errno unit :=
  syscall k (λ _ t,
    match look true t parent with
    | Ok (NDir _ es) =>
        match entry_of es leaf with
        | None => (Err NOENT, t)
        | Some (NDir _ _) => (Err ISDIR, t)
        | Some _ => (Ok tt, alter_at t parent (remove_child leaf))
        end
    | Ok _ => (Err NOTDIR, t)
    | Err e => (Err e, t)
    end).

Definition file_stat (fd : list string) : op errno node :=
  syscall k (λ _ t, (look true t fd, t)).

Definition file_truncate (fd : list string) : op errno unit :=
  syscall k (λ _ t, (Ok tt, alter_at t fd (set_contents (λ _, [])))).

Definition file_read (fd : list string) : op errno bytes :=
  syscall k (λ _ t, (match look true t fd with Ok (NFile b _) => Ok b | _ => Err ISDIR end, t)).

(** [write_all] at offset 0; a failure leaves a prefix written. *)
Definition overwrite (b old : bytes) : bytes := b ++ drop (length b) old.
Definition file_write (fd : list string) (b : bytes) : op errno unit := λ w,
  let n := w_calls w in
  let write b := {| w_tree := alter_at (w_tree w) fd (set_contents (overwrite b)); w_calls := S n |} in
  match k_fail k n with
  | Some e => (Err (failure_errno e), write (take (k_short k n) b))
  | None => (Ok tt, write b)
  end.

Definition file_sync (fd : list string) : op errno unit := syscall k (λ _ t, (Ok tt, t)).

(** [map_err] on a call. *)
Definition refine {E F A} (m : op E A) (f : E → F) : op F A :=
  attempt m (λ r, done_with (map_err f r)).

Definition require_regular (fd : list string) (path context : string) : op DirfdError unit :=
  perform stat := refine (file_stat fd) (λ e, classify e path context) in
  done_with (match stat with NFile _ _ => Ok tt | _ => Err (DIo path context "not a regular file") end).

(** ** The staged root ([dirfd_stage.rs]) *)

Definition StagedRoot : Type := list string.

Definition root_open (root : string) (location : list string) : op DirfdError StagedRoot :=
  refine (syscall k (λ n t,
    (match look (k_link k n) t location with
     | Ok (NDir _ _) => Ok location
     | Ok _ => Err NOTDIR
     | Err e => Err e
     end, t))) (λ e, classify e root "open staged root").

(** [locate_offender]'s walk from [current]. *)
Fixpoint locate_from (path : string) (current components : list string)
    : op DirfdError (option DirfdError) :=
  match components with
  | [] => done_with (Ok None)
  | component :: rest =>
      attempt (stat_at current component) (λ r,
        match r with
        | Err _ => done_with (Ok None)
        | Ok (NSymlink _) => done_with (Ok (Some (DSymlink path)))
        | Ok (NDir _ _) =>
            attempt (open_directory current [component]) (λ r,
              match r with
              | Err _ => done_with (Ok None)
              | Ok fd => locate_from path fd rest
              end)
        | Ok _ =>
            done_with (Ok (match rest with [] => None | _ => Some (DNotDirectory path) end))
        end)
  end.

Definition locate_offender (root : StagedRoot) (path : string) : op DirfdError (option DirfdError) :=
  match validate_path path with
  | Err _ => done_with (Ok None)
  | Ok components => locate_from path root components
  end.

Definition diagnose (root : StagedRoot) (e : errno) (path context : string) : op DirfdError DirfdError :=
  match e with
  | NOTDIR | LOOP =>
      perform found := locate_offender root path in
      done_with (Ok (default (classify e path context) found))
  | _ => done_with (Ok (classify e path context))
  end.

(** [map_err(|errno| self.diagnose(errno, path, context))] *)
Definition diagnosed {A} (root : StagedRoot) (path context : string) (m : op errno A) : op DirfdError A :=
  attempt m (λ r,
    match r with
    | Ok a => done_with (Ok a)
    | Err e => perform d := diagnose root e path context in done_with (Err d)
    end).

Definition staged_read (root : StagedRoot) (path : string) : op DirfdError (option bytes) :=
  perform components := done_with (validate_path path) in
  attempt (open_for_read root components) (λ r,
    match r with
    | Err NOENT => done_with (Ok None)
    | Err e => perform d := diagnose root e path "open prior bytes" in done_with (Err d)
    | Ok fd =>
        require_regular fd path "inspect prior bytes" ;;
        perform b := refine (file_read fd) (io path "read prior bytes") in
        done_with (Ok (Some b))
    end).

(** One round of [ensure_directories]. *)
Definition ensure_directory (root : StagedRoot) (path : string) (current : list string)
    (component : string) : op DirfdError (list string) :=
  attempt (open_directory current [component]) (λ r,
    match r with
    | Ok fd => done_with (Ok fd)
    | Err NOENT =>
        attempt (mkdir_at current component) (λ made,
          match made with
          | Ok _ | Err EXIST =>
              diagnosed root path "open created patch directory" (open_directory current [component])
          | Err e => perform d := diagnose root e path "create patch directory" in done_with (Err d)
          end)
    | Err e => perform d := diagnose root e path "open patch directory" in done_with (Err d)
    end).

Fixpoint ensure_directories (root : StagedRoot) (path : string) (current directories : list string)
    : op DirfdError (list string) :=
  match directories with
  | [] => done_with (Ok current)
  | component :: rest =>
      perform next := ensure_directory root path current component in
      ensure_directories root path next rest
  end.

(** [split_last] *)
Definition split_last (path : string) (components : list string)
    : result (list string * string) DirfdError :=
  match last components with
  | Some leaf => Ok (take (pred (length components)) components, leaf)
  | None => Err (DInvalidPath path "empty path")
  end.

Definition staged_write (root : StagedRoot) (path : string) (b : bytes) : op DirfdError unit :=
  perform split := done_with (let? components := validate_path path in split_last path components) in
  let '(directories, leaf) := split in
  perform parent := ensure_directories root path root directories in
  perform fd := diagnosed root path "open patch target" (open_for_write parent leaf) in
  require_regular fd path "inspect patch target" ;;
  refine (file_truncate fd) (λ e, classify e path "truncate patch target") ;;
  refine (file_write fd b) (io path "write patch target") ;;
  refine (file_sync fd) (io path "fsync patch target").

Definition open_parent (root : StagedRoot) (path : string) (directories : list string)
    : op DirfdError (list string) :=
  match directories with
  | [] => done_with (Ok root)
  | _ => diagnosed root path "open delete directory" (open_directory root directories)
  end.

Definition staged_unlink (root : StagedRoot) (path : string) : op DirfdError unit :=
  perform split := done_with (let? components := validate_path path in split_last path components) in
  let '(directories, leaf) := split in
  perform parent := open_parent root path directories in
  attempt (stat_at parent leaf) (λ r,
    match r with
    | Err NOENT => done_with (Err (DAbsent path))
    | Err e => perform d := diagnose root e path "inspect delete target" in done_with (Err d)
    | Ok (NFile _ _) => diagnosed root path "unlink delete target" (unlink_at parent leaf)
    | Ok (NSymlink _) => done_with (Err (DSymlink path))
    | Ok _ => done_with (Err (DNotRegularFile path))
    end).

(** One entry of [restore]. *)
Definition restore_one (root : StagedRoot) (path : string) (prior : option bytes) : op DirfdError unit :=
  match prior with
  | Some b => staged_write root path b
  | None =>
      attempt (staged_unlink root path) (λ r,
        done_with (match r with Err (DAbsent _) => Ok tt | r => r end))
  end.

Context `{StrDebug}.

Fixpoint restore_each (root : StagedRoot) (entries : list (string * option bytes))
    : op DirfdError (list RestoreFailure) :=
  match entries with
  | [] => done_with (Ok [])
  | (path, prior) :: entries =>
      attempt (restore_one root path prior) (λ r,
        perform failures := restore_each root entries in
        done_with (Ok (match r with
                       | Ok _ => failures
                       | Err e => {| rf_path := path; rf_reason_code := dirfd_reason_code e;
                                     rf_message := dirfd_display e |} :: failures
                       end)))
  end.

Definition restore (root : StagedRoot) (entries : list (string * option bytes)) : op DirfdError unit :=
  perform failures := restore_each root entries in
  done_with (match failures with [] => Ok tt | _ => Err (DRestore failures) end).

(** ** A batch ([apply.rs]) *)

Definition refusal (e : DirfdError) : CapabilityError :=
  match e with
  | DInvalidPath path reason => CapOutOfScope (path +:+ ": " +:+ reason)
  | DSymlink path => CapSymlinkForbidden path
  | DAbsent path | DNotRegularFile path => CapPathAbsent path
  | DRestore _ => CapGeneration (GenIo (dirfd_display e))
  | DNotDirectory _ | DIo _ _ _ => CapIo (dirfd_display e)
  end.

(** [apply_each]: its result and [applied]. *)
Definition hunk_apply (root : StagedRoot) (patch : PatchHunk) (path : string) : op DirfdError unit :=
  match hunk_op patch with
  | OpWrite contents => staged_write root path contents
  | OpDelete => staged_unlink root path
  end.

Fixpoint apply_each (root : StagedRoot) (batch : list (PatchHunk * string))
    (applied : list (string * option bytes))
    : world → (result unit CapabilityError * list (string * option bytes)) * world :=
  match batch with
  | [] => done_with (Ok tt, applied)
  | (patch, path) :: batch =>
      attempt (staged_read root path) (λ prior,
        match prior with
        | Err e => done_with (Err (refusal e), applied)
        | Ok prior =>
            attempt (hunk_apply root patch path) (λ r,
              match r with
              | Err e => done_with (Err (refusal e), applied ++ [(path, prior)])
              | Ok _ => apply_each root batch (applied ++ [(path, prior)])
              end)
        end)
  end.

(** The entries of [applied] whose rollback failed, as [apply_all] leaves them. *)
Definition unrestored (root : string) (applied : list (string * option bytes))
    (failures : list RestoreFailure) : list (string * option bytes) :=
  omap (λ f, option_map (λ row, (root +:+ "/" +:+ fst row, snd row))
               (find (λ row, String.eqb (fst row) (rf_path f)) applied)) failures.

(** [apply_all]: its result and the [undo] list, empty at the call. *)
Definition apply_all (root : string) (location : list string) (patches : list PatchHunk)
    (normalized : list string)
    : world → (result unit CapabilityError * list (string * option bytes)) * world :=
  attempt (root_open root location) (λ opened,
    match opened with
    | Err e => done_with (Err (refusal e), [])
    | Ok staged =>
        attempt (apply_each staged (zip patches normalized) []) (λ '(outcome, applied),
          match outcome with
          | Err error =>
              attempt (restore staged (rev applied)) (λ rollback,
                done_with (Err error, match rollback with
                                      | Err (DRestore failures) => unrestored root applied failures
                                      | _ => []
                                      end))
          | Ok _ => done_with (Ok tt, map (λ row, (root +:+ "/" +:+ fst row, snd row)) applied)
          end)
    end).

(** [trim_start_matches('/')] *)
Fixpoint trim_slashes (s : string) : string :=
  match s with
  | String c s' => if Ascii.eqb c "/"%char then trim_slashes s' else s
  | "" => ""
  end.

(** [restore_all], through the file-system root. *)
Definition restore_all (undo : list (string * option bytes))
    : world → option CapabilityError * world :=
  match undo with
  | [] => done_with None
  | _ =>
      attempt (root_open "/" []) (λ opened,
        match opened with
        | Err e => done_with (Some (refusal e))
        | Ok filesystem_root =>
            attempt (restore filesystem_root
                       (map (λ row, (trim_slashes (fst row), snd row)) (rev undo))) (λ r,
              done_with (match r with Ok _ => None | Err e => Some (refusal e) end))
        end)
  end.
End Calls.

(** The text [thiserror] derives for a refusal. *)
Class CapabilityText : Type := capability_display : CapabilityError → string.

(** [CapabilityError::with_failed_rollback] *)
Definition with_failed_rollback `{CapabilityText} (e rollback : CapabilityError) : CapabilityError :=
  CapGeneration (GenIo ("apply refused with " +:+ capability_reason_code e +:+ ": "
    +:+ capability_display e +:+ "; " +:+ capability_display rollback)).

(** The application of a batch in [publish_prepared_patches]
    ([repository_publish.rs]). *)
Definition apply_batch `{StrDebug, CapabilityText} (k : kernel) (root : string)
    (location : list string) (patches : list PatchHunk) (normalized : list string)
    : world → result unit CapabilityError * world :=
  attempt (apply_all k root location patches normalized) (λ '(applied, undo),
    match applied with
    | Ok _ => done_with (Ok tt)
    | Err error =>
        attempt (restore_all k undo) (λ rollback,
          done_with (Err (match rollback with
                          | Some rollback => with_failed_rollback error rollback
                          | None => error
                          end)))
    end).

(** ** What a tree holds *)

(** The contents of the regular file at [p], and whether [p] is a directory, no
    link being followed. *)
Definition file_at (t : node) (p : list string) : option bytes :=
  match look true t p with Ok (NFile b _) => Some b | _ => None end.

Definition dir_at (t : node) (p : list string) : Prop := ∃ mode es, look true t p = Ok (NDir mode es).

(** A symbolic link named [c] in the directory [p]. *)
Definition link_in (t : node) (p : list string) (c target : string) : Prop :=
  ∃ mode es, look true t p = Ok (NDir mode es) ∧ entry_of es c = Some (NSymlink target).

(** The location a path of the batch names beneath [root]. *)
Definition loc (root : StagedRoot) (path : string) : list string := root ++ split "/"%char path.

(** ** Lemmas: trees *)

Lemma look_loop b b' t p n : look b t p = Ok n → look b' t p = Ok n.
Proof.
  revert t. induction p as [|c p IH]; intros t; simpl; [done|].
  destruct t as [|mode es| |]; try done. destruct (entry_of es c) as [m|]; [|done].
  destruct m; try done; apply IH.
Qed.

Lemma entry_of_put_same es c m : entry_of es c = Some m → entry_put es c m = es.
Proof.
  induction es as [|[x n] es IH]; simpl; [done|]. destruct (String.eqb_spec x c) as [->|].
  - by intros [= ->].
  - intros E. by rewrite IH.
Qed.

Lemma entry_of_filter es c x :
  entry_of (filter (λ row : string * node, fst row ≠ c) es) x = if String.eqb c x then None else entry_of es x.
Proof.
  induction es as [|[y n] es IH]; simpl; [by destruct (String.eqb c x)|].
  destruct (decide (y = c)) as [->|Hne].
  - rewrite filter_cons_False by (simpl; tauto). rewrite IH. by destruct (String.eqb_spec c x).
  - rewrite filter_cons_True by done. simpl. rewrite IH.
    destruct (String.eqb_spec y x) as [->|]; [|done]. by destruct (String.eqb_spec c x).
Qed.

Lemma alter_at_link t p g : is_link t = false → (∀ n, is_link n = false → is_link (g n) = false) →
  is_link (alter_at t p g) = false.
Proof.
  destruct p as [|c p]; simpl; [auto|]. destruct t as [|mode es| |]; try done.
  by destruct (entry_of es c).
Qed.

(** One step of resolution. *)
Definition step_to (t : node) (c : string) : option node :=
  match t with
  | NDir _ es => match entry_of es c with Some n => if is_link n then None else Some n | None => None end
  | _ => None
  end.

Lemma look_cons t c p n : look true t (c :: p) = Ok n ↔ ∃ m, step_to t c = Some m ∧ look true m p = Ok n.
Proof.
  simpl. unfold step_to. destruct t as [|mode es| |]; try naive_solver.
  destruct (entry_of es c) as [[]|]; simpl; naive_solver.
Qed.

Lemma file_at_cons t c p : file_at t (c :: p) = step_to t c ≫= λ m, file_at m p.
Proof.
  unfold file_at, step_to. simpl. destruct t as [|mode es| |]; try done.
  by destruct (entry_of es c) as [[]|].
Qed.

Lemma dir_at_cons t c p : dir_at t (c :: p) ↔ ∃ m, step_to t c = Some m ∧ dir_at m p.
Proof. unfold dir_at. setoid_rewrite look_cons. naive_solver. Qed.

Lemma link_in_cons t d p c target : link_in t (d :: p) c target ↔ ∃ m, step_to t d = Some m ∧ link_in m p c target.
Proof. unfold link_in. setoid_rewrite look_cons. naive_solver. Qed.

Lemma look_app t p q n : look true t (p ++ q) = Ok n ↔ ∃ m, look true t p = Ok m ∧ look true m q = Ok n.
Proof.
  revert t. induction p as [|c p IH]; intros t; [simpl; naive_solver|].
  change ((c :: p) ++ q) with (c :: (p ++ q)). rewrite look_cons.
  setoid_rewrite look_cons. setoid_rewrite IH. naive_solver.
Qed.

Lemma step_alter t c p g m :
  step_to t c = Some m → (p = [] → is_link (g m) = false) →
  ∀ d, step_to (alter_at t (c :: p) g) d = if String.eqb c d then Some (alter_at m p g) else step_to t d.
Proof.
  unfold step_to. simpl. destruct t as [|mode es| |]; try done.
  destruct (entry_of es c) as [x|] eqn:E; [|done]. destruct (is_link x) eqn:Hl; [done|].
  intros [= ->] Hg d. rewrite entry_of_put. destruct (String.eqb_spec c d); [|done].
  assert (is_link (alter_at m p g) = false) as ->; [|done].
  destruct p as [|c' p]; simpl; [by apply Hg|]. destruct m as [|? es'| |]; try done.
  by destruct (entry_of es' c').
Qed.

Section Alter.
Context (p : list string) (g : node → node).

Lemma look_alter t n q :
  look true t p = Ok n → is_link (g n) = false → look true (alter_at t p g) (p ++ q) = look true (g n) q.
Proof.
  revert t. induction p as [|c l IH]; intros t; [simpl; by intros [= ->]|].
  intros (m & Hm & Hl)%look_cons Hg.
  assert (l = [] → is_link (g m) = false) as Hlink by (intros ->; simpl in Hl; congruence).
  pose proof (step_alter t c l g m Hm Hlink c) as Hs. rewrite String.eqb_refl in Hs.
  rewrite <- (IH _ Hl Hg). unfold step_to in Hs.
  change ((c :: l) ++ q) with (c :: (l ++ q)).
  destruct (alter_at t (c :: l) g) as [|mode es| |]; try done. simpl.
  destruct (entry_of es c) as [x|]; [|done]. destruct x; simpl in Hs; try done; by injection Hs as <-.
Qed.

(** The frame of a change at [p]: only what [g] changes below it. *)
Lemma file_at_alter t n (X : list string → Prop) :
  look true t p = Ok n → is_link (g n) = false →
  (∀ r, X (p ++ r) → file_at (g n) r = file_at n r) →
  ∀ q, X q → file_at (alter_at t p g) q = file_at t q.
Proof.
  revert t X. induction p as [|c l IH]; intros t X; [simpl; intros [= ->] _ Hx q; by apply Hx|].
  intros (m & Hm & Hl)%look_cons Hg Hx [|d q] Hq.
  - unfold step_to in Hm. destruct t as [|mode es| |]; try done. simpl. by destruct (entry_of es c).
  - assert (l = [] → is_link (g m) = false) as Hlink by (intros ->; simpl in Hl; congruence).
    rewrite !file_at_cons, (step_alter t c l g m Hm Hlink d).
    destruct (String.eqb_spec c d) as [<-|]; [|done]. rewrite Hm. simpl.
    apply (IH m (λ r, X (c :: r)) Hl Hg); [|exact Hq]. intros r. apply Hx.
Qed.

Lemma dir_at_alter t n :
  look true t p = Ok n → is_link (g n) = false → (∀ r, dir_at n r → dir_at (g n) r) →
  ∀ q, dir_at t q → dir_at (alter_at t p g) q.
Proof.
  revert t. induction p as [|c l IH]; intros t; [simpl; intros [= ->] _ Hx; exact Hx|].
  intros (m & Hm & Hl)%look_cons Hg Hx [|d q] Hq.
  - unfold step_to in Hm. destruct t as [|mode es| |]; try done. simpl.
    destruct (entry_of es c); [|done]. by eexists _, _.
  - assert (l = [] → is_link (g m) = false) as Hlink by (intros ->; simpl in Hl; congruence).
    rewrite dir_at_cons in *. rewrite (step_alter t c l g m Hm Hlink d).
    destruct (String.eqb_spec c d) as [<-|]; [|done]. destruct Hq as (m' & Hm' & Hq).
    replace m' with m in * by congruence. eexists. split; [done|]. by apply IH.
Qed.

Lemma link_in_alter t n :
  look true t p = Ok n → is_link (g n) = false → (∀ r x target, link_in n r x target → link_in (g n) r x target) →
  ∀ q x target, link_in t q x target → link_in (alter_at t p g) q x target.
Proof.
  revert t. induction p as [|c l IH]; intros t; [simpl; intros [= ->] _ Hx; exact Hx|].
  intros (m & Hm & Hl)%look_cons Hg Hx [|d q] x target Hq.
  - destruct Hq as (mode & es & [= ->] & He). unfold step_to in Hm.
    simpl. destruct (entry_of es c) as [n'|] eqn:Ec; [|done]. eexists _, _. split; [done|].
    rewrite entry_of_put. destruct (String.eqb_spec c x) as [->|]; [|done].
    rewrite Ec in He. injection He as ->. done.
  - assert (l = [] → is_link (g m) = false) as Hlink by (intros ->; simpl in Hl; congruence).
    rewrite link_in_cons in *. rewrite (step_alter t c l g m Hm Hlink d).
    destruct (String.eqb_spec c d) as [<-|]; [|done]. destruct Hq as (m' & Hm' & Hq).
    replace m' with m in * by congruence. eexists. split; [done|]. by apply IH.
Qed.

Lemma alter_at_miss t e :
  look true t p = Err e → (∀ target, g (NSymlink target) = NSymlink target) → alter_at t p g = t.
Proof.
  revert t. induction p as [|c l IH]; intros t; [done|]. simpl. intros E Hg.
  destruct t as [|mode es| |]; try done. destruct (entry_of es c) as [m|] eqn:Em; [|done].
  f_equal. assert (alter_at m l g = m) as ->; [|by apply entry_of_put_same].
  destruct m; try (by apply IH). destruct l; [apply Hg|done].
Qed.
End Alter.

(** A change of the regular files at [X] alone, that keeps every directory and every
    symbolic link. *)
Definition changes_only (X : list (list string)) (t t' : node) : Prop :=
  (∀ p, p ∉ X → file_at t' p = file_at t p) ∧ (∀ p, dir_at t p → dir_at t' p) ∧
  (∀ p c target, link_in t p c target → link_in t' p c target).

Lemma changes_refl X t : changes_only X t t.
Proof. by split. Qed.

Lemma changes_trans X Y Z t t' t'' :
  changes_only X t t' → changes_only Y t' t'' → X ⊆ Z → Y ⊆ Z → changes_only Z t t''.
Proof.
  intros (Hf & Hd & Hk) (Hf' & Hd' & Hk') HX HY. split; [|auto]. intros p Hp.
  rewrite Hf', Hf; [done|..]; intros ?; apply Hp; auto.
Qed.

Lemma changes_then X t t' t'' : changes_only X t t' → changes_only X t' t'' → changes_only X t t''.
Proof. intros H1 H2. by eapply changes_trans. Qed.

Lemma changes_weaken X Y t t' : changes_only X t t' → X ⊆ Y → changes_only Y t t'.
Proof. intros H HX. eapply changes_trans; [exact H|apply (changes_refl X)|done|done]. Qed.

Lemma changes_nil X t t' : changes_only [] t t' → changes_only X t t'.
Proof. intros H. eapply changes_weaken; [exact H|]. intros p ?%elem_of_nil. done. Qed.

Lemma step_put_child n leaf c d :
  is_dir (Some n) = true → is_link c = false →
  step_to (put_child n leaf c) d = if String.eqb leaf d then Some c else step_to n d.
Proof.
  destruct n as [|mode es| |]; try done. intros _ Hc. unfold step_to. simpl. rewrite entry_of_put.
  destruct (String.eqb leaf d); [by rewrite Hc|done].
Qed.

Lemma file_at_empty m r : file_at (NDir m []) r = None.
Proof. by destruct r. Qed.

(** A new entry under a free name of the directory [parent]. *)
Lemma create_changes t parent mode es leaf c X :
  look true t parent = Ok (NDir mode es) → entry_of es leaf = None → is_link c = false →
  (∀ r, (parent ++ leaf :: r) ∉ X → file_at c r = None) →
  changes_only X t (alter_at t parent (λ d, put_child d leaf c)).
Proof.
  intros Hl Hn Hc Hr. split_and!.
  - intros p Hp. apply (file_at_alter parent _ t (NDir mode es) (λ p, p ∉ X)); [done..| |done].
    intros [|d r] Hx; [done|]. rewrite !file_at_cons, step_put_child by done.
    destruct (String.eqb_spec leaf d) as [<-|]; [|done]. unfold step_to. rewrite Hn. simpl. by apply Hr.
  - apply (dir_at_alter parent _ t (NDir mode es)); [done..|].
    intros [|d r]; [intros _; by eexists _, _|]. rewrite !dir_at_cons, step_put_child by done.
    intros (m & Hm & Hd). destruct (String.eqb_spec leaf d) as [<-|]; [|by exists m].
    unfold step_to in Hm. by rewrite Hn in Hm.
  - apply (link_in_alter parent _ t (NDir mode es)); [done..|]. intros [|d r] x target.
    + intros (? & ? & [= <- <-] & Hx). eexists _, _. split; [done|]. rewrite entry_of_put.
      destruct (String.eqb_spec leaf x) as [<-|]; [congruence|done].
    + rewrite !link_in_cons, step_put_child by done. intros (m & Hm & Hd).
      destruct (String.eqb_spec leaf d) as [<-|]; [|by exists m]. unfold step_to in Hm. by rewrite Hn in Hm.
Qed.

Lemma set_contents_changes t fd f : changes_only [fd] t (alter_at t fd (set_contents f)).
Proof.
  destruct (look true t fd) as [n|e] eqn:Hl; [|by rewrite (alter_at_miss _ _ _ _ Hl)].
  destruct n as [b mode|mode es|target|];
    try (assert (fd = [] → alter_at t fd (set_contents f) = t) as Hnil by (intros ->; simpl in *; by simplify_eq)).
  - split_and!.
    + intros p Hp. apply (file_at_alter fd _ t (NFile b mode) (λ p, p ∉ [fd])); [done..| |done].
      intros [|c r] Hx; [|done]. exfalso. apply Hx. rewrite app_nil_r. by left.
    + apply (dir_at_alter fd _ t (NFile b mode)); [done..|]. intros [|c r] (? & ? & ?); by simplify_eq/=.
    + apply (link_in_alter fd _ t (NFile b mode)); [done..|]. intros [|c r] x target (? & ? & ? & _); by simplify_eq/=.
  - split_and!.
    + intros p Hp. by apply (file_at_alter fd _ t (NDir mode es) (λ p, p ∉ [fd])).
    + by apply (dir_at_alter fd _ t (NDir mode es)).
    + by apply (link_in_alter fd _ t (NDir mode es)).
  - destruct fd as [|c fd]; [by rewrite Hnil|]. exfalso. clear Hnil.
    revert t c Hl. induction fd as [|d fd IH]; intros t c (m & Hm & Hl)%look_cons; [|by apply (IH m d)].
    simpl in Hl. injection Hl as ->. unfold step_to in Hm. destruct t as [|? es| |]; try done.
    destruct (entry_of es c) as [x|]; [|done]. destruct x; simpl in Hm; simplify_eq.
  - split_and!.
    + intros p Hp. by apply (file_at_alter fd _ t NSpecial (λ p, p ∉ [fd])).
    + by apply (dir_at_alter fd _ t NSpecial).
    + by apply (link_in_alter fd _ t NSpecial).
Qed.

Lemma set_contents_at t fd f b mode :
  look true t fd = Ok (NFile b mode) →
  look true (alter_at t fd (set_contents f)) fd = Ok (NFile (f b) mode).
Proof.
  intros Hl. pose proof (look_alter fd (set_contents f) t _ [] Hl eq_refl) as E.
  by rewrite app_nil_r in E.
Qed.

Lemma step_remove_child n leaf d :
  step_to (remove_child leaf n) d = if String.eqb leaf d then None else step_to n d.
Proof.
  destruct n as [|mode es| |]; simpl; try (by destruct (String.eqb leaf d)).
  unfold step_to. simpl. rewrite entry_of_filter. by destruct (String.eqb leaf d).
Qed.

(** An entry that is neither a directory nor a link removed from [parent]. *)
Lemma remove_changes t parent mode es leaf c :
  look true t parent = Ok (NDir mode es) → entry_of es leaf = Some c → is_dir (Some c) = false → is_link c = false →
  changes_only [parent ++ [leaf]] t (alter_at t parent (remove_child leaf)) ∧
  file_at (alter_at t parent (remove_child leaf)) (parent ++ [leaf]) = None.
Proof.
  intros Hl Hc Hd Hk. split; [split_and!|].
  - intros p Hp. apply (file_at_alter parent _ t (NDir mode es) (λ p, p ∉ [parent ++ [leaf]])); [done..| |done].
    intros [|d r] Hx; [done|]. rewrite !file_at_cons, step_remove_child.
    destruct (String.eqb_spec leaf d) as [<-|]; [|done]. unfold step_to. rewrite Hc. simpl.
    destruct r as [|d r]; [exfalso; apply Hx; by left|].
    destruct c as [b m| | |]; simpl; try done.
  - apply (dir_at_alter parent _ t (NDir mode es)); [done..|].
    intros [|d r]; [intros _; by eexists _, _|]. rewrite !dir_at_cons, step_remove_child.
    intros (m & Hm & Hdir). destruct (String.eqb_spec leaf d) as [<-|]; [|by exists m].
    unfold step_to in Hm. rewrite Hc in Hm. exfalso. destruct c; simpl in *; simplify_eq.
    + destruct Hdir as (? & ? & Hdir). by destruct r.
    + destruct Hdir as (? & ? & Hdir). by destruct r.
  - apply (link_in_alter parent _ t (NDir mode es)); [done..|]. intros [|d r] x target.
    + intros (? & ? & [= <- <-] & Hx). eexists _, _. split; [done|]. rewrite entry_of_filter.
      destruct (String.eqb_spec leaf x) as [<-|]; [|done]. rewrite Hc in Hx. by injection Hx as ->.
    + rewrite !link_in_cons, step_remove_child. intros (m & Hm & Hi).
      destruct (String.eqb_spec leaf d) as [<-|]; [|by exists m]. unfold step_to in Hm. rewrite Hc, Hk in Hm.
      injection Hm as <-. destruct Hi as (? & ? & Hi & _). by destruct c, r.
  - unfold file_at. rewrite (look_alter parent (remove_child leaf) t _ [leaf] Hl eq_refl). simpl.
    rewrite entry_of_filter. by rewrite String.eqb_refl.
Qed.

(** ** A logic of operations *)

(** From the tree [t], the result and tree that [m] reaches satisfy [Q]. *)
Definition reaches {A} (t : node) (m : world → A * world) (Q : A → node → Prop) : Prop :=
  ∀ w, w_tree w = t → Q (fst (m w)) (w_tree (snd (m w))).

Lemma reaches_done {A} t (r : A) (Q : A → node → Prop) : Q r t → reaches t (done_with r) Q.
Proof. intros Hq w <-. exact Hq. Qed.

Lemma reaches_attempt {A B} t (m : world → A * world) (k : A → world → B * world) Q :
  reaches t m (λ r t', reaches t' (k r) Q) → reaches t (attempt m k) Q.
Proof. intros Hm w Hw. specialize (Hm w Hw). unfold attempt. destruct (m w) as [r w']. by apply Hm. Qed.

Lemma reaches_mono {A} t (m : world → A * world) (Q R : A → node → Prop) :
  reaches t m Q → (∀ r t', Q r t' → R r t') → reaches t m R.
Proof. intros Hm HR w Hw. by apply HR, Hm. Qed.

Lemma reaches_and {A} t (m : world → A * world) (Q R : A → node → Prop) :
  reaches t m Q → reaches t m R → reaches t m (λ r t', Q r t' ∧ R r t').
Proof. intros HQ HR w Hw. split; auto. Qed.

Lemma reaches_andthen {E A B} t (m : op E A) (k : A → op E B) Q :
  reaches t m (λ r t', match r with Ok a => reaches t' (k a) Q | Err e => Q (Err e) t' end) →
  reaches t (andthen m k) Q.
Proof.
  intros Hm. apply reaches_attempt. eapply reaches_mono; [exact Hm|].
  intros [a|e] t' Hr; [exact Hr|by apply reaches_done].
Qed.

Lemma reaches_syscall {A} k t (f : nat → node → result A errno * node) (Q : result A errno → node → Prop) :
  (∀ e, Q (Err (failure_errno e)) t) → (∀ n, Q (fst (f n t)) (snd (f n t))) → reaches t (syscall k f) Q.
Proof.
  intros He Hf w Hw. unfold syscall. destruct (k_fail k (w_calls w)); simpl; [rewrite Hw; apply He|].
  rewrite Hw. specialize (Hf (w_calls w)). by destruct (f (w_calls w) t).
Qed.

(** A retried call whose EAGAIN changes nothing. *)
Lemma reaches_retry {A} t n (m : op errno A) (Q : result A errno → node → Prop) :
  reaches t m (λ r t', (r = Err AGAIN → t' = t) ∧ Q r t') → reaches t (retry n m) Q.
Proof.
  intros Hm. induction n as [|n IH]; simpl; apply reaches_attempt; (eapply reaches_mono; [exact Hm|]);
    intros [a|e] t' [Ha Hq]; try (by destruct e; apply reaches_done); try (by apply reaches_done).
  destruct e; try (by apply reaches_done). by rewrite (Ha eq_refl).
Qed.

(** ** What each operation does *)

Section Specs.
Context (k : kernel).

Lemma failure_not_noent f : failure_errno f ≠ NOENT.
Proof. by destruct f. Qed.

Lemma look_missing b t p : look b t p = Err NOENT → file_at t p = None.
Proof.
  intros E. unfold file_at. destruct (look true t p) as [n|] eqn:El; [|done].
  apply (look_loop _ b) in El. congruence.
Qed.

Lemma open_directory_spec t parent relative :
  reaches t (open_directory k parent relative)
    (λ r t', t' = t ∧ ∀ fd, r = Ok fd → fd = parent ++ relative ∧ dir_at t fd).
Proof.
  apply reaches_retry, reaches_syscall; [by intros []|]. intros n. simpl. split; [done|]. split; [done|].
  intros fd E. destruct (look _ t _) as [[]|] eqn:El; try done. injection E as <-.
  split; [done|]. eexists _, _. by eapply look_loop.
Qed.

Lemma open_for_read_spec t parent relative :
  reaches t (open_for_read k parent relative)
    (λ r t', t' = t ∧ match r with
                      | Ok fd => fd = parent ++ relative ∧ ∃ n, look true t fd = Ok n
                      | Err NOENT => file_at t (parent ++ relative) = None
                      | Err _ => True
                      end).
Proof.
  apply reaches_retry, reaches_syscall; [by intros []|]. intros n. simpl. split; [done|]. split; [done|].
  destruct (look _ t _) as [m|e] eqn:El; simpl.
  - split; [done|]. exists m. by eapply look_loop.
  - destruct e; try done. by eapply look_missing.
Qed.

Lemma stat_at_spec t parent leaf :
  reaches t (stat_at k parent leaf)
    (λ r t', t' = t ∧ match r with
                      | Ok n => ∃ mode es, look true t parent = Ok (NDir mode es) ∧ entry_of es leaf = Some n
                      | Err NOENT => file_at t (parent ++ [leaf]) = None
                      | Err _ => True
                      end).
Proof.
  apply reaches_syscall; [by intros []|]. intros n. simpl. split; [done|].
  destruct (look true t parent) as [[b m|m es|l|]|e] eqn:El; try done.
  - destruct (entry_of es leaf) as [x|] eqn:Ex; simpl; [eauto|].
    unfold file_at. destruct (look true t (parent ++ [leaf])) as [y|] eqn:Ey; [|done].
    apply look_app in Ey as (z & Hz & Hy). rewrite El in Hz. injection Hz as <-. simpl in Hy. by rewrite Ex in Hy.
  - destruct e; try done. unfold file_at.
    destruct (look true t (parent ++ [leaf])) as [y|] eqn:Ey; [|done].
    apply look_app in Ey as (z & Hz & Hy). congruence.
Qed.

Lemma mkdir_at_spec t parent name :
  reaches t (mkdir_at k parent name) (λ _ t', changes_only [] t t').
Proof.
  apply reaches_syscall; [intros; apply changes_refl|]. intros n. simpl.
  destruct (look true t parent) as [[b m|m es|l|]|e] eqn:El; try apply changes_refl.
  destruct (entry_of es name) eqn:Ex; [apply changes_refl|].
  eapply create_changes; [done..|]. intros r _. apply file_at_empty.
Qed.

Lemma unlink_at_spec t parent leaf mode es c :
  look true t parent = Ok (NDir mode es) → entry_of es leaf = Some c → is_link c = false →
  reaches t (unlink_at k parent leaf)
    (λ r t', changes_only [parent ++ [leaf]] t t' ∧ (r = Ok tt → file_at t' (parent ++ [leaf]) = None)).
Proof.
  intros El Ex Hk. apply reaches_syscall; [intros; split; [apply changes_refl|done]|]. intros n. simpl.
  rewrite El. simpl. rewrite Ex. destruct c; simpl; try (by split; [apply changes_refl|]); try done;
    by destruct (remove_changes _ _ _ _ _ _ El Ex eq_refl eq_refl).
Qed.

Lemma open_for_write_spec t parent leaf :
  dir_at t parent →
  reaches t (open_for_write k parent leaf)
    (λ r t', changes_only [parent ++ [leaf]] t t' ∧ ∀ fd, r = Ok fd → fd = parent ++ [leaf]).
Proof.
  intros (mode & es & Hp).
  apply reaches_retry, reaches_syscall; [intros e; split; [done|]; split; [apply changes_refl|done]|].
  intros n. destruct (look (k_link k n) t (parent ++ [leaf])) as [[b m|m es'|l|]|e] eqn:El; simpl;
    try (split; [done|]; split; [apply changes_refl|]; by intros ? [= <-]).
  destruct e; simpl; try (split; [done|]; split; [apply changes_refl|]; by intros ? [= <-]).
  split; [done|]. split; [|by intros ? [= <-]]. eapply create_changes; [done| |done|].
  - destruct (entry_of es leaf) as [x|] eqn:Ex; [|done]. exfalso.
    assert (∀ b p t, look b t p = Ok (NDir mode es) → look (k_link k n) t (p ++ [leaf]) ≠ Err NOENT) as Hne.
    { clear -Ex. intros b p. induction p as [|c p IH]; intros t.
      - simpl. intros [= ->]. rewrite Ex. destruct x; try done. by destruct (k_link k n).
      - simpl. destruct t as [|? es'| |]; try done. destruct (entry_of es' c) as [[]|]; try done; apply IH. }
    by eapply Hne.
  - intros [|c r] Hr; [|done]. exfalso. apply Hr. by left.
Qed.

(** Diagnosis reads only, and never reports an absent file. *)
Lemma locate_from_spec t path components current :
  reaches t (locate_from k path current components)
    (λ r t', t' = t ∧ ∃ o, r = Ok o ∧ ∀ d p, o = Some d → d ≠ DAbsent p).
Proof.
  revert current. induction components as [|c cs IH]; intros current; simpl.
  { apply reaches_done. eauto. }
  apply reaches_attempt. eapply reaches_mono; [apply stat_at_spec|]. intros r t' [-> _].
  destruct r as [[b m|m es|l|]|e]; try (apply reaches_done; split; [done|]; eexists; split; [done|]).
  - by destruct cs; intros ? ? [= <-].
  - apply reaches_attempt. eapply reaches_mono; [apply open_directory_spec|]. intros [fd|e] t' [-> _].
    + apply IH.
    + apply reaches_done. eauto.
  - by intros ? ? [= <-].
  - by destruct cs; intros ? ? [= <-].
  - done.
Qed.

Lemma classify_not_absent e path context p : classify k e path context ≠ DAbsent p.
Proof. by destruct e. Qed.

Lemma locate_offender_spec t root path :
  reaches t (locate_offender k root path)
    (λ r t', t' = t ∧ ∃ o, r = Ok o ∧ ∀ d p, o = Some d → d ≠ DAbsent p).
Proof.
  unfold locate_offender. destruct (validate_path path); [apply locate_from_spec|].
  apply reaches_done. eauto.
Qed.

Lemma diagnose_spec t root e path context :
  reaches t (diagnose k root e path context) (λ r t', t' = t ∧ ∃ d, r = Ok d ∧ ∀ p, d ≠ DAbsent p).
Proof.
  assert (∀ e, reaches t (done_with (Ok (classify k e path context)))
                 (λ r t', t' = t ∧ ∃ d : DirfdError, r = @Ok _ DirfdError d ∧ ∀ p, d ≠ DAbsent p)) as Hplain.
  { intros e'. apply reaches_done. split; [done|]. eexists. split; [done|]. apply classify_not_absent. }
  unfold diagnose. destruct e; try apply Hplain.
  all: apply reaches_andthen; eapply reaches_mono; [apply locate_offender_spec|].
  all: intros r t' (-> & o & -> & Ho); apply reaches_done; split; [done|]; eexists; split; [done|].
  all: intros p; destruct o as [d|]; simpl; [by apply Ho|done].
Qed.

Lemma diagnosed_spec {A} t root path context (m : op errno A) (Q : result A errno → node → Prop) :
  reaches t m Q →
  reaches t (diagnosed k root path context m)
    (λ r t', match r with
             | Ok a => Q (Ok a) t'
             | Err d => (∃ e, Q (Err e) t') ∧ ∀ p, d ≠ DAbsent p
             end).
Proof.
  intros Hm. apply reaches_attempt. eapply reaches_mono; [exact Hm|]. intros [a|e] t' Hq.
  - by apply reaches_done.
  - apply reaches_andthen. eapply reaches_mono; [apply diagnose_spec|]. intros r t'' (-> & d & -> & Hd).
    apply reaches_done. split; [by exists e|exact Hd].
Qed.

Lemma refine_spec {E F A} t (m : op E A) (f : E → F) (Q : result A E → node → Prop) :
  reaches t m Q →
  reaches t (refine m f) (λ r t', match r with
                                  | Ok a => Q (Ok a) t'
                                  | Err d => ∃ e, d = f e ∧ Q (Err e) t'
                                  end).
Proof.
  intros Hm. apply reaches_attempt. eapply reaches_mono; [exact Hm|].
  intros [a|e] t' Hq; apply reaches_done; simpl; [done|eauto].
Qed.

Lemma require_regular_spec t fd path context :
  reaches t (require_regular k fd path context)
    (λ r t', t' = t ∧ match r with
                      | Ok _ => ∃ b mode, look true t fd = Ok (NFile b mode)
                      | Err d => ∀ p, d ≠ DAbsent p
                      end).
Proof.
  apply reaches_andthen. eapply reaches_mono.
  - apply refine_spec. apply (reaches_syscall k t _ (λ r t', t' = t ∧ ∀ n, r = Ok n → look true t fd = Ok n));
      [done|]. intros n. simpl. split; [done|]. intros m. by destruct (look true t fd); simplify_eq/=.
  - intros [n|d] t' Hn.
    + destruct Hn as [-> Hn]. apply reaches_done. split; [done|]. destruct n; try done. eauto.
    + destruct Hn as (e & -> & -> & _). split; [done|]. intros p. apply classify_not_absent.
Qed.
(** ** The staged root *)

Lemma validate_path_Ok path components :
  validate_path path = Ok components → components = split "/"%char path.
Proof. unfold validate_path. intros Hok. res_inv. congruence. Qed.

Lemma split_last_Ok path components directories leaf :
  split_last path components = Ok (directories, leaf) → components = directories ++ [leaf].
Proof.
  unfold split_last. destruct (last components) as [x|] eqn:E; [|done].
  apply last_Some in E as [l ->]. intros [= <- <-]. rewrite length_app. simpl.
  rewrite Nat.add_1_r. simpl. by rewrite take_app_length.
Qed.

Lemma validated_split path directories leaf :
  (let? components := validate_path path in split_last path components) = Ok (directories, leaf) →
  split "/"%char path = directories ++ [leaf].
Proof. intros Hok. res_inv. apply validate_path_Ok in Hr as ->. by eapply split_last_Ok. Qed.

Definition not_absent (d : DirfdError) : Prop := ∀ p, d ≠ DAbsent p.

Lemma validated_not_absent path :
  refuses not_absent (let? components := validate_path path in split_last path components).
Proof.
  apply refuses_bind.
  - unfold validate_path. repeat (apply refuses_bind; [try (by apply refuses_fail_if)|intros _]);
      [|apply refuses_ok]. apply refuses_try_for. intros c _. unfold validate_path_component.
    repeat (apply refuses_if; [by apply refuses_err|]). apply refuses_ok.
  - intros cs. unfold split_last. destruct (last cs); [apply refuses_ok|by apply refuses_err].
Qed.

Lemma staged_read_spec t root path :
  reaches t (staged_read k root path)
    (λ r t', t' = t ∧ ∀ o, r = Ok o → o = file_at t (loc root path)).
Proof.
  apply reaches_andthen, reaches_done. destruct (validate_path path) as [cs|e] eqn:Ev; [|done].
  apply validate_path_Ok in Ev as ->. apply reaches_attempt.
  eapply reaches_mono; [apply open_for_read_spec|]. intros [fd|e] t' [-> Hr].
  - destruct Hr as (-> & n & Hn). apply reaches_andthen.
    eapply reaches_mono; [apply require_regular_spec|]. intros [[]|d] t' [-> Hd]; [|done].
    destruct Hd as (b & mode & Hl). apply reaches_andthen. eapply reaches_mono.
    { apply refine_spec, (reaches_syscall k t _ (λ r t', t' = t ∧ ∀ c, r = Ok c → c = b)); [done|].
      intros m. simpl. rewrite Hl. split; [done|]. by intros c [= <-]. }
    intros [c|d] t' Hc; [|destruct Hc as (? & ? & ? & _); by subst].
    destruct Hc as [-> Hc]. apply reaches_done. split; [done|]. intros o [= <-].
    unfold file_at, loc. rewrite Hl. by rewrite (Hc c).
  - assert (∀ e, reaches t (andthen (diagnose k root e path "open prior bytes") (λ d, done_with (Err d)))
                   (λ (r : result (option bytes) DirfdError) t', t' = t ∧ ∀ o, r = Ok o → o = file_at t (loc root path))) as Hdiag.
    { intros e'. apply reaches_andthen. eapply reaches_mono; [apply diagnose_spec|].
      intros r t' (-> & d & -> & _). by apply reaches_done. }
    destruct e; try apply Hdiag. apply reaches_done. split; [done|]. by intros o [= <-].
Qed.

Lemma ensure_directory_spec t root path current component :
  reaches t (ensure_directory k root path current component)
    (λ r t', changes_only [] t t' ∧ ∀ fd, r = Ok fd → fd = current ++ [component] ∧ dir_at t' fd).
Proof.
  assert (∀ context e t', changes_only [] t t' →
            reaches t' (andthen (diagnose k root e path context) (λ d, done_with (Err d)))
              (λ (r : result (list string) DirfdError) t', changes_only [] t t' ∧
                 ∀ fd, r = Ok fd → fd = current ++ [component] ∧ dir_at t' fd)) as Hdiag.
  { intros context e t' Ht. apply reaches_andthen. eapply reaches_mono; [apply diagnose_spec|].
    intros r t'' (-> & d & -> & _). by apply reaches_done. }
  assert (∀ t', changes_only [] t t' →
            reaches t' (diagnosed k root path "open created patch directory" (open_directory k current [component]))
              (λ (r : result (list string) DirfdError) t', changes_only [] t t' ∧
                 ∀ fd, r = Ok fd → fd = current ++ [component] ∧ dir_at t' fd)) as Hopen.
  { intros t' Ht. eapply reaches_mono; [apply diagnosed_spec, open_directory_spec|].
    intros [fd|d] t'' Hr; [|by destruct Hr as [(? & -> & _) _]]. destruct Hr as [-> Hr]. split; [done|].
    by intros fd' [= <-]; apply Hr. }
  apply reaches_attempt. eapply reaches_mono; [apply open_directory_spec|]. intros [fd|e] t' [-> Hr].
  - apply reaches_done. split; [apply changes_refl|]. intros fd' [= <-]. by apply Hr.
  - destruct e; try (apply Hdiag, changes_refl). apply reaches_attempt.
    eapply reaches_mono; [apply mkdir_at_spec|]. intros [[]|e] t' Ht; [by apply Hopen|].
    destruct e; (by apply Hdiag) || (by apply Hopen).
Qed.

Lemma ensure_directories_spec t root path current directories :
  dir_at t current →
  reaches t (ensure_directories k root path current directories)
    (λ r t', changes_only [] t t' ∧ ∀ fd, r = Ok fd → fd = current ++ directories ∧ dir_at t' fd).
Proof.
  revert t current. induction directories as [|c cs IH]; intros t current Hc; simpl.
  { apply reaches_done. split; [apply changes_refl|]. intros fd [= <-]. by rewrite app_nil_r. }
  apply reaches_andthen. eapply reaches_mono; [apply ensure_directory_spec|].
  intros [next|e] t' [Ht Hr]; [|done]. destruct (Hr _ eq_refl) as [-> Hd].
  eapply reaches_mono; [by apply IH|]. intros r t'' [Ht' Hr']. split; [by eapply changes_then|].
  intros fd E. destruct (Hr' fd E) as [-> ?]. split; [by rewrite <- app_assoc|done].
Qed.

(** Truncate, write and sync an open regular file. *)
Lemma fill_file_spec t fd path b b0 mode :
  look true t fd = Ok (NFile b0 mode) →
  reaches t (andthen (refine (file_truncate k fd) (λ e, classify k e path "truncate patch target")) (λ _,
             andthen (refine (file_write k fd b) (io k path "write patch target")) (λ _,
             refine (file_sync k fd) (io k path "fsync patch target"))))
    (λ r t', changes_only [fd] t t' ∧ (r = Ok tt → file_at t' fd = Some b)).
Proof.
  intros Hl. apply reaches_andthen. eapply reaches_mono.
  { apply refine_spec, (reaches_syscall k t _ (λ r t', changes_only [fd] t t' ∧
      (r = Ok tt → look true t' fd = Ok (NFile [] mode)))).
    - intros e. split; [apply changes_refl|done].
    - intros n. simpl. split; [apply set_contents_changes|]. intros _. by apply (set_contents_at t fd (λ _, []) b0 mode). }
  intros [[]|d] t1 Hr; [|destruct Hr as (? & ? & ? & _); by split].
  destruct Hr as [Ht1 Hl1]. specialize (Hl1 eq_refl). apply reaches_andthen. eapply reaches_mono.
  { apply (refine_spec t1 _ _ (λ r t', changes_only [fd] t t' ∧ (r = Ok tt → file_at t' fd = Some b))).
    intros w Hw. unfold file_write. rewrite Hw. destruct (k_fail k (w_calls w)); simpl.
    - split; [|done]. eapply changes_then; [exact Ht1|apply set_contents_changes].
    - split; [eapply changes_then; [exact Ht1|apply set_contents_changes]|]. intros _.
      unfold file_at. rewrite (set_contents_at _ _ _ _ _ Hl1). unfold overwrite.
      by rewrite drop_nil, app_nil_r. }
  intros [[]|d] t2 Hr; [|destruct Hr as (? & ? & ? & _); by split].
  destruct Hr as [Ht2 Hf]. eapply reaches_mono.
  { apply refine_spec, (reaches_syscall k t2 _ (λ r t', t' = t2)); done. }
  intros [[]|d] t3 Hr; [subst; split; [done|intros _; by apply Hf]|destruct Hr as (? & ? & ->); by split].
Qed.

Lemma staged_write_spec t root path b :
  dir_at t root →
  reaches t (staged_write k root path b)
    (λ r t', changes_only [loc root path] t t' ∧ (r = Ok tt → file_at t' (loc root path) = Some b)).
Proof.
  intros Hroot. apply reaches_andthen, reaches_done.
  destruct (let? components := validate_path path in split_last path components)
    as [[directories leaf]|e] eqn:Es; [|split; [apply changes_refl|done]].
  apply validated_split in Es. unfold loc. rewrite Es. apply reaches_andthen.
  eapply reaches_mono; [by apply ensure_directories_spec|]. intros [parent|d] t1 [Ht1 Hp].
  2: { split; [by apply changes_nil|done]. }
  destruct (Hp _ eq_refl) as [-> Hdir]. rewrite app_assoc. apply reaches_andthen.
  eapply reaches_mono; [by apply diagnosed_spec, open_for_write_spec|]. intros [fd|d] t2 Hr.
  2: { destruct Hr as [(? & Ht2 & _) _]. split; [|done]. eapply changes_then; [by apply changes_nil|done]. }
  destruct Hr as [Ht2 Hfd]. rewrite (Hfd _ eq_refl). apply reaches_andthen.
  eapply reaches_mono; [apply require_regular_spec|]. intros [[]|d] t3 [-> Hreg].
  2: { split; [|done]. eapply changes_then; [by apply changes_nil|done]. }
  destruct Hreg as (b0 & mode & Hl). eapply reaches_mono; [by eapply fill_file_spec|].
  intros r t4 [Ht4 Hb]. split; [|exact Hb].
  eapply changes_then; [by apply changes_nil|]. by eapply changes_then.
Qed.

Lemma open_parent_spec t root path directories :
  dir_at t root →
  reaches t (open_parent k root path directories)
    (λ r t', t' = t ∧ match r with
                      | Ok fd => fd = root ++ directories
                      | Err d => ∀ p, d ≠ DAbsent p
                      end).
Proof.
  intros Hroot. unfold open_parent. destruct directories as [|c cs].
  - apply reaches_done. by rewrite app_nil_r.
  - eapply reaches_mono; [apply diagnosed_spec, open_directory_spec|]. intros [fd|d] t' Hr.
    + destruct Hr as [-> Hr]. split; [done|]. by apply Hr.
    + by destruct Hr as [(? & -> & _) ?].
Qed.

Lemma staged_unlink_spec t root path :
  dir_at t root →
  reaches t (staged_unlink k root path)
    (λ r t', changes_only [loc root path] t t' ∧
             (r = Ok tt ∨ (∃ p, r = Err (DAbsent p)) → file_at t' (loc root path) = None)).
Proof.
  intros Hroot. apply reaches_andthen, reaches_done.
  destruct (let? components := validate_path path in split_last path components)
    as [[directories leaf]|e] eqn:Es.
  2: { split; [apply changes_refl|]. intros [?|[p [= ->]]]; [done|].
       by destruct (validated_not_absent path _ Es p). }
  apply validated_split in Es. unfold loc. rewrite Es, app_assoc. apply reaches_andthen.
  eapply reaches_mono; [by apply open_parent_spec|]. intros [parent|d] t1 [-> Hp].
  2: { split; [apply changes_refl|]. intros [?|[p [= ->]]]; [done|]. by destruct (Hp p). }
  subst parent. apply reaches_attempt. eapply reaches_mono; [apply stat_at_spec|].
  intros r t1 [-> Hr].
  assert (∀ d, (∀ p, d ≠ DAbsent p) →
            reaches t (done_with (Err d)) (λ (r : result unit DirfdError) t',
              changes_only [(root ++ directories) ++ [leaf]] t t' ∧
              (r = Ok tt ∨ (∃ p, r = Err (DAbsent p)) → file_at t' ((root ++ directories) ++ [leaf]) = None))) as Hno.
  { intros d Hd. apply reaches_done. split; [apply changes_refl|].
    intros [?|[p [= ->]]]; [done|]. by destruct (Hd p). }
  destruct r as [[b m|m es|l|]|e]; try (by apply Hno).
  - destruct Hr as (mode & es & El & Ex).
    eapply reaches_mono; [apply diagnosed_spec; by eapply unlink_at_spec|]. intros [[]|d] t' Hu.
    + destruct Hu as [Ht Hf]. split; [done|]. intros _. by apply Hf.
    + destruct Hu as [(e & Ht & _) Hd]. split; [done|]. intros [?|[p [= ->]]]; [done|]. by destruct (Hd p).
  - assert (∀ e, reaches t (andthen (diagnose k root e path "inspect delete target") (λ d, done_with (Err d)))
              (λ (r : result unit DirfdError) t', changes_only [(root ++ directories) ++ [leaf]] t t' ∧
              (r = Ok tt ∨ (∃ p, r = Err (DAbsent p)) → file_at t' ((root ++ directories) ++ [leaf]) = None))) as Hdiag.
    { intros e'. apply reaches_andthen. eapply reaches_mono; [apply diagnose_spec|].
      intros r t' (-> & d & -> & Hd). by apply Hno. }
    destruct e; try apply Hdiag. apply reaches_done. by split; [apply changes_refl|].
Qed.
End Specs.

(** ** Rollback and batches *)

#[local] Instance loc_inj root : Inj (=) (=) (loc root).
Proof.
  intros x y E. unfold loc in E. apply app_inv_head in E.
  by rewrite <- (concat_split "/"%char x), <- (concat_split "/"%char y), E.
Qed.

Lemma loc_not_in root path (entries : list (string * option bytes)) :
  path ∉ map fst entries → loc root path ∉ map (λ row, loc root (fst row)) entries.
Proof.
  intros Hp Hin. apply list_elem_of_fmap in Hin as ([q pr] & E & Hq). apply loc_inj in E.
  simpl in E. subst q. apply Hp, list_elem_of_fmap. by exists (path, pr).
Qed.

Section Batch.
Context `{StrDebug, CapabilityText} (k : kernel).

Lemma restore_one_spec t root path prior :
  dir_at t root →
  reaches t (restore_one k root path prior)
    (λ r t', changes_only [loc root path] t t' ∧ (r = Ok tt → file_at t' (loc root path) = prior)).
Proof.
  intros Hroot. destruct prior as [b|]; simpl; [by apply staged_write_spec|].
  apply reaches_attempt. eapply reaches_mono; [by apply staged_unlink_spec|].
  intros r t' [Ht Hr]. apply reaches_done. split; [done|].
  destruct r as [[]|[]]; intros E; try done; apply Hr; [by left|right; eauto].
Qed.

(** What a rollback leaves: nothing outside its entries is touched, and every
    entry it does not report is restored. *)
Definition rolled_back (root : StagedRoot) (entries : list (string * option bytes)) (t t' : node)
    (failures : list RestoreFailure) : Prop :=
  changes_only (map (λ row, loc root (fst row)) entries) t t' ∧
  (∀ f, f ∈ failures → rf_path f ∈ map fst entries) ∧ NoDup (map rf_path failures) ∧
  (∀ path prior, (path, prior) ∈ entries → path ∉ map rf_path failures →
                 file_at t' (loc root path) = prior).

Lemma restore_each_spec t root entries :
  dir_at t root → NoDup (map fst entries) →
  reaches t (restore_each k root entries)
    (λ r t', ∃ failures, r = Ok failures ∧ rolled_back root entries t t' failures).
Proof.
  revert t. induction entries as [|[path prior] entries IH]; intros t Hroot Hnd; simpl.
  { apply reaches_done. exists []. split; [done|]. split; [apply changes_refl|].
    split_and!; [by intros ? ?%elem_of_nil|apply NoDup_nil_2|by intros ? ? ?%elem_of_nil]. }
  simpl in Hnd. apply NoDup_cons in Hnd as [Hp Hnd].
  apply reaches_attempt. eapply reaches_mono; [by apply restore_one_spec|]. intros r t1 [Ht1 Hone].
  apply reaches_andthen. eapply reaches_mono; [apply IH; [by apply Ht1|done]|].
  intros r' t2 (failures & -> & Ht2 & Hin & Hnodup & Hrest). apply reaches_done.
  assert (∀ all, (∀ f, f ∈ all → f ∈ failures ∨ rf_path f = path) → NoDup (map rf_path all) →
            (∀ f, f ∈ failures → f ∈ all) →
            (path ∉ map rf_path all → r = Ok tt) →
            rolled_back root ((path, prior) :: entries) t t2 all) as Hall.
  { intros all Hsub Hall Hsup Hok. split_and!; [|..|exact Hall|].
    - eapply changes_trans; [exact Ht1|exact Ht2|..]; intros x Hx; simpl; rewrite elem_of_cons.
      + left. by apply list_elem_of_singleton in Hx.
      + by right.
    - intros f [Hf|<-]%Hsub; simpl; rewrite elem_of_cons; [right; by apply Hin|by left].
    - intros q pr [[= -> ->]|Hq]%elem_of_cons Hnot.
      + rewrite (proj1 Ht2); [by apply Hone, Hok|]. by apply loc_not_in.
      + apply Hrest; [done|]. intros Hf. apply Hnot. apply list_elem_of_fmap in Hf as (f & -> & Hf).
        apply list_elem_of_fmap. eexists. split; [done|by apply Hsup]. }
  destruct r as [[]|d].
  - exists failures. split; [done|]. apply Hall; [by left|done..].
  - eexists. split; [done|]. apply Hall; simpl.
    + intros f [->|?]%elem_of_cons; [by right|by left].
    + apply NoDup_cons. split; [|done]. intros Hf. apply Hp.
      apply list_elem_of_fmap in Hf as (f & E & Hf). simpl in E. rewrite E. by apply Hin.
    + intros f. rewrite elem_of_cons. by right.
    + intros Hnot. exfalso. apply Hnot. by left.
Qed.

Lemma restore_spec t root entries :
  dir_at t root → NoDup (map fst entries) →
  reaches t (restore k root entries)
    (λ r t', ∃ failures, r = (match failures with [] => Ok tt | _ => Err (DRestore failures) end) ∧
                         rolled_back root entries t t' failures).
Proof.
  intros Hroot Hnd. apply reaches_andthen. eapply reaches_mono; [by apply restore_each_spec|].
  intros r t' (failures & -> & Hrb). apply reaches_done. by exists failures.
Qed.

(** The state of [apply_each]: the prior contents recorded, the rest untouched. *)
Definition applying (root : StagedRoot) (t0 t : node) (applied : list (string * option bytes)) : Prop :=
  changes_only (map (λ row, loc root (fst row)) applied) t0 t ∧
  ∀ path prior, (path, prior) ∈ applied → prior = file_at t0 (loc root path).

Definition hunk_contents (patch : PatchHunk) : option bytes :=
  match hunk_op patch with OpWrite contents => Some contents | OpDelete => None end.

Lemma hunk_apply_spec t root patch path :
  dir_at t root →
  reaches t (hunk_apply k root patch path)
    (λ r t', changes_only [loc root path] t t' ∧
             (r = Ok tt → file_at t' (loc root path) = hunk_contents patch)).
Proof.
  intros Hroot. unfold hunk_apply, hunk_contents. destruct (hunk_op patch) as [contents|].
  - by apply staged_write_spec.
  - eapply reaches_mono; [by apply staged_unlink_spec|]. intros r t' [Ht Hr]. split; [done|].
    intros ->. apply Hr. by left.
Qed.

Lemma apply_each_spec t0 t root batch applied :
  dir_at t root → applying root t0 t applied → NoDup (map fst applied ++ map snd batch) →
  reaches t (apply_each k root batch applied)
    (λ '(r, applied') t', dir_at t' root ∧ applying root t0 t' applied' ∧
       NoDup (map fst applied') ∧ map fst applied' ⊆ map fst applied ++ map snd batch ∧
       (r = Ok tt → map fst applied' = map fst applied ++ map snd batch ∧
          Forall (λ row, file_at t' (loc root (snd row)) = hunk_contents (fst row)) batch ∧
          Forall (λ row, file_at t' (loc root (fst row)) = file_at t (loc root (fst row))) applied)).
Proof.
  revert t applied. induction batch as [|[patch path] batch IH]; intros t applied Hroot Hap Hnd; simpl.
  { apply reaches_done. rewrite app_nil_r in *. split_and!; try done. intros _. split_and!; [done|constructor|].
    by apply Forall_forall. }
  apply reaches_attempt. eapply reaches_mono; [apply staged_read_spec|]. intros prior t1 [-> Hprior].
  assert (NoDup (map fst applied)) as Hnda by (by apply NoDup_app in Hnd as (? & _)).
  destruct prior as [prior|e].
  2: { apply reaches_done. split_and!; try done. intros x. rewrite elem_of_app. by left. }
  specialize (Hprior _ eq_refl). apply reaches_attempt.
  eapply reaches_mono; [by apply hunk_apply_spec|]. intros r t1 [Ht1 Hr].
  assert (path ∉ map fst applied) as Hfresh.
  { apply NoDup_app in Hnd as (_ & Hx & _). intros Hin. apply (Hx _ Hin). by left. }
  assert (applying root t0 t1 (applied ++ [(path, prior)])) as Hap1.
  { destruct Hap as [Hc Hpr]. split.
    - rewrite map_app. eapply changes_trans; [exact Hc|exact Ht1|..]; intros x; rewrite elem_of_app; [by left|].
      by right.
    - intros q pr [Hq|Hq]%elem_of_app; [by apply Hpr|]. apply list_elem_of_singleton in Hq as [= -> ->].
      rewrite Hprior. by apply Hc, loc_not_in. }
  assert (map fst (applied ++ [(path, prior)]) ++ map snd batch = map fst applied ++ path :: map snd batch) as Ekeys.
  { rewrite map_app, <- app_assoc. done. }
  assert (dir_at t1 root) as Hroot1 by (by apply Ht1).
  destruct r as [[]|e].
  - eapply reaches_mono; [apply IH; [done|done|by rewrite Ekeys]|].
    intros [r applied'] t2 (Hd & Hap2 & Hnd2 & Hsub & Hok). rewrite Ekeys in Hsub, Hok.
    split_and!; try done. intros ->. destruct (Hok eq_refl) as (Hk & Hall & Hold).
    apply Forall_app in Hold as [Hold Hlast]. rewrite Forall_singleton in Hlast. simpl in Hlast.
    split_and!; [done| |].
    + constructor; [|done]. simpl. rewrite Hlast. by apply Hr.
    + rewrite Forall_forall in Hold |- *. intros [q pr] Hq. rewrite Hold by done. simpl.
      apply Ht1. intros E%list_elem_of_singleton%loc_inj. subst q. apply Hfresh.
      apply list_elem_of_fmap. by exists (path, pr).
  - apply reaches_done. split_and!; try done.
    + rewrite map_app. apply NoDup_app. split_and!; [done| |apply NoDup_singleton].
      intros x Hx ->%list_elem_of_singleton. done.
    + rewrite map_app. intros x. rewrite !elem_of_app. intros [?| ->%list_elem_of_singleton]; [by left|].
      right. by left.
Qed.
(** The entries of [unrestored] are the recorded ones. *)
Lemma unrestored_rows root applied failures :
  (∀ f, f ∈ failures → rf_path f ∈ map fst applied) →
  ∃ rows, unrestored root applied failures = map (λ row, (root +:+ "/" +:+ fst row, snd row)) rows ∧
          map fst rows = map rf_path failures ∧ rows ⊆ applied.
Proof.
  induction failures as [|f failures IH]; intros Hin; [exists []; split_and!; [done..|by intros ? ?%elem_of_nil]|].
  destruct IH as (rows & Hu & Hm & Hs); [intros f' Hf'; apply Hin; by right|].
  assert (∃ row, find (λ row : string * option bytes, String.eqb (fst row) (rf_path f)) applied = Some row ∧
                 fst row = rf_path f ∧ row ∈ applied) as (row & Hf & Hrow & Happ).
  { assert (rf_path f ∈ map fst applied) as Hin' by (apply Hin; by left). clear -Hin'.
    induction applied as [|[q pr] applied IH]; simpl in *; [by apply elem_of_nil in Hin'|].
    destruct (String.eqb_spec q (rf_path f)) as [E|E].
    - eexists. split; [done|]. split; [done|by left].
    - apply elem_of_cons in Hin' as [?|Hin']; [congruence|]. destruct (IH Hin') as (row & ? & ? & ?).
      exists row. split_and!; try done. by right. }
  exists (row :: rows). unfold unrestored in *. simpl. rewrite Hf. simpl. split_and!.
  - by rewrite <- Hu.
  - by rewrite Hrow, Hm.
  - intros x [->|Hx]%elem_of_cons; [done|by apply Hs].
Qed.

Lemma root_open_spec t root location :
  reaches t (root_open k root location)
    (λ r t', t' = t ∧ ∀ fd, r = Ok fd → fd = location ∧ dir_at t location).
Proof.
  eapply reaches_mono.
  { apply refine_spec, (reaches_syscall k t _
      (λ r t', t' = t ∧ ∀ fd, r = Ok fd → fd = location ∧ dir_at t location)); [done|].
    intros n. simpl. split; [done|]. intros fd E.
    destruct (look _ t _) as [[]|] eqn:El; try done. injection E as <-.
    split; [done|]. eexists _, _. by eapply look_loop. }
  intros [fd|d] t' Hr; [|by destruct Hr as (? & -> & -> & _)].
  destruct Hr as [-> Hr]. split; [done|]. intros fd' [= <-]. by apply Hr.
Qed.

(** The recorded rows whose rollback failed, and the rest as before. *)
Definition left_over (root : string) (location : StagedRoot) (t t' : node) (normalized : list string)
    (undo rows : list (string * option bytes)) : Prop :=
  undo = map (λ row, (root +:+ "/" +:+ fst row, snd row)) rows ∧ NoDup (map fst rows) ∧
  map fst rows ⊆ normalized ∧
  (∀ path prior, (path, prior) ∈ rows → prior = file_at t (loc location path)) ∧
  (∀ p, p ∉ map (λ row, loc location (fst row)) rows → file_at t' p = file_at t p).

Lemma left_over_none root location t normalized : left_over root location t t normalized [] [].
Proof. split_and!; [done|apply NoDup_nil_2|by intros ? ?%elem_of_nil|by intros ? ? ?%elem_of_nil|done]. Qed.

Lemma apply_all_spec t root location patches normalized :
  NoDup normalized → length patches = length normalized →
  reaches t (apply_all k root location patches normalized)
    (λ '(r, undo) t', changes_only (map (loc location) normalized) t t' ∧
       match r with
       | Ok _ => Forall2 (λ patch path, file_at t' (loc location path) = hunk_contents patch)
                   patches normalized
       | Err _ => ∃ rows, left_over root location t t' normalized undo rows
       end).
Proof.
  intros Hnd Hlen. assert (map snd (zip patches normalized) = normalized) as Ezip by (by apply snd_zip; lia).
  apply reaches_attempt. eapply reaches_mono; [apply root_open_spec|].
  intros [staged|e] t0 [-> Hopen].
  2: { apply reaches_done. split; [apply changes_refl|]. exists []. apply left_over_none. }
  destruct (Hopen _ eq_refl) as [-> Hdir].
  apply reaches_attempt. eapply reaches_mono.
  { apply (apply_each_spec t t location (zip patches normalized) []); [done| |simpl; by rewrite Ezip].
    split; [apply changes_refl|by intros ? ? ?%elem_of_nil]. }
  intros [outcome applied] t1 (Hd1 & [Hch Hprior] & Hnda & Hsub & Hok). simpl in Hsub, Hok. rewrite Ezip in Hsub, Hok.
  assert (changes_only (map (loc location) normalized) t t1) as Hch'.
  { eapply changes_weaken; [exact Hch|]. intros x Hx. apply list_elem_of_fmap in Hx as (row & -> & Hrow).
    apply list_elem_of_fmap. exists (fst row). split; [done|]. apply Hsub. by apply list_elem_of_fmap_2. }
  destruct outcome as [[]|error].
  - apply reaches_done. split; [done|]. destruct (Hok eq_refl) as (_ & Hall & _).
    apply Forall2_same_length_lookup. split; [done|]. intros i patch path Hx Hy.
    rewrite Forall_forall in Hall. apply (Hall (patch, path)).
    apply list_elem_of_lookup. exists i. apply lookup_zip_with_Some. eauto.
  - apply reaches_attempt.
    assert (∀ x, x ∈ map fst (rev applied) ↔ x ∈ map fst applied) as Hrev.
    { intros x. by rewrite <- (Permutation_rev applied). }
    eapply reaches_mono; [apply (restore_spec t1 location (rev applied) Hd1)|].
    { by rewrite <- (Permutation_rev applied). }
    intros r t2 (failures & -> & Hch2 & Hin & Hndf & Hrest). apply reaches_done.
    assert (∀ row, row ∈ rev applied ↔ row ∈ applied) as Hrow.
    { intros row. by rewrite <- (Permutation_rev applied). }
    split.
    { eapply changes_then; [exact Hch'|]. eapply changes_weaken; [exact Hch2|].
      intros x Hx. apply list_elem_of_fmap in Hx as (row & -> & Hr). apply list_elem_of_fmap.
      exists (fst row). split; [done|]. apply Hsub, list_elem_of_fmap_2. by apply Hrow. }
    destruct (unrestored_rows root applied failures) as (rows & Hu & Hm & Hs).
    { intros f Hf. by apply Hrev, Hin. }
    exists rows. split_and!.
    + destruct failures as [|f fs]; [|exact Hu]. by destruct rows.
    + by rewrite Hm.
    + intros x Hx. apply list_elem_of_fmap in Hx as (row & -> & Hr). by apply Hsub, list_elem_of_fmap_2, Hs.
    + intros path prior Hr. by apply Hprior, Hs.
    + intros p Hp. destruct (decide (p ∈ map (λ row, loc location (fst row)) applied)) as [Hin'|Hout].
      * apply list_elem_of_fmap in Hin' as ([path prior] & -> & Hr). simpl in Hp |- *.
        rewrite (Hrest path prior); [by rewrite <- (Hprior _ _ Hr)|by apply Hrow|].
        rewrite <- Hm. intros Hf. apply Hp. apply list_elem_of_fmap in Hf as (row & -> & Hrow').
        apply list_elem_of_fmap. by exists row.
      * rewrite (proj1 Hch2), (proj1 Hch); [done|done|]. intros Hx. apply Hout.
        apply list_elem_of_fmap in Hx as (row & -> & Hr). apply list_elem_of_fmap. exists row.
        split; [done|by apply Hrow].
Qed.
(** The text of the staged root names its location. *)
Definition located (root : string) (location : list string) : Prop :=
  trim_slashes root ≠ "" ∧ split "/"%char (trim_slashes root) = location.

Lemma trim_slashes_app s t : trim_slashes s ≠ "" → trim_slashes (s +:+ t) = trim_slashes s +:+ t.
Proof.
  induction s as [|c s IH]; simpl; [done|]. destruct (Ascii.eqb c "/"%char); [apply IH|done].
Qed.

Lemma located_loc root location path :
  located root location → loc [] (trim_slashes (root +:+ "/" +:+ path)) = loc location path.
Proof.
  intros [Hne <-]. unfold loc. simpl. rewrite trim_slashes_app by done.
  by rewrite (split_app "/"%char).
Qed.

(** The second attempt restores every recorded row, or answers a refusal. *)
Lemma restore_all_spec t root location rows :
  located root location → NoDup (map fst rows) →
  reaches t (restore_all k (map (λ row, (root +:+ "/" +:+ fst row, snd row)) rows))
    (λ r t', changes_only (map (λ row, loc location (fst row)) rows) t t' ∧
       (r = None → ∀ path prior, (path, prior) ∈ rows → file_at t' (loc location path) = prior)).
Proof.
  intros Hloc Hnd. destruct rows as [|row0 rows0] eqn:Erows.
  { apply reaches_done. split; [apply changes_refl|by intros _ ? ? ?%elem_of_nil]. }
  rewrite <- Erows in *. set (undo := map (λ row, (root +:+ "/" +:+ fst row, snd row)) rows).
  set (entries := map (λ row, (trim_slashes (fst row), snd row)) (rev undo)).
  assert (map (λ row, loc [] (fst row)) entries ≡ₚ map (λ row, loc location (fst row)) rows) as Hlocs.
  { unfold entries, undo. rewrite <- (Permutation_rev (map _ rows)), !map_map. simpl.
    erewrite map_ext; [done|]. intros row. by apply located_loc. }
  assert (NoDup (map fst entries)) as Hnde.
  { apply (NoDup_fmap_1 (loc [])). change (loc [] <$> map fst entries) with (map (loc []) (map fst entries)).
    rewrite map_map, Hlocs. rewrite <- (map_map fst (loc location)).
    by apply (NoDup_fmap_2 (loc location)). }
  assert (reaches t (attempt (root_open k "/" []) (λ opened,
        match opened with
        | Err e => done_with (Some (refusal e))
        | Ok filesystem_root =>
            attempt (restore k filesystem_root entries) (λ r,
              done_with (match r with Ok _ => None | Err e => Some (refusal e) end))
        end))
      (λ r t', changes_only (map (λ row, loc location (fst row)) rows) t t' ∧
         (r = None → ∀ path prior, (path, prior) ∈ rows → file_at t' (loc location path) = prior))) as Hrun.
  { apply reaches_attempt. eapply reaches_mono; [apply root_open_spec|]. intros [fs|e] t0 [-> Ho].
    2: { by apply reaches_done; split; [apply changes_refl|]. }
    destruct (Ho _ eq_refl) as [-> Hd]. apply reaches_attempt.
    eapply reaches_mono; [by apply restore_spec|]. intros r t1 (failures & -> & Hch & _ & _ & Hrest).
    apply reaches_done. split.
    - eapply changes_weaken; [exact Hch|]. intros x. by rewrite Hlocs.
    - destruct failures; [|done]. intros _ path prior Hrow. rewrite <- (located_loc root location path Hloc).
      apply (Hrest (trim_slashes (root +:+ "/" +:+ path)) prior); [|by intros ?%elem_of_nil].
      unfold entries, undo. rewrite <- (Permutation_rev (map _ rows)), map_map.
      apply list_elem_of_fmap. by exists (path, prior). }
  unfold restore_all. fold undo. subst entries. destruct undo eqn:Eu; [|exact Hrun].
  exfalso. unfold undo in Eu. by rewrite Erows in Eu.
Qed.

Lemma apply_batch_spec t root location patches normalized :
  located root location → NoDup normalized → length patches = length normalized →
  reaches t (apply_batch k root location patches normalized)
    (λ r t', changes_only (map (loc location) normalized) t t' ∧
       match r with
       | Ok _ => Forall2 (λ patch path, file_at t' (loc location path) = hunk_contents patch)
                   patches normalized
       | Err e => (∀ p, file_at t' p = file_at t p) ∨ ∃ error rollback, e = with_failed_rollback error rollback
       end).
Proof.
  intros Hloc Hnd Hlen. apply reaches_attempt. eapply reaches_mono; [by apply apply_all_spec|].
  intros [[[]|error] undo] t1 [Hch Hr]; [by apply reaches_done|].
  destruct Hr as (rows & -> & Hndr & Hsub & Hprior & Hkeep).
  apply reaches_attempt. eapply reaches_mono; [by apply restore_all_spec|].
  intros r t2 [Hch2 Hr]. apply reaches_done. split.
  { eapply changes_then; [exact Hch|]. eapply changes_weaken; [exact Hch2|]. intros x Hx.
    apply list_elem_of_fmap in Hx as (row & -> & Hrow). apply list_elem_of_fmap. exists (fst row).
    split; [done|]. by apply Hsub, list_elem_of_fmap_2. }
  destruct r as [rollback|]; [right; eauto|left]. intros p.
  destruct (decide (p ∈ map (λ row, loc location (fst row)) rows)) as [Hin|Hout].
  - apply list_elem_of_fmap in Hin as ([path prior] & -> & Hrow). simpl.
    rewrite (Hr eq_refl path prior Hrow). by apply Hprior.
  - rewrite (proj1 Hch2) by done. by apply Hkeep.
Qed.
End Batch.

(** ** Symbolic links *)

(** A symbolic link named [link] in the directory [pre] beneath [root]. *)
Definition link_at (t : node) (root : StagedRoot) (pre : list string) (link : string) : Prop :=
  ∃ target, link_in t (root ++ pre) link target.

Lemma link_at_kept X t t' root pre link : changes_only X t t' → link_at t root pre link → link_at t' root pre link.
Proof. intros Ht [target Hl]. exists target. by apply Ht. Qed.

Lemma look_link b t root pre link post :
  link_at t root pre link →
  ∃ e, look b t (root ++ pre ++ link :: post) = Err e ∧ (e = LOOP ∨ e = NOTDIR).
Proof.
  intros (target & mode & es & Hl & He). rewrite app_assoc. revert Hl. generalize (root ++ pre). intros p.
  revert t. induction p as [|c p IH]; intros t.
  - simpl. intros [= ->]. rewrite He. destruct post; eexists; (split; [done|]); [|by left].
    destruct b; [by left|by right].
  - intros (m & Hm & Hl)%look_cons. destruct (IH m Hl) as (e & Hlook & He').
    exists e. split; [|done]. simpl. unfold step_to in Hm. destruct t as [|? es'| |]; try done.
    destruct (entry_of es' c) as [x|]; [|done]. destruct x; simpl in Hm; by simplify_eq.
Qed.

(** Whatever call fails, nothing is read through a link. *)
Section LinkReads.
Context `{StrDebug, CapabilityText} (k : kernel).

Lemma staged_read_link t root path pre link post :
  validate_path path = Ok (pre ++ link :: post) → link_at t root pre link →
  reaches t (staged_read k root path) (λ r t', t' = t ∧ ∃ e, r = Err e).
Proof.
  intros Hv Hlink. unfold staged_read. rewrite Hv. apply reaches_andthen, reaches_done, reaches_attempt.
  eapply reaches_mono.
  { apply (reaches_retry t RESOLUTION_RETRIES _ (λ r t', t' = t ∧ ∃ e, r = Err e ∧ e ≠ NOENT)).
    apply reaches_syscall.
    - intros e. split; [done|]. split; [done|]. eexists. split; [done|apply failure_not_noent].
    - intros n. simpl. destruct (look_link (k_link k n) t root pre link post Hlink) as (e & He & Hcase).
      rewrite He. split; [done|]. split; [done|]. exists e. split; [done|]. by destruct Hcase as [-> | ->]. }
  intros r t' (-> & e & -> & Hne).
  assert (reaches t (andthen (diagnose k root e path "open prior bytes") (λ d, done_with (Err d)))
            (λ (r : result (option bytes) DirfdError) t', t' = t ∧ ∃ e, r = Err e)) as Hdiag.
  { apply reaches_andthen. eapply reaches_mono; [apply diagnose_spec|]. intros r t' (-> & d & -> & _).
    apply reaches_done. by eauto. }
  by destruct e.
Qed.

Lemma apply_each_app root before rest applied w :
  apply_each k root (before ++ rest) applied w =
    match apply_each k root before applied w with
    | ((Ok _, applied), w) => apply_each k root rest applied w
    | refused => refused
    end.
Proof.
  revert applied w. induction before as [|[patch path] before IH]; intros applied w; [done|]. simpl.
  unfold attempt at 1 3. destruct (staged_read k root path w) as [[prior|e] w1]; [|done].
  unfold attempt. destruct (hunk_apply k root patch path w1) as [[[]|e] w2]; [apply IH|done].
Qed.

(** A batch with a path across a link is not applied. *)
Lemma apply_each_link t root batch applied path pre link post :
  dir_at t root → validate_path path = Ok (pre ++ link :: post) → link_at t root pre link →
  path ∈ map snd batch →
  reaches t (apply_each k root batch applied) (λ '(r, _) _, ∃ e, r = Err e).
Proof.
  revert t applied. induction batch as [|[patch p] batch IH]; intros t applied Hd Hv Hlink Hin; [by apply elem_of_nil in Hin|].
  simpl. apply reaches_attempt. simpl in Hin. apply elem_of_cons in Hin as [<-|Hin].
  - eapply reaches_mono; [by eapply staged_read_link|]. intros r t' (-> & e & ->). apply reaches_done. by eexists.
  - eapply reaches_mono; [apply staged_read_spec|]. intros [prior|e] t' [-> _]; [|apply reaches_done; by eexists].
    apply reaches_attempt. eapply reaches_mono; [by apply hunk_apply_spec|].
    intros [[]|e] t' [Ht _]; [|apply reaches_done; by eexists].
    apply IH; [by apply Ht|done|by eapply link_at_kept|done].
Qed.

Lemma apply_batch_link t root location patches normalized path pre link post :
  length patches = length normalized → path ∈ normalized →
  validate_path path = Ok (pre ++ link :: post) → link_at t location pre link →
  reaches t (apply_batch k root location patches normalized) (λ r _, ∃ e, r = Err e).
Proof.
  intros Hlen Hin Hv Hlink. assert (map snd (zip patches normalized) = normalized) as Ezip by (by apply snd_zip; lia).
  assert (reaches t (apply_all k root location patches normalized) (λ '(r, _) _, ∃ e, r = Err e)) as Hall.
  { apply reaches_attempt. eapply reaches_mono; [apply root_open_spec|]. intros [staged|e] t0 [-> Hopen].
    2: { apply reaches_done. by eexists. }
    destruct (Hopen _ eq_refl) as [-> Hdir]. apply reaches_attempt. eapply reaches_mono.
    { eapply (apply_each_link t location (zip patches normalized)); [done..|by rewrite Ezip]. }
    intros [r applied] t1 [e ->]. apply reaches_attempt. intros w _. by eexists. }
  apply reaches_attempt. eapply reaches_mono; [exact Hall|]. intros [r undo] t1 [e ->].
  apply reaches_attempt. intros w _. by eexists.
Qed.
End LinkReads.

(** Where no call fails, the link is named. *)
Section Links.
Context `{StrDebug, CapabilityText} (k : kernel) (Hcalm : ∀ n, k_fail k n = None).

Lemma reaches_calm {A} t (f : nat → node → result A errno * node) (Q : result A errno → node → Prop) :
  (∀ n, Q (fst (f n t)) (snd (f n t))) → reaches t (syscall k f) Q.
Proof.
  intros Hf w Hw. unfold syscall. rewrite Hcalm, Hw. specialize (Hf (w_calls w)).
  by destruct (f (w_calls w) t).
Qed.

Lemma locate_link t root path pre link post :
  (∀ l q, pre = l ++ q → dir_at t (root ++ l)) → link_at t root pre link →
  reaches t (locate_from k path root (pre ++ link :: post))
    (λ r t', t' = t ∧ r = Ok (Some (DSymlink path))).
Proof.
  revert root. induction pre as [|c pre IH]; intros root Hdirs Hlink; simpl.
  - apply reaches_attempt, reaches_calm. intros n. simpl.
    destruct Hlink as (target & mode & es & Hl & He). rewrite app_nil_r in Hl. rewrite Hl. simpl.
    rewrite He. simpl. by apply reaches_done.
  - assert (dir_at t (root ++ [c])) as Hc by (by apply (Hdirs [c] pre)).
    apply reaches_attempt, reaches_calm. intros n. simpl.
    destruct (Hdirs [] (c :: pre) eq_refl) as (mode & es & Hroot). rewrite app_nil_r in Hroot.
    destruct Hc as (mode' & es' & Hc). pose proof Hc as Hc'. apply look_app in Hc' as (m & Hm & Hc').
    rewrite Hroot in Hm. injection Hm as <-. simpl in Hc'. rewrite Hroot.
    destruct (entry_of es c) as [x|]; [|done]. simpl.
    assert (x = NDir mode' es') as -> by (destruct x; simplify_eq/=; done).
    apply reaches_attempt, reaches_retry, reaches_calm. intros n'. simpl.
    rewrite (look_loop _ (k_link k n') _ _ _ Hc). split; [done|].
    apply IH.
    + intros l q ->. rewrite <- app_assoc. by apply (Hdirs (c :: l) q).
    + destruct Hlink as (target & ? & ? & Hl & ?). exists target. unfold link_in. rewrite <- app_assoc.
      by repeat eexists.
Qed.

Lemma link_dirs t root pre link : link_at t root pre link → ∀ l q, pre = l ++ q → dir_at t (root ++ l).
Proof.
  intros (target & mode & es & Hl & _) l q ->. rewrite app_assoc in Hl.
  apply look_app in Hl as (m & Hm & Hq). destruct q as [|c q]; [simpl in Hq; simplify_eq; by eexists _, _|].
  destruct m as [|mode' es'| |]; try done. by eexists _, _.
Qed.

Lemma read_link t root path pre link post :
  validate_path path = Ok (pre ++ link :: post) → link_at t root pre link →
  reaches t (staged_read k root path) (λ r t', t' = t ∧ r = Err (DSymlink path)).
Proof.
  intros Hv Hlink. unfold staged_read. rewrite Hv. apply reaches_andthen, reaches_done.
  apply reaches_attempt, reaches_retry, reaches_calm. intros n. simpl.
  destruct (look_link (k_link k n) t root pre link post Hlink) as (e & He & Hcase).
  rewrite He. simpl. split; [done|].
  assert (reaches t (andthen (diagnose k root e path "open prior bytes") (λ d, done_with (Err d)))
            (λ (r : result (option bytes) DirfdError) t', t' = t ∧ r = Err (DSymlink path))) as Hd.
  { apply reaches_andthen. unfold diagnose, locate_offender. rewrite Hv.
    destruct Hcase as [-> | ->]; apply reaches_andthen;
      (eapply reaches_mono; [apply locate_link; [by eapply link_dirs|done]|]);
      intros r t' [-> ->]; apply reaches_done; simpl; by apply reaches_done. }
  by destruct Hcase as [-> | ->].
Qed.

(** The batch is refused at the link when the patches before it are applied. *)
Lemma apply_batch_at_link root location patches normalized i path pre link post w :
  located root location → NoDup normalized → length patches = length normalized →
  normalized !! i = Some path → validate_path path = Ok (pre ++ link :: post) →
  link_at (w_tree w) location pre link →
  fst (apply_batch k root location (take i patches) (take i normalized) w) = Ok tt →
  (∃ rollback, fst (apply_batch k root location patches normalized w) = Err match rollback with
     | Some rollback => with_failed_rollback (CapSymlinkForbidden path) rollback
     | None => CapSymlinkForbidden path
     end) ∧
  (i = 0%nat → apply_batch k root location patches normalized w
     = (Err (CapSymlinkForbidden path), snd (apply_batch k root location patches normalized w)) ∧
     w_tree (snd (apply_batch k root location patches normalized w)) = w_tree w).
Proof.
  intros Hloc Hnd Hlen Hi Hv Hlink Hok.
  assert (∃ patch, patches !! i = Some patch) as [patch Hpi].
  { apply lookup_lt_is_Some. rewrite Hlen. by eapply lookup_lt_Some. }
  pose proof (take_drop_middle _ _ _ Hi) as En. pose proof (take_drop_middle _ _ _ Hpi) as Ep.
  assert (length (take i patches) = length (take i normalized)) as Hlt by (by rewrite !length_take, Hlen).
  assert (zip patches normalized = zip (take i patches) (take i normalized) ++
            (patch, path) :: zip (drop (S i) patches) (drop (S i) normalized)) as Ez.
  { rewrite <- En, <- Ep at 1. by rewrite zip_with_app by done. }
  unfold apply_batch, apply_all, attempt in *.
  pose proof (root_open_spec k (w_tree w) root location w eq_refl) as [Ht0 Hopen].
  destruct (root_open k root location w) as [[staged|e] w0]; simpl in Ht0, Hopen; [|done].
  destruct (Hopen _ eq_refl) as [-> Hdir]. rewrite <- Ht0 in Hlink, Hdir.
  assert (NoDup (map snd (zip (take i patches) (take i normalized)))) as Hndz.
  { rewrite snd_zip by lia. eapply sublist_NoDup; [exact Hnd|apply sublist_take]. }
  pose proof (apply_each_spec k (w_tree w0) (w_tree w0) location (zip (take i patches) (take i normalized)) []
    Hdir ltac:(split; [apply changes_refl|by intros ? ? ?%elem_of_nil]) Hndz w0 eq_refl) as Hch.
  destruct (apply_each k location (zip (take i patches) (take i normalized)) [] w0) as [[[[]|e] applied] w1] eqn:Ea.
  2: { exfalso. clear -Hok. simpl in Hok. destruct (restore k location (rev applied) w1) as [rb w2]. simpl in Hok.
       destruct (restore_all k _ w2) as [[?|] ?]; done. }
  destruct Hch as (_ & [Hch _] & _). simpl in Hch. clear Hok.
  rewrite Ez, apply_each_app, Ea. simpl. unfold attempt.
  pose proof (read_link (w_tree w1) location path pre link post Hv (link_at_kept _ _ _ _ _ _ Hch Hlink) w1 eq_refl) as Hread.
  destruct (staged_read k location path w1) as [prior w2]. destruct Hread as [Ht2 Hr]. simpl in Ht2, Hr. subst prior. split.
  - simpl. destruct (restore k location (rev applied) w2) as [rb w3]. simpl.
    destruct (restore_all k _ w3) as [rollback w4]. by exists rollback.
  - intros ->. rewrite !take_0 in Ea. simpl in Ea. injection Ea as <- <-. simpl. by rewrite Ht2, Ht0.
Qed.
End Links.

(** ** Properties *)

(** C10: applying a validated batch to a staged tree, whatever call fails: only
    the paths of the batch ever change and no directory disappears; success means
    every write holds its contents and every deleted path is absent; a failure
    leaves every regular file exactly as it was, or answers GENERATION_IO_FAILED
    with the refused rollback in its text. *)
Theorem apply_batch_rolls_back `{StrDebug, CapabilityText} k root location patches normalized w r w' :
  located root location → NoDup normalized → length patches = length normalized →
  apply_batch k root location patches normalized w = (r, w') →
  (∀ p, (∀ path, path ∈ normalized → p ≠ loc location path) →
        file_at (w_tree w') p = file_at (w_tree w) p) ∧
  (∀ p, dir_at (w_tree w) p → dir_at (w_tree w') p) ∧
  match r with
  | Ok _ => Forall2 (λ patch path, file_at (w_tree w') (loc location path) = hunk_contents patch)
              patches normalized
  | Err e => (∀ p, file_at (w_tree w') p = file_at (w_tree w) p) ∨
             ∃ error rollback, e = with_failed_rollback error rollback
  end.
Proof.
  intros Hloc Hnd Hlen E.
  destruct (apply_batch_spec k (w_tree w) root location patches normalized Hloc Hnd Hlen w eq_refl) as [(Hf & Hd & _) Hr].
  rewrite E in Hf, Hd, Hr. simpl in Hf, Hd, Hr. split; [|by split].
  intros p Hp. apply Hf. intros Hin. apply list_elem_of_fmap in Hin as (path & -> & Hin). by eapply Hp.
Qed.


(** ** Reference instances and witnesses *)

Module ApplyReference.

#[export] Instance debug_quote : StrDebug := λ s, s.
#[export] Instance no_text : CapabilityText := λ _, "".

(** A kernel whose calls fail from [table]. *)
Definition kernel_of (table : list (nat * failure)) : kernel := {|
  k_fail n := option_map snd (find (λ row, Nat.eqb (fst row) n) table);
  k_link := Nat.even; k_short _ := 1%nat; k_text _ := "errno" |}.

Definition tree : node :=
  NDir 493 [("stage", NDir 493 [("a", NFile [x01; x02] 420); ("link", NSymlink "/etc")])].
Definition start : world := {| w_tree := tree; w_calls := 0 |}.
Definition batch : list PatchHunk := [hunk_write "a" [x03]; hunk_write "x/y" [x04]; hunk_delete "a2"].
Definition paths : list string := ["a"; "x/y"; "a2"].

Lemma stage_located : located "/stage" ["stage"].
Proof. split; [done|reflexivity]. Qed.

Lemma paths_distinct : NoDup paths.
Proof. apply (bool_decide_unpack (NoDup paths)). vm_compute. exact I. Qed.

(** The last patch deletes a missing file: the first two are rolled back. *)
Definition refused := apply_batch (kernel_of []) "/stage" ["stage"] batch paths start.

Lemma refused_eq : apply_batch (kernel_of []) "/stage" ["stage"] batch paths start = (fst refused, snd refused).
Proof. unfold refused. apply surjective_pairing. Qed.

Example apply_batch_rolls_back_witness :
  fst refused = Err (CapPathAbsent "a2") ∧
  ((∀ p, file_at (w_tree (snd refused)) p = file_at tree p) ∨
   ∃ error rollback, CapPathAbsent "a2" = with_failed_rollback error rollback).
Proof.
  split; [vm_compute; reflexivity|].
  destruct (apply_batch_rolls_back (kernel_of []) "/stage" ["stage"] batch paths start _ _
    stage_located paths_distinct eq_refl refused_eq) as (_ & _ & Hr).
  assert (fst refused = Err (CapPathAbsent "a2")) as E by (vm_compute; reflexivity).
  rewrite E in Hr. exact Hr.
Defined.

(** [mkdir] fails: nothing changed, yet the rollback of a path whose parent
    directory never existed is refused twice. *)
Example absent_parent_counts_as_unrestored :
  let '(r, w') := apply_batch (kernel_of [(3%nat, FailOther 28)]) "/stage" ["stage"]
                    [hunk_write "x/y" [x04]] ["x/y"] start in
  w_tree w' = tree ∧ match r with Err (CapGeneration (GenIo _)) => true | _ => false end = true.
Proof. vm_compute. by split. Qed.

Lemma link_stage : link_at tree ["stage"] [] "link".
Proof. eexists "/etc", _, _. split; reflexivity. Qed.

(** The second path crosses the link; the first patch is applied, and rolled back. *)
Definition crossing : list string := ["a"; "link/passwd"].
Lemma crossing_distinct : NoDup crossing.
Proof. apply (bool_decide_unpack (NoDup crossing)). vm_compute. exact I. Qed.
Definition crossed := apply_batch (kernel_of []) "/stage" ["stage"] [hunk_write "a" [x03]; hunk_write "link/passwd" [x04]]
  crossing start.
Lemma crossed_eq : apply_batch (kernel_of []) "/stage" ["stage"] [hunk_write "a" [x03]; hunk_write "link/passwd" [x04]]
  crossing start = (fst crossed, snd crossed).
Proof. unfold crossed. apply surjective_pairing. Qed.

End ApplyReference.
