(* ===== verification/SafeGit.v ===== *)
(** [crates/bullet-git-workspace/src/safe_git.rs] and [git_config.rs], with
    [guard_repository] and [sequencer_check] of [clone/repository_setup.rs] and
    [gc.rs]: the hardened Git command, the inspection of the repository's own
    configuration before it, and what is asked of Git.

    The pinned executable ([safe_git/binary.rs]: staging, spawning, deadline and
    output bounds) is the class [GitBinary]: any answer to any command, and any
    change of the repository tree.  A repository is a file tree. *)

From S2P Require Import Prelude Digests Ids Protocol Journal Cas Generation Capability.

(** ** Text of a stream: [String::from_utf8_lossy], [str::trim], [str::lines] *)

Definition replacement : bytes := [xef; xbf; xbd].

(** Each maximal ill-formed prefix becomes one replacement character. *)
Fixpoint lossy (s : bytes) : bytes :=
  match s with
  | [] => []
  | a :: s1 =>
      if byte_in 0 127 a then a :: lossy s1
      else if byte_in 194 223 a then
        match s1 with
        | b :: s2 => if continuation b then a :: b :: lossy s2 else replacement ++ lossy s1
        | [] => replacement
        end
      else if byte_in 224 239 a then
        match s1 with
        | b :: s2 =>
            if byte_in (if byte_in 224 224 a then 160 else 128)
                       (if byte_in 237 237 a then 159 else 191) b
            then match s2 with
                 | c :: s3 => if continuation c then a :: b :: c :: lossy s3 else replacement ++ lossy s2
                 | [] => replacement
                 end
            else replacement ++ lossy s1
        | [] => replacement
        end
      else if byte_in 240 244 a then
        match s1 with
        | b :: s2 =>
            if byte_in (if byte_in 240 240 a then 144 else 128)
                       (if byte_in 244 244 a then 143 else 191) b
            then match s2 with
                 | c :: s3 =>
                     if continuation c
                     then match s3 with
                          | d :: s4 =>
                              if continuation d then a :: b :: c :: d :: lossy s4
                              else replacement ++ lossy s3
                          | [] => replacement
                          end
                     else replacement ++ lossy s2
                 | [] => replacement
                 end
            else replacement ++ lossy s1
        | [] => replacement
        end
      else replacement ++ lossy s1
  end.

Definition from_utf8_lossy (b : bytes) : string := String.string_of_list_byte (lossy b).

(** The UTF-8 texts of the characters with the property [White_Space]. *)
Definition white_space : list string :=
  map String.string_of_list_byte
    ([[x09]; [x0a]; [x0b]; [x0c]; [x0d]; [x20]; [xc2; x85]; [xc2; xa0]; [xe1; x9a; x80];
      [xe2; x80; x80]; [xe2; x80; x81]; [xe2; x80; x82]; [xe2; x80; x83]; [xe2; x80; x84];
      [xe2; x80; x85]; [xe2; x80; x86]; [xe2; x80; x87]; [xe2; x80; x88]; [xe2; x80; x89];
      [xe2; x80; x8a]; [xe2; x80; xa8]; [xe2; x80; xa9]; [xe2; x80; xaf]; [xe2; x81; x9f];
      [xe3; x80; x80]]).

Fixpoint first_some {A B} (f : A → option B) (l : list A) : option B :=
  match l with [] => None | x :: l => match f x with Some y => Some y | None => first_some f l end end.

Fixpoint trim_by (strip : string → option string) (fuel : nat) (s : string) : string :=
  match fuel with
  | O => s
  | S fuel => match strip s with Some s => trim_by strip fuel s | None => s end
  end.

(** [str::trim]: every round removes a character, so the length is fuel enough. *)
Definition trim (s : string) : string :=
  let s := trim_by (λ s, first_some (λ w, strip_prefix w s) white_space) (String.length s) s in
  trim_by (λ s, first_some (λ w, strip_suffix w s) white_space) (String.length s) s.

Definition LF : ascii := Ascii.ascii_of_N 10.
Definition CR : string := String (Ascii.ascii_of_N 13) "".

(** [str::lines] *)
Fixpoint lines_of (parts : list string) : list string :=
  match parts with
  | [] => []
  | [last] => if String.eqb last "" then [] else [last]
  | line :: parts => default line (strip_suffix CR line) :: lines_of parts
  end.
Definition lines (s : string) : list string := lines_of (split LF s).

(** ** Commands ([safe_git.rs]) *)

Inductive FileProtocol : Type := Never | User.

Inductive HeadState : Type := Detached | Branch (name : string).

Record git_command : Type := {
  gc_env : list (string * string);
  gc_args : list string
}.

Record BoundedOutput : Type := {
  bo_code : option Z;
  bo_stdout : bytes;
  bo_stderr : bytes
}.

(** [PinnedGit::command] and [PinnedGit::execute], and [Command::output] on the
    command that lists a configuration file. *)
Class GitBinary : Type := {
  binary_command : result unit CapabilityError;
  binary_execute : git_command → string → node → result BoundedOutput CapabilityError * node;
  binary_output : git_command → node → result BoundedOutput string
}.

Record SafeGit : Type := {
  sg_path : option string;           (** the inherited PATH *)
  sg_home_dir : string;
  sg_xdg_config_dir : string;
  sg_xdg_cache_dir : string;
  sg_hooks_dir : string;
  sg_askpass : string
}.

(** [SafeGit::with_binary], given the reply to each call of its preparation. *)
Definition with_binary (path : option string) (runtime_dir : string) (reply : string → option string)
    : result SafeGit CapabilityError :=
  let dirs := [join runtime_dir "home"; join runtime_dir "xdg-config"; join runtime_dir "xdg-cache";
               join runtime_dir "hooks-empty"] in
  let call context path := match reply path with Some e => Err (io_err context e) | None => Ok tt end in
  try_for (call "create runtime dir") dirs ;?
  let askpass := join runtime_dir "askpass-deny.sh" in
  call "write askpass deny script" askpass ;?
  call "chmod askpass deny script" askpass ;?
  Ok {| sg_path := path; sg_home_dir := join runtime_dir "home";
        sg_xdg_config_dir := join runtime_dir "xdg-config";
        sg_xdg_cache_dir := join runtime_dir "xdg-cache";
        sg_hooks_dir := join runtime_dir "hooks-empty"; sg_askpass := askpass |}.

(** ** The repository's configuration ([git_config.rs]) *)

Definition forbidden_keys : list string :=
  ["core.askpass"; "core.attributesfile"; "core.editor"; "core.excludesfile"; "core.fsmonitor";
   "core.hookspath"; "core.gitproxy"; "core.pager"; "core.sparsecheckout"; "core.sparsecheckoutcone";
   "core.sshcommand"; "core.worktree"; "credential.helper"; "gpg.program"; "gpg.ssh.program";
   "index.sparse"; "interactive.difffilter"; "sequence.editor"].

Definition forbidden (key : string) : bool :=
  let key := to_ascii_lowercase key in
  starts_with "filter." key
  || starts_with "include." key
  || starts_with "includeif." key
  || starts_with "alias." key
  || starts_with "pager." key
  || (starts_with "url." key && (ends_with ".insteadof" key || ends_with ".pushinsteadof" key))
  || (starts_with "remote." key && (ends_with ".uploadpack" key || ends_with ".receivepack" key))
  || (starts_with "diff." key && (ends_with ".command" key || ends_with ".textconv" key))
  || (starts_with "merge." key && ends_with ".driver" key)
  || (starts_with "submodule." key && ends_with ".update" key)
  || existsb (String.eqb key) forbidden_keys.

Section SafeGit.
Context `{GitBinary}.

(** The errors, other than not-found, of the inspections of a path. *)
Context (inspect : string → option string).

Definition inspected (context path : string) : result unit CapabilityError :=
  match inspect path with Some e => Err (io_err context e) | None => Ok tt end.

(** [local_config_path] *)
Definition local_config_path (repo : string) (tree : node) : result (option string) CapabilityError :=
  let dot_git := join repo ".git" in
  inspected "inspect .git" dot_git ;?
  let? '(config, entry) :=
    match child (Some tree) ".git" with
    | Some (NDir m es) => Ok (join dot_git "config", child (Some (NDir m es)) "config")
    | Some _ => Err (CapHostileGitConfig (dot_git +:+ " is not an ordinary .git directory"))
    | None => Ok (join repo "config", child (Some tree) "config")
    end in
  inspected "inspect local git config" config ;?
  match entry with
  | None => Ok None
  | Some (NFile _ _) => Ok (Some config)
  | Some _ => Err (CapHostileGitConfig (config +:+ " is not a regular file"))
  end.

(** [split(|byte| *byte == 0)] *)
Fixpoint split_nul (b : bytes) : list bytes :=
  match b with
  | [] => [[]]
  | x :: b =>
      if Byte.eqb x x00 then [] :: split_nul b
      else match split_nul b with [] => [[x]] | r :: rs => (x :: r) :: rs end
  end.

(** The loop body of [validate]. *)
Definition validate_key (config : string) (raw : bytes) : result unit CapabilityError :=
  match raw with
  | [] => Ok tt
  | _ =>
      let? key := ok_or (from_utf8 raw) (CapHostileGitConfig (config +:+ " contains a non-UTF-8 key")) in
      fail_if (forbidden key) (CapHostileGitConfig (config +:+ " contains forbidden key " +:+ key))
  end.

Definition with_args (c : git_command) (args : list string) : git_command :=
  {| gc_env := gc_env c; gc_args := gc_args c ++ args |}.
Definition with_env (c : git_command) (env : list (string * string)) : git_command :=
  {| gc_env := gc_env c ++ env; gc_args := gc_args c |}.

(** [git_config::validate] *)
Definition validate (repo : string) (tree : node) (command : git_command) : result unit CapabilityError :=
  let? config := local_config_path repo tree in
  match config with
  | None => Ok tt
  | Some config =>
      let? output := map_err (io_err "inspect local git config")
        (binary_output (with_args command ["config"; "--file"; config; "--no-includes"; "--null";
                                           "--name-only"; "--list"]) tree) in
      fail_if (negb (bool_decide (bo_code output = Some 0%Z)))
        (CapHostileGitConfig ("cannot parse " +:+ config +:+ ": "
                              +:+ trim (from_utf8_lossy (bo_stderr output)))) ;?
      try_for (validate_key config) (split_nul (bo_stdout output))
  end.

(** [SafeGit::base_command] *)
Definition base_command (g : SafeGit) (repo : option string) (file_protocol : FileProtocol)
    : result git_command CapabilityError :=
  binary_command ;?
  let allow := match file_protocol with Never => "never" | User => "user" end in
  Ok {| gc_env := match sg_path g with Some p => [("PATH", p)] | None => [] end ++
          [("HOME", sg_home_dir g); ("XDG_CONFIG_HOME", sg_xdg_config_dir g);
           ("XDG_CACHE_HOME", sg_xdg_cache_dir g); ("GIT_CONFIG_NOSYSTEM", "1");
           ("GIT_CONFIG_GLOBAL", "/dev/null"); ("GIT_TERMINAL_PROMPT", "0");
           ("GIT_ASKPASS", sg_askpass g); ("GIT_SSH_COMMAND", "false"); ("LC_ALL", "C")];
        gc_args := ["--no-pager"; "-c"; "core.hooksPath=" +:+ sg_hooks_dir g;
           "-c"; "credential.helper="; "-c"; "protocol.file.allow=" +:+ allow;
           "-c"; "include.path=/dev/null"; "-c"; "core.fsmonitor=false";
           "-c"; "core.attributesFile=/dev/null"; "-c"; "core.excludesFile=/dev/null";
           "-c"; "commit.gpgSign=false"; "-c"; "tag.gpgSign=false"]
          ++ match repo with Some repo => ["-C"; repo] | None => [] end |}.

(** [SafeGit::command] *)
Definition command (g : SafeGit) (repo : option string) (tree : node) (file_protocol : FileProtocol)
    : result git_command CapabilityError :=
  match repo with
  | Some path => let? inspect := base_command g None Never in validate path tree inspect
  | None => Ok tt
  end ;?
  base_command g repo file_protocol.

(** [{:?}] of an exit code *)
Definition code_debug (code : option Z) : string :=
  match code with
  | Some c => "Some(" +:+ (if (c <? 0)%Z then "-" else "") +:+ u64_to_string (Z.abs_N c) +:+ ")"
  | None => "None"
  end.

Definition succeeded (out : BoundedOutput) : bool := bool_decide (bo_code out = Some 0%Z).

(** [SafeGit::run]: the output, and the tree Git leaves. *)
Definition git_run (g : SafeGit) (repo : option string) (file_protocol : FileProtocol)
    (args : list string) (extra_env : list (string * string)) (tree : node)
    : result bytes CapabilityError * node :=
  match command g repo tree file_protocol with
  | Err e => (Err e, tree)
  | Ok prepared =>
      let verb := default "git" (head args) in
      match binary_execute (with_args (with_env prepared extra_env) args) verb tree with
      | (Err e, tree) => (Err e, tree)
      | (Ok out, tree) =>
          (if succeeded out then Ok (bo_stdout out)
           else Err (CapGit ("git " +:+ verb +:+ " exited " +:+ code_debug (bo_code out) +:+ ": "
                             +:+ trim (from_utf8_lossy (bo_stderr out)))), tree)
      end
  end.

(** [GitOutput::text] *)
Definition text (stdout : bytes) : string := trim (from_utf8_lossy stdout).

(** [SafeGit::probe] *)
Definition probe (g : SafeGit) (repo : option string) (args : list string) (tree : node)
    : result bool CapabilityError * node :=
  match command g repo tree Never with
  | Err e => (Err e, tree)
  | Ok prepared =>
      match binary_execute (with_args prepared args) (default "probe" (head args)) tree with
      | (Err e, tree) => (Err e, tree)
      | (Ok out, tree) => (Ok (succeeded out), tree)
      end
  end.

(** [SafeGit::head_state] *)
Definition head_state (g : SafeGit) (repo : string) (tree : node)
    : result HeadState CapabilityError * node :=
  match command g (Some repo) tree Never with
  | Err e => (Err e, tree)
  | Ok prepared =>
      match binary_execute (with_args prepared ["symbolic-ref"; "-q"; "HEAD"]) "symbolic-ref" tree with
      | (Err e, tree) => (Err e, tree)
      | (Ok out, tree) =>
          (match bo_code out with
           | Some 0%Z =>
               let full := text (bo_stdout out) in
               Ok (Branch (default full (strip_prefix "refs/heads/" full)))
           | Some 1%Z => Ok Detached
           | code => Err (CapGit ("git symbolic-ref exited " +:+ code_debug code))
           end, tree)
      end
  end.

(** ** Guards ([clone/repository_setup.rs]) *)

Context (canonicalize : string → result string string) (link_resolves : string → bool).

(** [guard_repository] *)
Definition guard_repository (g : SafeGit) (repo : string) (tree : node)
    : result unit CapabilityError * node :=
  match inspect (join repo ".git"), child (Some tree) ".git" with
  | Some _, _ | None, None => (Err (CapWrongRepository (repo +:+ " has no .git")), tree)
  | None, Some entry =>
      if negb (is_dir (Some entry)) then (Err (CapWorktreeForbidden repo), tree)
      else
        let '(out, tree) := git_run g (Some repo) Never ["rev-parse"; "--show-toplevel"] [] tree in
        ((let? out := out in
          let? expected := map_err (io_err "canonicalize repo") (canonicalize repo) in
          let? actual := map_err (io_err "canonicalize toplevel") (canonicalize (text out)) in
          fail_if (negb (String.eqb expected actual))
            (CapWrongRepository ("toplevel " +:+ actual +:+ " != expected " +:+ expected))), tree)
  end.

(** One round of [sequencer_check]; [exists] follows a symbolic link. *)
Definition sequencer_state (repo : string) (tree : node) (name : string) : result unit CapabilityError :=
  fail_if (match child (child (Some tree) ".git") name with
           | None => false
           | Some (NSymlink _) => link_resolves (join (join repo ".git") name)
           | Some _ => true
           end) (CapSequencerActive name).

Definition sequencer_check (repo : string) (tree : node) : result unit CapabilityError :=
  try_for (sequencer_state repo tree) ["CHERRY_PICK_HEAD"; "MERGE_HEAD"; "REBASE_HEAD"].

(** ** Retention ([gc.rs]) *)

(** [GitOid::hex] of a validated id, see [hex_of_wf]. *)
Definition hex_of (o : GitOid) : string := default "" (oid_hex o).

Inductive RetentionClass : Type := LiveWorkspace | Tombstoned | Eligible.

Definition may_prune (c : RetentionClass) : bool :=
  match c with Eligible => true | _ => false end.

Definition retain_namespace (c : RetentionClass) : option string :=
  match c with
  | LiveWorkspace => Some "refs/bullet/retain/live"
  | Tombstoned => Some "refs/bullet/retain/tombstone"
  | Eligible => None
  end.

Record RetentionPin : Type := { rp_oid : GitOid; rp_class : RetentionClass }.

Definition pin_retained_object (g : SafeGit) (repo : string) (pin : RetentionPin) (tree : node)
    : result string CapabilityError * node :=
  match retain_namespace (rp_class pin) with
  | None => (Err (CapIo "eligible objects cannot receive a retain pin"), tree)
  | Some namespace =>
      let name := namespace +:+ "/" +:+ hex_of (rp_oid pin) in
      let '(out, tree) := git_run g (Some repo) Never ["update-ref"; name; hex_of (rp_oid pin)] [] tree in
      (res_map (λ _, name) out, tree)
  end.

Definition retention_ref_exists (g : SafeGit) (repo : string) (pin : RetentionPin) (tree : node)
    : result bool CapabilityError * node :=
  match retain_namespace (rp_class pin) with
  | None => (Ok false, tree)
  | Some namespace =>
      probe g (Some repo) ["show-ref"; "--verify"; "--quiet"; namespace +:+ "/" +:+ hex_of (rp_oid pin)] tree
  end.
End SafeGit.

(** ** Lemmas *)

Lemma hex_of_wf o : oid_wf o → oid_hex o = Some (hex_of o).
Proof.
  intros Ho. unfold hex_of. destruct (oid_hex o) as [h|] eqn:E; [done|]. exfalso.
  apply oid_wf_parts in Ho as (hex & Hhex & _). congruence.
Qed.

(** Valid text passes unchanged. *)
Lemma lossy_valid b : valid_utf8 b = true → lossy b = b.
Proof.
  remember (length b) as n eqn:Hn. revert b Hn.
  induction (lt_wf n) as [n _ IH]. intros b -> Hv.
  assert (∀ c, (length c < length b)%nat → valid_utf8 c = true → lossy c = c) as Hrec by eauto.
  clear IH. destruct b as [|a s1]; [done|]. simpl in Hv |- *.
  destruct (byte_in 0 127 a); [by rewrite Hrec by (simpl; lia || done)|].
  destruct s1 as [|b s2]; [done|]. destruct (byte_in 194 223 a).
  { apply andb_true_iff in Hv as [-> Hv]. by rewrite Hrec by (simpl; lia || done). }
  destruct s2 as [|c s3]; [done|]. destruct (byte_in 224 239 a).
  { apply andb_true_iff in Hv as [Hv Hs]. apply andb_true_iff in Hv as [-> ->].
    by rewrite Hrec by (simpl; lia || done). }
  destruct s3 as [|d s4]; [done|]. apply andb_true_iff in Hv as [Hv Hs].
  apply andb_true_iff in Hv as [Hv Hd]. apply andb_true_iff in Hv as [Hv Hc].
  apply andb_true_iff in Hv as [Ha Hb]. rewrite Ha, Hb, Hc, Hd.
  by rewrite Hrec by (simpl; lia || done).
Qed.

Lemma to_ascii_lower_idem c : to_ascii_lower (to_ascii_lower c) = to_ascii_lower c.
Proof. by destruct c as [[] [] [] [] [] [] [] []]. Qed.

Lemma forbidden_ignores_case key : forbidden (to_ascii_lowercase key) = forbidden key.
Proof.
  unfold forbidden. assert (to_ascii_lowercase (to_ascii_lowercase key) = to_ascii_lowercase key) as ->; [|done].
  unfold to_ascii_lowercase. induction key as [|c key IH]; simpl; [done|].
  by rewrite to_ascii_lower_idem, IH.
Qed.

Section Hostile.
Context `{GitBinary} (inspect : string → option string).

(** The command that lists the keys of [config]. *)
Definition base_env (g : SafeGit) : result git_command CapabilityError := base_command g None Never.

Definition list_command (base : git_command) (config : string) : git_command :=
  with_args base ["config"; "--file"; config; "--no-includes"; "--null"; "--name-only"; "--list"].

Lemma validate_key_hostile config raw :
  raw ≠ [] → (∀ key, from_utf8 raw = Some key → forbidden key = true) →
  ∃ m, validate_key config raw = Err (CapHostileGitConfig m).
Proof.
  intros Hne Hkey. unfold validate_key. destruct raw; [done|].
  destruct (from_utf8 _) as [key|]; simpl; [|eauto]. rewrite (Hkey key eq_refl). simpl. eauto.
Qed.

Lemma validate_key_refuses config raw e :
  validate_key config raw = Err e → ∃ m, e = CapHostileGitConfig m.
Proof.
  unfold validate_key. destruct raw; [done|]. destruct (from_utf8 _); simpl; [|intros [= <-]; eauto].
  destruct (forbidden _); simpl; [intros [= <-]; eauto|done].
Qed.

Lemma try_for_hostile config raws raw :
  raw ∈ raws → (∃ m, validate_key config raw = Err (CapHostileGitConfig m)) →
  ∃ m, try_for (validate_key config) raws = Err (CapHostileGitConfig m).
Proof.
  intros Hin [m Hm]. induction raws as [|x raws IH]; [by apply elem_of_nil in Hin|]. simpl.
  destruct (validate_key config x) as [[]|e] eqn:E; simpl.
  - apply elem_of_cons in Hin as [->|Hin]; [congruence|]. by apply IH.
  - apply validate_key_refuses in E as [m' ->]. eauto.
Qed.

(** A listing with a hostile key. *)
Lemma command_hostile g repo tree base config out raw :
  base_env g = Ok base → local_config_path inspect repo tree = Ok (Some config) →
  binary_output (list_command base config) tree = Ok out → succeeded out = true →
  raw ∈ split_nul (bo_stdout out) → raw ≠ [] →
  (∀ key, from_utf8 raw = Some key → forbidden key = true) →
  ∃ m, ∀ file_protocol, command inspect g (Some repo) tree file_protocol = Err (CapHostileGitConfig m).
Proof.
  intros Hbase Hconfig Hout Hok Hraw Hne Hkey. unfold base_env in Hbase.
  destruct (try_for_hostile config _ raw Hraw (validate_key_hostile config raw Hne Hkey)) as [m Hm].
  exists m. intros file_protocol. unfold command. rewrite Hbase. simpl. unfold validate. rewrite Hconfig. simpl.
  unfold list_command in Hout. rewrite Hout. simpl. unfold succeeded in Hok. rewrite Hok. simpl.
  by rewrite Hm.
Qed.
End Hostile.

(** ** Properties *)

(** C22: a repository whose own configuration lists a command-bearing or
    truth-redirecting key, whatever its case, or a key that is not UTF-8, is
    refused as HOSTILE_GIT_CONFIG by every kind of call, before Git runs in it:
    the tree is untouched, for any behaviour of the Git binary. *)
Theorem hostile_config_never_runs `{GitBinary} inspect g repo tree base config out raw :
  base_env g = Ok base → local_config_path inspect repo tree = Ok (Some config) →
  binary_output (list_command base config) tree = Ok out → succeeded out = true →
  raw ∈ split_nul (bo_stdout out) → raw ≠ [] →
  (∀ key, from_utf8 raw = Some key → forbidden (to_ascii_lowercase key) = true) →
  ∃ e, capability_reason_code e = "HOSTILE_GIT_CONFIG" ∧
    (∀ file_protocol args env, git_run inspect g (Some repo) file_protocol args env tree = (Err e, tree)) ∧
    (∀ args, probe inspect g (Some repo) args tree = (Err e, tree)) ∧
    head_state inspect g repo tree = (Err e, tree).
Proof.
  intros Hbase Hconfig Hout Hok Hraw Hne Hkey.
  destruct (command_hostile inspect g repo tree base config out raw) as [m Hm]; try done.
  { intros key E. rewrite <- forbidden_ignores_case. by apply Hkey. }
  exists (CapHostileGitConfig m). split; [done|]. unfold git_run, probe, head_state.
  split_and!; intros; by rewrite Hm.
Qed.

(** ** Reference instances and witnesses *)

Module SafeGitReference.

(** A Git that lists the first file of the configuration as its keys, and
    deletes the repository when it runs. *)
#[export] Instance eager_git : GitBinary := {|
  binary_command := Ok tt;
  binary_execute _ _ _ := (Ok {| bo_code := Some 0%Z; bo_stdout := []; bo_stderr := [] |}, NDir 0 []);
  binary_output c tree :=
    match child (child (Some tree) ".git") "config" with
    | Some (NFile b _) => Ok {| bo_code := Some 0%Z; bo_stdout := b; bo_stderr := [] |}
    | _ => Err "no configuration"
    end |}.

Definition git : SafeGit := {|
  sg_path := None; sg_home_dir := "/r/home"; sg_xdg_config_dir := "/r/xdg-config";
  sg_xdg_cache_dir := "/r/xdg-cache"; sg_hooks_dir := "/r/hooks-empty";
  sg_askpass := "/r/askpass-deny.sh" |}.

Definition hostile_tree : node :=
  NDir 493 [(".git", NDir 493 [("config", NFile (as_bytes "user.name" ++ [x00] ++ as_bytes "Core.FSMonitor") 420)])].

Definition base : git_command := match base_env git with Ok c => c | Err _ => {| gc_env := []; gc_args := [] |} end.

Definition listing : BoundedOutput :=
  {| bo_code := Some 0%Z; bo_stdout := as_bytes "user.name" ++ [x00] ++ as_bytes "Core.FSMonitor"; bo_stderr := [] |}.

Lemma base_ok : base_env git = Ok base.
Proof. vm_compute. reflexivity. Qed.
Lemma config_found : local_config_path (λ _, None) "/w" hostile_tree = Ok (Some "/w/.git/config").
Proof. vm_compute. reflexivity. Qed.
Lemma listing_ok : binary_output (list_command base "/w/.git/config") hostile_tree = Ok listing.
Proof. vm_compute. reflexivity. Qed.

Lemma hostile_key_listed : as_bytes "Core.FSMonitor" ∈ split_nul (bo_stdout listing).
Proof. apply list_elem_of_lookup. exists 1%nat. vm_compute. reflexivity. Qed.

Lemma hostile_key_forbidden key :
  from_utf8 (as_bytes "Core.FSMonitor") = Some key → forbidden (to_ascii_lowercase key) = true.
Proof. intros E. assert (key = "Core.FSMonitor") as -> by (vm_compute in E; congruence). by vm_compute. Qed.

Example hostile_config_never_runs_witness :
  ∃ e, capability_reason_code e = "HOSTILE_GIT_CONFIG" ∧
    git_run (λ _, None) git (Some "/w") Never ["add"; "-A"] [] hostile_tree = (Err e, hostile_tree).
Proof.
  assert (as_bytes "Core.FSMonitor" ≠ []) as Hne by done.
  destruct (hostile_config_never_runs (λ _, None) git "/w" hostile_tree base "/w/.git/config" listing
    (as_bytes "Core.FSMonitor") base_ok config_found listing_ok eq_refl hostile_key_listed Hne hostile_key_forbidden)
    as (e & He & Hrun & _).
  exists e. split; [exact He|]. apply Hrun.
Defined.
End SafeGitReference.
