(* ===== verification/GitPin.v ===== *)
(** [crates/bullet-git-workspace/src/safe_git/binary.rs] and [binary_pin.rs]: the
    digest-pinned Git executable and its bounded execution.

    [pin_world] has the files of the disk, the anonymous files of the process, its
    default pin and every pin that was made; [pin_step] is one call of the process or
    one interference from outside.  [execute] runs a child whose pipes, exit and clock
    are the environment's, look by look.  Times are in milliseconds. *)

From S2P Require Import Prelude Digests Capability SafeGit.

Definition SYSTEM_GIT_CANDIDATES : list string := ["/usr/bin/git"; "/usr/local/bin/git"; "/bin/git"].

Record GitBounds : Type := { bd_deadline : N; bd_max_stdout : N; bd_max_stderr : N }.

Definition DEFAULT_BOUNDS : GitBounds :=
  {| bd_deadline := 600 * 1000; bd_max_stdout := 128 * 1048576; bd_max_stderr := 4 * 1048576 |}.

Inductive PinSource : Type := Operator | SelfPinned.

(** [pg_staged] names the anonymous file. *)
Record PinnedGit : Type := {
  pg_path : string;
  pg_digest : Digest;
  pg_source : PinSource;
  pg_bounds : GitBounds;
  pg_staged : N
}.

#[export] Instance GitBounds_eq_dec : EqDecision GitBounds.
Proof. solve_decision. Defined.
#[export] Instance PinSource_eq_dec : EqDecision PinSource.
Proof. solve_decision. Defined.

(** [PartialEq]: the anonymous file is not compared. *)
Definition pin_eq (a b : PinnedGit) : bool :=
  String.eqb (pg_path a) (pg_path b) && bool_decide (pg_digest a = pg_digest b)
  && bool_decide (pg_source a = pg_source b) && bool_decide (pg_bounds a = pg_bounds b).

(** ** Staging *)

(** A file as [open] with [O_NOFOLLOW] finds it. *)
Inductive open_reply : Type :=
  | OpenLoop
  | OpenFails (e : string)
  | Opened (regular : bool) (mode : N) (contents : bytes).

(** An anonymous file; a sealed one can be neither written nor resized, nor unsealed. *)
Record memfd : Type := { mf_contents : bytes; mf_sealed : bool }.

Inductive memfd_reply : Type := Created | Invalid | CreateFails (e : string).

Record stage_env : Type := {
  se_metadata : option string;
  se_read : option string;
  se_memfd_exec : memfd_reply;      (** [memfd_create] with [MFD_EXEC] *)
  se_memfd : memfd_reply;           (** and, where the kernel has no such flag, without it *)
  se_write : option string;
  se_seal : option string
}.

Record pin_world : Type := {
  pw_files : string → open_reply;
  pw_memfds : gmap N memfd;
  pw_next : N;
  pw_default : option PinnedGit;
  pw_pins : list PinnedGit
}.

Definition set_memfds (memfds : gmap N memfd) (w : pin_world) : pin_world :=
  {| pw_files := pw_files w; pw_memfds := memfds; pw_next := pw_next w;
     pw_default := pw_default w; pw_pins := pw_pins w |}.
Definition add_memfd (m : memfd) (w : pin_world) : pin_world :=
  {| pw_files := pw_files w; pw_memfds := <[pw_next w := m]> (pw_memfds w); pw_next := pw_next w + 1;
     pw_default := pw_default w; pw_pins := pw_pins w |}.
Definition set_default (p : option PinnedGit) (w : pin_world) : pin_world :=
  {| pw_files := pw_files w; pw_memfds := pw_memfds w; pw_next := pw_next w;
     pw_default := p; pw_pins := pw_pins w |}.
Definition add_pin (p : PinnedGit) (w : pin_world) : pin_world :=
  {| pw_files := pw_files w; pw_memfds := pw_memfds w; pw_next := pw_next w;
     pw_default := pw_default w; pw_pins := p :: pw_pins w |}.
Definition set_files (files : string → open_reply) (w : pin_world) : pin_world :=
  {| pw_files := files; pw_memfds := pw_memfds w; pw_next := pw_next w;
     pw_default := pw_default w; pw_pins := pw_pins w |}.

Definition unreadable (path : string) (error : option string) : result unit GitBinaryError :=
  match error with Some e => Err (GbUnreadable path e) | None => Ok tt end.
Definition staging (path : string) (error : option string) : result unit GitBinaryError :=
  match error with Some e => Err (GbStaging path e) | None => Ok tt end.

Definition invalid_argument : string := "Invalid argument (os error 22)".

(** The checks on the opened file: its bytes. *)
Definition read_binary (env : stage_env) (path : string) (file : open_reply) : result bytes GitBinaryError :=
  fail_if (negb (starts_with "/" path)) (GbPathNotAbsolute path) ;?
  match file with
  | OpenLoop => Err (GbSymlink path)
  | OpenFails e => Err (GbUnreadable path e)
  | Opened regular mode contents =>
      unreadable path (se_metadata env) ;?
      fail_if (negb regular) (GbNotRegular path) ;?
      fail_if (N.land mode 73 =? 0) (GbNotExecutable path) ;?
      unreadable path (se_read env) ;?
      Ok contents
  end.

(** The creation, the writing and the sealing of the anonymous file. *)
Definition stage_file (env : stage_env) (path : string) : result unit GitBinaryError :=
  match se_memfd_exec env, se_memfd env with
  | Created, _ | Invalid, Created => Ok tt
  | CreateFails e, _ | Invalid, CreateFails e => Err (GbStaging path e)
  | Invalid, Invalid => Err (GbStaging path invalid_argument)
  end ;?
  staging path (se_write env) ;?
  staging path (se_seal env).

Section Pins.
Context `{Blake3, HexCrate}.

(** [stage]; what it made is closed when it fails. *)
Definition stage (env : stage_env) (path : string) (w : pin_world)
    : result (Digest * N) GitBinaryError * pin_world :=
  match read_binary env path (pw_files w path) with
  | Err e => (Err e, w)
  | Ok contents =>
      match stage_file env path with
      | Err e => (Err e, w)
      | Ok _ => (Ok (digest_of contents, pw_next w), add_memfd {| mf_contents := contents; mf_sealed := true |} w)
      end
  end.

(** [PinnedGit::assemble], which makes the pin. *)
Definition assemble (path : string) (digest : Digest) (staged : N) (source : PinSource) (w : pin_world)
    : result PinnedGit GitBinaryError * pin_world :=
  let pin := {| pg_path := path; pg_digest := digest; pg_source := source;
                pg_bounds := DEFAULT_BOUNDS; pg_staged := staged |} in
  (Ok pin, add_pin pin w).

(** [PinnedGit::new] *)
Definition pinned_new (env : stage_env) (path : string) (expected : Digest) (w : pin_world)
    : result PinnedGit GitBinaryError * pin_world :=
  match stage env path w with
  | (Err e, w) => (Err e, w)
  | (Ok (digest, staged), w) =>
      if bool_decide (digest = expected) then assemble path digest staged Operator w
      else (Err (GbDigestMismatch path (to_hex expected) (to_hex digest)), w)
  end.

(** [PinnedGit::self_pinned] *)
Definition self_pinned (env : stage_env) (path : string) (w : pin_world)
    : result PinnedGit GitBinaryError * pin_world :=
  match stage env path w with
  | (Err e, w) => (Err e, w)
  | (Ok (digest, staged), w) => assemble path digest staged SelfPinned w
  end.

(** [PinnedGit::with_bounds] *)
Definition with_bounds (bounds : GitBounds) (p : PinnedGit) : PinnedGit :=
  {| pg_path := pg_path p; pg_digest := pg_digest p; pg_source := pg_source p;
     pg_bounds := bounds; pg_staged := pg_staged p |}.

(** [DEFAULT_BINARY.set] *)
Definition set_once (p : PinnedGit) (w : pin_world) : result unit PinnedGit * pin_world :=
  match pw_default w with
  | Some _ => (Err p, w)
  | None => (Ok tt, set_default (Some p) w)
  end.

(** [PinnedGit::install_default] *)
Definition install_default (p : PinnedGit) (w : pin_world) : result unit GitBinaryError * pin_world :=
  match set_once p w with
  | (Ok _, w) => (Ok tt, w)
  | (Err rejected, w) =>
      (match pw_default w with
       | Some current => if pin_eq current rejected then Ok tt else Err (GbAlreadyPinned (pg_path current))
       | None => Err (GbAlreadyPinned "")
       end, w)
  end.

(** [discover_system]; the environment of each candidate is its own. *)
Fixpoint discover (env : string → stage_env) (candidates reasons : list string) (w : pin_world)
    : result PinnedGit GitBinaryError * pin_world :=
  match candidates with
  | [] => (Err (GbNotFound (String.concat "; " reasons)), w)
  | candidate :: candidates =>
      match self_pinned (env candidate) candidate w with
      | (Ok pin, w) => (Ok pin, w)
      | (Err e, w) => discover env candidates (reasons ++ [candidate +:+ ": " +:+ git_binary_reason_code e]) w
      end
  end.
Definition discover_system (env : string → stage_env) : pin_world → result PinnedGit GitBinaryError * pin_world :=
  discover env SYSTEM_GIT_CANDIDATES [].

(** [PinnedGit::process_default]; [raced] is the pin another thread installs while the
    candidates are tried. *)
Definition process_default (env : string → stage_env) (raced : option PinnedGit) (w : pin_world)
    : result PinnedGit GitBinaryError * pin_world :=
  match pw_default w with
  | Some current => (Ok current, w)
  | None =>
      match discover_system env w with
      | (Err e, w) => (Err e, w)
      | (Ok pin, w) =>
          let w := match raced with Some p => snd (set_once p w) | None => w end in
          let w := snd (set_once pin w) in
          (ok_or (pw_default w) (GbNotFound "default pin vanished"), w)
      end
  end.

(** The bytes that a command of the pin executes, through [/proc/self/fd]. *)
Definition image (p : PinnedGit) (w : pin_world) : option bytes :=
  mf_contents <$> pw_memfds w !! pg_staged p.

(** A write to an anonymous file: a sealed one refuses it. *)
Definition memfd_write (id : N) (contents : bytes) (w : pin_world) : pin_world :=
  match pw_memfds w !! id with
  | Some m => if mf_sealed m then w
              else set_memfds (<[id := {| mf_contents := contents; mf_sealed := false |}]> (pw_memfds w)) w
  | None => w
  end.

(** One call, or one interference: the disk changes, or somebody writes to a descriptor. *)
Inductive pin_step (w : pin_world) : pin_world → Prop :=
  | step_new env path expected : pin_step w (snd (pinned_new env path expected w))
  | step_self env path : pin_step w (snd (self_pinned env path w))
  | step_bounds p bounds : p ∈ pw_pins w → pin_step w (add_pin (with_bounds bounds p) w)
  | step_install p : p ∈ pw_pins w → pin_step w (snd (install_default p w))
  | step_default env raced : (∀ p, raced = Some p → p ∈ pw_pins w) → pin_step w (snd (process_default env raced w))
  | step_disk files : pin_step w (set_files files w)
  | step_write id contents : pin_step w (memfd_write id contents w).

Inductive pin_steps (w : pin_world) : pin_world → Prop :=
  | pins_refl : pin_steps w w
  | pins_step w1 w2 : pin_steps w w1 → pin_step w1 w2 → pin_steps w w2.

Definition no_pins (files : string → open_reply) : pin_world :=
  {| pw_files := files; pw_memfds := ∅; pw_next := 0; pw_default := None; pw_pins := [] |}.
End Pins.

(** ** Bounded execution *)

(** What [read] answers a reader: bytes (none at the end of the stream) or an error. *)
Inductive read_event : Type :=
  | ReadOk (bytes : bytes)
  | ReadInterrupted
  | ReadFails.

Record StreamReader : Type := { rd_bytes : bytes; rd_exceeded : bool; rd_done : bool }.
Definition new_reader : StreamReader := {| rd_bytes := []; rd_exceeded := false; rd_done := false |}.

(** One round of the thread of [StreamReader::spawn]. *)
Definition read_round (cap : N) (r : StreamReader) (e : read_event) : StreamReader :=
  if rd_done r then r
  else match e with
       | ReadOk [] | ReadFails => {| rd_bytes := rd_bytes r; rd_exceeded := rd_exceeded r; rd_done := true |}
       | ReadOk chunk =>
           if cap <? saturating_add (blen (rd_bytes r)) (blen chunk)
           then {| rd_bytes := rd_bytes r; rd_exceeded := true; rd_done := true |}
           else {| rd_bytes := rd_bytes r ++ chunk; rd_exceeded := rd_exceeded r; rd_done := false |}
       | ReadInterrupted => r
       end.
Definition read_stream (cap : N) (events : list read_event) : StreamReader :=
  fold_left (read_round cap) events new_reader.

(** What happens to a child: [_seen n] is how many events a reader has had when the loop
    looks for the [n]-th time, and [_end] how many when the wait for it is over. *)
Record child_env : Type := {
  ch_spawn : option string;
  ch_reader_stdout : option string;            (** the reader's thread cannot be started *)
  ch_reader_stderr : option string;
  ch_stdout : list read_event;
  ch_stderr : list read_event;
  ch_stdout_seen : nat → nat;
  ch_stderr_seen : nat → nat;
  ch_stdout_end : nat;
  ch_stderr_end : nat;
  ch_wait : nat → result (option (option Z)) string;   (** [try_wait] *)
  ch_elapsed : nat → N                          (** since the spawn, at the end of the look *)
}.

(** What became of the child. *)
Inductive child_fate : Type := NotSpawned | Reaped | Exited | LeftRunning.

Definition tripped (stdout stderr : StreamReader) : option string :=
  if rd_exceeded stdout then Some "stdout" else if rd_exceeded stderr then Some "stderr" else None.

Section Execution.
Context (env : child_env) (bounds : GitBounds) (verb : string).

Definition output_error (stream : string) : CapabilityError :=
  CapGitBinary (GbOutputBoundExceeded verb stream
    (if String.eqb stream "stdout" then bd_max_stdout bounds else bd_max_stderr bounds)).
Definition deadline_error : CapabilityError := CapGitBinary (GbDeadlineExceeded verb (bd_deadline bounds)).

Definition stdout_after (n : nat) : StreamReader := read_stream (bd_max_stdout bounds) (take n (ch_stdout env)).
Definition stderr_after (n : nat) : StreamReader := read_stream (bd_max_stderr bounds) (take n (ch_stderr env)).

(** [PinnedGit::collect] *)
Definition collect (status : option Z) : result BoundedOutput CapabilityError :=
  let stdout := stdout_after (ch_stdout_end env) in
  let stderr := stderr_after (ch_stderr_end env) in
  if rd_done stdout && rd_done stderr then
    match tripped stdout stderr with
    | Some stream => Err (output_error stream)
    | None => Ok {| bo_code := status; bo_stdout := rd_bytes stdout; bo_stderr := rd_bytes stderr |}
    end
  else Err deadline_error.

(** The loop of [PinnedGit::execute]; [None] is fuel exhaustion. *)
Fixpoint execute_loop (fuel n : nat) : option (result BoundedOutput CapabilityError * child_fate) :=
  match fuel with
  | O => None
  | S fuel =>
      match tripped (stdout_after (ch_stdout_seen env n)) (stderr_after (ch_stderr_seen env n)) with
      | Some stream => Some (Err (output_error stream), Reaped)
      | None =>
          match ch_wait env n with
          | Ok (Some status) => Some (collect status, Exited)
          | Err e => Some (Err (io_err ("wait git " +:+ verb) e), Reaped)
          | Ok None =>
              if bd_deadline bounds <=? ch_elapsed env n then Some (Err deadline_error, Reaped)
              else execute_loop fuel (S n)
          end
      end
  end.

(** Every round sleeps for 2 ms, so that many rounds reach the deadline. *)
Definition execute_fuel : nat := S (N.to_nat (bd_deadline bounds)).

(** [PinnedGit::execute] *)
Definition execute : option (result BoundedOutput CapabilityError * child_fate) :=
  match ch_spawn env with
  | Some e => Some (Err (io_err ("spawn git " +:+ verb) e), NotSpawned)
  | None =>
      match ch_reader_stdout env, ch_reader_stderr env with
      | Some e, _ | None, Some e => Some (Err (io_err "spawn git stream reader" e), LeftRunning)
      | None, None => execute_loop execute_fuel 0
      end
  end.
End Execution.

(** ** Lemmas: pins *)

Section PinFacts.
Context `{Blake3, HexCrate}.

(** The pin's anonymous file is sealed over bytes of its digest. *)
Definition pin_holds (p : PinnedGit) (w : pin_world) : Prop :=
  ∃ contents, pw_memfds w !! pg_staged p = Some {| mf_contents := contents; mf_sealed := true |} ∧
    digest_of contents = pg_digest p.

Record pins_ok (w : pin_world) : Prop := {
  po_pins p : p ∈ pw_pins w → pin_holds p w;
  po_default p : pw_default w = Some p → p ∈ pw_pins w;
  po_next id m : pw_memfds w !! id = Some m → id < pw_next w
}.

(** [w'] keeps the sealed files, the pins and the default of [w]. *)
Record extends (w w' : pin_world) : Prop := {
  xt_sealed id m : pw_memfds w !! id = Some m → mf_sealed m = true → pw_memfds w' !! id = Some m;
  xt_pins p : p ∈ pw_pins w → p ∈ pw_pins w';
  xt_default p : pw_default w = Some p → pw_default w' = Some p
}.

Lemma pin_extends_refl w : extends w w.
Proof. by constructor. Qed.
Lemma pin_extends_trans w1 w2 w3 : extends w1 w2 → extends w2 w3 → extends w1 w3.
Proof. intros [Hs1 Hp1 Hd1] [Hs2 Hp2 Hd2]. constructor; eauto. Qed.

Lemma pin_holds_extends p w w' : extends w w' → pin_holds p w → pin_holds p w'.
Proof. intros Hx (c & Hc & Hd). exists c. split; [|done]. by apply (xt_sealed _ _ Hx). Qed.

(** A well-formed successor. *)
Definition grows (w w' : pin_world) : Prop := pins_ok w → pins_ok w' ∧ extends w w'.

Lemma grows_refl w : grows w w.
Proof. intros Hw. split; [done|apply pin_extends_refl]. Qed.
Lemma grows_trans w1 w2 w3 : grows w1 w2 → grows w2 w3 → grows w1 w3.
Proof.
  intros H12 H23 Hw. destruct (H12 Hw) as [Hw2 Hx]. destruct (H23 Hw2) as [Hw3 Hx'].
  split; [done|]. by eapply pin_extends_trans.
Qed.

Lemma grows_memfd m w : grows w (add_memfd m w).
Proof.
  intros [Hp Hd Hn]. assert (extends w (add_memfd m w)) as Hx.
  { constructor; [|done..]. intros id m' Hid _. simpl. apply lookup_insert_Some. right.
    split; [|done]. apply Hn in Hid. lia. }
  split; [|done]. constructor.
  - intros p Hpin. eapply pin_holds_extends; [done|by apply Hp].
  - done.
  - simpl. intros id m'. rewrite lookup_insert_Some. intros [[<- _]|[_ Hid]]; [lia|]. apply Hn in Hid. lia.
Qed.

Lemma grows_pin p w : (pins_ok w → pin_holds p w) → grows w (add_pin p w).
Proof.
  intros Hp Hw. pose proof (Hp Hw) as Hh. destruct Hw as [Hps Hd Hn]. split; constructor; try done.
  - simpl. intros q [->|Hq]%elem_of_cons; [done|by apply Hps].
  - intros q Hq. simpl. apply elem_of_cons. right. by apply Hd.
  - intros q Hq. simpl. apply elem_of_cons. by right.
Qed.

Lemma grows_set_once p w : p ∈ pw_pins w → grows w (snd (set_once p w)).
Proof.
  intros Hp [Hps Hd Hn]. unfold set_once. destruct (pw_default w) as [q|] eqn:E; simpl.
  - split; [by constructor; rewrite ?E|apply pin_extends_refl].
  - split; constructor; try done.
    + by intros q [= <-].
    + intros q. by rewrite E.
Qed.

Lemma read_binary_Ok env path file contents :
  read_binary env path file = Ok contents →
  ∃ mode, file = Opened true mode contents ∧ N.land mode 73 ≠ 0.
Proof.
  unfold read_binary. intros Hr. apply res_bind_Ok in Hr as (u & _ & Hr).
  destruct file as [|e|regular mode c]; [done..|]. res_inv. exists mode.
  destruct regular; [|done]. split; [done|]. by apply N.eqb_neq.
Qed.

Lemma stage_spec env path w :
  let '(r, w') := stage env path w in
  grows w w' ∧ pw_pins w' = pw_pins w ∧ pw_files w' = pw_files w ∧
  ∀ digest staged, r = Ok (digest, staged) → ∃ mode contents,
    pw_files w path = Opened true mode contents ∧ N.land mode 73 ≠ 0 ∧ digest = digest_of contents ∧
    pw_memfds w' !! staged = Some {| mf_contents := contents; mf_sealed := true |}.
Proof.
  unfold stage. destruct (read_binary env path (pw_files w path)) as [contents|e] eqn:Er;
    [|split; [apply grows_refl|done]].
  destruct (stage_file env path); [|split; [apply grows_refl|done]].
  split; [apply grows_memfd|]. split; [done|]. split; [done|]. intros digest staged [= <- <-].
  apply read_binary_Ok in Er as (mode & Hf & Hm). exists mode, contents.
  split_and!; [done..|]. simpl. by rewrite lookup_insert_eq.
Qed.

Lemma pinned_new_spec env path expected w :
  let '(r, w') := pinned_new env path expected w in
  grows w w' ∧ ∀ p, r = Ok p → pg_digest p = expected ∧ pg_source p = Operator ∧ p ∈ pw_pins w' ∧
    ∃ mode contents, pw_files w path = Opened true mode contents ∧ N.land mode 73 ≠ 0 ∧
      digest_of contents = expected ∧ image p w' = Some contents.
Proof.
  unfold pinned_new. pose proof (stage_spec env path w) as Hst.
  destruct (stage env path w) as [[[digest staged]|e] w1]; [|by destruct Hst as [Hg _]].
  destruct Hst as (Hg & _ & _ & Hok). destruct (Hok _ _ eq_refl) as (mode & c & Hf & Hm & -> & Hs).
  case_bool_decide as Hd; [|by split]. simpl. split.
  - eapply grows_trans; [exact Hg|]. apply grows_pin. intros _. by exists c.
  - intros p [= <-]. split_and!; try done; [apply elem_of_cons; by left|].
    exists mode, c. split_and!; try done. unfold image. simpl. by rewrite Hs.
Qed.

Lemma self_pinned_spec env path w :
  let '(r, w') := self_pinned env path w in
  grows w w' ∧ (∀ p, p ∈ pw_pins w → p ∈ pw_pins w') ∧ ∀ p, r = Ok p → p ∈ pw_pins w'.
Proof.
  unfold self_pinned. pose proof (stage_spec env path w) as Hst.
  destruct (stage env path w) as [[[digest staged]|e] w1]; [|destruct Hst as (Hg & -> & _); by split_and!].
  destruct Hst as (Hg & Hpins & _ & Hok). destruct (Hok _ _ eq_refl) as (mode & c & Hf & Hm & -> & Hs).
  simpl. split; [|split].
  - eapply grows_trans; [exact Hg|]. apply grows_pin. intros _. by exists c.
  - intros p Hp. apply elem_of_cons. right. by rewrite Hpins.
  - intros p [= <-]. apply elem_of_cons. by left.
Qed.

Lemma discover_spec env candidates reasons w :
  let '(r, w') := discover env candidates reasons w in
  grows w w' ∧ (∀ p, p ∈ pw_pins w → p ∈ pw_pins w') ∧ ∀ p, r = Ok p → p ∈ pw_pins w'.
Proof.
  revert reasons w. induction candidates as [|c cs IH]; intros reasons w; simpl; [split; [apply grows_refl|done]|].
  pose proof (self_pinned_spec (env c) c w) as Hsp.
  destruct (self_pinned (env c) c w) as [[p|e] w1]; [done|]. destruct Hsp as (Hg & Hp & _).
  specialize (IH (reasons ++ [c +:+ ": " +:+ git_binary_reason_code e]) w1).
  destruct (discover env cs _ w1) as [r w2]. destruct IH as (Hg2 & Hp2 & Hr2).
  split; [by eapply grows_trans|]. split; [auto|done].
Qed.

Lemma process_default_grows env raced w :
  (∀ p, raced = Some p → p ∈ pw_pins w) → grows w (snd (process_default env raced w)).
Proof.
  intros Hraced. unfold process_default. destruct (pw_default w); [apply grows_refl|]. unfold discover_system.
  pose proof (discover_spec env SYSTEM_GIT_CANDIDATES [] w) as Hd.
  destruct (discover env _ [] w) as [[p|e] w1]; [|by destruct Hd].
  destruct Hd as (Hg & Hkeep & Hp). simpl. eapply grows_trans; [exact Hg|].
  assert (∀ q v, pw_pins (snd (set_once q v)) = pw_pins v) as Hpins.
  { intros q v. unfold set_once. by destruct (pw_default v). }
  destruct raced as [q|].
  - eapply grows_trans; [by apply (grows_set_once q), Hkeep, Hraced|].
    apply grows_set_once. rewrite Hpins. by apply Hp.
  - apply grows_set_once. by apply Hp.
Qed.

Lemma pin_step_grows w w' : pin_step w w' → grows w w'.
Proof.
  intros [env path expected|env path|p bounds Hp|p Hp|env raced Hr|files|id contents].
  - pose proof (pinned_new_spec env path expected w) as Hs. by destruct (pinned_new env path expected w), Hs.
  - pose proof (self_pinned_spec env path w) as Hs. by destruct (self_pinned env path w), Hs.
  - apply grows_pin. intros Hw. destruct (po_pins _ Hw p Hp) as (c & Hc & Hd). by exists c.
  - unfold install_default. pose proof (grows_set_once p w Hp) as Hg. by destruct (set_once p w) as [[]].
  - by apply process_default_grows.
  - intros [Hps Hd Hn]. by split; constructor.
  - unfold memfd_write. destruct (pw_memfds w !! id) as [m|] eqn:Em; [|apply grows_refl].
    destruct (mf_sealed m) eqn:Es; [apply grows_refl|]. intros [Hps Hd Hn].
    assert (extends w (set_memfds (<[id:={| mf_contents := contents; mf_sealed := false |}]> (pw_memfds w)) w)) as Hx.
    { constructor; [|done..]. intros id' m' Hid Hsealed. simpl. apply lookup_insert_Some. right.
      split; [|done]. intros ->. congruence. }
    split; [|done]. constructor.
    + intros p Hp. by eapply pin_holds_extends, Hps.
    + done.
    + simpl. intros id' m'. rewrite lookup_insert_Some. intros [[<- _]|[_ Hid]]; by eapply Hn.
Qed.

Lemma pin_steps_grow w w' : pin_steps w w' → grows w w'.
Proof. induction 1 as [|w1 w2 _ IH Hs]; [apply grows_refl|]. eapply grows_trans; [exact IH|by apply pin_step_grows]. Qed.

Lemma no_pins_ok files : pins_ok (no_pins files).
Proof. constructor; simpl; [by intros p ?%elem_of_nil|done|by intros id m ?%lookup_empty_Some]. Qed.

(** C17: a pinned executable stays what it was pinned to.  However calls that pin, bound,
    install and discover binaries interleave with changes of the disk and with writes to
    the descriptors of the process, the bytes that a pin executes hash to its digest and
    never change; the process-wide default, once there, is never replaced; and a pin an
    operator asked for has the expected digest, of a regular executable file that was at
    the path then. *)
Theorem pinned_executable_is_fixed files w w' :
  pin_steps (no_pins files) w → pin_steps w w' →
  (∀ p, p ∈ pw_pins w → ∃ contents,
     digest_of contents = pg_digest p ∧ image p w = Some contents ∧ image p w' = Some contents) ∧
  (∀ q, pw_default w = Some q → q ∈ pw_pins w ∧ pw_default w' = Some q) ∧
  (∀ env path expected p w1, pinned_new env path expected w = (Ok p, w1) →
     pg_digest p = expected ∧ pg_source p = Operator ∧ p ∈ pw_pins w1 ∧
     ∃ mode contents, pw_files w path = Opened true mode contents ∧ N.land mode 73 ≠ 0 ∧
       digest_of contents = expected ∧ image p w1 = Some contents).
Proof.
  intros Hw Hw'. destruct (pin_steps_grow _ _ Hw (no_pins_ok files)) as [Hok _].
  destruct (pin_steps_grow _ _ Hw' Hok) as [_ Hx]. split_and!.
  - intros p Hp. destruct (po_pins _ Hok p Hp) as (c & Hc & Hd). exists c. unfold image.
    by rewrite Hc, (xt_sealed _ _ Hx _ _ Hc eq_refl).
  - intros q Hq. split; [by apply (po_default _ Hok)|by apply (xt_default _ _ Hx)].
  - intros env path expected p w1 Hp. pose proof (pinned_new_spec env path expected w) as Hs.
    rewrite Hp in Hs. by apply Hs.
Qed.
End PinFacts.

(** ** Lemmas: streams *)

(** The bytes of a stream up to its end, and whether it has ended. *)
Fixpoint stream_bytes (events : list read_event) : bytes :=
  match events with
  | [] | ReadOk [] :: _ | ReadFails :: _ => []
  | ReadOk chunk :: events => chunk ++ stream_bytes events
  | ReadInterrupted :: events => stream_bytes events
  end.
Fixpoint stream_ended (events : list read_event) : bool :=
  match events with
  | [] => false
  | ReadOk [] :: _ | ReadFails :: _ => true
  | _ :: events => stream_ended events
  end.

Lemma read_rounds_done cap events r : rd_done r = true → fold_left (read_round cap) events r = r.
Proof.
  intros Hr. induction events as [|e es IH]; simpl; [done|]. unfold read_round at 2. by rewrite Hr.
Qed.

(** A reader ends with the bytes of the stream, or with the flag and a stream that is
    longer than the cap. *)
Lemma read_rounds_spec cap events r :
  cap < u64_max → rd_done r = false → rd_exceeded r = false → blen (rd_bytes r) <= cap →
  let r' := fold_left (read_round cap) events r in
  if rd_exceeded r' then rd_done r' = true ∧ cap < blen (rd_bytes r ++ stream_bytes events)
  else rd_bytes r' = rd_bytes r ++ stream_bytes events ∧ blen (rd_bytes r') <= cap ∧
       rd_done r' = stream_ended events.
Proof.
  intros Hcap. revert r. induction events as [|e es IH]; intros r Hd He Hl; simpl.
  { rewrite He. by rewrite app_nil_r. }
  remember (read_round cap r e) as r1 eqn:Er. unfold read_round in Er. rewrite Hd in Er.
  destruct e as [[|b c]| |]; [subst r1| |subst r1|subst r1].
  - rewrite read_rounds_done by done. simpl. rewrite He. by rewrite app_nil_r.
  - destruct (cap <? saturating_add (blen (rd_bytes r)) (blen (b :: c))) eqn:Ec; subst r1.
    + rewrite read_rounds_done by done. simpl. split; [done|]. apply N.ltb_lt in Ec.
      unfold saturating_add, blen in *. rewrite !length_app in *. simpl in *. rewrite length_app. lia.
    + apply N.ltb_ge in Ec.
      specialize (IH {| rd_bytes := rd_bytes r ++ b :: c; rd_exceeded := rd_exceeded r; rd_done := false |} eq_refl He).
      simpl in IH. rewrite <-app_assoc in IH. apply IH.
      unfold saturating_add, blen in *. rewrite length_app. lia.
  - by apply IH.
  - rewrite read_rounds_done by done. simpl. rewrite He. by rewrite app_nil_r.
Qed.

Lemma read_stream_spec cap events :
  cap < u64_max →
  if rd_exceeded (read_stream cap events) then cap < blen (stream_bytes events)
  else rd_bytes (read_stream cap events) = stream_bytes events ∧ blen (stream_bytes events) <= cap ∧
       rd_done (read_stream cap events) = stream_ended events.
Proof.
  intros Hcap. pose proof (read_rounds_spec cap events new_reader Hcap eq_refl eq_refl ltac:(unfold blen; simpl; lia)) as Hs.
  cbv zeta in Hs. unfold read_stream. destruct (rd_exceeded _); [by destruct Hs|].
  destruct Hs as (Hb & Hl & Hd). rewrite Hb in Hl. by split_and!.
Qed.

Lemma exceeded_done cap events : rd_exceeded (read_stream cap events) = true → rd_done (read_stream cap events) = true.
Proof.
  unfold read_stream. assert (∀ r, (rd_exceeded r = true → rd_done r = true) →
    rd_exceeded (fold_left (read_round cap) events r) = true → rd_done (fold_left (read_round cap) events r) = true) as Hgen.
  { induction events as [|e es IH]; intros r Hr; simpl; [done|]. apply IH. unfold read_round.
    destruct (rd_done r) eqn:Ed; [done|].
    assert (rd_exceeded r = true → False) as Hno by (intros Hx; specialize (Hr Hx); congruence).
    destruct e as [[|b c]| |]; simpl; try done.
    destruct (_ <? _); simpl; naive_solver. }
  by apply Hgen.
Qed.

(** A reader that is not done has not seen the end of its stream. *)
Lemma not_done_ended cap events :
  cap < u64_max → rd_done (read_stream cap events) = false → stream_ended events = false.
Proof.
  intros Hcap Hd. pose proof (read_stream_spec cap events Hcap) as Hs.
  destruct (rd_exceeded (read_stream cap events)) eqn:Ee; [apply exceeded_done in Ee; congruence|].
  destruct Hs as (_ & _ & Hs). congruence.
Qed.

Section ExecutionFacts.
Context (env : child_env) (bounds : GitBounds) (verb : string).
Context (Hcaps : bd_max_stdout bounds < u64_max ∧ bd_max_stderr bounds < u64_max).
(** The clock advances by a millisecond a round; the loop sleeps for two. *)
Context (Hclock : ∀ n, N.of_nat n <= ch_elapsed env n).

(** Why a call was refused after the child had been spawned. *)
Definition bound_exceeded (e : CapabilityError) : Prop := ∃ n,
  e = output_error bounds verb "stdout" ∧ bd_max_stdout bounds < blen (stream_bytes (take n (ch_stdout env))) ∨
  e = output_error bounds verb "stderr" ∧ bd_max_stderr bounds < blen (stream_bytes (take n (ch_stderr env))).

Lemma tripped_exceeded n m stream :
  tripped (stdout_after env bounds n) (stderr_after env bounds m) = Some stream →
  bound_exceeded (output_error bounds verb stream).
Proof.
  destruct Hcaps as [Ho He]. unfold tripped, stdout_after, stderr_after.
  pose proof (read_stream_spec _ (take n (ch_stdout env)) Ho) as Hso.
  pose proof (read_stream_spec _ (take m (ch_stderr env)) He) as Hse.
  destruct (rd_exceeded (read_stream (bd_max_stdout bounds) _)); [intros [= <-]; exists n; by left|].
  destruct (rd_exceeded (read_stream (bd_max_stderr bounds) _)); [|done]. intros [= <-]. exists m. by right.
Qed.

(** What an answer says of the child. *)
Definition execution (r : result BoundedOutput CapabilityError) (fate : child_fate) : Prop :=
  match r with
  | Ok out =>
      fate = Exited ∧ (∃ n, ch_wait env n = Ok (Some (bo_code out))) ∧
      let stdout := take (ch_stdout_end env) (ch_stdout env) in
      let stderr := take (ch_stderr_end env) (ch_stderr env) in
      bo_stdout out = stream_bytes stdout ∧ stream_ended stdout = true ∧ blen (bo_stdout out) <= bd_max_stdout bounds ∧
      bo_stderr out = stream_bytes stderr ∧ stream_ended stderr = true ∧ blen (bo_stderr out) <= bd_max_stderr bounds
  | Err e =>
      (bound_exceeded e ∧ (fate = Reaped ∨ fate = Exited)) ∨
      (e = deadline_error bounds verb ∧
        (fate = Reaped ∧ (∃ n, bd_deadline bounds <= ch_elapsed env n) ∨
         fate = Exited ∧ (stream_ended (take (ch_stdout_end env) (ch_stdout env)) = false ∨
                          stream_ended (take (ch_stderr_end env) (ch_stderr env)) = false))) ∨
      (fate = Reaped ∧ ∃ n reason, ch_wait env n = Err reason ∧ e = io_err ("wait git " +:+ verb) reason)
  end.

Lemma collect_spec n status :
  ch_wait env n = Ok (Some status) → execution (collect env bounds verb status) Exited.
Proof.
  intros Hw. destruct Hcaps as [Ho He]. unfold collect.
  destruct (rd_done (stdout_after env bounds (ch_stdout_end env))) eqn:Edo.
  2: { right; left. split; [done|]. right. split; [done|]. left. exact (not_done_ended _ _ Ho Edo). }
  destruct (rd_done (stderr_after env bounds (ch_stderr_end env))) eqn:Ede.
  2: { right; left. split; [done|]. right. split; [done|]. right. exact (not_done_ended _ _ He Ede). }
  simpl. destruct (tripped _ _) as [stream|] eqn:Et.
  { left. apply tripped_exceeded in Et. split; [done|by right]. }
  pose proof (read_stream_spec _ (take (ch_stdout_end env) (ch_stdout env)) Ho) as Hso.
  pose proof (read_stream_spec _ (take (ch_stderr_end env) (ch_stderr env)) He) as Hse.
  unfold tripped, stdout_after, stderr_after in *.
  destruct (rd_exceeded (read_stream (bd_max_stdout bounds) _)); [done|].
  destruct (rd_exceeded (read_stream (bd_max_stderr bounds) _)); [done|].
  destruct Hso as (Hbo & Hlo & Hdo), Hse as (Hbe & Hle & Hde).
  split; [done|]. split; [by exists n|]. simpl. rewrite Hbo, Hbe. split_and!; congruence || done.
Qed.

Lemma execute_loop_spec fuel n :
  fuel ≠ 0%nat → bd_deadline bounds < N.of_nat fuel + N.of_nat n →
  ∃ r fate, execute_loop env bounds verb fuel n = Some (r, fate) ∧ fate ≠ LeftRunning ∧ execution r fate.
Proof.
  revert n. induction fuel as [|fuel IH]; intros n Hf Hn; [done|]. simpl. clear Hf.
  destruct (tripped _ _) as [stream|] eqn:Et.
  { apply tripped_exceeded in Et. eexists _, _. split; [done|]. split; [done|]. left. split; [done|by left]. }
  destruct (ch_wait env n) as [[status|]|reason] eqn:Ew.
  - eexists _, _. split; [done|]. split; [done|]. by eapply collect_spec.
  - destruct (bd_deadline bounds <=? ch_elapsed env n) eqn:Ed.
    + apply N.leb_le in Ed. eexists _, _. split; [done|]. split; [done|]. right; left. split; [done|]. left.
      split; [done|by exists n].
    + apply N.leb_gt in Ed. pose proof (Hclock n). apply IH; [intros ->; lia|lia].
  - eexists _, _. split; [done|]. split; [done|]. right; right. split; [done|]. by exists n, reason.
Qed.

(** C18: a Git command is bounded.  Whatever the child writes, however long it runs and
    whatever its pipes do, [execute] returns.  An answer is everything that was read of
    each stream up to its end, each within its cap, with the status the child exited
    with; a read that fails counts as the end of its stream, as in the code.  After the
    spawn, a refusal is of a stream that is longer than its cap, or of the deadline,
    which has passed or found a stream still open when the wait for it was over, or of a
    wait that failed; the child has exited or has been killed and reaped.  Before that, a
    spawn that fails leaves no child, and when the thread of a reader cannot be started
    the call is refused and the child is left running. *)
Theorem execute_bounded :
  ∃ r fate, execute env bounds verb = Some (r, fate) ∧
    match fate with
    | NotSpawned => ∃ e, ch_spawn env = Some e ∧ r = Err (io_err ("spawn git " +:+ verb) e)
    | LeftRunning => ch_spawn env = None ∧
        (ch_reader_stdout env ≠ None ∨ ch_reader_stderr env ≠ None) ∧
        ∃ e, r = Err (io_err "spawn git stream reader" e)
    | Reaped | Exited => execution r fate
    end.
Proof.
  unfold execute. destruct (ch_spawn env) as [e|] eqn:Es.
  { eexists _, _. split; [done|]. by exists e. }
  destruct (ch_reader_stdout env) as [e|] eqn:Eo.
  { eexists _, _. split; [done|]. split; [done|]. split; [by left|by exists e]. }
  destruct (ch_reader_stderr env) as [e|] eqn:Ee.
  { eexists _, _. split; [done|]. split; [done|]. split; [by right|by exists e]. }
  destruct (execute_loop_spec (execute_fuel bounds) 0 ltac:(done) ltac:(unfold execute_fuel; lia))
    as (r & fate & -> & Hfate & Hr).
  exists r, fate. split; [done|]. destruct fate; try done.
  by destruct r; [destruct Hr|destruct Hr as [[_ [?|?]]|[[_ [[? _]|[? _]]]|[? _]]]].
Qed.
End ExecutionFacts.

(** ** A concrete pin and a concrete command *)
Module GitPinReference.
Import Reference.

Definition git_bytes : bytes := as_bytes "#!git".
Definition disk : string → open_reply := λ p, if String.eqb p "/usr/bin/git" then Opened true 493 git_bytes else OpenFails "ENOENT".
Definition quiet_stage : stage_env := {|
  se_metadata := None; se_read := None; se_memfd_exec := Invalid; se_memfd := Created; se_write := None; se_seal := None |}.

Definition pinned := pinned_new quiet_stage "/usr/bin/git" (digest_of git_bytes) (no_pins disk).
Definition the_pin : PinnedGit := {|
  pg_path := "/usr/bin/git"; pg_digest := digest_of git_bytes; pg_source := Operator;
  pg_bounds := DEFAULT_BOUNDS; pg_staged := 0 |}.

(** The pin is installed, the file on the disk replaced, and a write to the descriptor tried. *)
Definition attacked : pin_world :=
  memfd_write 0 (as_bytes "evil") (set_files (λ _, Opened true 493 (as_bytes "evil")) (snd (install_default the_pin (snd pinned)))).

Lemma pinned_executable_is_fixed_witness : image the_pin attacked = Some git_bytes.
Proof.
  assert (pin_steps (no_pins disk) (snd pinned)) as Hw.
  { eapply pins_step; [apply pins_refl|apply step_new]. }
  assert (the_pin ∈ pw_pins (snd pinned)) as Hin by (vm_compute; left).
  assert (pin_steps (snd pinned) attacked) as Hw'.
  { eapply pins_step; [eapply pins_step; [eapply pins_step; [apply pins_refl|]|]|apply step_write].
    - apply (step_install _ the_pin Hin).
    - apply step_disk. }
  destruct (pinned_executable_is_fixed disk (snd pinned) attacked Hw Hw') as [Hfixed _].
  destruct (Hfixed the_pin Hin) as (contents & _ & Hi & Hi').
  assert (image the_pin (snd pinned) = Some git_bytes) as Hg by (vm_compute; reflexivity).
  exact (eq_trans Hi' (eq_trans (eq_sym Hi) Hg)).
Defined.

(** The output comes in two chunks; the child exits at the third look. *)
Definition short_child : child_env := {|
  ch_spawn := None; ch_reader_stdout := None; ch_reader_stderr := None;
  ch_stdout := [ReadOk (as_bytes "ab"); ReadInterrupted; ReadOk (as_bytes "cd"); ReadOk []]; ch_stderr := [ReadOk []];
  ch_stdout_seen := id; ch_stderr_seen := id; ch_stdout_end := 9; ch_stderr_end := 9;
  ch_wait n := if (n <? 3)%nat then Ok None else Ok (Some (Some 0%Z)); ch_elapsed n := 2 * N.of_nat n |}.
Definition small_bounds : GitBounds := {| bd_deadline := 10; bd_max_stdout := 4; bd_max_stderr := 0 |}.

Lemma short_run : execute short_child small_bounds "status"
  = Some (Ok {| bo_code := Some 0%Z; bo_stdout := as_bytes "abcd"; bo_stderr := [] |}, Exited).
Proof. vm_compute. reflexivity. Qed.

Lemma execute_bounded_witness :
  ∃ r fate, execute short_child small_bounds "status" = Some (r, fate) ∧ execution short_child small_bounds "status" r fate.
Proof.
  assert (bd_max_stdout small_bounds < u64_max ∧ bd_max_stderr small_bounds < u64_max) as Hcaps by (split; reflexivity).
  assert (∀ n, N.of_nat n <= ch_elapsed short_child n) as Hclock by (intros n; unfold short_child; simpl ch_elapsed; lia).
  destruct (execute_bounded short_child small_bounds "status" Hcaps Hclock) as (r & fate & Hrun & Hr).
  exists r, fate. split; [exact Hrun|].
  assert (fate = Exited) as -> by (pose proof (eq_trans (eq_sym Hrun) short_run) as Heq; congruence). exact Hr.
Defined.

(** A stream that fails is taken for one that has ended. *)
Example truncated_output : execute {|
    ch_spawn := None; ch_reader_stdout := None; ch_reader_stderr := None;
    ch_stdout := [ReadOk (as_bytes "ab"); ReadFails]; ch_stderr := [ReadOk []];
    ch_stdout_seen := id; ch_stderr_seen := id; ch_stdout_end := 9; ch_stderr_end := 9;
    ch_wait _ := Ok (Some (Some 0%Z)); ch_elapsed n := 2 * N.of_nat n |} small_bounds "status"
  = Some (Ok {| bo_code := Some 0%Z; bo_stdout := as_bytes "ab"; bo_stderr := [] |}, Exited).
Proof. vm_compute. reflexivity. Qed.
End GitPinReference.
