(* ===== verification/Reflink.v ===== *)
(** [crates/bullet-git-workspace/src/reflink.rs]: the copy of a tree that prefers
    [FICLONE] and otherwise reads and writes each file within its length.

    [copy_env] has the replies of the file system: the error of each call, what a file
    is once it is opened, whether a file can be cloned, and what a failing call leaves
    behind.  A copy of an entry is what stands at the destination, and the result. *)

From S2P Require Import Prelude Generation Capability.

Inductive CopyMode : Type := Reflink | Fallback.

Record CopySummary : Type := { files : N; all_reflink : bool }.

(** A file as its descriptor shows it: whether it is the regular file that was
    inspected by its path, its length, and the bytes a reader gets. *)
Record opened_file : Type := { of_identity : bool; of_len : N; of_stream : bytes }.

Record copy_env : Type := {
  cp_io : string → string → option string;        (** the error of a call, by context and path *)
  cp_open : string → bytes → opened_file;         (** of the file with these bytes *)
  cp_ficlone : string → bool;
  cp_written : nat;                                (** bytes a failing copy has written *)
  cp_resolves : bool;                              (** [Path::exists] on a symbolic link *)
  cp_left : option node                            (** what a failing removal leaves *)
}.

Definition copy_call (env : copy_env) (context path : string) : result unit CapabilityError :=
  match cp_io env context path with Some e => Err (io_err context e) | None => Ok tt end.

(** The mode of a new file before its permissions are set. *)
Definition NEW_FILE_MODE : N := 420.

Definition same_file_identity (contents : bytes) (f : opened_file) : bool :=
  of_identity f && (blen contents =? of_len f).

(** [copy_bounded], and what it has written. *)
Definition copy_bounded (env : copy_env) (from : string) (f : opened_file)
    : bytes * result unit CapabilityError :=
  let copied := take (N.to_nat (saturating_add (of_len f) 1)) (of_stream f) in
  match copy_call env "copy regular file" from with
  | Err e => (take (cp_written env) copied, Err e)
  | Ok _ =>
      (copied, fail_if (negb (blen copied =? of_len f)) (CapIo "copy source length changed during read") ;?
               copy_call env "flush copy destination" from)
  end.

Definition copy_regular_file (env : copy_env) (prefer_reflink : bool) (from : string) (contents : bytes)
    (mode : N) : option node * result bool CapabilityError :=
  let f := cp_open env from contents in
  match copy_call env "open copy source" from ;?
        copy_call env "inspect opened copy source" from ;?
        fail_if (negb (same_file_identity contents f))
          (CapIo ("copy source changed during admission: " +:+ from)) ;?
        copy_call env "create copy destination" from with
  | Err e => (None, Err e)
  | Ok _ =>
      if prefer_reflink && cp_ficlone env from then
        match copy_call env "set reflink permissions" from with
        | Err e => (Some (NFile (of_stream f) NEW_FILE_MODE), Err e)
        | Ok _ => (Some (NFile (of_stream f) mode), Ok true)
        end
      else
        match copy_call env "reset copy destination" from ;?
              copy_call env "seek copy source" from ;?
              copy_call env "seek copy destination" from with
        | Err e => (Some (NFile [] NEW_FILE_MODE), Err e)
        | Ok _ =>
            let '(copied, r) := copy_bounded env from f in
            match r ;? copy_call env "set copy permissions" from with
            | Err e => (Some (NFile copied NEW_FILE_MODE), Err e)
            | Ok _ => (Some (NFile copied mode), Ok false)
            end
        end
  end.

Definition add_summary (a b : CopySummary) : CopySummary :=
  {| files := saturating_add (files a) (files b); all_reflink := all_reflink a && all_reflink b |}.
Definition no_files : CopySummary := {| files := 0; all_reflink := true |}.

(** The directory loop of [copy_entries]. *)
Definition entries_loop (copy : string → node → option node * result CopySummary CapabilityError)
    (env : copy_env) (source : string) :
    CopySummary → list (string * node) → list (string * node) * result CopySummary CapabilityError :=
  fix loop summary entries :=
    match entries with
    | [] => ([], Ok summary)
    | (name, n) :: entries =>
        let from := join source name in
        match copy_call env "read copy entry" from ;? copy_call env "inspect copy entry" from with
        | Err e => ([], Err e)
        | Ok _ =>
            let '(copied, r) := copy from n in
            let here := match copied with Some c => [(name, c)] | None => [] end in
            match r with
            | Err e => (here, Err e)
            | Ok one => let '(rest, r) := loop (add_summary summary one) entries in (here ++ rest, r)
            end
        end
    end.

(** One entry of [copy_entries], with the recursion on directories. *)
Fixpoint copy_entries (env : copy_env) (prefer_reflink : bool) (from : string) (n : node) {struct n}
    : option node * result CopySummary CapabilityError :=
  match n with
  | NDir mode entries =>
      match copy_call env "inspect copy directory" from ;?
            copy_call env "create fallback directory" from with
      | Err e => (None, Err e)
      | Ok _ =>
          match copy_call env "set copy directory permissions" from with
          | Err e => (Some (NDir DIR_MODE []), Err e)
          | Ok _ =>
              match copy_call env "read copy source" from with
              | Err e => (Some (NDir mode []), Err e)
              | Ok _ =>
                  let '(copied, r) := entries_loop (copy_entries env prefer_reflink) env from no_files entries in
                  (Some (NDir mode copied), r)
              end
          end
      end
  | NFile contents mode =>
      let '(copied, r) := copy_regular_file env prefer_reflink from contents mode in
      (copied, res_map (λ reflinked, {| files := 1; all_reflink := reflinked |}) r)
  | NSymlink _ | NSpecial =>
      (None, Err (CapIo ("special filesystem entry is forbidden in fallback copy: " +:+ from)))
  end.

(** [Path::exists] *)
Definition path_exists (env : copy_env) (n : option node) : bool :=
  match n with None => false | Some (NSymlink _) => cp_resolves env | Some _ => true end.

Definition require_copy_pair (env : copy_env) (source destination : string) (n dest : option node)
    : result unit CapabilityError :=
  copy_call env "inspect copy source" source ;?
  let? n := ok_or n (io_err "inspect copy source" not_found) in
  fail_if (negb (is_dir (Some n))) (CapIo ("copy source is not a directory: " +:+ source)) ;?
  fail_if (path_exists env dest) (CapIo ("copy destination already exists: " +:+ destination)).

(** [copy_entries] of the whole tree: nothing is created over a dangling symbolic link. *)
Definition copy_root (env : copy_env) (prefer_reflink : bool) (source : string) (n : node)
    (dest : option node) : option node * result CopySummary CapabilityError :=
  match dest with
  | None => copy_entries env prefer_reflink source n
  | Some _ =>
      (dest, copy_call env "inspect copy directory" source ;?
             copy_call env "create fallback directory" source ;?
             Err (io_err "create fallback directory" file_exists))
  end.

Definition copy_with_cleanup (env : copy_env) (source destination : string) (prefer_reflink : bool)
    (n : node) (dest : option node) : option node * result CopySummary CapabilityError :=
  let '(copied, r) := copy_root env prefer_reflink source n dest in
  match r with
  | Ok summary => (copied, Ok summary)
  | Err error =>
      if path_exists env copied then
        match copy_call env "remove failed copy destination" destination with
        | Err cleanup => (cp_left env, Err cleanup)
        | Ok _ => (None, Err error)
        end
      else (copied, Err error)
  end.

Definition copy_tree_prefers_reflink (env : copy_env) (source destination : string)
    (n dest : option node) : option node * result CopyMode CapabilityError :=
  match require_copy_pair env source destination n dest, n with
  | Ok _, Some n =>
      let '(copied, r) := copy_with_cleanup env source destination true n dest in
      (copied, res_map (λ summary, if (0 <? files summary) && all_reflink summary
                                   then Reflink else Fallback) r)
  | Err e, _ => (dest, Err e)
  | Ok _, None => (dest, Err (io_err "inspect copy source" not_found))
  end.

Definition copy_tree_byte_identical (env : copy_env) (source destination : string)
    (n dest : option node) : option node * result unit CapabilityError :=
  match require_copy_pair env source destination n dest, n with
  | Ok _, Some n =>
      let '(copied, r) := copy_with_cleanup env source destination false n dest in
      (copied, res_map (λ _, tt) r)
  | Err e, _ => (dest, Err e)
  | Ok _, None => (dest, Err (io_err "inspect copy source" not_found))
  end.

(** ** The tree that is copied *)

(** Regular files and directories only. *)
Fixpoint ordinary (n : node) : bool :=
  match n with
  | NFile _ _ => true
  | NDir _ entries => forallb (λ row, ordinary (snd row)) entries
  | NSymlink _ | NSpecial => false
  end.

(** The regular files of a tree, by path. *)
Fixpoint regular_files (path : string) (n : node) : list string :=
  match n with
  | NFile _ _ => [path]
  | NDir _ entries => flat_map (λ row, regular_files (join path (fst row)) (snd row)) entries
  | NSymlink _ | NSpecial => []
  end.

(** Every file is, when it is opened, the file that was listed. *)
Definition stable (env : copy_env) : Prop :=
  ∀ path contents, cp_open env path contents
    = {| of_identity := true; of_len := blen contents; of_stream := contents |}.

Definition calm_copy (env : copy_env) : Prop := ∀ context path, cp_io env context path = None.

(** The mode a copy reports. *)
Definition copy_mode (env : copy_env) (source : string) (n : node) : CopyMode :=
  let paths := regular_files source n in
  if (0 <? blen paths) && forallb (cp_ficlone env) paths then Reflink else Fallback.

(** The summary of a copy of these files. *)
Definition summary_of (env : copy_env) (prefer_reflink : bool) (paths : list string) : CopySummary :=
  {| files := N.min (blen paths) u64_max;
     all_reflink := forallb (λ p, prefer_reflink && cp_ficlone env p) paths |}.

Lemma copy_call_Ok env context path : calm_copy env → copy_call env context path = Ok tt.
Proof. intros Hc. unfold copy_call. by rewrite Hc. Qed.

Lemma summary_of_app env prefer p q :
  add_summary (summary_of env prefer p) (summary_of env prefer q) = summary_of env prefer (p ++ q).
Proof.
  unfold add_summary, summary_of, saturating_add, blen. simpl. f_equal.
  - rewrite length_app, Nat2N.inj_add. lia.
  - by rewrite forallb_app.
Qed.

Lemma entries_loop_cons copy env source summary name n es :
  entries_loop copy env source summary ((name, n) :: es) =
    match copy_call env "read copy entry" (join source name) ;?
          copy_call env "inspect copy entry" (join source name) with
    | Err e => ([], Err e)
    | Ok _ =>
        let '(copied, r) := copy (join source name) n in
        let here := match copied with Some c => [(name, c)] | None => [] end in
        match r with
        | Err e => (here, Err e)
        | Ok one =>
            let '(rest, r) := entries_loop copy env source (add_summary summary one) es in (here ++ rest, r)
        end
    end.
Proof. done. Qed.

(** The length of every file is one of a [u64]. *)
Fixpoint sized (n : node) : bool :=
  match n with
  | NFile contents _ => blen contents <=? u64_max
  | NDir _ entries => forallb (λ row, sized (snd row)) entries
  | NSymlink _ | NSpecial => true
  end.

(** An entry that was copied stands at the destination as it is, and was counted. *)
Definition copied_whole (env : copy_env) (prefer : bool) (from : string) (n : node)
    (c : option node) (summary : CopySummary) : Prop :=
  c = Some n ∧ ordinary n = true ∧ summary = summary_of env prefer (regular_files from n).

Section Exact.
Context (env : copy_env) (prefer : bool) (Hstable : stable env).

Lemma take_blen (k : nat) (c : bytes) : blen (take k c) = blen c → take k c = c.
Proof. unfold blen. rewrite length_take. intros Hk. apply take_ge. lia. Qed.

Lemma copy_regular_file_same from contents mode c r :
  copy_regular_file env prefer from contents mode = (c, Ok r) →
  c = Some (NFile contents mode) ∧ r = prefer && cp_ficlone env from.
Proof.
  unfold copy_regular_file, copy_bounded. rewrite Hstable. simpl.
  destruct (copy_call env "open copy source" from ;? _) as [u|e]; [|done].
  destruct (prefer && cp_ficlone env from).
  - destruct (copy_call env "set reflink permissions" from); by intros [= <- <-].
  - destruct (copy_call env "reset copy destination" from ;? _); [|done].
    destruct (copy_call env "copy regular file" from); [|done]. simpl.
    destruct (blen (take _ contents) =? blen contents) eqn:El; [|done]. simpl.
    destruct (_ ;? copy_call env "set copy permissions" from); [|done].
    intros [= <- <-]. bools. by rewrite (take_blen _ _ El).
Qed.

Lemma entries_loop_same from es :
  Forall (λ row, ∀ p c s, copy_entries env prefer p (snd row) = (c, Ok s) →
            copied_whole env prefer p (snd row) c s) es →
  ∀ paths copied s,
  entries_loop (copy_entries env prefer) env from (summary_of env prefer paths) es = (copied, Ok s) →
  copied = es ∧ forallb (λ row, ordinary (snd row)) es = true ∧
  s = summary_of env prefer (paths ++ flat_map (λ row, regular_files (join from (fst row)) (snd row)) es).
Proof.
  induction 1 as [|[name n] es Hn _ IH]; intros paths copied s.
  { intros [= <- <-]. simpl. by rewrite app_nil_r. }
  rewrite entries_loop_cons. destruct (copy_call env "read copy entry" _ ;? _); [|done].
  destruct (copy_entries env prefer (join from name) n) as [c [one|e]] eqn:Ec; [|done].
  destruct (Hn _ _ _ Ec) as (-> & Ho & ->). simpl in Ho.
  rewrite summary_of_app.
  destruct (entries_loop _ env from _ es) as [rest r] eqn:El. intros [= <- ->].
  destruct (IH _ _ _ El) as (-> & Hes & ->). simpl. rewrite Ho, app_assoc. by split.
Qed.

Lemma copy_entries_same n from c s :
  copy_entries env prefer from n = (c, Ok s) → copied_whole env prefer from n c s.
Proof.
  unfold copied_whole. revert from c s.
  induction n as [b m|m es IH|t|] using node_tree_ind; intros from c s; simpl; [| |done..].
  - destruct (copy_regular_file env prefer from b m) as [c' [r|e]] eqn:Ef; [|done]. intros [= <- <-].
    apply copy_regular_file_same in Ef as [-> ->]. split; [done|]. split; [done|].
    unfold summary_of. simpl. by rewrite andb_true_r.
  - destruct (copy_call env "inspect copy directory" from ;? _); [|done].
    destruct (copy_call env "set copy directory permissions" from); [|done].
    destruct (copy_call env "read copy source" from); [|done].
    destruct (entries_loop _ env from no_files es) as [copied r] eqn:El. intros [= <- ->].
    apply (entries_loop_same from es IH []) in El as (-> & Hes & ->). by rewrite Hes.
Qed.

Context (Hcalm : calm_copy env).

Lemma copy_regular_file_total from contents mode :
  blen contents <= u64_max →
  copy_regular_file env prefer from contents mode
    = (Some (NFile contents mode), Ok (prefer && cp_ficlone env from)).
Proof.
  intros Hlen. unfold copy_regular_file, copy_bounded. rewrite Hstable.
  unfold same_file_identity. simpl. rewrite !copy_call_Ok by done. simpl.
  rewrite N.eqb_refl. simpl.
  destruct (prefer && _); [done|]. simpl.
  rewrite take_ge by (unfold saturating_add, blen in *; lia). by rewrite N.eqb_refl.
Qed.

Lemma copy_entries_total n from :
  ordinary n = true → sized n = true →
  copy_entries env prefer from n = (Some n, Ok (summary_of env prefer (regular_files from n))).
Proof.
  revert from. induction n as [b m|m es IH|t|] using node_tree_ind; intros from; simpl; [| |done..].
  - intros _ Hs%N.leb_le. rewrite copy_regular_file_total by done. simpl.
    unfold summary_of. simpl. by rewrite andb_true_r.
  - intros Ho Hs. rewrite !copy_call_Ok by done. simpl.
    assert (∀ paths, entries_loop (copy_entries env prefer) env from (summary_of env prefer paths) es
      = (es, Ok (summary_of env prefer
           (paths ++ flat_map (λ row, regular_files (join from (fst row)) (snd row)) es)))) as Hloop.
    { induction IH as [|[name n] es Hn _ IHes]; intros paths; simpl in *; [by rewrite app_nil_r|].
      apply andb_true_iff in Ho as [Ho1 Ho2], Hs as [Hs1 Hs2].
      rewrite !copy_call_Ok by done. simpl. rewrite Hn by done.
      change (?f (add_summary ?s ?t) es) with (entries_loop (copy_entries env prefer) env from (add_summary s t) es).
      rewrite summary_of_app, IHes by done. by rewrite app_assoc. }
    change no_files with (summary_of env prefer []). by rewrite (Hloop []).
Qed.

Lemma copy_mode_summary source n :
  (if (0 <? files (summary_of env true (regular_files source n)))
      && all_reflink (summary_of env true (regular_files source n)) then Reflink else Fallback)
  = copy_mode env source n.
Proof.
  unfold summary_of, copy_mode. simpl.
  assert (0 <? N.min (blen (regular_files source n)) u64_max = (0 <? blen (regular_files source n))) as ->; [|done].
  apply eq_true_iff_eq. rewrite !N.ltb_lt. unfold u64_max. lia.
Qed.
End Exact.

Lemma require_copy_pair_Ok env source destination n dest :
  require_copy_pair env source destination (Some n) dest = Ok tt →
  is_dir (Some n) = true ∧ path_exists env dest = false.
Proof.
  unfold require_copy_pair. destruct (copy_call env "inspect copy source" source); [|done]. simpl.
  rewrite res_bind_Ok. intros ([] & Hd & He). rewrite fail_if_Ok in Hd, He.
  by apply negb_false_iff in Hd.
Qed.

(** ** Copying a tree *)

(** A failed copy leaves the destination as it was, unless removing what was copied
    fails too. *)
Lemma copy_with_cleanup_Err env source destination prefer n dest copied e :
  path_exists env dest = false → copy_with_cleanup env source destination prefer n dest = (copied, Err e) →
  copied = dest ∨ cp_io env "remove failed copy destination" destination ≠ None ∧ copied = cp_left env.
Proof.
  unfold copy_with_cleanup, copy_root. intros Hex.
  destruct dest as [d|].
  - destruct (copy_call env "inspect copy directory" source ;? _) as [s|e'] eqn:E; [by res_inv|]. rewrite Hex. intros [= <- _]. by left.
  - destruct (copy_entries env prefer source n) as [c [s|e']] eqn:E; [done|].
    destruct (path_exists env c) eqn:Ep.
    + destruct (copy_call env "remove failed copy destination" destination) as [u|e''] eqn:Er; intros [= <- _]; [by left|].
      right. split; [|done]. unfold copy_call in Er. by destruct (cp_io _ _ _).
    + intros [= <- _]. left. destruct c as [c|]; [|done]. exfalso.
      assert (∀ t, copy_entries env prefer source n ≠ (Some (NSymlink t), Err e')) as Hno; [|destruct c as [| |t|]; [done|done|by destruct (Hno t)|done]].
      intros t. clear. destruct n; simpl; [| |done..].
      * unfold copy_regular_file, copy_bounded. repeat case_match; simpl; congruence.
      * repeat case_match; simpl; congruence.
Qed.

Lemma copy_with_cleanup_Ok env source destination prefer n dest copied s :
  stable env → copy_with_cleanup env source destination prefer n dest = (copied, Ok s) →
  dest = None ∧ copied_whole env prefer source n copied s.
Proof.
  intros Hs. unfold copy_with_cleanup, copy_root. destruct dest as [d|].
  - destruct (copy_call env "inspect copy directory" source ;? _) as [s'|e'] eqn:E; [by res_inv|].
    destruct (path_exists env _); [|done]. by destruct (copy_call env _ destination).
  - destruct (copy_entries env prefer source n) as [c [s'|e']] eqn:E.
    + intros [= <- <-]. split; [done|]. by apply copy_entries_same.
    + destruct (path_exists env _); [|done]. by destruct (copy_call env _ destination).
Qed.

(** The answer of a copy that succeeds. *)
Lemma copy_tree_Ok env source destination n dest copied mode :
  stable env → copy_tree_prefers_reflink env source destination n dest = (copied, Ok mode) →
  ∃ t, n = Some t ∧ dest = None ∧ copied = Some t ∧ is_dir (Some t) = true ∧ ordinary t = true ∧
    mode = copy_mode env source t.
Proof.
  intros Hs. unfold copy_tree_prefers_reflink.
  destruct (require_copy_pair env source destination n dest) as [[]|e] eqn:Er; [|done].
  destruct n as [n|]; [|done]. apply require_copy_pair_Ok in Er as [Hd Hex].
  destruct (copy_with_cleanup env source destination true n dest) as [c [s|e]] eqn:Ec; [|done].
  intros [= <- <-]. destruct (copy_with_cleanup_Ok _ _ _ _ _ _ _ _ Hs Ec) as (-> & -> & Ho & ->).
  exists n. by rewrite copy_mode_summary.
Qed.

(** C33: the copy of an object store is the store: a copy that succeeds went to an absent
    destination and leaves there exactly the source tree, permissions included, which has
    only regular files and directories; it reports a reflink exactly when there is a file
    and every file was cloned.  A copy that fails leaves the destination as it was, unless
    removing what had been copied fails too; and a copy in which no call fails succeeds on
    every tree of regular files and directories.  Files are assumed not to change between
    their inspection and their last read. *)
Theorem copy_tree_prefers_reflink_exact env source destination n dest copied r :
  stable env → copy_tree_prefers_reflink env source destination (Some n) dest = (copied, r) →
  match r with
  | Ok mode => dest = None ∧ copied = Some n ∧ is_dir (Some n) = true ∧ ordinary n = true ∧
      mode = copy_mode env source n
  | Err _ => copied = dest ∨
      cp_io env "remove failed copy destination" destination ≠ None ∧ copied = cp_left env
  end ∧
  (calm_copy env → dest = None → is_dir (Some n) = true → ordinary n = true → sized n = true →
   r = Ok (copy_mode env source n)).
Proof.
  intros Hs E. split.
  - destruct r as [mode|e].
    + destruct (copy_tree_Ok _ _ _ _ _ _ _ Hs E) as (t & [= <-] & H). tauto.
    + unfold copy_tree_prefers_reflink in E.
      destruct (require_copy_pair env source destination (Some n) dest) as [[]|e'] eqn:Er;
        [|injection E as <- _; by left].
      apply require_copy_pair_Ok in Er as [Hd Hex].
      destruct (copy_with_cleanup env source destination true n dest) as [c [s|e']] eqn:Ec; [done|].
      injection E as <- _. by eapply copy_with_cleanup_Err.
  - unfold copy_tree_prefers_reflink in E. intros Hc -> Hd Ho Hz. unfold require_copy_pair in E. rewrite copy_call_Ok in E by done. simpl in E.
    destruct n as [|mode es| |]; try done. simpl in E. unfold copy_with_cleanup, copy_root in E.
    rewrite (copy_entries_total env true Hs Hc) in E by done. simpl in E. injection E as _ <-.
    by rewrite <-copy_mode_summary.
Qed.

(** ** A concrete object store *)
Module ReflinkReference.

Definition objects : node :=
  NDir 493 [("ab", NDir 493 [("cdef", NFile [x01; x02] 292)]); ("info", NDir 493 []); ("pack", NDir 493 [])].

Definition host : copy_env := {|
  cp_io := λ _ _, None;
  cp_open := λ _ contents, {| of_identity := true; of_len := blen contents; of_stream := contents |};
  cp_ficlone := λ _, true; cp_written := 0; cp_resolves := false; cp_left := None |}.

(** The second file of a store cannot be opened. *)
Definition broken : copy_env := {|
  cp_io := λ context path, if String.eqb context "open copy source" && String.eqb path "/m/b"
                           then Some "Input/output error (os error 5)" else None;
  cp_open := cp_open host; cp_ficlone := λ _, false; cp_written := 1; cp_resolves := false; cp_left := None |}.

Example broken_copy_is_removed :
  copy_tree_prefers_reflink broken "/m" "/d" (Some (NDir 493 [("a", NFile [x61] 420); ("b", NFile [] 420)])) None
  = (None, Err (CapIo "open copy source: Input/output error (os error 5)")).
Proof. vm_compute. reflexivity. Qed.

Lemma copy_tree_prefers_reflink_exact_witness :
  copy_tree_prefers_reflink host "/m" "/d" (Some objects) None = (Some objects, Ok Reflink).
Proof.
  assert (stable host) as Hs by done. assert (calm_copy host) as Hc by done.
  destruct (copy_tree_prefers_reflink host "/m" "/d" (Some objects) None) as [copied r] eqn:E.
  destruct (copy_tree_prefers_reflink_exact host "/m" "/d" objects None copied r Hs E) as [Hr Htotal].
  rewrite (Htotal Hc eq_refl eq_refl eq_refl eq_refl) in Hr |- *.
  destruct Hr as (_ & Hcopied & _). rewrite Hcopied. vm_compute. reflexivity.
Defined.
End ReflinkReference.
