(* ===== verification/Mirror.v ===== *)
(** [crates/bullet-git-workspace/src/mirror.rs]: the exclusive lock of a repository's
    mirror ([sync_mirror], which takes it, is in [Clone]).

    The lock is a file that processes of several daemons create, read and remove.
    [advance] is one system call of one process, [fault] the error it may fail with;
    [lock_apply] interleaves the calls of any number of processes with the clock and
    with the start and the end of processes.  Times are in milliseconds. *)

From S2P Require Import Prelude Paths Decimal Digests Generation Capability SafeGit.

Definition LOCK_STALE_AFTER : N := 60000.
Definition LOCK_MAX_WAIT : N := 120000.

Definition mirror_name `{Blake3, HexCrate} (canon : string) : string :=
  to_hex (digest_of (as_bytes canon)) +:+ ".git".

(** [mirror_dir]; [canonicalize] is the reply for the source. *)
Definition mirror_dir `{Blake3, HexCrate} (root : string) (canonicalize : result string string)
    : result string CapabilityError :=
  let? canon := map_err (io_err "canonicalize source") canonicalize in
  Ok (join (join root "mirrors") (mirror_name canon)).

(** [lock_path] *)
Definition lock_path (mirror : string) : string :=
  match reverse (components mirror) with
  | name :: parent =>
      if String.eqb name ".." then absolute (components mirror ++ ["mirror.lock"])
      else absolute (reverse parent ++ [name +:+ ".lock"])
  | [] => absolute ["mirror.lock"]
  end.

(** ** The lock file *)

(** The file at the path of the lock: which one it is, the text in it, and when it
    was last modified. *)
Record lock_file : Type := { lf_id : N; lf_text : string; lf_modified : N }.

Record lock_world : Type := {
  lw_file : option lock_file;
  lw_next : N;                (** the next new file *)
  lw_now : N;
  lw_alive : gset N           (** the processes that [/proc] lists *)
}.

(** Where a process is in [MirrorLock::acquire], or in the life of its lock. *)
Inductive lock_pc : Type :=
  | Opening
  | Writing (id : N)          (** the file has been created, the pid not written *)
  | Holding (id : N)
  | Reading
  | Probing (holder : N)
  | Stating
  | Breaking
  | Waiting
  | Dropped
  | TimedOut
  | Failed (e : string).

Definition with_file (f : option lock_file) (w : lock_world) : lock_world :=
  {| lw_file := f; lw_next := lw_next w; lw_now := lw_now w; lw_alive := lw_alive w |}.
Definition create_file (w : lock_world) : lock_world :=
  {| lw_file := Some {| lf_id := lw_next w; lf_text := ""; lf_modified := lw_now w |};
     lw_next := lw_next w + 1; lw_now := lw_now w; lw_alive := lw_alive w |}.
(** A write through the descriptor of file [id]. *)
Definition write_file (id : N) (text : string) (w : lock_world) : lock_world :=
  match lw_file w with
  | Some f => if lf_id f =? id
              then with_file (Some {| lf_id := id; lf_text := text; lf_modified := lw_now w |}) w else w
  | None => w
  end.

(** The pid recorded in the file. *)
Definition holder_of (text : string) : option N := parse_u32 (trim text).

(** The next system call of [acquire] in process [pid], whose wait ends at
    [deadline], and of [drop]. *)
Definition advance (pid deadline : N) (fault : option string) (pc : lock_pc) (w : lock_world)
    : lock_world * lock_pc :=
  match pc with
  | Opening =>
      match fault, lw_file w with
      | Some e, _ => (w, Failed e)
      | None, None => (create_file w, Writing (lw_next w))
      | None, Some _ => (w, Reading)
      end
  | Writing id =>
      match fault with
      | Some _ => (w, Holding id)
      | None => (write_file id (u64_to_string pid) w, Holding id)
      end
  | Reading =>
      match fault, lw_file w with
      | None, Some f => (w, match holder_of (lf_text f) with Some holder => Probing holder | None => Stating end)
      | _, _ => (w, Stating)
      end
  | Probing holder => (w, if bool_decide (holder ∈ lw_alive w) then Waiting else Breaking)
  | Stating =>
      match fault, lw_file w with
      | None, Some f =>
          (w, if (lf_modified f <=? lw_now w) && (LOCK_STALE_AFTER <? lw_now w - lf_modified f)
              then Breaking else Waiting)
      | _, _ => (w, Waiting)
      end
  | Breaking => (match fault with Some _ => w | None => with_file None w end, Opening)
  | Waiting => (w, if deadline <=? lw_now w then TimedOut else Opening)
  | Holding id => (match fault with Some _ => w | None => with_file None w end, Dropped)
  | Dropped | TimedOut | Failed _ => (w, pc)
  end.

(** ** Processes *)

Record lock_farm : Type := {
  fl_world : lock_world;
  fl_procs : gmap N (N * lock_pc)      (** by pid, with the end of its wait *)
}.

Definition with_procs (w : lock_world) (procs : gmap N (N * lock_pc)) : lock_farm :=
  {| fl_world := w; fl_procs := procs |}.
Definition spawn (pid : N) (w : lock_world) : lock_world :=
  {| lw_file := lw_file w; lw_next := lw_next w; lw_now := lw_now w; lw_alive := {[pid]} ∪ lw_alive w |}.
Definition exit (pid : N) (w : lock_world) : lock_world :=
  {| lw_file := lw_file w; lw_next := lw_next w; lw_now := lw_now w; lw_alive := lw_alive w ∖ {[pid]} |}.
Definition at_time (now : N) (w : lock_world) : lock_world :=
  {| lw_file := lw_file w; lw_next := lw_next w; lw_now := now; lw_alive := lw_alive w |}.

(** A process starts to wait for the lock (pids are 32-bit and not in use), makes its
    next call, or ends wherever it is; and time passes. *)
Inductive lock_event : Type :=
  | Start (pid max_wait : N)
  | Act (pid : N) (fault : option string)
  | EndProcess (pid : N)
  | Tick (now : N).

Definition lock_apply (e : lock_event) (f : lock_farm) : option lock_farm :=
  let w := fl_world f in
  match e with
  | Start pid max_wait =>
      if (pid <=? u32_max) && bool_decide (fl_procs f !! pid = None)
      then Some (with_procs (spawn pid w) (<[pid := (lw_now w + max_wait, Opening)]> (fl_procs f)))
      else None
  | Act pid fault =>
      '(deadline, pc) ← fl_procs f !! pid;
      let '(w', pc') := advance pid deadline fault pc w in
      Some (with_procs w' (<[pid := (deadline, pc')]> (fl_procs f)))
  | EndProcess pid => Some (with_procs (exit pid w) (delete pid (fl_procs f)))
  | Tick now => if lw_now w <=? now then Some (with_procs (at_time now w) (fl_procs f)) else None
  end.

Fixpoint lock_run (events : list lock_event) (f : lock_farm) : option lock_farm :=
  match events with
  | [] => Some f
  | e :: events => lock_apply e f ≫= lock_run events
  end.

Definition idle_farm (now : N) : lock_farm :=
  {| fl_world := {| lw_file := None; lw_next := 0; lw_now := now; lw_alive := ∅ |}; fl_procs := ∅ |}.

(** The process believes it holds the lock. *)
Definition holds (f : lock_farm) (pid : N) : Prop :=
  ∃ deadline id, fl_procs f !! pid = Some (deadline, Writing id) ∨ fl_procs f !! pid = Some (deadline, Holding id).

(** A process ends only when the lock file does not name it and nobody has read its
    pid there, and nobody finds a file without a pid older than [LOCK_STALE_AFTER]. *)
Definition undisturbed (e : lock_event) (f : lock_farm) : Prop :=
  match e with
  | EndProcess pid =>
      (∀ file, lw_file (fl_world f) = Some file → holder_of (lf_text file) ≠ Some pid) ∧
      (∀ q deadline, fl_procs f !! q ≠ Some (deadline, Probing pid))
  | Act pid _ => ∀ deadline file, fl_procs f !! pid = Some (deadline, Stating) →
      lw_file (fl_world f) = Some file → lw_now (fl_world f) - lf_modified file <= LOCK_STALE_AFTER
  | _ => True
  end.

Inductive lock_reach (now : N) : lock_farm → Prop :=
  | lock_idle : lock_reach now (idle_farm now)
  | lock_next e f f' : lock_reach now f → lock_apply e f = Some f' → undisturbed e f → lock_reach now f'.

(** ** Lemmas *)

(** The text of a number is not trimmed. *)
Lemma first_some_None {A B} (f : A → option B) l : Forall (λ x, f x = None) l → first_some f l = None.
Proof. induction 1 as [|x l Hx _ IH]; simpl; [done|]. by rewrite Hx. Qed.

Lemma trim_by_None strip n s : strip s = None → trim_by strip n s = s.
Proof. intros Hs. destruct n; simpl; [done|]. by rewrite Hs. Qed.

Lemma trim_digits s : is_digits s = true → trim s = s.
Proof.
  intros Hs. assert (Forall (λ w, is_digits w = false) white_space) as Hw.
  { apply (bool_decide_unpack (Forall _ _)). vm_compute. exact I. }
  assert (∀ a b, s = a +:+ b → is_digits a = true ∧ is_digits b = true) as Hab.
  { intros a b ->. unfold is_digits in *. rewrite chars_all_app in Hs. by apply andb_true_iff in Hs. }
  assert (first_some (λ w, strip_prefix w s) white_space = None) as Hp.
  { apply first_some_None. eapply Forall_impl; [exact Hw|]. intros w Hwd.
    destruct (strip_prefix w s) as [r|] eqn:E; [|done]. apply strip_prefix_Some, Hab in E as [? ?]. congruence. }
  assert (first_some (λ w, strip_suffix w s) white_space = None) as Hq.
  { apply first_some_None. eapply Forall_impl; [exact Hw|]. intros w Hwd.
    destruct (strip_suffix w s) as [r|] eqn:E; [|done]. apply strip_suffix_Some, Hab in E as [? ?]. congruence. }
  unfold trim. rewrite (trim_by_None _ _ s) by exact Hp. by apply trim_by_None.
Qed.

Lemma holder_of_pid pid : pid <= u32_max → holder_of (u64_to_string pid) = Some pid.
Proof.
  intros Hpid. unfold holder_of. rewrite trim_digits by apply u64_to_string_digits. by apply parse_u32_to_string.
Qed.

(** What every process may rely on while no process ends and no file grows stale. *)
Record exclusive (f : lock_farm) : Prop := {
  ex_alive pid deadline pc : fl_procs f !! pid = Some (deadline, pc) → pid <= u32_max ∧ pid ∈ lw_alive (fl_world f);
  ex_file pid deadline pc id : fl_procs f !! pid = Some (deadline, pc) → pc = Writing id ∨ pc = Holding id →
    ∃ file, lw_file (fl_world f) = Some file ∧ lf_id file = id;
  ex_single p q : holds f p → holds f q → p = q;
  ex_probing pid deadline holder : fl_procs f !! pid = Some (deadline, Probing holder) → holder ∈ lw_alive (fl_world f);
  ex_calm pid deadline : fl_procs f !! pid ≠ Some (deadline, Breaking);
  ex_text file holder : lw_file (fl_world f) = Some file → holder_of (lf_text file) = Some holder →
    holder ∈ lw_alive (fl_world f)
}.

Lemma exclusive_idle now : exclusive (idle_farm now).
Proof.
  constructor; simpl; try done; try by intros ??? ?%lookup_empty_Some.
  intros p q (d & id & [Hp|Hp]); simpl in Hp; by apply lookup_empty_Some in Hp.
Qed.

(** A process moved on without touching the file. *)
Lemma exclusive_move f pid deadline pc pc' :
  exclusive f → fl_procs f !! pid = Some (deadline, pc) →
  (∀ id, pc' = Writing id ∨ pc' = Holding id → pc = Writing id ∨ pc = Holding id) →
  (∀ holder, pc' = Probing holder → holder ∈ lw_alive (fl_world f)) → pc' ≠ Breaking →
  exclusive (with_procs (fl_world f) (<[pid := (deadline, pc')]> (fl_procs f))).
Proof.
  intros [Ha Hf Hs Hp Hc Ht] Hpid Hhold Hprobe Hcalm.
  assert (∀ p, holds (with_procs (fl_world f) (<[pid := (deadline, pc')]> (fl_procs f))) p → holds f p) as Hback.
  { intros p (d & id & Hor). unfold holds. simpl in Hor. destruct (decide (p = pid)) as [->|Hne].
    - rewrite !lookup_insert_eq in Hor. exists deadline, id. rewrite Hpid.
      destruct (Hhold id) as [-> | ->]; [naive_solver|by left|by right].
    - rewrite !lookup_insert_ne in Hor by done. by exists d, id. }
  constructor; simpl; try done.
  - intros p d ? [[<- [= <- <-]]|[_ ?]]%lookup_insert_Some; eauto.
  - intros p d ? id [[<- [= <- <-]]|[_ ?]]%lookup_insert_Some Hid; [|eauto]. by eapply Hf; [|apply Hhold].
  - intros p q ?%Hback ?%Hback. by apply Hs.
  - intros p d ? [[<- [= <- ->]]|[_ ?]]%lookup_insert_Some; eauto.
  - intros p d [[<- [= <- ?]]|[_ ?]]%lookup_insert_Some; [done|]. by eapply Hc.
Qed.

Lemma holds_file f p : exclusive f → holds f p → ∃ file, lw_file (fl_world f) = Some file.
Proof.
  intros Hex (d & id & [Hp|Hp]); (destruct (ex_file _ Hex _ _ _ id Hp) as (file & Hf & _); [by auto|by exists file]).
Qed.

Lemma exclusive_create f pid deadline pc :
  exclusive f → fl_procs f !! pid = Some (deadline, pc) → lw_file (fl_world f) = None →
  exclusive (with_procs (create_file (fl_world f)) (<[pid := (deadline, Writing (lw_next (fl_world f)))]> (fl_procs f))).
Proof.
  intros Hex Hpid Hnone.
  assert (∀ p, ¬ holds f p) as Hnobody.
  { intros p Hp. apply holds_file in Hp as [file Hf]; [congruence|done]. }
  assert (∀ p, holds (with_procs (create_file (fl_world f))
    (<[pid := (deadline, Writing (lw_next (fl_world f)))]> (fl_procs f))) p → p = pid) as Honly.
  { intros p (d & id & Hor). simpl in Hor. destruct (decide (p = pid)) as [|Hne]; [done|].
    rewrite !lookup_insert_ne in Hor by done. destruct (Hnobody p). by exists d, id. }
  pose proof Hex as [Ha Hf Hs Hp Hc Ht]. constructor; simpl.
  - intros p d ? [[<- [= <- <-]]|[_ ?]]%lookup_insert_Some; eauto.
  - intros p d ? id [[<- [= <- <-]]|[Hne Hpd]]%lookup_insert_Some Hid; [destruct Hid as [[= <-]|[=]]; by eexists|].
    destruct (Hnobody p). exists d, id. by destruct Hid as [-> | ->]; [left|right].
  - by intros p q ->%Honly ->%Honly.
  - intros p d ? [[<- [= <-]]|[_ ?]]%lookup_insert_Some; eauto.
  - intros p d [[<- [=]]|[_ ?]]%lookup_insert_Some. by eapply Hc.
  - intros file holder [= <-]. by vm_compute.
Qed.

Lemma exclusive_write f pid deadline id :
  exclusive f → fl_procs f !! pid = Some (deadline, Writing id) →
  exclusive (with_procs (write_file id (u64_to_string pid) (fl_world f)) (fl_procs f)).
Proof.
  intros Hex Hpid. pose proof Hex as [Ha Hf Hs Hp Hc Ht].
  destruct (Hf _ _ _ id Hpid ltac:(by left)) as (file & Hfile & Hid).
  assert (write_file id (u64_to_string pid) (fl_world f)
    = with_file (Some {| lf_id := id; lf_text := u64_to_string pid; lf_modified := lw_now (fl_world f) |}) (fl_world f)) as ->.
  { unfold write_file. by rewrite Hfile, Hid, N.eqb_refl. }
  constructor; simpl; try done.
  - intros p d pc id' Hpd Hid'. destruct (Hf _ _ _ _ Hpd Hid') as (file' & Hfile' & <-). eexists. split; [done|].
    simpl. congruence.
  - intros file' holder [= <-]. simpl. destruct (Ha _ _ _ Hpid) as [Hle Halive].
    rewrite holder_of_pid by done. by intros [= <-].
Qed.

Lemma exclusive_drop f pid deadline id :
  exclusive f → fl_procs f !! pid = Some (deadline, Holding id) →
  exclusive (with_procs (with_file None (fl_world f)) (<[pid := (deadline, Dropped)]> (fl_procs f))).
Proof.
  intros Hex Hpid. pose proof Hex as [Ha Hf Hs Hp Hc Ht].
  assert (∀ p, holds f p → p = pid) as Honly by (intros p Hh; apply Hs; [done|]; exists deadline, id; by right).
  assert (∀ p d pc id', p ≠ pid → fl_procs f !! p = Some (d, pc) → ¬ (pc = Writing id' ∨ pc = Holding id')) as Hno.
  { intros p d pc id' Hne Hpd Hid. destruct Hne. apply Honly. exists d, id'. by destruct Hid as [-> | ->]; [left|right]. }
  constructor; simpl; try done.
  - intros p d ? [[<- [= <- <-]]|[_ ?]]%lookup_insert_Some; eauto.
  - intros p d ? id' [[<- [= <- <-]]|[Hne Hpd]]%lookup_insert_Some Hid; [by destruct Hid|]. by destruct (Hno p d _ id' ltac:(congruence) Hpd).
  - intros p q (d & id' & Hor) _. simpl in Hor. destruct (decide (p = pid)) as [->|Hne].
    + rewrite !lookup_insert_eq in Hor. by destruct Hor as [[=]|[=]].
    + rewrite !lookup_insert_ne in Hor by done.
      destruct Hor as [Hpd|Hpd]; exfalso; eapply (Hno p d _ id' Hne Hpd); [by left|by right].
  - intros p d ? [[<- [= <-]]|[_ ?]]%lookup_insert_Some; eauto.
  - intros p d [[<- [=]]|[_ ?]]%lookup_insert_Some. by eapply Hc.
Qed.

Lemma exclusive_act f pid deadline fault pc w' pc' :
  exclusive f → fl_procs f !! pid = Some (deadline, pc) →
  undisturbed (Act pid fault) f →
  advance pid deadline fault pc (fl_world f) = (w', pc') →
  exclusive (with_procs w' (<[pid := (deadline, pc')]> (fl_procs f))).
Proof.
  intros Hex Hpid Hfresh Hadv. pose proof Hex as [Ha Hf Hs Hp Hc Ht].
  destruct pc as [|id|id| |holder| | | | | |e]; simpl in Hadv.
  - destruct fault as [e|]; [injection Hadv as <- <-; apply (exclusive_move _ _ _ Opening); naive_solver|].
    destruct (lw_file (fl_world f)) as [file|] eqn:Ef; injection Hadv as <- <-.
    + apply (exclusive_move _ _ _ Opening); naive_solver.
    + by eapply exclusive_create.
  - destruct fault as [e|]; injection Hadv as <- <-; [apply (exclusive_move _ _ _ (Writing id)); naive_solver|].
    apply (exclusive_move (with_procs (write_file id (u64_to_string pid) (fl_world f)) (fl_procs f)) _ _ (Writing id));
      [by eapply exclusive_write|done|naive_solver..].
  - destruct fault as [e|]; injection Hadv as <- <-; [apply (exclusive_move _ _ _ (Holding id)); naive_solver|].
    by eapply exclusive_drop.
  - assert (w' = fl_world f ∧ ((∃ h, pc' = Probing h ∧ h ∈ lw_alive (fl_world f)) ∨ pc' = Stating)) as [-> Hpc].
    { destruct fault as [e|], (lw_file (fl_world f)) as [file|] eqn:Ef; try (injection Hadv as <- <-; by auto).
      destruct (holder_of (lf_text file)) as [h|] eqn:Eh; injection Hadv as <- <-; [|by auto].
      split; [done|]. left. exists h. split; [done|]. by eapply Ht. }
    apply (exclusive_move _ _ _ Reading); naive_solver.
  - injection Hadv as <- <-. rewrite bool_decide_eq_true_2 by (by eapply Hp).
    apply (exclusive_move _ _ _ (Probing holder)); naive_solver.
  - assert (w' = fl_world f ∧ pc' = Waiting) as [-> ->].
    { destruct fault as [e|], (lw_file (fl_world f)) as [file|] eqn:Ef; try by injection Hadv as <- <-.
      specialize (Hfresh deadline file Hpid Ef). injection Hadv as <- <-. split; [done|].
      assert (LOCK_STALE_AFTER <? lw_now (fl_world f) - lf_modified file = false) as -> by (by apply N.ltb_ge).
      by rewrite andb_false_r. }
    apply (exclusive_move _ _ _ Stating); naive_solver.
  - by destruct (Hc pid deadline).
  - injection Hadv as <- <-. apply (exclusive_move _ _ _ Waiting); [done|done|..]; destruct (deadline <=? _); naive_solver.
  - injection Hadv as <- <-. apply (exclusive_move _ _ _ Dropped); naive_solver.
  - injection Hadv as <- <-. apply (exclusive_move _ _ _ TimedOut); naive_solver.
  - injection Hadv as <- <-. apply (exclusive_move _ _ _ (Failed e)); naive_solver.
Qed.

Lemma exclusive_step e f f' : exclusive f → undisturbed e f → lock_apply e f = Some f' → exclusive f'.
Proof.
  intros Hex Hund Happ. pose proof Hex as [Ha Hf Hs Hp Hc Ht]. destruct e as [pid wait|pid fault|pid|now]; simpl in Happ.
  - destruct (pid <=? u32_max) eqn:Eu; [|done]. apply N.leb_le in Eu. simpl in Happ.
    case_bool_decide as Hnone; [|done]. injection Happ as <-.
    assert (∀ p, holds (with_procs (spawn pid (fl_world f))
      (<[pid := (lw_now (fl_world f) + wait, Opening)]> (fl_procs f))) p → holds f p) as Hback.
    { intros p (d & id & Hor). simpl in Hor. destruct (decide (p = pid)) as [->|Hne].
      - rewrite !lookup_insert_eq in Hor. by destruct Hor as [[=]|[=]].
      - rewrite !lookup_insert_ne in Hor by done. by exists d, id. }
    constructor; simpl.
    + intros p d ? [[<- [= <- <-]]|[_ Hpd]]%lookup_insert_Some; [set_solver|]. apply Ha in Hpd as [? ?]. set_solver.
    + intros p d ? id [[<- [= <- <-]]|[_ ?]]%lookup_insert_Some Hid; [by destruct Hid|]. by eapply Hf.
    + intros p q ?%Hback ?%Hback. by apply Hs.
    + intros p d ? [[<- [= <-]]|[_ Hpd]]%lookup_insert_Some. apply Hp in Hpd. set_solver.
    + intros p d [[<- [=]]|[_ ?]]%lookup_insert_Some. by eapply Hc.
    + intros file holder Hfile Hh. pose proof (Ht file holder Hfile Hh). set_solver.
  - apply bind_Some in Happ as ([deadline pc] & Hpid & Happ).
    destruct (advance pid deadline fault pc (fl_world f)) as [w' pc'] eqn:Eadv. injection Happ as <-.
    by eapply exclusive_act.
  - destruct Hund as [Htext Hprobe]. injection Happ as <-. constructor; simpl.
    + intros p d pc [Hne Hpd]%lookup_delete_Some. apply Ha in Hpd as [? ?]. set_solver.
    + intros p d pc id [Hne Hpd]%lookup_delete_Some. by eapply Hf.
    + intros p q (d & id & Hpd) (d' & id' & Hqd). simpl in Hpd, Hqd. rewrite !lookup_delete_Some in Hpd, Hqd.
      apply Hs; [exists d, id|exists d', id']; naive_solver.
    + intros p d h [Hne Hpd]%lookup_delete_Some. pose proof (Hp _ _ _ Hpd).
      assert (h ≠ pid) by (intros ->; by eapply Hprobe). set_solver.
    + intros p d [_ ?]%lookup_delete_Some. by eapply Hc.
    + intros file h Hfile Hh. pose proof (Ht _ _ Hfile Hh).
      assert (h ≠ pid) by (intros ->; by eapply Htext). set_solver.
  - destruct (_ <=? now); [|done]. injection Happ as <-. by constructor.
Qed.

Lemma reach_exclusive now f : lock_reach now f → exclusive f.
Proof. induction 1; [apply exclusive_idle|by eapply exclusive_step]. Qed.

(** The decidable form of [undisturbed], to run concrete schedules. *)
Definition undisturbed_b (e : lock_event) (f : lock_farm) : bool :=
  match e with
  | EndProcess pid =>
      match lw_file (fl_world f) with
      | Some file => negb (bool_decide (holder_of (lf_text file) = Some pid))
      | None => true
      end &&
      forallb (λ p, match snd (snd p) with Probing h => negb (h =? pid) | _ => true end) (map_to_list (fl_procs f))
  | Act pid _ =>
      match fl_procs f !! pid, lw_file (fl_world f) with
      | Some (_, Stating), Some file => lw_now (fl_world f) - lf_modified file <=? LOCK_STALE_AFTER
      | _, _ => true
      end
  | _ => true
  end.

Lemma undisturbed_b_spec e f : undisturbed_b e f = true → undisturbed e f.
Proof.
  destruct e as [pid wait|pid fault|pid|now]; simpl; try done.
  - intros Hb deadline file Hpid Hfile. rewrite Hpid, Hfile in Hb. by apply N.leb_le.
  - intros [Hfile Hall]%andb_true_iff. split.
    + intros file Hf. rewrite Hf in Hfile. apply negb_true_iff, bool_decide_eq_false in Hfile. done.
    + intros q deadline Hq%elem_of_map_to_list. rewrite forallb_forall in Hall. apply list_elem_of_In in Hq.
      specialize (Hall _ Hq). simpl in Hall. by rewrite N.eqb_refl in Hall.
Qed.

Fixpoint undisturbed_run (events : list lock_event) (f : lock_farm) : option lock_farm :=
  match events with
  | [] => Some f
  | e :: events => if undisturbed_b e f then lock_apply e f ≫= undisturbed_run events else None
  end.

Lemma undisturbed_run_reach now events f f' :
  lock_reach now f → undisturbed_run events f = Some f' → lock_reach now f'.
Proof.
  induction events as [|e events IH] in f |- *; simpl; [by intros ? [= <-]|]. intros Hr Hrun.
  destruct (undisturbed_b e f) eqn:Eu; [|done]. apply bind_Some in Hrun as (f1 & He & Hrun).
  eapply IH; [|done]. eapply lock_next; [done..|]. by apply undisturbed_b_spec.
Qed.

Lemma some_of {A} (o : option A) (d : A) : is_Some o → o = Some (default d o).
Proof. by intros [x ->]. Qed.

(** ** The theorems *)

(** C19: the mirror of a repository has at most one holder.  However the system calls of
    any number of processes that acquire, wait for and release the lock interleave, with
    errors of any of the calls and with processes starting and ending, two processes that
    both got past [acquire] and have not released are the same, and the file at the lock's
    path is the one it created; provided that no process ends while the lock file names it
    or while another has read its pid there and not yet probed it, even if it has released
    the lock by then, and that nobody inspects a lock file without a readable pid that is
    older than [LOCK_STALE_AFTER].  The proviso is needed: [lock_of_another_broken]. *)
Theorem mirror_lock_exclusive now f p q :
  lock_reach now f → holds f p → holds f q →
  p = q ∧ ∃ file deadline, lw_file (fl_world f) = Some file ∧
    (fl_procs f !! p = Some (deadline, Writing (lf_id file)) ∨ fl_procs f !! p = Some (deadline, Holding (lf_id file))).
Proof.
  intros Hex%reach_exclusive Hp Hq. split; [by eapply ex_single|].
  destruct Hp as (d & id & Hp).
  assert (∃ file, lw_file (fl_world f) = Some file ∧ lf_id file = id) as (file & Hfile & <-).
  { destruct Hp as [Hp|Hp]; (eapply ex_file; [done|exact Hp|]); auto. }
  by exists file, d.
Qed.

(** 5 gets the lock, 6 waits, 5 releases and ends, 6 gets it. *)
Definition handover : list lock_event :=
  [Start 5 LOCK_MAX_WAIT; Start 6 LOCK_MAX_WAIT; Act 5 None; Act 6 None; Act 5 None; Act 6 None; Act 6 None;
   Tick 25; Act 6 None; Act 5 None; EndProcess 5; Act 6 None; Act 6 None].

Lemma mirror_lock_exclusive_witness :
  ∃ f, holds f 6 ∧ (∀ q, holds f q → 6 = q).
Proof.
  pose proof (some_of (undisturbed_run handover (idle_farm 0)) (idle_farm 0) ltac:(eexists; vm_compute; reflexivity)) as Hrun.
  exists (default (idle_farm 0) (undisturbed_run handover (idle_farm 0))).
  assert (holds (default (idle_farm 0) (undisturbed_run handover (idle_farm 0))) 6) as H6.
  { exists 120000, 1. right. vm_compute. reflexivity. }
  split; [exact H6|]. intros q Hq.
  exact (proj1 (mirror_lock_exclusive 0 _ 6 q (undisturbed_run_reach 0 _ _ _ (lock_idle 0) Hrun) H6 Hq)).
Defined.

(** ** What the lock does not exclude *)

(** 6 reads the pid of 5 in the lock file; 5 releases the lock and ends; 7 acquires the
    lock; 6 finds that 5 is no more, removes the file of 7 and acquires the lock too. *)
Lemma lock_of_another_broken :
  (λ f, (fl_procs f !! 6, fl_procs f !! 7)) <$>
    lock_run [Start 5 LOCK_MAX_WAIT; Act 5 None; Act 5 None; Start 6 LOCK_MAX_WAIT; Act 6 None; Act 6 None;
              Act 5 None; EndProcess 5; Start 7 LOCK_MAX_WAIT; Act 7 None; Act 7 None;
              Act 6 None; Act 6 None; Act 6 None] (idle_farm 0)
  = Some (Some (LOCK_MAX_WAIT, Writing 2), Some (LOCK_MAX_WAIT, Holding 1)).
Proof. vm_compute. reflexivity. Qed.

(** A stale lock that cannot be removed is tried again and again: the process is never
    [Waiting], where alone the deadline is looked at. *)
Definition retry_step (s : lock_world * lock_pc) : lock_world * lock_pc :=
  advance 6 0 (match snd s with Breaking => Some "Permission denied" | _ => None end) (snd s) (fst s).

Lemma lock_retry_forever w file holder n :
  lw_file w = Some file → holder_of (lf_text file) = Some holder → holder ∉ lw_alive w →
  Nat.iter (4 * n) retry_step (w, Opening) = (w, Opening).
Proof.
  intros Hf Hh Hd. induction n as [|n IH]; [done|]. replace (4 * S n)%nat with (S (S (S (S (4 * n)))))%nat by lia.
  change (Nat.iter (S (S (S (S (4 * n))))) retry_step (w, Opening)) with
    (retry_step (retry_step (retry_step (retry_step (Nat.iter (4 * n) retry_step (w, Opening)))))). rewrite IH.
  unfold retry_step at 4. cbn [fst snd advance]. rewrite Hf.
  unfold retry_step at 3. cbn [fst snd advance]. rewrite Hf, Hh.
  unfold retry_step at 2. cbn [fst snd advance]. by rewrite bool_decide_eq_false_2.
Qed.
