(* ===== verification/Repository.v ===== *)
(** [crates/bullet-git-workspace/src/repository.rs] with [repository_ops.rs],
    [repository_guards.rs], [repository_helpers.rs], [repository_publish.rs], the
    accessors of [clone.rs] and [lineage.rs]: the writer over a private clone.  It
    composes the generation store, the durable journal, the immutable content
    store, the descriptor-relative application of a batch and the hardened Git.

    The state is a [site]: the work directory, the content store's directory and
    the writer's own fields.  Operations are scripts over it, so that every state
    they expose is a crash point.  The replies of the file system and of Git are
    the environment's, keyed by the call's context and path. *)

From S2P Require Import Prelude Digests Ids Proposal Candidate Lineage Journal Disk Cas Generation Capability Scope Apply SafeGit Reflink.

#[local] Open Scope script_scope.

#[export] Instance Checkpoint_eq_dec : EqDecision Checkpoint.
Proof. solve_decision. Defined.

(** ** Data *)

Record WorkspaceManifest : Type := {
  wm_attempt_id : string;
  wm_variant_id : string;
  wm_base_sha : GitOid;
  wm_branch : string;
  wm_created_at : string;
  wm_nonce_hex : string;
  wm_source_repo : string;
  wm_mirror_dir : string;
  wm_object_materialization : CopyMode;
  wm_repo_dir : string
}.

Record PrivateClone : Type := {
  pc_generations : GenerationStore;
  pc_runtime_dir : string;
  pc_manifest : WorkspaceManifest;
  pc_git : SafeGit
}.

Record CommitIdentity : Type := { ci_name : string; ci_email : string; ci_date : string }.

(** [CommitIdentity::farm], [CommitIdentity::env] *)
Definition farm (date : string) : CommitIdentity :=
  {| ci_name := "Bullet Farm"; ci_email := "farm@bullet.local"; ci_date := date |}.

Definition identity_env (i : CommitIdentity) : list (string * string) := [
  ("GIT_AUTHOR_NAME", ci_name i); ("GIT_AUTHOR_EMAIL", ci_email i); ("GIT_AUTHOR_DATE", ci_date i);
  ("GIT_COMMITTER_NAME", ci_name i); ("GIT_COMMITTER_EMAIL", ci_email i);
  ("GIT_COMMITTER_DATE", ci_date i)].

Record RealRepository : Type := {
  rr_workspace : PrivateClone;
  rr_grant : ScopeGrant;
  rr_expected : ExpectedAuthority;
  rr_identity : CommitIdentity;
  rr_journal : DurableJournal;
  rr_cas : ImmutableCas;
  rr_checkpoint_count : N;
  rr_healthy : bool;
  rr_lineage : LineageGraph
}.

Record site : Type := {
  st_work : wspace;
  st_cas : option cas_dir;       (** the [cas] directory of the runtime directory, when it exists *)
  st_sequence : N;               (** the process-wide counter of CAS staging names *)
  st_self : RealRepository
}.

(** What a path that goes through a symbolic link leads to. *)
Inductive walked : Type := Present (n : node) | Absent | NotDirectory.

Record repo_env : Type := {
  re_fs : string → string → option string;        (** the error of a call, by context and path *)
  re_through : string → walked;                   (** where a path through a symbolic link ends *)
  re_openat2 : string → option failure;           (** how [openat2] on a preimage fails *)
  re_canonicalize : string → result string string;
  re_resolves : string → bool;                    (** [Path::exists] on a symbolic link *)
  re_open : gen_env;
  re_stage : gen_env;
  re_publish : gen_env;
  re_journal : publish_env;
  re_kernel : kernel;
  re_cas_root : result string string;
  re_cas_scan : scan_env;
  re_put : nat → string → put_env;                (** of the n-th [put], by its destination *)
  re_get : string → string → option string * verify_io  (** of [get], by journal and object name *)
}.

(** ** Scripts over a site *)

Abbreviation cap_script := (script site CapabilityError).

Definition with_work (w : wspace) (s : site) : site :=
  {| st_work := w; st_cas := st_cas s; st_sequence := st_sequence s; st_self := st_self s |}.
Definition with_self (self : RealRepository) (s : site) : site :=
  {| st_work := st_work s; st_cas := st_cas s; st_sequence := st_sequence s; st_self := self |}.

Definition get_self {E} : script site E RealRepository := read (λ s, Ok (st_self s)).

Definition set_workspace (pc : PrivateClone) (r : RealRepository) : RealRepository :=
  {| rr_workspace := pc; rr_grant := rr_grant r; rr_expected := rr_expected r;
     rr_identity := rr_identity r; rr_journal := rr_journal r; rr_cas := rr_cas r;
     rr_checkpoint_count := rr_checkpoint_count r; rr_healthy := rr_healthy r;
     rr_lineage := rr_lineage r |}.
Definition set_journal (j : DurableJournal) (r : RealRepository) : RealRepository :=
  {| rr_workspace := rr_workspace r; rr_grant := rr_grant r; rr_expected := rr_expected r;
     rr_identity := rr_identity r; rr_journal := j; rr_cas := rr_cas r;
     rr_checkpoint_count := rr_checkpoint_count r; rr_healthy := rr_healthy r;
     rr_lineage := rr_lineage r |}.
Definition set_cas (c : ImmutableCas) (r : RealRepository) : RealRepository :=
  {| rr_workspace := rr_workspace r; rr_grant := rr_grant r; rr_expected := rr_expected r;
     rr_identity := rr_identity r; rr_journal := rr_journal r; rr_cas := c;
     rr_checkpoint_count := rr_checkpoint_count r; rr_healthy := rr_healthy r;
     rr_lineage := rr_lineage r |}.
Definition set_count (n : N) (r : RealRepository) : RealRepository :=
  {| rr_workspace := rr_workspace r; rr_grant := rr_grant r; rr_expected := rr_expected r;
     rr_identity := rr_identity r; rr_journal := rr_journal r; rr_cas := rr_cas r;
     rr_checkpoint_count := n; rr_healthy := rr_healthy r; rr_lineage := rr_lineage r |}.
Definition set_unhealthy (r : RealRepository) : RealRepository :=
  {| rr_workspace := rr_workspace r; rr_grant := rr_grant r; rr_expected := rr_expected r;
     rr_identity := rr_identity r; rr_journal := rr_journal r; rr_cas := rr_cas r;
     rr_checkpoint_count := rr_checkpoint_count r; rr_healthy := false;
     rr_lineage := rr_lineage r |}.
Definition set_lineage (g : LineageGraph) (r : RealRepository) : RealRepository :=
  {| rr_workspace := rr_workspace r; rr_grant := rr_grant r; rr_expected := rr_expected r;
     rr_identity := rr_identity r; rr_journal := rr_journal r; rr_cas := rr_cas r;
     rr_checkpoint_count := rr_checkpoint_count r; rr_healthy := rr_healthy r; rr_lineage := g |}.

Definition on_self (f : RealRepository → RealRepository) (s : site) : site := with_self (f (st_self s)) s.

(** [PrivateClone::publish_generation] replaces the store. *)
Definition set_generations (g : GenerationStore) (pc : PrivateClone) : PrivateClone :=
  {| pc_generations := g; pc_runtime_dir := pc_runtime_dir pc; pc_manifest := pc_manifest pc;
     pc_git := pc_git pc |}.
Definition with_store (g : GenerationStore) (r : RealRepository) : RealRepository :=
  set_workspace (set_generations g (rr_workspace r)) r.

(** ** Accessors ([clone.rs], [generation_store.rs]) *)

Definition store_of (r : RealRepository) : GenerationStore := pc_generations (rr_workspace r).

Definition generation_path (store : GenerationStore) (name : string) : string :=
  join (join (gs_work_dir store) GENERATIONS_DIR) name.

Definition active_dir (r : RealRepository) : string :=
  generation_path (store_of r) (gs_active_repo (store_of r)).

(** [repo_dir], [generation_checkpoint], [branch], [base_sha] *)
Definition repo_dir (r : RealRepository) : string := join (active_dir r) "repo".
Definition generation_checkpoint (r : RealRepository) : Checkpoint := gm_checkpoint (gs_active (store_of r)).
Definition branch (r : RealRepository) : string := wm_branch (pc_manifest (rr_workspace r)).
Definition base_sha (r : RealRepository) : string := oid_str (wm_base_sha (pc_manifest (rr_workspace r))).
Definition active_checkpoint (r : RealRepository) : Checkpoint := generation_checkpoint r.

(** [git_oid] *)
Definition git_oid (r : RealRepository) (hex : string) : result GitOid CapabilityError :=
  map_err from_types_error (oid_from_hex (oid_algorithm (wm_base_sha (pc_manifest (rr_workspace r)))) hex).

(** A tree of the generation directory [dir]. *)
Definition tree_in (dir name : string) (s : site) : option node :=
  child (generations_of (st_work s) !! dir) name.
Definition set_tree (dir name : string) (n : node) (s : site) : site :=
  with_work (with_generations (put_generation_child dir name n) (st_work s)) s.

(** [f] on the repository of [dir], and the tree it leaves. *)
Definition in_tree {A} (dir : string) (f : node → result A CapabilityError * node) : cap_script A :=
  exec n := read (λ s, Ok (tree_in dir "repo" s)) in
  match n with
  | None => lift (fst (f NSpecial))
  | Some n => step (set_tree dir "repo" (snd (f n))) ;; lift (fst (f n))
  end.

Definition active_tree (s : site) : node :=
  default NSpecial (tree_in (gs_active_repo (store_of (st_self s))) "repo" s).

(** ** Journals and objects of a site *)

Definition entry_of_node (n : node) : entry :=
  match n with NFile c _ => EFile c | _ => EOther end.

Definition JOURNAL_MODE : N := 420.

(** The entry of a journal directory as a node. *)
Definition place (old : option node) (e : entry) : node :=
  match e, old with
  | EFile c, Some (NFile _ mode) => NFile c mode
  | EFile c, _ => NFile c JOURNAL_MODE
  | EOther, (None | Some (NFile _ _)) => NSpecial
  | EOther, Some n => n
  end.

(** The entries of a journal directory; [read_dir] yields every name once. *)
Definition listing_map (n : option node) : dir :=
  match n with
  | Some (NDir _ es) => list_to_map (map (λ row, (fst row, entry_of_node (snd row))) es)
  | _ => ∅
  end.
Definition listing (n : option node) : list (string * entry) := map_to_list (listing_map n).

Definition write_back (d : dir) (n : node) : node :=
  match n with
  | NDir mode es => NDir mode (map_to_list (map_imap (λ name e, Some (place (entry_of es name) e)) d))
  | n => n
  end.

Section Repository.
Context `{Blake3, HexCrate, StrDebug, GenerationCodec, BatchCodec, CapabilityText, GitBinary, Unicode,
  CharCase, TokenDecoder}.

Definition journal_meta (env : repo_env) (path : string) (n : option node) : dir_meta :=
  match re_fs env "inspect journal" path with
  | Some e => MetaError e
  | None => match n with
            | Some (NDir _ _) => MetaDirectory
            | Some _ => MetaOther
            | None => MetaMissing
            end
  end.

(** [DurableJournal::open] on the journal of the generation directory [dir]; a
    missing directory is created. *)
Definition open_journal (env : repo_env) (dir path : string) : script site JournalError DurableJournal :=
  exec n := read (λ s, Ok (tree_in dir "journal" s)) in
  let journal := join path "journal" in
  let meta := journal_meta env journal n in
  match meta, re_fs env "create journal" journal with
  | MetaMissing, None => step (set_tree dir "journal" (NDir DIR_MODE []))
  | _, _ => script_ret tt
  end ;;
  lift (journal_open meta (re_fs env "create journal" journal) (re_fs env "sync journal directory" journal)
          (re_fs env "sync journal directory" path) (listing n)).

(** [stage_journal.record_batch] on that directory. *)
Definition record_batch_in (env : repo_env) (dir : string) (j : DurableJournal)
    (mutations : list JournalMutation) : script site JournalError DurableJournal := λ s,
  match tree_in dir "journal" s with
  | Some (NDir m es) =>
      let '(trace, j', r) := record_batch (re_journal env) j (listing_map (Some (NDir m es))) mutations in
      (map (λ d, set_tree dir "journal" (write_back d (NDir m es)) s) trace,
       match r with Ok _ => Ok j' | Err e => Err e end)
  | _ => ([], Err (journal_io "create journal staging file" not_found))
  end.

(** One operation in [validate_journal_objects]. *)
Definition validate_op_objects (env : repo_env) (path : string) (d : cas_dir) (cas : ImmutableCas)
    (op : JournalOp) : result unit CapabilityError :=
  try_for (λ digest,
    let '(inspect, io) := re_get env path (to_hex digest) in
    let? found := map_err CapContentStore (get inspect io d cas digest) in
    fail_if (negb (bool_decide (is_Some found)))
      (CapContentStore (CasCorrupt ("journal sequence " +:+ u64_to_string (jo_seq op)
         +:+ " references missing object " +:+ to_hex digest))))
    (option_list (jo_before op) ++ option_list (jo_after op)).

Definition cas_of (s : site) : cas_dir := default ∅ (st_cas s).

(** [validate_journal_objects] *)
Definition validate_journal_objects (env : repo_env) (path : string) (cas : ImmutableCas)
    (ops : Journal) : cap_script unit :=
  read (λ s, try_for (validate_op_objects env path (cas_of s) cas) ops).

(** [self.cas.put] of the [n]-th object of a batch. *)
Definition put_object (env : repo_env) (n : nat) (contents : bytes) : cap_script Digest := λ s,
  let env := re_put env n (to_hex (cas_digest contents)) in
  let '(trace, (cas, sequence), r) := put env (cas_of s) (st_sequence s) (rr_cas (st_self s)) contents in
  let seen d := {| st_work := st_work s; st_cas := Some d; st_sequence := st_sequence s;
                   st_self := st_self s |} in
  let final := {| st_work := st_work s;
                  st_cas := match trace with [] => st_cas s | _ => Some (left_in (cas_of s) trace) end;
                  st_sequence := sequence; st_self := set_cas cas (st_self s) |} in
  (map seen trace ++ [final],
   match r with Ok stored => Ok (cput_digest stored) | Err e => Err (CapContentStore e) end).

(** [open_workspace_cas] *)
Definition open_workspace_cas (env : repo_env) (runtime_dir : string) : cap_script ImmutableCas :=
  let root := join runtime_dir "cas" in
  let call context path := match re_fs env context path with
                           | Some e => Err (io_err context e)
                           | None => Ok tt
                           end in
  lift (call "inspect workspace CAS" root) ;;
  exec present := read (λ s, Ok (st_cas s)) in
  match present with
  | Some _ => script_ret tt
  | None =>
      lift (call "create workspace CAS" root) ;;
      step (λ s, {| st_work := st_work s; st_cas := Some ∅; st_sequence := st_sequence s;
                    st_self := st_self s |}) ;;
      lift (call "secure workspace CAS" root) ;;
      lift (call "sync workspace runtime" runtime_dir)
  end ;;
  read (λ s, map_err CapContentStore
    (cas_open (re_cas_scan env) (re_cas_root env)
       (Ok (map (λ row, Ok (Some (fst row), snd row)) (map_to_list (cas_of s))))
       (re_fs env "sync CAS directory" root))).

(** ** Guards ([repository_guards.rs]) *)

Definition guard (env : repo_env) : cap_script unit :=
  exec self := get_self in
  in_tree (gs_active_repo (store_of self))
    (guard_repository (re_fs env "inspect") (re_canonicalize env) (pc_git (rr_workspace self)) (repo_dir self)).

Definition require_healthy (r : RealRepository) : result unit CapabilityError :=
  fail_if (negb (rr_healthy r))
    (CapGeneration (GenOutcomeUnknown "writer must reopen after an indeterminate generation switch")).

(** The loop of [symlink_check] on a tree; an inspection that fails ends it. *)
Fixpoint symlink_from (env : repo_env) (normalized current : string) (n : node) (segments : list string)
    : result unit CapabilityError :=
  match segments with
  | [] => Ok tt
  | segment :: segments =>
      let current := join current segment in
      match re_fs env "stat" current, n with
      | None, NDir _ es =>
          match entry_of es segment with
          | Some (NSymlink _) => Err (CapSymlinkForbidden normalized)
          | Some m => symlink_from env normalized current m segments
          | None => Ok tt
          end
      | _, _ => Ok tt
      end
  end.

Definition symlink_check (env : repo_env) (repo : string) (tree : node) (normalized : string)
    : result unit CapabilityError :=
  symlink_from env normalized repo tree (split "/"%char normalized).

(** [symlink_metadata] of [repo/path]: the last component is not followed. *)
Fixpoint walk (through : walked) (n : node) (path : list string) : walked :=
  match path with
  | [] => Present n
  | c :: rest =>
      match n with
      | NDir _ es =>
          match entry_of es c with
          | None => Absent
          | Some (NSymlink t) => match rest with [] => Present (NSymlink t) | _ => through end
          | Some m => walk through m rest
          end
      | _ => NotDirectory
      end
  end.

Definition walk_path (env : repo_env) (repo : string) (tree : node) (path : string) : walked :=
  walk (re_through env (join repo path)) tree (split "/"%char path).

Definition is_file (n : node) : bool := match n with NFile _ _ => true | _ => false end.

Definition existing_file (env : repo_env) (repo : string) (tree : node) (path : string) : bool :=
  match re_fs env "stat" (join repo path), walk_path env repo tree path with
  | None, Present n => is_file n
  | _, _ => false
  end.

(** [validate_patches] *)
Definition validate_patches (env : repo_env) (grant : ScopeGrant) (repo : string) (tree : node)
    (patches : list PatchHunk) : result (list string) CapabilityError :=
  let? normalized := validate_batch grant patches (existing_file env repo tree) in
  try_for (symlink_check env repo tree) normalized ;?
  Ok normalized.

(** [proposal_patches] *)
Definition proposal_patches (p : PatchProposal) : list PatchHunk :=
  map (λ op, match op_mutation op with
             | MutWrite content => hunk_write (path_str (op_path op)) (as_bytes content)
             | MutDelete => hunk_delete (path_str (op_path op))
             end) (pp_operations p).

Definition require_proposal_attempt (r : RealRepository) (p : PatchProposal) : result unit CapabilityError :=
  fail_if (negb (String.eqb (as_str (pp_producing_attempt_id p)) (ea_attempt_id (rr_expected r))))
    (CapProposalAttemptMismatch (ea_attempt_id (rr_expected r)) (as_str (pp_producing_attempt_id p))).

Definition require_proposal_checkpoint (p : PatchProposal) (active : Checkpoint)
    : result unit CapabilityError :=
  fail_if (negb (bool_decide (pp_base_checkpoint_id p = ckp_id active)
                 && bool_decide (pp_base_checkpoint_digest p = ckp_digest active)))
    (CapStaleCheckpoint ("expected " +:+ as_str (ckp_id active) +:+ ":" +:+ to_hex (ckp_digest active)
       +:+ ", found " +:+ as_str (pp_base_checkpoint_id p) +:+ ":"
       +:+ to_hex (pp_base_checkpoint_digest p))).

(** [read_proposal_file_nofollow] ([repository_helpers.rs]), on Linux. *)
Definition read_proposal_file_nofollow (env : repo_env) (repo : string) (tree : node) (path : string)
    : result (option bytes) CapabilityError :=
  match re_fs env "open proposal repository root" repo with
  | Some e => Err (CapIo ("open proposal repository root: " +:+ e))
  | None =>
      fail_if (negb (is_dir (Some tree))) (CapIo ("open proposal repository root: " +:+ not_a_directory))
  end ;?
  match re_openat2 env path with
  | Some _ => Err (CapStalePreimage path)
  | None =>
      match look true tree (split "/"%char path) with
      | Err NOENT => Ok None
      | Err _ => Err (CapStalePreimage path)
      | Ok (NFile contents _) =>
          match re_fs env "inspect proposal preimage descriptor" path with
          | Some e => Err (io_err "inspect proposal preimage descriptor" e)
          | None => Ok tt
          end ;?
          match re_fs env "read proposal preimage descriptor" path with
          | Some e => Err (io_err "read proposal preimage descriptor" e)
          | None => Ok tt
          end ;?
          fail_if (MAX_CAS_OBJECT_BYTES <? blen contents)
            (CapContentStore (CasObjectTooLarge MAX_CAS_OBJECT_BYTES
               (N.min (MAX_CAS_OBJECT_BYTES + 1) (blen contents)))) ;?
          Ok (Some contents)
      | Ok _ =>
          match re_fs env "inspect proposal preimage descriptor" path with
          | Some e => Err (io_err "inspect proposal preimage descriptor" e)
          | None => Err (CapStalePreimage path)
          end
      end
  end.

(** One operation in [require_proposal_preimages]. *)
Definition require_preimage (env : repo_env) (repo : string) (tree : node)
    (row : PatchOperation * string) : result (option bytes) CapabilityError :=
  let '(operation, path) := row in
  let? current := read_proposal_file_nofollow env repo tree path in
  match op_preimage operation, current with
  | PreAbsent, None => Ok None
  | PreDigest digest, Some b =>
      if bool_decide (digest_of b = digest) then Ok (Some b) else Err (CapStalePreimage path)
  | _, _ => Err (CapStalePreimage path)
  end.

Definition require_proposal_preimages (env : repo_env) (repo : string) (tree : node) (p : PatchProposal)
    (normalized : list string) : result (list (option bytes)) CapabilityError :=
  try_map (require_preimage env repo tree) (zip (pp_operations p) normalized).

(** [status_scan] *)
Definition status_entries (stdout : bytes) : list StatusEntry :=
  omap parse_status_line (lines (from_utf8_lossy stdout)).

(** A command of the workspace's Git on the repository of [dir]. *)
Definition git_at (env : repo_env) (dir repo : string) (args : list string) (extra : list (string * string))
    : cap_script bytes :=
  exec self := get_self in
  in_tree dir (git_run (re_fs env "inspect") (pc_git (rr_workspace self)) (Some repo) Never args extra).

Definition status_scan (env : repo_env) : cap_script (list StatusEntry) :=
  exec self := get_self in
  exec out := git_at env (gs_active_repo (store_of self)) (repo_dir self)
                ["status"; "--porcelain=v2"; "--untracked-files=all"] [] in
  script_ret (status_entries out).

Definition require_private_branch (env : repo_env) : cap_script unit :=
  exec self := get_self in
  exec head := in_tree (gs_active_repo (store_of self))
                 (head_state (re_fs env "inspect") (pc_git (rr_workspace self)) (repo_dir self)) in
  lift (match head with
        | Branch name => fail_if (negb (String.eqb name (branch self))) (CapWrongBranch (branch self) name)
        | Detached => Err (CapWrongBranch (branch self) "(detached)")
        end).

(** ** Publication ([repository_publish.rs]) *)

(** [write_tree_checkpoint] of the repository of [dir]; the index file it asks
    Git to use is outside every tree and removed at the end. *)
Definition write_tree_checkpoint (env : repo_env) (dir repo : string) (ops : Journal)
    : cap_script Checkpoint :=
  exec self := get_self in
  exec count := lift (ok_or (checked_add (rr_checkpoint_count self) 1)
                       (CapGeneration (GenCorrupt "checkpoint counter overflow"))) in
  step (on_self (set_count count)) ;;
  let index_path := join (pc_runtime_dir (rr_workspace self))
                      ("generation-index-" +:+ u64_to_string count) in
  let index := [("GIT_INDEX_FILE", index_path)] in
  exec _read := git_at env dir repo ["read-tree"; "HEAD"] index in
  exec _add := git_at env dir repo ["add"; "-A"] index in
  exec tree := git_at env dir repo ["write-tree"] index in
  exec oid := lift (git_oid self (text tree)) in
  script_ret (bind_git_tree (checkpoint ops) oid).

(** [validate_active_checkpoint] *)
Definition validate_active_checkpoint (env : repo_env) : cap_script Checkpoint :=
  exec self := get_self in
  exec checkpoint := write_tree_checkpoint env (gs_active_repo (store_of self)) (repo_dir self)
                       (dj_ops (rr_journal self)) in
  lift (fail_if (negb (bool_decide (checkpoint = generation_checkpoint self)))
          (CapGeneration (GenCorrupt "active repository or journal does not match its generation manifest"))) ;;
  script_ret checkpoint.

(** The workspace is unhealthy from here on. *)
Definition refuse_writer {A} (e : CapabilityError) : cap_script A :=
  step (on_self set_unhealthy) ;; lift (Err e).

(** The end of [publish_stage]: the published journal is reopened. *)
Definition reopen_journal (env : repo_env) : cap_script unit :=
  exec self := get_self in
  exec opened := script_try (open_journal env (gs_active_repo (store_of self)) (active_dir self)) in
  match opened with
  | Err e => refuse_writer (CapGeneration (GenOutcomeUnknown
               ("published generation journal did not reopen: " +:+ journal_display e)))
  | Ok journal =>
      exec valid := script_try (validate_journal_objects env (join (active_dir self) "journal")
                                  (rr_cas self) (dj_ops journal)) in
      match valid with
      | Err e => refuse_writer (CapGeneration (GenOutcomeUnknown
                   ("published generation CAS validation failed: " +:+ capability_display e)))
      | Ok _ => step (on_self (set_journal journal))
      end
  end.

(** [publish_stage] *)
Definition publish_stage (env : repo_env) (stage : StagedGeneration) (checkpoint : Checkpoint)
    : cap_script unit :=
  exec self := get_self in
  exec published := script_try (script_in st_work with_work
                      (generation_publish (re_publish env) (store_of self) stage checkpoint)) in
  match published with
  | Err e => if generation_may_have_published e then refuse_writer (CapGeneration e)
             else lift (Err (CapGeneration e))
  | Ok store => step (on_self (with_store store)) ;; reopen_journal env
  end.

(** The directories that lead to [location], and the node there. *)
Definition rooted (location : list string) (n : node) : node :=
  foldr (λ name n, NDir DIR_MODE [(name, n)]) n location.
Definition at_location (location : list string) (t : node) : node :=
  match look true t location with Ok n => n | Err _ => t end.

Definition location_of (root : string) : list string := split "/"%char (trim_slashes root).

(** [apply_all] and [restore_all] on the repository staged at [root]. *)
Definition apply_staged (k : kernel) (root : string) (patches : list PatchHunk) (normalized : list string)
    (n : node) : result unit CapabilityError * node :=
  let location := location_of root in
  let '(r, w) := apply_batch k root location patches normalized
                   {| w_tree := rooted location n; w_calls := 0 |} in
  (r, at_location location (w_tree w)).

Definition stage_path (r : RealRepository) (stage : StagedGeneration) : string :=
  generation_path (store_of r) (sg_staging_dir stage).

(** [PrivateClone::stage_generation] *)
Definition stage_generation (env : repo_env) : cap_script StagedGeneration :=
  exec self := get_self in
  script_map_err CapGeneration (script_in st_work with_work
    (generation_stage (re_stage env) (store_of self))).

(** [publish_prepared_patches] *)
Definition publish_prepared_patches (env : repo_env) (patches : list PatchHunk) (normalized : list string)
    (mutations : list JournalMutation) : cap_script Checkpoint :=
  exec self := get_self in
  exec stage := stage_generation env in
  let dir := sg_staging_dir stage in
  let path := stage_path self stage in
  let repo := join path "repo" in
  exec journal := script_map_err from_journal_error (open_journal env dir path) in
  in_tree dir (apply_staged (re_kernel env) repo patches normalized) ;;
  exec journal := script_map_err from_journal_error (record_batch_in env dir journal mutations) in
  validate_journal_objects env (join path "journal") (rr_cas self) (dj_ops journal) ;;
  exec checkpoint := write_tree_checkpoint env dir repo (dj_ops journal) in
  publish_stage env stage checkpoint ;;
  script_ret checkpoint.

(** A refusal, or the panic of an [expect]. *)
Inductive fault : Type := Refused (e : CapabilityError) | Panicked (message : string).
Abbreviation fault_script := (script site fault).
Definition refusing {A} (m : cap_script A) : fault_script A := script_map_err Refused m.

Definition put_prior (env : repo_env) (n : nat) (prior : option bytes) : cap_script (option Digest) :=
  match prior with
  | None => script_ret None
  | Some b => exec digest := put_object env n b in script_ret (Some digest)
  end.

(** The mutation of one patch, the objects being put first: [n] counts them. *)
Definition journal_mutation (env : repo_env) (message : string) (n : nat) (path : string)
    (prior contents : option bytes) : fault_script JournalMutation :=
  exec before := refusing (put_prior env n prior) in
  match contents with
  | Some b => exec after := refusing (put_object env (S n) b) in
              script_ret (mutation_write path before after)
  | None => match before with
            | Some before => script_ret (mutation_delete path before)
            | None => lift (Err (Panicked message))
            end
  end.

Definition op_contents (op : PatchOperation) : option bytes :=
  match op_mutation op with MutWrite content => Some (as_bytes content) | MutDelete => None end.

(** The loop of [publish_proposal_patches]. *)
Fixpoint proposal_mutations (env : repo_env) (n : nat)
    (rows : list (PatchOperation * string * option bytes)) : fault_script (list JournalMutation) :=
  match rows with
  | [] => script_ret []
  | (op, path, prior) :: rows =>
      exec m := journal_mutation env "validated delete always has stable preimage bytes" n path prior
                  (op_contents op) in
      exec ms := proposal_mutations env (S (S n)) rows in
      script_ret (m :: ms)
  end.

(** [publish_proposal_patches] *)
Definition publish_proposal_patches (env : repo_env) (p : PatchProposal) (patches : list PatchHunk)
    (normalized : list string) (preimages : list (option bytes)) : fault_script Checkpoint :=
  exec mutations := proposal_mutations env 0 (zip (zip (pp_operations p) normalized) preimages) in
  refusing (publish_prepared_patches env patches normalized mutations).

(** The preimage [prepare_journal_mutations] reads. *)
Definition patch_preimage (env : repo_env) (repo : string) (tree : node) (path : string)
    : result (option bytes) CapabilityError :=
  let target := join repo path in
  match re_fs env "inspect patch preimage" target with
  | Some e => Err (io_err "inspect patch preimage" e)
  | None =>
      match walk_path env repo tree path with
      | Present (NFile contents _) =>
          match re_fs env "read patch preimage" target with
          | Some e => Err (io_err "read patch preimage" e)
          | None => Ok (Some contents)
          end
      | Present _ | Absent => Ok None
      | NotDirectory => Err (io_err "inspect patch preimage" not_a_directory)
      end
  end.

(** [prepare_journal_mutations] *)
Fixpoint prepare_journal_mutations (env : repo_env) (n : nat) (rows : list (PatchHunk * string))
    : fault_script (list JournalMutation) :=
  match rows with
  | [] => script_ret []
  | (patch, path) :: rows =>
      exec self := get_self in
      exec prior := refusing (read (λ s, patch_preimage env (repo_dir self) (active_tree s) path)) in
      exec m := journal_mutation env "validated delete always has before-state bytes" n path prior
                  (hunk_contents patch) in
      exec ms := prepare_journal_mutations env (S (S n)) rows in
      script_ret (m :: ms)
  end.

(** [publish_patches] *)
Definition publish_patches (env : repo_env) (patches : list PatchHunk) (normalized : list string)
    : fault_script Checkpoint :=
  exec mutations := prepare_journal_mutations env 0 (zip patches normalized) in
  refusing (publish_prepared_patches env patches normalized mutations).

(** ** Operations ([repository.rs], [repository_ops.rs]) *)

Definition read_tree (env : repo_env) (auth : AuthorityEnvelope) : cap_script (list string) :=
  exec self := get_self in
  lift (require_healthy self) ;;
  exec _token := lift (require (rr_expected self) auth) in
  guard env ;;
  exec out := git_at env (gs_active_repo (store_of self)) (repo_dir self) ["ls-files"] [] in
  script_ret (lines (from_utf8_lossy out)).

Definition apply_change (env : repo_env) (auth : AuthorityEnvelope) (patches : list PatchHunk)
    : fault_script unit :=
  exec self := get_self in
  exec normalized := refusing (
    lift (require_healthy self) ;;
    exec _token := lift (require (rr_expected self) auth) in
    guard env ;;
    read (λ s, validate_patches env (rr_grant self) (repo_dir self) (active_tree s) patches)) in
  exec _checkpoint := publish_patches env patches normalized in
  script_ret tt.

Definition proposal_admission (env : repo_env) (auth : AuthorityEnvelope) (p : PatchProposal)
    : cap_script (list PatchHunk * list string * list (option bytes)) :=
  exec self := get_self in
  lift (require_healthy self) ;;
  exec _token := lift (require (rr_expected self) auth) in
  guard env ;;
  lift (map_err CapProposal (validate_proposal p)) ;;
  lift (require_proposal_attempt self p) ;;
  exec active := validate_active_checkpoint env in
  lift (require_proposal_checkpoint p active) ;;
  let patches := proposal_patches p in
  exec normalized :=
    read (λ s, validate_patches env (rr_grant self) (repo_dir self) (active_tree s) patches) in
  exec preimages :=
    read (λ s, require_proposal_preimages env (repo_dir self) (active_tree s) p normalized) in
  script_ret (patches, normalized, preimages).

Definition apply_proposal (env : repo_env) (auth : AuthorityEnvelope) (p : PatchProposal)
    : fault_script Checkpoint :=
  exec admitted := refusing (proposal_admission env auth p) in
  let '(patches, normalized, preimages) := admitted in
  publish_proposal_patches env p patches normalized preimages.

(** [RealRepository::validate_proposal] *)
Definition validate_proposal_op (env : repo_env) (auth : AuthorityEnvelope) (p : PatchProposal)
    : cap_script unit :=
  exec _admitted := proposal_admission env auth p in script_ret tt.

(** [RealRepository::checkpoint] *)
Definition checkpoint_op (env : repo_env) (auth : AuthorityEnvelope) : cap_script Checkpoint :=
  exec self := get_self in
  lift (require_healthy self) ;;
  exec _token := lift (require (rr_expected self) auth) in
  guard env ;;
  read (λ s, sequencer_check (re_resolves env) (repo_dir self) (active_tree s)) ;;
  validate_active_checkpoint env.

Definition query_lineage (auth : AuthorityEnvelope) (id : ChangeId) : cap_script ChangeEvolution :=
  exec self := get_self in
  lift (require_healthy self) ;;
  exec _token := lift (require (rr_expected self) auth) in
  lift (map_err CapLineage (query (rr_lineage self) id)).

Definition record_evolution (auth : AuthorityEnvelope) (change : Change) (edge : EvolutionEdge)
    : cap_script unit :=
  exec self := get_self in
  lift (require_healthy self) ;;
  exec _token := lift (require (rr_expected self) auth) in
  exec g := lift (map_err CapLineage (record_change (rr_lineage self) change)) in
  step (on_self (set_lineage g)) ;;
  exec g := lift (map_err CapLineage (record_edge g (change_id change) edge)) in
  step (on_self (set_lineage g)).

(** ** Candidates *)

Context `{ScopeText, Jcs CandidateManifest, Jcs CandidateContentManifest}.

Definition require_candidate_field (field expected found : string) : result unit CapabilityError :=
  if String.eqb expected found then Ok tt else Err (CapCandidateSubjectMismatch field expected found).

Definition parse_paths (paths : list string) : result (list RepoPath) CapabilityError :=
  map_err CapProposal (try_map repo_path_parse paths).

(** [require_candidate_provenance] *)
Definition require_candidate_provenance (r : RealRepository) (token : WireAuthorityToken)
    (p : CandidateProvenance) (active : Checkpoint) (base : GitOid) : result unit CapabilityError :=
  map_err CapCandidateManifest (provenance_validate p) ;?
  require_candidate_field "producing_attempt_id" (ea_attempt_id (rr_expected r))
    (as_str (cp_producing_attempt_id p)) ;?
  require_candidate_field "attempt_fence" (u64_to_string (ea_attempt_fence (rr_expected r)))
    (u64_to_string (cp_attempt_fence p)) ;?
  require_candidate_field "variant_id" (wm_variant_id (pc_manifest (rr_workspace r)))
    (as_str (cp_variant_id p)) ;?
  require_candidate_field "authority_variant_id" (wt_variant_id token) (as_str (cp_variant_id p)) ;?
  require_candidate_field "base_checkpoint_id" (as_str (ckp_id active)) (as_str (cp_base_checkpoint_id p)) ;?
  require_candidate_field "base_commit" (oid_str base) (oid_str (cp_base_commit p)) ;?
  let? local_grant := parse_paths (allowed_prefixes (rr_grant r)) in
  fail_if (negb (bool_decide (cp_granted_scope p = local_grant)))
    (CapCandidateSubjectMismatch "granted_scope" (scope_text local_grant) (scope_text (cp_granted_scope p))).

Definition base_commit (r : RealRepository) : result GitOid CapabilityError :=
  map_err from_types_error (oid_new (base_sha r)).

Definition validate_candidate_preparation (env : repo_env) (auth : AuthorityEnvelope)
    (p : CandidateProvenance) : cap_script unit :=
  exec self := get_self in
  lift (require_healthy self) ;;
  exec token := lift (require (rr_expected self) auth) in
  guard env ;;
  read (λ s, sequencer_check (re_resolves env) (repo_dir self) (active_tree s)) ;;
  require_private_branch env ;;
  exec entries := status_scan env in
  exec _scope := lift (classify_scan (rr_grant self) entries) in
  exec active := validate_active_checkpoint env in
  exec base := lift (base_commit self) in
  lift (require_candidate_provenance self token p active base).

(** [commit_candidate] *)
Definition commit_candidate (env : repo_env) (dir repo : string) (change : Change)
    : cap_script (GitOid * GitOid) :=
  exec self := get_self in
  exec _add := git_at env dir repo ["add"; "-A"] [] in
  exec _commit := git_at env dir repo
    ["commit"; "--allow-empty"; "--no-verify"; "-m"; "bullet: candidate for " +:+ as_str (change_id change)]
    (identity_env (rr_identity self)) in
  exec head := git_at env dir repo ["rev-parse"; "HEAD"] [] in
  exec tree := git_at env dir repo ["rev-parse"; "HEAD^{tree}"] [] in
  lift (let? head := git_oid self (text head) in
        let? tree := git_oid self (text tree) in
        Ok (head, tree)).

(** The manifest [prepare_candidate] builds. *)
Definition candidate_manifest (p : CandidateProvenance) (change : Change) (base head tree : GitOid)
    (patch : bytes) (actual_scope : list RepoPath) : CandidateManifest := {|
  cm_schema_version := cp_schema_version p; cm_repository_id := cp_repository_id p;
  cm_change_id := change_id change; cm_producing_attempt_id := cp_producing_attempt_id p;
  cm_attempt_fence := cp_attempt_fence p; cm_work_package_id := cp_work_package_id p;
  cm_variant_id := cp_variant_id p; cm_plan_revision_id := cp_plan_revision_id p;
  cm_graph_revision_id := cp_graph_revision_id p;
  cm_base_checkpoint_id := cp_base_checkpoint_id p; cm_base_commit := base;
  cm_head_commit := head; cm_tree_oid := tree; cm_patch_digest := digest_of patch;
  cm_parent_candidate_ids := cp_parent_candidate_ids p; cm_granted_scope := cp_granted_scope p;
  cm_actual_scope := actual_scope; cm_context_capsule_id := cp_context_capsule_id p;
  cm_configuration_snapshot_id := cp_configuration_snapshot_id p;
  cm_policy_snapshot_id := cp_policy_snapshot_id p;
  cm_routing_snapshot_id := cp_routing_snapshot_id p;
  cm_environment_digest := cp_environment_digest p; cm_toolchain_digest := cp_toolchain_digest p |}.

Definition prepare_candidate (env : repo_env) (auth : AuthorityEnvelope) (change : Change)
    (p : CandidateProvenance) : cap_script Candidate :=
  validate_candidate_preparation env auth p ;;
  exec self := get_self in
  exec token := lift (require (rr_expected self) auth) in
  exec entries := status_scan env in
  exec actual_scope := lift (let? paths := classify_scan (rr_grant self) entries in parse_paths paths) in
  exec active := validate_active_checkpoint env in
  exec base := lift (base_commit self) in
  lift (require_candidate_provenance self token p active base) ;;
  exec stage := stage_generation env in
  let dir := sg_staging_dir stage in
  let path := stage_path self stage in
  let repo := join path "repo" in
  exec journal := script_map_err from_journal_error (open_journal env dir path) in
  exec commit := commit_candidate env dir repo change in
  let '(head, tree) := commit in
  exec patch := git_at env dir repo ["diff"; hex_of base +:+ ".." +:+ hex_of head] [] in
  exec candidate := lift (map_err CapCandidateManifest
    (from_manifest (candidate_manifest p change base head tree patch actual_scope)
       (ci_date (rr_identity self)))) in
  exec checkpoint := write_tree_checkpoint env dir repo (dj_ops journal) in
  publish_stage env stage checkpoint ;;
  script_ret candidate.

(** [RealRepository::new]; the fields [st_self] held before are not read. *)
Definition repository_new (env : repo_env) (workspace : PrivateClone) (grant : ScopeGrant)
    (expected : ExpectedAuthority) (identity : CommitIdentity) : cap_script unit :=
  let manifest := pc_manifest workspace in
  exec store := read (λ s, map_err CapGeneration
    (generation_open (re_open env) (st_work s) (gs_work_dir (pc_generations workspace))
       (wm_attempt_id manifest) (wm_nonce_hex manifest))) in
  let dir := gs_active_repo store in
  let path := generation_path store dir in
  exec journal := script_map_err from_journal_error (open_journal env dir path) in
  exec cas := open_workspace_cas env (pc_runtime_dir workspace) in
  validate_journal_objects env (join path "journal") cas (dj_ops journal) ;;
  step (with_self {| rr_workspace := set_generations store workspace; rr_grant := grant;
                     rr_expected := expected; rr_identity := identity; rr_journal := journal;
                     rr_cas := cas; rr_checkpoint_count := 0; rr_healthy := true; rr_lineage := [] |}) ;;
  guard env ;;
  require_private_branch env ;;
  exec _checkpoint := validate_active_checkpoint env in
  script_ret tt.
End Repository.
