(* ===== verification/Publication.v ===== *)
(** What the writer of [Repository] promises: the invariant of a site, what a
    reader finds after a crash at any point, and the crash-safe publication of a
    proposal ([repository_publish.rs], [repository_ops.rs]). *)

From S2P Require Import Prelude Digests Ids Proposal Candidate Lineage Journal Disk Cas Generation Capability Scope Apply SafeGit Repository.

(** ** Trees that differ in [.git] at most *)

Definition same_work (o o' : option node) : Prop :=
  is_dir o' = is_dir o ∧ ∀ name, name ≠ ".git" → child o' name = child o name.

#[export] Instance same_work_equiv : Equivalence same_work.
Proof.
  split.
  - by intros o.
  - intros o o' [Hd Hc]. split; [done|]. intros name Hn. by rewrite Hc.
  - intros o1 o2 o3 [Hd Hc] [Hd' Hc']. split; [congruence|]. intros name Hn. by rewrite Hc', Hc.
Qed.

Definition tree_file (o : option node) (p : list string) : option bytes := o ≫= λ n, file_at n p.

(** A path of the working tree: not the tree itself, not in [.git]. *)
Definition worktree_path (p : list string) : Prop :=
  match p with c :: _ => c ≠ ".git" | [] => False end.

Lemma tree_file_child o c p :
  tree_file o (c :: p) = match child o c with
                         | Some (NSymlink _) => None
                         | Some m => file_at m p
                         | None => None
                         end.
Proof.
  destruct o as [n|]; [|done]. unfold tree_file. simpl. rewrite file_at_cons. unfold step_to.
  destruct n; simpl; try done. by destruct (entry_of entries c) as [[]|].
Qed.

Lemma same_work_file o o' p : same_work o o' → worktree_path p → tree_file o' p = tree_file o p.
Proof. intros [_ Hc] Hp. destruct p as [|c p]; [done|]. rewrite !tree_file_child. by rewrite Hc. Qed.

(** The commands the repository runs change nothing but [.git]: [add], [commit],
    [read-tree] without [-u] and [write-tree] write objects, references and the
    index; the others report. *)
Definition observing_verbs : list string :=
  ["rev-parse"; "ls-files"; "status"; "symbolic-ref"; "read-tree"; "add"; "write-tree"; "commit"; "diff"; "bundle"].

Class GitLaws `{GitBinary} : Prop := git_keeps_work c verb t :
  verb ∈ observing_verbs → same_work (Some t) (Some (snd (binary_execute c verb t))).

Section GitTrees.
Context `{GitLaws}.

Lemma git_run_work inspect g repo fp args extra t :
  default "git" (head args) ∈ observing_verbs →
  same_work (Some t) (Some (snd (git_run inspect g repo fp args extra t))).
Proof.
  intros Hv. unfold git_run. destruct (command inspect g repo t fp) as [c|e]; [|done].
  pose proof (git_keeps_work (with_args (with_env c extra) args) _ t Hv) as Hw.
  by destruct (binary_execute _ _ t) as [[out|e] t'].
Qed.

Lemma head_state_work inspect g repo t :
  same_work (Some t) (Some (snd (head_state inspect g repo t))).
Proof.
  unfold head_state. destruct (command inspect g (Some repo) t Never) as [c|e]; [|done].
  pose proof (git_keeps_work (with_args c ["symbolic-ref"; "-q"; "HEAD"]) "symbolic-ref" t
                ltac:(by repeat constructor)) as Hw.
  by destruct (binary_execute _ _ t) as [[out|e] t'].
Qed.

Lemma guard_work inspect canonicalize g repo t :
  same_work (Some t) (Some (snd (guard_repository inspect canonicalize g repo t))).
Proof.
  unfold guard_repository. destruct (inspect _); [done|]. destruct (child _ _) as [entry|]; [|done].
  destruct (negb _); [done|].
  pose proof (git_run_work inspect g (Some repo) Never ["rev-parse"; "--show-toplevel"] [] t
                ltac:(by repeat constructor)) as Hw.
  by destruct (git_run _ _ _ _ _ _ t) as [out t'].
Qed.
End GitTrees.

(** ** Work directories *)

(** [w'] still serves every generation of [w]: the pointer, the manifests and the
    journals are the same and the repositories differ in [.git] at most. *)
Record stays (w w' : wspace) : Prop := {
  sy_dir : w_is_dir w' = w_is_dir w;
  sy_active : w_entries w' !! ACTIVE_FILE = w_entries w !! ACTIVE_FILE;
  sy_generations : is_Some (w_generations w');
  sy_entries : map_Forall gen_entry_ok (generations_of w');
  sy_old n name : is_Some (generations_of w !! generation_name n) → name ≠ "repo" →
    child (generations_of w' !! generation_name n) name = child (generations_of w !! generation_name n) name;
  sy_repo n : is_Some (generations_of w !! generation_name n) →
    same_work (child (generations_of w !! generation_name n) "repo")
              (child (generations_of w' !! generation_name n) "repo");
  sy_kept n : is_Some (generations_of w !! generation_name n) → is_Some (generations_of w' !! generation_name n)
}.

Section WorkDirectories.
Context `{Blake3, HexCrate, StrDebug, GenerationCodecLaws}.

Lemma keeps_stays w w' : keeps w w' → stays w w'.
Proof.
  intros []. constructor; try done.
  - intros n name [d Hd] _. by rewrite (kp_old _ _ Hd), Hd.
  - intros n [d Hd]. by rewrite (kp_old _ _ Hd), Hd.
  - intros n [d Hd]. by rewrite (kp_old _ _ Hd).
Qed.

Lemma stays_trans w w1 w2 : stays w w1 → stays w1 w2 → stays w w2.
Proof.
  intros [] []. constructor; try done; try congruence.
  - intros n name Hn Hname. rewrite sy_old1, sy_old0; auto.
  - intros n Hn. transitivity (child (generations_of w1 !! generation_name n) "repo"); auto.
  - auto.
Qed.

Lemma opens_stays w w' store : opens w store → stays w w' → opens w' store.
Proof.
  intros [Hdir [g Hg] Hent Hp (Hm & Hmc & Hmg) Ha Hn Hl Hname Hrepo Hjrn] [Kd Ka Kg Ke Ko Kr Kk].
  assert (∀ n x, child (generations_of w !! generation_name n) "manifest.json" = Some x →
            child (generations_of w' !! generation_name n) "manifest.json" = Some x) as Hchild.
  { intros n x Hx. rewrite Ko; [done| |done].
    by destruct (generations_of w !! generation_name n). }
  constructor; try done.
  - by rewrite Kd.
  - by rewrite Ka.
  - split; [|done]. destruct Hm as (b & mode & Hb & ?). exists b, mode. split; [|done]. by apply Hchild.
  - by eapply lineage_manifests.
  - rewrite Hname in *. destruct (generations_of w !! generation_name _) eqn:E; [|done].
    rewrite (proj1 (Kr _ (mk_is_Some _ _ E))). by rewrite E.
  - rewrite Hname in *. destruct (generations_of w !! generation_name _) eqn:E; [|done].
    rewrite Ko by done. by rewrite E.
Qed.

Lemma opens_width w store : opens w store → gm_generation (gs_active store) <= u64_max.
Proof.
  intros Ho. destruct (op_pointer _ _ Ho) as (p & (b & mode & _ & _ & Hd) & _ & <- & _).
  by eapply decode_pointer_width.
Qed.

(** The active generation directory, and a staging directory, being changed. *)
Lemma generations_of_put dir name c w :
  generations_of (with_generations (put_generation_child dir name c) w)
  = alter (λ d, put_child d name c) dir (generations_of w).
Proof.
  unfold generations_of, with_generations, put_generation_child. simpl.
  destruct (w_generations w); [done|]. simpl. by rewrite alter_empty.
Qed.

Lemma child_put_generation dir name c w dir' name' d :
  generations_of w !! dir = Some d → is_dir (Some d) = true →
  child (generations_of (with_generations (put_generation_child dir name c) w) !! dir') name'
  = if decide (dir' = dir ∧ name' = name) then Some c else child (generations_of w !! dir') name'.
Proof.
  intros Hd Hdir. rewrite generations_of_put. destruct (decide (dir' = dir)) as [->|Hne].
  - rewrite lookup_alter_eq, Hd. change (option_map _ (Some d)) with (Some (put_child d name c)).
    change ((λ d, put_child d name c) <$> Some d) with (Some (put_child d name c)).
    rewrite child_put_child by done. destruct (String.eqb_spec name name') as [->|Hn].
    + by rewrite decide_True.
    + rewrite decide_False; [done|]. intros [_ ?]. congruence.
  - rewrite lookup_alter_ne by done. rewrite decide_False; [done|]. by intros [? _].
Qed.

(** Whatever is put under a staging directory, or a same tree as a repository. *)
Lemma stays_put w w' dir name c d :
  stays w w' → generations_of w' !! dir = Some d →
  starts_with ".stage-" dir = true ∨ name = "repo" ∧ same_work (child (Some d) "repo") (Some c) →
  stays w (with_generations (put_generation_child dir name c) w').
Proof.
  intros [Kd Ka Kg Ke Ko Kr Kk] Hd Hcase.
  assert (is_dir (Some d) = true) as Hdir by apply (Ke _ _ Hd).
  assert (∀ n, generation_name n = dir → name = "repo" ∧ same_work (child (Some d) "repo") (Some c)) as Hgen.
  { intros n <-. destruct Hcase as [Hs|?]; [|done]. exfalso. by eapply generation_name_not_stage. }
  constructor; try done.
  - unfold with_generations. simpl. destruct Kg as [g ->]. by eexists.
  - rewrite generations_of_put. intros k v. rewrite lookup_alter_Some.
    intros [(<- & d' & Hd' & ->)|[_ Hk]]; [|by apply Ke].
    destruct (Ke _ _ Hd') as [? ?]. split; [done|]. by rewrite is_dir_put_child.
  - intros n name' Hn Hname. rewrite (child_put_generation _ _ _ _ _ _ d) by done.
    case_decide as Hc; [|by apply Ko]. destruct Hc as [E ->]. by apply Hgen in E as [-> _].
  - intros n Hn. rewrite (child_put_generation _ _ _ _ _ _ d) by done.
    case_decide as Hc; [|by apply Kr]. destruct Hc as [E <-].
    transitivity (child (Some d) "repo"); [|by apply (Hgen n)]. rewrite <- Hd, <- E. by apply Kr.
  - intros n Hn. rewrite generations_of_put, lookup_alter_is_Some. by apply Kk.
Qed.
End WorkDirectories.

(** ** Sites *)

Lemma run_get_self {E A} s (k : RealRepository → script site E A) I Q :
  run_spec s (k (st_self s)) I Q → run_spec s (script_bind get_self k) I Q.
Proof. intros Hk. apply run_bind_read; [done|]. by intros ? [= <-]. Qed.

Lemma keeps_to_self {E A} J (k : RealRepository → script site E A) P :
  (∀ s, J s → run_spec s (k (st_self s)) J (λ r s', J s' ∧ ∀ a, r = Ok a → P a s')) →
  keeps_to J (script_bind get_self k) P.
Proof. intros Hk s Hs. by apply run_get_self, Hk. Qed.

Definition cas_grows `{Blake3, HexCrate} (d d' : cas_dir) : Prop :=
  cas_valid d' ∧ ∀ name e, is_digest_name name = true → d !! name = Some e → d' !! name = Some e.

(** Every digest the operations name has its object. *)
Definition has_objects `{Blake3, HexCrate} (d : cas_dir) (ops : Journal) : Prop :=
  ∀ op digest, op ∈ ops → jo_before op = Some digest ∨ jo_after op = Some digest →
  ∃ c, d !! to_hex digest = Some (CFile c true) ∧ cas_digest c = digest.

(** A journal directory and the handle on it agree. *)
Definition journal_serves `{Blake3, HexCrate, BatchCodec} (n : option node) (j : DurableJournal) : Prop :=
  is_dir n = true ∧ journal_inv (listing_map n) j.

Section Sites.
Context `{Blake3, HexLaws, StrDebug, !GenerationCodec, !GenerationCodecLaws, !BatchCodec, !BatchCodecLaws}.

(** What every operation may rely on and leaves. *)
Record repo_inv (s : site) : Prop := {
  ri_opens : opens (st_work s) (store_of (st_self s));
  ri_journal : journal_serves (tree_in (gs_active_repo (store_of (st_self s))) "journal" s)
                 (rr_journal (st_self s));
  ri_cas : cas_valid (cas_of s);
  ri_lock : cas_lock_poisoned (rr_cas (st_self s)) = false;
  ri_objects : has_objects (cas_of s) (dj_ops (rr_journal (st_self s)))
}.

(** The handle but for the poison of the store and the checkpoint counter. *)
Definition same_handle (r r' : RealRepository) : Prop :=
  ∃ cas n, r' = set_count n (set_cas cas r) ∧ cas_lock_poisoned cas = false.

(** [s] serves everything that [s0] did, and its handle still says so. *)
Record quiet (s0 s : site) : Prop := {
  qu_stays : stays (st_work s0) (st_work s);
  qu_cas : cas_grows (cas_of s0) (cas_of s);
  qu_self : same_handle (st_self s0) (st_self s)
}.

Lemma quiet_refl s : repo_inv s → quiet s s.
Proof.
  intros [Ho _ Hc Hl _]. constructor.
  - eapply keeps_stays, keeps_refl, Ho.
  - by split.
  - exists (rr_cas (st_self s)), (rr_checkpoint_count (st_self s)). split; [|done]. by destruct (st_self s).
Qed.

Lemma quiet_handle s0 s : quiet s0 s →
  rr_workspace (st_self s) = rr_workspace (st_self s0) ∧ rr_grant (st_self s) = rr_grant (st_self s0) ∧
  rr_expected (st_self s) = rr_expected (st_self s0) ∧ rr_journal (st_self s) = rr_journal (st_self s0) ∧
  rr_healthy (st_self s) = rr_healthy (st_self s0) ∧ cas_lock_poisoned (rr_cas (st_self s)) = false.
Proof. by intros [_ _ (cas & n & -> & ?)]. Qed.

Lemma quiet_store s0 s : quiet s0 s → store_of (st_self s) = store_of (st_self s0).
Proof. intros Hq. unfold store_of. by rewrite (proj1 (quiet_handle _ _ Hq)). Qed.

Lemma active_generation w store : opens w store →
  is_Some (generations_of w !! gs_active_repo store) ∧
  gs_active_repo store = generation_name (gm_generation (gs_active store)).
Proof.
  intros Ho. split; [|apply Ho]. pose proof (op_repo _ _ Ho) as Hr.
  destruct (generations_of w !! gs_active_repo store); [by eexists|done].
Qed.

Lemma quiet_inv s0 s : repo_inv s0 → quiet s0 s → repo_inv s.
Proof.
  intros [Ho Hj Hc Hl Hobj] Hq. pose proof (quiet_store _ _ Hq) as Hst.
  pose proof (quiet_handle _ _ Hq) as (_ & _ & _ & Hjn & _ & Hlk). constructor; rewrite ?Hst, ?Hjn.
  - eapply opens_stays; [exact Ho|apply Hq].
  - unfold tree_in in *. pose proof (active_generation _ _ Ho) as [Hs Hn]. rewrite Hn in *.
    by rewrite (sy_old _ _ (qu_stays _ _ Hq)).
  - apply Hq.
  - done.
  - intros op digest Hop Hd. destruct (Hobj op digest Hop Hd) as (c & Hc1 & Hc2). exists c. split; [|done].
    apply (proj2 (qu_cas _ _ Hq)); [apply is_digest_name_to_hex|done].
Qed.

Lemma quiet_count s0 s n : quiet s0 s → quiet s0 (on_self (set_count n) s).
Proof.
  intros [Hs Hc (cas & m & Hh & Hl)]. constructor; [done..|]. exists cas, n. split; [|done].
  unfold on_self, with_self. simpl. by rewrite Hh.
Qed.

(** ** Git on a repository *)

(** [J] is kept by whatever Git does to the repository of [dir]. *)
Definition git_stable (J : site → Prop) (dir : string) : Prop := ∀ s, J s →
  (∀ n, J (on_self (set_count n) s)) ∧
  ∃ n, tree_in dir "repo" s = Some n ∧
    ∀ n', same_work (Some n) (Some n') → J (set_tree dir "repo" n' s).

Lemma in_tree_stable {A} J dir (f : node → result A CapabilityError * node) :
  git_stable J dir → (∀ n, same_work (Some n) (Some (snd (f n)))) →
  keeps_to J (in_tree dir f) (λ _ _, True).
Proof.
  intros Hg Hf s Hs. destruct (Hg s Hs) as (_ & n & Hn & Hput).
  apply run_bind_read; [done|]. intros ? [= <-]. rewrite Hn.
  assert (J (set_tree dir "repo" (snd (f n)) s)) by auto.
  apply run_bind_step; [done|]. by apply run_lift.
Qed.

Lemma quiet_stable s0 : repo_inv s0 → git_stable (quiet s0) (gs_active_repo (store_of (st_self s0))).
Proof.
  intros Hi0 s Hq. split; [intros n; by apply quiet_count|].
  pose proof (quiet_inv _ _ Hi0 Hq) as [Ho _ _ _ _]. rewrite (quiet_store _ _ Hq) in Ho.
  destruct (active_generation _ _ Ho) as [[d Hd] _]. pose proof (op_repo _ _ Ho) as Hr.
  unfold tree_in. destruct (child (generations_of (st_work s) !! _) "repo") as [n|] eqn:En; [|done].
  exists n. split; [done|]. intros n' Hw. destruct Hq as [Hs Hc Hh]. constructor; [|done..].
  eapply stays_put; [done|exact Hd|]. right. split; [done|]. rewrite Hd in En. by rewrite En.
Qed.
End Sites.

(** ** Guards and checkpoints *)

Section Guards.
Context `{Blake3, HexLaws, StrDebug, !GenerationCodec, !GenerationCodecLaws, !BatchCodec, !BatchCodecLaws,
  !CapabilityText, !GitBinary, !GitLaws, !Unicode, !CharCase, !TokenDecoder}.

Lemma git_at_stable J env dir repo args extra :
  git_stable J dir → default "git" (head args) ∈ observing_verbs →
  keeps_to J (git_at env dir repo args extra) (λ _ _, True).
Proof.
  intros Hg Hv. apply keeps_to_self. intros s Hs.
  eapply in_tree_stable; [done| |done]. intros n. by apply git_run_work.
Qed.

Lemma oid_from_hex_wf a hex o : oid_from_hex a hex = Ok o → oid_wf o.
Proof.
  unfold oid_from_hex. intros Hok. res_inv. apply negb_false_iff, is_lower_hex_true in Hr as [Hl Hlow].
  by exists a, hex.
Qed.

(** A checkpoint names exactly the operations it was asked to. *)
Lemma write_tree_checkpoint_spec J env dir repo ops :
  git_stable J dir →
  keeps_to J (write_tree_checkpoint env dir repo ops)
    (λ c _, ∃ oid, oid_wf oid ∧ c = bind_git_tree (checkpoint ops) oid).
Proof.
  intros Hg. apply keeps_to_self. intros s Hs.
  apply run_bind_lift; [done|]. intros count _.
  assert (J (on_self (set_count count) s)) as Hs' by (by apply Hg).
  apply run_bind_step; [done|]. revert Hs'. generalize (on_self (set_count count) s). clear Hs.
  change (keeps_to J (
    exec _read := git_at env dir repo ["read-tree"; "HEAD"] [("GIT_INDEX_FILE", join (pc_runtime_dir (rr_workspace (st_self s))) ("generation-index-" +:+ u64_to_string count))] in
    exec _add := git_at env dir repo ["add"; "-A"] [("GIT_INDEX_FILE", join (pc_runtime_dir (rr_workspace (st_self s))) ("generation-index-" +:+ u64_to_string count))] in
    exec tree := git_at env dir repo ["write-tree"] [("GIT_INDEX_FILE", join (pc_runtime_dir (rr_workspace (st_self s))) ("generation-index-" +:+ u64_to_string count))] in
    exec oid := lift (git_oid (st_self s) (text tree)) in
    script_ret (bind_git_tree (checkpoint ops) oid))%script
    (λ c _, ∃ oid, oid_wf oid ∧ c = bind_git_tree (checkpoint ops) oid)).
  apply keeps_to_then; [apply git_at_stable; [done|by repeat constructor]|]. intros _.
  apply keeps_to_then; [apply git_at_stable; [done|by repeat constructor]|]. intros _.
  apply keeps_to_then; [apply git_at_stable; [done|by repeat constructor]|]. intros tree.
  eapply keeps_to_bind; [by apply keeps_to_lift with (P := λ oid _, git_oid (st_self s) (text tree) = Ok oid)|].
  intros oid s' Hs' Hoid. apply run_ret. split; [done|]. intros ? [= <-]. exists oid. split; [|done].
  apply map_err_Ok in Hoid. by eapply oid_from_hex_wf.
Qed.

Section Active.
Context (s0 : site) (Hinv : repo_inv s0).

Lemma guard_spec env : keeps_to (quiet s0) (guard env) (λ _ _, True).
Proof.
  apply keeps_to_self. intros s Hs. rewrite (quiet_store _ _ Hs).
  eapply in_tree_stable; [by apply quiet_stable| |done]. intros n. apply guard_work.
Qed.

Lemma require_private_branch_spec env : keeps_to (quiet s0) (require_private_branch env) (λ _ _, True).
Proof.
  apply keeps_to_self. intros s Hs. rewrite (quiet_store _ _ Hs).
  apply (keeps_to_then (quiet s0)); [|intros ?; by apply keeps_to_lift|done].
  apply in_tree_stable; [by apply quiet_stable|]. intros n. apply head_state_work.
Qed.

Lemma status_scan_spec env : keeps_to (quiet s0) (status_scan env) (λ _ _, True).
Proof.
  apply keeps_to_self. intros s Hs. rewrite (quiet_store _ _ Hs).
  apply (keeps_to_then (quiet s0)); [|intros ?; by apply keeps_to_ret|done].
  apply git_at_stable; [by apply quiet_stable|by repeat constructor].
Qed.

(** The active checkpoint, once validated, is the one the manifest binds, over
    exactly the operations of the journal. *)
Lemma validate_active_checkpoint_spec env :
  keeps_to (quiet s0) (validate_active_checkpoint env)
    (λ c _, c = active_checkpoint (st_self s0) ∧
            ∃ oid, oid_wf oid ∧ c = bind_git_tree (checkpoint (dj_ops (rr_journal (st_self s0)))) oid).
Proof.
  apply keeps_to_self. intros s Hs. pose proof (quiet_handle _ _ Hs) as (Hw & _ & _ & Hj & _).
  rewrite (quiet_store _ _ Hs), Hj.
  refine (keeps_to_bind (quiet s0) _ _ _ _ _ _ s Hs); [by apply write_tree_checkpoint_spec, quiet_stable|].
  intros c s1 Hs1 Hc. apply run_bind_lift; [done|]. intros [] Hok. apply run_ret. split; [done|].
  intros ? [= <-]. split; [|done]. apply fail_if_Ok in Hok. bools. rewrite Hok.
  unfold generation_checkpoint, active_checkpoint, store_of. by rewrite Hw.
Qed.

End Active.
End Guards.

(** ** Objects and mutations *)

(** Another process that races a [put] leaves only valid objects. *)
Definition races_valid `{Blake3, HexCrate} (env : repo_env) : Prop :=
  ∀ n destination, race_valid (re_put env n destination) destination.

Lemma cas_grows_trans `{Blake3, HexCrate} d d1 d2 : cas_grows d d1 → cas_grows d1 d2 → cas_grows d d2.
Proof. intros [_ Hk] [Hv Hk']. split; [done|]. intros name e Hn He. by apply Hk', Hk. Qed.

(** The journal mutation a patch stands for, given the file it replaces. *)
Definition mutation_of `{Blake3} (path : string) (prior contents : option bytes) (m : JournalMutation) : Prop :=
  mut_path m = path ∧ mut_kind m = match contents with Some _ => KWrite | None => KDelete end ∧
  mut_before m = cas_digest <$> prior ∧ mut_after m = cas_digest <$> contents.

Section Objects.
Context `{Blake3, HexLaws, StrDebug, !GenerationCodec, !GenerationCodecLaws, !BatchCodec, !BatchCodecLaws}.
Context (s0 : site) (env : repo_env) (Hrace : races_valid env).

Lemma state_ok_grows destination d d' :
  is_digest_name destination = true → cas_valid d → state_ok destination d d' → cas_grows d d'.
Proof.
  intros Hdest _ [Hv Hp]. split; [done|]. intros name e Hname He.
  destruct (Hp name) as [->|[_ Hn]]; [by apply digest_not_staging|done|congruence].
Qed.

Lemma put_object_spec n contents :
  keeps_to (quiet s0) (put_object env n contents) (λ d _, d = cas_digest contents).
Proof.
  intros s Hs. unfold run_spec, put_object.
  destruct (put _ _ _ _ _) as [[trace [cas sequence]] r] eqn:Eput. simpl.
  pose proof (quiet_handle _ _ Hs) as (_ & _ & _ & _ & _ & Hlock).
  assert (Forall (cas_grows (cas_of s)) trace ∧ cas_lock_poisoned cas = false ∧
          (∀ p, r = Ok p → cput_digest p = cas_digest contents)) as (Htr & Hlk & Hok).
  { destruct (cas_poisoned (rr_cas (st_self s))) eqn:Ep.
    - unfold put, lock_operation, Cas.require_healthy in Eput. rewrite Hlock, Ep in Eput. simpl in Eput.
      simplify_eq. by split_and!.
    - eapply put_states in Eput as (Htr & Ho & Hlk); [|apply Hs|apply Hrace|done..]. split_and!; [|done|].
      + eapply Forall_impl; [exact Htr|]. intros d Hd.
        eapply state_ok_grows; [apply is_digest_name_to_hex|apply Hs|exact Hd].
      + intros p ->. by inversion Ho. }
  destruct Hs as [Hst Hc (cas0 & m & Hh & Hl)].
  assert (∀ d, cas_grows (cas_of s) d → cas_grows (cas_of s0) d) as Hg by (intros; by eapply cas_grows_trans).
  assert (quiet s0 {| st_work := st_work s;
            st_cas := match trace with [] => st_cas s | _ => Some (left_in (cas_of s) trace) end;
            st_sequence := sequence; st_self := set_cas cas (st_self s) |}) as Hfinal.
  { constructor; simpl; [done| |].
    - destruct trace as [|d0 tr] eqn:E; [exact Hc|]. rewrite <- E in *. unfold cas_of. simpl. apply Hg.
      unfold left_in. destruct (last trace) as [d1|] eqn:El; [|by rewrite E in El; apply last_None in El].
      apply last_Some_elem_of in El. rewrite Forall_forall in Htr. by apply Htr.
    - exists cas, m. split; [|done]. by rewrite Hh. }
  rewrite left_in_app, left_in_cons. unfold left_in. simpl. split.
  - apply Forall_app. split; [|by apply Forall_cons_2; [|apply Forall_nil_2]]. apply List.Forall_map.
    eapply Forall_impl; [exact Htr|]. intros d Hd. constructor; simpl; [done|by apply Hg|]. by exists cas0, m.
  - split; [done|]. intros d. destruct r as [p|]; [|done]. intros [= <-]. by apply Hok.
Qed.

Lemma put_prior_spec n prior :
  keeps_to (quiet s0) (put_prior env n prior) (λ d _, d = cas_digest <$> prior).
Proof.
  destruct prior as [b|]; [|by apply keeps_to_ret]. eapply keeps_to_bind; [apply put_object_spec|].
  intros d s Hs ->. apply run_ret. split; [done|]. by intros ? [= <-].
Qed.

(** A script whose every error is a refusal. *)
Definition no_panic {A} (m : script site fault A) : Prop :=
  ∀ s, quiet s0 s → ∀ message, snd (m s) ≠ Err (Panicked message).

Lemma refusing_no_panic {A} (m : script site CapabilityError A) : no_panic (refusing m).
Proof. intros s _ message. unfold refusing, script_map_err. by destruct (m s) as [t [a|e]]. Qed.

Lemma no_panic_bind {A B} (m : script site fault A) (k : A → script site fault B) P :
  keeps_to (quiet s0) m P → no_panic m →
  (∀ a s message, quiet s0 s → P a s → snd (k a s) ≠ Err (Panicked message)) → no_panic (script_bind m k).
Proof.
  intros Hm Hp Hk s Hs message. unfold script_bind. pose proof (Hm s Hs) as [_ Hq]. pose proof (Hp s Hs message) as Hpm.
  destruct (m s) as [t [a|e]]; simpl in *.
  - destruct Hq as [Hq Ha]. specialize (Hk a _ message Hq (Ha a eq_refl)). by destruct (k a _).
  - intros [= ->]. by apply Hpm.
Qed.

Lemma keeps_to_refusing {A} J (m : script site CapabilityError A) P :
  keeps_to J m P → keeps_to J (refusing m) P.
Proof. apply keeps_to_map_err. Qed.

(** A delete without a preimage is the only panic. *)
Lemma journal_mutation_spec message n path prior contents :
  (contents = None → is_Some prior) →
  keeps_to (quiet s0) (journal_mutation env message n path prior contents)
    (λ m _, mutation_of path prior contents m ∧ mutation_wf m) ∧
  no_panic (journal_mutation env message n path prior contents).
Proof.
  intros Hdel. unfold journal_mutation. split.
  - eapply keeps_to_bind; [apply keeps_to_refusing, put_prior_spec|]. intros before s Hs ->.
    destruct contents as [b|].
    + refine (keeps_to_bind (quiet s0) _ _ _ _ _ _ s Hs); [apply keeps_to_refusing, put_object_spec|].
      intros d s1 Hs1 ->. apply run_ret. split; [done|]. intros ? [= <-]. split; [done|]. left. eauto.
    + destruct prior as [b|]; [|by destruct (Hdel eq_refl)]. simpl. apply run_ret. split; [done|].
      intros ? [= <-]. split; [done|]. right. eauto.
  - eapply no_panic_bind; [apply keeps_to_refusing, put_prior_spec|apply refusing_no_panic|].
    intros before s message' Hs ->. destruct contents as [b|].
    + revert s Hs. change (∀ s, quiet s0 s → snd ((exec after := refusing (put_object env (S n) b) in
        script_ret (mutation_write path (cas_digest <$> prior) after))%script s) ≠ Err (Panicked message')).
      intros s Hs. eapply no_panic_bind; [apply keeps_to_refusing, put_object_spec|apply refusing_no_panic| |done].
      by intros.
    + destruct prior as [b|]; [by simpl|]. by destruct (Hdel eq_refl).
Qed.

Lemma proposal_mutations_spec n rows :
  Forall (λ row : PatchOperation * string * option bytes,
    op_contents (fst (fst row)) = None → is_Some (snd row)) rows →
  keeps_to (quiet s0) (proposal_mutations env n rows)
    (λ ms _, Forall2 (λ row m, mutation_of (snd (fst row)) (snd row) (op_contents (fst (fst row))) m) rows ms ∧
             Forall mutation_wf ms) ∧
  no_panic (proposal_mutations env n rows).
Proof.
  intros Hrows. revert n. induction Hrows as [|[[op path] prior] rows Hdel _ IH]; intros n; simpl.
  { split; [|by intros s _ message]. apply keeps_to_ret. intros s _. by split; constructor. }
  destruct (journal_mutation_spec "validated delete always has stable preimage bytes" n path prior
              (op_contents op) Hdel) as [Hm Hp].
  destruct (IH (S (S n))) as [Hms Hps]. split.
  - eapply keeps_to_bind; [exact Hm|]. intros m s Hs [Hmut Hwf].
    refine (keeps_to_bind (quiet s0) _ _ _ _ Hms _ s Hs). intros ms s1 Hs1 [Hall Hwfs].
    apply run_ret. split; [done|]. intros ? [= <-]. by split; constructor.
  - eapply no_panic_bind; [exact Hm|exact Hp|]. intros m s message Hs _.
    eapply no_panic_bind; [exact Hms|exact Hps| |done]. by intros.
Qed.
End Objects.

(** ** The patched tree *)

(** [new] is [old] with every patch applied at its path, and nothing else changed
    in the working tree. *)
Record patched (old new : option node) (patches : list PatchHunk) (normalized : list string) : Prop := {
  pd_rest p : worktree_path p → (∀ path, path ∈ normalized → p ≠ split "/"%char path) →
    tree_file new p = tree_file old p;
  pd_files : Forall2 (λ patch path, tree_file new (split "/"%char path) = hunk_contents patch)
    patches normalized
}.

Lemma patched_work o o' t t' patches normalized :
  Forall (λ path, worktree_path (split "/"%char path)) normalized →
  same_work o o' → patched o' t patches normalized → same_work t t' → patched o t' patches normalized.
Proof.
  intros Hw Ho [Hr Hf] Ht. constructor.
  - intros p Hp Hn. rewrite (same_work_file _ _ _ Ht Hp), Hr by done. by apply same_work_file.
  - rewrite Forall_forall in Hw. apply Forall2_same_length_lookup_2; [by eapply Forall2_length|].
    intros i patch path Hpatch Hpath. rewrite <- (Forall2_lookup_lr _ _ _ _ _ _ Hf Hpatch Hpath).
    apply same_work_file; [done|]. apply Hw. by eapply list_elem_of_lookup_2.
Qed.

Lemma look_rooted location n : is_dir (Some n) = true → look true (rooted location n) location = Ok n.
Proof.
  intros Hd. induction location as [|c location IH]; [done|]. simpl. rewrite String.eqb_refl.
  assert (is_dir (Some (rooted location n)) = true) as Hr by (by destruct location).
  by destruct (rooted location n).
Qed.

Lemma file_at_look t p q n : look true t p = Ok n → file_at t (p ++ q) = file_at n q.
Proof.
  intros Hp. unfold file_at. destruct (look true n q) as [m|e] eqn:E.
  - assert (look true t (p ++ q) = Ok m) as -> by (apply look_app; eauto). done.
  - destruct (look true t (p ++ q)) as [m|] eqn:E'; [|done].
    apply look_app in E' as (n' & Hn' & Hm). congruence.
Qed.

Section Applied.
Context `{StrDebug, CapabilityText} (k : kernel).

Lemma apply_staged_spec root patches normalized n r n' :
  trim_slashes root ≠ "" → is_dir (Some n) = true → NoDup normalized → length patches = length normalized →
  apply_staged k root patches normalized n = (r, n') →
  is_dir (Some n') = true ∧ (r = Ok tt → patched (Some n) (Some n') patches normalized).
Proof.
  intros Hroot Hdir Hnd Hlen Ha. unfold apply_staged in Ha. set (location := location_of root) in *.
  pose proof (apply_batch_spec k (rooted location n) root location patches normalized
                ltac:(by split) Hnd Hlen {| w_tree := rooted location n; w_calls := 0 |} eq_refl)
    as [[Hf Hd] Hr].
  destruct (apply_batch _ _ _ _ _ _) as [r0 w]. injection Ha as -> <-. simpl in *.
  assert (dir_at (w_tree w) location) as (mode & es & Hl).
  { apply Hd. pose proof (look_rooted location n Hdir) as Hl. destruct n; try done. by exists mode, entries. }
  unfold at_location. rewrite Hl. split; [done|]. intros ->. constructor.
  - intros p _ Hp. simpl. rewrite <- (file_at_look _ _ p _ Hl), Hf; [apply file_at_look, look_rooted, Hdir|].
    intros Hin. apply list_elem_of_fmap in Hin as (path & E & Hin). apply app_inv_head in E. by eapply Hp.
  - eapply Forall2_impl; [exact Hr|]. intros patch path E. simpl. by rewrite <- (file_at_look _ _ _ _ Hl).
Qed.
End Applied.

(** ** Journals as directories *)

Lemma entry_of_place old e : entry_of_node (place old e) = e.
Proof. by destruct e, old as [[]|]. Qed.

Lemma listing_map_write_back d n : is_dir (Some n) = true → listing_map (Some (write_back d n)) = d.
Proof.
  destruct n as [|m es| |]; try done. intros _. unfold listing_map. simpl.
  set (m' := map_imap _ d).
  assert (map (λ row : string * node, (fst row, entry_of_node (snd row))) (map_to_list m')
          = prod_map id entry_of_node <$> map_to_list m') as ->.
  { apply map_ext. by intros [k x]. }
  rewrite list_to_map_fmap, list_to_map_to_list. apply map_eq. intros name.
  unfold m'. rewrite lookup_fmap, map_lookup_imap. destruct (d !! name) as [e|]; simpl; [|done].
  by rewrite entry_of_place.
Qed.

Lemma is_dir_write_back d n : is_dir (Some (write_back d n)) = is_dir (Some n).
Proof. by destruct n. Qed.

(** ** A stage *)

(** The site while [stage] is being filled: its repository and its journal. *)
Section Stage.
Context `{Blake3, HexLaws, StrDebug, !GenerationCodec, !GenerationCodecLaws, !BatchCodec, !BatchCodecLaws,
  !CapabilityText, !GitBinary, !GitLaws}.
Context (s0 : site) (Hinv : repo_inv s0) (stage : StagedGeneration).

Record at_stage (repo journal : node) (s : site) : Prop := {
  as_quiet : quiet s0 s;
  as_ready : stage_ready (st_work s) (store_of (st_self s0)) stage;
  as_repo : tree_in (sg_staging_dir stage) "repo" s = Some repo;
  as_journal : tree_in (sg_staging_dir stage) "journal" s = Some journal
}.

Lemma at_stage_dirs repo journal s : at_stage repo journal s →
  is_dir (Some repo) = true ∧ is_dir (Some journal) = true.
Proof.
  intros [_ [] Hr Hj]. unfold tree_in in *. by rewrite <- Hr, <- Hj.
Qed.

Lemma at_stage_count repo journal s n : at_stage repo journal s → at_stage repo journal (on_self (set_count n) s).
Proof. intros []. constructor; try done. by apply quiet_count. Qed.

(** Another repository or another journal is put in the stage. *)
Lemma at_stage_put name n repo journal s :
  at_stage repo journal s → is_dir (Some n) = true → name = "repo" ∨ name = "journal" →
  at_stage (if decide (name = "repo") then n else repo) (if decide (name = "repo") then journal else n)
    (set_tree (sg_staging_dir stage) name n s).
Proof.
  intros [Hq Hready Hr Hj] Hn Hname.
  assert (∃ d, generations_of (st_work s) !! sg_staging_dir stage = Some d) as [d Hd].
  { unfold tree_in in Hr. destruct (generations_of (st_work s) !! _) as [d|]; [by exists d|done]. }
  assert (is_dir (Some d) = true) as Hdir by apply (sy_entries _ _ (qu_stays _ _ Hq) _ _ Hd).
  assert (∀ name', tree_in (sg_staging_dir stage) name' (set_tree (sg_staging_dir stage) name n s)
            = if decide (name' = name) then Some n else tree_in (sg_staging_dir stage) name' s) as Htree.
  { intros name'. unfold tree_in, set_tree. simpl. rewrite (child_put_generation _ _ _ _ _ _ d) by done.
    repeat case_decide; naive_solver. }
  constructor.
  - destruct Hq as [Hs Hc Hh]. constructor; [|done..]. eapply stays_put; [done|exact Hd|left]. apply Hready.
  - destruct Hready as [R1 R2 R3 R4 R5 R6 R7]. constructor; try done.
    + simpl. rewrite generations_of_put, lookup_alter_ne; [done|]. intros E. by eapply generation_name_not_stage.
    + change (is_dir (tree_in (sg_staging_dir stage) "repo" (set_tree (sg_staging_dir stage) name n s)) = true).
      rewrite Htree. by case_decide.
    + change (is_dir (tree_in (sg_staging_dir stage) "journal" (set_tree (sg_staging_dir stage) name n s)) = true).
      rewrite Htree. by case_decide.
  - rewrite Htree. destruct Hname as [->| ->]; by repeat case_decide.
  - rewrite Htree. destruct Hname as [->| ->]; by repeat case_decide.
Qed.

Lemma at_stage_put_repo n repo journal s :
  at_stage repo journal s → is_dir (Some n) = true →
  at_stage n journal (set_tree (sg_staging_dir stage) "repo" n s).
Proof. intros Hs Hn. by apply (at_stage_put "repo" n repo journal s Hs Hn); left. Qed.

Lemma at_stage_put_journal n repo journal s :
  at_stage repo journal s → is_dir (Some n) = true →
  at_stage repo n (set_tree (sg_staging_dir stage) "journal" n s).
Proof. intros Hs Hn. by apply (at_stage_put "journal" n repo journal s Hs Hn); right. Qed.

(** The stage, whatever Git did to its repository. *)
Definition git_stage (repo journal : node) (s : site) : Prop :=
  ∃ repo', same_work (Some repo) (Some repo') ∧ at_stage repo' journal s.

Lemma git_stage_stable repo journal : git_stable (git_stage repo journal) (sg_staging_dir stage).
Proof.
  intros s (repo' & Hw & Hs). split; [intros n; exists repo'; split; [done|by apply at_stage_count]|].
  exists repo'. split; [apply Hs|]. intros n' Hw'. exists n'. split; [by etrans|].
  apply (at_stage_put_repo _ repo'); [done|]. rewrite (proj1 Hw'). by apply (at_stage_dirs _ _ _ Hs).
Qed.

(** The batch applied to the staged repository. *)
Lemma apply_in_stage k root patches normalized repo journal s :
  trim_slashes root ≠ "" → NoDup normalized → length patches = length normalized →
  at_stage repo journal s →
  run_spec s (in_tree (sg_staging_dir stage) (apply_staged k root patches normalized)) (quiet s0)
    (λ r s', quiet s0 s' ∧ (r = Ok tt → ∃ repo', at_stage repo' journal s' ∧
       patched (Some repo) (Some repo') patches normalized)).
Proof.
  intros Hroot Hnd Hlen Hs. pose proof (at_stage_dirs _ _ _ Hs) as [Hd _].
  apply run_bind_read; [done|]. intros ? [= <-]. rewrite (as_repo _ _ _ Hs).
  destruct (apply_staged k root patches normalized repo) as [r repo'] eqn:Ea.
  pose proof (apply_staged_spec k _ _ _ _ _ _ Hroot Hd Hnd Hlen Ea) as [Hd' Hr]. simpl.
  pose proof (at_stage_put_repo _ _ _ _ Hs Hd') as Hs'.
  apply run_bind_step; [apply Hs'|]. apply run_lift. split; [apply Hs'|]. intros ->. eauto.
Qed.
End Stage.

(** ** Journals and objects in scripts *)

Section JournalScripts.
Context `{Blake3, HexLaws, StrDebug, !GenerationCodec, !GenerationCodecLaws, !BatchCodec, !BatchCodecLaws}.

(** Opening what a handle agrees with gives that handle again. *)
Definition reopened (j : DurableJournal) : DurableJournal :=
  {| dj_ops := dj_ops j; dj_head_checksum := dj_head_checksum j; dj_healthy := true |}.

Lemma listing_loads n j : journal_inv (listing_map n) j →
  load_batches (listing n) = Ok (dj_ops j, dj_head_checksum j).
Proof. intros (bs & Hd & Hc & -> & ->). by eapply load_holds. Qed.

Lemma open_journal_spec env dir path s n j (I : site → Prop) Q :
  tree_in dir "journal" s = Some n → is_dir (Some n) = true → journal_inv (listing_map (Some n)) j →
  Q (Ok (reopened j)) s → (∀ e, Q (Err e) s) → run_spec s (open_journal env dir path) I Q.
Proof.
  intros Hn Hd Hj Hok Herr. apply run_bind_read; [by intros|]. intros ? [= <-]. rewrite Hn.
  destruct n as [|m es| |]; try done. unfold journal_meta.
  apply run_bind. destruct (re_fs env "inspect journal" (join path "journal")); apply run_ret; apply run_lift.
  - unfold journal_open. simpl. apply Herr.
  - unfold journal_open. simpl. rewrite (listing_loads _ j) by done. apply Hok.
Qed.

(** Whatever opens agrees with its directory. *)
Lemma open_journal_inv env dir path s n I :
  tree_in dir "journal" s = Some n → is_dir (Some n) = true →
  run_spec s (open_journal env dir path) I (λ r s', s' = s ∧ ∀ j, r = Ok j → journal_serves (Some n) j).
Proof.
  intros Hn Hd. apply run_bind_read; [by intros|]. intros ? [= <-]. rewrite Hn.
  destruct n as [|m es| |]; try done. unfold journal_meta.
  apply run_bind. destruct (re_fs env "inspect journal" (join path "journal")); apply run_ret; apply run_lift; (split; [done|]); intros j.
  - by unfold journal_open.
  - unfold journal_open. simpl. destruct (load_batches _) as [[ops h]|e] eqn:El; [|done].
    intros [= <-]. split; [done|]. by eapply load_journal_inv.
Qed.

Lemma validate_objects_Ok env path cas ops s :
  try_for (validate_op_objects env path (cas_of s) cas) ops = Ok tt → has_objects (cas_of s) ops.
Proof.
  intros Hok op digest Hop Hd. apply try_for_Ok in Hok. rewrite Forall_forall in Hok. specialize (Hok op Hop).
  unfold validate_op_objects in Hok. apply try_for_Ok in Hok. rewrite Forall_forall in Hok.
  assert (digest ∈ option_list (jo_before op) ++ option_list (jo_after op)) as Hin.
  { rewrite elem_of_app. destruct Hd as [-> | ->]; simpl; [left|right]; by apply list_elem_of_singleton. }
  specialize (Hok digest Hin). destruct (re_get env path (to_hex digest)) as [inspect io].
  apply res_bind_Ok in Hok as (found & Hget & Hf). apply fail_if_Ok in Hf. bools.
  destruct Hf as [c ->]. apply map_err_Ok in Hget.
  unfold get in Hget. res_inv. destruct (cas_of s !! to_hex digest) as [e|] eqn:E; [|done].
  apply res_map_Ok in Hget as (c' & Hv & [= <-]). apply verify_object_Ok in Hv as (? & ? & ? & ?).
  exists c. split; [congruence|done].
Qed.
End JournalScripts.

(** ** Publication of a stage *)

#[local] Arguments listing_map : simpl never.

Section Publishing.
Context `{Blake3, HexLaws, StrDebug, !GenerationCodec, !GenerationCodecLaws, !BatchCodec, !BatchCodecLaws,
  !CapabilityText, !GitBinary, !GitLaws}.
Context (s0 : site) (Hinv : repo_inv s0).

Lemma record_in_stage env stage muts repo journal j s :
  at_stage s0 stage repo journal s → journal_inv (listing_map (Some journal)) j →
  Forall mutation_wf muts → blen (dj_ops j) + blen muts < u64_max →
  run_spec s (record_batch_in env (sg_staging_dir stage) j muts) (quiet s0)
    (λ r s', quiet s0 s' ∧ ∀ j', r = Ok j' → ∃ journal', at_stage s0 stage repo journal' s' ∧
       journal_inv (listing_map (Some journal')) j' ∧
       ∃ ops, dj_ops j' = dj_ops j ++ ops ∧ Forall2 records muts ops).
Proof.
  intros Hs Hj Hwf Hroom. pose proof (at_stage_dirs _ _ _ _ _ Hs) as [_ Hd].
  unfold run_spec, record_batch_in. rewrite (as_journal _ _ _ _ _ Hs).
  destruct journal as [|m es| |] eqn:Ejournal; try done. rewrite <- Ejournal in *.
  destruct (record_batch _ _ _ _) as [[trace j'] r] eqn:Er.
  pose proof (record_batch_spec _ _ _ _ _ _ _ Hj Hwf Hroom Er) as [_ Hr]. simpl.
  set (put d := set_tree (sg_staging_dir stage) "journal" (write_back d journal) s).
  assert (∀ d, at_stage s0 stage repo (write_back d journal) (put d)) as Hput.
  { intros d. apply (at_stage_put_journal _ _ _ _ journal); [done|]. by rewrite is_dir_write_back. }
  split; [apply List.Forall_map, Forall_forall; intros d _; apply (Hput d)|].
  assert (left_in s (map put trace) = match last trace with Some d => put d | None => s end) as ->.
  { unfold left_in. change (map put trace) with (put <$> trace). rewrite fmap_last. by destruct (last trace). }
  split; [destruct (last trace) as [d|]; [apply (Hput d)|apply Hs]|].
  intros j1. destruct r as [[]|e]; [|done]. intros [= <-]. destruct Hr as (Hj' & _ & Hops).
  destruct (last trace) as [d|].
  - exists (write_back d journal). split; [apply Hput|]. split; [by rewrite listing_map_write_back|done].
  - exists journal. by split_and!.
Qed.

(** What a reader finds once [store] is active: the old trees with the batch
    applied, the batch in the journal, an object for every digest the journal
    names, and the checkpoint over exactly that journal. *)
Record serves_batch (patches : list PatchHunk) (normalized : list string) (muts : list JournalMutation)
    (c : Checkpoint) (store : GenerationStore) (s : site) : Prop := {
  sb_opens : opens (st_work s) store;
  sb_checkpoint : gm_checkpoint (gs_active store) = c;
  sb_above : gm_generation (gs_active (store_of (st_self s0))) < gm_generation (gs_active store);
  sb_patched : patched (tree_in (gs_active_repo (store_of (st_self s0))) "repo" s0)
                 (tree_in (gs_active_repo store) "repo" s) patches normalized;
  sb_journal : ∃ j ops, journal_serves (tree_in (gs_active_repo store) "journal" s) j ∧
      dj_ops j = dj_ops (rr_journal (st_self s0)) ++ ops ∧ Forall2 records muts ops ∧
      has_objects (cas_of s) (dj_ops j) ∧ ∃ oid, oid_wf oid ∧ c = bind_git_tree (checkpoint (dj_ops j)) oid;
  sb_cas : cas_grows (cas_of s0) (cas_of s)
}.

(** The active generation of [s0] is still the active one. *)
Definition unpublished (s : site) : Prop :=
  stays (st_work s0) (st_work s) ∧ cas_grows (cas_of s0) (cas_of s).

Lemma quiet_unpublished s : quiet s0 s → unpublished s.
Proof. by intros [? ? _]. Qed.

Lemma serves_batch_self patches normalized muts c store s self :
  serves_batch patches normalized muts c store s → serves_batch patches normalized muts c store (with_self self s).
Proof. intros []. by constructor. Qed.

(** A journal that serves determines its operations. *)
Lemma journal_serves_ops n j j' : journal_serves n j → journal_serves n j' → dj_ops j = dj_ops j'.
Proof.
  intros [_ Hj] [_ Hj']. apply listing_loads in Hj. apply listing_loads in Hj'. congruence.
Qed.

Section Switch.
Context (patches : list PatchHunk) (normalized : list string) (muts : list JournalMutation) (c : Checkpoint).

Definition exposed (s : site) : Prop :=
  unpublished s ∨ ∃ store, serves_batch patches normalized muts c store s.

(** How [publish_stage] ends: published, refused before the switch, or out of
    service after it. *)
Definition ended {A} (r : result A CapabilityError) (s : site) : Prop :=
  match r with
  | Ok _ => repo_inv s ∧ serves_batch patches normalized muts c (store_of (st_self s)) s ∧
            rr_healthy (st_self s) = rr_healthy (st_self s0)
  | Err e => quiet s0 s ∨
             rr_healthy (st_self s) = false ∧ (∃ store, serves_batch patches normalized muts c store s) ∧
             ∃ m, e = CapGeneration (GenOutcomeUnknown m)
  end.

Lemma refuse_writer_ended {A} e s :
  (∃ store, serves_batch patches normalized muts c store s) → (∃ m, e = CapGeneration (GenOutcomeUnknown m)) →
  run_spec s (@refuse_writer A e) exposed ended.
Proof.
  intros [store Hs] Hm. assert (serves_batch patches normalized muts c store (on_self set_unhealthy s))
    by (by apply serves_batch_self).
  apply run_bind_step; [right; eauto|]. apply run_lift. right. eauto.
Qed.

(** The published journal reopens, or the writer leaves service. *)
Lemma reopen_journal_ended env s store :
  serves_batch patches normalized muts c store s → store_of (st_self s) = store →
  cas_lock_poisoned (rr_cas (st_self s)) = false → rr_healthy (st_self s) = rr_healthy (st_self s0) →
  run_spec s (reopen_journal env) exposed ended.
Proof.
  intros Hs Hst Hlock Hhealthy. apply run_get_self. rewrite Hst.
  pose proof Hs as [Ho _ _ _ (j & ops & [Hd Hj] & Hops & Hrec & Hobj & oid & Hoid) Hcas].
  destruct (tree_in (gs_active_repo store) "journal" s) as [n|] eqn:En; [|done].
  apply run_bind, run_try.
  eapply open_journal_spec; [exact En|done|exact Hj| |].
  2: { intros e. apply refuse_writer_ended; eauto. }
  apply run_bind, run_try, run_read.
  destruct (try_for _ _) as [[]|e]; [|apply refuse_writer_ended; eauto].
  assert (serves_batch patches normalized muts c store (on_self (set_journal (reopened j)) s)) as Hs'
    by (by apply serves_batch_self).
  apply run_step; [right; eauto|]. split; [|split; [|done]].
  - assert (store_of (st_self (on_self (set_journal (reopened j)) s)) = store) as E by exact Hst.
    constructor; [by rewrite E|rewrite E|apply Hcas|done|exact Hobj].
    change (journal_serves (tree_in (gs_active_repo store) "journal" s) (reopened j)). rewrite En. by split.
  - change (store_of (st_self (on_self (set_journal (reopened j)) s))) with (store_of (st_self s)). by rewrite Hst.
Qed.

(** A stage that holds the batch is published, or not at all. *)
Lemma publish_stage_ended env stage repo journal j ops s :
  at_stage s0 stage repo journal s → rr_healthy (st_self s) = rr_healthy (st_self s0) →
  journal_inv (listing_map (Some journal)) j →
  dj_ops j = dj_ops (rr_journal (st_self s0)) ++ ops → Forall2 records muts ops →
  has_objects (cas_of s) (dj_ops j) → (∃ oid, oid_wf oid ∧ c = bind_git_tree (checkpoint (dj_ops j)) oid) →
  patched (tree_in (gs_active_repo (store_of (st_self s0))) "repo" s0) (Some repo) patches normalized →
  control_fits (next_manifest (store_of (st_self s0)) stage c) →
  run_spec s (publish_stage env stage c) exposed ended.
Proof.
  intros Hs Hhealthy Hj Hops Hrec Hobj Hc Hpatched Hfits.
  pose proof (as_quiet _ _ _ _ _ Hs) as Hq. pose proof (quiet_inv _ _ Hinv Hq) as [Ho _ _ _ _].
  pose proof (quiet_store _ _ Hq) as Hst. rewrite Hst in Ho.
  set (store := store_of (st_self s0)) in *. set (store' := next_store store stage c).
  apply run_get_self. rewrite Hst. apply run_bind, run_try, run_script_in; [by intros []|].
  assert (∀ w', serves_old (st_work s) store w' → quiet s0 (with_work w' s)) as Hold.
  { intros w' [_ Hk]. destruct Hq as [Hw Hcas Hh]. constructor; [|done..]. simpl.
    eapply stays_trans; [exact Hw|by apply keeps_stays]. }
  assert (∀ w', serves_new (st_work s) store stage c w' →
            serves_batch patches normalized muts c store' (with_work w' s)) as Hnew.
  { intros w' [Ho' [Hr Hjn]]. pose proof (as_repo _ _ _ _ _ Hs) as Hrepo. pose proof (as_journal _ _ _ _ _ Hs) as Hjournal.
    unfold tree_in in Hrepo, Hjournal. rewrite Hrepo in Hr. rewrite Hjournal in Hjn.
    constructor; try done.
    - apply (as_ready _ _ _ _ _ Hs).
    - change (tree_in (gs_active_repo store') "repo" (with_work w' s))
        with (child (generations_of w' !! sg_final_dir stage) "repo"). by rewrite Hr.
    - exists j, ops. change (tree_in (gs_active_repo store') "journal" (with_work w' s))
        with (child (generations_of w' !! sg_final_dir stage) "journal"). rewrite Hjn.
      split; [split; [|done]|done]. apply (at_stage_dirs _ _ _ _ _ Hs).
    - apply Hq. }
  eapply run_weaken; [| |apply publish_trees_spec; [exact Ho|apply Hs|exact Hfits]].
  { intros w' [Hw'|Hw']; [left; by apply quiet_unpublished, Hold|right; eauto]. }
  intros [store1|e] w'; [intros [-> Hw']|].
  - apply run_bind_step; [right; exists store'; by apply serves_batch_self, Hnew|].
    eapply reopen_journal_ended; [by apply serves_batch_self, Hnew|done| |done].
    pose proof (quiet_handle _ _ Hq) as (_ & _ & _ & _ & _ & Hl). exact Hl.
  - destruct (generation_may_have_published e) eqn:Ee; intros Hw'.
    + apply refuse_writer_ended; [eauto|]. destruct e; try done. eauto.
    + apply run_lift. left. by apply Hold.
Qed.
End Switch.

Lemma stage_generation_spec env s :
  quiet s0 s → run_spec s (stage_generation env) (quiet s0)
    (λ r s', quiet s0 s' ∧ ∀ stage, r = Ok stage → ∃ repo journal, at_stage s0 stage repo journal s' ∧
       same_work (tree_in (gs_active_repo (store_of (st_self s0))) "repo" s0) (Some repo) ∧
       journal_inv (listing_map (Some journal)) (rr_journal (st_self s0))).
Proof.
  intros Hq. pose proof (quiet_inv _ _ Hinv Hq) as [Ho [Hjd Hj] _ _ _].
  pose proof (quiet_store _ _ Hq) as Hst. pose proof (quiet_handle _ _ Hq) as (_ & _ & _ & Hjn & _ & _).
  rewrite Hst in *. rewrite Hjn in Hj.
  set (store := store_of (st_self s0)) in *.
  apply run_get_self. rewrite Hst. apply run_map_err, run_script_in; [by intros []|].
  assert (∀ w', keeps (st_work s) w' → quiet s0 (with_work w' s)) as Hold.
  { intros w' Hk. destruct Hq as [Hw Hcas Hh]. constructor; [|done..]. simpl.
    eapply stays_trans; [exact Hw|by apply keeps_stays]. }
  eapply run_weaken; [exact Hold| |by apply generation_stage_spec; [exact Ho|by eapply opens_width]].
  intros r w' [Hk Hr]. split; [by apply Hold|]. intros stage Hok.
  destruct r as [stage'|]; [|done]. injection Hok as <-. destruct (Hr _ eq_refl) as (Hready & Hrepo & Hjournal).
  unfold tree_in in Hjd, Hj. destruct (child (generations_of (st_work s) !! _) "journal") as [journal|] eqn:Ej; [|done].
  pose proof (op_repo _ _ Ho) as Hrd. destruct (child (generations_of (st_work s) !! _) "repo") as [repo|] eqn:Er; [|done].
  exists repo, journal. split; [|split; [|exact Hj]].
  - constructor; [by apply Hold|exact Hready|exact Hrepo|exact Hjournal].
  - unfold tree_in. rewrite <- Er. pose proof (active_generation _ _ (ri_opens _ Hinv)) as [Hsome Hname].
    fold store in Hsome, Hname. rewrite Hname in *. by apply (sy_repo _ _ (qu_stays _ _ Hq)).
Qed.

Lemma stage_path_root r stage : trim_slashes (join (stage_path r stage) "repo") ≠ "".
Proof.
  unfold join. generalize (stage_path r stage). intros path. induction path as [|a path IH]; [done|].
  rewrite string_app_cons. simpl. by destruct (Ascii.eqb a "/"%char).
Qed.

(** The control files of every next generation stay readable. *)
Definition controls_fit (store : GenerationStore) : Prop := ∀ stage ops oid,
  sg_generation stage <= u64_max → oid_wf oid →
  control_fits (next_manifest store stage (bind_git_tree (checkpoint ops) oid)).

(** Publishing prepared mutations. *)
Lemma publish_prepared_ended env patches normalized muts s :
  quiet s0 s → Forall mutation_wf muts → NoDup normalized → length patches = length normalized →
  Forall (λ path, worktree_path (split "/"%char path)) normalized →
  blen (dj_ops (rr_journal (st_self s0))) + blen muts < u64_max →
  controls_fit (store_of (st_self s0)) →
  run_spec s (publish_prepared_patches env patches normalized muts)
    (λ s', ∃ c, exposed patches normalized muts c s')
    (λ r s', ∃ c, ended patches normalized muts c r s' ∧ ∀ c', r = Ok c' → c' = c).
Proof.
  intros Hq Hwf Hnd Hlen Hpaths Hroom Hfits.
  assert (∀ s, quiet s0 s → ∃ c, exposed patches normalized muts c s) as Hexp.
  { intros s' Hs'. exists (active_checkpoint (st_self s')). left. by apply quiet_unpublished. }
  assert (∀ e s, quiet s0 s → ∃ c, ended patches normalized muts c (@Err Checkpoint _ e) s ∧
            ∀ c', @Err Checkpoint CapabilityError e = Ok c' → c' = c) as Hend.
  { intros e s' Hs'. exists (active_checkpoint (st_self s')). split; [by left|done]. }
  apply run_get_self.
  apply run_bind. eapply run_weaken; [exact Hexp| |by apply stage_generation_spec].
  intros [stage|e] s1 [Hq1 Hstage]; [|by apply Hend].
  destruct (Hstage _ eq_refl) as (repo & journal & Hs1 & Hwork & Hj). clear Hstage.
  pose proof (at_stage_dirs _ _ _ _ _ Hs1) as [Hrd Hjd].
  apply run_bind, run_map_err. eapply open_journal_spec; [apply Hs1|done|exact Hj| |].
  2: { intros e. by apply Hend. }
  apply run_bind. eapply run_weaken; [exact Hexp| |].
  2: { apply apply_in_stage with (journal := journal); [by apply stage_path_root|done|done|exact Hs1]. }
  intros [[]|e] s2 [Hq2 Happ]; [|by apply Hend].
  destruct (Happ eq_refl) as (repo2 & Hs2 & Hpatched). clear Happ.
  apply run_bind, run_map_err. eapply run_weaken; [exact Hexp| |].
  2: { eapply record_in_stage; [exact Hs2|exact Hj|done|exact Hroom]. }
  intros [j|e] s3 [Hq3 Hrec]; [|by apply Hend].
  destruct (Hrec _ eq_refl) as (journal3 & Hs3 & Hj3 & ops & Hops & Hrecs). clear Hrec.
  apply run_bind_read; [intros e _; by apply Hend|]. intros [] Hobj. apply validate_objects_Ok in Hobj.
  apply run_bind. eapply run_weaken; [| |].
  3: { apply (write_tree_checkpoint_spec (λ s, git_stage s0 stage repo2 journal3 s ∧ cas_of s = cas_of s3 ∧
          rr_healthy (st_self s) = rr_healthy (st_self s3))).
       - intros s' [Hg [Hc Hh]]. destruct (git_stage_stable s0 stage repo2 journal3 s' Hg) as [Hn (n & Hn1 & Hn2)].
         split; [intros m; split; [apply Hn|done]|]. exists n. split; [exact Hn1|]. intros n' Hw'.
         split; [by apply Hn2|done].
       - split; [exists repo2; by split|done]. }
  { intros s' [(repo' & _ & Hs') _]. apply Hexp, Hs'. }
  intros [c|e] s4 [[(repo4 & Hw4 & Hs4) [Hcas4 Hh4]] Hc]; [|apply Hend, Hs4].
  apply run_bind. eapply run_weaken; [| |].
  3: { eapply publish_stage_ended; [exact Hs4| |exact Hj3|exact Hops|exact Hrecs|by rewrite Hcas4|by apply Hc| |].
       - apply (quiet_handle _ _ (as_quiet _ _ _ _ _ Hs4)).
       - eapply patched_work; [exact Hpaths|exact Hwork|exact Hpatched|exact Hw4].
       - destruct (Hc _ eq_refl) as (oid & Hoid & ->). apply Hfits; [|done].
         apply (sr_width _ _ _ (as_ready _ _ _ _ _ Hs4)). }
  { intros s' Hs'. by exists c. }
  intros [[]|e] s5 Hr5; [apply run_ret|]; exists c; (split; [exact Hr5|by intros ? [= <-]]).
Qed.
End Publishing.

(** ** Proposals *)

Lemma rel_path_worktree p : rel_path p → worktree_path (split "/"%char p).
Proof.
  intros [_ _ _ _ Hs]. destruct (split "/"%char p) as [|c l] eqn:E; [by destruct (split_nonempty "/"%char p)|].
  apply Forall_cons in Hs as [(_ & _ & _ & Hg & _) _]. intros ->. by vm_compute in Hg.
Qed.

Lemma Forall2_both {A B} (P Q : A → B → Prop) l k :
  Forall2 P l k → Forall2 Q l k → Forall2 (λ x y, P x y ∧ Q x y) l k.
Proof. induction 1; intros Hq; inversion Hq; subst; constructor; auto. Qed.

(** The preimage an operation asks for is the file there. *)
Definition preimage_holds `{Blake3} (preimage : Preimage) (prior : option bytes) : Prop :=
  match preimage with
  | PreAbsent => prior = None
  | PreDigest d => ∃ b, prior = Some b ∧ digest_of b = d
  end.

Section Proposals.
Context `{Blake3, HexLaws, StrDebug, !GenerationCodec, !GenerationCodecLaws, !BatchCodec, !BatchCodecLaws,
  !CapabilityText, !GitBinary, !GitLaws, !Unicode, !CharCase, !TokenDecoder}.

(** A batch admitted against a tree. *)
Lemma validate_patches_Ok env grant repo tree patches normalized :
  validate_patches env grant repo tree patches = Ok normalized →
  NoDup normalized ∧ length patches = length normalized ∧ blen patches <= MAX_PATCH_OPERATIONS ∧
  Forall2 (λ h path, path = nfc (hunk_path h) ∧ permits grant path = true ∧
                     worktree_path (split "/"%char path)) patches normalized.
Proof.
  intros Hok. apply res_bind_Ok in Hok as (ps & Hv & Hok). apply res_bind_Ok in Hok as ([] & _ & [= <-]).
  apply validate_batch_Ok in Hv as (Hlen & Hall & _ & Hnd). split_and!; [|by eapply Forall2_length|lia|].
  - change (map chars_to_lowercase ps) with (chars_to_lowercase <$> ps) in Hnd. by apply NoDup_fmap_1 in Hnd.
  - eapply Forall2_impl; [exact Hall|]. intros h path (Hs & _). apply scope_check_Ok in Hs as (? & Hr & ?).
    split_and!; [done..|by apply rel_path_worktree].
Qed.

Lemma read_proposal_file_Ok env repo tree path prior :
  read_proposal_file_nofollow env repo tree path = Ok prior →
  prior = tree_file (Some tree) (split "/"%char path).
Proof.
  intros Hok. apply res_bind_Ok in Hok as ([] & _ & Hok).
  destruct (re_openat2 env path); [done|]. unfold tree_file. simpl.
  destruct (look true tree (split "/"%char path)) as [n|e] eqn:El.
  - unfold file_at. rewrite El. destruct n; try (by destruct (re_fs env _ path)). by res_inv.
  - destruct e; try done. injection Hok as <-. symmetry. by eapply look_missing.
Qed.

Lemma require_preimage_Ok env repo tree op path prior :
  require_preimage env repo tree (op, path) = Ok prior →
  prior = tree_file (Some tree) (split "/"%char path) ∧ preimage_holds (op_preimage op) prior.
Proof.
  intros Hok. apply res_bind_Ok in Hok as (current & Hr & Hok). apply read_proposal_file_Ok in Hr.
  destruct (op_preimage op) as [|d], current as [b|]; try done.
  - injection Hok as <-. done.
  - case_bool_decide; [|done]. injection Hok as <-. split; [done|]. by exists b.
Qed.

Section Admission.
Context (s0 : site) (Hinv : repo_inv s0).

(** The file of the active repository at a path. *)
Definition current_file (path : string) : option bytes :=
  tree_file (tree_in (gs_active_repo (store_of (st_self s0))) "repo" s0) (split "/"%char path).

Lemma active_file s path : quiet s0 s → worktree_path (split "/"%char path) →
  tree_file (Some (active_tree s)) (split "/"%char path) = current_file path.
Proof.
  intros Hq Hp. unfold current_file, active_tree. rewrite (quiet_store _ _ Hq).
  destruct (quiet_stable s0 Hinv s Hq) as (_ & n & Hn & _). rewrite Hn. change (default NSpecial (Some n)) with n.
  pose proof (active_generation _ _ (ri_opens _ Hinv)) as [Hsome Hname].
  apply same_work_file; [|done]. rewrite <- Hn. unfold tree_in. rewrite Hname in *.
  by apply (sy_repo _ _ (qu_stays _ _ Hq)).
Qed.

(** What an admitted proposal is. *)
Record proposal_admitted (p : PatchProposal) (normalized : list string) (preimages : list (option bytes))
    : Prop := {
  pa_valid : proposal_valid p;
  pa_attempt : as_str (pp_producing_attempt_id p) = ea_attempt_id (rr_expected (st_self s0));
  pa_base : pp_base_checkpoint_id p = ckp_id (active_checkpoint (st_self s0)) ∧
            pp_base_checkpoint_digest p = ckp_digest (active_checkpoint (st_self s0));
  pa_paths : Forall2 (λ op path, path = nfc (path_str (op_path op)) ∧
      permits (rr_grant (st_self s0)) path = true ∧ worktree_path (split "/"%char path) ∧
      preimage_holds (op_preimage op) (current_file path)) (pp_operations p) normalized;
  pa_distinct : NoDup normalized;
  pa_preimages : preimages = map current_file normalized
}.

Lemma proposal_paths p path_of (P : string → string → Prop) normalized :
  path_of = (λ op, path_str (op_path op)) →
  Forall2 (λ h path, P (hunk_path h) path) (proposal_patches p) normalized →
  Forall2 (λ op path, P (path_of op) path) (pp_operations p) normalized.
Proof.
  intros ->. unfold proposal_patches. rewrite Forall2_fmap_l. intros Hall.
  eapply Forall2_impl; [exact Hall|]. intros op path. simpl. by destruct (op_mutation op).
Qed.

Lemma preimages_Ok env repo tree p normalized preimages :
  length (pp_operations p) = length normalized →
  (∀ path, path ∈ normalized → tree_file (Some tree) (split "/"%char path) = current_file path) →
  require_proposal_preimages env repo tree p normalized = Ok preimages →
  preimages = map current_file normalized ∧
  Forall2 (λ op path, preimage_holds (op_preimage op) (current_file path)) (pp_operations p) normalized.
Proof.
  unfold require_proposal_preimages. generalize (pp_operations p). intros ops Hlen Hfile Hok.
  apply try_map_Ok in Hok. revert ops preimages Hlen Hok.
  induction normalized as [|path normalized IH]; intros [|op ops] preimages; try done; simpl.
  - intros _ Hok. inversion Hok. by split; [|constructor].
  - intros [= Hlen] Hok. inversion Hok as [|? prior ? priors Hp Hps]; subst.
    apply require_preimage_Ok in Hp as [-> Hpre]. rewrite Hfile in Hpre |- * by (by left).
    destruct (IH ltac:(intros q Hq; apply Hfile; by right) ops priors Hlen Hps) as [-> Hall].
    split; [done|by constructor].
Qed.

Lemma proposal_admission_spec env auth p :
  keeps_to (quiet s0) (proposal_admission env auth p)
    (λ '(patches, normalized, preimages) _, patches = proposal_patches p ∧
       (∃ token, require (rr_expected (st_self s0)) auth = Ok token) ∧
       proposal_admitted p normalized preimages).
Proof.
  apply keeps_to_self. intros s Hs. pose proof (quiet_handle _ _ Hs) as (_ & Hg & He & _).
  apply run_bind_lift; [done|]. intros _ _. apply run_bind_lift; [done|]. intros token Htoken.
  rewrite He in Htoken. generalize (repo_dir (st_self s)). rewrite Hg. intros repo.
  assert (as_str (pp_producing_attempt_id p) = ea_attempt_id (rr_expected (st_self s)) →
          as_str (pp_producing_attempt_id p) = ea_attempt_id (rr_expected (st_self s0))) as Hatt by (by rewrite He).
  refine (keeps_to_then (quiet s0) _ _ _ (guard_spec s0 Hinv env) _ s Hs). intros _ s1 Hs1.
  apply run_bind_lift; [done|]. intros [] Hvalid. apply map_err_Ok, proposal_validate_valid in Hvalid.
  apply run_bind_lift; [done|]. intros [] Hattempt. apply fail_if_Ok in Hattempt. bools.
  refine (keeps_to_bind (quiet s0) _ _ _ _ (validate_active_checkpoint_spec s0 Hinv env) _ s1 Hs1).
  intros active s2 Hs2 [Hactive _]. apply run_bind_lift; [done|]. intros [] Hbase. apply fail_if_Ok in Hbase. bools.
  apply run_bind_read; [done|]. intros normalized Hpatches.
  apply run_bind_read; [done|]. intros preimages Hpre. apply run_ret. split; [done|]. intros ? [= <-].
  split; [done|]. split; [by exists token|].
  apply validate_patches_Ok in Hpatches as (Hnd & Hlen & Hmax & Hall).
  assert (∀ path, path ∈ normalized → worktree_path (split "/"%char path)) as Hpaths.
  { intros path Hin. apply list_elem_of_lookup in Hin as [i Hi].
    by destruct (Forall2_lookup_r _ _ _ _ _ Hall Hi) as (h & _ & _ & _ & ?). }
  apply preimages_Ok in Hpre as [-> Hholds];
    [|rewrite <- Hlen; unfold proposal_patches; by rewrite length_map|intros path Hin; apply active_file; auto].
  rewrite Hactive in Hbase. split; [done|by apply Hatt|done| |done|done].
  apply (proposal_paths p _ (λ h path, path = nfc h ∧ permits (rr_grant (st_self s0)) path = true ∧
    worktree_path (split "/"%char path)) _ eq_refl) in Hall.
  eapply Forall2_impl; [exact (Forall2_both _ _ _ _ Hall Hholds)|].
  intros op path [(? & ? & ?) ?]. by split_and!.
Qed.

(** The proposal's batch, as the new active generation shows it. *)
Definition proposal_published (p : PatchProposal) (c : Checkpoint) (store : GenerationStore) (s : site)
    : Prop :=
  ∃ normalized muts, proposal_admitted p normalized (map current_file normalized) ∧
    Forall2 (λ row m, mutation_of (snd row) (current_file (snd row)) (op_contents (fst row)) m)
      (zip (pp_operations p) normalized) muts ∧
    serves_batch s0 (proposal_patches p) normalized muts c store s.

(** The mutations of an admitted proposal. *)
Lemma admitted_mutations env p normalized preimages :
  races_valid env → proposal_admitted p normalized preimages →
  keeps_to (quiet s0) (proposal_mutations env 0 (zip (zip (pp_operations p) normalized) preimages))
    (λ muts _, Forall mutation_wf muts ∧ length muts = length (pp_operations p) ∧
       Forall2 (λ row m, mutation_of (snd row) (current_file (snd row)) (op_contents (fst row)) m)
         (zip (pp_operations p) normalized) muts) ∧
  no_panic s0 (proposal_mutations env 0 (zip (zip (pp_operations p) normalized) preimages)).
Proof.
  intros Hrace [Hvalid _ _ Hpaths _ ->]. pose proof (Forall2_length _ _ _ Hpaths) as Hlen.
  set (rows := zip (pp_operations p) normalized).
  assert (zip rows (map current_file normalized) = map (λ row, (row, current_file (snd row))) rows) as ->.
  { unfold rows. revert Hlen. generalize (pp_operations p). intros ops. clear.
    revert ops. induction normalized as [|path normalized IH]; intros [|op ops]; try done.
    intros [= Hlen]. simpl. by rewrite IH. }
  destruct (proposal_mutations_spec s0 env Hrace 0 (map (λ row, (row, current_file (snd row))) rows)) as [Hk Hp].
  { apply List.Forall_map. apply Forall_forall. intros [op path] Hin Hdel. simpl in *.
    apply list_elem_of_lookup in Hin as [i Hi]. unfold rows in Hi. apply lookup_zip_Some in Hi as [Hop Hpath].
    destruct (Forall2_lookup_lr _ _ _ _ _ _ Hpaths Hop Hpath) as (_ & _ & _ & Hpre).
    pose proof (pv_ops _ Hvalid) as Hops. rewrite Forall_lookup in Hops. destruct (Hops i op Hop) as [_ Hne].
    destruct (op_preimage op) as [|d]; [|destruct Hpre as (b & -> & _); by eexists].
    unfold op_contents in Hdel. destruct (op_mutation op); [done|]. by destruct (Hne eq_refl). }
  split; [|exact Hp]. eapply keeps_to_weaken; [exact Hk|]. intros muts s _ [Hall Hwf].
  rewrite Forall2_fmap_l in Hall. split; [done|]. split; [|exact Hall].
  rewrite <- (Forall2_length _ _ _ Hall). unfold rows. rewrite length_zip. lia.
Qed.
End Admission.

Lemma apply_proposal_spec env auth p s :
  repo_inv s → rr_healthy (st_self s) = true → races_valid env → controls_fit (store_of (st_self s)) →
  blen (dj_ops (rr_journal (st_self s))) + MAX_PATCH_OPERATIONS < u64_max →
  run_spec s (apply_proposal env auth p)
    (λ s', unpublished s s' ∨ ∃ c store, proposal_published s p c store s')
    (λ r s', match r with
             | Ok c => repo_inv s' ∧ rr_healthy (st_self s') = true ∧ active_checkpoint (st_self s') = c ∧
                       proposal_published s p c (store_of (st_self s')) s'
             | Err (Refused e) =>
                 (unpublished s s' ∧ repo_inv s' ∧ rr_healthy (st_self s') = true) ∨
                 (rr_healthy (st_self s') = false ∧ (∃ m, e = CapGeneration (GenOutcomeUnknown m)) ∧
                    ∃ c store, proposal_published s p c store s')
             | Err (Panicked _) => False
             end).
Proof.
  intros Hinv Hhealthy Hrace Hfits Hroom.
  assert (∀ s', quiet s s' → unpublished s s' ∧ repo_inv s' ∧ rr_healthy (st_self s') = true) as Hq.
  { intros s' Hs'. split; [by apply quiet_unpublished|]. split; [by eapply quiet_inv|].
    pose proof (quiet_handle _ _ Hs') as (_ & _ & _ & _ & -> & _). done. }
  apply run_bind, run_map_err. eapply run_weaken; [| |apply (proposal_admission_spec s Hinv env auth p), quiet_refl, Hinv].
  { intros s' Hs'. left. by apply Hq. }
  intros [[[patches normalized] preimages]|e] s1 [Hs1 Hadm]; [|left; by apply Hq].
  destruct (Hadm _ eq_refl) as (-> & _ & Hp). clear Hadm. simpl.
  destruct (admitted_mutations s env p normalized preimages Hrace Hp) as [Hm Hpanic].
  apply run_bind. pose proof (Hm s1 Hs1) as [Htr1 Hr1]. specialize (Hpanic s1 Hs1).
  split; [eapply Forall_impl; [exact Htr1|]; intros s' Hs'; left; by apply Hq|].
  destruct (proposal_mutations _ _ _ s1) as [tr1 [muts|[e|message]]]; simpl in *; destruct Hr1 as [Hs2 Hmuts].
  2: { left. by apply Hq. }
  2: { by apply (Hpanic message). }
  destruct (Hmuts _ eq_refl) as (Hwf & Hlen & Hall). clear Hmuts Hpanic.
  pose proof Hp as [Hvalid _ _ Hpaths Hnd Hpre]. rewrite Hpre in Hp.
  assert (∀ c store s', serves_batch s (proposal_patches p) normalized muts c store s' →
            proposal_published s p c store s') as Hpub by (intros; by exists normalized, muts).
  apply run_map_err. eapply run_weaken; [| |apply (publish_prepared_ended s Hinv env (proposal_patches p) normalized muts)].
  - intros s' (c & [Hs'|[store Hs']]); [by left|right; eauto].
  - intros [c|e] s' (c' & He & Hc); simpl in *.
    + rewrite (Hc c eq_refl). destruct He as (Hi & Hb & Hh). rewrite Hhealthy in Hh. split_and!; [done..| |by apply Hpub].
      exact (sb_checkpoint _ _ _ _ _ _ _ Hb).
    + destruct He as [He|(Hh & [store Hb] & Hm')]; [left; by apply Hq|right]. split_and!; [done..|]. eauto.
  - done.
  - done.
  - done.
  - unfold proposal_patches. rewrite length_map. by eapply Forall2_length.
  - rewrite Forall_lookup. intros i path Hi. by destruct (Forall2_lookup_r _ _ _ _ _ Hpaths Hi) as (? & _ & _ & _ & ? & _).
  - pose proof (pv_count _ Hvalid). unfold blen in *. rewrite Hlen. lia.
  - done.
Qed.

(** ** Properties *)

(** C1: applying a proposal is atomic and crash-safe, whatever fails.  Every state
    the call exposes serves either the active generation it started from, with its
    working tree and journal unchanged, or a new one whose working tree is the old
    one with every operation applied and nothing else changed, whose journal is
    the old one followed by exactly the proposal's mutations, and in whose object
    store every digest of the journal resolves.  Success means the new one is
    active, is bound to the returned checkpoint, and the writer serves it; a
    refusal leaves the old one and a writer that still serves it, or, exactly when
    the switch may have happened, the new one and a writer out of service; no
    panic is possible. *)
Theorem apply_proposal_crash_safe env auth p s trace r :
  repo_inv s → rr_healthy (st_self s) = true → races_valid env → controls_fit (store_of (st_self s)) →
  blen (dj_ops (rr_journal (st_self s))) + MAX_PATCH_OPERATIONS < u64_max →
  apply_proposal env auth p s = (trace, r) →
  Forall (λ s', unpublished s s' ∨ ∃ c store, proposal_published s p c store s') trace ∧
  match r with
  | Ok c =>
      repo_inv (left_in s trace) ∧ rr_healthy (st_self (left_in s trace)) = true ∧
      active_checkpoint (st_self (left_in s trace)) = c ∧
      proposal_published s p c (store_of (st_self (left_in s trace))) (left_in s trace)
  | Err (Refused e) =>
      (unpublished s (left_in s trace) ∧ repo_inv (left_in s trace) ∧
         rr_healthy (st_self (left_in s trace)) = true) ∨
      (rr_healthy (st_self (left_in s trace)) = false ∧ (∃ m, e = CapGeneration (GenOutcomeUnknown m)) ∧
         ∃ c store, proposal_published s p c store (left_in s trace))
  | Err (Panicked _) => False
  end.
Proof.
  intros Hinv Hhealthy Hrace Hfits Hroom E.
  destruct (apply_proposal_spec env auth p s Hinv Hhealthy Hrace Hfits Hroom) as [Htr Hr].
  rewrite E in Htr, Hr. by split.
Qed.
End Proposals.
