(* ===== verification/Preparation.v ===== *)
(** The other publications of the writer of [Repository]: a prepared candidate
    ([prepare_candidate]), and the construction that validates everything first
    ([RealRepository::new]). *)

From S2P Require Import Prelude Decimal Digests Ids Proposal Candidate Lineage Journal Disk Cas Generation Capability Scope Apply SafeGit Repository Publication.

Section Candidates.
Context `{Blake3, HexLaws, StrDebug, !GenerationCodec, !GenerationCodecLaws, !BatchCodec, !BatchCodecLaws,
  !CapabilityText, !GitBinary, !GitLaws, !Unicode, !CharCase, !TokenDecoder, !ScopeText,
  !Jcs CandidateManifest, !Jcs CandidateContentManifest}.

Lemma require_candidate_field_Ok field expected found :
  require_candidate_field field expected found = Ok tt ↔ expected = found.
Proof. unfold require_candidate_field. by destruct (String.eqb_spec expected found). Qed.

Lemma repo_path_parse_str raw p : repo_path_parse raw = Ok p → path_str p = raw.
Proof. unfold repo_path_parse. intros Hok. res_inv. by subst. Qed.

Lemma parse_paths_str paths ps : parse_paths paths = Ok ps → map path_str ps = paths.
Proof.
  unfold parse_paths. intros Hok%map_err_Ok. apply try_map_Ok in Hok.
  induction Hok as [|x y xs ys Hx _ IH]; [done|]. simpl. by rewrite IH, (repo_path_parse_str _ _ Hx).
Qed.

(** What [require_candidate_provenance] admits. *)
Record provenance_admitted (r : RealRepository) (p : CandidateProvenance) (active : Checkpoint) (base : GitOid)
    : Prop := {
  pv_attempt : as_str (cp_producing_attempt_id p) = ea_attempt_id (rr_expected r);
  pv_fence : cp_attempt_fence p = ea_attempt_fence (rr_expected r);
  pv_variant : as_str (cp_variant_id p) = wm_variant_id (pc_manifest (rr_workspace r));
  pv_checkpoint : as_str (cp_base_checkpoint_id p) = as_str (ckp_id active);
  pv_commit : oid_str (cp_base_commit p) = oid_str base;
  pv_scope : map path_str (cp_granted_scope p) = allowed_prefixes (rr_grant r)
}.

Lemma require_candidate_provenance_Ok r token p active base :
  require_candidate_provenance r token p active base = Ok tt → provenance_admitted r p active base.
Proof.
  unfold require_candidate_provenance. intros Hok.
  do 7 (apply res_bind_Ok in Hok as ([] & ? & Hok)).
  apply res_bind_Ok in Hok as (local & Hl & Hok). apply fail_if_Ok in Hok. bools.
  repeat match goal with Hf : require_candidate_field _ _ _ = _ |- _ => apply require_candidate_field_Ok in Hf end.
  constructor; try done; [|by rewrite Hok; apply parse_paths_str].
  by apply (inj u64_to_string).
Qed.

Lemma from_manifest_Ok m at_ c :
  from_manifest m at_ = Ok c → cand_manifest c = m ∧ cand_prepared_at c = at_ ∧ manifest_valid m.
Proof.
  unfold from_manifest. intros Hok. apply res_bind_Ok in Hok as (cid & _ & Hok).
  apply res_bind_Ok in Hok as (id & Hid & [= <-]). apply candidate_id_Ok in Hid as [? _]. done.
Qed.

Lemma base_commit_Ok r o : base_commit r = Ok o → o = wm_base_sha (pc_manifest (rr_workspace r)).
Proof.
  unfold base_commit, base_sha. intros Hok%map_err_Ok. apply oid_new_Ok in Hok as [-> _].
  by destruct (wm_base_sha _).
Qed.

Section Active.
Context (s0 : site) (Hinv : repo_inv s0).

(** What the read-only check establishes. *)
Definition preparation_admitted (auth : AuthorityEnvelope) (p : CandidateProvenance) : Prop :=
  rr_healthy (st_self s0) = true ∧ (∃ token, require (rr_expected (st_self s0)) auth = Ok token) ∧
  provenance_admitted (st_self s0) p (active_checkpoint (st_self s0))
    (wm_base_sha (pc_manifest (rr_workspace (st_self s0)))).

Lemma provenance_handle s p active base :
  quiet s0 s → provenance_admitted (st_self s) p active base → provenance_admitted (st_self s0) p active base.
Proof.
  intros Hq []. pose proof (quiet_handle _ _ Hq) as (Hw & Hg & He & _).
  rewrite ?Hw, ?Hg, ?He in *. by constructor.
Qed.

Lemma validate_candidate_preparation_spec env auth p :
  keeps_to (quiet s0) (validate_candidate_preparation env auth p) (λ _ _, preparation_admitted auth p).
Proof.
  apply keeps_to_self. intros s Hs. pose proof (quiet_handle _ _ Hs) as (Hw & _ & He & _ & Hh & _).
  apply run_bind_lift; [done|]. intros [] Hhealthy. apply fail_if_Ok in Hhealthy. bools. rewrite Hh in Hhealthy.
  apply run_bind_lift; [done|]. intros token Htoken. rewrite He in Htoken.
  refine (keeps_to_then (quiet s0) _ _ _ (guard_spec s0 Hinv env) _ s Hs). intros _ s1 Hs1.
  apply run_bind_read; [done|]. intros _ _.
  refine (keeps_to_then (quiet s0) _ _ _ (require_private_branch_spec s0 Hinv env) _ s1 Hs1). intros _ s2 Hs2.
  refine (keeps_to_then (quiet s0) _ _ _ (status_scan_spec s0 Hinv env) _ s2 Hs2). intros entries s3 Hs3.
  apply run_bind_lift; [done|]. intros _ _.
  refine (keeps_to_bind (quiet s0) _ _ _ _ (validate_active_checkpoint_spec s0 Hinv env) _ s3 Hs3).
  intros active s4 Hs4 [-> _]. apply run_bind_lift; [done|]. intros base Hbase.
  apply base_commit_Ok in Hbase as ->. apply run_lift. split; [done|]. intros [] Hok.
  split; [done|]. split; [by exists token|]. apply require_candidate_provenance_Ok in Hok.
  rewrite <- Hw. by apply (provenance_handle s).
Qed.

(** The candidate says what the writer, its workspace and its grant say. *)
Record candidate_bound (change : Change) (c : Candidate) : Prop := {
  cb_change : cm_change_id (cand_manifest c) = change_id change;
  cb_attempt : as_str (cm_producing_attempt_id (cand_manifest c)) = ea_attempt_id (rr_expected (st_self s0));
  cb_fence : cm_attempt_fence (cand_manifest c) = ea_attempt_fence (rr_expected (st_self s0));
  cb_checkpoint : as_str (cm_base_checkpoint_id (cand_manifest c))
                  = as_str (ckp_id (active_checkpoint (st_self s0)));
  cb_commit : cm_base_commit (cand_manifest c) = wm_base_sha (pc_manifest (rr_workspace (st_self s0)));
  cb_scope : map path_str (cm_granted_scope (cand_manifest c)) = allowed_prefixes (rr_grant (st_self s0));
  cb_valid : manifest_valid (cand_manifest c);
  cb_date : cand_prepared_at c = ci_date (rr_identity (st_self s0))
}.

Lemma candidate_bound_of auth p change head tree patch scope c identity :
  preparation_admitted auth p → ci_date identity = ci_date (rr_identity (st_self s0)) →
  from_manifest (candidate_manifest p change (wm_base_sha (pc_manifest (rr_workspace (st_self s0))))
                   head tree patch scope) (ci_date identity) = Ok c → candidate_bound change c.
Proof.
  intros (_ & _ & [? ? ? ? ? ?]) Hd Hc. apply from_manifest_Ok in Hc as (Hm & Hat & Hv).
  constructor; rewrite ?Hm; try done. congruence.
Qed.

Lemma quiet_identity s : quiet s0 s → rr_identity (st_self s) = rr_identity (st_self s0).
Proof. by intros [_ _ (cas & n & -> & _)]. Qed.

Lemma commit_candidate_spec J env dir path change :
  git_stable J dir → keeps_to J (commit_candidate env dir path change) (λ _ _, True).
Proof.
  intros Hg. assert (∀ args extra, default "git" (head args) ∈ observing_verbs →
    keeps_to J (git_at env dir path args extra) (λ _ _, True)) as Hgit by (intros; by apply git_at_stable).
  apply keeps_to_self. intros s Hs.
  refine (keeps_to_then J _ _ _ (Hgit _ _ _) _ s Hs); [by repeat constructor|]. intros _ s1 Hs1.
  refine (keeps_to_then J _ _ _ (Hgit _ _ _) _ s1 Hs1); [by repeat constructor|]. intros _ s2 Hs2.
  refine (keeps_to_then J _ _ _ (Hgit _ _ _) _ s2 Hs2); [by repeat constructor|]. intros head s3 Hs3.
  refine (keeps_to_then J _ _ _ (Hgit _ _ _) _ s3 Hs3); [by repeat constructor|]. intros tree s4 Hs4.
  by apply run_lift.
Qed.

Lemma patched_refl o o' : same_work o o' → patched o o' [] [].
Proof. intros Hw. constructor; [|constructor]. intros p Hp _. by apply same_work_file. Qed.

(** From the staging on: the commit, the checkpoint and the publication. *)
Lemma candidate_published env auth change p scope self s :
  quiet s0 s → rr_identity self = rr_identity (st_self s0) → preparation_admitted auth p → controls_fit (store_of (st_self s0)) →
  run_spec s
    (exec stage := stage_generation env in
     let dir := sg_staging_dir stage in
     let path := stage_path self stage in
     let repo := join path "repo" in
     exec journal := script_map_err from_journal_error (open_journal env dir path) in
     exec commit := commit_candidate env dir repo change in
     let '(head, tree) := commit in
     exec patch := git_at env dir repo ["diff"; hex_of (wm_base_sha (pc_manifest (rr_workspace (st_self s0)))) +:+ ".." +:+ hex_of head] [] in
     exec candidate := lift (map_err CapCandidateManifest
       (from_manifest (candidate_manifest p change (wm_base_sha (pc_manifest (rr_workspace (st_self s0)))) head tree patch scope)
          (ci_date (rr_identity self)))) in
     exec checkpoint := write_tree_checkpoint env dir repo (dj_ops journal) in
     publish_stage env stage checkpoint ;;
     script_ret candidate)%script
    (λ s', ∃ c, exposed s0 [] [] [] c s')
    (λ r s', ∃ c, ended s0 [] [] [] c r s' ∧ ∀ cand, r = Ok cand → candidate_bound change cand).
Proof.
  intros Hq Hidentity Hadm Hfits.
  assert (∀ s, quiet s0 s → ∃ c, exposed s0 [] [] [] c s) as Hexp.
  { intros s' Hs'. exists (active_checkpoint (st_self s')). left. by apply quiet_unpublished. }
  assert (∀ e s, quiet s0 s → ∃ c, ended s0 [] [] [] c (@Err Candidate _ e) s ∧
            ∀ cand, @Err Candidate CapabilityError e = Ok cand → candidate_bound change cand) as Hend.
  { intros e s' Hs'. exists (active_checkpoint (st_self s')). split; [by left|done]. }
  apply run_bind. eapply run_weaken; [exact Hexp| |by apply stage_generation_spec].
  intros [stage|e] s1 [Hq1 Hstage]; [|by apply Hend].
  destruct (Hstage _ eq_refl) as (repo & journal & Hs1 & Hwork & Hj). clear Hstage.
  pose proof (at_stage_dirs _ _ _ _ _ Hs1) as [Hrd Hjd].
  apply run_bind, run_map_err. eapply open_journal_spec; [apply Hs1|done|exact Hj| |].
  2: { intros e. by apply Hend. }
  set (J := λ s, git_stage s0 stage repo journal s ∧ cas_of s = cas_of s1 ∧
                 rr_healthy (st_self s) = rr_healthy (st_self s1)).
  assert (git_stable J (sg_staging_dir stage)) as HJ.
  { intros s' [Hg [Hc Hh]]. destruct (git_stage_stable s0 stage repo journal s' Hg) as [Hn (n & Hn1 & Hn2)].
    split; [intros m; split; [apply Hn|done]|]. exists n. split; [exact Hn1|]. intros n' Hw'.
    split; [by apply Hn2|done]. }
  assert (∀ s', J s' → quiet s0 s') as HJq by (by intros s' [(repo' & _ & [? _ _ _]) _]).
  assert (J s1) as HJ1 by (split; [exists repo; by split|done]).
  assert (∀ e s, J s → ∃ c, ended s0 [] [] [] c (@Err Candidate _ e) s ∧
            ∀ cand, @Err Candidate CapabilityError e = Ok cand → candidate_bound change cand) as HJend by eauto.
  apply run_bind. eapply run_weaken; [intros s' Hs'; by apply Hexp, HJq| |by apply (commit_candidate_spec J)].
  intros [[head tree]|e] s2 [Hs2 _]; [|by apply HJend].
  apply run_bind. eapply run_weaken; [intros s' Hs'; by apply Hexp, HJq| |].
  2: { apply (git_at_stable J); [done|by repeat constructor|done]. }
  intros [patch|e] s3 [Hs3 _]; [|by apply HJend].
  apply run_bind_lift; [intros e _; by apply HJend|]. intros cand Hcand.
  apply map_err_Ok, (candidate_bound_of auth) in Hcand; [|done|by rewrite Hidentity].
  apply run_bind. eapply run_weaken; [intros s' Hs'; by apply Hexp, HJq| |by apply (write_tree_checkpoint_spec J)].
  intros [c|e] s4 [[(repo4 & Hw4 & Hs4) [Hcas4 Hh4]] Hc]; [|apply Hend, Hs4].
  apply run_bind. eapply run_weaken; [| |].
  3: { eapply (publish_stage_ended s0 Hinv [] [] []); [exact Hs4| |exact Hj|by rewrite app_nil_r|constructor| |by apply Hc| |].
       - apply (quiet_handle _ _ (as_quiet _ _ _ _ _ Hs4)).
       - pose proof (ri_objects _ (quiet_inv _ _ Hinv (as_quiet _ _ _ _ _ Hs4))) as Ho.
         destruct (quiet_handle _ _ (as_quiet _ _ _ _ _ Hs4)) as (_ & _ & _ & Hjn & _).
         by rewrite Hjn in Ho.
       - apply patched_refl. by etrans.
       - destruct (Hc _ eq_refl) as (oid & Hoid & ->). apply Hfits; [|done].
         apply (sr_width _ _ _ (as_ready _ _ _ _ _ Hs4)). }
  { intros s' Hs'. by exists c. }
  intros [[]|e] s5 Hr5; [apply run_ret|]; exists c; (split; [exact Hr5|by intros ? [= <-]]).
Qed.

(** The whole call, from the read-only check on. *)
Lemma prepare_candidate_spec env auth change p :
  controls_fit (store_of (st_self s0)) →
  run_spec s0 (prepare_candidate env auth change p)
    (λ s', ∃ c, exposed s0 [] [] [] c s')
    (λ r s', ∃ c, ended s0 [] [] [] c r s' ∧
       ∀ cand, r = Ok cand → preparation_admitted auth p ∧ candidate_bound change cand).
Proof.
  intros Hfits.
  assert (∀ s, quiet s0 s → ∃ c, exposed s0 [] [] [] c s) as Hexp.
  { intros s' Hs'. exists (active_checkpoint (st_self s')). left. by apply quiet_unpublished. }
  assert (∀ e s, quiet s0 s → ∃ c, ended s0 [] [] [] c (@Err Candidate _ e) s ∧
            ∀ cand, @Err Candidate CapabilityError e = Ok cand →
              preparation_admitted auth p ∧ candidate_bound change cand) as Hend.
  { intros e s' Hs'. exists (active_checkpoint (st_self s')). split; [by left|done]. }
  apply run_bind. eapply run_weaken; [exact Hexp| |by apply (validate_candidate_preparation_spec env auth p), quiet_refl].
  intros [[]|e] s1 [Hs1 Hadm]; [|by apply Hend]. specialize (Hadm tt eq_refl).
  apply run_get_self, run_bind_lift; [intros; by apply Hend|]. intros token _.
  apply run_bind. eapply run_weaken; [exact Hexp| |by apply status_scan_spec].
  intros [entries|e] s2 [Hs2 _]; [|by apply Hend].
  apply run_bind_lift; [intros; by apply Hend|]. intros scope _.
  apply run_bind. eapply run_weaken; [exact Hexp| |by apply validate_active_checkpoint_spec].
  intros [active|e] s3 [Hs3 _]; [|by apply Hend].
  apply run_bind_lift; [intros; by apply Hend|]. intros base Hbase. apply base_commit_Ok in Hbase as ->.
  apply run_bind_lift; [intros; by apply Hend|]. intros [] _. rewrite (proj1 (quiet_handle _ _ Hs1)).
  eapply run_weaken; [| |exact (candidate_published env auth change p scope _ s3 Hs3 (quiet_identity _ Hs1) Hadm Hfits)].
  - done.
  - intros r s' (c & He & Hc). exists c. split; [exact He|]. intros cand Hr. split; [exact Hadm|by apply Hc].
Qed.
End Active.

(** ** Construction *)

(** Nothing that the work directory serves is lost. *)
Definition work_kept (s s' : site) : Prop := st_work s' = st_work s ∨ stays (st_work s) (st_work s').

Lemma open_workspace_cas_spec env dir s :
  run_spec s (open_workspace_cas env dir) (λ s', st_work s' = st_work s)
    (λ r s', st_work s' = st_work s ∧
       ∀ cas, r = Ok cas → cas_lock_poisoned cas = false ∧ cas_valid (cas_of s')).
Proof.
  assert (∀ s', st_work s' = st_work s →
    run_spec s' (read (λ s, map_err CapContentStore
      (cas_open (re_cas_scan env) (re_cas_root env)
         (Ok (map (λ row, Ok (Some (fst row), snd row)) (map_to_list (cas_of s))))
         (re_fs env "sync CAS directory" (join dir "cas"))))) (λ s', st_work s' = st_work s)
      (λ r s', st_work s' = st_work s ∧
         ∀ cas, r = Ok cas → cas_lock_poisoned cas = false ∧ cas_valid (cas_of s'))) as Hopen.
  { intros s' Hs'. apply run_read. split; [done|]. intros cas Hok%map_err_Ok.
    apply cas_open_sound in Hok as [Hl Hrows]. split; [done|]. unfold cas_valid.
    apply map_Forall_to_list. apply (proj1 (List.Forall_map _ _ _)) in Hrows.
    eapply Forall_impl; [exact Hrows|]. intros [name e] (name' & e' & [= <- <-] & Hv). exact Hv. }
  apply run_bind_lift; [done|]. intros _ _. apply run_bind_read; [done|]. intros present [= <-].
  destruct (st_cas s).
  - apply run_bind, run_ret. by apply Hopen.
  - apply run_bind, run_bind_lift; [done|]. intros _ _. apply run_bind_step; [done|].
    apply run_bind_lift; [done|]. intros _ _. apply run_lift.
    destruct (match re_fs env _ dir with Some _ => _ | None => _ end) as [[]|e]; [by apply Hopen|done].
Qed.

(** What a writer that was constructed may rely on. *)
Record constructed (workspace : PrivateClone) (grant : ScopeGrant) (expected : ExpectedAuthority)
    (s : site) : Prop := {
  co_inv : repo_inv s;
  co_healthy : rr_healthy (st_self s) = true;
  co_grant : rr_grant (st_self s) = grant;
  co_expected : rr_expected (st_self s) = expected;
  co_attempt : gm_attempt_id (gs_active (store_of (st_self s))) = wm_attempt_id (pc_manifest workspace);
  co_checkpoint : ∃ oid, oid_wf oid ∧
    active_checkpoint (st_self s) = bind_git_tree (checkpoint (dj_ops (rr_journal (st_self s)))) oid
}.

Lemma repository_new_spec env workspace grant expected identity s :
  run_spec s (repository_new env workspace grant expected identity) (work_kept s)
    (λ r s', work_kept s s' ∧ (r = Ok tt → constructed workspace grant expected s')).
Proof.
  assert (work_kept s s) as Hs by by left.
  apply run_bind_read; [done|]. intros store Hopen%map_err_Ok.
  apply generation_open_sound in Hopen as (Ho & _ & Hattempt & _).
  pose proof (op_journal _ _ Ho) as Hjd.
  destruct (child (generations_of (st_work s) !! gs_active_repo store) "journal") as [n|] eqn:En; [|done].
  apply run_bind, run_map_err.
  eapply run_weaken; [| |eapply (open_journal_inv _ _ _ _ _ (work_kept s)); [exact En|done]]; [done|].
  intros [journal|e] s1 [-> Hj]; [|done]. specialize (Hj _ eq_refl).
  apply run_bind. eapply run_weaken; [| |apply open_workspace_cas_spec]; [by left|].
  intros [cas|e] s2 [Hw Hcas]; [|split; [by left|done]]. destruct (Hcas _ eq_refl) as [Hlock Hvalid]. clear Hcas.
  apply run_bind_read; [intros e _; split; [by left|done]|]. intros [] Hobj%validate_objects_Ok.
  set (self := {| rr_workspace := set_generations store workspace; rr_grant := grant; rr_expected := expected;
    rr_identity := identity; rr_journal := journal; rr_cas := cas; rr_checkpoint_count := 0;
    rr_healthy := true; rr_lineage := [] |}).
  set (s3 := with_self self s2).
  assert (repo_inv s3) as Hinv.
  { constructor; [by simpl; rewrite Hw| |done..].
    change (journal_serves (child (generations_of (st_work s2) !! gs_active_repo store) "journal") journal).
    by rewrite Hw, En. }
  assert (∀ s', quiet s3 s' → work_kept s s') as Hk.
  { intros s' [Hst _ _]. right. by rewrite <- Hw. }
  apply run_bind_step; [apply Hk, quiet_refl, Hinv|].
  apply run_bind. eapply run_weaken; [exact Hk| |by apply (guard_spec s3 Hinv env), quiet_refl].
  intros [[]|e] s4 [Hs4 _]; [|split; [by apply Hk|done]].
  apply run_bind. eapply run_weaken; [exact Hk| |by apply (require_private_branch_spec s3 Hinv env)].
  intros [[]|e] s5 [Hs5 _]; [|split; [by apply Hk|done]].
  apply run_bind. eapply run_weaken; [exact Hk| |by apply (validate_active_checkpoint_spec s3 Hinv env)].
  intros [c|e] s6 [Hs6 Hc]; [|split; [by apply Hk|done]]. apply run_ret. split; [by apply Hk|]. intros _.
  destruct (Hc _ eq_refl) as [-> Hoid].
  pose proof (quiet_handle _ _ Hs6) as (E1 & E2 & E3 & E4 & E5 & _). constructor.
  - by eapply quiet_inv.
  - by rewrite E5.
  - by rewrite E2.
  - by rewrite E3.
  - unfold store_of. rewrite E1. simpl. rewrite (op_attempt _ _ Ho). exact Hattempt.
  - rewrite E4. unfold active_checkpoint, generation_checkpoint, store_of. by rewrite E1.
Qed.
(** C16: preparing a candidate publishes a new generation over the same working tree
    and the same journal, and is crash-safe: every state the call exposes serves
    the generation it started from or the new one.  A candidate is returned only
    to an admitted caller (a healthy writer, its authority, its attempt, fence,
    variant, base checkpoint, base commit and grant), is a valid manifest that
    names exactly these and the prepared change, and leaves the writer serving the
    new generation; a refusal leaves the old one and a writer that still serves
    it, or, exactly when the switch may have happened, the new one and a writer
    out of service. *)
Theorem prepare_candidate_crash_safe env auth change p s trace r :
  repo_inv s → rr_healthy (st_self s) = true → controls_fit (store_of (st_self s)) →
  prepare_candidate env auth change p s = (trace, r) →
  Forall (λ s', unpublished s s' ∨ ∃ c store, serves_batch s [] [] [] c store s') trace ∧
  match r with
  | Ok cand =>
      repo_inv (left_in s trace) ∧ rr_healthy (st_self (left_in s trace)) = true ∧
      serves_batch s [] [] [] (active_checkpoint (st_self (left_in s trace)))
        (store_of (st_self (left_in s trace))) (left_in s trace) ∧
      preparation_admitted s auth p ∧ candidate_bound s change cand
  | Err e =>
      (unpublished s (left_in s trace) ∧ repo_inv (left_in s trace) ∧
         rr_healthy (st_self (left_in s trace)) = true) ∨
      (rr_healthy (st_self (left_in s trace)) = false ∧ (∃ m, e = CapGeneration (GenOutcomeUnknown m)) ∧
         ∃ c store, serves_batch s [] [] [] c store (left_in s trace))
  end.
Proof.
  intros Hinv Hhealthy Hfits E.
  pose proof (prepare_candidate_spec s Hinv env auth change p Hfits) as [Htr Hr]. rewrite E in Htr, Hr. simpl in *.
  split.
  { eapply Forall_impl; [exact Htr|]. intros s' (c & [Hs'|[store Hs']]); [by left|right; eauto]. }
  destruct Hr as (c & He & Hc). destruct r as [cand|e].
  - destruct (Hc _ eq_refl) as [Hadm Hb]. destruct He as (Hi & Hs & Hh). rewrite Hhealthy in Hh.
    pose proof (sb_checkpoint _ _ _ _ _ _ _ Hs) as E'.
    change (gm_checkpoint (gs_active (store_of (st_self (left_in s trace)))))
      with (active_checkpoint (st_self (left_in s trace))) in E'. by rewrite E'.
  - destruct He as [Hq|(Hh & [store Hs] & Hm)]; [left|right; eauto].
    split; [by apply quiet_unpublished|]. split; [by eapply quiet_inv|].
    pose proof (quiet_handle _ _ Hq) as (_ & _ & _ & _ & -> & _). done.
Qed.

(** Constructing the writer never loses what the work directory serves, and
    whatever it is given (any directory contents, any reply of the file system or
    of Git), it succeeds only on a site where every promise of the writer holds:
    the active generation is complete and lineage-bound to the workspace's
    attempt, its journal replays, every digest the journal names has its exact
    object in a valid store, and the active checkpoint is the one over exactly
    that journal. *)
Theorem repository_new_establishes env workspace grant expected identity s trace r :
  repository_new env workspace grant expected identity s = (trace, r) →
  Forall (work_kept s) trace ∧ work_kept s (left_in s trace) ∧
  (r = Ok tt → constructed workspace grant expected (left_in s trace)).
Proof.
  intros E. pose proof (repository_new_spec env workspace grant expected identity s) as [Htr Hr].
  by rewrite E in Htr, Hr.
Qed.
End Candidates.
