(* ===== verification/Preservation.v ===== *)
(** [crates/bullet-git-workspace/src/preservation.rs], [preservation_bundle.rs],
    [preservation_cleanup.rs], [preservation_io.rs], [repository_preservation.rs]
    and [PrivateClone::cleanup]: a workspace is deleted only against the sealed
    receipt of a salvage artifact that is verified again right before the deletion.

    The state is a [holding]: the site of the workspace, the directories outside it
    by their absolute path, and the files of the runtime directory.  The content
    store and its copy in an artifact are the same map in two representations,
    [cas_tree] and [cas_view].  Removal exposes whatever states the system goes
    through. *)

From S2P Require Import Prelude Paths Digests Ids Proposal Journal Protocol Disk Cas Generation Capability Artifact Scope Apply SafeGit Repository Publication.

Definition PRESERVATION_SCHEMA_VERSION : N := 1.
Definition SEAL_DOMAIN : string := "bullet-git-preservation-receipt-v1".
Definition STATE_DOMAIN : string := "bullet-git-preservation-state-v1".
Definition MAX_RECEIPT_HEX_BYTES : N := 64 * 1024.
Definition EXPECTED_ARTIFACT_ENTRIES : list string :=
  ["cas"; "generation"; "repository.bundle"; "subject.json"; "workspace.json"].
Definition MAX_STATUS_BYTES : N := 16 * 1024 * 1024.
Definition MAX_STATUS_ENTRIES : N := 100000.
Definition SEAL_FILE : string := "preservation-seal-v1.key".

(** ** Data *)

Record WorkingEntry : Type := {
  we_path : string;
  we_status : string;
  we_kind : string;
  we_content_digest : option Digest
}.

#[export] Instance WorkingEntry_eq_dec : EqDecision WorkingEntry.
Proof. solve_decision. Defined.

Record PreservationState : Type := {
  ps_schema_version : N;
  ps_attempt_id : string;
  ps_attempt_fence : N;
  ps_workspace_nonce_hex : string;
  ps_generation : N;
  ps_git_tree : GitOid;
  ps_generation_digest : Digest;
  ps_dirty_untracked : list WorkingEntry;
  ps_journal_start : N;
  ps_journal_end : N;
  ps_journal_root : Digest
}.

#[export] Instance PreservationState_eq_dec : EqDecision PreservationState.
Proof. solve_decision. Defined.

Record ReceiptPayload : Type := {
  rpl_schema_version : N;
  rpl_state_digest : Digest;
  rpl_artifact_digest : Digest;
  rpl_destination : string;
  rpl_destination_device : N;
  rpl_destination_inode : N;
  rpl_cleanup_target : string
}.
Record SealedReceipt : Type := { sr_payload : ReceiptPayload; sr_tag : Digest }.

(** [PreservationReceipt] *)
Record IssuedReceipt : Type := {
  ir_token : string;
  ir_receipt_digest : Digest;
  ir_destination : string;
  ir_artifact_digest : Digest
}.

Record CleanupPermit : Type := {
  cpm_attempt_id : string;
  cpm_workspace_nonce_hex : string;
  cpm_work_dir : string;
  cpm_receipt_digest : Digest;
  cpm_destination : string;
  cpm_destination_device : N;
  cpm_destination_inode : N;
  cpm_artifact_digest : Digest;
  cpm_state : PreservationState
}.

Record DestinationIdentity : Type := { di_canonical : string; di_device : N; di_inode : N }.

Record Tombstone : Type := {
  tb_schema_version : N;
  tb_attempt_id : string;
  tb_variant_id : string;
  tb_deleted_at : string;
  tb_nonce_hex : string;
  tb_preservation_receipt_digest : string;
  tb_preservation_artifact_digest : string;
  tb_preservation_destination : string
}.

(** [serde_json] on these types, and BLAKE3 in keyed mode. *)
Class ReceiptCodec : Type := {
  encode_state : PreservationState → result bytes string;
  decode_state : bytes → result PreservationState string;
  encode_payload : ReceiptPayload → result bytes string;
  encode_sealed : SealedReceipt → result bytes string;
  decode_sealed : bytes → result SealedReceipt string;
  encode_tombstone : Tombstone → result bytes string
}.
Class KeyedBlake3 : Type := keyed_hash : bytes → bytes → Digest.

(** ** The state and the system *)

Record holding : Type := {
  hd_site : site;
  hd_artifacts : gmap string node;
  hd_runtime : gmap string node
}.
Abbreviation keep_script := (script holding CapabilityError).

Definition with_site (s : site) (h : holding) : holding :=
  {| hd_site := s; hd_artifacts := hd_artifacts h; hd_runtime := hd_runtime h |}.
Definition with_artifact (path : string) (n : node) (h : holding) : holding :=
  {| hd_site := hd_site h; hd_artifacts := <[absolute (components path) := n]> (hd_artifacts h);
     hd_runtime := hd_runtime h |}.
Definition with_runtime (name : string) (n : node) (h : holding) : holding :=
  {| hd_site := hd_site h; hd_artifacts := hd_artifacts h; hd_runtime := <[name := n]> (hd_runtime h) |}.

(** The replies of the system beside those on the site. *)
Record keep_env : Type := {
  ke_repo : repo_env;
  ke_fs : gen_env;                                   (** calls on artifacts and on the runtime directory *)
  ke_canonicalize : string → result string string;
  ke_identity : string → N * N;                      (** device and inode *)
  ke_bundle : option node;                           (** what [git bundle create] leaves at its path *)
  ke_cas_root : result string string;                (** the admission of an artifact's content store *)
  ke_cas_scan : scan_env;
  ke_get : string → option string * verify_io;       (** of [get] in it, by object name *)
  ke_removal : wspace → list wspace * option string; (** the states and the error of [remove_dir_all] *)
  ke_random : result bytes string                    (** 32 bytes of [/dev/urandom] *)
}.

Definition on_site {A} (m : script site CapabilityError A) : keep_script A := script_in hd_site with_site m.

Definition keep_call (env : keep_env) (context path : string) : result unit PreservationError :=
  artifact_call (ke_fs env) context path.
Definition refused_call (env : keep_env) (context path : string) : result unit PreservationError :=
  match ge_io (ke_fs env) context path with
  | Some e => Err (PvReceiptRefused (context +:+ ": " +:+ e))
  | None => Ok tt
  end.
Definition preserving {A} (r : result A PreservationError) : result A CapabilityError :=
  map_err CapPreservation r.

(** The content store as a directory, and back.  What is not a regular file is
    represented by what [exists] says of it. *)
Definition cas_tree_entry (e : cas_entry) : node :=
  match e with
  | CFile contents readonly => NFile contents (if readonly then 256 else 384)
  | COther true => NDir DIR_MODE []
  | COther false => NSymlink ""
  end.
Definition cas_tree (d : cas_dir) : node :=
  NDir PRIVATE_DIR_MODE (map (λ row, (fst row, cas_tree_entry (snd row))) (map_to_list d)).
Definition cas_view_entry (n : node) : cas_entry :=
  match n with
  | NFile contents mode => CFile contents (N.land mode 146 =? 0)
  | NSymlink _ => COther false
  | _ => COther true
  end.
Definition cas_view (n : option node) : cas_dir :=
  match n with
  | Some (NDir _ es) => list_to_map (map (λ row, (fst row, cas_view_entry (snd row))) es)
  | _ => ∅
  end.

#[local] Open Scope script_scope.

Section Preservation.
Context `{Blake3, HexCrate, StrDebug, GenerationCodec, BatchCodec, CapabilityText, GitBinary, Unicode,
  CharCase, TokenDecoder, ReceiptCodec, KeyedBlake3}.

(** ** The state of a workspace ([repository_preservation.rs]) *)

(** [PreservationState::new] *)
Definition state_new (authority : ExpectedAuthority) (generation : N) (git_tree : GitOid)
    (generation_digest : Digest) (dirty_untracked : list WorkingEntry) (journal_end : N)
    (journal_root : Digest) : PreservationState := {|
  ps_schema_version := PRESERVATION_SCHEMA_VERSION;
  ps_attempt_id := ea_attempt_id authority;
  ps_attempt_fence := ea_attempt_fence authority;
  ps_workspace_nonce_hex := hex_encode (ea_workspace_nonce authority);
  ps_generation := generation;
  ps_git_tree := git_tree;
  ps_generation_digest := generation_digest;
  ps_dirty_untracked := dirty_untracked;
  ps_journal_start := if 0 <? journal_end then 1 else 0;
  ps_journal_end := journal_end;
  ps_journal_root := journal_root |}.

(** [working_entry_identity], with [hash_file] *)
Definition working_entry_identity (env : keep_env) (repo : string) (tree : node) (path : string)
    : result (string * option Digest) CapabilityError :=
  let file := join repo path in
  let reply context := re_fs (ke_repo env) context file in
  match reply "inspect working-state entry" with
  | Some e => Err (io_err "inspect working-state entry" e)
  | None =>
      match walk_path (ke_repo env) repo tree path with
      | Absent => Ok ("absent", None)
      | NotDirectory => Err (io_err "inspect working-state entry" not_a_directory)
      | Present (NFile contents _) =>
          match reply "open working file", reply "hash working file" with
          | Some e, _ => Err (io_err "open working file" e)
          | None, Some e => Err (io_err "hash working file" e)
          | None, None => Ok ("file", Some (digest_of contents))
          end
      | Present (NSymlink target) =>
          match reply "read working-state symlink" with
          | Some e => Err (io_err "read working-state symlink" e)
          | None => Ok ("symlink", Some (digest_of (as_bytes target)))
          end
      | Present (NDir m es) =>
          let? digest := preserving (hash_artifact (ke_fs env) file (Some (NDir m es))) in
          Ok ("directory", Some digest)
      | Present NSpecial =>
          Err (CapPreservation (PvUnsupported "special working-state filesystem entry"))
      end
  end.

Definition is_ascii (b : bytes) : bool := forallb (byte_in 0 127) b.

(** One round of the loop of [working_manifest]. *)
Definition working_entry (env : keep_env) (repo : string) (tree : node) (raw : bytes)
    : result WorkingEntry CapabilityError :=
  match raw with
  | a :: b :: c :: rest =>
      fail_if ((blen raw <? 4) || negb (Byte.eqb c x20) || negb (is_ascii [a; b]))
        (CapPreservation (PvCorrupt "Git emitted malformed NUL status data")) ;?
      let? status := ok_or (from_utf8 [a; b]) (CapPreservation (PvCorrupt "invalid utf-8")) in
      let? path := ok_or (from_utf8 rest) (CapPreservation (PvUnsupported "non-UTF-8 working path")) in
      let? normalized := normalize_rel_path path in
      let? '(kind, digest) := working_entry_identity env repo tree normalized in
      Ok {| we_path := normalized; we_status := status; we_kind := kind; we_content_digest := digest |}
  | _ => Err (CapPreservation (PvCorrupt "Git emitted malformed NUL status data"))
  end.

Fixpoint working_loop (env : keep_env) (repo : string) (tree : node) (count : N) (raws : list bytes)
    : result (list WorkingEntry) CapabilityError :=
  match raws with
  | [] => Ok []
  | raw :: raws =>
      fail_if (MAX_STATUS_ENTRIES <=? count)
        (CapPreservation (PvUnsupported "working-state manifest exceeds the admitted entry bound")) ;?
      let? entry := working_entry env repo tree raw in
      let? entries := working_loop env repo tree (count + 1) raws in
      Ok (entry :: entries)
  end.

Definition entry_le (a b : WorkingEntry) : Prop := String.le (we_path a) (we_path b).
#[local] Instance entry_le_dec : RelDecision entry_le.
Proof. intros a b. unfold entry_le. apply _. Defined.

Fixpoint adjacent_twins (l : list WorkingEntry) : bool :=
  match l with
  | a :: (b :: _) as rest => String.eqb (we_path a) (we_path b) || adjacent_twins rest
  | _ => false
  end.

Definition status_args : list string :=
  ["status"; "--porcelain=v1"; "-z"; "--untracked-files=all"; "--ignored=matching"; "--no-renames"].

(** [RealRepository::working_manifest] *)
Definition working_manifest (env : keep_env) : script site CapabilityError (list WorkingEntry) :=
  exec self := get_self in
  exec out := git_at (ke_repo env) (gs_active_repo (store_of self)) (repo_dir self) status_args [] in
  lift (fail_if (MAX_STATUS_BYTES <? blen out)
    (CapPreservation (PvUnsupported "working-state manifest exceeds the admitted byte bound"))) ;;
  exec entries := read (λ s, working_loop env (repo_dir self) (active_tree s) 0
    (List.filter (λ raw, negb (bool_decide (raw = []))) (split_nul out))) in
  let sorted := merge_sort entry_le entries in
  lift (fail_if (adjacent_twins sorted)
    (CapPreservation (PvCorrupt "working-state manifest contains duplicate paths"))) ;;
  script_ret sorted.

(** The directory of the active generation. *)
Definition generation_node (s : site) : option node :=
  generations_of (st_work s) !! gs_active_repo (store_of (st_self s)).

(** [RealRepository::preservation_state] *)
Definition preservation_state (env : keep_env) (auth : AuthorityEnvelope)
    : script site CapabilityError PreservationState :=
  exec self := get_self in
  lift (Repository.require_healthy self) ;;
  exec _token := lift (require (rr_expected self) auth) in
  guard (ke_repo env) ;;
  read (λ s, sequencer_check (re_resolves (ke_repo env)) (repo_dir self) (active_tree s)) ;;
  exec checkpoint := validate_active_checkpoint (ke_repo env) in
  exec git_tree := lift (ok_or (ckp_git_tree checkpoint)
    (CapPreservation (PvCorrupt "active checkpoint has no Git tree"))) in
  exec dirty := working_manifest env in
  exec digest := read (λ s, preserving (hash_artifact (ke_fs env) (active_dir self) (generation_node s))) in
  script_ret (state_new (rr_expected self) (gm_generation (gs_active (store_of self))) git_tree digest dirty
                (ckp_through_seq checkpoint) (ckp_tree checkpoint)).

(** [preservation_state_digest] *)
Definition preservation_state_digest (state : PreservationState) : result Digest PreservationError :=
  let? encoded := map_err (λ e, PvCorrupt ("encode state: " +:+ e)) (encode_state state) in
  Ok (framed_digest [as_bytes STATE_DOMAIN; encoded]).

(** ** Receipts ([preservation_bundle.rs]) *)

(** What [seal_payload] feeds the keyed hasher. *)
Definition seal_bytes (encoded : bytes) : bytes :=
  as_bytes SEAL_DOMAIN ++ u64_le_bytes (blen encoded) ++ encoded.

(** [seal_payload] *)
Definition seal_payload (seal : bytes) (payload : ReceiptPayload) : result Digest PreservationError :=
  let? encoded := map_err (λ e, PvCorrupt ("encode receipt payload: " +:+ e)) (encode_payload payload) in
  Ok (keyed_hash seal (seal_bytes encoded)).

(** [encode_receipt] *)
Definition encode_receipt (receipt : SealedReceipt) : result string PreservationError :=
  map_err (λ e, PvCorrupt ("encode receipt: " +:+ e)) (res_map hex_encode (encode_sealed receipt)).

(** [u8::is_ascii_hexdigit] *)
Definition is_ascii_hexdigit (b : byte) : bool := byte_in 48 57 b || byte_in 65 70 b || byte_in 97 102 b.

(** [decode_receipt] *)
Definition decode_receipt (token : string) : result SealedReceipt PreservationError :=
  fail_if (String.eqb token "" || (MAX_RECEIPT_HEX_BYTES <? slen token) || negb (slen token mod 2 =? 0)
           || negb (forallb is_ascii_hexdigit (as_bytes token)))
    (PvReceiptRefused "receipt encoding is invalid or oversized") ;?
  let? raw := map_err (λ e, PvReceiptRefused ("decode receipt: " +:+ e)) (hex_decode token) in
  let? receipt := map_err (λ e, PvReceiptRefused ("parse receipt: " +:+ e)) (decode_sealed raw) in
  let? canonical := encode_receipt receipt in
  fail_if (negb (String.eqb canonical token))
    (PvReceiptRefused "receipt encoding is not canonical lowercase JSON hex") ;?
  Ok receipt.

(** [constant_time_equal] *)
Definition constant_time_equal (left right : bytes) : bool :=
  (blen left =? blen right)
  && (foldl (λ difference ab, N.lor difference (N.lxor (Byte.to_N (fst ab)) (Byte.to_N (snd ab)))) 0
        (zip left right) =? 0).

(** [require_destination_identity] *)
Definition require_destination_identity (payload : ReceiptPayload) (identity : DestinationIdentity)
    : result unit PreservationError :=
  if String.eqb (di_canonical identity) (rpl_destination payload)
     && (di_device identity =? rpl_destination_device payload)
     && (di_inode identity =? rpl_destination_inode payload)
  then Ok tt else Err (PvReceiptRefused "destination device or inode changed").

(** [destination_identity] *)
Definition destination_identity (env : keep_env) (path : string) (n : option node)
    : result DestinationIdentity PreservationError :=
  refused_call env "destination missing" path ;?
  let? n := ok_or n (PvReceiptRefused ("destination missing: " +:+ not_found)) in
  fail_if (negb (is_dir (Some n))) (PvReceiptRefused "destination is no longer an ordinary directory") ;?
  let? canonical := map_err (λ e, PvReceiptRefused ("canonicalize destination: " +:+ e))
                      (ke_canonicalize env path) in
  fail_if (negb (same_path canonical path)) (PvReceiptRefused "destination path identity changed") ;?
  Ok {| di_canonical := canonical; di_device := fst (ke_identity env path); di_inode := snd (ke_identity env path) |}.

(** [verify_artifact_shape] *)
Definition verify_artifact_shape (env : keep_env) (destination : string) (n : option node)
    : result unit PreservationError :=
  refused_call env "read artifact" destination ;?
  match n with
  | Some (NDir _ es) =>
      if bool_decide (list_to_set (C := gset string) es.*1 = list_to_set EXPECTED_ARTIFACT_ENTRIES)
      then Ok tt else Err (PvReceiptRefused "artifact entry set changed")
  | Some _ => Err (PvReceiptRefused ("read artifact: " +:+ not_a_directory))
  | None => Err (PvReceiptRefused ("read artifact: " +:+ not_found))
  end.

(** ** Artifacts *)

Definition artifact (destination : string) (h : holding) : option node :=
  hd_artifacts h !! absolute (components destination).
Definition artifact_child (destination name : string) (h : holding) : option node :=
  child (artifact destination h) name.
Definition put_artifact_child (destination name : string) (n : node) (h : holding) : holding :=
  match artifact destination h with
  | Some t => with_artifact destination (put_child t name n) h
  | None => h
  end.

(** A command of the workspace's Git on the active repository. *)
Definition workspace_git (env : keep_env) (args : list string) : keep_script bytes :=
  on_site (exec self := get_self in
    git_at (ke_repo env) (gs_active_repo (store_of self)) (repo_dir self) args []).

(** [verify_bundle] *)
Definition verify_bundle (env : keep_env) (destination : string) : keep_script unit :=
  let path := join destination "repository.bundle" in
  exec n := read (λ h, preserving (
    refused_call env "preservation bundle missing" path ;?
    ok_or (artifact_child destination "repository.bundle" h)
      (PvReceiptRefused ("preservation bundle missing: " +:+ not_found)))) in
  lift (fail_if (negb (is_file n))
    (CapPreservation (PvReceiptRefused "preservation bundle is not an ordinary file"))) ;;
  script_map_err (λ e, CapPreservation (PvReceiptRefused ("preservation bundle invalid: "
                                                          +:+ capability_display e)))
    (exec _out := workspace_git env ["bundle"; "verify"; path] in script_ret tt).

(** [create_and_verify_bundle] *)
Definition create_and_verify_bundle (env : keep_env) (destination : string) : keep_script unit :=
  let path := join destination "repository.bundle" in
  exec present := read (λ h, Ok (artifact_child destination "repository.bundle" h)) in
  match present with
  | Some _ => script_ret tt
  | None =>
      exec _out := workspace_git env ["bundle"; "create"; path; "--all"] in
      match ke_bundle env with
      | Some bundle => step (put_artifact_child destination "repository.bundle" bundle)
      | None => script_ret tt
      end
  end ;;
  verify_bundle env destination.

(** [DurableJournal::open] of the artifact. *)
Definition open_artifact_journal (env : keep_env) (destination : string) : script holding JournalError DurableJournal :=
  let generation := join destination "generation" in
  let path := join generation "journal" in
  exec t := read (λ h, Ok (artifact_child destination "generation" h)) in
  let meta := journal_meta (ke_repo env) path (child t "journal") in
  let create := re_fs (ke_repo env) "create journal" path in
  match meta, create, t with
  | MetaMissing, None, Some t => step (put_artifact_child destination "generation" (put_child t "journal" (NDir DIR_MODE [])))
  | _, _, _ => script_ret tt
  end ;;
  lift (journal_open meta create (re_fs (ke_repo env) "sync journal directory" path)
          (re_fs (ke_repo env) "sync journal directory" generation) (listing (child t "journal"))).

(** [ImmutableCas::open] of the artifact. *)
Definition open_artifact_cas (env : keep_env) (destination : string) (n : option node)
    : result ImmutableCas CasError :=
  let path := join destination "cas" in
  cas_open (ke_cas_scan env)
    (if is_dir n then ke_cas_root env else Err (path +:+ " is not an ordinary directory"))
    (Ok (map (λ row, Ok (Some (fst row), snd row)) (map_to_list (cas_view n))))
    (ge_io (ke_fs env) "sync CAS directory" path).

(** The inner loop of [verify_salvage_objects] on one operation. *)
Definition salvage_op (env : keep_env) (d : cas_dir) (cas : ImmutableCas) (op : JournalOp)
    : result unit CapabilityError :=
  try_for (λ digest,
    let '(inspect, io) := ke_get env (to_hex digest) in
    let? found := map_err CapContentStore (get inspect io d cas digest) in
    fail_if (negb (bool_decide (is_Some found)))
      (CapPreservation (PvReceiptRefused ("artifact journal sequence " +:+ u64_to_string (jo_seq op)
         +:+ " lacks CAS object " +:+ to_hex digest))))
    (option_list (jo_before op) ++ option_list (jo_after op)).

(** [verify_salvage_objects] *)
Definition verify_salvage_objects (env : keep_env) (destination : string) (state : PreservationState)
    : keep_script unit :=
  exec digest := read (λ h, preserving (hash_artifact (ke_fs env) (join destination "generation")
    (artifact_child destination "generation" h))) in
  lift (fail_if (negb (bool_decide (digest = ps_generation_digest state)))
    (CapPreservation (PvReceiptRefused "preserved generation differs from the exact source generation"))) ;;
  exec journal := script_map_err from_journal_error (open_artifact_journal env destination) in
  let checkpoint := checkpoint (dj_ops journal) in
  lift (fail_if (negb (ckp_through_seq checkpoint =? ps_journal_end state)
                 || negb (bool_decide (ckp_tree checkpoint = ps_journal_root state)))
    (CapPreservation (PvReceiptRefused "preserved journal range or root differs from the receipt subject"))) ;;
  exec view := read (λ h, Ok (artifact_child destination "cas" h)) in
  exec cas := lift (map_err CapContentStore (open_artifact_cas env destination view)) in
  lift (try_for (salvage_op env (cas_view view) cas) (dj_ops journal)).

(** Reading [subject.json]. *)
Definition read_subject (env : keep_env) (destination : string) (n : option node)
    : result PreservationState PreservationError :=
  let path := join destination "subject.json" in
  refused_call env "read artifact subject" path ;?
  match n with
  | Some (NFile contents _) =>
      map_err (λ e, PvReceiptRefused ("decode artifact subject: " +:+ e)) (decode_state contents)
  | Some _ => Err (PvReceiptRefused ("read artifact subject: " +:+ is_a_directory))
  | None => Err (PvReceiptRefused ("read artifact subject: " +:+ not_found))
  end.

(** The checks of the artifact that authorization and revalidation share, each
    with its own refusals. *)
Definition require_subject (env : keep_env) (destination : string) (state : PreservationState) (refusal : string)
    : keep_script unit :=
  exec recorded := read (λ h, preserving (read_subject env destination (artifact_child destination "subject.json" h))) in
  lift (fail_if (negb (bool_decide (recorded = state))) (CapPreservation (PvReceiptRefused refusal))).
Definition require_digest (env : keep_env) (destination : string) (expected : Digest) (refusal : string)
    : keep_script unit :=
  exec digest := read (λ h, preserving (hash_artifact (ke_fs env) destination (artifact destination h))) in
  lift (fail_if (negb (bool_decide (digest = expected))) (CapPreservation (PvReceiptRefused refusal))).
Definition require_shape (env : keep_env) (destination : string) : keep_script unit :=
  read (λ h, preserving (verify_artifact_shape env destination (artifact destination h))).

(** The five checks in their order. *)
Definition require_artifact (env : keep_env) (destination : string) (state : PreservationState)
    (expected : Digest) (subject_refusal digest_refusal : string) : keep_script unit :=
  require_shape env destination ;;
  require_subject env destination state subject_refusal ;;
  verify_salvage_objects env destination state ;;
  verify_bundle env destination ;;
  require_digest env destination expected digest_refusal.

(** [PreservationAuthority::authorize_cleanup], of the authority [seal] *)
Definition authorize_cleanup (env : keep_env) (seal : bytes) (auth : AuthorityEnvelope) (token : string)
    : keep_script CleanupPermit :=
  exec sealed := lift (preserving (decode_receipt token)) in
  let payload := sr_payload sealed in
  exec expected_tag := lift (preserving (seal_payload seal payload)) in
  lift (fail_if (negb (constant_time_equal (digest_as_bytes expected_tag) (digest_as_bytes (sr_tag sealed))))
    (CapPreservation (PvReceiptRefused "receipt seal is invalid"))) ;;
  exec state := on_site (preservation_state env auth) in
  exec matches := lift (if rpl_schema_version payload =? PRESERVATION_SCHEMA_VERSION
    then res_map (λ d, bool_decide (rpl_state_digest payload = d)) (preserving (preservation_state_digest state))
    else Ok false) in
  lift (fail_if (negb matches)
    (CapPreservation (PvReceiptRefused "receipt subject no longer matches the workspace"))) ;;
  exec work_dir := read (λ h, Ok (gs_work_dir (store_of (st_self (hd_site h))))) in
  lift (fail_if (negb (String.eqb (rpl_cleanup_target payload) work_dir))
    (CapPreservation (PvReceiptRefused "cleanup target does not match the sealed receipt"))) ;;
  let destination := rpl_destination payload in
  exec identity := read (λ h, preserving (destination_identity env destination (artifact destination h))) in
  lift (preserving (require_destination_identity payload identity)) ;;
  require_artifact env destination state (rpl_artifact_digest payload)
    "artifact subject does not match current state" "artifact digest changed" ;;
  script_ret {|
    cpm_attempt_id := ps_attempt_id state; cpm_workspace_nonce_hex := ps_workspace_nonce_hex state;
    cpm_work_dir := work_dir; cpm_receipt_digest := digest_of (as_bytes token); cpm_destination := destination;
    cpm_destination_device := di_device identity; cpm_destination_inode := di_inode identity;
    cpm_artifact_digest := rpl_artifact_digest payload; cpm_state := state |}.

(** ** Cleanup ([preservation_cleanup.rs], [clone.rs]) *)

(** [PrivateClone::reopen_generation] *)
Definition reopen_generation (env : keep_env) : script site CapabilityError unit :=
  exec self := get_self in
  exec store := read (λ s, map_err CapGeneration (generation_open (re_open (ke_repo env)) (st_work s)
    (gs_work_dir (store_of self)) (wm_attempt_id (pc_manifest (rr_workspace self)))
    (wm_nonce_hex (pc_manifest (rr_workspace self))))) in
  step (on_self (with_store store)).

(** [CleanupPermit::matches] *)
Definition permit_matches (p : CleanupPermit) (attempt_id nonce_hex work_dir : string) : bool :=
  String.eqb (cpm_attempt_id p) attempt_id && String.eqb (cpm_workspace_nonce_hex p) nonce_hex
  && same_path (cpm_work_dir p) work_dir.

(** [CleanupPermit::revalidate] *)
Definition revalidate (env : keep_env) (p : CleanupPermit) : keep_script unit :=
  let state := cpm_state p in
  let destination := cpm_destination p in
  on_site (reopen_generation env) ;;
  exec current := on_site (exec self := get_self in
    if gm_generation (gs_active (store_of self)) =? ps_generation state
    then exec digest := read (λ s, preserving (hash_artifact (ke_fs env) (active_dir self) (generation_node s))) in
         script_ret (bool_decide (digest = ps_generation_digest state))
    else script_ret false) in
  lift (fail_if (negb current)
    (CapPreservation (PvReceiptRefused "active generation changed after cleanup authorization"))) ;;
  exec identity := read (λ h, preserving (destination_identity env destination (artifact destination h))) in
  lift (fail_if (negb (di_device identity =? cpm_destination_device p)
                 || negb (di_inode identity =? cpm_destination_inode p))
    (CapPreservation (PvReceiptRefused "destination identity changed before cleanup"))) ;;
  require_artifact env destination state (cpm_artifact_digest p)
    "artifact subject changed before cleanup" "artifact digest changed before cleanup".

(** A deleted work directory. *)
Definition gone : wspace := {| w_is_dir := false; w_entries := ∅; w_generations := None |}.

Definition outcome_lost (context e : string) : CapabilityError :=
  CapPreservation (PvOutcomeUnknown (context +:+ ": " +:+ e)).

(** [fs::remove_dir_all] of the work directory. *)
Definition remove_workspace (env : keep_env) : keep_script unit := λ h,
  let seen w := with_site (with_work w (hd_site h)) h in
  let '(states, failure) := ke_removal env (st_work (hd_site h)) in
  match failure with
  | Some e => (map seen states, Err (outcome_lost "delete workspace" e))
  | None => (map seen states ++ [seen gone], Ok tt)
  end.

(** [write_new_durable_file] of the tombstone; the error is [Some e] in the first
    failing call. *)
Definition write_tombstone (env : keep_env) (path : string) (encoded : bytes) : keep_script unit :=
  let call context := match ge_io (ke_fs env) context path with
                      | Some e => Err (outcome_lost "persist cleanup tombstone" e)
                      | None => Ok tt
                      end in
  let name := "tombstone.json" in
  read (λ h, call "create durable file" ;?
             fail_if (bool_decide (is_Some (hd_runtime h !! name)))
               (outcome_lost "persist cleanup tombstone" file_exists)) ;;
  step (with_runtime name (NFile [] PRIVATE_FILE_MODE)) ;;
  match ge_io (ke_fs env) "write durable file" path with
  | Some e =>
      step (with_runtime name (NFile (take (ge_written (ke_fs env)) encoded) PRIVATE_FILE_MODE)) ;;
      lift (Err (outcome_lost "persist cleanup tombstone" e))
  | None => step (with_runtime name (NFile encoded PRIVATE_FILE_MODE))
  end ;;
  lift (call "sync durable file") ;;
  lift (call "sync durable directory").

Definition tombstone_of (manifest : WorkspaceManifest) (p : CleanupPermit) (deleted_at : string) : Tombstone := {|
  tb_schema_version := 1; tb_attempt_id := wm_attempt_id manifest; tb_variant_id := wm_variant_id manifest;
  tb_deleted_at := deleted_at; tb_nonce_hex := wm_nonce_hex manifest;
  tb_preservation_receipt_digest := to_hex (cpm_receipt_digest p);
  tb_preservation_artifact_digest := to_hex (cpm_artifact_digest p);
  tb_preservation_destination := cpm_destination p |}.

(** [PrivateClone::cleanup] *)
Definition cleanup (env : keep_env) (p : CleanupPermit) (deleted_at : string) : keep_script string :=
  exec self := read (λ h, Ok (st_self (hd_site h))) in
  let work_dir := gs_work_dir (store_of self) in
  let manifest := pc_manifest (rr_workspace self) in
  lift (fail_if (negb (permit_matches p (wm_attempt_id manifest) (wm_nonce_hex manifest) work_dir))
    (CapPreservation (PvReceiptRefused "cleanup permit does not bind this exact workspace"))) ;;
  revalidate env p ;;
  read (λ h,
    match ge_io (ke_fs env) "inspect cleanup target" work_dir with
    | Some e => Err (io_err "inspect cleanup target" e)
    | None =>
        let? canonical := map_err (io_err "canonicalize cleanup target") (ke_canonicalize env work_dir) in
        fail_if (negb (w_is_dir (st_work (hd_site h))) || negb (same_path canonical work_dir))
          (CapPreservation (PvReceiptRefused "cleanup target path identity changed"))
    end) ;;
  remove_workspace env ;;
  lift (match ge_io (ke_fs env) "sync cleanup parent" work_dir with
        | Some e => Err (outcome_lost "sync cleanup parent" e)
        | None => Ok tt
        end) ;;
  let path := join (pc_runtime_dir (rr_workspace self)) "tombstone.json" in
  exec encoded := lift (map_err (outcome_lost "encode cleanup tombstone")
                          (encode_tombstone (tombstone_of manifest p deleted_at))) in
  write_tombstone env path encoded ;;
  script_ret path.

(** [PreservationAuthority::cleanup], of the authority [seal]; [env'] has the
    replies after the authorization. *)
Definition authority_cleanup (env env' : keep_env) (seal : bytes) (auth : AuthorityEnvelope)
    (token deleted_at : string) : keep_script string :=
  exec permit := authorize_cleanup env seal auth token in
  cleanup env' permit deleted_at.

(** ** The seal and the destination ([preservation_io.rs]) *)

(** [validate_seal_file]; only the owner may read the seal, and it has one link. *)
Definition validate_seal_file (env : keep_env) (path : string) (n : option node) (links : N)
    : result unit PreservationError :=
  keep_call env "inspect private preservation seal" path ;?
  match n with
  | None => Err (preservation_io "inspect private preservation seal" not_found)
  | Some (NFile contents mode) =>
      fail_if (negb (blen contents =? 32))
        (PvCorrupt "preservation seal is not one ordinary 32-byte file") ;?
      fail_if (negb (N.land mode 63 =? 0) || negb (links =? 1))
        (PvCorrupt "preservation seal permissions or link count changed")
  | Some _ => Err (PvCorrupt "preservation seal is not one ordinary 32-byte file")
  end.

(** [read_seal] *)
Definition read_seal (env : keep_env) (path : string) (n : option node) (links : N)
    : result bytes PreservationError :=
  validate_seal_file env path n links ;?
  keep_call env "read private preservation seal" path ;?
  match n with
  | Some (NFile contents _) =>
      fail_if (negb (blen contents =? 32)) (PvCorrupt "preservation seal length changed") ;? Ok contents
  | _ => Err (PvCorrupt "preservation seal length changed")
  end.

(** [open_private_seal]; [links] is the link count of the file. *)
Definition open_private_seal (env : keep_env) (runtime : string) (links : N)
    : script holding PreservationError bytes :=
  let path := join runtime SEAL_FILE in
  let seal h := hd_runtime h !! SEAL_FILE in
  lift (keep_call env "create private preservation seal" path) ;;
  exec present := read (λ h, Ok (bool_decide (is_Some (seal h)))) in
  if present then read (λ h, read_seal env path (seal h) links)
  else
    step (with_runtime SEAL_FILE (NFile [] PRIVATE_FILE_MODE)) ;;
    exec key := lift (map_err (preservation_io "read operating-system randomness") (ke_random env)) in
    match ge_io (ke_fs env) "write private preservation seal" path with
    | Some e =>
        step (with_runtime SEAL_FILE (NFile (take (ge_written (ke_fs env)) key) PRIVATE_FILE_MODE)) ;;
        lift (Err (preservation_io "write private preservation seal" e))
    | None => step (with_runtime SEAL_FILE (NFile key PRIVATE_FILE_MODE))
    end ;;
    lift (keep_call env "sync preservation seal directory" runtime) ;;
    read (λ h, validate_seal_file env path (seal h) links) ;;
    script_ret key.

Fixpoint is_prefix (p q : list string) : bool :=
  match p, q with
  | [], _ => true
  | a :: p, b :: q => String.eqb a b && is_prefix p q
  | _ :: _, [] => false
  end.

(** [paths_overlap] *)
Definition paths_overlap (left right : string) : bool :=
  is_prefix (components right) (components left) || is_prefix (components left) (components right).

(** [invalid_destination] *)
Definition invalid_destination (context error : string) : PreservationError :=
  PvInvalidDestination (context +:+ ": " +:+ error).
Definition destination_call (env : keep_env) (context path : string) : result unit PreservationError :=
  match ge_io (ke_fs env) context path with Some e => Err (invalid_destination context e) | None => Ok tt end.

(** The checks of [create_external_destination], with the parent directory. *)
Definition admit_destination (env : keep_env) (requested : string) (forbidden : list string)
    : result string PreservationError :=
  match reverse (components requested) with
  | name :: parent =>
      fail_if (negb (starts_with "/" requested) || String.eqb name "..")
        (PvInvalidDestination "destination must be an absolute new directory") ;?
      let parent := absolute (reverse parent) in
      let? canonical := map_err (invalid_destination "canonicalize destination parent")
                          (ke_canonicalize env parent) in
      fail_if (negb (same_path parent canonical))
        (PvInvalidDestination "destination parent contains a symlink or non-canonical component") ;?
      try_for (λ target,
        let? canonical := map_err (invalid_destination "canonicalize cleanup target") (ke_canonicalize env target) in
        fail_if (paths_overlap requested canonical)
          (PvInvalidDestination ("destination overlaps cleanup-owned path " +:+ canonical))) forbidden ;?
      Ok parent
  | [] => Err (PvInvalidDestination "destination must be an absolute new directory")
  end.

(** [create_external_destination] *)
Definition create_external_destination (env : keep_env) (requested : string) (forbidden : list string)
    : script holding PreservationError DestinationIdentity :=
  exec parent := lift (admit_destination env requested forbidden) in
  read (λ h, destination_call env "inspect destination" requested ;?
             fail_if (bool_decide (is_Some (artifact requested h)))
               (PvInvalidDestination "destination already exists")) ;;
  lift (destination_call env "create destination" requested) ;;
  step (with_artifact requested (NDir DIR_MODE [])) ;;
  lift (keep_call env "secure destination" requested) ;;
  step (with_artifact requested (NDir PRIVATE_DIR_MODE [])) ;;
  lift (keep_call env "sync destination parent" parent) ;;
  read (λ h, destination_identity env requested (artifact requested h)).

(** [GenerationError]'s [Display] *)
Definition generation_display (e : GenerationError) : string :=
  match e with
  | GenCorrupt m => "corrupt workspace generation: " +:+ m
  | GenUnsupported m => "unsupported generation backend: " +:+ m
  | GenIo m => "workspace generation io failure: " +:+ m
  | GenOutcomeUnknown m => "generation publication outcome is unknown: " +:+ m
  end.
(** [copy_artifact_tree], of the tree [n]; what a failing copy leaves is exposed. *)
Definition copy_artifact_tree (env : keep_env) (source destination name : string) (n : holding → option node)
    : script holding PreservationError unit := λ h,
  let '(copied, r) := copy_tree (ke_fs env) source (n h) in
  (match copied with Some c => [put_artifact_child destination name c h] | None => [] end,
   map_err (λ e, PvIo (generation_display e)) r).

(** [copy_artifact_file] *)
Definition copy_artifact_file (env : keep_env) (source destination name : string) (n : holding → option node)
    : script holding PreservationError unit :=
  exec contents := read (λ h,
    keep_call env "inspect artifact file" source ;?
    match n h with
    | None => Err (preservation_io "inspect artifact file" not_found)
    | Some (NFile contents _) => keep_call env "open artifact source" source ;? Ok contents
    | Some _ => Err (PvCorrupt ("artifact source is not an ordinary file: " +:+ source))
    end) in
  read (λ h, keep_call env "create artifact file" (join destination name) ;?
             fail_if (bool_decide (is_Some (artifact_child destination name h)))
               (preservation_io "create artifact file" file_exists)) ;;
  step (put_artifact_child destination name (NFile [] PRIVATE_FILE_MODE)) ;;
  match ge_io (ke_fs env) "copy artifact file" source with
  | Some e =>
      step (put_artifact_child destination name (NFile (take (ge_written (ke_fs env)) contents) PRIVATE_FILE_MODE)) ;;
      lift (Err (preservation_io "copy artifact file" e))
  | None => step (put_artifact_child destination name (NFile contents PRIVATE_FILE_MODE))
  end ;;
  lift (keep_call env "sync artifact file" (join destination name)).

(** [sync_artifact] *)
Definition sync_artifact (env : keep_env) (root : string) (n : option node) : result unit PreservationError :=
  map_err (λ e, PvIo (generation_display e)) (sync_tree (ke_fs env) root n) ;?
  keep_call env "sync artifact parent" root.

(** [fs::write] of [subject.json]; the file is opened, then written. *)
Definition write_subject (env : keep_env) (root : string) (subject : bytes) : script holding PreservationError unit :=
  let refuse e := Err (preservation_io "write subject" e) in
  lift (match ge_io (ke_fs env) "open subject" root with Some e => refuse e | None => Ok tt end) ;;
  step (put_artifact_child root "subject.json" (NFile [] 420)) ;;
  match ge_io (ke_fs env) "write subject" root with
  | Some e => step (put_artifact_child root "subject.json" (NFile (take (ge_written (ke_fs env)) subject) 420)) ;;
              lift (refuse e)
  | None => step (put_artifact_child root "subject.json" (NFile subject 420))
  end.

(** [PreservationAuthority::issue], of the authority [seal] *)
Definition issue (env : keep_env) (seal : bytes) (auth : AuthorityEnvelope) (destination : string)
    : keep_script IssuedReceipt :=
  let keep {A} (m : script holding PreservationError A) : keep_script A := script_map_err CapPreservation m in
  exec before := on_site (preservation_state env auth) in
  exec self := read (λ h, Ok (st_self (hd_site h))) in
  let work_dir := gs_work_dir (store_of self) in
  let runtime_dir := pc_runtime_dir (rr_workspace self) in
  exec identity := keep (create_external_destination env destination [work_dir; runtime_dir]) in
  let root := di_canonical identity in
  exec subject := lift (map_err (λ e, CapPreservation (PvCorrupt ("encode subject: " +:+ e))) (encode_state before)) in
  keep (write_subject env root subject) ;;
  keep (copy_artifact_tree env (active_dir self) root "generation" (λ h, generation_node (hd_site h))) ;;
  keep (copy_artifact_tree env (join runtime_dir "cas") root "cas" (λ h, cas_tree <$> st_cas (hd_site h))) ;;
  keep (copy_artifact_file env (join runtime_dir "manifest.json") root "workspace.json"
          (λ h, hd_runtime h !! "manifest.json")) ;;
  create_and_verify_bundle env root ;;
  read (λ h, preserving (sync_artifact env root (artifact root h))) ;;
  require_shape env root ;;
  verify_salvage_objects env root before ;;
  exec digest := read (λ h, preserving (hash_artifact (ke_fs env) root (artifact root h))) in
  exec after := on_site (preservation_state env auth) in
  lift (fail_if (negb (bool_decide (before = after)))
    (CapPreservation (PvReceiptRefused "workspace changed while preservation was being written"))) ;;
  exec state_digest := lift (preserving (preservation_state_digest before)) in
  let payload := {|
    rpl_schema_version := PRESERVATION_SCHEMA_VERSION; rpl_state_digest := state_digest;
    rpl_artifact_digest := digest; rpl_destination := root; rpl_destination_device := di_device identity;
    rpl_destination_inode := di_inode identity; rpl_cleanup_target := work_dir |} in
  exec tag := lift (preserving (seal_payload seal payload)) in
  exec encoded := lift (preserving (encode_receipt {| sr_payload := payload; sr_tag := tag |})) in
  script_ret {| ir_token := encoded; ir_receipt_digest := digest_of (as_bytes encoded);
                ir_destination := root; ir_artifact_digest := digest |}.
End Preservation.
