(* ===== verification/Writer.v ===== *)
(** A concrete site: a workspace of one file with its generation store, journal,
    content store and Git, on which the theorems of [Publication] and
    [Preparation] are applied. *)

From S2P Require Import Prelude Digests Ids Proposal Candidate Lineage Journal Disk Cas Generation Capability Scope Apply SafeGit Reflink Repository Publication Preparation.

Module WriterReference.
Import Reference ScopeReference CandidateReference CasReference ApplyReference.

(** ** Git *)

Definition head_hex : string := String.concat "" (repeat "ab" 20).
Definition tree_hex : string := String.concat "" (repeat "cd" 20).

Definition reply_to (verb argument : string) : string :=
  if String.eqb verb "rev-parse" then
    if String.eqb argument "--show-toplevel" then "/repo"
    else if String.eqb argument "HEAD" then head_hex else tree_hex
  else if String.eqb verb "symbolic-ref" then "refs/heads/bullet"
  else if String.eqb verb "write-tree" then tree_hex
  else "".

(** A Git that answers for one commit and logs what runs under [.git]. *)
#[export] Instance one_commit : GitBinary := {|
  binary_command := Ok tt;
  binary_execute c verb t :=
    (Ok {| bo_code := Some 0%Z; bo_stdout := as_bytes (reply_to verb (default "" (last (gc_args c)))); bo_stderr := [] |},
     put_child t ".git" (NDir DIR_MODE [("LAST", NFile (as_bytes verb) 420)]));
  binary_output _ _ := Ok {| bo_code := Some 0%Z; bo_stdout := []; bo_stderr := [] |} |}.

#[export] Instance one_commit_laws : GitLaws.
Proof.
  intros c verb t _. simpl. split; [apply is_dir_put_child|]. intros name Hname.
  destruct (is_dir (Some t)) eqn:Ed; [|by destruct t].
  rewrite child_put_child by done. destruct (String.eqb_spec ".git" name); [congruence|done].
Qed.

(** ** The workspace *)

Definition sha (hex : string) : GitOid := MkGitOid ("sha1:" +:+ hex).
Definition old_value : bytes := [x01].
Definition new_value : string := "two".

Definition op1 : JournalOp := {|
  jo_seq := 1; jo_path := "src/value"; jo_kind := KWrite; jo_before := Some (cas_digest old_value);
  jo_after := Some (cas_digest (as_bytes new_value)) |}.
Definition batch1 : StoredBatch := batch_new 1 1 None [op1].

Definition ckp_of (ops : Journal) : Checkpoint := bind_git_tree (checkpoint ops) (sha tree_hex).
Definition m0 : GenerationManifest := manifest_of "attempt" "abab" 0 None (ckp_of []).
Definition store0 : GenerationStore :=
  {| gs_work_dir := "/work"; gs_attempt_id := "attempt"; gs_nonce_hex := "abab";
     gs_active := m0; gs_active_repo := generation_name 0 |}.
Definition stage1 : StagedGeneration :=
  {| sg_staging_dir := ".stage"; sg_final_dir := generation_name 1; sg_generation := 1 |}.

(** The generations that appear: the first, the patched one, the candidate's. *)
Definition m1 : GenerationManifest := next_manifest store0 stage1 (ckp_of [op1]).
Definition m2 : GenerationManifest := next_manifest store0 stage1 (ckp_of []).

Definition known : list (GenerationManifest * bytes) := [(m0, [x30]); (m1, [x31]); (m2, [x32])].

#[local] Instance known_checkpoint_dec : EqDecision ParentGeneration.
Proof. solve_decision. Defined.
#[local] Instance known_manifest_dec : EqDecision GenerationManifest.
Proof. solve_decision. Defined.
#[local] Instance known_pointer_dec : EqDecision ActivePointer.
Proof. solve_decision. Defined.
#[local] Instance known_batch_dec : EqDecision StoredBatch.
Proof. solve_decision. Defined.

Definition encode_known {T} `{EqDecision T} (f : GenerationManifest → T) (x : T) : result bytes string :=
  ok_or (snd <$> find (λ row, bool_decide (f (fst row) = x)) known) "unsupported".
Definition decode_known {T} (f : GenerationManifest → T) (b : bytes) : result T string :=
  ok_or (f ∘ fst <$> find (λ row, bool_decide (snd row ++ [x0a] = b)) known) "invalid".

#[export] Instance known_codec : GenerationCodec := {|
  Generation.encode_manifest := encode_known id; decode_manifest := decode_known id;
  encode_pointer := encode_known pointer_new; decode_pointer := decode_known pointer_new |}.

Lemma decode_encode_known {T} `{EqDecision T} (f : GenerationManifest → T) x b :
  encode_known f x = Ok b → decode_known f (b ++ [x0a]) = Ok x.
Proof.
  unfold encode_known. intros Hf%ok_or_Ok. apply fmap_Some in Hf as ([m c] & Hf & ->).
  apply find_some in Hf as [Hin Hx]. apply bool_decide_eq_true in Hx as <-.
  by repeat destruct Hin as [[= <- <-]|Hin].
Qed.

Lemma decode_known_of {T} (f : GenerationManifest → T) b x : decode_known f b = Ok x → ∃ m, x = f m ∧ m ∈ known.*1.
Proof.
  unfold decode_known. intros Hf%ok_or_Ok. apply fmap_Some in Hf as ([m c] & Hf & ->).
  apply find_some in Hf as [Hin _]. exists m. split; [done|]. apply list_elem_of_fmap. exists (m, c).
  by split; [|apply list_elem_of_In].
Qed.

Lemma known_widths : Forall manifest_widths known.*1.
Proof.
  repeat constructor; try (intros p [= <-]); try intros p [=]; vm_compute; discriminate.
Qed.

#[export] Instance known_codec_laws : GenerationCodecLaws.
Proof.
  pose proof known_widths as Hw. rewrite Forall_forall in Hw. split.
  - intros m b. apply decode_encode_known.
  - intros p b. apply decode_encode_known.
  - intros b p Hd. apply decode_known_of in Hd as (m & -> & Hm). apply (Hw m Hm).
  - intros b m Hd. apply decode_known_of in Hd as (m' & -> & Hm). by apply Hw.
Qed.

#[export] Instance batch1_codec : BatchCodec := {|
  encode_batch b := if decide (b = batch1) then Ok [x7b; x7d] else Err "unsupported";
  decode_batch c := if decide (c = [x7b; x7d; x0a]) then Ok batch1 else Err "invalid" |}.
#[export] Instance batch1_laws : BatchCodecLaws.
Proof. intros b e. simpl. case_decide as Hb; [|done]. intros [= <-]. by rewrite Hb. Qed.

Definition writer_git : SafeGit := {|
  sg_path := None; sg_home_dir := "/run/home"; sg_xdg_config_dir := "/run/xdg-config";
  sg_xdg_cache_dir := "/run/xdg-cache"; sg_hooks_dir := "/run/hooks-empty";
  sg_askpass := "/run/askpass-deny.sh" |}.

Definition attempt_id : AttemptId := from_seed "atm" "a".
Definition variant_id : VariantId := from_seed "var" "v".

Definition expected : ExpectedAuthority := {|
  ea_attempt_id := as_str attempt_id; ea_attempt_fence := 3; ea_workspace_nonce := as_bytes "nonce" |}.

#[export] Instance one_token : TokenDecoder := λ b,
  if bool_decide (b = as_bytes "token")
  then Ok {| wt_variant_id := as_str variant_id; wt_attempt_id := as_str attempt_id;
             wt_attempt_fence := 3; wt_workspace_nonce := as_bytes "nonce" |}
  else Err "unknown token".
#[export] Instance scope_joined : ScopeText := λ ps, String.concat "," (map path_str ps).

Definition envelope : AuthorityEnvelope := {| ae_token := as_bytes "token" |}.
Definition grant : ScopeGrant := {| allowed_prefixes := ["src"] |}.
Definition identity : CommitIdentity := farm "2024-01-01T00:00:00Z".

Definition clone0 : PrivateClone := {|
  pc_generations := store0; pc_runtime_dir := "/run";
  pc_manifest := {| wm_attempt_id := "attempt"; wm_variant_id := as_str variant_id; wm_base_sha := sha head_hex;
    wm_branch := "bullet"; wm_created_at := "2024-01-01T00:00:00Z"; wm_nonce_hex := "abab";
    wm_source_repo := "/source"; wm_mirror_dir := "/mirror"; wm_object_materialization := Reflink;
    wm_repo_dir := "/work/repo" |};
  pc_git := writer_git |}.

Definition repo_tree : node :=
  NDir DIR_MODE [(".git", NDir DIR_MODE []); ("src", NDir DIR_MODE [("value", NFile old_value 420)])].
Definition work0 : wspace := {|
  w_is_dir := true;
  w_entries := {[ ACTIVE_FILE := NFile [x30; x0a] PRIVATE_FILE_MODE ]};
  w_generations := Some {[ generation_name 0 := NDir DIR_MODE [
    ("manifest.json", NFile [x30; x0a] PRIVATE_FILE_MODE); ("repo", repo_tree); ("journal", NDir DIR_MODE [])] ]} |}.

Definition site0 : site := {|
  st_work := work0; st_cas := Some ∅; st_sequence := 0;
  st_self := {| rr_workspace := clone0; rr_grant := grant; rr_expected := expected; rr_identity := identity;
    rr_journal := {| dj_ops := []; dj_head_checksum := None; dj_healthy := true |};
    rr_cas := {| cas_root := "/run/cas"; cas_lock_poisoned := false; cas_poisoned := false |};
    rr_checkpoint_count := 0; rr_healthy := true; rr_lineage := [] |} |}.

(** Every call succeeds. *)
Definition calm_gen : gen_env :=
  {| ge_io _ _ := None; ge_pid := 7; ge_faults _ := false; ge_written := 0; ge_copied := None |}.
Definition calm_repo : repo_env := {|
  re_fs _ _ := None; re_through _ := Absent; re_openat2 _ := None; re_canonicalize _ := Ok "/repo";
  re_resolves _ := false; re_open := calm_gen; re_stage := calm_gen; re_publish := calm_gen;
  re_journal := {| pe_pid := 7; pe_create_error _ := None; pe_write_error := None; pe_cleanup_ok := true;
    pe_link_error := None; pe_dirsync_fails := false; pe_remove_ok := true |};
  re_kernel := kernel_of []; re_cas_root := Ok "/run/cas"; re_cas_scan := calm_scan;
  re_put _ _ := calm_put; re_get _ _ := (None, calm_io) |}.

Definition proposal : PatchProposal := {|
  pp_schema_version := 1; pp_proposal_id := from_seed "cnt" "p"; pp_producing_attempt_id := attempt_id;
  pp_base_checkpoint_id := ckp_id (ckp_of []); pp_base_checkpoint_digest := ckp_digest (ckp_of []);
  pp_operations := [{| op_path := MkRepoPath "src/value"; op_preimage := PreDigest (digest_of old_value);
                       op_mutation := MutWrite new_value |}];
  pp_gate_ids := [from_seed "gat" "g"] |}.

Definition applied := apply_proposal calm_repo envelope proposal site0.
Definition constructed_run := repository_new calm_repo clone0 grant expected identity site0.

Definition change : Change := {|
  change_id := from_seed "chg" "c"; change_mission := "mission"; change_acceptance_root := zero_digest |}.
Definition provenance : CandidateProvenance := {|
  cp_schema_version := 1; cp_repository_id := from_seed "rep" "r"; cp_producing_attempt_id := attempt_id;
  cp_attempt_fence := 3; cp_work_package_id := from_seed "wpk" "w"; cp_variant_id := variant_id;
  cp_plan_revision_id := from_seed "pln" "p"; cp_graph_revision_id := from_seed "grf" "g";
  cp_base_checkpoint_id := ckp_id (ckp_of []); cp_base_commit := sha head_hex; cp_parent_candidate_ids := [];
  cp_granted_scope := [MkRepoPath "src"]; cp_context_capsule_id := from_seed "cnt" "1";
  cp_configuration_snapshot_id := from_seed "cnt" "2"; cp_policy_snapshot_id := from_seed "cnt" "3";
  cp_routing_snapshot_id := from_seed "cnt" "4"; cp_environment_digest := zero_digest;
  cp_toolchain_digest := zero_digest |}.

Definition prepared := prepare_candidate calm_repo envelope change provenance site0.

(** ** The hypotheses of the theorems *)

Lemma applied_eq : apply_proposal calm_repo envelope proposal site0 = (fst applied, snd applied).
Proof. unfold applied. apply surjective_pairing. Qed.
Lemma applied_ok : snd applied = Ok (ckp_of [op1]).
Proof. vm_compute. reflexivity. Qed.
Lemma prepared_eq : prepare_candidate calm_repo envelope change provenance site0 = (fst prepared, snd prepared).
Proof. unfold prepared. apply surjective_pairing. Qed.
Lemma constructed_eq :
  repository_new calm_repo clone0 grant expected identity site0 = (fst constructed_run, snd constructed_run).
Proof. unfold constructed_run. apply surjective_pairing. Qed.

Lemma fits0 : controls_fit store0.
Proof.
  intros stage ops oid _ _. split; intros b; unfold Generation.encode_manifest, encode_pointer, known_codec, encode_known;
    intros Hf%ok_or_Ok; apply fmap_Some in Hf as ([m c] & Hf & ->); apply find_some in Hf as [Hin _];
    by repeat destruct Hin as [[= <- <-]|Hin].
Qed.

Lemma races0 : races_valid calm_repo.
Proof. by intros n destination. Qed.

Lemma opens0 : opens work0 store0.
Proof.
  assert (generation_open calm_gen work0 "/work" "attempt" "abab" = Ok store0) as Hopen by (vm_compute; reflexivity).
  apply generation_open_sound in Hopen. apply Hopen.
Qed.

Lemma inv0 : repo_inv site0.
Proof.
  constructor; [exact opens0| |done|done|].
  - split; [done|]. exists []. split; [|done]. split; [constructor|]. by exists [].
  - intros op digest Hop. by apply elem_of_nil in Hop.
Qed.

Lemma room0 : blen (dj_ops (rr_journal (st_self site0))) + MAX_PATCH_OPERATIONS < u64_max.
Proof. vm_compute. reflexivity. Qed.

Lemma applied_inv : repo_inv (left_in site0 (fst applied)).
Proof.
  pose proof (run_of _ _ _ _ _ _
    (apply_proposal_spec calm_repo envelope proposal site0 inv0 eq_refl races0 fits0 room0) applied_eq) as [_ Hr].
  rewrite applied_ok in Hr. exact (proj1 Hr).
Qed.

Lemma prepared_ok : ∃ c, snd prepared = Ok c.
Proof.
  assert (match snd prepared with Ok _ => true | Err _ => false end = true) as Hp by (vm_compute; reflexivity).
  destruct (snd prepared) as [c|]; [by exists c|done].
Qed.

Lemma constructed_ok : snd constructed_run = Ok tt.
Proof. vm_compute. reflexivity. Qed.

Example apply_proposal_crash_safe_witness :
  active_checkpoint (st_self (left_in site0 (fst applied))) = ckp_of [op1].
Proof.
  pose proof (apply_proposal_crash_safe calm_repo envelope proposal site0 (fst applied) (snd applied)
    inv0 eq_refl races0 fits0 room0 applied_eq) as [_ Hr].
  rewrite applied_ok in Hr. exact (proj1 (proj2 (proj2 Hr))).
Defined.

Example prepare_candidate_crash_safe_witness : ∃ c, snd prepared = Ok c ∧ candidate_bound site0 change c.
Proof.
  pose proof (prepare_candidate_crash_safe calm_repo envelope change provenance site0 (fst prepared) (snd prepared)
    inv0 eq_refl fits0 prepared_eq) as [_ Hr].
  destruct prepared_ok as [c Hc]. rewrite Hc in Hr. exists c. split; [exact Hc|].
  exact (proj2 (proj2 (proj2 (proj2 Hr)))).
Defined.

Example repository_new_establishes_witness :
  constructed clone0 grant expected (left_in site0 (fst constructed_run)).
Proof.
  exact (proj2 (proj2 (repository_new_establishes calm_repo clone0 grant expected identity site0
    (fst constructed_run) (snd constructed_run) constructed_eq)) constructed_ok).
Defined.
End WriterReference.
