(* ===== verification/Clone.v ===== *)
(** [PrivateClone::create] of [crates/bullet-git-workspace/src/clone.rs], with
    [sync_mirror] of [mirror.rs] and the rest of [clone/repository_setup.rs]: the
    creation of a workspace from a source repository.

    The state is a [clone_site]: the private directories, the directory of the mirrors,
    whether this process holds the lock of the mirror (see [Mirror]), the work directory
    and the recorded manifest.  The replies of the file system, of the lock and of other
    processes are the environment's; Git is [GitBinary]. *)

From S2P Require Import Prelude Digests Ids Journal Disk Cas Generation Capability SafeGit Reflink Mirror Repository Publication Preparation Writer.

#[local] Open Scope script_scope.

Record CloneRequest : Type := {
  clr_source_repo : string;
  clr_base_sha : string;
  clr_variant_id : string;
  clr_attempt_id : string;
  clr_root : string;
  clr_created_at : string;
  clr_nonce : bytes
}.

Record clone_site : Type := {
  cs_dirs : gmap string bool;    (** by path: whether the entry is an ordinary directory *)
  cs_mirrors : node;             (** the directory [mirrors] *)
  cs_locked : bool;
  cs_work : option wspace;       (** the work directory of the attempt *)
  cs_manifest : option bytes     (** [manifest.json] of the runtime directory *)
}.

Record clone_env : Type := {
  ce_fs : string → string → option string;         (** the error of a call, by context and path *)
  ce_raced : string → option bool;                  (** what another process makes at an absent path *)
  ce_raced_work : option wspace;                    (** and at that of the work directory *)
  ce_default_git : result unit CapabilityError;     (** [PinnedGit::process_default] *)
  ce_path : option string;                          (** the inherited PATH *)
  ce_isolation : string → option string;            (** errors of the preparation of [SafeGit] *)
  ce_canonicalize : string → result string string;
  ce_acquire : result unit CapabilityError;         (** [MirrorLock::acquire] *)
  ce_resolves : string → bool;                      (** a symbolic link leads to an entry *)
  ce_file : string → bool;                          (** a symbolic link leads to a file *)
  ce_copy : copy_env;
  ce_left : option node;                            (** what a failing removal leaves *)
  ce_generation : gen_env;
  ce_encode : WorkspaceManifest → result bytes string;   (** [serde_json::to_vec_pretty] *)
  ce_written : nat                                  (** bytes a failing write has written *)
}.

Abbreviation clone_script := (script clone_site CapabilityError).

Definition set_dirs (f : gmap string bool → gmap string bool) (s : clone_site) : clone_site :=
  {| cs_dirs := f (cs_dirs s); cs_mirrors := cs_mirrors s; cs_locked := cs_locked s;
     cs_work := cs_work s; cs_manifest := cs_manifest s |}.
Definition set_mirrors (n : node) (s : clone_site) : clone_site :=
  {| cs_dirs := cs_dirs s; cs_mirrors := n; cs_locked := cs_locked s;
     cs_work := cs_work s; cs_manifest := cs_manifest s |}.
Definition set_locked (b : bool) (s : clone_site) : clone_site :=
  {| cs_dirs := cs_dirs s; cs_mirrors := cs_mirrors s; cs_locked := b;
     cs_work := cs_work s; cs_manifest := cs_manifest s |}.
Definition set_work (w : wspace) (s : clone_site) : clone_site :=
  {| cs_dirs := cs_dirs s; cs_mirrors := cs_mirrors s; cs_locked := cs_locked s;
     cs_work := Some w; cs_manifest := cs_manifest s |}.
Definition set_recorded (b : bytes) (s : clone_site) : clone_site :=
  {| cs_dirs := cs_dirs s; cs_mirrors := cs_mirrors s; cs_locked := cs_locked s;
     cs_work := cs_work s; cs_manifest := Some b |}.

Definition fresh_work : wspace := {| w_is_dir := true; w_entries := ∅; w_generations := None |}.
Definition work_of (s : clone_site) : wspace := default fresh_work (cs_work s).

(** The repository and the other trees of the first generation. *)
Definition first_name : string := generation_name 0.
Definition first_node (s : clone_site) : option node := generations_of (work_of s) !! first_name.
Definition put_first (n : node) (s : clone_site) : clone_site :=
  set_work (with_generations (alter (λ _, n) first_name) (work_of s)) s.
Definition repo_node (s : clone_site) : option node := child (first_node s) "repo".
Definition put_repo (n : node) (s : clone_site) : clone_site :=
  set_work (with_generations (put_generation_child first_name "repo" n) (work_of s)) s.

(** [f] on a tree of the site, which it may change. *)
Definition on_tree {A} (get : clone_site → option node) (put : node → clone_site → clone_site)
    (f : node → result A CapabilityError * node) : clone_script A :=
  exec n := read (λ s, Ok (get s)) in
  match n with
  | None => lift (fst (f NSpecial))
  | Some n => step (put (snd (f n))) ;; lift (fst (f n))
  end.

Definition drop_child (n : option node) (name : string) : option node :=
  match n with
  | Some (NDir mode es) => Some (NDir mode (filter (λ row, fst row ≠ name) es))
  | n => n
  end.

Section Clone.
Context `{Blake3, HexCrate, StrDebug, GenerationCodec, BatchCodec, GitBinary}.
Context (env : clone_env).

Definition clone_call (context path : string) : result unit CapabilityError :=
  match ce_fs env context path with Some e => Err (io_err context e) | None => Ok tt end.

(** The error of an inspection, as [SafeGit] sees it. *)
Definition inspect_git : string → option string := ce_fs env "inspect git".

(** ** Directories ([repository_setup.rs]) *)

Definition require_ordinary_runtime_directory (path : string) (ordinary : bool)
    : result unit CapabilityError :=
  fail_if (negb ordinary) (CapIo ("runtime path is not an ordinary directory: " +:+ path)).

(** [raced] is what another process makes between the inspection and the creation. *)
Definition prepare_private_directory (path : string) (entry : clone_site → option bool)
    (create : clone_site → clone_site) (raced : option (bool * (clone_site → clone_site)))
    : clone_script unit :=
  lift (clone_call "inspect runtime directory" path) ;;
  exec found := read (λ s, Ok (entry s)) in
  match found, raced with
  | Some ordinary, _ => lift (require_ordinary_runtime_directory path ordinary)
  | None, Some (ordinary, appear) =>
      step appear ;;
      lift (clone_call "reinspect runtime directory" path) ;;
      lift (require_ordinary_runtime_directory path ordinary)
  | None, None => lift (clone_call "create runtime directory" path) ;; step create
  end ;;
  lift (clone_call "secure runtime directory" path) ;;
  lift (clone_call "sync runtime directory" path) ;;
  lift (clone_call "sync runtime parent" path).

Definition prepare_runtime (path : string) : clone_script unit :=
  prepare_private_directory path (λ s, cs_dirs s !! path) (set_dirs (insert path true))
    (option_map (λ ordinary, (ordinary, set_dirs (insert path ordinary))) (ce_raced env path)).

Definition prepare_work (path : string) : clone_script unit :=
  prepare_private_directory path (λ s, w_is_dir <$> cs_work s) (set_work fresh_work)
    (option_map (λ w, (w_is_dir w, set_work w)) (ce_raced_work env)).

(** ** The mirror ([mirror.rs]) *)

(** Dropping the lock when a call that holds it fails. *)
Definition unlock_on_error {A} (m : clone_script A) : clone_script A := λ s,
  let '(trace, r) := m s in
  match r with
  | Ok a => (trace, Ok a)
  | Err e => (trace ++ [set_locked false (left_in s trace)], Err e)
  end.

Definition follows (leads : string → bool) (path : string) (n : option node) (here : node → bool) : bool :=
  match n with None => false | Some (NSymlink _) => leads path | Some n => here n end.

(** [remove_dir_all] of the partial mirror. *)
Definition remove_partial (dir name : string) : clone_script unit :=
  exec n := read (λ s, Ok (child (Some (cs_mirrors s)) name)) in
  match n, clone_call "remove partial mirror" dir with
  | Some (NFile _ _ | NSpecial), _ => lift (Err (io_err "remove partial mirror" not_a_directory))
  | _, Err e =>
      step (λ s, set_mirrors (match ce_left env with
                              | Some partial => put_child (cs_mirrors s) name partial
                              | None => cs_mirrors s
                              end) s) ;;
      lift (Err e)
  | _, Ok _ => step (λ s, set_mirrors (default NSpecial (drop_child (Some (cs_mirrors s)) name)) s)
  end.

(** A command of [git] in the mirror, and one in the directory of the mirrors. *)
Definition in_mirror {A} (name : string) (f : node → result A CapabilityError * node) : clone_script A :=
  on_tree (λ s, child (Some (cs_mirrors s)) name) (λ n s, set_mirrors (put_child (cs_mirrors s) name n) s) f.
Definition in_mirrors {A} (f : node → result A CapabilityError * node) : clone_script A :=
  on_tree (λ s, Some (cs_mirrors s)) set_mirrors f.

(** [sync_mirror]: the directory of the mirror and its name, with the lock held. *)
Definition sync_mirror (git : SafeGit) (root source : string) : clone_script (string * string) :=
  let canonical := ce_canonicalize env source in
  exec dir := lift (mirror_dir root canonical) in
  let name := match canonical with Ok c => mirror_name c | Err _ => "" end in
  lift (ce_acquire env) ;;
  step (set_locked true) ;;
  unlock_on_error (
    exec mirror := read (λ s, Ok (child (Some (cs_mirrors s)) name)) in
    let head := join dir "HEAD" in
    exec _out :=
      (if follows (ce_file env) head (child mirror "HEAD") is_file
       then in_mirror name (git_run inspect_git git (Some dir) User ["fetch"; "--prune"; "origin"] [])
       else
         (if follows (ce_resolves env) dir mirror (λ _, true) then remove_partial dir name else script_ret tt) ;;
         in_mirrors (git_run inspect_git git None User ["clone"; "--mirror"; source; dir] [])) in
    script_ret (dir, name)).

(** ** The repository ([repository_setup.rs]) *)

Definition git_objects (s : clone_site) : option node := child (child (repo_node s) ".git") "objects".

(** [f] on the directory [.git] of the repository. *)
Definition put_git (f : option node → option node) (s : clone_site) : clone_site :=
  match repo_node s, f (child (repo_node s) ".git") with
  | Some repo, Some git_dir => put_repo (put_child repo ".git" git_dir) s
  | _, _ => s
  end.

(** One round of [require_empty_initial_object_directory]. *)
Definition require_empty_entry (objects : string) (row : string * node) : result unit CapabilityError :=
  let '(name, n) := row in
  let path := join objects name in
  clone_call "read initial object entry" path ;?
  fail_if (negb (String.eqb name "info") && negb (String.eqb name "pack"))
    (CapIo ("unexpected initial Git object entry: " +:+ path)) ;?
  clone_call "inspect initial object entry" path ;?
  (if is_dir (Some n) then clone_call "read initial object subdirectory" path else Ok tt) ;?
  fail_if (negb (match n with NDir _ [] => true | _ => false end))
    (CapIo ("initial Git object entry is not an empty directory: " +:+ path)).

Definition require_empty_initial_object_directory (objects : string) (n : option node)
    : result unit CapabilityError :=
  clone_call "inspect initial object directory" objects ;?
  let? n := ok_or n (io_err "inspect initial object directory" not_found) in
  match n with
  | NDir _ entries =>
      clone_call "read initial objects" objects ;? try_for (require_empty_entry objects) entries
  | _ => Err (CapIo "initial Git object path is not an ordinary directory")
  end.

(** [remove_dir] of [name] in a directory, when it is there. *)
Definition remove_empty (context path name : string) (dir : option node) : result (option node) CapabilityError :=
  match child dir name with
  | None => Ok dir
  | Some (NDir _ []) => clone_call context path ;? Ok (drop_child dir name)
  | Some (NDir _ _) => Err (io_err context not_empty)
  | Some _ => Err (io_err context not_a_directory)
  end.

(** [objects] after [f] on it. *)
Definition put_objects (f : option node → option node) (git_dir : option node) : option node :=
  match git_dir, f (child git_dir "objects") with
  | Some dir, Some objects => Some (put_child dir "objects" objects)
  | _, _ => git_dir
  end.

(** One round of [remove_empty_initial_object_directory]. *)
Definition remove_subdirectory (objects name : string) : clone_script unit :=
  exec dir := read (λ s, remove_empty "remove initial object subdirectory" (join objects name) name (git_objects s)) in
  step (put_git (put_objects (λ _, dir))).

Definition remove_empty_initial_object_directory (objects : string) : clone_script unit :=
  remove_subdirectory objects "info" ;;
  remove_subdirectory objects "pack" ;;
  exec git_dir := read (λ s,
    let? _n := ok_or (git_objects s) (io_err "remove initial object directory" not_found) in
    remove_empty "remove initial object directory" objects "objects" (child (repo_node s) ".git")) in
  step (put_git (λ _, git_dir)).

Definition STAGE : string := "bullet-objects-stage".

(** The staged copy of the mirror's objects. *)
Definition copy_objects (mirror name git_dir : string) : clone_script CopyMode :=
  exec copied := read (λ s, Ok (copy_tree_prefers_reflink (ce_copy env) (join mirror "objects") (join git_dir STAGE)
    (child (child (Some (cs_mirrors s)) name) "objects") (child (child (repo_node s) ".git") STAGE))) in
  step (put_git (λ dir, match dir, fst copied with
                        | Some dir, Some stage => Some (put_child dir STAGE stage)
                        | dir, _ => drop_child dir STAGE
                        end)) ;;
  lift (snd copied).

(** The refusal of a store with alternates; [symlink_metadata] that fails is taken for absence. *)
Definition refuse_alternates (git_dir : string) : clone_script unit :=
  let staged := join git_dir STAGE in
  exec alternates := read (λ s, Ok (child (child (child (child (repo_node s) ".git") STAGE) "info") "alternates")) in
  match alternates, ce_fs env "probe alternates" staged with
  | Some _, None =>
      match clone_call "remove alternate-backed object stage" staged with
      | Err e => step (put_git (λ dir, match dir, ce_left env with
                                       | Some dir, Some partial => Some (put_child dir STAGE partial)
                                       | dir, _ => dir
                                       end)) ;; lift (Err e)
      | Ok _ =>
          step (put_git (λ dir, drop_child dir STAGE)) ;;
          lift (Err (CapGit "mirror object store depends on forbidden alternates"))
      end
  | _, _ => script_ret tt
  end.

(** [rename] of the stage to [objects]: an empty directory there is replaced. *)
Definition install_objects (git_dir : string) : clone_script unit :=
  lift (clone_call "install private object store" (join git_dir STAGE)) ;;
  exec stage := read (λ s, ok_or (child (child (repo_node s) ".git") STAGE)
                             (io_err "install private object store" not_found)) in
  read (λ s, match git_objects s with
             | None | Some (NDir _ []) => Ok tt
             | Some (NDir _ _) => Err (io_err "install private object store" not_empty)
             | Some _ => Err (io_err "install private object store" not_a_directory)
             end) ;;
  step (put_git (λ dir, option_map (λ dir, put_child dir "objects" stage) (drop_child dir STAGE))).

(** [clone_from_mirror]; [mirror] is the directory of that name among the mirrors. *)
Definition clone_from_mirror (git : SafeGit) (mirror name dest : string) (algorithm : GitOidAlgorithm)
    : clone_script CopyMode :=
  exec _init := on_tree first_node put_first
    (git_run inspect_git git None Never
       ["init"; "--quiet"; "--object-format=" +:+ alg_as_str algorithm; dest] []) in
  let git_dir := join dest ".git" in
  let objects := join git_dir "objects" in
  read (λ s, require_empty_initial_object_directory objects (git_objects s)) ;;
  exec mode := copy_objects mirror name git_dir in
  refuse_alternates git_dir ;;
  remove_empty_initial_object_directory objects ;;
  install_objects git_dir ;;
  lift (clone_call "sync private git directory" git_dir) ;;
  script_ret mode.

(** A command of [git] in the repository. *)
Definition in_repo {A} (f : node → result A CapabilityError * node) : clone_script A :=
  on_tree repo_node put_repo f.
Definition git_in (git : SafeGit) (repo_dir : string) (args : list string) : clone_script bytes :=
  in_repo (git_run inspect_git git (Some repo_dir) Never args []).

Definition checkout_private_branch (git : SafeGit) (repo_dir : string) (base : GitOid) (branch : string)
    : clone_script unit :=
  exec _out := git_in git repo_dir ["checkout"; "--detach"; hex_of base] in
  exec head := in_repo (head_state inspect_git git repo_dir) in
  lift (match head with
        | Detached => Ok tt
        | Branch name => Err (CapGit ("expected detached base checkout, found branch " +:+ name))
        end) ;;
  exec _out := git_in git repo_dir ["checkout"; "-b"; branch] in
  script_ret tt.

(** ** The workspace ([clone.rs]) *)

(** [DurableJournal::open] on the journal of the first generation. *)
Definition open_first_journal (path : string) : clone_script DurableJournal :=
  exec n := read (λ s, Ok (child (first_node s) "journal")) in
  let meta := match ce_fs env "inspect journal" path with
              | Some e => MetaError e
              | None => match n with
                        | Some (NDir _ _) => MetaDirectory
                        | Some _ => MetaOther
                        | None => MetaMissing
                        end
              end in
  match meta, ce_fs env "create journal" path with
  | MetaMissing, None =>
      step (λ s, set_work (with_generations (put_generation_child first_name "journal" (NDir DIR_MODE [])) (work_of s)) s)
  | _, _ => script_ret tt
  end ;;
  lift (map_err from_journal_error
    (journal_open meta (ce_fs env "create journal" path) (ce_fs env "sync journal directory" path)
       (ce_fs env "sync journal parent" path) (listing n))).

(** [fs::write] of the manifest. *)
Definition write_manifest (path : string) (encoded : bytes) : clone_script unit :=
  match clone_call "write manifest" path with
  | Err e => step (set_recorded (take (ce_written env) encoded)) ;; lift (Err e)
  | Ok _ => step (set_recorded encoded)
  end.

(** The bootstrap of the generations, in the work directory. *)
Definition in_work {A} (m : script wspace GenerationError A) : clone_script A :=
  script_map_err CapGeneration (script_in work_of set_work m).

(** What [create] does while it holds the lock of the mirror. *)
Definition create_locked (req : CloneRequest) (git : SafeGit) (base : GitOid) (mirror name : string)
    : clone_script (GenerationBootstrap * CopyMode) :=
  exec base_exists := in_mirror name
    (probe inspect_git git (Some mirror) ["rev-parse"; "--verify"; "--quiet"; hex_of base +:+ "^{commit}"]) in
  lift (fail_if (negb base_exists) (CapBaseMissing (oid_str base))) ;;
  let work_root := join (clr_root req) "work" in
  prepare_runtime work_root ;;
  let work_dir := join work_root (clr_attempt_id req) in
  prepare_work work_dir ;;
  exec bootstrap := in_work (bootstrap_prepare (ce_generation env) work_dir) in
  exec mode := clone_from_mirror git mirror name
    (join (join (join work_dir GENERATIONS_DIR) first_name) "repo") (oid_algorithm base) in
  script_ret (bootstrap, mode).

(** [PrivateClone::create] *)
Definition create (req : CloneRequest) : clone_script PrivateClone :=
  exec base := lift (map_err from_types_error (oid_new (clr_base_sha req))) in
  let runtime_root := join (clr_root req) "runtime" in
  prepare_runtime runtime_root ;;
  let runtime_dir := join runtime_root (clr_attempt_id req) in
  prepare_runtime runtime_dir ;;
  exec git := lift (ce_default_git env ;? with_binary (ce_path env) runtime_dir (ce_isolation env)) in
  exec synced := sync_mirror git (clr_root req) (clr_source_repo req) in
  exec made := unlock_on_error (create_locked req git base (fst synced) (snd synced)) in
  let work_dir := join (join (clr_root req) "work") (clr_attempt_id req) in
  let generation_dir := join (join work_dir GENERATIONS_DIR) first_name in
  let repo_dir := join generation_dir "repo" in
  step (set_locked false) ;;
  in_repo (guard_repository inspect_git (ce_canonicalize env) git repo_dir) ;;
  let branch := "bullet/" +:+ clr_variant_id req +:+ "/" +:+ clr_attempt_id req in
  checkout_private_branch git repo_dir base branch ;;
  exec _fsck := git_in git repo_dir ["fsck"; "--full"; "--strict"; "--no-dangling"] in
  exec journal := open_first_journal (join generation_dir "journal") in
  exec base_tree := git_in git repo_dir ["rev-parse"; "HEAD^{tree}"] in
  exec tree := lift (map_err from_types_error (oid_from_hex (oid_algorithm base) (text base_tree))) in
  let initial_checkpoint := bind_git_tree (checkpoint (dj_ops journal)) tree in
  let nonce_hex := hex_encode (clr_nonce req) in
  exec generations := in_work (bootstrap_finish (ce_generation env) (fst made) (clr_attempt_id req) nonce_hex
                                 initial_checkpoint) in
  let manifest := {|
    wm_attempt_id := clr_attempt_id req; wm_variant_id := clr_variant_id req; wm_base_sha := base;
    wm_branch := branch; wm_created_at := clr_created_at req; wm_nonce_hex := nonce_hex;
    wm_source_repo := clr_source_repo req; wm_mirror_dir := fst synced;
    wm_object_materialization := snd made; wm_repo_dir := repo_dir |} in
  exec encoded := lift (map_err (λ e, CapIo ("encode manifest: " +:+ e)) (ce_encode env manifest)) in
  write_manifest (join runtime_dir "manifest.json") encoded ;;
  script_ret {| pc_generations := generations; pc_runtime_dir := runtime_dir;
                pc_manifest := manifest; pc_git := git |}.
End Clone.

(** ** Lemmas: trees of the site *)

Section Trees.

Lemma child_drop_child n a b : child (drop_child n a) b = if String.eqb a b then None else child n b.
Proof.
  destruct n as [[c m|m es|t|]|]; simpl; try by destruct (String.eqb a b).
  induction es as [|[k v] es IH]; simpl; [by destruct (String.eqb a b)|].
  rewrite filter_cons. simpl. destruct (decide (k ≠ a)) as [Hk|Hk]; simpl.
  - destruct (String.eqb_spec k b) as [->|]; [|done]. destruct (String.eqb_spec a b); [congruence|done].
  - apply dec_stable in Hk as ->. rewrite IH.
    destruct (String.eqb_spec a b) as [->|Hne]; [done|]. done.
Qed.

Lemma is_dir_drop_child n a : is_dir (drop_child n a) = is_dir n.
Proof. by destruct n as [[]|]. Qed.

Lemma child_is_dir n a : is_Some (child n a) → is_dir n = true.
Proof. destruct n as [[]|]; simpl; try done; by intros [? ?]. Qed.

Lemma repo_node_parts s : is_Some (repo_node s) →
  is_Some (w_generations (work_of s)) ∧ is_dir (first_node s) = true.
Proof.
  intros Hr. apply child_is_dir in Hr as Hd. split; [|done].
  unfold first_node, generations_of in Hd. destruct (w_generations (work_of s)); [by eexists|done].
Qed.

Lemma repo_put_repo n s : is_Some (repo_node s) → repo_node (put_repo n s) = Some n.
Proof.
  intros [Hg Hd]%repo_node_parts. 
  change (child (generations_of (with_generations (put_generation_child first_name "repo" n) (work_of s))
                   !! first_name) "repo" = Some n).
  rewrite child_after_put by done. by rewrite String.eqb_refl.
Qed.

Definition git_node (s : clone_site) : option node := child (repo_node s) ".git".

Lemma git_put_git f s d d' : git_node s = Some d → f (Some d) = Some d' → git_node (put_git f s) = Some d'.
Proof.
  unfold git_node, put_git. intros Hd Hf. rewrite Hd, Hf.
  assert (is_dir (repo_node s) = true) as Hr by (apply (child_is_dir _ ".git"); by exists d).
  destruct (repo_node s) as [repo|] eqn:Er; [|done].
  rewrite repo_put_repo by (by exists repo). rewrite child_put_child by done. by rewrite String.eqb_refl.
Qed.

Lemma put_git_mirrors f s : cs_mirrors (put_git f s) = cs_mirrors s.
Proof. unfold put_git. by repeat case_match. Qed.

(** The copy of the objects is staged in [.git]. *)
Definition staged (t : node) (s : clone_site) : Prop :=
  ∃ d, git_node s = Some d ∧ is_dir (Some d) = true ∧ child (Some d) STAGE = Some t.

Lemma staged_put t s f :
  staged t s →
  (∀ d, is_dir (Some d) = true → child (Some d) STAGE = Some t →
     ∃ d', f (Some d) = Some d' ∧ is_dir (Some d') = true ∧ child (Some d') STAGE = Some t) →
  staged t (put_git f s).
Proof.
  intros (d & Hg & Hd & Ht) Hf. destruct (Hf d Hd Ht) as (d' & Hf' & Hd' & Ht').
  exists d'. split; [|done]. by eapply git_put_git.
Qed.

Lemma put_objects_staged t f d :
  is_dir (Some d) = true → child (Some d) STAGE = Some t →
  ∃ d', put_objects f (Some d) = Some d' ∧ is_dir (Some d') = true ∧ child (Some d') STAGE = Some t.
Proof.
  intros Hd Ht. unfold put_objects. destruct (f _) as [o|]; [|by exists d].
  exists (put_child d "objects" o). split; [done|]. rewrite is_dir_put_child. split; [done|].
  by rewrite child_put_child.
Qed.

Lemma remove_empty_staged (s : clone_site) t dir :
  staged t s → child dir STAGE = Some t → is_dir dir = true → staged t (put_git (λ _, dir) s).
Proof. intros Hs Ht Hd. apply staged_put; [done|]. intros d _ _. destruct dir as [d'|]; [|done]. by exists d'. Qed.
End Trees.

(** ** Lemmas: the object store of the clone *)

Section ObjectStore.
Context `{Blake3, HexCrate, StrDebug, GenerationCodec, BatchCodec, GitBinary}.
Context (env : clone_env).

Definition any_state (s : clone_site) : Prop := True.

(** Only the outcome of a success matters. *)
Definition on_success {A} (P : A → clone_site → Prop) (r : result A CapabilityError) (s : clone_site) : Prop :=
  ∀ a, r = Ok a → P a s.

Lemma run_on_tree {A} get put (f : node → result A CapabilityError * node) s (P : A → clone_site → Prop) :
  (∀ n a, get s = Some n → fst (f n) = Ok a → P a (put (snd (f n)) s)) →
  (∀ a, get s = None → fst (f NSpecial) = Ok a → P a s) →
  run_spec s (on_tree get put f) any_state (on_success P).
Proof.
  intros Hsome Hnone. unfold on_tree. apply run_bind_read; [done|]. intros n [= <-].
  destruct (get s) as [n|] eqn:Eg.
  - apply run_bind_step; [done|]. apply run_lift. intros a Ha. by apply Hsome.
  - apply run_lift. intros a Ha. by apply Hnone.
Qed.

Lemma remove_empty_other context path name dir dir' other :
  remove_empty env context path name dir = Ok dir' → name ≠ other →
  child dir' other = child dir other ∧ is_dir dir' = is_dir dir.
Proof.
  unfold remove_empty. intros Hr Hne. destruct (child dir name) as [[c m|m [|e es]|t|]|]; try done.
  - destruct (clone_call env context path); [|done]. injection Hr as <-.
    rewrite child_drop_child, is_dir_drop_child. by apply String.eqb_neq in Hne as ->.
  - by injection Hr as <-.
Qed.

Lemma remove_subdirectory_spec t m objects name s :
  staged t s → cs_mirrors s = m →
  run_spec s (remove_subdirectory env objects name) any_state (on_success (λ _ s', staged t s' ∧ cs_mirrors s' = m)).
Proof.
  intros Hs Hm. unfold remove_subdirectory. apply run_bind_read; [done|]. intros dir _.
  apply run_step; [done|]. intros [] _. rewrite put_git_mirrors. split; [|done].
  apply staged_put; [done|]. intros d. by apply put_objects_staged.
Qed.

Lemma remove_objects_spec t m objects s :
  staged t s → cs_mirrors s = m →
  run_spec s (remove_empty_initial_object_directory env objects) any_state
    (on_success (λ _ s', staged t s' ∧ cs_mirrors s' = m)).
Proof.
  intros Hs Hm. unfold remove_empty_initial_object_directory.
  apply run_bind. eapply run_weaken; [done| |by apply (remove_subdirectory_spec t m)].
  intros [[]|e] s1; [|done]. intros Hrun1. destruct (Hrun1 tt eq_refl) as [Hs1 Hm1]. clear Hrun1.
  apply run_bind. eapply run_weaken; [done| |by apply (remove_subdirectory_spec t m)].
  intros [[]|e] s2; [|done]. intros Hrun2. destruct (Hrun2 tt eq_refl) as [Hs2 Hm2]. clear Hrun2.
  apply run_bind_read; [done|]. intros dir Hr. apply res_bind_Ok in Hr as (o & _ & Hr).
  destruct (remove_empty_other _ _ _ _ _ STAGE Hr ltac:(done)) as [Hst Hdir].
  apply run_step; [done|]. intros [] _. rewrite put_git_mirrors. split; [|done].
  destruct Hs2 as (d & Hg & Hd & Ht). unfold git_node in Hg. rewrite Hg in Hst, Hdir.
  apply remove_empty_staged; [by exists d|congruence..].
Qed.

Lemma install_objects_spec t m git_dir s :
  staged t s → cs_mirrors s = m →
  run_spec s (install_objects env git_dir) any_state
    (on_success (λ _ s', git_objects s' = Some t ∧ cs_mirrors s' = m)).
Proof.
  intros (d & Hg & Hd & Ht) Hm. unfold install_objects. apply run_bind_lift; [done|]. intros _ _.
  apply run_bind_read; [done|]. intros stage Hst. apply ok_or_Ok in Hst.
  change (child (repo_node s) ".git") with (git_node s) in Hst. rewrite Hg, Ht in Hst. injection Hst as <-.
  apply run_bind_read; [done|]. intros _ _.
  apply run_step; [done|]. intros [] _. rewrite put_git_mirrors. split; [|done].
  change (git_objects ?x) with (child (git_node x) "objects").
  destruct d as [c mode|mode es|l|]; try done.
  erewrite git_put_git; [|done|done]. rewrite child_put_child by done. by rewrite String.eqb_refl.
Qed.

Lemma refuse_alternates_spec t git_dir s :
  staged t s →
  run_spec s (refuse_alternates env git_dir) any_state (on_success (λ _ s', s' = s ∧
    (child (child (Some t) "info") "alternates" = None ∨ ce_fs env "probe alternates" (join git_dir STAGE) ≠ None))).
Proof.
  intros (d & Hg & Hd & Ht). unfold refuse_alternates. apply run_bind_read; [done|]. intros alternates [= <-].
  change (child (repo_node s) ".git") with (git_node s). rewrite Hg, Ht.
  destruct (child (child (Some t) "info") "alternates") as [a|] eqn:Ea.
  - destruct (ce_fs env "probe alternates" _) as [e|] eqn:Ef; [apply run_ret; intros [] _; auto|].
    destruct (clone_call env _ _) as [u|e]; by apply run_bind_step, run_lift.
  - destruct (ce_fs env "probe alternates" _); apply run_ret; intros [] _; auto.
Qed.

Lemma copy_objects_spec mirror name git_dir s :
  stable (ce_copy env) → is_dir (git_node s) = true →
  run_spec s (copy_objects env mirror name git_dir) any_state (on_success (λ mode s',
    ∃ t, child (child (Some (cs_mirrors s)) name) "objects" = Some t ∧ is_dir (Some t) = true ∧
      ordinary t = true ∧ mode = copy_mode (ce_copy env) (join mirror "objects") t ∧
      staged t s' ∧ cs_mirrors s' = cs_mirrors s)).
Proof.
  intros Hs Hdir. unfold copy_objects. apply run_bind_read; [done|]. intros copied [= <-].
  destruct (copy_tree_prefers_reflink _ _ _ _ _) as [c r] eqn:Ec. simpl.
  apply run_bind_step; [done|]. apply run_lift. intros mode ->.
  destruct (copy_tree_Ok _ _ _ _ _ _ _ Hs Ec) as (t & Ho & _ & -> & Htd & Hord & ->).
  exists t. rewrite put_git_mirrors. split_and!; try done.
  destruct (git_node s) as [d|] eqn:Eg; [|done].
  exists (put_child d STAGE t). rewrite is_dir_put_child, child_put_child by done. rewrite String.eqb_refl.
  split; [|done]. by eapply git_put_git.
Qed.

Lemma clone_from_mirror_spec git mirror name dest algorithm s :
  stable (ce_copy env) →
  run_spec s (clone_from_mirror env git mirror name dest algorithm) any_state (on_success (λ mode s',
    ∃ objects, child (child (Some (cs_mirrors s)) name) "objects" = Some objects ∧
      git_objects s' = Some objects ∧ is_dir (Some objects) = true ∧ ordinary objects = true ∧
      (child (child (Some objects) "info") "alternates" = None ∨
       ce_fs env "probe alternates" (join (join dest ".git") STAGE) ≠ None) ∧
      cs_mirrors s' = cs_mirrors s ∧
      mode = copy_mode (ce_copy env) (join mirror "objects") objects)).
Proof.
  intros Hs.
  unfold clone_from_mirror. apply run_bind.
  eapply run_weaken; [done| |apply (run_on_tree _ _ _ s (λ _ s', cs_mirrors s' = cs_mirrors s)); done].
  intros [out|e] s1 Hrun1; [|done]. specialize (Hrun1 out eq_refl). cbn beta in Hrun1.
  apply run_bind_read; [done|]. intros [] Hempty.
  assert (is_dir (git_node s1) = true) as Hdir.
  { unfold require_empty_initial_object_directory in Hempty.
    apply res_bind_Ok in Hempty as (u & _ & Hempty). apply res_bind_Ok in Hempty as (n & Hn & _).
    apply ok_or_Ok in Hn. apply (child_is_dir _ "objects"). by exists n. }
  apply run_bind. eapply run_weaken; [done| |by apply copy_objects_spec].
  intros [mode|e] s2 Hrun2; [|done]. destruct (Hrun2 mode eq_refl) as (t & Ho & Htd & Hord & -> & Hst & Hm). clear Hrun2.
  rewrite Hrun1 in Ho, Hm.
  apply run_bind. eapply run_weaken; [done| |by apply refuse_alternates_spec].
  intros [[]|e] s3 Hrun3; [|done]. destruct (Hrun3 tt eq_refl) as [-> Halt]. clear Hrun3.
  apply run_bind. eapply run_weaken; [done| |by eapply remove_objects_spec].
  intros [[]|e] s4 Hrun4; [|done]. destruct (Hrun4 tt eq_refl) as [Hst4 Hm4]. clear Hrun4.
  apply run_bind. eapply run_weaken; [done| |by eapply install_objects_spec].
  intros [[]|e] s5 Hrun5; [|done]. destruct (Hrun5 tt eq_refl) as [Ho5 Hm5]. clear Hrun5.
  apply run_bind_lift; [done|]. intros _ _. apply run_ret. intros mode [= <-]. exists t. by split_and!.
Qed.

End ObjectStore.

(** ** Lemmas: the work directory while it is created *)

(** What Git promises about the directories it is run in: it does not replace them, and
    [init] only makes its destination. *)
Class GitDirectories `{GitBinary} : Prop := {
  git_keeps_directory c verb t :
    is_dir (Some t) = true → is_dir (Some (snd (binary_execute c verb t))) = true;
  git_init_keeps c t name : name ≠ "repo" →
    child (Some (snd (binary_execute c "init" t))) name = child (Some t) name
}.

Lemma git_run_directory `{GitDirectories} inspect g repo fp args extra t :
  is_dir (Some t) = true → is_dir (Some (snd (git_run inspect g repo fp args extra t))) = true.
Proof.
  intros Hd. unfold git_run. destruct (command inspect g repo t fp) as [c|e]; [|done].
  pose proof (git_keeps_directory (with_args (with_env c extra) args) (default "git" (head args)) t Hd) as Hk.
  by destruct (binary_execute _ _ t) as [[out|e] t'].
Qed.

Lemma git_init_directory `{GitDirectories} inspect g fp args extra t name :
  name ≠ "repo" →
  child (Some (snd (git_run inspect g None fp ("init" :: args) extra t))) name = child (Some t) name.
Proof.
  intros Hn. unfold git_run. destruct (command inspect g None t fp) as [c|e]; [|done].
  change (default "git" (head ("init" :: args))) with "init".
  pose proof (git_init_keeps (with_args (with_env c extra) ("init" :: args)) t name Hn) as Hk.
  by destruct (binary_execute _ _ t) as [[out|e] t'].
Qed.

Lemma head_state_directory `{GitDirectories} inspect g repo t :
  is_dir (Some t) = true → is_dir (Some (snd (head_state inspect g repo t))) = true.
Proof.
  intros Hd. unfold head_state. destruct (command inspect g (Some repo) t Never) as [c|e]; [|done].
  pose proof (git_keeps_directory (with_args c ["symbolic-ref"; "-q"; "HEAD"]) "symbolic-ref" t Hd) as Hk.
  by destruct (binary_execute _ _ t) as [[out|e] t'].
Qed.

(** A repository that passed the guard is a directory, and stays one. *)
Lemma guard_directory `{GitDirectories} inspect canonicalize g repo t u :
  fst (guard_repository inspect canonicalize g repo t) = Ok u →
  is_dir (Some (snd (guard_repository inspect canonicalize g repo t))) = true.
Proof.
  unfold guard_repository. destruct (inspect _); [done|]. destruct (child (Some t) ".git") as [entry|] eqn:Ec; [|done].
  destruct (negb _); [done|]. intros _.
  assert (is_dir (Some t) = true) as Hd by (apply (child_is_dir _ ".git"); by exists entry).
  pose proof (git_run_directory inspect g (Some repo) Never ["rev-parse"; "--show-toplevel"] [] t Hd) as Hk.
  by destruct (git_run _ _ _ _ _ _ t) as [out t'].
Qed.

Section Create.
Context `{Blake3, HexCrate, StrDebug, GenerationCodecLaws, BatchCodec, GitBinary, !GitDirectories}.
Context (env : clone_env) (req : CloneRequest) (s0 : clone_site).

(** An active pointer comes with a directory of generations. *)
Definition sound_work (w : wspace) : Prop := w_generations w = None → inactive w.

Definition boot_of : GenerationBootstrap :=
  {| gb_work_dir := join (join (clr_root req) "work") (clr_attempt_id req); gb_generation_dir := first_name |}.

(** The work directory as it was found: before the call, or by it when it was made or
    appeared meanwhile. *)
Definition found (w : option wspace) : Prop :=
  w = cs_work s0 ∨ cs_work s0 = None ∧ (w = Some fresh_work ∨ is_Some w ∧ w = ce_raced_work env).

(** No active generation. *)
Definition unborn (w : option wspace) : Prop := ∃ w', w = Some w' ∧ inactive w'.

(** The first generation is being built. *)
Record building_in (w : wspace) : Prop := {
  bi_dir : w_is_dir w = true;
  bi_inactive : inactive w;
  bi_generations : is_Some (w_generations w);
  bi_only k n : generations_of w !! k = Some n → k = first_name ∧ is_dir (Some n) = true;
  bi_journal : child (generations_of w !! first_name) "journal" = Some (NDir PRIVATE_DIR_MODE [])
}.
Definition building (w : option wspace) : Prop := ∃ w', w = Some w' ∧ building_in w'.
Definition cloned (w : option wspace) : Prop :=
  ∃ w', w = Some w' ∧ building_in w' ∧ is_dir (child (generations_of w' !! first_name) "repo") = true.

(** [first_store] for some checkpoint. *)
Definition served (g : GenerationStore) (w : option wspace) : Prop := ∃ w', w = Some w' ∧ opens w' g.
Definition store_at (c : Checkpoint) : GenerationStore :=
  first_store boot_of (clr_attempt_id req) (hex_encode (clr_nonce req)) c.

(** Nothing yet, or all of it. *)
Definition atomic (w : option wspace) : Prop :=
  found w ∨ unborn w ∨ ∃ tree, served (store_at (bind_git_tree (checkpoint []) tree)) w.

(** The lock is held or not, and the work directory is [R]. *)
Definition phase (locked : bool) (R : option wspace → Prop) (s : clone_site) : Prop :=
  cs_locked s = locked ∧ R (cs_work s).

Lemma building_unborn w : building w → unborn w.
Proof. intros (w' & -> & []). by exists w'. Qed.
Lemma cloned_building w : cloned w → building w.
Proof. intros (w' & -> & Hb & _). by exists w'. Qed.

Lemma on_tree_keeps {A} J get put (f : node → result A CapabilityError * node) (P : A → clone_site → Prop) :
  (∀ s n, J s → get s = Some n → J (put (snd (f n)) s) ∧ ∀ a, fst (f n) = Ok a → P a (put (snd (f n)) s)) →
  (∀ s a, J s → get s = None → fst (f NSpecial) = Ok a → P a s) →
  keeps_to J (on_tree get put f) P.
Proof.
  intros Hsome Hnone s Hs. unfold on_tree. apply run_bind_read; [done|]. intros n [= <-].
  destruct (get s) as [n|] eqn:Eg.
  - destruct (Hsome s n Hs Eg) as [Hj Ha]. apply run_bind_step; [done|]. by apply run_lift.
  - apply run_lift. split; [done|]. intros a Ha. by apply Hnone.
Qed.

(** Commands on the mirrors leave the phase. *)
Lemma in_mirrors_keeps {A} b R (f : node → result A CapabilityError * node) :
  keeps_to (phase b R) (in_mirrors f) (λ _ _, True).
Proof. by apply on_tree_keeps. Qed.
Lemma in_mirror_keeps {A} b R name (f : node → result A CapabilityError * node) :
  keeps_to (phase b R) (in_mirror name f) (λ _ _, True).
Proof. by apply on_tree_keeps. Qed.

Lemma prepare_keeps J path entry create raced :
  (∀ s, J s → entry s = None → J (create s) ∧ is_Some (entry (create s))) →
  (∀ s ordinary appear, J s → entry s = None → raced = Some (ordinary, appear) →
     J (appear s) ∧ is_Some (entry (appear s))) →
  keeps_to J (prepare_private_directory env path entry create raced) (λ _ s, is_Some (entry s)).
Proof.
  intros Hc Hr s Hs. unfold prepare_private_directory.
  apply run_bind_lift; [by split|]. intros _ _. apply run_bind_read; [done|]. intros found' [= <-].
  apply run_bind. eapply (run_weaken _ _ _ _ (λ r s', J s' ∧ ∀ u, r = Ok u → is_Some (entry s'))); [done| |].
  - intros [[]|e] s' [Hj Ha]; [|by split]. specialize (Ha tt eq_refl).
    apply run_bind_lift; [by split|]. intros _ _. apply run_bind_lift; [by split|]. intros _ _.
    apply run_lift. by split.
  - destruct (entry s) as [ordinary|] eqn:Ee.
    + apply run_lift. split; [done|]. intros _ _. by exists ordinary.
    + destruct raced as [[ordinary appear]|].
      * destruct (Hr s ordinary appear Hs Ee eq_refl) as [Hj Ha]. apply run_bind_step; [done|].
        apply run_bind_lift; [by split|]. intros _ _. apply run_lift. by split.
      * destruct (Hc s Hs Ee) as [Hj Ha]. apply run_bind_lift; [by split|]. intros _ _.
        apply run_step; [done|]. by split.
Qed.

Lemma prepare_runtime_keeps b R path : keeps_to (phase b R) (prepare_runtime env path) (λ _ _, True).
Proof.
  eapply keeps_to_weaken; [apply prepare_keeps|done].
  - intros s Hs _. split; [done|]. simpl. by rewrite lookup_insert_eq.
  - intros s ordinary appear Hs _ Hr. destruct (ce_raced env path) as [o|]; [|done].
    injection Hr as <- <-. split; [done|]. simpl. by rewrite lookup_insert_eq.
Qed.

Lemma prepare_work_keeps b path :
  keeps_to (phase b found) (prepare_work env path) (λ _ s, is_Some (cs_work s)).
Proof.
  eapply keeps_to_weaken; [apply prepare_keeps|].
  - intros s [Hl Hf] He. assert (cs_work s = None) as Hn by (by destruct (cs_work s)).
    split; [|by eexists]. split; [done|]. right. destruct Hf as [Hf|(H' & _)]; [|by auto]. split; [congruence|by left].
  - intros s ordinary appear [Hl Hf] He Hr. assert (cs_work s = None) as Hn by (by destruct (cs_work s)).
    destruct (ce_raced_work env) as [w|] eqn:Ew; [|done]. injection Hr as <- <-.
    split; [|by eexists]. split; [done|]. right. split.
    + destruct Hf as [Hf|(H' & _)]; congruence.
    + right. by split; [eexists|].
  - intros _ s _ [o Ho]. by destruct (cs_work s); [eexists|].
Qed.

(** The lock is dropped on an error. *)
Lemma run_unlock {A} (m : clone_script A) s (I : clone_site → Prop) R (P : A → clone_site → Prop) :
  (∀ s, I s → I (set_locked false s)) →
  run_spec s m I (λ r s', I s' ∧ match r with Ok a => P a s' | Err _ => R (cs_work s') end) →
  run_spec s (unlock_on_error m) I (λ r s', match r with Ok a => P a s' | Err _ => phase false R s' end).
Proof.
  intros Hi [Ht Hq]. unfold run_spec, unlock_on_error. destruct (m s) as [trace [a|e]]; simpl in *.
  - by destruct Hq.
  - destruct Hq as [Hl Hr]. split; [apply Forall_app; split; [done|by apply Forall_cons_2; [apply Hi|apply Forall_nil_2]]|].
    rewrite left_in_app. by split.
Qed.

(** A script on the work directory. *)
Lemma run_in_work {A} (m : script wspace GenerationError A) w s I (Q : result A CapabilityError → clone_site → Prop) :
  cs_work s = Some w →
  run_spec w m (λ w', I (set_work w' s)) (λ r w', Q (map_err CapGeneration r) (set_work w' s)) →
  run_spec s (in_work m) I Q.
Proof.
  intros Hw Hm. apply run_map_err. unfold run_spec, script_in in *.
  assert (work_of s = w) as Hwo by (unfold work_of; by rewrite Hw). rewrite Hwo.
  destruct Hm as [Hi Hq]. destruct (m w) as [trace r]. simpl in *. split; [by apply List.Forall_map|].
  unfold left_in in *. change (map (λ t, set_work t s) trace) with ((λ t, set_work t s) <$> trace).
  rewrite fmap_last. destruct (last trace); simpl in *; [done|].
  assert (set_work w s = s) as Hs; [|by rewrite Hs in Hq]. destruct s. simpl in Hw. by subst.
Qed.

Lemma create_directory_spec e path present make w J :
  (present w = false → J (make w)) →
  run_spec w (create_directory e path present make) (λ w', w' = w ∨ J w')
    (λ r w', (w' = w ∨ J w') ∧ ∀ u, r = Ok u → present w = false ∧ w' = make w).
Proof.
  intros Hm. unfold create_directory. apply run_bind_lift; [by intros; split; [left|]|]. intros _ _.
  apply run_bind_read; [by intros; split; [left|]|]. intros u Hp. apply fail_if_Ok in Hp.
  apply run_bind_step; [right; by apply Hm|]. apply run_lift. split; [right; by apply Hm|]. by intros _ _.
Qed.

Lemma bootstrap_prepare_spec e work_dir w :
  sound_work w →
  run_spec w (bootstrap_prepare e work_dir) (λ w', w' = w ∨ inactive w')
    (λ r w', (w' = w ∨ inactive w') ∧
       ∀ b, r = Ok b → b = {| gb_work_dir := work_dir; gb_generation_dir := first_name |} ∧ building_in w').
Proof.
  intros Hsound. unfold bootstrap_prepare.
  apply run_bind_read; [by intros; split; [left|]|]. intros [] Hdir.
  assert (w_is_dir w = true) as Hwd.
  { unfold require_ordinary_directory in Hdir. res_inv. unfold work_node in *. simpl in *.
    match goal with Hx : Some _ = Some ?n |- _ => injection Hx as <- end.
    unfold require_directory in *. res_inv. by destruct (w_is_dir w). }
  apply run_bind. eapply run_weaken; [| |apply (create_directory_spec _ _ _ _ _ inactive)]; [done| |].
  2: { intros Hn. apply Hsound. unfold generations_node in Hn. by destruct (w_generations w). }
  intros [[]|er] w1 [Hw1 Hok]; [|by split]. destruct (Hok tt eq_refl) as [Hn ->]. clear Hok.
  assert (inactive w) as Hin.
  { apply Hsound. unfold generations_node in Hn. by destruct (w_generations w). }
  set (w1 := {| w_is_dir := w_is_dir w; w_entries := w_entries w; w_generations := Some ∅ |}) in *.
  assert (∀ w', w' = w1 ∨ inactive w' → w' = w ∨ inactive w') as Hback by (intros w' [->|]; auto).
  apply run_bind. eapply run_weaken; [| |apply (create_directory_spec _ _ _ _ _ inactive); by intros _]; [exact Hback|].
  intros [[]|er] w2 [Hw2 Hok]; [|split; [by apply Hback|done]]. destruct (Hok tt eq_refl) as [_ ->]. clear Hok.
  set (w2 := with_generations (insert (generation_name 0) (NDir PRIVATE_DIR_MODE [])) w1) in *.
  assert (∀ w', w' = w2 ∨ inactive w' → w' = w ∨ inactive w') as Hback2 by (intros w' [->|]; auto).
  apply run_bind. eapply run_weaken; [| |apply (create_directory_spec _ _ _ _ _ inactive); by intros _]; [exact Hback2|].
  intros [[]|er] w3 [Hw3 Hok]; [|split; [by apply Hback2|done]]. destruct (Hok tt eq_refl) as [_ ->]. clear Hok.
  apply run_ret. split; [by right|]. intros b [= <-]. split; [done|].
  assert (generations_of (with_generations (put_generation_child (generation_name 0) "journal" (NDir PRIVATE_DIR_MODE [])) w2)
    = {[generation_name 0 := NDir PRIVATE_DIR_MODE [("journal", NDir PRIVATE_DIR_MODE [])]]}) as Hg.
  { unfold w2, w1, put_generation_child, generations_of, with_generations. simpl.
    by rewrite alter_insert_eq. }
  constructor; [done|done|by eexists|..]; rewrite Hg.
  - intros k n [<- <-]%lookup_singleton_Some. done.
  - by rewrite lookup_singleton_eq.
Qed.

Lemma building_in_put_repo w n :
  building_in w → building_in (with_generations (put_generation_child first_name "repo" n) w).
Proof.
  intros [Hd Hi Hg Ho Hj].
  assert (is_dir (generations_of w !! first_name) = true) as Hf by (by apply (child_is_dir _ "journal"); rewrite Hj).
  constructor; [done|done| | |].
  - destruct Hg as [g Hg]. unfold with_generations. simpl. rewrite Hg. by eexists.
  - intros k m. rewrite generations_of_with by done. unfold put_generation_child.
    rewrite lookup_alter_Some. intros [(<- & d & Hdk & ->)|[_ Hk]]; [|by apply Ho].
    apply Ho in Hdk as [_ Hdk]. by rewrite is_dir_put_child.
  - by rewrite child_after_put.
Qed.

Lemma building_in_put_first w n :
  building_in w → is_dir (Some n) = true → child (Some n) "journal" = Some (NDir PRIVATE_DIR_MODE []) →
  building_in (with_generations (alter (λ _, n) first_name) w).
Proof.
  intros [Hd Hi Hg Ho Hj] Hdn Hjn.
  assert (is_Some (generations_of w !! first_name)) as [d Hf].
  { destruct (generations_of w !! first_name); [by eexists|done]. }
  constructor; [done|done| | |].
  - destruct Hg as [g Hg]. unfold with_generations. simpl. rewrite Hg. by eexists.
  - intros k m. rewrite generations_of_with by done.
    rewrite lookup_alter_Some. intros [(<- & d' & Hdk & ->)|[_ Hk]]; [|by apply Ho]. by split.
  - rewrite generations_of_with by done. by rewrite lookup_alter_eq, Hf.
Qed.

Lemma building_work s : building (cs_work s) → building_in (work_of s) ∧ cs_work s = Some (work_of s).
Proof. unfold work_of. by intros (w & -> & Hb). Qed.

Lemma put_repo_building s n : building (cs_work s) → building (cs_work (put_repo n s)).
Proof. intros [Hb _]%building_work. eexists. split; [done|]. by apply building_in_put_repo. Qed.

Lemma put_git_building f s : building (cs_work s) → building (cs_work (put_git f s)).
Proof. intros Hb. unfold put_git. repeat case_match; try done. by apply put_repo_building. Qed.

Lemma put_repo_cloned s n :
  building (cs_work s) → is_dir (Some n) = true → cloned (cs_work (put_repo n s)).
Proof.
  intros [Hb _]%building_work Hn. eexists. split; [done|]. split; [by apply building_in_put_repo|].
  destruct Hb as [Hd Hi Hg Ho Hj]. rewrite child_after_put; [by rewrite String.eqb_refl|done|].
  by apply (child_is_dir _ "journal"); rewrite Hj.
Qed.

Lemma put_git_locked f s : cs_locked (put_git f s) = cs_locked s.
Proof. unfold put_git. by repeat case_match. Qed.

Lemma clone_step_keeps J (f : clone_site → clone_site) : (∀ s, J s → J (f s)) → keeps_to J (step f : clone_script unit) (λ _ _, True).
Proof. intros Hf s Hs. apply run_step; [by apply Hf|]. split; [by apply Hf|done]. Qed.

Lemma put_git_keeps b f : keeps_to (phase b building) (step (put_git f) : clone_script unit) (λ _ _, True).
Proof.
  apply clone_step_keeps. intros s [Hl Hb]. split; [by rewrite put_git_locked|by apply put_git_building].
Qed.

(** The clone builds in the first generation only. *)
Lemma clone_from_mirror_keeps b git mirror name dest algorithm :
  keeps_to (phase b building) (clone_from_mirror env git mirror name dest algorithm) (λ _ _, True).
Proof.
  unfold clone_from_mirror. apply keeps_to_then.
  { apply on_tree_keeps; [|done]. intros s n [Hl Hb] Hn. split; [|done]. split; [done|].
    apply building_work in Hb as [Hb _]. eexists. split; [done|].
    pose proof Hb as [Hd Hi Hg Ho Hj]. unfold first_node in Hn. destruct (Ho _ _ Hn) as [_ Hdn].
    apply building_in_put_first; [done|by apply git_run_directory|].
    rewrite git_init_directory by done. by rewrite Hn in Hj. }
  intros _. apply keeps_to_then; [by apply keeps_to_read|]. intros _.
  apply keeps_to_then.
  { unfold copy_objects. apply keeps_to_then; [by apply keeps_to_read|]. intros copied.
    apply keeps_to_then; [apply put_git_keeps|]. intros _. by apply keeps_to_lift. }
  intros mode. apply keeps_to_then.
  { unfold refuse_alternates. apply keeps_to_then; [by apply keeps_to_read|]. intros [a|]; [|by apply keeps_to_ret].
    destruct (ce_fs env _ _); [by apply keeps_to_ret|]. destruct (clone_call env _ _);
      (apply keeps_to_then; [apply put_git_keeps|]; intros _; by apply keeps_to_lift). }
  assert (∀ objects name', keeps_to (phase b building) (remove_subdirectory env objects name') (λ _ _, True)) as Hsub.
  { intros objects name'. unfold remove_subdirectory. apply keeps_to_then; [by apply keeps_to_read|]. intros d. apply put_git_keeps. }
  intros _. apply keeps_to_then.
  { unfold remove_empty_initial_object_directory. apply keeps_to_then; [apply Hsub|]. intros _.
    apply keeps_to_then; [apply Hsub|]. intros _. apply keeps_to_then; [by apply keeps_to_read|]. intros d. apply put_git_keeps. }
  intros _. apply keeps_to_then.
  { unfold install_objects. apply keeps_to_then; [by apply keeps_to_lift|]. intros _.
    apply keeps_to_then; [by apply keeps_to_read|]. intros d. apply keeps_to_then; [by apply keeps_to_read|]. intros _.
    apply put_git_keeps. }
  intros _. apply keeps_to_then; [by apply keeps_to_lift|]. intros _. by apply keeps_to_ret.
Qed.

(** What the states before the last step have in common, and those of a call that failed. *)
Definition early (b : bool) : clone_site → Prop := phase b (λ w, found w ∨ unborn w).

Lemma building_early b s : phase b building s → early b s.
Proof. intros [Hl Hb]. split; [done|]. right. by apply building_unborn. Qed.

Lemma keeps_early {A} b R (m : clone_script A) (P : A → clone_site → Prop) s :
  keeps_to (phase b R) m P → (∀ s, phase b R s → early b s) → phase b R s →
  run_spec s m (early b) (λ r s', early b s' ∧ ∀ a, r = Ok a → phase b R s' ∧ P a s').
Proof.
  intros Hm He Hs. eapply run_weaken; [exact He| |by apply Hm].
  intros r s' [Hp Ha]. split; [by apply He|]. intros a Hr. split; [done|by apply Ha].
Qed.

Context (Hsound : ∀ w, cs_work s0 = Some w ∨ ce_raced_work env = Some w → sound_work w).

Lemma found_early b s : phase b found s → early b s.
Proof. intros [Hl Hf]. split; [done|by left]. Qed.

Lemma found_sound w : found (Some w) → sound_work w.
Proof.
  intros [Hw|(_ & [[= ->]|[_ Hw]])]; [apply Hsound; by left|done|apply Hsound; by right].
Qed.

Lemma create_locked_spec git base mirror name s :
  phase true found s →
  run_spec s (create_locked env req git base mirror name) (early true) (λ r s', early true s' ∧
    ∀ a, r = Ok a → fst a = boot_of ∧ phase true building s').
Proof.
  intros Hs. unfold create_locked.
  apply run_bind. eapply run_weaken; [done| |eapply (keeps_early true found);
    [apply in_mirror_keeps|apply found_early|done]].
  intros [ex|e] s1 [He1 Hk]; [|by split]. destruct (Hk ex eq_refl) as [Hs1 _]. clear Hk.
  apply run_bind_lift; [by split|]. intros _ _.
  apply run_bind. eapply run_weaken; [done| |eapply (keeps_early true found);
    [apply prepare_runtime_keeps|apply found_early|done]].
  intros [[]|e] s2 [He2 Hk]; [|by split]. destruct (Hk tt eq_refl) as [Hs2 _]. clear Hk.
  apply run_bind. eapply run_weaken; [done| |eapply (keeps_early true found);
    [apply prepare_work_keeps|apply found_early|done]].
  intros [[]|e] s3 [He3 Hk]; [|by split]. destruct (Hk tt eq_refl) as [[Hl3 Hf3] [w Hw]]. clear Hk.
  apply run_bind. eapply (run_in_work _ w); [done|].
  assert (∀ w', w' = w ∨ inactive w' → early true (set_work w' s3)) as Hback.
  { intros w' [->|Hi]; split; [done| |done|].
    - left. simpl. by rewrite <-Hw.
    - right. by eexists. }
  eapply run_weaken; [exact Hback| |apply bootstrap_prepare_spec, found_sound; by rewrite <-Hw].
  intros r w' [Hw' Ha]. destruct r as [b|e]; simpl; [|by split; [apply Hback|]].
  destruct (Ha b eq_refl) as [-> Hb]. clear Ha.
  assert (phase true building (set_work w' s3)) as Hs4 by (split; [done|by eexists]).
  apply run_bind. eapply run_weaken; [done| |eapply (keeps_early true building);
    [apply clone_from_mirror_keeps|apply building_early|done]].
  intros [mode|e] s5 [He5 Hk]; [|by split]. destruct (Hk mode eq_refl) as [Hs5 _].
  apply run_ret. split; [done|]. by intros a [= <-].
Qed.

Lemma sync_mirror_spec git root source s :
  phase false found s →
  run_spec s (sync_mirror env git root source) (λ s', early (cs_locked s') s') (λ r s',
    early (match r with Ok _ => true | Err _ => false end) s' ∧ ∀ a, r = Ok a → phase true found s').
Proof.
  intros Hs. assert (∀ s', phase false found s' → early (cs_locked s') s') as Hfree.
  { intros s' [Hl Hf]. split; [done|by left]. }
  assert (∀ b s', early b s' → early (cs_locked s') s') as Hany by (by intros b s' [_ ?]).
  unfold sync_mirror. apply run_bind_lift; [intros; split; [by apply found_early|done]|]. intros dir _.
  apply run_bind_lift; [intros; split; [by apply found_early|done]|]. intros _ _.
  assert (phase true found (set_locked true s)) as Hs1 by (split; [done|by destruct Hs]).
  apply run_bind_step; [by apply (Hany true), found_early|].
  cbv beta. eapply run_weaken;
    [| |apply (run_unlock _ _ (λ s', early (cs_locked s') s') (λ w, found w ∨ unborn w) (λ _ s', phase true found s'))].
  - done.
  - intros [a|e] s' Hr; [|by split]. split; [by apply found_early|by intros].
  - by intros s' [_ Hw].
  - eapply (run_weaken _ _ (phase true found) _ (λ r s', phase true found s' ∧ ∀ a, r = Ok a → True)).
    + intros s' Hp. by apply (Hany true), found_early.
    + intros r s' [Hp _]. split; [by apply (Hany true), found_early|]. destruct r; [done|]. left. apply Hp.
    + match goal with |- run_spec _ ?m _ _ => assert (keeps_to (phase true found) m (λ _ _, True)) as Hk end.
      { apply keeps_to_then; [by apply keeps_to_read|]. intros mirror. apply keeps_to_then; [|intros; by apply keeps_to_ret].
        destruct (follows _ _ _ _); [apply in_mirror_keeps|]. apply keeps_to_then; [|intros; apply in_mirrors_keeps].
        destruct (follows _ _ _ _); [|by apply keeps_to_ret]. unfold remove_partial.
        apply keeps_to_then; [by apply keeps_to_read|]. intros n.
        assert (∀ e : CapabilityError, keeps_to (phase true found) (lift (Err e) : clone_script unit) (λ _ _, True))
          as Herr by (intros; by apply keeps_to_lift).
        repeat case_match; try apply Herr; try (apply keeps_to_then; [by apply clone_step_keeps|intros; by apply keeps_to_lift]);
          by apply clone_step_keeps. }
      by apply Hk.
Qed.

Context (Hfree : cs_locked s0 = false).
Context (Hfits : ∀ tree, control_fits (manifest_of (clr_attempt_id req) (hex_encode (clr_nonce req)) 0 None
                           (bind_git_tree (checkpoint []) tree))).

(** What a call that succeeds has made. *)
Definition created (pc : PrivateClone) (s : clone_site) : Prop :=
  ∃ base tree encoded,
    oid_new (clr_base_sha req) = Ok base ∧
    wm_base_sha (pc_manifest pc) = base ∧
    wm_branch (pc_manifest pc) = "bullet/" +:+ clr_variant_id req +:+ "/" +:+ clr_attempt_id req ∧
    wm_attempt_id (pc_manifest pc) = clr_attempt_id req ∧
    wm_nonce_hex (pc_manifest pc) = hex_encode (clr_nonce req) ∧
    pc_generations pc = store_at (bind_git_tree (checkpoint []) tree) ∧
    served (pc_generations pc) (cs_work s) ∧
    ce_encode env (pc_manifest pc) = Ok encoded ∧ cs_manifest s = Some encoded.

Lemma in_repo_keeps {A} (f : node → result A CapabilityError * node) :
  (∀ n, is_dir (Some n) = true → is_dir (Some (snd (f n))) = true) →
  keeps_to (phase false cloned) (in_repo f) (λ _ _, True).
Proof.
  intros Hf. apply on_tree_keeps; [|done]. intros s n [Hl Hc] Hn. split; [|done]. split; [done|].
  apply put_repo_cloned; [by apply cloned_building|]. apply Hf. destruct Hc as (w & Hw & Hb & Hr).
  unfold repo_node, first_node, work_of in Hn. rewrite Hw in Hn. simpl in Hn. by rewrite Hn in Hr.
Qed.

Lemma guard_keeps git repo_dir :
  keeps_to (phase false building) (in_repo (guard_repository (inspect_git env) (ce_canonicalize env) git repo_dir))
    (λ _ s, phase false cloned s).
Proof.
  apply on_tree_keeps.
  - intros s n [Hl Hb] Hn. split; [split; [done|by apply put_repo_building]|].
    intros u Hu. split; [done|]. apply put_repo_cloned; [done|]. by eapply guard_directory.
  - intros s u Hs Hn. unfold guard_repository. by destruct (inspect_git env _).
Qed.

Lemma checkout_keeps git repo_dir base branch :
  keeps_to (phase false cloned) (checkout_private_branch env git repo_dir base branch) (λ _ _, True).
Proof.
  unfold checkout_private_branch, git_in.
  apply keeps_to_then; [apply in_repo_keeps; intros; by apply git_run_directory|]. intros _.
  apply keeps_to_then; [apply in_repo_keeps; intros; by apply head_state_directory|]. intros h.
  apply keeps_to_then; [by apply keeps_to_lift|]. intros _.
  apply keeps_to_then; [apply in_repo_keeps; intros; by apply git_run_directory|]. intros _. by apply keeps_to_ret.
Qed.

Lemma open_first_journal_keeps path :
  keeps_to (phase false cloned) (open_first_journal env path) (λ j _, dj_ops j = []).
Proof.
  intros s Hs. unfold open_first_journal. apply run_bind_read; [done|]. intros n [= <-].
  pose proof Hs as [Hl (w & Hw & Hb & Hr)]. pose proof (bi_journal _ Hb) as Hj.
  assert (child (first_node s) "journal" = Some (NDir PRIVATE_DIR_MODE [])) as ->.
  { unfold first_node, work_of. by rewrite Hw. }
  destruct (ce_fs env "inspect journal" path) as [e|]; simpl.
  - apply run_bind. apply run_ret. apply run_lift. split; [done|]. intros j Hj'. by res_inv.
  - apply run_bind. apply run_ret. apply run_lift. split; [done|]. intros j Hj'.
    apply map_err_Ok in Hj'. unfold journal_open in Hj'. simpl in Hj'. by injection Hj' as <-.
Qed.

Lemma cloned_ready w : building_in w → is_dir (child (generations_of w !! first_name) "repo") = true →
  bootstrap_ready w boot_of.
Proof.
  intros [Hd Hi Hg Ho Hj] Hr. constructor; try done.
  - intros k n Hk. destruct (Ho _ _ Hk) as [-> Hdir]. split; [|done]. right.
    unfold first_name. rewrite parse_generation_name_name by done. by eexists.
  - unfold boot_of. simpl. by rewrite Hj.
Qed.

Lemma early_atomic b s : early b s → atomic (cs_work s).
Proof. intros [_ [Hf|Hu]]; [by left|by right; left]. Qed.

(** The rest of the call, once the lock has been released. *)
Definition safe_end (r : result PrivateClone CapabilityError) (s : clone_site) : Prop :=
  cs_locked s = false ∧ atomic (cs_work s) ∧ ∀ pc, r = Ok pc → created pc s.

Lemma early_end e s : early false s → safe_end (Err e) s.
Proof. intros He. split; [apply He|]. split; [by eapply early_atomic|done]. Qed.

Lemma create_spec : run_spec s0 (create env req) (λ s, atomic (cs_work s)) safe_end.
Proof.
  assert (∀ b s, early b s → atomic (cs_work s)) as Hat by apply early_atomic.
  assert (phase false found s0) as Hs0 by (split; [done|by left]).
  unfold create. apply run_bind_lift; [intros; by apply early_end, found_early|]. intros base Hbase.
  apply map_err_Ok in Hbase.
  assert (∀ path s, phase false found s →
    run_spec s (prepare_runtime env path) (λ s, atomic (cs_work s))
      (λ r s', phase false found s')) as Hruntime.
  { intros path s Hs. eapply run_weaken; [| |by apply (prepare_runtime_keeps false found path s Hs)].
    - intros s' Hp. by apply (Hat false), found_early.
    - by intros r s' [Hp _]. }
  apply run_bind. eapply run_weaken; [| |by apply Hruntime]; [done|].
  intros [[]|e] s1 Hs1; [|by apply early_end, found_early].
  apply run_bind. eapply run_weaken; [| |by apply Hruntime]; [done|].
  intros [[]|e] s2 Hs2; [|by apply early_end, found_early].
  apply run_bind_lift; [intros; by apply early_end, found_early|]. intros git _.
  apply run_bind. eapply run_weaken; [| |by apply sync_mirror_spec]; [intros s' Hs'; exact (Hat _ _ Hs')|].
  intros [synced|e] s3 [He3 Hs3]; [|by apply early_end]. specialize (Hs3 _ eq_refl).
  apply run_bind. eapply run_weaken;
    [| |apply (run_unlock _ _ (λ s, atomic (cs_work s)) (λ w, found w ∨ unborn w)
                 (λ a s', fst a = boot_of ∧ phase true building s'))]; [done| |done|].
  2: { eapply run_weaken; [| |by apply create_locked_spec]; [apply Hat|].
       intros [made|e] s' [He' Ha]; (split; [exact (Hat _ _ He')|]); [by apply Ha|apply He']. }
  intros [made|e] s4; [|by apply early_end]. intros [Hboot [Hl4 Hb4]].
  apply run_bind_step; [right; left; by apply building_unborn|].
  assert (phase false building (set_locked false s4)) as Hs5 by done.
  set (s5 := set_locked false s4) in *. clearbody s5.
  assert (∀ {A} R (m : clone_script A) (P : A → clone_site → Prop) s, (∀ w, R w → building w) →
    keeps_to (phase false R) m P → phase false R s →
    run_spec s m (λ s, atomic (cs_work s)) (λ r s', early false s' ∧ ∀ a, r = Ok a → phase false R s' ∧ P a s')) as Hrun.
  { intros A R m P s HR Hk Hs.
    assert (∀ s', phase false R s' → early false s') as He.
    { intros s' [Hl Hr]. apply building_early. split; [done|by apply HR]. }
    eapply run_weaken; [apply Hat| |exact (keeps_early false R m P s Hk He Hs)]. done. }
  apply run_bind. eapply run_weaken; [| |apply (Hrun _ building); [done|apply guard_keeps|done]]; [done|].
  intros [[]|e] s6 [He6 Hs6]; [|by apply early_end]. destruct (Hs6 tt eq_refl) as [_ Hc6]. clear Hs6.
  apply run_bind. eapply run_weaken; [| |apply (Hrun _ cloned); [apply cloned_building|apply checkout_keeps|done]]; [done|].
  intros [[]|e] s7 [He7 Hs7]; [|by apply early_end]. destruct (Hs7 tt eq_refl) as [Hc7 _]. clear Hs7.
  apply run_bind. eapply run_weaken; [| |apply (Hrun _ cloned); [apply cloned_building| |done]]; [done| |].
  2: { apply in_repo_keeps; intros; by apply git_run_directory. }
  intros [fsck|e] s8 [He8 Hs8]; [|by apply early_end]. destruct (Hs8 _ eq_refl) as [Hc8 _]. clear Hs8.
  apply run_bind. eapply run_weaken; [| |apply (Hrun _ cloned); [apply cloned_building|apply open_first_journal_keeps|done]]; [done|].
  intros [journal|e] s9 [He9 Hs9]; [|by apply early_end]. destruct (Hs9 _ eq_refl) as [Hc9 Hops]. clear Hs9.
  apply run_bind. eapply run_weaken; [| |apply (Hrun _ cloned); [apply cloned_building| |done]]; [done| |].
  2: { apply in_repo_keeps; intros; by apply git_run_directory. }
  intros [out|e] s10 [He10 Hs10]; [|by apply early_end]. destruct (Hs10 _ eq_refl) as [Hc10 _]. clear Hs10.
  apply run_bind_lift; [intros; by apply early_end|]. intros tree _.
  rewrite Hops, Hboot. destruct Hc10 as [Hl10 (w & Hw & Hbw & Hrw)].
  apply run_bind. eapply (run_in_work _ w); [done|].
  assert (∀ w', inactive w' ∨ opens w' (store_at (bind_git_tree (checkpoint []) tree)) →
    atomic (cs_work (set_work w' s10))) as Hback.
  { intros w' [Hi|Ho]; right; [left; by exists w'|right]. eexists. by exists w'. }
  eapply run_weaken; [exact Hback| |apply bootstrap_finish_spec; [by apply cloned_ready|apply Hfits]].
  intros r w' [Hw' Ha]. destruct r as [g|e]; simpl; [|by split; [|split; [apply Hback|]]].
  destruct (Ha g eq_refl) as [-> Hopens]. clear Ha.
  set (s11 := set_work w' s10). assert (cs_work s11 = Some w') as Hw11 by done.
  assert (cs_locked s11 = false) as Hl11 by done.
  assert (atomic (cs_work s11)) as Ha11 by (by apply Hback). clearbody s11.
  apply run_bind_lift; [intros; by split_and!|]. intros encoded Henc. apply map_err_Ok in Henc.
  apply run_bind. unfold write_manifest. destruct (clone_call env "write manifest" _) as [u|e].
  - apply run_step; [done|]. apply run_ret. split; [done|]. split; [done|]. intros pc [= <-].
    exists base, tree, encoded. split_and!; try done. by exists w'.
  - apply run_bind_step; [done|]. apply run_lift. by split_and!.
Qed.

(** C13: creating a workspace is crash-safe.  Whatever fails, and wherever the call is
    cut off, the work directory is as it was found, or has no active generation, or
    opens to the complete generation zero of this attempt and nonce, over an empty
    journal and the tree that Git reported; a call that returns has released the lock of
    the mirror, and a call that succeeds has put that generation there, checked out the
    private branch of the admitted base, and recorded the manifest it answers. *)
Theorem create_crash_safe reader trace r :
  calm reader → create env req s0 = (trace, r) →
  Forall (λ s, found (cs_work s) ∨ unborn (cs_work s) ∨
    ∃ w tree, cs_work s = Some w ∧ reopens reader w (store_at (bind_git_tree (checkpoint []) tree))) trace ∧
  cs_locked (left_in s0 trace) = false ∧
  ∀ pc, r = Ok pc → created pc (left_in s0 trace) ∧
    ∃ w, cs_work (left_in s0 trace) = Some w ∧ reopens reader w (pc_generations pc).
Proof.
  intros Hc E. destruct (run_of _ _ _ _ _ _ create_spec E) as (Ht & Hl & _ & Hpc). split_and!; [|done|].
  - eapply Forall_impl; [exact Ht|]. intros s [Hf|[Hu|(c & w & Hw & Ho)]]; [by left|by right; left|].
    right; right. exists w, c. by rewrite reopens_opens.
  - intros pc Hr. pose proof (Hpc pc Hr) as Hcr. split; [done|].
    destruct Hcr as (base & tree & encoded & _ & _ & _ & _ & _ & _ & (w & Hw & Ho) & _). exists w.
    by rewrite reopens_opens.
Qed.
End Create.

(** ** A concrete clone *)
Module CloneReference.
Import Reference CasReference WriterReference.

Definition new_objects : node := NDir 493 [("info", NDir 493 []); ("pack", NDir 493 [])].

(** A Git that makes an empty repository, and whose [HEAD] is detached. *)
#[export] Instance clone_git : GitBinary := {|
  binary_command := Ok tt;
  binary_execute c verb t :=
    (Ok {| bo_code := Some (if String.eqb verb "symbolic-ref" then 1 else 0)%Z;
           bo_stdout := as_bytes (reply_to verb (default "" (last (gc_args c)))); bo_stderr := [] |},
     if String.eqb verb "init" then put_child t "repo" (NDir 493 [(".git", NDir 493 [("objects", new_objects)])]) else t);
  binary_output _ _ := Ok {| bo_code := Some 0%Z; bo_stdout := []; bo_stderr := [] |} |}.

#[export] Instance clone_git_laws : GitDirectories.
Proof.
  split.
  - intros c verb t Hd. unfold binary_execute, clone_git. cbn [snd]. destruct (String.eqb verb "init"); [by rewrite is_dir_put_child|done].
  - intros c t name Hn. unfold binary_execute, clone_git. cbn [snd]. rewrite String.eqb_refl. destruct (is_dir (Some t)) eqn:Ed; [|by destruct t].
    rewrite child_put_child by done. destruct (String.eqb_spec "repo" name); [congruence|done].
Qed.

Definition clone_request : CloneRequest := {|
  clr_source_repo := "/source"; clr_base_sha := "sha1:" +:+ head_hex; clr_variant_id := "v";
  clr_attempt_id := "attempt"; clr_root := ""; clr_created_at := "2024-01-01T00:00:00Z"; clr_nonce := [xab; xab] |}.

Definition mirror : node :=
  NDir 493 [("HEAD", NFile (as_bytes "ref: refs/heads/main") 420); ("objects", ReflinkReference.objects)].

(** The farm before the call: the mirror of another call is there. *)
Definition farm0 : clone_site := {|
  cs_dirs := ∅; cs_mirrors := NDir 493 [(mirror_name "/source", mirror)]; cs_locked := false;
  cs_work := None; cs_manifest := None |}.

Definition calm_clone : clone_env := {|
  ce_fs _ _ := None; ce_raced _ := None; ce_raced_work := None; ce_default_git := Ok tt; ce_path := None;
  ce_isolation _ := None; ce_canonicalize := λ p, Ok (if String.eqb p "/source" then p else "/repo");
  ce_acquire := Ok tt; ce_resolves _ := false; ce_file _ := false; ce_copy := ReflinkReference.host;
  ce_left := None; ce_generation := calm_gen; ce_encode _ := Ok [x7b; x7d]; ce_written := 0 |}.

Definition clone_run := create calm_clone clone_request farm0.
Lemma clone_run_eq : create calm_clone clone_request farm0 = (fst clone_run, snd clone_run).
Proof. unfold clone_run. apply surjective_pairing. Qed.
Lemma clone_run_ok : ∃ pc, snd clone_run = Ok pc.
Proof.
  assert (match snd clone_run with Ok _ => true | Err _ => false end = true) as Hp by (vm_compute; reflexivity).
  destruct (snd clone_run) as [pc|]; [by exists pc|done].
Qed.

Lemma clone_fits tree : control_fits (manifest_of "attempt" (hex_encode [xab; xab]) 0 None (bind_git_tree (checkpoint []) tree)).
Proof.
  split; intros b; unfold Generation.encode_manifest, encode_pointer, known_codec, encode_known;
    intros Hf%ok_or_Ok; apply fmap_Some in Hf as ([m c] & Hf & ->); apply find_some in Hf as [Hin _];
    by repeat destruct Hin as [[= <- <-]|Hin].
Qed.

Lemma farm0_sound w : cs_work farm0 = Some w ∨ ce_raced_work calm_clone = Some w → sound_work w.
Proof. by intros [[=]|[=]]. Qed.

Lemma calm_gen_calm : calm calm_gen.
Proof. done. Qed.

Lemma create_crash_safe_witness : ∃ pc w,
  snd clone_run = Ok pc ∧ cs_work (left_in farm0 (fst clone_run)) = Some w ∧ reopens calm_gen w (pc_generations pc).
Proof.
  destruct clone_run_ok as [pc Hpc].
  destruct (create_crash_safe calm_clone clone_request farm0 farm0_sound eq_refl clone_fits calm_gen
    (fst clone_run) (snd clone_run) calm_gen_calm clone_run_eq) as (_ & _ & Hr).
  destruct (Hr pc Hpc) as [_ (w & Hw & Ho)]. exists pc, w. exact (conj Hpc (conj Hw Ho)).
Defined.

(** The repository is cloned into the first generation. *)
Definition site1 : clone_site := set_work {|
  w_is_dir := true; w_entries := ∅;
  w_generations := Some {[ first_name := NDir 448 [("journal", NDir 448 [])] ]} |} farm0.
Definition copied_run := clone_from_mirror calm_clone writer_git "/mirrors/m" (mirror_name "/source") "/g/repo" Sha1 site1.
Lemma copied_run_eq : clone_from_mirror calm_clone writer_git "/mirrors/m" (mirror_name "/source") "/g/repo" Sha1 site1
  = (fst copied_run, snd copied_run).
Proof. unfold copied_run. apply surjective_pairing. Qed.
Lemma copied_run_ok : snd copied_run = Ok Reflink.
Proof. vm_compute. reflexivity. Qed.
Lemma mirror_objects : child (child (Some (cs_mirrors site1)) (mirror_name "/source")) "objects" = Some ReflinkReference.objects.
Proof. vm_compute. reflexivity. Qed.

End CloneReference.
