(* ===== verification/Salvage.v ===== *)
(** Properties of [Preservation]: what an issued receipt, an authorized cleanup and
    a deletion say about the artifact and the workspace. *)

From S2P Require Import Prelude Paths Digests Ids Proposal Journal Protocol Disk Cas Generation Capability Artifact Scope Apply SafeGit Repository Publication Preservation Candidate Writer.

#[local] Open Scope script_scope.

(** ** Holdings *)

(** An invariant of the site and one of the rest. *)
Definition both (Js : site → Prop) (Jr : gmap string node → gmap string node → Prop) (h : holding) : Prop :=
  Js (hd_site h) ∧ Jr (hd_artifacts h) (hd_runtime h).

Lemma on_site_keeps {A} Js Jr (m : script site CapabilityError A) P :
  keeps_to Js m P → keeps_to (both Js Jr) (on_site m) (λ a h, P a (hd_site h)).
Proof.
  intros Hm h [Hs Hr]. apply run_script_in; [by intros []|]. eapply run_weaken; [| |by apply Hm].
  - intros s Hs'. by split.
  - intros r s [Hs' Ha]. split; [by split|]. exact Ha.
Qed.

(** Reading and failing change nothing. *)
Lemma keeps_to_reading {S E A} (J : S → Prop) (f : S → result A E) :
  keeps_to J (read f) (λ a s, f s = Ok a).
Proof. by apply keeps_to_read. Qed.

Section Salvage.
Context `{Blake3, HexLaws, StrDebug, !GenerationCodec, !GenerationCodecLaws, !BatchCodec, !BatchCodecLaws,
  !CapabilityText, !GitBinary, !GitLaws, !Unicode, !CharCase, !TokenDecoder, !ReceiptCodec, !KeyedBlake3}.

(** ** Seals *)

Lemma xor_zero a b : N.lxor a b = 0 ↔ a = b.
Proof. apply N.lxor_eq_0_iff. Qed.

Lemma fold_difference l (acc : N) :
  foldl (λ difference ab, N.lor difference (N.lxor (Byte.to_N (fst ab)) (Byte.to_N (snd ab)))) acc l = 0 ↔
  acc = 0 ∧ Forall (λ ab : byte * byte, fst ab = snd ab) l.
Proof.
  revert acc. induction l as [|[a b] l IH]; intros acc; simpl.
  - split; [by intros ->|by intros [-> _]].
  - rewrite IH, N.lor_eq_0_iff, xor_zero, Forall_cons. simpl. split.
    + intros [[-> Heq] ?]. split; [done|]. split; [|done].
      assert (Some a = Some b) as [= ->]; [|done]. by rewrite <- !Byte.of_to_N, Heq.
    + intros (-> & -> & ?). done.
Qed.

Lemma constant_time_equal_spec left right : constant_time_equal left right = true ↔ left = right.
Proof.
  unfold constant_time_equal. rewrite andb_true_iff, !N.eqb_eq, fold_difference. split.
  - intros [Hlen [_ Hall]]. assert (length left = length right) as Hl by (unfold blen in Hlen; lia). clear Hlen.
    revert right Hl Hall. induction left as [|a left IH]; intros [|b right]; simpl; try done.
    intros [= Hl] [Hab Hall]%Forall_cons. simpl in Hab. subst b. f_equal. by apply IH.
  - intros <-. split; [done|]. split; [done|]. induction left as [|a left IH]; simpl; constructor; [done|exact IH].
Qed.

(** ** The site under verification *)

(** The site serves the generation of [w0] that [store] names. *)
Definition serving (w0 : wspace) (store : GenerationStore) (s : site) : Prop :=
  stays w0 (st_work s) ∧ store_of (st_self s) = store.

Lemma serving_stable w0 store : opens w0 store → git_stable (serving w0 store) (gs_active_repo store).
Proof.
  intros Ho s [Hs Hst]. split.
  { intros n. by split. }
  pose proof (opens_stays _ _ _ Ho Hs) as Ho'.
  destruct (active_generation _ _ Ho') as [[d Hd] _]. pose proof (op_repo _ _ Ho') as Hr.
  unfold tree_in. destruct (child (generations_of (st_work s) !! _) "repo") as [n|] eqn:En; [|done].
  exists n. split; [done|]. intros n' Hw. split; [|done].
  eapply stays_put; [done|exact Hd|]. right. split; [done|]. rewrite Hd in En. by rewrite En.
Qed.

(** What an invariant of the site says of the active repository. *)
Definition steady (Js : site → Prop) : Prop :=
  ∃ dir, git_stable Js dir ∧ ∀ s, Js s → gs_active_repo (store_of (st_self s)) = dir.

Lemma serving_steady w0 store : opens w0 store → steady (serving w0 store).
Proof. intros Ho. exists (gs_active_repo store). split; [by apply serving_stable|]. by intros s [_ ->]. Qed.

Lemma quiet_steady s0 : repo_inv s0 → steady (quiet s0).
Proof. intros Hi. eexists. split; [by apply quiet_stable|]. intros s Hs. by rewrite (quiet_store _ _ Hs). Qed.

Lemma workspace_git_keeps Js Jr env args :
  steady Js → default "git" (head args) ∈ observing_verbs →
  keeps_to (both Js Jr) (workspace_git env args) (λ _ _, True).
Proof.
  intros (dir & Hg & Hd) Hv. unfold workspace_git. eapply keeps_to_weaken; [apply on_site_keeps|done].
  apply (keeps_to_self _ _ (λ _ _, True)). intros s Hs. rewrite (Hd _ Hs). by apply (git_at_stable Js).
Qed.

Lemma verify_bundle_keeps Js Jr env destination :
  steady Js → keeps_to (both Js Jr) (verify_bundle env destination) (λ _ _, True).
Proof.
  intros Ho. apply keeps_to_then; [by apply keeps_to_read|]. intros n.
  apply keeps_to_then; [by apply keeps_to_lift|]. intros _. apply keeps_to_map_err, keeps_to_then.
  - apply workspace_git_keeps; [done|by repeat constructor].
  - intros _. by apply keeps_to_ret.
Qed.

(** ** Salvage objects *)

Lemma get_found inspect io d cas digest c :
  get inspect io d cas digest = Ok (Some c) → d !! to_hex digest = Some (CFile c true) ∧ cas_digest c = digest.
Proof.
  unfold get. intros Hget. res_inv. destruct (d !! to_hex digest) as [e|] eqn:E; [|done].
  apply res_map_Ok in Hget as (c' & Hv & [= <-]). apply verify_object_Ok in Hv as (_ & [= ->] & _ & ?). done.
Qed.

Lemma salvage_ops_Ok env d cas ops : try_for (salvage_op env d cas) ops = Ok tt → has_objects d ops.
Proof.
  intros Hok op digest Hop Hd. apply try_for_Ok in Hok. rewrite Forall_forall in Hok. specialize (Hok op Hop).
  unfold salvage_op in Hok. apply try_for_Ok in Hok. rewrite Forall_forall in Hok.
  assert (digest ∈ option_list (jo_before op) ++ option_list (jo_after op)) as Hin.
  { rewrite elem_of_app. destruct Hd as [-> | ->]; simpl; [left|right]; by apply list_elem_of_singleton. }
  specialize (Hok digest Hin). destruct (ke_get env (to_hex digest)) as [inspect io].
  apply res_bind_Ok in Hok as (found & Hget & Hf). apply fail_if_Ok in Hf. bools.
  destruct Hf as [c ->]. apply map_err_Ok, get_found in Hget. by exists c.
Qed.

Lemma preserving_Ok {A} (r : result A PreservationError) a : preserving r = Ok a ↔ r = Ok a.
Proof. apply map_err_Ok. Qed.

(** ** The artifact under verification *)

Lemma artifact_same destination h h' :
  hd_artifacts h' = hd_artifacts h → artifact destination h' = artifact destination h.
Proof. unfold artifact. by intros ->. Qed.

Lemma artifact_child_same destination name h h' :
  hd_artifacts h' = hd_artifacts h → artifact_child destination name h' = artifact_child destination name h.
Proof. intros Ha. unfold artifact_child. by rewrite (artifact_same _ h h'). Qed.

Lemma put_artifact_child_same destination name n h h' :
  hd_artifacts h' = hd_artifacts h →
  hd_artifacts (put_artifact_child destination name n h') = hd_artifacts (put_artifact_child destination name n h).
Proof.
  intros Ha. unfold put_artifact_child. rewrite (artifact_same _ h h') by done.
  destruct (artifact destination h); simpl; by rewrite Ha.
Qed.

Lemma artifact_child_put destination name n h m :
  artifact_child destination name h = Some m →
  artifact_child destination name (put_artifact_child destination name n h) = Some n.
Proof.
  unfold put_artifact_child, artifact_child. destruct (artifact destination h) as [t|] eqn:Et; [|done]. intros Hm.
  assert (is_dir (Some t) = true) as Hd by (by destruct t).
  unfold artifact. simpl. rewrite lookup_insert_eq, child_put_child by done. by rewrite String.eqb_refl.
Qed.

(** The generation in the artifact is [g]; or [g] had no journal and an empty one
    was created in it. *)
Definition empty_journal (g : node) : node := put_child g "journal" (NDir DIR_MODE []).
Definition holds_generation (destination : string) (g : node) (h : holding) : Prop :=
  artifact_child destination "generation" h = Some g ∨
  child (Some g) "journal" = None ∧ artifact_child destination "generation" h = Some (empty_journal g).

(** What the verification of an artifact establishes: the tree [g], hashed as its
    generation, has the digest of [state]; the journal in it is the one [state]
    names, and every object of that journal is in the artifact's content store. *)
Record certified (destination : string) (state : PreservationState) (g : node) (h : holding) : Prop := {
  cf_generation : holds_generation destination g h;
  cf_digest : digest_of (artifact_bytes g) = ps_generation_digest state;
  cf_journal : ∃ ops head, load_batches (listing (child (Some g) "journal")) = Ok (ops, head) ∧
    ckp_through_seq (checkpoint ops) = ps_journal_end state ∧ ckp_tree (checkpoint ops) = ps_journal_root state ∧
    has_objects (cas_view (artifact_child destination "cas" h)) ops
}.
Definition has_digest (destination : string) (digest : Digest) (h : holding) : Prop :=
  ∃ t, artifact destination h = Some t ∧ digest_of (artifact_bytes t) = digest.

Lemma certified_same destination state g h h' :
  hd_artifacts h' = hd_artifacts h → certified destination state g h → certified destination state g h'.
Proof.
  intros Ha [Hg Hd Hj]. constructor; [|done|]; unfold holds_generation in *; by rewrite (artifact_child_same _ _ h h').
Qed.
Lemma has_digest_same destination digest h h' :
  hd_artifacts h' = hd_artifacts h → has_digest destination digest h → has_digest destination digest h'.
Proof. intros Ha. unfold has_digest. by rewrite (artifact_same _ h h'). Qed.

Section Artifact.
Context (h0 : holding) (env : keep_env) (destination : string) (state : PreservationState).

(** Nothing outside the site has changed; or, where the generation in the artifact
    had no journal directory, an empty one was created in it. *)
Definition journal_made : holding :=
  match artifact_child destination "generation" h0 with
  | Some g => match child (Some g) "journal" with
              | None => put_artifact_child destination "generation" (empty_journal g) h0
              | Some _ => h0
              end
  | None => h0
  end.
Definition exact (artifacts runtime : gmap string node) : Prop :=
  artifacts = hd_artifacts h0 ∧ runtime = hd_runtime h0.
Definition loose (artifacts runtime : gmap string node) : Prop :=
  (artifacts = hd_artifacts h0 ∨ artifacts = hd_artifacts journal_made) ∧ runtime = hd_runtime h0.

Lemma exact_loose Js h : both Js exact h → both Js loose h.
Proof. intros [? [? ?]]. split; [done|]. by split; [left|]. Qed.

Lemma loose_generation g h :
  artifact_child destination "generation" h0 = Some g → loose (hd_artifacts h) (hd_runtime h) →
  holds_generation destination g h.
Proof.
  intros Hg [[Ha|Ha] _]; unfold holds_generation.
  { left. by rewrite (artifact_child_same _ _ h0 h). }
  rewrite (artifact_child_same _ _ journal_made h) by done. unfold journal_made. rewrite Hg.
  destruct (child (Some g) "journal") eqn:Ej; [by left|right]. split; [done|]. by eapply artifact_child_put.
Qed.

Lemma open_artifact_journal_spec Js h :
  both Js exact h →
  run_spec h (open_artifact_journal env destination) (both Js loose) (λ r h', both Js loose h' ∧
    ∀ j, r = Ok j → ∃ head,
      load_batches (listing (child (artifact_child destination "generation" h0) "journal")) = Ok (dj_ops j, head)).
Proof.
  intros Hh. pose proof (exact_loose _ _ Hh) as Hl. destruct Hh as [Hs [Ha Hr]].
  apply run_bind_read; [done|]. intros ? [= <-]. rewrite (artifact_child_same _ _ h0 h) by done. cbv zeta.
  set (path := join _ "journal"). set (meta := journal_meta _ path _). set (create := re_fs _ _ path).
  set (stored := artifact_child destination "generation" h0).
  assert (∀ h' : holding, both Js loose h' → run_spec h' (lift (journal_open meta create
      (re_fs (ke_repo env) "sync journal directory" path)
      (re_fs (ke_repo env) "sync journal directory" (join destination "generation"))
      (listing (child stored "journal"))) : script holding JournalError DurableJournal)
    (both Js loose) (λ r h', both Js loose h' ∧ ∀ j, r = Ok j →
      ∃ head, load_batches (listing (child stored "journal")) = Ok (dj_ops j, head))) as Hend.
  { intros h' Hh'. apply run_lift. split; [done|]. intros j Hj. unfold journal_open in Hj.
    apply res_bind_Ok in Hj as ([] & _ & Hj). apply res_bind_Ok in Hj as ([ops head] & Hj & [= <-]).
    by exists head. }
  assert (meta = MetaMissing → child stored "journal" = None) as Hm.
  { unfold meta, journal_meta, stored. destruct (re_fs _ "inspect journal" _); [done|].
    destruct (child _ "journal") as [[]|]; try done. }
  destruct meta, create, stored as [t|] eqn:Et; try by (apply run_bind, run_ret; apply Hend).
  all: try (apply run_bind, run_ret; rewrite ?Et; by apply Hend).
  specialize (Hm eq_refl). apply run_bind_step; [|apply Hend]; (split; [|split]).
  all: try (by unfold put_artifact_child; destruct (artifact destination h)).
  all: right; unfold journal_made; fold stored; rewrite Et, Hm; by apply put_artifact_child_same.
Qed.

Lemma verify_salvage_spec Js h :
  both Js exact h →
  run_spec h (verify_salvage_objects env destination state) (both Js loose)
    (λ r h', both Js loose h' ∧ (r = Ok tt → ∃ g, certified destination state g h')).
Proof.
  intros Hh. pose proof (exact_loose _ _ Hh) as Hl.
  apply run_bind_read; [by split|]. intros digest Hd.
  apply preserving_Ok, hash_artifact_Ok in Hd as (g & Hg & ->).
  rewrite (artifact_child_same _ _ h0 h) in Hg by apply Hh.
  apply run_bind_lift; [by split|]. intros [] Heq. apply fail_if_Ok in Heq. bools.
  apply run_bind, run_map_err. eapply run_weaken; [done| |by apply open_artifact_journal_spec].
  intros [journal|e] h1 [Hh1 Hj]; [|by split]. cbv zeta. simpl.
  apply run_bind_lift; [by split|]. intros [] Hck. apply fail_if_Ok in Hck. bools. destruct Hck as [Hseq Hroot].
  apply run_bind_read; [by split|]. intros ? [= <-].
  apply run_bind_lift; [by split|]. intros cas _. apply run_lift. split; [done|]. intros Hops.
  exists g. destruct (Hj journal eq_refl) as [head Hload]. rewrite Hg in Hload. constructor; [|done|].
  - by apply loose_generation; [|apply Hh1].
  - exists (dj_ops journal), head. split_and!; [done..|]. exact (salvage_ops_Ok _ _ _ _ Hops).
Qed.
End Artifact.

Lemma require_digest_keeps h0 env destination Js expected refusal :
  keeps_to (both Js (exact h0)) (require_digest env destination expected refusal)
    (λ _ h, has_digest destination expected h).
Proof.
  intros h Hh. apply run_bind_read; [done|]. intros digest Hd.
  apply preserving_Ok, hash_artifact_Ok in Hd as (t & Ht & ->).
  apply run_lift. split; [done|]. intros [] Heq. apply fail_if_Ok in Heq. bools. by exists t.
Qed.

Lemma exact_of_loose h0 h1 destination Js h :
  both Js (loose h0 destination) h1 → both Js (exact h1) h → both Js (loose h0 destination) h.
Proof. intros [_ [Ha Hr]] [Hs [Ha' Hr']]. split; [done|]. unfold loose. by rewrite Ha', Hr'. Qed.

Lemma require_artifact_spec h0 env destination state Js expected subject digest h :
  steady Js → both Js (exact h0) h →
  run_spec h (require_artifact env destination state expected subject digest)
    (both Js (loose h0 destination))
    (λ r h', both Js (loose h0 destination) h' ∧
       (r = Ok tt → ∃ g, certified destination state g h' ∧ has_digest destination expected h')).
Proof.
  intros Ho Hh. pose proof (exact_loose _ destination _ _ Hh) as Hl.
  apply run_bind_read; [by split|]. intros [] _.
  apply run_bind. apply run_bind_read; [by split|]. intros recorded _.
  apply run_lift. destruct (fail_if _ _); [|by split]. apply run_bind.
  eapply run_weaken; [done| |by apply (verify_salvage_spec h0)]. intros [[]|e] h1 [Hh1 Hg]; [|by split].
  destruct (Hg eq_refl) as [g Hsv].
  eapply run_weaken; [| |refine (keeps_to_then (both Js (exact h1)) _ _
    (λ _ h, has_digest destination expected h) _ _ h1 _)].
  - intros h2. by apply exact_of_loose.
  - intros r h2 [Hh2 Ha]. split; [by eapply exact_of_loose|]. intros ->. exists g.
    split; [|exact (Ha tt eq_refl)]. eapply certified_same, Hsv. apply Hh2.
  - by apply verify_bundle_keeps.
  - intros _. apply require_digest_keeps.
  - by split; [apply Hh1|].
Qed.

(** ** Capture of the state *)

(** Its working entries are listed by path, once each. *)
Lemma adjacent_twins_sorted l :
  StronglySorted entry_le l → adjacent_twins l = false → NoDup (map we_path l).
Proof.
  induction 1 as [|a l Hs IH Hle]; [by constructor|]. intros Ht. destruct l as [|b l].
  { apply NoDup_singleton. }
  apply orb_false_iff in Ht as [Hab Ht]. apply NoDup_cons. split; [|by apply IH]. intros Hin.
  change (we_path a ∈ we_path <$> b :: l) in Hin.
  apply list_elem_of_fmap in Hin as (c & Hac & Hc). apply String.eqb_neq in Hab. apply Hab.
  apply Forall_cons in Hle as [Hle _]. apply StronglySorted_inv in Hs as [_ Hb].
  apply elem_of_cons in Hc as [->|Hc]; [done|]. rewrite Forall_forall in Hb. specialize (Hb c Hc).
  unfold entry_le in *. rewrite <- Hac in Hb. by apply (anti_symm String.le).
Qed.

Section Capture.
Context (s0 : site) (Hinv : repo_inv s0) (env : keep_env) (auth : AuthorityEnvelope).
Let self : RealRepository := st_self s0.

Record captured (state : PreservationState) (s : site) : Prop := {
  ct_authority : ∃ token, require (rr_expected self) auth = Ok token;
  ct_attempt : ps_attempt_id state = ea_attempt_id (rr_expected self) ∧
               ps_attempt_fence state = ea_attempt_fence (rr_expected self) ∧
               ps_workspace_nonce_hex state = hex_encode (ea_workspace_nonce (rr_expected self));
  ct_generation : ps_generation state = gm_generation (gs_active (store_of self));
  ct_digest : ∃ active, generations_of (st_work s) !! gs_active_repo (store_of self) = Some active ∧
    digest_of (artifact_bytes active) = ps_generation_digest state;
  ct_journal : ps_journal_end state = ckp_through_seq (checkpoint (dj_ops (rr_journal self))) ∧
               ps_journal_root state = ckp_tree (checkpoint (dj_ops (rr_journal self)));
  ct_git_tree : ckp_git_tree (active_checkpoint self) = Some (ps_git_tree state);
  ct_dirty : StronglySorted entry_le (ps_dirty_untracked state) ∧ NoDup (map we_path (ps_dirty_untracked state))
}.

Lemma working_manifest_keeps :
  keeps_to (quiet s0) (working_manifest env) (λ l _, StronglySorted entry_le l ∧ NoDup (map we_path l)).
Proof.
  apply keeps_to_self. intros s Hs. rewrite (quiet_store _ _ Hs).
  refine (keeps_to_then (quiet s0) _ _ _ _ _ s Hs).
  { apply git_at_stable; [by apply quiet_stable|by repeat constructor]. }
  intros out. apply keeps_to_then; [by apply keeps_to_lift|]. intros _.
  apply keeps_to_then; [by apply keeps_to_read|]. intros entries s1 Hs1. cbv zeta.
  apply run_bind_lift; [done|]. intros [] Ht. apply fail_if_Ok in Ht. apply run_ret. split; [done|].
  intros ? [= <-].
  assert (StronglySorted entry_le (merge_sort entry_le entries)) as Hsort.
  { apply StronglySorted_merge_sort; intros x y; unfold entry_le; [|apply (total String.le)].
    intros z. apply (transitivity (R := String.le)). }
  split; [done|]. by apply adjacent_twins_sorted.
Qed.

Lemma preservation_state_spec : keeps_to (quiet s0) (preservation_state env auth) captured.
Proof.
  apply keeps_to_self. intros s Hs. pose proof (quiet_handle _ _ Hs) as (Hw & _ & Hx & _ & _).
  pose proof (quiet_store _ _ Hs) as Hst.
  apply run_bind_lift; [by split|]. intros [] _. apply run_bind_lift; [by split|]. intros token Htok.
  refine (keeps_to_then (quiet s0) _ _ _ (guard_spec s0 Hinv _) _ s Hs). intros [].
  apply keeps_to_then; [by apply keeps_to_read|]. intros [].
  refine (keeps_to_bind (quiet s0) _ _ _ _ (validate_active_checkpoint_spec s0 Hinv _) _).
  intros c s1 Hs1 (Hc & oid & _ & Hops).
  apply run_bind_lift; [by split|]. intros git_tree Htree. apply ok_or_Ok in Htree.
  refine (keeps_to_bind (quiet s0) _ _ _ _ working_manifest_keeps _ s1 Hs1). intros dirty s2 Hs2 Hdirty.
  apply run_bind_read; [by split|]. intros digest Hd. apply preserving_Ok, hash_artifact_Ok in Hd as (active & Ha & ->).
  apply run_ret. split; [done|]. intros ? [= <-]. rewrite Hx, Hst in *.
  unfold generation_node in Ha. rewrite (quiet_store _ _ Hs2) in Ha. constructor; simpl.
  - by exists token.
  - done.
  - done.
  - by exists active.
  - by rewrite Hops.
  - unfold self. by rewrite <- Hc.
  - done.
Qed.
End Capture.

(** ** Seals of receipts *)

(** ** Revalidation and cleanup *)

Section Cleanup.
Context (h0 : holding) (env : keep_env) (p : CleanupPermit).
Let w0 : wspace := st_work (hd_site h0).
Let destination : string := cpm_destination p.

(** What revalidation has found: the generation that [w0] opens, its tree hashing
    to the digest of the sealed state, and the artifact. *)
Record revalidated (store : GenerationStore) (active g : node) (h : holding) : Prop := {
  rv_opens : opens w0 store;
  rv_generation : gm_generation (gs_active store) = ps_generation (cpm_state p);
  rv_active : generations_of w0 !! gs_active_repo store = Some active;
  rv_digest : digest_of (artifact_bytes active) = ps_generation_digest (cpm_state p);
  rv_certified : certified destination (cpm_state p) g h;
  rv_artifact : has_digest destination (cpm_artifact_digest p) h
}.

(** No work has been touched. *)
Definition untouched (h : holding) : Prop :=
  stays w0 (st_work (hd_site h)) ∧ loose h0 destination (hd_artifacts h) (hd_runtime h).

Lemma stays_refl w store : opens w store → stays w w.
Proof. intros Ho. eapply keeps_stays, keeps_refl, Ho. Qed.

Lemma both_untouched store h : both (serving w0 store) (loose h0 destination) h → untouched h.
Proof. intros [[? _] ?]. by split. Qed.

Lemma revalidate_spec :
  run_spec h0 (revalidate env p) untouched
    (λ r h, (h = h0 ∨ untouched h) ∧ (r = Ok tt → untouched h ∧ ∃ store active g, revalidated store active g h)).
Proof.
  unfold revalidate. apply run_bind, run_script_in; [by intros []|].
  apply run_bind_read; [intros e _; split; [left; by destruct h0|done]|]. intros ? [= <-].
  apply run_bind_read; [intros e _; split; [left; by destruct h0|done]|]. intros store Hopen.
  apply map_err_Ok, generation_open_sound in Hopen as (Ho & _).
  set (h1 := with_site (on_self (with_store store) (hd_site h0)) h0).
  assert (both (serving w0 store) (exact h0) h1) as Hh1.
  { split; [split; [by eapply stays_refl|done]|done]. }
  apply run_step; [by eapply both_untouched, exact_loose|]. fold h1.
  assert (∀ h, both (serving w0 store) (exact h0) h → untouched h) as Hu.
  { intros h Hh. by eapply both_untouched, exact_loose. }
  assert (∀ h e, both (serving w0 store) (exact h0) h →
    (h = h0 ∨ untouched h) ∧ (Err e = @Ok unit CapabilityError tt →
      untouched h ∧ ∃ store active g, revalidated store active g h)) as Herr by (intros; split; [right; auto|done]).
  apply run_bind, run_script_in; [by intros []|]. apply run_get_self. change (with_site (hd_site h1) h1) with h1.
  change (store_of (st_self (hd_site h1))) with store.
  assert (run_spec (hd_site h1)
    (if gm_generation (gs_active store) =? ps_generation (cpm_state p)
     then exec digest := read (λ s, preserving (hash_artifact (ke_fs env) (active_dir (st_self (hd_site h1))) (generation_node s))) in
          script_ret (bool_decide (digest = ps_generation_digest (cpm_state p)))
     else script_ret false)
    (λ _, False) (λ r s, s = hd_site h1 ∧ (r = Ok true → gm_generation (gs_active store) = ps_generation (cpm_state p) ∧
       ∃ active, generations_of w0 !! gs_active_repo store = Some active ∧
         digest_of (artifact_bytes active) = ps_generation_digest (cpm_state p)))) as Hcur.
  { destruct (N.eqb_spec (gm_generation (gs_active store)) (ps_generation (cpm_state p))) as [Eg|_]; [|by apply run_ret].
    apply run_bind_read; [by split|]. intros digest Hd. apply run_ret. split; [done|].
    intros [= Heq%bool_decide_eq_true]. split; [done|].
    apply preserving_Ok, hash_artifact_Ok in Hd as (active & Ha & ->). by exists active. }
  eapply run_weaken; [intros s HF; exfalso; exact HF| |exact Hcur]. clear Hcur.
  intros [current|e] s [-> Hcur]; change (with_site (hd_site h1) h1) with h1; [|by apply Herr].
  apply run_bind_lift; [intros e _; by apply Herr|]. intros [] Hc. apply fail_if_Ok in Hc. bools. subst current.
  destruct (Hcur eq_refl) as (Hgen & active & Hactive & Hdig). clear Hcur.
  apply run_bind_read; [intros e _; by apply Herr|]. intros identity _.
  apply run_bind_lift; [intros e _; by apply Herr|]. intros [] _.
  eapply run_weaken; [| |by apply (require_artifact_spec h0 env destination (cpm_state p) (serving w0 store)), Hh1; apply serving_steady].
  - intros h. apply both_untouched.
  - intros r h [Hh Hr]. apply both_untouched in Hh. split; [by right|]. intros Hok. split; [done|].
    destruct (Hr Hok) as (g & Hg & Ht). by exists store, active, g.
Qed.

(** The deletion is justified: the permit names this workspace and was
    revalidated, which still holds of the artifacts of [h]. *)
Definition manifest : WorkspaceManifest := pc_manifest (rr_workspace (st_self (hd_site h0))).
Definition work_dir : string := gs_work_dir (store_of (st_self (hd_site h0))).
Record justified (h : holding) : Prop := {
  jf_permit : permit_matches p (wm_attempt_id manifest) (wm_nonce_hex manifest) work_dir = true;
  jf_revalidated : ∃ store active g, revalidated store active g h
}.

(** How a cleanup ends. *)
Definition cleaned (deleted_at : string) (r : result string CapabilityError) (h : holding) : Prop :=
  match r with
  | Ok path =>
      path = join (pc_runtime_dir (rr_workspace (st_self (hd_site h0)))) "tombstone.json" ∧
      st_work (hd_site h) = gone ∧ justified h ∧
      ∃ encoded, encode_tombstone (tombstone_of manifest p deleted_at) = Ok encoded ∧
        hd_runtime h0 !! "tombstone.json" = None ∧
        hd_runtime h = <["tombstone.json" := NFile encoded PRIVATE_FILE_MODE]> (hd_runtime h0)
  | Err e => h = h0 ∨ untouched h ∨ justified h ∧ ∃ m, e = CapPreservation (PvOutcomeUnknown m)
  end.

(** The phase of a cleanup after the removal of the work directory. *)
Definition removed (h : holding) : Prop :=
  justified h ∧ st_work (hd_site h) = gone ∧ hd_runtime h = hd_runtime h0.

Lemma justified_same h h' : hd_artifacts h' = hd_artifacts h → justified h → justified h'.
Proof.
  intros Heq [Hp (store & active & g & [? ? ? ? ? ?])]. constructor; [done|]. exists store, active, g.
  constructor; [done..| |]; [by eapply certified_same|by eapply has_digest_same].
Qed.

Lemma justified_runtime name n h : justified h → justified (with_runtime name n h).
Proof. by apply justified_same. Qed.

Lemma justified_site s h : justified h → justified (with_site s h).
Proof. by apply justified_same. Qed.

Lemma outcome_lost_unknown h context e : justified h →
  h = h0 ∨ untouched h ∨ justified h ∧ ∃ m, outcome_lost context e = CapPreservation (PvOutcomeUnknown m).
Proof. intros Hj. right. right. split; [done|]. by eexists. Qed.

Lemma write_tombstone_spec deleted_at path encoded h :
  removed h → encode_tombstone (tombstone_of manifest p deleted_at) = Ok encoded →
  run_spec h (write_tombstone env path encoded) justified (λ r h', justified h' ∧ match r with
    | Ok _ => st_work (hd_site h') = gone ∧ hd_runtime h0 !! "tombstone.json" = None ∧
              hd_runtime h' = <["tombstone.json" := NFile encoded PRIVATE_FILE_MODE]> (hd_runtime h0)
    | Err e => ∃ m, e = CapPreservation (PvOutcomeUnknown m)
    end).
Proof.
  intros (Hj & Hg & Hr) He. unfold write_tombstone. apply run_bind_read.
  { intros e Herr. split; [done|]. destruct (ge_io _ _ _); simpl in Herr; [injection Herr as <-; by eexists|].
    destruct (bool_decide _); simpl in Herr; [injection Herr as <-; by eexists|done]. }
  intros [] Hnew. apply res_bind_Ok in Hnew as ([] & _ & Hnew). apply fail_if_Ok in Hnew. bools.
  rewrite Hr in Hnew. apply eq_None_not_Some in Hnew.
  apply run_bind_step; [by apply justified_runtime|]. set (h1 := with_runtime _ _ h).
  apply run_bind. assert (justified h1) as Hj1 by (by apply justified_runtime).
  destruct (ge_io (ke_fs env) "write durable file" path) as [e|].
  { apply run_bind_step; [by apply justified_runtime|]. apply run_lift. split; [by apply justified_runtime|]. by eexists. }
  apply run_step; [by apply justified_runtime|]. set (h2 := with_runtime _ _ h1).
  assert (justified h2) as Hj2 by (by apply justified_runtime).
  assert (hd_runtime h2 = <["tombstone.json" := NFile encoded PRIVATE_FILE_MODE]> (hd_runtime h0)) as Hrt.
  { unfold h2, h1. simpl. rewrite Hr. by rewrite insert_insert_eq. }
  assert (∀ context e, match ge_io (ke_fs env) context path with
    | Some e' => Err (outcome_lost "persist cleanup tombstone" e') | None => Ok tt end = Err e →
    justified h2 ∧ ∃ m, e = CapPreservation (PvOutcomeUnknown m)) as Hend.
  { intros context e Herr. split; [done|]. destruct (ge_io _ _ _); [injection Herr as <-; by eexists|done]. }
  apply run_bind_lift; [intros e Herr; by eapply Hend|]. intros [] _. apply run_lift.
  destruct (ge_io _ "sync durable directory" path); [split; [done|by eexists]|]. by split.
Qed.

Lemma cleanup_spec deleted_at :
  run_spec h0 (cleanup env p deleted_at) (λ h, untouched h ∨ justified h) (cleaned deleted_at).
Proof.
  unfold cleanup. apply run_bind_read; [done|]. intros ? [= <-]. cbv zeta. fold work_dir. fold manifest.
  apply run_bind_lift; [by left|]. intros [] Hm. apply fail_if_Ok in Hm. bools.
  apply run_bind. eapply (run_weaken _ _ untouched); [intros h Hh; left; exact Hh| |exact revalidate_spec].
  intros [[]|e] h [Hh Hr]; [|by destruct Hh as [Hh|Hh]; [left|right; left]]. clear Hh.
  destruct (Hr eq_refl) as [Hu Hv]. clear Hr.
  assert (justified h) as Hj.
  { by constructor. }
  assert (hd_runtime h = hd_runtime h0) as Hrt by apply Hu.
  apply run_bind_read; [by right; left|]. intros [] _. apply run_bind. unfold remove_workspace, run_spec.
  destruct (ke_removal env (st_work (hd_site h))) as [states [e|]] eqn:Erm; cbn [fst snd].
  - split.
    + apply List.Forall_map, Forall_true. intros w. right. by apply justified_site.
    + apply outcome_lost_unknown. unfold left_in.
      change (map ?f states) with (f <$> states). rewrite fmap_last.
      destruct (last states); simpl; [by apply justified_site|done].
  - split.
    { apply Forall_app. split; [apply List.Forall_map, Forall_true; intros w; right; by apply justified_site|].
      constructor; [right; by apply justified_site|constructor]. }
    rewrite left_in_app. simpl. unfold left_in at 1. simpl. set (h1 := with_site _ h).
    assert (removed h1) as Hrm by (split; [by apply justified_site|by split]).
    apply run_bind_lift.
    { intros e Herr. destruct (ge_io _ _ _); [injection Herr as <-; by apply outcome_lost_unknown, Hrm|done]. }
    intros [] _. apply run_bind_lift.
    { intros e Herr. destruct (encode_tombstone _); [done|injection Herr as <-; by apply outcome_lost_unknown, Hrm]. }
    intros encoded He. apply map_err_Ok in He. apply run_bind.
    eapply run_weaken; [| |by eapply write_tombstone_spec].
    + intros h' Hj'. by right.
    + intros [[]|e] h' [Hj' Hend]; [|by right; right]. apply run_ret.
      destruct Hend as (Hg & Hn & Hr'). do 3 (split; [done|]). by exists encoded.
Qed.
End Cleanup.

(** ** Authorization *)

Section Authorize.
Context (h0 : holding) (Hinv : repo_inv (hd_site h0)) (env : keep_env) (seal : bytes) (auth : AuthorityEnvelope) (token : string).
Let s0 : site := hd_site h0.

(** What the holder of a permit knows: the receipt is one this seal signed, for the
    captured state, this target and this artifact, which was complete. *)
Record authorized (p : CleanupPermit) : Prop := {
  au_receipt : ∃ sealed, decode_receipt token = Ok sealed ∧
    seal_payload seal (sr_payload sealed) = Ok (sr_tag sealed) ∧
    rpl_schema_version (sr_payload sealed) = PRESERVATION_SCHEMA_VERSION ∧
    preservation_state_digest (cpm_state p) = Ok (rpl_state_digest (sr_payload sealed)) ∧
    rpl_artifact_digest (sr_payload sealed) = cpm_artifact_digest p ∧
    rpl_destination (sr_payload sealed) = cpm_destination p ∧
    rpl_destination_device (sr_payload sealed) = cpm_destination_device p ∧
    rpl_destination_inode (sr_payload sealed) = cpm_destination_inode p ∧
    rpl_cleanup_target (sr_payload sealed) = cpm_work_dir p;
  au_target : cpm_work_dir p = gs_work_dir (store_of (st_self s0));
  au_digest : cpm_receipt_digest p = digest_of (as_bytes token);
  au_captured : ∃ s, quiet s0 s ∧ captured s0 auth (cpm_state p) s;
  au_certified : ∃ g h, quiet s0 (hd_site h) ∧ loose h0 (cpm_destination p) (hd_artifacts h) (hd_runtime h) ∧
    certified (cpm_destination p) (cpm_state p) g h ∧ has_digest (cpm_destination p) (cpm_artifact_digest p) h
}.

(** Authorization changes nothing, but that opening the journal of an artifact
    without one creates its directory. *)
Definition looked (h : holding) : Prop :=
  quiet s0 (hd_site h) ∧ ((∃ destination, loose h0 destination (hd_artifacts h) (hd_runtime h))).

Lemma looked_loose destination h : both (quiet s0) (loose h0 destination) h → looked h.
Proof. intros [? ?]. split; [done|]. by exists destination. Qed.

Lemma looked_exact h : both (quiet s0) (exact h0) h → looked h.
Proof. intros Hh. apply (looked_loose ""). by apply exact_loose. Qed.

Lemma authorize_cleanup_spec :
  run_spec h0 (authorize_cleanup env seal auth token) looked (λ r h, looked h ∧
    ∀ p, r = Ok p → authorized p ∧ quiet s0 (hd_site h) ∧
                    loose h0 (cpm_destination p) (hd_artifacts h) (hd_runtime h)).
Proof.
  assert (both (quiet s0) (exact h0) h0) as Hh0 by (split; [by apply quiet_refl|done]).
  pose proof (looked_exact _ Hh0) as Hl0.
  apply run_bind_lift; [by split|]. intros sealed Hs. apply preserving_Ok in Hs. cbv zeta.
  apply run_bind_lift; [by split|]. intros tag Htag. apply preserving_Ok in Htag.
  apply run_bind_lift; [by split|]. intros [] Heq. apply fail_if_Ok in Heq. bools.
  apply constant_time_equal_spec, digest_eq in Heq. subst tag.
  apply run_bind. eapply run_weaken; [intros h; exact (looked_exact h)| |
    exact (on_site_keeps _ (exact h0) _ _ (preservation_state_spec s0 Hinv env auth) h0 Hh0)].
  intros [state|e] h1 [Hh1 Hst]; [|split; [by apply looked_exact|done]]. specialize (Hst state eq_refl).
  pose proof (looked_exact _ Hh1) as Hl1.
  apply run_bind_lift; [by split|]. intros matches Hm.
  apply run_bind_lift; [by split|]. intros [] Hmt. apply fail_if_Ok in Hmt. bools. subst matches.
  destruct (N.eqb_spec (rpl_schema_version (sr_payload sealed)) PRESERVATION_SCHEMA_VERSION) as [Hv|]; [|done].
  apply res_map_Ok in Hm as (d & Hd & Hdd). apply preserving_Ok in Hd. symmetry in Hdd.
  apply bool_decide_eq_true in Hdd. subst d.
  apply run_bind_read; [by split|]. intros ? [= <-].
  apply run_bind_lift; [by split|]. intros [] Ht. apply fail_if_Ok in Ht. bools.
  apply run_bind_read; [by split|]. intros identity _.
  apply run_bind_lift; [by split|]. intros [] Hid. apply preserving_Ok in Hid.
  unfold require_destination_identity in Hid. destruct (_ && _) eqn:Ei; [|done]. bools. destruct Ei as [[? ?] ?].
  apply run_bind. eapply run_weaken; [intros h; exact (looked_loose (rpl_destination (sr_payload sealed)) h)| |
    exact (require_artifact_spec h0 env _ state (quiet s0) _ _ _ h1 (quiet_steady _ Hinv) Hh1)].
  intros [[]|e] h2 [Hh2 Hart]; [|split; [by eapply looked_loose|done]]. destruct (Hart eq_refl) as (g & Hg & Ha).
  apply run_ret. split; [by eapply looked_loose|]. intros ? [= <-]. split; [|by split; apply Hh2].
  constructor; simpl; try done.
  - exists sealed. split_and!; try done; congruence.
  - f_equal. by apply quiet_store, Hh1.
  - exists (hd_site h1). by split; [apply Hh1|].
  - exists g, h2. by split_and!; try apply Hh2.
Qed.
End Authorize.

(** ** Deletion *)

(** A tree that a file system can hold. *)
Definition tree_ok (n : node) : Prop := named n ∧ tree_fits n.

Fixpoint named_b (n : node) : bool :=
  match n with
  | NDir _ es => bool_decide (NoDup es.*1)
      && forallb (λ row, negb (String.eqb (fst row) "") && negb (char_contains "/" (fst row)) && named_b (snd row)) es
  | _ => true
  end.

Lemma named_b_sound n : named_b n = true → named n.
Proof.
  induction n as [c m|m es IH|t|] using node_tree_ind; try by constructor. simpl.
  intros [Hnd Hall]%andb_true_iff. apply bool_decide_eq_true in Hnd. constructor; [done|].
  apply Forall_forall. intros row Hin. apply list_elem_of_In in Hin as Hin'.
  rewrite forallb_forall in Hall. specialize (Hall row Hin').
  apply andb_true_iff in Hall as [[He Hs]%andb_true_iff Hn]. rewrite Forall_forall in IH.
  apply negb_true_iff, String.eqb_neq in He. apply negb_true_iff in Hs. split_and!; auto.
Qed.

(** [tree_ok], decided. *)
Definition tree_ok_b (n : node) : bool :=
  named_b n && match leaf_of n with Some l => bool_decide (leaf_addressable l) | None => true end
  && bool_decide (Forall (λ row, addressable (as_bytes (path_text (fst row))) ∧ leaf_addressable (snd row))
                    (entries_below [] n)).

Lemma tree_ok_b_sound n : tree_ok_b n = true → tree_ok n.
Proof.
  intros [[Hn Hl]%andb_true_iff Hf]%andb_true_iff. apply named_b_sound in Hn.
  apply bool_decide_eq_true in Hf. split; [done|]. apply tree_fits_entries; [done| |done].
  destruct (leaf_of n); [by apply bool_decide_eq_true in Hl|done].
Qed.

Lemma journal_listed active g store w :
  opens w store → generations_of w !! gs_active_repo store = Some active →
  (∀ q, q ≠ [] → entry_at active q = entry_at g q) → is_Some (child (Some g) "journal").
Proof.
  intros Ho Ha He. pose proof (op_journal _ _ Ho) as Hj. rewrite Ha in Hj.
  specialize (He ["journal"] ltac:(done)). simpl in He, Hj.
  destruct active as [|m es| |]; try done. simpl in Hj.
  destruct (entry_of es "journal") as [[|m' es'| |]|] eqn:Ej; try done.
  destruct g as [|mg eg| |]; try done. simpl in *. by destruct (entry_of eg "journal").
Qed.

(** The generation in the artifact shows all of [active]: every entry of it but its
    own mode. *)
Definition shows (destination : string) (active g : node) (h : holding) : Prop :=
  artifact_child destination "generation" h = Some g ∧ ∀ q, q ≠ [] → entry_at active q = entry_at g q.

(** The work [w1] is covered: it opens the generation of the state; the artifact of
    [h] is certified for that state and has the digest; and, both being trees that a
    file system can hold, the generation in it shows all of the one of [w1], or the
    two are a collision of the hash. *)
Definition covered (destination : string) (state : PreservationState) (digest : Digest) (w1 : wspace)
    (h : holding) : Prop :=
  ∃ store active g, opens w1 store ∧ generations_of w1 !! gs_active_repo store = Some active ∧
    gm_generation (gs_active store) = ps_generation state ∧
    digest_of (artifact_bytes active) = ps_generation_digest state ∧
    certified destination state g h ∧ has_digest destination digest h ∧
    (tree_ok active → tree_ok g →
      shows destination active g h ∨ collides blake3_hash (artifact_bytes active) (artifact_bytes g)).

Lemma certified_covered destination state digest w1 store active g h :
  opens w1 store → generations_of w1 !! gs_active_repo store = Some active →
  gm_generation (gs_active store) = ps_generation state →
  digest_of (artifact_bytes active) = ps_generation_digest state →
  certified destination state g h → has_digest destination digest h →
  covered destination state digest w1 h.
Proof.
  intros Ho Hact Hg Hd Hcf Hart. exists store, active, g. split_and!; [done..|]. intros [Hn Hf] [Hn' Hf'].
  destruct Hcf as [Hgen Hgd _].
  assert (digest_of (artifact_bytes active) = digest_of (artifact_bytes g)) as Heq by congruence.
  destruct (artifact_digest_binds _ _ Hn Hn' Hf Hf' Heq) as [He|Hc]; [left|by right]. split; [|done].
  pose proof (journal_listed _ _ _ _ Ho Hact He) as [j Hj].
  destruct Hgen as [Hgen|[Hnone _]]; [done|congruence].
Qed.

(** The work [w1] is covered by the artifact of a permit. *)
Definition permit_covers (p : CleanupPermit) : wspace → holding → Prop :=
  covered (cpm_destination p) (cpm_state p) (cpm_artifact_digest p).

Lemma justified_covered h1 p h : justified h1 p h → permit_covers p (st_work (hd_site h1)) h.
Proof.
  intros [_ (store & active & g & [? ? ? ? ? ?])]. by eapply certified_covered.
Qed.

Section Deletion.
Context (h0 : holding) (Hinv : repo_inv (hd_site h0)).

(** What a reader of the disk finds at any point of a cleanup. *)
Definition kept_or_covered (seal : bytes) (auth : AuthorityEnvelope) (token : string) (h : holding) : Prop :=
  stays (st_work (hd_site h0)) (st_work (hd_site h)) ∧ hd_runtime h = hd_runtime h0 ∨
  ∃ p w1, authorized h0 seal auth token p ∧ stays (st_work (hd_site h0)) w1 ∧ permit_covers p w1 h.

Lemma looked_kept seal auth token h : looked h0 h → kept_or_covered seal auth token h.
Proof. intros [Hq [d [_ Hr]]]. left. split; [apply Hq|done]. Qed.

Lemma authority_cleanup_spec env env' seal auth token deleted_at :
  run_spec h0 (authority_cleanup env env' seal auth token deleted_at)
    (kept_or_covered seal auth token)
    (λ r h, match r with
       | Ok path =>
           st_work (hd_site h) = gone ∧
           ∃ p w1 encoded, authorized h0 seal auth token p ∧
             stays (st_work (hd_site h0)) w1 ∧ permit_covers p w1 h ∧
             encode_tombstone (tombstone_of (pc_manifest (rr_workspace (st_self (hd_site h0)))) p deleted_at) = Ok encoded ∧
             path = join (pc_runtime_dir (rr_workspace (st_self (hd_site h0)))) "tombstone.json" ∧
             hd_runtime h = <["tombstone.json" := NFile encoded PRIVATE_FILE_MODE]> (hd_runtime h0)
       | Err e =>
           stays (st_work (hd_site h0)) (st_work (hd_site h)) ∧ hd_runtime h = hd_runtime h0 ∨
           (∃ m, e = CapPreservation (PvOutcomeUnknown m)) ∧
           ∃ p w1, authorized h0 seal auth token p ∧ stays (st_work (hd_site h0)) w1 ∧ permit_covers p w1 h
       end).
Proof.
  apply run_bind. eapply (run_weaken _ _ (looked h0)); [intros h; apply looked_kept| |by apply authorize_cleanup_spec].
  intros [p|e] h1 [Hl Hp]; [|left; destruct Hl as [Hq [d [_ Hr]]]; by split; [apply Hq|]].
  destruct (Hp p eq_refl) as (Hau & Hq & _ & Hrt). clear Hp.
  pose proof (quiet_handle _ _ Hq) as (Hw & _). pose proof (qu_stays _ _ Hq) as Hst.
  eapply run_weaken; [| |by apply cleanup_spec].
  - intros h [[Hs [_ Hr]]|Hj].
    + left. split; [by eapply stays_trans|congruence].
    + right. exists p, (st_work (hd_site h1)). split_and!; [done..|]. by apply justified_covered.
  - intros [path|e] h Hend.
    + destruct Hend as (-> & Hg & Hj & encoded & He & Hn & Hr).
      rewrite Hw in *. unfold manifest in He. rewrite Hw in He. split; [done|].
      exists p, (st_work (hd_site h1)), encoded. split_and!; try done.
      * by apply justified_covered.
      * by rewrite Hr, Hrt.
    + destruct Hend as [->|[[Hs [_ Hr]]|[Hj Hu]]].
      * left. by split.
      * left. split; [by eapply stays_trans|congruence].
      * right. split; [done|]. exists p, (st_work (hd_site h1)). split_and!; [done..|]. by apply justified_covered.
Qed.
End Deletion.

(** A permit is spent in [h'] on the work of [h]: it names that workspace and covers
    its work. *)
Definition spent (p : CleanupPermit) (h h' : holding) : Prop :=
  permit_matches p (wm_attempt_id (manifest h)) (wm_nonce_hex (manifest h)) (work_dir h) = true ∧
  permit_covers p (st_work (hd_site h)) h'.

(** What a cleanup with this permit may do from [h], and how it may end. *)
Definition deletes (p : CleanupPermit) (deleted_at : string) (h : holding) (trace : list holding)
    (r : result string CapabilityError) : Prop :=
  let kept h' := stays (st_work (hd_site h)) (st_work (hd_site h')) ∧ hd_runtime h' = hd_runtime h in
  Forall (λ h', kept h' ∨ spent p h h') trace ∧
  let h' := left_in h trace in
  match r with
  | Ok path =>
      st_work (hd_site h') = gone ∧ spent p h h' ∧
      ∃ encoded, encode_tombstone (tombstone_of (manifest h) p deleted_at) = Ok encoded ∧
        path = join (pc_runtime_dir (rr_workspace (st_self (hd_site h)))) "tombstone.json" ∧
        hd_runtime h !! "tombstone.json" = None ∧
        hd_runtime h' = <["tombstone.json" := NFile encoded PRIVATE_FILE_MODE]> (hd_runtime h)
  | Err e => h' = h ∨ kept h' ∨ spent p h h' ∧ ∃ m, e = CapPreservation (PvOutcomeUnknown m)
  end.

Lemma justified_spent h p h' : justified h p h' → spent p h h'.
Proof. intros Hj. split; [apply Hj|by apply justified_covered]. Qed.

Lemma cleanup_deletes env p deleted_at h trace r :
  cleanup env p deleted_at h = (trace, r) → deletes p deleted_at h trace r.
Proof.
  intros E. destruct (run_of _ _ _ _ _ _ (cleanup_spec h env p deleted_at) E) as [Ht Hr]. split.
  - eapply Forall_impl; [exact Ht|]. intros h' [[Hs [_ Hrt]]|Hj]; [by left|right; by apply justified_spent].
  - destruct r as [path|e]; simpl in *.
    + destruct Hr as (-> & Hg & Hj & encoded & He & Hn & Hrt). split; [done|].
      split; [by apply justified_spent|]. by exists encoded.
    + destruct Hr as [Hr|[[Hs [_ Hrt]]|[Hj Hu]]]; [by left|by right; left|].
      right; right. split; [by apply justified_spent|done].
Qed.

(** ** Issue *)

Lemma keeps_to_step {S E} (J : S → Prop) (f : S → S) : (∀ s, J s → J (f s)) → keeps_to J (@step S E f) (λ _ _, True).
Proof. intros Hf s Hs. apply run_step; [by apply Hf|]. split; [by apply Hf|done]. Qed.

Section Issue.
Context (h0 : holding) (Hinv : repo_inv (hd_site h0)) (env : keep_env) (seal : bytes) (auth : AuthorityEnvelope) (destination : string).
Let s0 : site := hd_site h0.
Let J : holding → Prop := both (quiet s0) (λ _ runtime, runtime = hd_runtime h0).

(** A receipt tells the truth about the workspace and the artifact it was issued
    for: the state whose digest it seals is the captured one, and is covered. *)
Record issued (receipt : IssuedReceipt) (h : holding) : Prop := {
  is_sealed : ∃ state payload tag,
    captured s0 auth state (hd_site h) ∧
    covered (ir_destination receipt) state (ir_artifact_digest receipt) (st_work (hd_site h)) h ∧
    preservation_state_digest state = Ok (rpl_state_digest payload) ∧
    rpl_schema_version payload = PRESERVATION_SCHEMA_VERSION ∧
    rpl_artifact_digest payload = ir_artifact_digest receipt ∧
    rpl_destination payload = ir_destination receipt ∧
    (rpl_destination_device payload, rpl_destination_inode payload) = ke_identity env destination ∧
    rpl_cleanup_target payload = gs_work_dir (store_of (st_self s0)) ∧
    seal_payload seal payload = Ok tag ∧
    encode_receipt {| sr_payload := payload; sr_tag := tag |} = Ok (ir_token receipt);
  is_digest : ir_receipt_digest receipt = digest_of (as_bytes (ir_token receipt))
}.

Lemma keeps_artifact name n : keeps_to J (@step holding PreservationError (with_artifact name n)) (λ _ _, True).
Proof. by apply keeps_to_step. Qed.

Lemma put_artifact_keeps root name n h : J h → J (put_artifact_child root name n h).
Proof. unfold put_artifact_child. by destruct (artifact root h). Qed.

Lemma keeps_put_artifact {E} root name n : keeps_to J (@step holding E (put_artifact_child root name n)) (λ _ _, True).
Proof. apply keeps_to_step. intros h. apply put_artifact_keeps. Qed.

Lemma destination_identity_Ok path n i :
  destination_identity env path n = Ok i → (di_device i, di_inode i) = ke_identity env path.
Proof. unfold destination_identity. intros Hi. res_inv. symmetry. apply surjective_pairing. Qed.

Lemma create_destination_keeps requested forbidden :
  keeps_to J (create_external_destination env requested forbidden)
    (λ i _, (di_device i, di_inode i) = ke_identity env requested).
Proof.
  unfold create_external_destination.
  repeat (apply keeps_to_then; [first [by apply keeps_to_lift|by apply keeps_to_read|apply keeps_artifact]|intros ?]).
  apply keeps_to_read. intros i h _. apply destination_identity_Ok.
Qed.

Lemma copy_tree_keeps source root name n : keeps_to J (copy_artifact_tree env source root name n) (λ _ _, True).
Proof.
  intros h Hh. unfold run_spec, copy_artifact_tree. destruct (copy_tree _ _ _) as [[c|] r]; simpl.
  - split; [constructor; [by apply put_artifact_keeps|constructor]|]. split; [|done]. by apply put_artifact_keeps.
  - by split; [constructor|].
Qed.

Lemma copy_file_keeps source root name n : keeps_to J (copy_artifact_file env source root name n) (λ _ _, True).
Proof.
  unfold copy_artifact_file.
  repeat first [ by apply keeps_to_lift
               | apply keeps_to_then; [first [by apply keeps_to_lift|by apply keeps_to_read|apply keeps_put_artifact]|intros ?] ].
  apply keeps_to_then; [|intros _; by apply keeps_to_lift].
  destruct (ge_io _ _ _); [|apply keeps_put_artifact].
  apply keeps_to_then; [apply keeps_put_artifact|intros _; by apply keeps_to_lift].
Qed.

Lemma write_subject_keeps root subject : keeps_to J (write_subject env root subject) (λ _ _, True).
Proof.
  unfold write_subject. cbv zeta. apply keeps_to_then; [by apply keeps_to_lift|]. intros _.
  apply keeps_to_then; [apply keeps_put_artifact|]. intros _. destruct (ge_io _ _ _); [|apply keeps_put_artifact].
  apply keeps_to_then; [apply keeps_put_artifact|intros _; by apply keeps_to_lift].
Qed.

Lemma create_bundle_keeps root : keeps_to J (create_and_verify_bundle env root) (λ _ _, True).
Proof.
  apply keeps_to_then; [by apply keeps_to_read|]. intros present.
  apply keeps_to_then; [|intros _; by apply verify_bundle_keeps, quiet_steady].
  destruct present; [by apply keeps_to_ret|].
  apply keeps_to_then; [apply workspace_git_keeps; [by apply quiet_steady|by repeat constructor]|].
  intros _. destruct (ke_bundle env); [apply keeps_put_artifact|by apply keeps_to_ret].
Qed.

Lemma issue_spec :
  keeps_to J (issue env seal auth destination) issued.
Proof.
  assert (∀ A (m : script site CapabilityError A) P, keeps_to (quiet s0) m P →
    keeps_to J (on_site m) (λ a h, P a (hd_site h))) as Hsite by (intros; by apply on_site_keeps).
  refine (keeps_to_bind J _ _ _ _ (Hsite _ _ _ (preservation_state_spec s0 Hinv env auth)) _).
  intros before h1 Hh1 Hc1. clear Hc1.
  apply run_bind_read; [by split|]. intros ? [= <-]. cbv zeta.
  set (work := gs_work_dir _). set (runtime := pc_runtime_dir _).
  assert (work = gs_work_dir (store_of (st_self s0))) as Hwork by (unfold work; f_equal; by apply quiet_store, Hh1).
  clearbody work runtime. set (source := active_dir _). clearbody source. revert h1 Hh1.
  refine (keeps_to_bind J _ _ _ _ (keeps_to_map_err _ _ _ _ (create_destination_keeps destination _)) _).
  intros identity h1 Hh1 Hid. revert h1 Hh1.
  apply keeps_to_then; [by apply keeps_to_lift|]. intros subject.
  apply keeps_to_then; [apply keeps_to_map_err, write_subject_keeps|]. intros _.
  apply keeps_to_then; [apply keeps_to_map_err, copy_tree_keeps|]. intros _.
  apply keeps_to_then; [apply keeps_to_map_err, copy_tree_keeps|]. intros _.
  apply keeps_to_then; [apply keeps_to_map_err, copy_file_keeps|]. intros _.
  apply keeps_to_then; [apply create_bundle_keeps|]. intros _.
  apply keeps_to_then; [by apply keeps_to_read|]. intros _.
  apply keeps_to_then; [by apply keeps_to_read|]. intros _ h1 Hh1.
  apply run_bind. assert (∀ h, both (quiet s0) (loose h1 (di_canonical identity)) h → J h) as Hloose.
  { intros h [Hq [_ Hr]]. split; [done|]. rewrite Hr. apply Hh1. }
  eapply run_weaken; [exact Hloose| |apply (verify_salvage_spec h1 env _ before (quiet s0)); split; [apply Hh1|done]].
  intros [[]|e] h2 [Hh2 Hg]; [|by split; [apply Hloose|]]. destruct (Hg eq_refl) as [g Hcf]. clear Hg.
  pose proof (Hloose _ Hh2) as HJ2. apply run_bind_read; [by split|]. intros digest Hd.
  apply preserving_Ok, hash_artifact_Ok in Hd as (t & Ht & ->).
  apply run_bind. assert (∀ h, both (quiet s0) (exact h2) h → J h) as Hexact.
  { intros h Hh. eapply Hloose, exact_of_loose; [exact Hh2|exact Hh]. }
  assert (both (quiet s0) (exact h2) h2) as He2 by (by split; [apply Hh2|]).
  eapply run_weaken; [exact Hexact| |exact (on_site_keeps _ (exact h2) _ _
    (preservation_state_spec s0 Hinv env auth) h2 He2)].
  intros [after|e] h3 [Hh3 Hc]; [|by split; [apply Hexact|]]. specialize (Hc after eq_refl).
  pose proof (Hexact _ Hh3) as HJ3.
  apply run_bind_lift; [by split|]. intros [] Heq. apply fail_if_Ok in Heq. bools. subst after.
  apply run_bind_lift; [by split|]. intros state_digest Hsd. apply preserving_Ok in Hsd.
  apply run_bind_lift; [by split|]. intros tag Htag. apply preserving_Ok in Htag.
  apply run_bind_lift; [by split|]. intros encoded He. apply preserving_Ok in He.
  apply run_ret. split; [done|]. intros ? [= <-]. constructor; [|done].
  eexists before, _, tag.
  split_and!; [exact Hc|shelve..|exact Htag|exact He]. Unshelve. all: try done; try exact Hsd.
  destruct (ct_digest _ _ _ _ Hc) as (active & Hact & Hdig). simpl.
  eapply (certified_covered _ _ _ _ _ active g h3); [|exact Hact| |exact Hdig| |].
  - rewrite <- (quiet_store _ _ (proj1 Hh3)). apply (quiet_inv _ _ Hinv (proj1 Hh3)).
  - symmetry. apply Hc.
  - eapply certified_same, Hcf. apply Hh3.
  - exists t. split; [|done]. rewrite (artifact_same _ h2 h3); [done|apply Hh3].
Qed.
End Issue.

(** ** Properties *)

(** C5: a workspace is only deleted against a verified salvage.  A permit that is
    authorized carries the seal's own signature over the digest of the captured state
    of this workspace, over its target and over an artifact that was certified.
    Whatever happens to the disk between the authorization and the cleanup, every
    state the cleanup exposes either still serves all the work that was there and its
    runtime files, or the permit names this workspace and the work, as it was when the
    cleanup started, is covered by the artifact as it is in that very state: the
    artifact has the sealed digest, its generation the digest of the work's, its
    journal is the sealed one and all its objects are in the artifact's content store;
    and that generation shows every entry, permission bit and byte of the deleted one,
    unless the two trees collide in BLAKE3.  Success means that the work is gone and
    the tombstone names the receipt; a failure leaves the work untouched or says that
    the outcome is unknown.  The one call that does both, [authority_cleanup], is the
    case with nothing in between. *)
Theorem cleanup_deletes_only_salvaged h0 env env' seal auth token deleted_at :
  repo_inv (hd_site h0) →
  (∀ states p, authorize_cleanup env seal auth token h0 = (states, Ok p) →
     authorized h0 seal auth token p ∧
     ∀ h trace r, cleanup env' p deleted_at h = (trace, r) → deletes p deleted_at h trace r) ∧
  (∀ trace r, authority_cleanup env env' seal auth token deleted_at h0 = (trace, r) →
     Forall (kept_or_covered h0 seal auth token) trace ∧
     match r with
     | Ok path =>
         st_work (hd_site (left_in h0 trace)) = gone ∧
         ∃ p w1 encoded, authorized h0 seal auth token p ∧
           stays (st_work (hd_site h0)) w1 ∧ permit_covers p w1 (left_in h0 trace) ∧
           encode_tombstone (tombstone_of (pc_manifest (rr_workspace (st_self (hd_site h0)))) p deleted_at) = Ok encoded ∧
           path = join (pc_runtime_dir (rr_workspace (st_self (hd_site h0)))) "tombstone.json" ∧
           hd_runtime (left_in h0 trace) = <["tombstone.json" := NFile encoded PRIVATE_FILE_MODE]> (hd_runtime h0)
     | Err e =>
         stays (st_work (hd_site h0)) (st_work (hd_site (left_in h0 trace))) ∧
           hd_runtime (left_in h0 trace) = hd_runtime h0 ∨
         (∃ m, e = CapPreservation (PvOutcomeUnknown m)) ∧
         ∃ p w1, authorized h0 seal auth token p ∧ stays (st_work (hd_site h0)) w1 ∧
           permit_covers p w1 (left_in h0 trace)
     end).
Proof.
  intros Hinv. split.
  - intros states p E. split; [|intros h trace r; by apply cleanup_deletes].
    destruct (run_of _ _ _ _ _ _ (authorize_cleanup_spec h0 Hinv env seal auth token) E) as [_ [_ Hp]].
    by destruct (Hp p eq_refl).
  - intros trace r E. exact (run_of _ _ _ _ _ _ (authority_cleanup_spec h0 Hinv env env' seal auth token deleted_at) E).
Qed.

(** C14: a receipt is only issued for an artifact that holds the workspace.  Issuing
    never touches the work or the runtime files, whatever state it is stopped in.  A
    receipt it returns is signed by the seal; the state whose digest it seals is the
    captured state of the workspace when it returns; it binds the target, the
    destination with its device and inode and the digest the artifact has; and the
    artifact covers the work: its generation has the digest of the active one and
    shows every entry of it, unless the two trees collide in BLAKE3, its journal is
    the one of that state and resolves in the artifact's own content store. *)
Theorem issue_receipt_covers h0 env seal auth destination trace r :
  repo_inv (hd_site h0) → issue env seal auth destination h0 = (trace, r) →
  Forall (λ h, stays (st_work (hd_site h0)) (st_work (hd_site h)) ∧ hd_runtime h = hd_runtime h0) trace ∧
  ∀ receipt, r = Ok receipt → issued h0 env seal auth destination receipt (left_in h0 trace).
Proof.
  intros Hinv E. destruct (run_of _ _ _ _ _ _ (issue_spec h0 Hinv env seal auth destination h0
    (conj (quiet_refl _ Hinv) eq_refl)) E) as [Ht [_ Hr]]. split; [|exact Hr]. eapply Forall_impl; [exact Ht|]. intros h [Hq Hrt].
  split; [apply Hq|exact Hrt].
Qed.
End Salvage.

(** ** A concrete deletion: a receipt is issued after a proposal was applied, and
    spent on the cleanup. *)

Module SalvageReference.
Import Reference ScopeReference CandidateReference CasReference ApplyReference WriterReference.

(** A Git that leaves the repository alone and reports one modified file. *)
#[export] Instance still_git : GitBinary := {|
  binary_command := Ok tt;
  binary_execute c verb t :=
    (Ok {| bo_code := Some 0%Z;
           bo_stdout := if String.eqb (default "" (last (gc_args c))) "--no-renames"
                        then as_bytes " M src/value" ++ [x00]
                        else as_bytes (reply_to verb (default "" (last (gc_args c)))); bo_stderr := [] |}, t);
  binary_output _ _ := Ok {| bo_code := Some 0%Z; bo_stdout := []; bo_stderr := [] |} |}.
#[export] Instance still_git_laws : GitLaws.
Proof. intros c verb t _. done. Qed.

#[export] Instance keyed : KeyedBlake3 := λ key b, blake3_hash (key ++ b).
#[export] Instance owner_token : TokenDecoder := λ b,
  if bool_decide (b = as_bytes "token")
  then Ok {| wt_variant_id := as_str variant_id; wt_attempt_id := "attempt";
             wt_attempt_fence := 3; wt_workspace_nonce := [xab; xab] |}
  else Err "unknown token".
Definition owner : ExpectedAuthority :=
  {| ea_attempt_id := "attempt"; ea_attempt_fence := 3; ea_workspace_nonce := [xab; xab] |}.
Definition owned (r : RealRepository) : RealRepository := {|
  rr_workspace := rr_workspace r; rr_grant := rr_grant r; rr_expected := owner; rr_identity := rr_identity r;
  rr_journal := rr_journal r; rr_cas := rr_cas r; rr_checkpoint_count := rr_checkpoint_count r;
  rr_healthy := rr_healthy r; rr_lineage := rr_lineage r |}.

Definition site1 : site := left_in site0 (fst applied).
Definition holding1 : holding := {|
  hd_site := on_self owned site1; hd_artifacts := ∅;
  hd_runtime := {[ "manifest.json" := NFile [x7b; x7d] PRIVATE_FILE_MODE ]} |}.

Definition keep : keep_env := {|
  ke_repo := calm_repo; ke_fs := calm_gen; ke_canonicalize p := Ok p; ke_identity _ := (1, 2);
  ke_bundle := Some (NFile [x01] 420); ke_cas_root := Ok "/keep/a/cas"; ke_cas_scan := calm_scan;
  ke_get _ := (None, calm_io); ke_removal _ := ([], None); ke_random := Ok [] |}.
Definition seal : bytes := repeat x07 32.

Definition captured1 : result PreservationState CapabilityError := snd (preservation_state keep envelope (hd_site holding1)).

Definition state1 : option PreservationState := res_ok captured1.

(** A codec of this state and of sealed receipts over one payload. *)
Definition codec (payload : option ReceiptPayload) : ReceiptCodec := {|
  encode_state s := if decide (state1 = Some s) then Ok [x7b; x7d] else Err "unsupported";
  decode_state b := if decide (b = [x7b; x7d]) then ok_or state1 "invalid" else Err "invalid";
  encode_payload p := Ok (digest_bytes (rpl_artifact_digest p) ++ as_bytes (rpl_destination p));
  encode_sealed s := Ok (digest_bytes (sr_tag s));
  decode_sealed b :=
    let? p := ok_or payload "invalid" in
    let? d := ok_or (digest_from_bytes b) "invalid" in
    Ok {| sr_payload := p; sr_tag := d |};
  encode_tombstone t := Ok (as_bytes (tb_deleted_at t)) |}.

Definition token_of (r : result IssuedReceipt CapabilityError) : string :=
  match r with Ok receipt => ir_token receipt | Err _ => "" end.

Section Issued.
#[local] Instance no_payload : ReceiptCodec := codec None.
Definition issued1 : list holding * result IssuedReceipt CapabilityError :=
  issue keep seal envelope "/keep/a" holding1.
Definition token1 : string := token_of (snd issued1).
Definition holding2 : holding := left_in holding1 (fst issued1).
Definition payload_of (state_digest : Digest) (receipt : IssuedReceipt) : ReceiptPayload := {|
  rpl_schema_version := PRESERVATION_SCHEMA_VERSION; rpl_state_digest := state_digest;
  rpl_artifact_digest := ir_artifact_digest receipt; rpl_destination := "/keep/a";
  rpl_destination_device := 1; rpl_destination_inode := 2; rpl_cleanup_target := "/work" |}.
Definition state_digest1 : option Digest :=
  state1 ≫= λ state, res_ok (preservation_state_digest state).
Definition payload1 : option ReceiptPayload := d ← state_digest1; payload_of d <$> res_ok (snd issued1).

Lemma owned_inv s : repo_inv s → repo_inv (on_self owned s).
Proof. by intros []. Qed.

Lemma salvage_inv1 : repo_inv (hd_site holding1).
Proof. apply owned_inv, applied_inv. Qed.

Lemma issued1_eq : issue keep seal envelope "/keep/a" holding1 = (fst issued1, snd issued1).
Proof. unfold issued1. apply surjective_pairing. Qed.

Lemma issued1_ok : ∃ receipt, snd issued1 = Ok receipt.
Proof.
  assert (match snd issued1 with Ok _ => true | Err _ => false end = true) as Hr by (vm_compute; reflexivity).
  destruct (snd issued1) as [receipt|]; [by exists receipt|done].
Qed.

Lemma inv2 : repo_inv (hd_site holding2).
Proof.
  pose proof (run_of _ _ _ _ _ _ (issue_spec holding1 salvage_inv1 keep seal envelope "/keep/a" holding1
    (conj (quiet_refl _ salvage_inv1) eq_refl)) issued1_eq) as [_ [[Hq _] _]].
  exact (quiet_inv _ _ salvage_inv1 Hq).
Qed.

Definition active2 : node := default NSpecial (generation_node (hd_site holding2)).
Definition copy2 : node := default NSpecial (artifact_child "/keep/a" "generation" holding2).

Lemma copy2_stored : artifact_child "/keep/a" "generation" holding2 = Some copy2.
Proof. vm_compute. reflexivity. Qed.
Lemma copy2_dir : is_dir (Some copy2) = true.
Proof. vm_compute. reflexivity. Qed.
Lemma copy2_journal : bool_decide (listing (child (Some copy2) "journal") = []) = false.
Proof. vm_compute. reflexivity. Qed.

(** This work, covered by this artifact, is shown by it. *)
Lemma reference_shown state digest w h :
  w = st_work (hd_site holding2) → hd_artifacts h = hd_artifacts holding2 →
  covered "/keep/a" state digest w h → ps_generation state = 1 →
  shows "/keep/a" active2 copy2 h ∨ collides blake3_hash (artifact_bytes active2) (artifact_bytes copy2).
Proof.
  intros -> Ha (store & active & g & Ho & Hact & Hg & _ & [Hgen _ _] & _ & Hshow) Hs.
  unfold holds_generation in Hgen.
  rewrite (artifact_child_same "/keep/a" "generation" holding2 h Ha), copy2_stored in Hgen.
  pose proof (op_name _ _ Ho) as Hn. rewrite Hg, Hs in Hn. rewrite Hn in Hact.
  assert (active = active2) as ->.
  { apply (inj Some). rewrite <- Hact. vm_compute. reflexivity. }
  assert (g = copy2) as ->.
  { destruct Hgen as [Hgen|[_ Hgen]]; apply (inj Some) in Hgen; [exact (eq_sym Hgen)|exfalso].
    assert (is_dir (Some g) = true) as Hd.
    { pose proof (is_dir_put_child g "journal" (NDir DIR_MODE [])) as Hp. fold (empty_journal g) in Hp.
      rewrite <- Hp, <- Hgen. exact copy2_dir. }
    pose proof copy2_journal as Hj. rewrite Hgen in Hj. unfold empty_journal in Hj.
    rewrite child_put_child in Hj by done. discriminate Hj. }
  apply Hshow; apply tree_ok_b_sound; vm_compute; reflexivity.
Qed.

Example issue_receipt_covers_witness :
  ∃ receipt, snd issued1 = Ok receipt ∧ issued holding1 keep seal envelope "/keep/a" receipt holding2 ∧
    (shows "/keep/a" active2 copy2 holding2 ∨ collides blake3_hash (artifact_bytes active2) (artifact_bytes copy2)).
Proof.
  destruct issued1_ok as [receipt Hr]. exists receipt. split; [exact Hr|].
  pose proof (proj2 (issue_receipt_covers holding1 keep seal envelope "/keep/a" (fst issued1) (snd issued1)
    salvage_inv1 issued1_eq) receipt Hr) as Hi.
  split; [exact Hi|]. destruct Hi as [(state & payload & tag & Hc & Hcov & _) _].
  assert (ir_destination receipt = "/keep/a") as Hd.
  { assert (match snd issued1 with Ok i => ir_destination i | Err _ => "" end = "/keep/a") as He
      by (vm_compute; reflexivity). rewrite Hr in He. exact He. }
  rewrite Hd in Hcov. apply (reference_shown _ _ _ _ eq_refl eq_refl Hcov). rewrite (ct_generation _ _ _ _ Hc). vm_compute. reflexivity.
Defined.
End Issued.

#[export] Instance codec1 : ReceiptCodec := codec payload1.
Definition authorized2 := authorize_cleanup keep seal envelope token1 holding2.
Definition holding3 : holding := left_in holding2 (fst authorized2).
Definition deleted3 (p : CleanupPermit) := cleanup keep p "today" holding3.

Lemma permit_found {S A B E} (run : list S * result A E) (f : A → B) y :
  f <$> res_ok (snd run) = Some y → ∃ a, run = (fst run, Ok a) ∧ f a = y.
Proof. destruct run as [states [a|e]]; simpl; [|done]. intros [= <-]. by exists a. Qed.

Definition facts3 (p : CleanupPermit) :=
  (snd (deleted3 p), cpm_destination p, ps_generation (cpm_state p),
   hd_artifacts (left_in holding3 (fst (deleted3 p)))).
Lemma facts3_eq :
  facts3 <$> res_ok (snd authorized2) = Some (Ok "/run/tombstone.json", "/keep/a", 1, hd_artifacts holding2).
Proof. vm_compute. reflexivity. Qed.

Lemma work3 : st_work (hd_site holding3) = st_work (hd_site holding2).
Proof. vm_compute. reflexivity. Qed.

Example cleanup_deletes_only_salvaged_witness : ∃ p,
  let h' := left_in holding3 (fst (deleted3 p)) in
  authorized holding2 seal envelope token1 p ∧ st_work (hd_site h') = gone ∧
  (shows "/keep/a" active2 copy2 h' ∨ collides blake3_hash (artifact_bytes active2) (artifact_bytes copy2)).
Proof.
  destruct (permit_found _ _ _ facts3_eq) as (p & E & Hf). exists p.
  apply pair_eq in Hf as [Hf Ha]. apply pair_eq in Hf as [Hf Hg].
  apply pair_eq in Hf as [Hr Hd].
  unfold authorized2 at 1 in E.
  pose proof (cleanup_deletes_only_salvaged holding2 keep keep seal envelope token1 "today" inv2) as [Hdel _].
  destruct (Hdel (fst authorized2) p E) as [Hau Hrun]. clear Hdel.
  specialize (Hrun holding3 (fst (deleted3 p)) (snd (deleted3 p)) (surjective_pairing _)).
  destruct Hrun as [_ Hend]. rewrite Hr in Hend. destruct Hend as (Hgone & [_ Hcov] & _).
  split; [exact Hau|]. split; [exact Hgone|]. unfold permit_covers in Hcov. rewrite Hd in Hcov.
  exact (reference_shown _ _ _ _ work3 Ha Hcov Hg).
Defined.

End SalvageReference.
