(* ===== verification/MemoryRepo.v ===== *)
(** [crates/bullet-gitd/src/lib.rs]: [MemoryRepository], the in-process repository
    behind the capability interface.  A method takes the repository and returns
    its result with the repository it leaves.  [serde_json] of a scope, only ever
    the text of a refusal, is the class [ScopeText]. *)

From S2P Require Import Prelude Digests Ids Proposal Candidate ProofRoots Lineage Journal Capability Scope.

Record MemoryRepository : Type := {
  mr_files : list (string * bytes);
  mr_journal : Journal;
  mr_expected : ExpectedAuthority;
  mr_grant : ScopeGrant;
  mr_base : GitOid;
  mr_is_worktree : bool;
  mr_lineage : LineageGraph
}.

Definition with_content (r : MemoryRepository) (files : list (string * bytes)) (journal : Journal)
    : MemoryRepository :=
  {| mr_files := files; mr_journal := journal; mr_expected := mr_expected r; mr_grant := mr_grant r;
     mr_base := mr_base r; mr_is_worktree := mr_is_worktree r; mr_lineage := mr_lineage r |}.

Definition with_lineage (r : MemoryRepository) (g : LineageGraph) : MemoryRepository :=
  {| mr_files := mr_files r; mr_journal := mr_journal r; mr_expected := mr_expected r;
     mr_grant := mr_grant r; mr_base := mr_base r; mr_is_worktree := mr_is_worktree r;
     mr_lineage := g |}.

(** ** Files: [find], [find] with replacement, [position] with removal *)

Fixpoint find_file (files : list (string * bytes)) (path : string) : option bytes :=
  match files with
  | [] => None
  | (p, b) :: files => if String.eqb p path then Some b else find_file files path
  end.

(** The write arm: replace the entry found, or push. *)
Fixpoint write_file (files : list (string * bytes)) (path : string) (contents : bytes)
    : list (string * bytes) :=
  match files with
  | [] => [(path, contents)]
  | (p, b) :: files =>
      if String.eqb p path then (p, contents) :: files else (p, b) :: write_file files path contents
  end.

(** The delete arm: the entry removed, if any. *)
Fixpoint remove_file (files : list (string * bytes)) (path : string)
    : option (bytes * list (string * bytes)) :=
  match files with
  | [] => None
  | (p, b) :: files =>
      if String.eqb p path then Some (b, files)
      else option_map (λ '(before, files), (before, (p, b) :: files)) (remove_file files path)
  end.

(** [files.iter().any(|(p, _)| p == path)] *)
Definition file_exists (files : list (string * bytes)) (path : string) : bool :=
  existsb (λ f, String.eqb (fst f) path) files.

Section Memory.
Context `{Blake3, HexCrate, Unicode, CharCase, TokenDecoder, ScopeText,
          !Jcs CandidateManifest, !Jcs CandidateContentManifest}.

(** [synth_oid]; the [expect] cannot fail, see [synth_oid_never_panics]. *)
Definition synth_oid (fields : list bytes) : GitOid :=
  let hex := to_hex (framed_digest fields) in
  match oid_from_hex Sha256 hex with Ok o => o | Err _ => MkGitOid hex end.

(** [MemoryRepository::new], [MemoryRepository::worktree] *)
Definition memory_new (expected : ExpectedAuthority) (grant : ScopeGrant) : MemoryRepository :=
  {| mr_files := []; mr_journal := []; mr_expected := expected; mr_grant := grant;
     mr_base := synth_oid [as_bytes "memory.base"]; mr_is_worktree := false; mr_lineage := [] |}.

Definition memory_worktree (expected : ExpectedAuthority) (grant : ScopeGrant) : MemoryRepository :=
  {| mr_files := []; mr_journal := []; mr_expected := expected; mr_grant := grant;
     mr_base := synth_oid [as_bytes "memory.base"]; mr_is_worktree := true; mr_lineage := [] |}.

(** [MemoryRepository::evolve]; an [Err] is the panic of its [expect]. *)
Definition evolve (from : Candidate) (kind : EvolutionKind) (seed : string)
    : result (Candidate * EvolutionEdge) CandidateManifestError :=
  let tree := synth_oid [as_bytes "memory.tree"; as_bytes seed] in
  let head := synth_oid [as_bytes "memory.head"; as_bytes seed; as_bytes (oid_str tree)] in
  let m := cand_manifest from in
  let manifest := {|
    cm_schema_version := cm_schema_version m; cm_repository_id := cm_repository_id m;
    cm_change_id := cm_change_id m; cm_producing_attempt_id := cm_producing_attempt_id m;
    cm_attempt_fence := cm_attempt_fence m; cm_work_package_id := cm_work_package_id m;
    cm_variant_id := cm_variant_id m; cm_plan_revision_id := cm_plan_revision_id m;
    cm_graph_revision_id := cm_graph_revision_id m;
    cm_base_checkpoint_id := cm_base_checkpoint_id m; cm_base_commit := cm_base_commit m;
    cm_head_commit := head; cm_tree_oid := tree; cm_patch_digest := digest_of (as_bytes seed);
    cm_parent_candidate_ids := [cand_id from]; cm_granted_scope := cm_granted_scope m;
    cm_actual_scope := cm_actual_scope m; cm_context_capsule_id := cm_context_capsule_id m;
    cm_configuration_snapshot_id := cm_configuration_snapshot_id m;
    cm_policy_snapshot_id := cm_policy_snapshot_id m;
    cm_routing_snapshot_id := cm_routing_snapshot_id m;
    cm_environment_digest := cm_environment_digest m;
    cm_toolchain_digest := cm_toolchain_digest m |} in
  let? next := from_manifest manifest (cand_prepared_at from) in
  Ok (next, {| edge_from := cand_id from; edge_to := cand_id next; edge_kind := kind |}).

(** ** Reading *)

Definition read_tree (r : MemoryRepository) (auth : AuthorityEnvelope)
    : result (list string) CapabilityError :=
  let? _token := require (mr_expected r) auth in
  Ok (map fst (mr_files r)).

Definition memory_checkpoint (r : MemoryRepository) (auth : AuthorityEnvelope)
    : result Checkpoint CapabilityError :=
  let? _token := require (mr_expected r) auth in
  Ok (checkpoint (mr_journal r)).

(** ** [apply_change] *)

(** The loop body: one admitted patch, at its normalized path. *)
Definition apply_patch (st : list (string * bytes) * Journal) (row : PatchHunk * string)
    : list (string * bytes) * Journal :=
  let '(files, journal) := st in
  let '(patch, path) := row in
  match hunk_op patch with
  | OpWrite contents =>
      (write_file files path contents, journal_record journal path contents)
  | OpDelete =>
      match remove_file files path with
      | Some (before, files) => (files, journal_record_delete journal path before)
      | None => (files, journal)
      end
  end.

Definition apply_patches (st : list (string * bytes) * Journal) (patches : list PatchHunk)
    (normalized : list string) : list (string * bytes) * Journal :=
  foldl apply_patch st (zip patches normalized).

Definition apply_change (r : MemoryRepository) (auth : AuthorityEnvelope) (patches : list PatchHunk)
    : result unit CapabilityError * MemoryRepository :=
  match (let? _token := require (mr_expected r) auth in
         fail_if (mr_is_worktree r) (CapWorktreeForbidden "memory") ;?
         validate_batch (mr_grant r) patches (file_exists (mr_files r))) with
  | Err e => (Err e, r)
  | Ok normalized =>
      let '(files, journal) := apply_patches (mr_files r, mr_journal r) patches normalized in
      (Ok tt, with_content r files journal)
  end.

(** ** Proposals *)

(** The patches of a proposal. *)
Definition proposal_patches (p : PatchProposal) : list PatchHunk :=
  map (λ op, match op_mutation op with
             | MutWrite content => hunk_write (path_str (op_path op)) (as_bytes content)
             | MutDelete => hunk_delete (path_str (op_path op))
             end) (pp_operations p).

(** The preimage test of one operation. *)
Definition preimage_matches (preimage : Preimage) (current : option bytes) : bool :=
  match preimage, current with
  | PreAbsent, None => true
  | PreDigest digest, Some b => bool_decide (digest_of b = digest)
  | _, _ => false
  end.

Definition check_preimage (files : list (string * bytes)) (row : PatchOperation * string)
    : result unit CapabilityError :=
  let '(operation, path) := row in
  fail_if (negb (preimage_matches (op_preimage operation) (find_file files path)))
    (CapStalePreimage path).

(** [MemoryRepository::validate_proposal] *)
Definition memory_validate_proposal (r : MemoryRepository) (auth : AuthorityEnvelope)
    (p : PatchProposal) : result unit CapabilityError :=
  let? _token := require (mr_expected r) auth in
  fail_if (mr_is_worktree r) (CapWorktreeForbidden "memory") ;?
  map_err CapProposal (validate_proposal p) ;?
  fail_if (negb (String.eqb (as_str (pp_producing_attempt_id p)) (ea_attempt_id (mr_expected r))))
    (CapProposalAttemptMismatch (ea_attempt_id (mr_expected r))
       (as_str (pp_producing_attempt_id p))) ;?
  let active := checkpoint (mr_journal r) in
  fail_if (negb (bool_decide (pp_base_checkpoint_id p = ckp_id active))
           || negb (bool_decide (pp_base_checkpoint_digest p = ckp_digest active)))
    (CapStaleCheckpoint ("expected " +:+ as_str (ckp_id active) +:+ ":" +:+ to_hex (ckp_digest active)
       +:+ ", found " +:+ as_str (pp_base_checkpoint_id p) +:+ ":"
       +:+ to_hex (pp_base_checkpoint_digest p))) ;?
  let? normalized := validate_batch (mr_grant r) (proposal_patches p) (file_exists (mr_files r)) in
  try_for (check_preimage (mr_files r)) (zip (pp_operations p) normalized).

(** [MemoryRepository::apply_proposal] *)
Definition apply_proposal (r : MemoryRepository) (auth : AuthorityEnvelope) (p : PatchProposal)
    : result Checkpoint CapabilityError * MemoryRepository :=
  match (let? _token := require (mr_expected r) auth in
         fail_if (mr_is_worktree r) (CapWorktreeForbidden "memory") ;?
         map_err CapProposal (validate_proposal p) ;?
         fail_if (negb (String.eqb (as_str (pp_producing_attempt_id p))
                          (ea_attempt_id (mr_expected r))))
           (CapProposalAttemptMismatch (ea_attempt_id (mr_expected r))
              (as_str (pp_producing_attempt_id p))) ;?
         let active := checkpoint (mr_journal r) in
         fail_if (negb (bool_decide (pp_base_checkpoint_id p = ckp_id active))
                  || negb (bool_decide (pp_base_checkpoint_digest p = ckp_digest active)))
           (CapStaleCheckpoint ("expected " +:+ as_str (ckp_id active) +:+ ":"
              +:+ to_hex (ckp_digest active) +:+ ", found " +:+ as_str (pp_base_checkpoint_id p)
              +:+ ":" +:+ to_hex (pp_base_checkpoint_digest p))) ;?
         let? normalized :=
           validate_batch (mr_grant r) (proposal_patches p) (file_exists (mr_files r)) in
         try_for (check_preimage (mr_files r)) (zip (pp_operations p) normalized)) with
  | Err e => (Err e, r)
  | Ok _ =>
      let '(applied, r) := apply_change r auth (proposal_patches p) in
      match applied with
      | Err e => (Err e, r)
      | Ok _ => (Ok (checkpoint (mr_journal r)), r)
      end
  end.

(** ** Candidates *)

Definition require_memory_candidate_field (field expected found : string)
    : result unit CapabilityError :=
  if String.eqb expected found then Ok tt else Err (CapCandidateSubjectMismatch field expected found).

Definition parse_paths (paths : list string) : result (list RepoPath) CapabilityError :=
  map_err CapProposal (try_map repo_path_parse paths).

(** [MemoryRepository::validate_candidate_preparation] *)
Definition validate_candidate_preparation (r : MemoryRepository) (auth : AuthorityEnvelope)
    (p : CandidateProvenance) : result unit CapabilityError :=
  let? token := require (mr_expected r) auth in
  map_err CapCandidateManifest (provenance_validate p) ;?
  require_memory_candidate_field "producing_attempt_id" (ea_attempt_id (mr_expected r))
    (as_str (cp_producing_attempt_id p)) ;?
  require_memory_candidate_field "attempt_fence"
    (u64_to_string (ea_attempt_fence (mr_expected r))) (u64_to_string (cp_attempt_fence p)) ;?
  require_memory_candidate_field "variant_id" (wt_variant_id token) (as_str (cp_variant_id p)) ;?
  require_memory_candidate_field "base_checkpoint_id"
    (as_str (ckp_id (checkpoint (mr_journal r)))) (as_str (cp_base_checkpoint_id p)) ;?
  require_memory_candidate_field "base_commit" (oid_str (mr_base r)) (oid_str (cp_base_commit p)) ;?
  let? local_grant := parse_paths (allowed_prefixes (mr_grant r)) in
  fail_if (negb (bool_decide (cp_granted_scope p = local_grant)))
    (CapCandidateSubjectMismatch "granted_scope" (scope_text local_grant)
       (scope_text (cp_granted_scope p))).

(** [files.sort_by(|a, b| a.0.cmp(&b.0))] *)
Definition file_le (a b : string * bytes) : Prop := String.le (fst a) (fst b).
#[export] Instance file_le_dec : RelDecision file_le.
Proof. intros a b. unfold file_le. apply _. Defined.

(** The framed content of the sorted files. *)
Definition memory_content (files : list (string * bytes)) : bytes :=
  foldl (λ buf f, frame (frame buf (as_bytes (fst f))) (snd f))
    (frame [] (as_bytes "memory.candidate.v1")) files.

(** [MemoryRepository::prepare_candidate] *)
Definition prepare_candidate (r : MemoryRepository) (auth : AuthorityEnvelope) (change : Change)
    (p : CandidateProvenance) : result Candidate CapabilityError :=
  validate_candidate_preparation r auth p ;?
  let files := merge_sort file_le (mr_files r) in
  let content := digest_of (memory_content files) in
  let tree := synth_oid [as_bytes "memory.tree"; digest_as_bytes content] in
  let head := synth_oid [as_bytes "memory.head"; as_bytes (oid_str tree);
                         as_bytes (oid_str (mr_base r)); as_bytes (as_str (change_id change))] in
  let? actual_scope := parse_paths (map fst files) in
  map_err CapCandidateManifest (from_manifest {|
    cm_schema_version := cp_schema_version p; cm_repository_id := cp_repository_id p;
    cm_change_id := change_id change; cm_producing_attempt_id := cp_producing_attempt_id p;
    cm_attempt_fence := cp_attempt_fence p; cm_work_package_id := cp_work_package_id p;
    cm_variant_id := cp_variant_id p; cm_plan_revision_id := cp_plan_revision_id p;
    cm_graph_revision_id := cp_graph_revision_id p;
    cm_base_checkpoint_id := cp_base_checkpoint_id p; cm_base_commit := mr_base r;
    cm_head_commit := head; cm_tree_oid := tree; cm_patch_digest := content;
    cm_parent_candidate_ids := cp_parent_candidate_ids p; cm_granted_scope := cp_granted_scope p;
    cm_actual_scope := actual_scope; cm_context_capsule_id := cp_context_capsule_id p;
    cm_configuration_snapshot_id := cp_configuration_snapshot_id p;
    cm_policy_snapshot_id := cp_policy_snapshot_id p;
    cm_routing_snapshot_id := cp_routing_snapshot_id p;
    cm_environment_digest := cp_environment_digest p;
    cm_toolchain_digest := cp_toolchain_digest p |} "memory").

(** ** Lineage *)

Definition query_lineage (r : MemoryRepository) (auth : AuthorityEnvelope) (id : ChangeId)
    : result ChangeEvolution CapabilityError :=
  let? _token := require (mr_expected r) auth in
  map_err CapLineage (query (mr_lineage r) id).

(** [MemoryRepository::record_evolution]; a Change recorded before the edge is
    refused stays recorded. *)
Definition record_evolution (r : MemoryRepository) (auth : AuthorityEnvelope) (change : Change)
    (edge : EvolutionEdge) : result unit CapabilityError * MemoryRepository :=
  match require (mr_expected r) auth with
  | Err e => (Err e, r)
  | Ok _ =>
      match record_change (mr_lineage r) change with
      | Err e => (Err (CapLineage e), r)
      | Ok g =>
          match record_edge g (change_id change) edge with
          | Err e => (Err (CapLineage e), with_lineage r g)
          | Ok g => (Ok tt, with_lineage r g)
          end
      end
  end.

(** [bind_proof] *)
Definition bind_proof (c : Candidate) : ProofRoot :=
  proof_bind c {|
    scope_and_write_set := as_bytes "scope"; runner_and_sandbox := []; toolchain_and_deps := [];
    evidence := as_bytes "evidence"; verifier_evidence := []; reviews := as_bytes "reviews";
    policy := as_bytes "policy"; approvals_and_effect_receipts := [] |}.
End Memory.

(** ** The abstract repository: a finite map from paths to contents *)

Definition files_map (files : list (string * bytes)) : gmap string bytes := list_to_map files.

Definition patch_effect (m : gmap string bytes) (row : PatchHunk * string) : gmap string bytes :=
  match hunk_op (fst row) with
  | OpWrite contents => <[snd row := contents]> m
  | OpDelete => delete (snd row) m
  end.

(** The contents a journal leaves, as digests. *)
Definition replay (j : Journal) : gmap string Digest :=
  foldl (λ m op, match jo_after op with
                 | Some d => <[jo_path op := d]> m
                 | None => delete (jo_path op) m
                 end) ∅ j.

(** One entry per path, and the journal accounts for every content. *)
Record memory_wf `{Blake3} (files : list (string * bytes)) (j : Journal) : Prop := {
  mw_unique : NoDup (map fst files);
  mw_journal : replay j = digest_of <$> files_map files
}.

(** ** Lemmas: files *)

Lemma find_file_map files path : files_map files !! path = find_file files path.
Proof.
  unfold files_map. induction files as [|[p b] files IH]; simpl; [apply lookup_empty|].
  destruct (String.eqb_spec p path) as [->|Hne]; [apply lookup_insert_eq|].
  by rewrite lookup_insert_ne.
Qed.

Lemma find_file_None files path : find_file files path = None ↔ path ∉ map fst files.
Proof.
  induction files as [|[p b] files IH]; simpl; [by split; [intros _ ?%elem_of_nil|]|].
  rewrite elem_of_cons. destruct (String.eqb_spec p path) as [->|Hne]; [naive_solver|].
  rewrite IH. split; [|tauto]. intros ? [<-|?]; done.
Qed.

Lemma file_exists_true files path : file_exists files path = true ↔ is_Some (files_map files !! path).
Proof.
  rewrite find_file_map. unfold file_exists. induction files as [|[p b] files IH]; simpl.
  - split; [done|by intros [? [=]]].
  - destruct (String.eqb_spec p path); simpl; [by split; [eexists|]|done].
Qed.

Lemma write_file_map files path contents :
  files_map (write_file files path contents) = <[path := contents]> (files_map files).
Proof.
  unfold files_map. induction files as [|[p b] files IH]; simpl; [done|].
  destruct (String.eqb_spec p path) as [->|Hne]; simpl; [by rewrite insert_insert_eq|].
  rewrite IH. by apply insert_insert_ne.
Qed.

Lemma write_file_paths files path contents x :
  x ∈ map fst (write_file files path contents) ↔ x = path ∨ x ∈ map fst files.
Proof.
  induction files as [|[p b] files IH]; simpl.
  - rewrite list_elem_of_singleton. split; [by left|]. intros [?|?%elem_of_nil]; done.
  - destruct (String.eqb_spec p path) as [->|Hne]; simpl; rewrite !elem_of_cons.
    + tauto.
    + rewrite IH. tauto.
Qed.

Lemma write_file_unique files path contents :
  NoDup (map fst files) → NoDup (map fst (write_file files path contents)).
Proof.
  induction files as [|[p b] files IH]; simpl; [intros _; apply NoDup_singleton|].
  intros [Hp Hn]%NoDup_cons. destruct (String.eqb_spec p path) as [->|Hne]; simpl.
  - by apply NoDup_cons.
  - apply NoDup_cons. split; [|by apply IH]. rewrite write_file_paths. intros [->|?]; done.
Qed.

Lemma remove_file_map files path before files' :
  NoDup (map fst files) → remove_file files path = Some (before, files') →
  files_map files' = delete path (files_map files) ∧ NoDup (map fst files') ∧
  (∀ x, x ∈ map fst files' → x ∈ map fst files).
Proof.
  unfold files_map. revert before files'. induction files as [|[p b] files IH]; intros before files';
    simpl; [done|]. intros [Hp Hn]%NoDup_cons.
  destruct (String.eqb_spec p path) as [->|Hne].
  - intros [= <- <-]. split; [|split; [done|]].
    + rewrite delete_insert_eq, delete_id; [done|]. fold (files_map files).
      by rewrite find_file_map, find_file_None.
    + intros x. rewrite elem_of_cons. by right.
  - destruct (remove_file files path) as [[bf fs]|] eqn:E; [|done]. intros [= <- <-].
    destruct (IH _ _ Hn eq_refl) as (Hm & Hn' & Hin). simpl. split; [|split].
    + rewrite Hm. symmetry. by apply delete_insert_ne.
    + apply NoDup_cons. split; [|done]. intros ?%Hin. done.
    + intros x. rewrite !elem_of_cons. naive_solver.
Qed.

Lemma remove_file_None files path : remove_file files path = None ↔ files_map files !! path = None.
Proof.
  rewrite find_file_map. induction files as [|[p b] files IH]; simpl; [done|].
  destruct (String.eqb p path); [done|]. rewrite <- IH.
  destruct (remove_file files path) as [[]|]; simpl; split; done.
Qed.

Lemma replay_snoc j op :
  replay (j ++ [op]) = match jo_after op with
                       | Some d => <[jo_path op := d]> (replay j)
                       | None => delete (jo_path op) (replay j)
                       end.
Proof. unfold replay. by rewrite foldl_app. Qed.

(** ** Candidates of the in-memory repository *)

#[local] Instance file_le_total : Total file_le.
Proof. intros a b. unfold file_le. apply (total String.le). Qed.
#[local] Instance file_le_trans : Transitive file_le.
Proof. intros a b c. unfold file_le. apply transitivity. Qed.

(** Sorting forgets the order in which files were written. *)
Lemma sorted_files_unique (l k : list (string * bytes)) :
  NoDup (map fst l) → l ≡ₚ k → StronglySorted file_le l → StronglySorted file_le k → l = k.
Proof.
  revert k. induction l as [|x l IH]; intros k Hnd Hp Hl Hk.
  { by apply Permutation_nil_l in Hp. }
  destruct k as [|y k]; [by symmetry in Hp; apply Permutation_nil_l in Hp|].
  simpl in Hnd. apply NoDup_cons in Hnd as [Hx Hnd].
  apply StronglySorted_inv in Hl as [Hl Hxl]. apply StronglySorted_inv in Hk as [Hk Hyk].
  assert (x = y) as <-.
  { assert (x ∈ y :: k) as [->|Hxk]%elem_of_cons by (rewrite <- Hp; by left); [done|].
    assert (y ∈ x :: l) as [->|Hyl]%elem_of_cons by (rewrite Hp; by left); [done|].
    rewrite Forall_forall in Hxl, Hyk.
    assert (fst x = fst y) as E by (apply (anti_symm String.le); [by apply Hxl|by apply Hyk]).
    exfalso. apply Hx. rewrite E. by apply list_elem_of_fmap_2. }
  f_equal. apply IH; try done. by apply Permutation_cons_inv in Hp.
Qed.

Lemma merge_sort_files_sorted files : StronglySorted file_le (merge_sort file_le files).
Proof. apply StronglySorted_merge_sort; apply _. Qed.

Lemma sorted_files_map files k :
  NoDup (map fst files) → NoDup (map fst k) →
  files_map files = files_map k ↔ merge_sort file_le files = merge_sort file_le k.
Proof.
  intros Hf Hk. unfold files_map. split.
  - intros E. apply list_to_map_inj in E; [|done..].
    apply sorted_files_unique; try apply merge_sort_files_sorted.
    + eapply NoDup_Permutation_proper; [apply Permutation_map, merge_sort_Permutation|done].
    + by rewrite !merge_sort_Permutation.
  - intros E. apply list_to_map_proper; [done|].
    rewrite <- (merge_sort_Permutation file_le files), E. apply merge_sort_Permutation.
Qed.

(** The framed fields of a content digest. *)
Definition content_fields (files : list (string * bytes)) : list bytes :=
  as_bytes "memory.candidate.v1" :: concat (map (λ f, [as_bytes (fst f); snd f]) files).

Lemma memory_content_frames files : memory_content files = frames (content_fields files).
Proof.
  unfold memory_content, content_fields.
  change (frame [] (as_bytes "memory.candidate.v1")) with (frames [as_bytes "memory.candidate.v1"]).
  change (as_bytes "memory.candidate.v1" :: concat (map (λ f, [as_bytes (fst f); snd f]) files))
    with ([as_bytes "memory.candidate.v1"] ++ concat (map (λ f : string * bytes, [as_bytes (fst f); snd f]) files)).
  generalize [as_bytes "memory.candidate.v1"] as pre. induction files as [|f files IH]; intros pre; simpl.
  - by rewrite app_nil_r.
  - rewrite !frame_frames, IH, <- !app_assoc. done.
Qed.

Lemma content_fields_inj files k : content_fields files = content_fields k → files = k.
Proof.
  unfold content_fields. intros [_ E]%cons_fields. revert k E.
  induction files as [|[p b] files IH]; intros [|[q c] k]; simpl; try done.
  intros [Hp [Hb E]%cons_fields]%cons_fields. apply as_bytes_inj in Hp as ->. subst c.
  f_equal. by apply IH.
Qed.

Section MemoryFacts.
Context `{Blake3, HexCrate, Unicode, CharCase, TokenDecoder, ScopeText,
          !Jcs CandidateManifest, !Jcs CandidateContentManifest}.

(** One patch: its effect on the map, and one journal entry. *)
Lemma apply_patch_wf files j patch path :
  memory_wf files j →
  let '(files', j') := apply_patch (files, j) (patch, path) in
  memory_wf files' j' ∧ files_map files' = patch_effect (files_map files) (patch, path).
Proof.
  intros [Hu Hj]. unfold apply_patch, patch_effect. simpl. destruct (hunk_op patch) as [contents|].
  - split; [|apply write_file_map]. split; [by apply write_file_unique|].
    unfold journal_record, journal_push. rewrite replay_snoc. simpl.
    by rewrite Hj, write_file_map, fmap_insert.
  - destruct (remove_file files path) as [[before files']|] eqn:E.
    + destruct (remove_file_map _ _ _ _ Hu E) as (Hm & Hn & _). split; [|done].
      split; [done|]. unfold journal_record_delete, journal_push. rewrite replay_snoc. simpl.
      by rewrite Hj, Hm, fmap_delete.
    + apply remove_file_None in E. split; [by split|]. by rewrite delete_id.
Qed.

Lemma apply_patch_journal files j patch path :
  (hunk_op patch = OpDelete → is_Some (files_map files !! path)) →
  ∃ op, snd (apply_patch (files, j) (patch, path)) = j ++ [op] ∧ jo_path op = path.
Proof.
  intros Hdel. unfold apply_patch, journal_record, journal_record_delete, journal_push.
  destruct (hunk_op patch) as [contents|]; simpl; [eauto|].
  destruct (remove_file files path) as [[before files']|] eqn:E; simpl; [eauto|].
  apply remove_file_None in E. destruct (Hdel eq_refl) as [? ?]. congruence.
Qed.

(** A whole batch. *)
Lemma apply_patches_cons st h hs p ps :
  apply_patches st (h :: hs) (p :: ps) = apply_patches (apply_patch st (h, p)) hs ps.
Proof. done. Qed.

Lemma apply_patches_spec patches normalized files j files' j' :
  memory_wf files j → length patches = length normalized → NoDup normalized →
  Forall2 (λ h p, hunk_op h = OpDelete → is_Some (files_map files !! p)) patches normalized →
  apply_patches (files, j) patches normalized = (files', j') →
  memory_wf files' j' ∧
  files_map files' = foldl patch_effect (files_map files) (zip patches normalized) ∧
  ∃ ops, j' = j ++ ops ∧ map jo_path ops = normalized.
Proof.
  revert normalized files j. induction patches as [|h hs IH]; intros [|p ps] files j Hwf Hlen Hnd Hall;
    try done.
  - intros [= <- <-]. split; [done|]. split; [done|]. exists []. by rewrite app_nil_r.
  - rewrite apply_patches_cons.
    apply NoDup_cons in Hnd as [Hp Hnd]. inversion Hall as [|? ? ? ? Hh Hall']; subst.
    pose proof (apply_patch_wf files j h p Hwf) as Hone.
    destruct (apply_patch_journal files j h p Hh) as (op & Hop & Hpath).
    destruct (apply_patch (files, j) (h, p)) as [files1 j1]. simpl in Hop. subst j1.
    destruct Hone as [Hwf1 Hm1]. intros E.
    apply (IH ps files1 (j ++ [op]) Hwf1) in E as (Hwf2 & Hm2 & ops & -> & Hops);
      [|by injection Hlen|done|].
    + split; [done|]. split; [by rewrite Hm2, Hm1|]. exists (op :: ops).
      rewrite <- app_assoc. split; [done|]. simpl. by rewrite Hpath, Hops.
    + apply Forall2_same_length_lookup. split; [by injection Hlen|]. intros i x y Hx Hy Hdel.
      rewrite Hm1. unfold patch_effect. simpl.
      assert (p ≠ y) as Hne.
      { intros <-. apply Hp. by eapply list_elem_of_lookup_2. }
      assert (is_Some (files_map files !! y)) as Hy'.
      { apply Forall2_same_length_lookup in Hall' as [_ Hall']. by eapply Hall'. }
      destruct (hunk_op h); [by rewrite lookup_insert_ne|by rewrite lookup_delete_ne].
Qed.

Definition repo_wf (r : MemoryRepository) : Prop := memory_wf (mr_files r) (mr_journal r).

(** The admission of [apply_change], and its effect. *)
Definition change_admitted (r : MemoryRepository) (auth : AuthorityEnvelope) (patches : list PatchHunk)
    (normalized : list string) : Prop :=
  (∃ t, require (mr_expected r) auth = Ok t) ∧ mr_is_worktree r = false ∧
  validate_batch (mr_grant r) patches (file_exists (mr_files r)) = Ok normalized.

Definition change_applied (r r' : MemoryRepository) (patches : list PatchHunk)
    (normalized : list string) : Prop :=
  repo_wf r' ∧
  files_map (mr_files r') = foldl patch_effect (files_map (mr_files r)) (zip patches normalized) ∧
  (∃ ops, mr_journal r' = mr_journal r ++ ops ∧ map jo_path ops = normalized) ∧
  r' = with_content r (mr_files r') (mr_journal r').

Lemma apply_change_Ok r auth patches normalized :
  repo_wf r → change_admitted r auth patches normalized →
  ∃ r', apply_change r auth patches = (Ok tt, r') ∧ change_applied r r' patches normalized.
Proof.
  intros Hwf ([t Ht] & Hw & Hb). unfold apply_change. rewrite Ht, Hw. simpl. rewrite Hb. simpl.
  destruct (apply_patches (mr_files r, mr_journal r) patches normalized) as [files j] eqn:E.
  eexists. split; [done|]. apply validate_batch_Ok in Hb as (_ & Hall & _ & Hnd).
  apply apply_patches_spec in E as (Hwf' & Hm & Hj); [by split_and!|done| | |].
  - by eapply Forall2_length.
  - by eapply NoDup_fmap_1.
  - eapply Forall2_impl; [exact Hall|]. intros h p (_ & _ & Hdel) Hop.
    by apply file_exists_true, Hdel.
Qed.

Lemma apply_change_cases r auth patches :
  (∃ normalized, change_admitted r auth patches normalized) ∨
  ∃ e, apply_change r auth patches = (Err e, r).
Proof.
  unfold apply_change, change_admitted. destruct (require (mr_expected r) auth) as [t|e]; simpl; [|eauto].
  destruct (mr_is_worktree r); simpl; [eauto|].
  destruct (validate_batch _ _ _) as [normalized|e]; [left|right; eauto]. exists normalized. eauto.
Qed.

Lemma apply_change_admitted r auth patches r' :
  apply_change r auth patches = (Ok tt, r') → ∃ normalized, change_admitted r auth patches normalized.
Proof. intros E. destruct (apply_change_cases r auth patches) as [?|[e E']]; [done|congruence]. Qed.

Lemma synth_oid_never_panics `{!HexLaws} fields :
  oid_from_hex Sha256 (to_hex (framed_digest fields)) = Ok (synth_oid fields).
Proof.
  unfold synth_oid. destruct (oid_from_hex _ _) as [o|e] eqn:E; [done|]. exfalso.
  unfold oid_from_hex, is_lower_hex in E. rewrite to_hex_slen, to_hex_lower in E. done.
Qed.

(** Both entry points run the same admission. *)
Lemma apply_proposal_unfold r auth p :
  apply_proposal r auth p =
    match memory_validate_proposal r auth p with
    | Err e => (Err e, r)
    | Ok _ =>
        let '(applied, r') := apply_change r auth (proposal_patches p) in
        match applied with
        | Err e => (Err e, r')
        | Ok _ => (Ok (checkpoint (mr_journal r')), r')
        end
    end.
Proof. done. Qed.

Lemma memory_validate_proposal_Ok r auth p :
  memory_validate_proposal r auth p = Ok tt →
  ∃ normalized,
    change_admitted r auth (proposal_patches p) normalized ∧ validate_proposal p = Ok tt ∧
    as_str (pp_producing_attempt_id p) = ea_attempt_id (mr_expected r) ∧
    pp_base_checkpoint_id p = ckp_id (checkpoint (mr_journal r)) ∧
    pp_base_checkpoint_digest p = ckp_digest (checkpoint (mr_journal r)) ∧
    Forall (λ row, preimage_matches (op_preimage (fst row)) (files_map (mr_files r) !! snd row) = true)
      (zip (pp_operations p) normalized).
Proof.
  unfold memory_validate_proposal. intros Hok. res_inv. bools.
  apply try_for_Ok in Hok. exists r5. unfold change_admitted. split_and!; try done; try tauto.
  - by exists r0.
  - eapply Forall_impl; [exact Hok|]. intros [op path]. unfold check_preimage. simpl.
    rewrite fail_if_Ok, find_file_map. by rewrite negb_false_iff.
Qed.

(** What a prepared candidate says. *)
Definition sorted_files (r : MemoryRepository) : list (string * bytes) :=
  merge_sort file_le (mr_files r).

Lemma from_manifest_fields m at_ c : from_manifest m at_ = Ok c → cand_manifest c = m.
Proof. unfold from_manifest. intros Hok. res_inv. by subst. Qed.

Lemma parse_paths_Ok paths ps : parse_paths paths = Ok ps → ps = map MkRepoPath paths.
Proof.
  unfold parse_paths. intros Hok. res_inv. apply try_map_Ok in Hok. induction Hok as [|x y xs ys Hx _ IH]; [done|].
  simpl. rewrite IH. unfold repo_path_parse in Hx. res_inv. by subst.
Qed.

Lemma prepare_candidate_Ok r auth change p c :
  prepare_candidate r auth change p = Ok c →
  let m := cand_manifest c in
  validate_candidate_preparation r auth p = Ok tt ∧
  cm_patch_digest m = digest_of (memory_content (sorted_files r)) ∧
  cm_tree_oid m = synth_oid [as_bytes "memory.tree"; digest_as_bytes (cm_patch_digest m)] ∧
  cm_actual_scope m = map MkRepoPath (map fst (sorted_files r)).
Proof.
  unfold prepare_candidate. intros Hok. res_inv.
  apply from_manifest_fields in Hok. rewrite Hok. simpl. split; [done|].
  split; [done|]. split; [done|]. by apply parse_paths_Ok.
Qed.

(** ** Properties *)

(** [apply_change] refines the finite map from paths to contents: an admitted
    batch applies exactly its writes and deletes in order, journals one operation
    per patch at its path, changes nothing else and keeps the invariant (one entry
    per path, the journal accounting for every content); a batch is admitted exactly when
    the envelope names the writer, the workspace is no worktree and the batch
    validates; anything refused changes nothing. *)
Theorem memory_apply_change_refines r auth patches res r' :
  repo_wf r → apply_change r auth patches = (res, r') →
  match res with
  | Ok _ => ∃ normalized, change_admitted r auth patches normalized ∧
                          change_applied r r' patches normalized
  | Err _ => r' = r ∧ ∀ normalized, ¬ change_admitted r auth patches normalized
  end.
Proof.
  intros Hwf E. destruct (apply_change_cases r auth patches) as [[normalized Ha]|[e He]].
  - destruct (apply_change_Ok _ _ _ _ Hwf Ha) as (r1 & E1 & Happ).
    rewrite E1 in E. injection E as <- <-. by exists normalized.
  - rewrite He in E. injection E as <- <-. split; [done|]. intros normalized Ha.
    destruct (apply_change_Ok _ _ _ _ Hwf Ha) as (r1 & E1 & _). congruence.
Qed.

(** [validate_proposal] predicts [apply_proposal] exactly: the same refusal and
    no change, or success with the whole batch applied at once.  What is applied
    was proposed by the expected attempt on the active checkpoint, and every
    operation found the preimage it names. *)
Theorem memory_proposal_equivalence r auth p :
  repo_wf r →
  match memory_validate_proposal r auth p with
  | Err e => apply_proposal r auth p = (Err e, r)
  | Ok _ =>
      ∃ r' normalized,
        apply_proposal r auth p = (Ok (checkpoint (mr_journal r')), r') ∧
        change_applied r r' (proposal_patches p) normalized ∧
        proposal_valid p ∧
        as_str (pp_producing_attempt_id p) = ea_attempt_id (mr_expected r) ∧
        pp_base_checkpoint_id p = ckp_id (checkpoint (mr_journal r)) ∧
        pp_base_checkpoint_digest p = ckp_digest (checkpoint (mr_journal r)) ∧
        Forall (λ row, preimage_matches (op_preimage (fst row))
                         (files_map (mr_files r) !! snd row) = true)
          (zip (pp_operations p) normalized)
  end.
Proof.
  intros Hwf. rewrite apply_proposal_unfold.
  destruct (memory_validate_proposal r auth p) as [[]|e] eqn:E; [|done].
  apply memory_validate_proposal_Ok in E as (normalized & Ha & Hv & Hatt & Hid & Hdg & Hpre).
  destruct (apply_change_Ok _ _ _ _ Hwf Ha) as (r' & E' & Happ). rewrite E'.
  exists r', normalized. split_and!; try done. by apply proposal_validate_valid.
Qed.
(** A prepared Candidate depends on the stored files alone, never on the order
    in which they were written: repositories with the same paths and contents
    prepare the same content digest, tree and write set.  Conversely Candidates
    with one content digest were prepared from the same paths and contents, or two
    exact BLAKE3 preimages collide. *)
Theorem memory_candidate_binds_files r1 r2 auth1 auth2 change1 change2 p1 p2 c1 c2 :
  repo_wf r1 → repo_wf r2 →
  prepare_candidate r1 auth1 change1 p1 = Ok c1 → prepare_candidate r2 auth2 change2 p2 = Ok c2 →
  Forall addressable (content_fields (sorted_files r1)) →
  Forall addressable (content_fields (sorted_files r2)) →
  let m1 := cand_manifest c1 in let m2 := cand_manifest c2 in
  (files_map (mr_files r1) = files_map (mr_files r2) →
     cm_patch_digest m1 = cm_patch_digest m2 ∧ cm_tree_oid m1 = cm_tree_oid m2 ∧
     cm_actual_scope m1 = cm_actual_scope m2) ∧
  (cm_patch_digest m1 = cm_patch_digest m2 →
     files_map (mr_files r1) = files_map (mr_files r2) ∨
     collides blake3_hash (memory_content (sorted_files r1)) (memory_content (sorted_files r2))).
Proof.
  intros [Hu1 _] [Hu2 _] Hc1 Hc2 Ha1 Ha2 m1 m2.
  apply prepare_candidate_Ok in Hc1 as (_ & Hp1 & Ht1 & Hs1), Hc2 as (_ & Hp2 & Ht2 & Hs2).
  fold m1 in Hp1, Ht1, Hs1. fold m2 in Hp2, Ht2, Hs2. rewrite (sorted_files_map _ _ Hu1 Hu2). split.
  - intros E. unfold sorted_files in *. rewrite E in Hp1, Hs1.
    assert (cm_patch_digest m1 = cm_patch_digest m2) as Hp by congruence.
    split_and!; congruence.
  - rewrite Hp1, Hp2, !memory_content_frames. intros [E|Hc]%framed_digest_binds; [left|by right|done..].
    by apply content_fields_inj.
Qed.
End MemoryFacts.


(** ** Reference instances and witnesses *)

Module MemoryReference.
Import Reference ScopeReference CandidateReference.

Definition writer : ExpectedAuthority := {|
  ea_attempt_id := as_str (from_seed "atm" "a" : AttemptId); ea_attempt_fence := 3;
  ea_workspace_nonce := as_bytes "nonce" |}.

Definition writer_token : WireAuthorityToken := {|
  wt_attempt_id := ea_attempt_id writer; wt_variant_id := as_str (from_seed "var" "v" : VariantId); wt_attempt_fence := 3;
  wt_workspace_nonce := as_bytes "nonce" |}.

(** A decoder that knows one envelope. *)
#[export] Instance one_token : TokenDecoder := λ b,
  if bool_decide (b = as_bytes "token") then Ok writer_token else Err "unknown token".

#[export] Instance scope_joined : ScopeText := λ ps, String.concat "," (map path_str ps).

Definition envelope : AuthorityEnvelope := {| ae_token := as_bytes "token" |}.
Definition grant : ScopeGrant := {| allowed_prefixes := ["src"] |}.
Definition repo : MemoryRepository := memory_new writer grant.
Definition patches : list PatchHunk := [hunk_write "src/a.rs" (as_bytes "fn a() {}")].

Lemma repo_ok : repo_wf repo.
Proof. split; [apply NoDup_nil_2|done]. Qed.

Definition changed : result unit CapabilityError * MemoryRepository := apply_change repo envelope patches.

Lemma changed_eq : apply_change repo envelope patches = (fst changed, snd changed).
Proof. unfold changed. apply surjective_pairing. Qed.

Lemma changed_ok : fst changed = Ok tt.
Proof. vm_compute. reflexivity. Qed.

Example memory_apply_change_refines_witness :
  fst changed = Ok tt ∧
  match fst changed with
  | Ok _ => ∃ normalized, change_admitted repo envelope patches normalized ∧
                          change_applied repo (snd changed) patches normalized
  | Err _ => snd changed = repo ∧ ∀ normalized, ¬ change_admitted repo envelope patches normalized
  end.
Proof.
  split; [exact changed_ok|].
  exact (memory_apply_change_refines repo envelope patches _ _ repo_ok changed_eq).
Defined.

Definition proposal : PatchProposal := {|
  pp_schema_version := 1; pp_proposal_id := from_seed "cnt" "p";
  pp_producing_attempt_id := from_seed "atm" "a";
  pp_base_checkpoint_id := ckp_id (checkpoint []);
  pp_base_checkpoint_digest := ckp_digest (checkpoint []);
  pp_operations := [{| op_path := MkRepoPath "src/a.rs"; op_preimage := PreAbsent;
                       op_mutation := MutWrite "fn a() {}" |}];
  pp_gate_ids := [from_seed "gat" "g"] |}.

Lemma proposal_admitted : memory_validate_proposal repo envelope proposal = Ok tt.
Proof. vm_compute. reflexivity. Qed.

Example memory_proposal_equivalence_witness :
  ∃ r', apply_proposal repo envelope proposal = (Ok (checkpoint (mr_journal r')), r').
Proof.
  pose proof (memory_proposal_equivalence repo envelope proposal repo_ok) as Hok.
  rewrite proposal_admitted in Hok. destruct Hok as (r' & normalized & E & _).
  exists r'. exact E.
Defined.
(** The same two files written in the two orders. *)
Definition a_then_b : list PatchHunk :=
  [hunk_write "src/a.rs" (as_bytes "a"); hunk_write "src/b.rs" (as_bytes "b")].
Definition b_then_a : list PatchHunk := rev a_then_b.

Definition repo_ab : MemoryRepository := snd (apply_change repo envelope a_then_b).
Definition repo_ba : MemoryRepository := snd (apply_change repo envelope b_then_a).

Lemma changed_wf ps normalized : change_admitted repo envelope ps normalized →
  repo_wf (snd (apply_change repo envelope ps)).
Proof. intros Ha. destruct (apply_change_Ok _ _ _ _ repo_ok Ha) as (r' & -> & Hr & _). exact Hr. Qed.

Lemma repo_ab_ok : repo_wf repo_ab.
Proof.
  apply (changed_wf _ ["src/a.rs"; "src/b.rs"]). split; [by exists writer_token|].
  split; vm_compute; reflexivity.
Qed.

Lemma repo_ba_ok : repo_wf repo_ba.
Proof.
  apply (changed_wf _ ["src/b.rs"; "src/a.rs"]). split; [by exists writer_token|].
  split; vm_compute; reflexivity.
Qed.

Definition provenance_of (r : MemoryRepository) : CandidateProvenance := {|
  cp_schema_version := 1; cp_repository_id := from_seed "rep" "r";
  cp_producing_attempt_id := from_seed "atm" "a"; cp_attempt_fence := 3;
  cp_work_package_id := from_seed "wpk" "w"; cp_variant_id := from_seed "var" "v";
  cp_plan_revision_id := from_seed "pln" "p"; cp_graph_revision_id := from_seed "grf" "g";
  cp_base_checkpoint_id := ckp_id (checkpoint (mr_journal r)); cp_base_commit := mr_base r;
  cp_parent_candidate_ids := []; cp_granted_scope := [MkRepoPath "src"];
  cp_context_capsule_id := from_seed "cnt" "1"; cp_configuration_snapshot_id := from_seed "cnt" "2";
  cp_policy_snapshot_id := from_seed "cnt" "3"; cp_routing_snapshot_id := from_seed "cnt" "4";
  cp_environment_digest := zero_digest; cp_toolchain_digest := zero_digest |}.

Definition change : Change := {|
  change_id := from_seed "chg" "c"; change_mission := "m"; change_acceptance_root := zero_digest |}.

Definition prepared (r : MemoryRepository) : Candidate :=
  match prepare_candidate r envelope change (provenance_of r) with
  | Ok c => c
  | Err _ => {| cand_id := sample_id; cand_content_id := from_seed "cnt" "0"; cand_manifest := sample;
                cand_prepared_at := "" |}
  end.

Lemma prepared_Ok r :
  (if prepare_candidate r envelope change (provenance_of r) then true else false) = true →
  prepare_candidate r envelope change (provenance_of r) = Ok (prepared r).
Proof. unfold prepared. by destruct (prepare_candidate _ _ _ _). Qed.

Lemma prepared_ab : prepare_candidate repo_ab envelope change (provenance_of repo_ab) = Ok (prepared repo_ab).
Proof. apply prepared_Ok. vm_compute. reflexivity. Qed.

Lemma prepared_ba : prepare_candidate repo_ba envelope change (provenance_of repo_ba) = Ok (prepared repo_ba).
Proof. apply prepared_Ok. vm_compute. reflexivity. Qed.

Lemma same_files : files_map (mr_files repo_ab) = files_map (mr_files repo_ba).
Proof. vm_compute. reflexivity. Qed.

Lemma fields_ab : Forall addressable (content_fields (sorted_files repo_ab)).
Proof. apply (bool_decide_unpack (Forall addressable _)). vm_compute. exact I. Qed.

Lemma fields_ba : Forall addressable (content_fields (sorted_files repo_ba)).
Proof. apply (bool_decide_unpack (Forall addressable _)). vm_compute. exact I. Qed.

Example memory_candidate_binds_files_witness :
  cm_tree_oid (cand_manifest (prepared repo_ab)) = cm_tree_oid (cand_manifest (prepared repo_ba)).
Proof.
  destruct (memory_candidate_binds_files repo_ab repo_ba envelope envelope change change
    (provenance_of repo_ab) (provenance_of repo_ba) (prepared repo_ab) (prepared repo_ba)
    repo_ab_ok repo_ba_ok prepared_ab prepared_ba fields_ab fields_ba) as [Hsame _].
  destruct (Hsame same_files) as (_ & Ht & _). exact Ht.
Defined.
End MemoryReference.
