(* ===== verification/StrictJson.v ===== *)
(** [StrictValueSeed] of [crates/bullet-gitd/src/mutation_recovery.rs]: the
    visitor that turns what [serde_json]'s deserializer presents into a [Value]
    and refuses an object that repeats a key, at any depth.

    The tokenizer is not under src/: it presents a tree [Raw] in which an
    object is the list of its members as they occur. *)

From S2P Require Import Prelude.

Section StrictJson.
(** [f64] and [f64::is_finite]. *)
Context {float : Type} (is_finite : float → bool).

Inductive Number : Type := NumI64 (z : Z) | NumU64 (n : N) | NumF64 (f : float).

Inductive Value : Type :=
  | VNull
  | VBool (b : bool)
  | VNumber (n : Number)
  | VString (s : string)
  | VArray (l : list Value)
  | VObject (members : list (string * Value)).

Inductive Raw : Type :=
  | RNull
  | RBool (b : bool)
  | RI64 (z : Z)
  | RU64 (n : N)
  | RF64 (f : float)
  | RString (s : string)
  | RSeq (l : list Raw)
  | RMap (members : list (string * Raw)).

Definition contains_key {A} (k : string) (members : list (string * A)) : bool :=
  existsb (λ kv, String.eqb (fst kv) k) members.

(** [StrictValueSeed::deserialize] with the visitor's methods. *)
Fixpoint strict_value (r : Raw) : result Value string :=
  match r with
  | RNull => Ok VNull
  | RBool b => Ok (VBool b)
  | RI64 z => Ok (VNumber (NumI64 z))
  | RU64 n => Ok (VNumber (NumU64 n))
  | RF64 f => if is_finite f then Ok (VNumber (NumF64 f)) else Err "non-finite JSON number"
  | RString s => Ok (VString s)
  | RSeq l =>
      let? values := (fix visit_seq (l : list Raw) : result (list Value) string :=
        match l with
        | [] => Ok []
        | x :: l => let? v := strict_value x in let? vs := visit_seq l in Ok (v :: vs)
        end) l in
      Ok (VArray values)
  | RMap members =>
      let? values := (fix visit_map (values : list (string * Value)) (l : list (string * Raw))
          : result (list (string * Value)) string :=
        match l with
        | [] => Ok values
        | (key, x) :: l =>
            if contains_key key values then Err ("duplicate JSON key: " +:+ key)
            else let? v := strict_value x in visit_map (values ++ [(key, v)]) l
        end) [] members in
      Ok (VObject values)
  end.

(** ** Specification *)

(** [v] is the value of [r], and no object of [r] repeats a key. *)
Inductive clean : Raw → Value → Prop :=
  | clean_null : clean RNull VNull
  | clean_bool b : clean (RBool b) (VBool b)
  | clean_i64 z : clean (RI64 z) (VNumber (NumI64 z))
  | clean_u64 n : clean (RU64 n) (VNumber (NumU64 n))
  | clean_f64 f : is_finite f = true → clean (RF64 f) (VNumber (NumF64 f))
  | clean_string s : clean (RString s) (VString s)
  | clean_seq l vs : Forall2 clean l vs → clean (RSeq l) (VArray vs)
  | clean_map l vs :
      NoDup (map fst l) → Forall2 (λ x y, fst x = fst y ∧ clean (snd x) (snd y)) l vs →
      clean (RMap l) (VObject vs).

Fixpoint raw_size (r : Raw) : nat :=
  match r with
  | RSeq l => S (foldr (λ x n, raw_size x + n)%nat O l)
  | RMap l => S (foldr (λ x n, raw_size (snd x) + n)%nat O l)
  | _ => 1
  end.

(** ** Lemmas *)

Definition strict_members (members : list (string * Raw)) (values : list (string * Value)) :=
  (fix visit_map (values : list (string * Value)) (l : list (string * Raw))
      : result (list (string * Value)) string :=
    match l with
    | [] => Ok values
    | (key, x) :: l =>
        if contains_key key values then Err ("duplicate JSON key: " +:+ key)
        else let? v := strict_value x in visit_map (values ++ [(key, v)]) l
    end) values members.

Lemma contains_key_false {A} k (l : list (string * A)) : contains_key k l = false ↔ k ∉ map fst l.
Proof.
  unfold contains_key. rewrite existsb_false. split.
  - intros Hall [[k' a] [-> Hin]]%list_elem_of_fmap. apply Hall in Hin. simpl in Hin.
    by rewrite String.eqb_refl in Hin.
  - intros Hn [k' a] Hin. apply String.eqb_neq. simpl. intros ->. apply Hn.
    by apply (list_elem_of_fmap_2 fst l (k, a)).
Qed.

Definition member_clean (x : string * Raw) (y : string * Value) : Prop :=
  fst x = fst y ∧ clean (snd x) (snd y).

Lemma strict_value_seq l : strict_value (RSeq l) = let? vs := try_map strict_value l in Ok (VArray vs).
Proof.
  simpl. f_equal. induction l as [|x l IH]; simpl; [done|]. by rewrite IH.
Qed.

Lemma strict_seq_exact (l : list Raw) vs :
  (∀ x, x ∈ l → ∀ v, strict_value x = Ok v ↔ clean x v) →
  (try_map strict_value l = Ok vs ↔ Forall2 clean l vs).
Proof.
  intros Hl. rewrite try_map_Ok. revert vs. induction l as [|x l IH]; intros vs.
  - split; intros Hf; inversion Hf; constructor.
  - split; intros Hf; inversion Hf; subst; constructor.
    + apply Hl; [by left|done].
    + apply IH; [|done]. intros z Hz. apply Hl. by right.
    + apply Hl; [by left|done].
    + apply IH; [|done]. intros z Hz. apply Hl. by right.
Qed.

Lemma strict_members_exact (l : list (string * Raw)) values res :
  (∀ x, x ∈ l → ∀ v, strict_value (snd x) = Ok v ↔ clean (snd x) v) →
  (strict_members l values = Ok res ↔
   NoDup (map fst l) ∧ (∀ k, k ∈ map fst l → k ∉ map fst values) ∧
   ∃ vs, res = values ++ vs ∧ Forall2 member_clean l vs).
Proof.
  revert values. induction l as [|[k x] l IH]; intros values Hl; simpl.
  - split.
    + intros [= <-]. split; [constructor|]. split; [by intros k ?%elem_of_nil|].
      exists []. by rewrite app_nil_r.
    + intros (_ & _ & vs & -> & Hf). inversion Hf; subst. by rewrite app_nil_r.
  - fold (strict_members l). specialize (IH (values ++ [(k, match strict_value x with Ok v => v | Err _ => VNull end)])).
    assert (Hl' : ∀ y, y ∈ l → ∀ v, strict_value (snd y) = Ok v ↔ clean (snd y) v)
      by (intros y Hy; apply Hl; by right).
    pose proof (Hl (k, x) ltac:(by left)) as Hx. simpl in Hx. specialize (IH Hl').
    destruct (contains_key k values) eqn:Ek.
    + split; [done|]. intros (_ & Hd & _). apply not_false_iff_true in Ek. destruct Ek.
      apply contains_key_false, Hd. by left.
    + apply contains_key_false in Ek. destruct (strict_value x) as [v|e] eqn:Ev; simpl.
      2: { split; [done|]. intros (_ & _ & vs & _ & Hf).
           inversion Hf as [|? [k' v'] ? ? [_ Hc]]; subst. by apply Hx in Hc. }
      change (strict_members l (values ++ [(k, v)]) = Ok res ↔
        NoDup (k :: map fst l) ∧ (∀ k0, k0 ∈ k :: map fst l → k0 ∉ map fst values) ∧
        ∃ vs, res = values ++ vs ∧ Forall2 member_clean ((k, x) :: l) vs).
      rewrite IH, map_app, NoDup_cons. simpl. setoid_rewrite elem_of_cons.
      setoid_rewrite elem_of_app. setoid_rewrite list_elem_of_singleton. split.
      * intros (Hnd & Hd & vs & -> & Hf). split; [split; [|done]|].
        { intros Hin. apply (Hd _ Hin). by right. }
        split; [intros k0 [->|Hin]; [done|]; intros Hv; apply (Hd _ Hin); by left|].
        exists ((k, v) :: vs). rewrite <- app_assoc. split; [done|]. constructor; [|done].
        split; [done|]. by apply Hx.
      * intros ([Hk Hnd] & Hd & vs & -> & Hf). inversion Hf as [|? [k' v'] ? vs' [Hkk Hc]]; subst.
        simpl in Hkk, Hc. subst k'. apply Hx in Hc as [= <-]. split; [done|].
        split; [intros k0 Hin [Hv| ->]; [by apply (Hd k0); [right|]|done]|].
        exists vs'. by rewrite <- app_assoc.
Qed.

Lemma raw_size_seq x l : x ∈ l → (raw_size x < raw_size (RSeq l))%nat.
Proof.
  simpl. induction l as [|y l IH]; [by intros ?%elem_of_nil|].
  intros [->|Hin]%elem_of_cons; simpl; [lia|]. apply IH in Hin. lia.
Qed.

Lemma raw_size_map (x : string * Raw) l : x ∈ l → (raw_size (snd x) < raw_size (RMap l))%nat.
Proof.
  simpl. induction l as [|y l IH]; [by intros ?%elem_of_nil|].
  intros [->|Hin]%elem_of_cons; simpl; [lia|]. apply IH in Hin. lia.
Qed.

(** The strict decoder accepts a document exactly when no object in it, at
    any depth, repeats a key and no number is infinite, and then returns the
    document's own value: members and elements in their order, nothing dropped,
    merged or overwritten. *)
Theorem strict_value_exact r v : strict_value r = Ok v ↔ clean r v.
Proof.
  remember (raw_size r) as n eqn:Hn. revert r v Hn.
  induction (lt_wf n) as [n _ IH]. intros r v ->.
  destruct r as [|b|z|m|f|s|l|l].
  - split; [by intros [= <-]; constructor|by inversion 1].
  - split; [by intros [= <-]; constructor|by inversion 1].
  - split; [by intros [= <-]; constructor|by inversion 1].
  - split; [by intros [= <-]; constructor|by inversion 1].
  - simpl. destruct (is_finite f) eqn:E; (split; [|inversion 1; congruence]); [|done].
    intros [= <-]. by constructor.
  - split; [by intros [= <-]; constructor|by inversion 1].
  - rewrite strict_value_seq, res_bind_Ok.
    assert (∀ vs, try_map strict_value l = Ok vs ↔ Forall2 clean l vs) as Hs.
    { intros vs. apply strict_seq_exact. intros x Hx w. by eapply IH; [apply raw_size_seq|]. }
    split.
    + intros (vs & Hvs & [= <-]). constructor. by apply Hs.
    + inversion 1; subst. eexists. split; [by apply Hs|done].
  - change (strict_value (RMap l)) with (let? vs := strict_members l [] in Ok (VObject vs)).
    rewrite res_bind_Ok.
    assert (∀ vs, strict_members l [] = Ok vs ↔ NoDup (map fst l) ∧ Forall2 member_clean l vs) as Hs.
    { intros vs. rewrite strict_members_exact.
      - split; [intros (? & _ & vs' & -> & ?); done|]. intros [? ?].
        split; [done|]. split; [by intros k _ ?%elem_of_nil|]. by exists vs.
      - intros x Hx w. by eapply IH; [apply raw_size_map|]. }
    split.
    + intros (vs & [? ?]%Hs & [= <-]). by constructor.
    + inversion 1; subst. eexists. split; [by apply Hs|done].
Qed.
End StrictJson.
Arguments Number : clear implicits.
Arguments Value : clear implicits.
Arguments Raw : clear implicits.
