(* ===== verification/Ledger.v ===== *)
(** [crates/bullet-gitd/src/mutation_ledger.rs], [mutation_ledger_store.rs] and
    [mutation_recovery.rs]: the durable replay ledger of authority-gated
    mutations.

    The ledger directory is a map from file names to files; an append may be
    torn at any byte, a sync may fail, and a process may stop anywhere.  The
    JSON tokenizer, the derived decoder of an event and its encoder are the
    class [LedgerCodec]; the duplicate-key check between them is
    [StrictJson.strict_value]. *)

From S2P Require Import Prelude Digests Ids Protocol StrictJson.

Definition LEDGER_SCHEMA_VERSION : N := 1.
Definition MAX_SAFE_INTEGER : N := 9007199254740991.
Definition MAX_LEDGER_RECORDS : N := 4096.
Definition MAX_LEDGER_RECORD_BYTES : N := 2 * (MAX_FRAME_BYTES + 1).

Inductive MutationOperation : Type :=
  | CloneWorkspace | ApplyPatch | OpCheckpoint | PrepareCandidate | PreserveWorkspace
  | CleanupWorkspace.

#[export] Instance MutationOperation_eq_dec : EqDecision MutationOperation.
Proof. solve_decision. Defined.

Definition operation_str (o : MutationOperation) : string :=
  match o with
  | CloneWorkspace => "clone-workspace"
  | ApplyPatch => "apply-patch"
  | OpCheckpoint => "checkpoint"
  | PrepareCandidate => "prepare-candidate"
  | PreserveWorkspace => "preserve-workspace"
  | CleanupWorkspace => "cleanup-workspace"
  end.

Record MutationSubject : Type := {
  ms_authority_envelope_digest : string;
  ms_authority_token_nonce : string;
  ms_mutation_id : string;
  ms_reservation_id : string;
  ms_operation : MutationOperation;
  ms_request_digest : string;
  ms_repository_id : string;
  ms_workspace_id : string;
  ms_workspace_generation : N;
  ms_workspace_nonce : string;
  ms_attempt_id : string;
  ms_attempt_fence : N;
  ms_authority_epoch : N;
  ms_freeze_generation : N;
  ms_permit_nonce : string;
  ms_permit_digest : string
}.

#[export] Instance MutationSubject_eq_dec : EqDecision MutationSubject.
Proof. solve_decision. Defined.

Inductive MutationOutcome : Type := Committed | Aborted | Unknown.

#[export] Instance MutationOutcome_eq_dec : EqDecision MutationOutcome.
Proof. solve_decision. Defined.

Record MutationResult : Type := {
  mr_subject : MutationSubject;
  mr_outcome : MutationOutcome;
  mr_result_digest : string;
  mr_completed_at_unix_ms : N
}.

#[export] Instance MutationResult_eq_dec : EqDecision MutationResult.
Proof. solve_decision. Defined.

Inductive ReplayDisposition : Type := Fresh | ExactReplay (result : MutationResult).

#[export] Instance ReplayDisposition_eq_dec : EqDecision ReplayDisposition.
Proof. solve_decision. Defined.

Inductive MutationLedgerError : Type :=
  | LInvalidSubject (message : string)
  | LReplayConflict (message : string)
  | LOutcomeUnknown (message : string)
  | LIo (message : string).

Definition ledger_reason_code (e : MutationLedgerError) : string :=
  match e with
  | LInvalidSubject _ => "INVALID_MUTATION_SUBJECT"
  | LReplayConflict _ => "AUTHORITY_REPLAY_CONFLICT"
  | LOutcomeUnknown _ => "MUTATION_OUTCOME_UNKNOWN"
  | LIo _ => "MUTATION_LEDGER_IO_FAILED"
  end.

(** The [Display] text of [MutationLedgerError]. *)
Definition ledger_display (e : MutationLedgerError) : string :=
  match e with
  | LInvalidSubject m => "invalid mutation ledger subject: " +:+ m
  | LReplayConflict m => "mutation replay conflicts with durable state: " +:+ m
  | LOutcomeUnknown m => "mutation outcome is unknown: " +:+ m
  | LIo m => "mutation ledger I/O failed: " +:+ m
  end.

(** ** Subject validation *)

Definition lower_hex_64 (value : string) : bool :=
  (slen value =? 64) && chars_all is_lower_hex_char value.

Definition validate_id (value prefix : string) : result unit MutationLedgerError :=
  let? hex := ok_or (strip_prefix prefix value)
                (LInvalidSubject ("identifier must start with " +:+ prefix)) in
  fail_if (negb (lower_hex_64 hex))
    (LInvalidSubject "identifier must carry 64 lowercase hexadecimal characters").

Definition validate_digest (value : string) : result unit MutationLedgerError :=
  fail_if (negb (lower_hex_64 value))
    (LInvalidSubject "digest must contain 64 lowercase hexadecimal characters").

Definition validate_positive_generation (value : N) (name : string) : result unit MutationLedgerError :=
  fail_if ((value =? 0) || (MAX_SAFE_INTEGER <? value))
    (LInvalidSubject (name +:+ " must be a positive interoperable integer")).

(** [MutationSubject::validate] *)
Definition subject_validate (s : MutationSubject) : result unit MutationLedgerError :=
  validate_digest (ms_authority_envelope_digest s) ;?
  validate_digest (ms_authority_token_nonce s) ;?
  validate_id (ms_mutation_id s) "mut_" ;?
  validate_id (ms_reservation_id s) "rsv_" ;?
  validate_digest (ms_request_digest s) ;?
  validate_id (ms_repository_id s) "rep_" ;?
  validate_id (ms_workspace_id s) "wsp_" ;?
  validate_positive_generation (ms_workspace_generation s) "workspace_generation" ;?
  validate_digest (ms_workspace_nonce s) ;?
  validate_id (ms_attempt_id s) "atm_" ;?
  validate_positive_generation (ms_attempt_fence s) "attempt_fence" ;?
  validate_positive_generation (ms_authority_epoch s) "authority_epoch" ;?
  fail_if (MAX_SAFE_INTEGER <? ms_freeze_generation s)
    (LInvalidSubject "freeze_generation exceeds the interoperable integer range") ;?
  validate_digest (ms_permit_nonce s) ;?
  validate_digest (ms_permit_digest s).

(** ** Events and their encoding *)

Inductive LedgerEvent : Type :=
  | Reserved (schema_version : N) (subject : MutationSubject)
  | Settled (schema_version : N) (subject : MutationSubject) (outcome : MutationOutcome)
            (result_digest : string) (completed_at_unix_ms : N).

Class LedgerCodec : Type := {
  json_float : Type;
  json_finite : json_float → bool;
  (** [serde_json::Deserializer::from_str], with its final [end]. *)
  tokenize : string → result (Raw json_float) string;
  (** [serde_json::from_value::<LedgerEvent>] *)
  event_of_value : Value json_float → result LedgerEvent string;
  (** [serde_json::to_vec] *)
  encode_event : LedgerEvent → result bytes string
}.

Section Codec.
Context `{LedgerCodec}.

(** [decode_strict_json] *)
Definition decode_strict_json (line : string) : result (Value json_float) string :=
  let? raw := tokenize line in
  strict_value json_finite raw.

Definition decode_event (line : string) : result LedgerEvent string :=
  let? value := decode_strict_json line in
  event_of_value value.
End Codec.

(** The digest and time bounds a settlement is written with. *)
Definition event_wf (e : LedgerEvent) : Prop :=
  match e with
  | Reserved _ s => subject_validate s = Ok tt
  | Settled _ s _ d t => subject_validate s = Ok tt ∧ validate_digest d = Ok tt ∧ t <= MAX_SAFE_INTEGER
  end.

(** What the code relies on: an event's JSON is one nonempty line of UTF-8 that
    decodes to the event, no proper prefix of it is a document, and the
    events of validated subjects are short. *)
Class LedgerCodecLaws `{LedgerCodec} : Prop := {
  decode_encode_event e b :
    encode_event e = Ok b → ∃ s, from_utf8 b = Some s ∧ s ≠ "" ∧ decode_event s = Ok e;
  encode_one_line e b : encode_event e = Ok b → split_newline b = None;
  truncated_event e p q s :
    encode_event e = Ok (p ++ q) → q ≠ [] → from_utf8 p = Some s → is_ok (decode_event s) = false;
  encode_event_short e b : event_wf e → encode_event e = Ok b → blen b <= MAX_FRAME_BYTES
}.

(** ** Recovery status *)

Inductive IndeterminateMutationState : Type := InFlight | StateUnknown.

Record IndeterminateMutation : Type := {
  im_subject : MutationSubject;
  im_state : IndeterminateMutationState
}.

Record MutationRecoveryStatus : Type := {
  rs_indeterminate : list IndeterminateMutation;
  rs_corrupt_record_count : N
}.

Definition status_default : MutationRecoveryStatus :=
  {| rs_indeterminate := []; rs_corrupt_record_count := 0 |}.

Definition is_frozen (s : MutationRecoveryStatus) : bool :=
  negb (blen (rs_indeterminate s) =? 0) || negb (rs_corrupt_record_count s =? 0).

(** [MutationRecoveryStatus::require_writable] *)
Definition status_require_writable (s : MutationRecoveryStatus) : result unit MutationLedgerError :=
  fail_if (is_frozen s)
    (LOutcomeUnknown ("ledger recovery is frozen with " +:+ u64_to_string (blen (rs_indeterminate s))
      +:+ " indeterminate subject(s) and " +:+ u64_to_string (rs_corrupt_record_count s)
      +:+ " corrupt record(s)")).

Definition mark_indeterminate (s : MutationRecoveryStatus) (subject : MutationSubject)
    (state : IndeterminateMutationState) : MutationRecoveryStatus :=
  {| rs_indeterminate := rs_indeterminate s ++ [{| im_subject := subject; im_state := state |}];
     rs_corrupt_record_count := rs_corrupt_record_count s |}.

Definition mark_corrupt (s : MutationRecoveryStatus) : MutationRecoveryStatus :=
  {| rs_indeterminate := rs_indeterminate s;
     rs_corrupt_record_count := saturating_add (rs_corrupt_record_count s) 1 |}.

(** ** The ledger directory and one record *)

Inductive lfile : Type := LFile (contents : bytes) | LOther.
Abbreviation lfs := (gmap string lfile).

Definition outcome_unknown (path reason : string) : MutationLedgerError :=
  LOutcomeUnknown (path +:+ ": " +:+ reason).

Definition join (root name : string) : string := root +:+ "/" +:+ name.
Definition record_name (mutation_id : string) : string := mutation_id +:+ ".jsonl".

Record LoadedRecord : Type := {
  lr_subject : MutationSubject;
  lr_result : option MutationResult
}.

Section Load.
Context `{LedgerCodec}.

(** The frame loop of [load_record_with_access].  A third frame is refused, so
    four rounds always suffice. *)
Fixpoint load_events (fuel : nat) (r : list chunk) (events : list LedgerEvent)
    : result (list LedgerEvent) string :=
  match fuel with
  | O => Err "too many ledger events"
  | S fuel =>
      match read_frame r with
      | (Err e, _) => Err (frame_display e)
      | (Ok None, _) => Ok events
      | (Ok (Some line), r) =>
          fail_if (String.eqb line "") "empty ledger frame" ;?
          fail_if (blen events =? 2) "too many ledger events" ;?
          let? event := decode_event line in
          load_events fuel r (events ++ [event])
      end
  end.

(** The classification of the events of a record. *)
Definition classify_events (events : list LedgerEvent) : result LoadedRecord string :=
  match events with
  | Reserved schema_version subject :: rest =>
      fail_if (negb (schema_version =? LEDGER_SCHEMA_VERSION))
        "unsupported or impossible event sequence" ;?
      map_err ledger_display (subject_validate subject) ;?
      let? res :=
        match rest with
        | [] => Ok None
        | Settled schema_version settled_subject outcome result_digest completed_at_unix_ms :: _ =>
            fail_if (negb (schema_version =? LEDGER_SCHEMA_VERSION)
                     || negb (bool_decide (settled_subject = subject))
                     || (MAX_SAFE_INTEGER <? completed_at_unix_ms)
                     || negb (is_ok (validate_digest result_digest)))
              "invalid terminal settlement" ;?
            Ok (Some {| mr_subject := subject; mr_outcome := outcome;
                        mr_result_digest := result_digest;
                        mr_completed_at_unix_ms := completed_at_unix_ms |})
        | Reserved _ _ :: _ => Err "duplicate reservation"
        end in
      Ok {| lr_subject := subject; lr_result := res |}
  | _ => Err "missing initial reservation"
  end.

Definition parse_record (contents : bytes) : result LoadedRecord string :=
  fail_if (MAX_LEDGER_RECORD_BYTES <? blen contents) "ledger record exceeds total byte bound" ;?
  let? events := load_events 4 (reader_of contents) [] in
  classify_events events.

(** [load_record_with_access]; [open_error] is the reply of [open]. *)
Definition load_record (root : string) (fs : lfs) (open_error : option string) (name : string)
    : result LoadedRecord MutationLedgerError :=
  map_err (outcome_unknown (join root name))
    match open_error, fs !! name with
    | Some e, _ => Err e
    | None, None => Err "no such file"
    | None, Some LOther => Err "ledger record is not a regular file"
    | None, Some (LFile contents) => parse_record contents
    end.

(** One round of the scan of [scan_recovery]. *)
Definition scan_record (root : string) (fs : lfs) (open_error : string → option string)
    (status : MutationRecoveryStatus) (name : string) : MutationRecoveryStatus :=
  match load_record root fs (open_error name) name with
  | Err _ => mark_corrupt status
  | Ok record =>
      if negb (String.eqb name (record_name (ms_mutation_id (lr_subject record))))
      then mark_corrupt status
      else match lr_result record with
           | None => mark_indeterminate status (lr_subject record) InFlight
           | Some result =>
               if bool_decide (mr_outcome result = Unknown)
               then mark_indeterminate status (mr_subject result) StateUnknown
               else status
           end
  end.

(** [scan_recovery], on the names in the order [read_dir] lists them. *)
Definition scan_recovery (root : string) (fs : lfs) (open_error : string → option string)
    (listing : list string) : MutationRecoveryStatus :=
  let status := if MAX_LEDGER_RECORDS <? blen listing then mark_corrupt status_default
                else status_default in
  foldl (scan_record root fs open_error) status
    (merge_sort String.le (take (N.to_nat MAX_LEDGER_RECORDS) listing)).
End Load.

(** ** The ledger of one process *)

Record MutationLedger : Type := {
  ml_root : string;
  ml_owned_reservations : gset string;
  ml_recovery : MutationRecoveryStatus
}.

(** The replies of the file system to one call. *)
Record ledger_env : Type := {
  le_create_error : option string;
  le_open_error : option string;
  (** [write_all] stops after so many bytes *)
  le_torn : option (nat * string);
  le_sync_error : option string;
  le_dirsync_error : option string
}.

Definition set_recovery (l : MutationLedger) (s : MutationRecoveryStatus) : MutationLedger :=
  {| ml_root := ml_root l; ml_owned_reservations := ml_owned_reservations l; ml_recovery := s |}.
Definition set_owned (l : MutationLedger) (o : gset string) : MutationLedger :=
  {| ml_root := ml_root l; ml_owned_reservations := o; ml_recovery := ml_recovery l |}.

Definition require_same_subject (requested stored : MutationSubject) : result unit MutationLedgerError :=
  fail_if (negb (bool_decide (requested = stored)))
    (LReplayConflict (ms_mutation_id requested
      +:+ " is already bound to another reservation, operation, or request")).

Section Ledger.
Context `{LedgerCodec}.

(** [append_event]: the bytes that reach the file, and the result. *)
Definition append_event (env : ledger_env) (e : LedgerEvent) : bytes * result unit MutationLedgerError :=
  match encode_event e with
  | Err m => ([], Err (LIo ("encode ledger event: " +:+ m)))
  | Ok encoded =>
      let line := encoded ++ [newline] in
      match le_torn env with
      | Some (n, m) => (take n line, Err (LIo m))
      | None => (line, match le_sync_error env with Some m => Err (LIo m) | None => Ok tt end)
      end
  end.

(** [MutationLedger::open]; [prepared] is the reply of the directory checks. *)
Definition ledger_open (root : string) (prepared : result unit string) (fs : lfs)
    (open_error : string → option string) (listing : result (list string) string)
    : result MutationLedger MutationLedgerError :=
  map_err LIo prepared ;?
  let? names := map_err LIo listing in
  Ok {| ml_root := root; ml_owned_reservations := ∅;
        ml_recovery := scan_recovery root fs open_error names |}.

(** [MutationLedger::reserve] *)
Definition reserve (env : ledger_env) (fs : lfs) (l : MutationLedger) (subject : MutationSubject)
    : lfs * MutationLedger * result ReplayDisposition MutationLedgerError :=
  match status_require_writable (ml_recovery l) ;? subject_validate subject with
  | Err e => (fs, l, Err e)
  | Ok _ =>
      let name := record_name (ms_mutation_id subject) in
      let path := join (ml_root l) name in
      match le_create_error env, fs !! name with
      | Some e, _ => (fs, l, Err (LIo e))
      | None, None =>
          let '(written, appended) := append_event env (Reserved LEDGER_SCHEMA_VERSION subject) in
          let fs' := <[name := LFile written]> fs in
          let persist := appended ;?
            match le_dirsync_error env with Some m => Err (LIo m) | None => Ok tt end in
          match persist with
          | Err error =>
              (fs', set_recovery l (mark_corrupt (ml_recovery l)),
               Err (outcome_unknown path
                 ("reservation durability is ambiguous: " +:+ ledger_display error)))
          | Ok _ =>
              (fs', set_owned l ({[ ms_mutation_id subject ]} ∪ ml_owned_reservations l), Ok Fresh)
          end
      | None, Some _ =>
          match load_record (ml_root l) fs (le_open_error env) name with
          | Err e => (fs, set_recovery l (mark_corrupt (ml_recovery l)), Err e)
          | Ok state =>
              match require_same_subject subject (lr_subject state) with
              | Err e => (fs, l, Err e)
              | Ok _ =>
                  match lr_result state with
                  | Some result => (fs, l, Ok (ExactReplay result))
                  | None =>
                      (fs, set_recovery l (mark_indeterminate (ml_recovery l) (lr_subject state) InFlight),
                       Err (LOutcomeUnknown (ms_mutation_id subject +:+ " has no terminal settlement")))
                  end
              end
          end
      end
  end.

(** The checks of [settle] before any record is read. *)
Definition settle_guard (l : MutationLedger) (subject : MutationSubject) (result_digest : string)
    (completed_at_unix_ms : N) : result unit MutationLedgerError :=
  status_require_writable (ml_recovery l) ;?
  subject_validate subject ;?
  validate_digest result_digest ;?
  fail_if (MAX_SAFE_INTEGER <? completed_at_unix_ms)
    (LInvalidSubject "completion time exceeds the interoperable integer range").

(** [File::write_all] on a record opened with [APPEND]. *)
Definition append_bytes (fs : lfs) (name : string) (b : bytes) : lfs :=
  match fs !! name with
  | Some (LFile contents) => <[name := LFile (contents ++ b)]> fs
  | _ => fs
  end.

(** [MutationLedger::settle] *)
Definition settle (env : ledger_env) (fs : lfs) (l : MutationLedger) (subject : MutationSubject)
    (outcome : MutationOutcome) (result_digest : string) (completed_at_unix_ms : N)
    : lfs * MutationLedger * result ReplayDisposition MutationLedgerError :=
  match settle_guard l subject result_digest completed_at_unix_ms with
  | Err e => (fs, l, Err e)
  | Ok _ =>
      let name := record_name (ms_mutation_id subject) in
      let path := join (ml_root l) name in
      match load_record (ml_root l) fs (le_open_error env) name with
      | Err e => (fs, set_recovery l (mark_corrupt (ml_recovery l)), Err e)
      | Ok state =>
          match require_same_subject subject (lr_subject state) with
          | Err e => (fs, l, Err e)
          | Ok _ =>
              let requested := {| mr_subject := subject; mr_outcome := outcome;
                mr_result_digest := result_digest; mr_completed_at_unix_ms := completed_at_unix_ms |} in
              match lr_result state with
              | Some existing =>
                  if bool_decide (existing = requested) then (fs, l, Ok (ExactReplay existing))
                  else (fs, l, Err (LReplayConflict
                         (ms_mutation_id subject +:+ " already has a different terminal result")))
              | None =>
                  if negb (bool_decide (ms_mutation_id subject ∈ ml_owned_reservations l))
                  then (fs, l, Err (LOutcomeUnknown
                         (ms_mutation_id subject +:+ " was reserved by an earlier process")))
                  else
                    let l := set_owned l (ml_owned_reservations l ∖ {[ ms_mutation_id subject ]}) in
                    let '(written, appended) := append_event env
                      (Settled LEDGER_SCHEMA_VERSION subject outcome result_digest completed_at_unix_ms) in
                    let fs' := append_bytes fs name written in
                    match appended with
                    | Err error =>
                        (fs', set_recovery l (mark_corrupt (ml_recovery l)),
                         Err (outcome_unknown path
                           ("terminal settlement is not durably classified: "
                            +:+ ledger_display error)))
                    | Ok _ =>
                        (fs', if bool_decide (outcome = Unknown)
                              then set_recovery l (mark_indeterminate (ml_recovery l) subject StateUnknown)
                              else l, Ok Fresh)
                    end
              end
          end
      end
  end.
End Ledger.

(** ** Reading records back *)

#[local] Arguments String.eqb : simpl never.

Section Reading.
Context `{LedgerCodec}.

Lemma load_events_S fuel r events :
  load_events (S fuel) r events =
    match read_frame r with
    | (Err e, _) => Err (frame_display e)
    | (Ok None, _) => Ok events
    | (Ok (Some line), r) =>
        fail_if (String.eqb line "") "empty ledger frame" ;?
        fail_if (blen events =? 2) "too many ledger events" ;?
        let? event := decode_event line in
        load_events fuel r (events ++ [event])
    end.
Proof. done. Qed.

(** The four rounds are enough: more fuel changes nothing. *)
Lemma load_events_fuel fuel r events :
  (length events <= 2)%nat → (3 - length events <= fuel)%nat →
  load_events (S fuel) r events = load_events fuel r events.
Proof.
  revert r events. induction fuel as [|fuel IH]; intros r events Hl Hf; [lia|].
  rewrite !load_events_S. destruct (read_frame r) as [[[line|]|e] r']; [|done|done].
  destruct (String.eqb line ""); [done|]. simpl fail_if. simpl res_bind.
  destruct (blen events =? 2) eqn:E; [done|]. simpl fail_if. simpl res_bind.
  destruct (decode_event line) as [event|]; [|done]. cbn [res_bind].
  apply N.eqb_neq in E. unfold blen in E. apply IH; rewrite length_app; simpl; lia.
Qed.

Lemma frame_spec_line b rest :
  split_newline b = None → blen b <= MAX_FRAME_BYTES → frame_spec [] (b ++ newline :: rest) = finish b.
Proof.
  intros Hb Hl. unfold frame_spec. rewrite split_newline_line by done. simpl.
  apply N.ltb_ge in Hl. rewrite Hl. by destruct b.
Qed.

Lemma frame_spec_last b :
  split_newline b = None → b ≠ [] → blen b <= MAX_FRAME_BYTES → frame_spec [] b = finish b.
Proof.
  intros Hb Hne Hl. unfold frame_spec. rewrite Hb. simpl. apply N.ltb_ge in Hl. rewrite Hl. by destruct b.
Qed.

Lemma after_line_app b rest : split_newline b = None → after_line (b ++ newline :: rest) = rest.
Proof. intros Hb. unfold after_line. by rewrite split_newline_line. Qed.

Lemma after_line_last b : split_newline b = None → after_line b = [].
Proof. intros Hb. unfold after_line. by rewrite Hb. Qed.

Lemma load_events_eof fuel r events : reads r [] → load_events (S fuel) r events = Ok events.
Proof.
  intros Hr. rewrite load_events_S. destruct (read_frame_spec r [] Hr) as [Hf _].
  destruct (read_frame r) as [res r']. simpl in Hf. by subst res.
Qed.
End Reading.

Section Parsing.
Context `{LedgerCodecLaws}.

(** A frame holding the JSON of [e], with its line feed or at the end of the
    file. *)
Lemma load_events_frame fuel r events e b s :
  encode_event e = Ok b → blen b <= MAX_FRAME_BYTES → (length events < 2)%nat →
  (s = b ∨ ∃ rest, s = b ++ newline :: rest) → reads r s →
  ∃ r', reads r' (after_line s) ∧ load_events (S fuel) r events = load_events fuel r' (events ++ [e]).
Proof.
  intros He Hl Hev Hs Hr. pose proof (encode_one_line e b He) as Hb.
  destruct (decode_encode_event e b He) as (str & Hu & Hne & Hd).
  assert (b ≠ []) as Hbne.
  { intros ->. injection Hu as <-. by apply Hne. }
  destruct (read_frame_spec r s Hr) as [Hf Hrest].
  assert (fst (read_frame r) = Ok (Some str)) as Hfst.
  { rewrite Hf. destruct Hs as [->|[rest ->]];
      rewrite ?frame_spec_last, ?frame_spec_line by done; unfold finish; by rewrite Hu. }
  rewrite load_events_S. destruct (read_frame r) as [res r']. simpl in *. subst res.
  exists r'. split; [by eapply Hrest|]. rewrite Hfst. apply String.eqb_neq in Hne. rewrite Hne. simpl.
  assert (blen events =? 2 = false) as -> by (bools; unfold blen; lia). simpl. by rewrite Hd.
Qed.

(** A torn frame never decodes. *)
Lemma load_events_torn fuel r events e p q :
  encode_event e = Ok (p ++ q) → p ≠ [] → q ≠ [] → blen (p ++ q) <= MAX_FRAME_BYTES → reads r p →
  is_ok (load_events (S fuel) r events) = false.
Proof.
  intros He Hp Hq Hl Hr. pose proof (encode_one_line e _ He) as Hb.
  assert (split_newline p = None) as Hpn.
  { rewrite split_newline_app in Hb. by destruct (split_newline p) as [[]|]. }
  destruct (read_frame_spec r p Hr) as [Hf _].
  rewrite frame_spec_last in Hf; [|done|done|rewrite blen_app in Hl; lia].
  rewrite load_events_S. destruct (read_frame r) as [res r']. simpl in Hf. subst res.
  unfold finish. destruct (from_utf8 p) as [s|] eqn:Hu; [|done].
  pose proof (truncated_event e p q s He Hq Hu) as Ht.
  destruct (String.eqb s ""); [done|]. simpl. destruct (blen events =? 2); [done|]. simpl.
  by destruct (decode_event s).
Qed.

(** The line of an event. *)
Definition event_line (e : LedgerEvent) (b : bytes) : Prop :=
  ∃ enc, encode_event e = Ok enc ∧ b = enc ++ [newline].

Definition reserved (s : MutationSubject) : LedgerEvent := Reserved LEDGER_SCHEMA_VERSION s.
Definition settled (r : MutationResult) : LedgerEvent :=
  Settled LEDGER_SCHEMA_VERSION (mr_subject r) (mr_outcome r) (mr_result_digest r)
    (mr_completed_at_unix_ms r).

Definition result_wf (r : MutationResult) : Prop := event_wf (settled r).

Lemma classify_reserved s :
  subject_validate s = Ok tt → classify_events [reserved s] = Ok {| lr_subject := s; lr_result := None |}.
Proof. intros Hs. simpl. by rewrite Hs. Qed.

Lemma classify_settled r :
  result_wf r →
  classify_events [reserved (mr_subject r); settled r]
  = Ok {| lr_subject := mr_subject r; lr_result := Some r |}.
Proof.
  destruct r as [s o d t]. intros (Hs & Hd & Ht). simpl in *. rewrite Hs. simpl.
  rewrite bool_decide_eq_true_2 by done. simpl. apply N.ltb_ge in Ht. rewrite Ht, Hd. done.
Qed.

Lemma event_line_small e b : event_wf e → event_line e b → blen b <= MAX_FRAME_BYTES + 1.
Proof.
  intros Hwf (enc & He & ->). pose proof (encode_event_short e enc Hwf He).
  rewrite blen_app. change (blen [newline]) with 1. lia.
Qed.

Lemma record_small (l1 p : bytes) :
  blen l1 <= MAX_FRAME_BYTES + 1 → blen p <= MAX_FRAME_BYTES + 1 →
  MAX_LEDGER_RECORD_BYTES <? blen (l1 ++ p) = false.
Proof. intros H1 H2. rewrite blen_app. unfold MAX_LEDGER_RECORD_BYTES. bools. lia. Qed.

(** A durable reservation. *)
Lemma parse_reserved s b :
  subject_validate s = Ok tt → event_line (reserved s) b →
  parse_record b = Ok {| lr_subject := s; lr_result := None |}.
Proof.
  intros Hs Hb. pose proof (event_line_small (reserved s) b Hs Hb) as Hsmall.
  destruct Hb as (enc & He & ->). unfold parse_record.
  assert (MAX_LEDGER_RECORD_BYTES <? blen (enc ++ [newline]) = false) as ->
    by (bools; unfold MAX_LEDGER_RECORD_BYTES; lia). cbn [fail_if res_bind].
  destruct (load_events_frame 3 (reader_of (enc ++ [newline])) [] (reserved s) enc (enc ++ [newline]))
    as (r' & Hr' & Hload); [done|by apply (encode_event_short (reserved s))|simpl; lia|by right; exists []
      |apply reads_reader_of|].
  rewrite Hload. rewrite after_line_app in Hr' by (by eapply encode_one_line).
  rewrite load_events_eof by done. simpl. by rewrite Hs.
Qed.

(** A durable reservation followed by the first bytes of its settlement: it is
    the whole settlement, or nothing of it, or unreadable. *)
Lemma parse_settling s r b p q :
  subject_validate s = Ok tt → result_wf r → mr_subject r = s →
  event_line (reserved s) b → event_line (settled r) (p ++ q) →
  parse_record (b ++ p) =
    (if decide (p = []) then Ok {| lr_subject := s; lr_result := None |}
     else if decide (length q <= 1)%nat then Ok {| lr_subject := s; lr_result := Some r |}
     else parse_record (b ++ p)) ∧
  (p ≠ [] → (1 < length q)%nat → is_ok (parse_record (b ++ p)) = false).
Proof.
  intros Hs Hr <- Hb Hpq. pose proof (event_line_small (reserved (mr_subject r)) b Hs Hb) as Hsb.
  pose proof (event_line_small _ _ Hr Hpq) as Hspq.
  destruct (decide (p = [])) as [->|Hp].
  { rewrite app_nil_r. split; [by apply parse_reserved|done]. }
  destruct Hb as (enc & He & ->). destruct Hpq as (enc2 & He2 & Hpq).
  unfold parse_record.
  rewrite record_small by (rewrite ?blen_app in *; lia). cbn [fail_if res_bind].
  rewrite <- app_assoc. simpl app.
  destruct (load_events_frame 3 (reader_of (enc ++ newline :: p)) [] (reserved (mr_subject r)) enc
              (enc ++ newline :: p))
    as (r' & Hr' & Hload); [done|by apply (encode_event_short (reserved (mr_subject r)))|simpl; lia|by right; exists p
      |apply reads_reader_of|].
  rewrite after_line_app in Hr' by (by eapply encode_one_line). rewrite Hload. cbn [app].
  destruct (decide (length q <= 1)%nat) as [Hq|Hq].
  - split; [|intros; lia].
    assert (p = enc2 ∨ p = enc2 ++ newline :: []) as Hpe.
    { destruct q as [|y [|z q]]; simpl in Hq; [|..|lia].
      - rewrite app_nil_r in Hpq. by right.
      - apply app_inj_tail in Hpq as [-> _]. by left. }
    assert (split_newline enc2 = None) as Hn2 by (by eapply encode_one_line).
    destruct (load_events_frame 2 r' [reserved (mr_subject r)] (settled r) enc2 p)
      as (r2 & Hr2 & Hload2); [done|by apply (encode_event_short (settled r))|simpl; lia
        |destruct Hpe as [Hpe|Hpe]; rewrite Hpe; [by left|right; by exists []]|done|].
    rewrite Hload2. assert (after_line p = []) as Ha.
    { destruct Hpe as [Hpe|Hpe]; rewrite Hpe; [by apply after_line_last|by apply after_line_app]. }
    rewrite Ha in Hr2. rewrite load_events_eof by done. by apply classify_settled.
  - split; [done|]. intros _ _.
    set (q' := removelast q) in *.
    rewrite (app_removelast_last (l := q) newline) in Hpq by (by intros ->; simpl in Hq; lia).
    fold q' in Hpq. rewrite app_assoc in Hpq. apply app_inj_tail in Hpq as [Henc _].
    assert (q' ≠ []) as Hq'.
    { intros Hq0. destruct q as [|y [|z' q0]]; simpl in Hq; [lia|lia|]. unfold q' in Hq0. simpl in Hq0. by destruct q0. }
    pose proof (load_events_torn 2 r' [reserved (mr_subject r)] (settled r) p q') as Ht.
    rewrite Henc in Ht. specialize (Ht He2 Hp Hq').
    specialize (Ht ltac:(by apply (encode_event_short (settled r))) Hr').
    by destruct (load_events 3 r' [reserved (mr_subject r)]).
Qed.
End Parsing.

(** ** Any number of processes over one ledger directory *)

Record ledger_sys : Type := {
  sys_fs : lfs;
  sys_procs : gmap nat MutationLedger
}.

Definition ledger_init : ledger_sys := {| sys_fs := ∅; sys_procs := ∅ |}.

Inductive ledger_output : Type :=
  | OutOpen (pid : nat) (recovery : MutationRecoveryStatus)
  | OutReserve (pid : nat) (subject : MutationSubject)
      (r : result ReplayDisposition MutationLedgerError)
  | OutSettle (pid : nat) (requested : MutationResult)
      (r : result ReplayDisposition MutationLedgerError).

Section System.
Context `{LedgerCodec}.

(** One call of one process; the replies of the file system are arbitrary.  A
    process that stops is one that makes no further call, and its number may be
    opened again. *)
Inductive ledger_step : ledger_sys → ledger_output → ledger_sys → Prop :=
  | step_open sys pid root open_error listing l :
      listing ≡ₚ elements (dom (sys_fs sys)) →
      ledger_open root (Ok tt) (sys_fs sys) open_error (Ok listing) = Ok l →
      ledger_step sys (OutOpen pid (ml_recovery l))
        {| sys_fs := sys_fs sys; sys_procs := <[pid := l]> (sys_procs sys) |}
  | step_reserve sys pid l env subject fs' l' r :
      sys_procs sys !! pid = Some l →
      reserve env (sys_fs sys) l subject = (fs', l', r) →
      ledger_step sys (OutReserve pid subject r)
        {| sys_fs := fs'; sys_procs := <[pid := l']> (sys_procs sys) |}
  | step_settle sys pid l env requested fs' l' r :
      sys_procs sys !! pid = Some l →
      settle env (sys_fs sys) l (mr_subject requested) (mr_outcome requested)
        (mr_result_digest requested) (mr_completed_at_unix_ms requested) = (fs', l', r) →
      ledger_step sys (OutSettle pid requested r)
        {| sys_fs := fs'; sys_procs := <[pid := l']> (sys_procs sys) |}.

Inductive ledger_run : ledger_sys → list ledger_output → ledger_sys → Prop :=
  | run_nil sys : ledger_run sys [] sys
  | run_snoc sys outs mid out sys' :
      ledger_run sys outs mid → ledger_step mid out sys' → ledger_run sys (outs ++ [out]) sys'.

(** The terminal result an output reports for a mutation. *)
Definition reports (out : ledger_output) (r : MutationResult) : Prop :=
  match out with
  | OutReserve _ _ (Ok (ExactReplay r')) => r = r'
  | OutSettle _ requested (Ok Fresh) => r = requested
  | OutSettle _ _ (Ok (ExactReplay r')) => r = r'
  | _ => False
  end.

(** The record of [mutation_id] holds terminal result [r]. *)
Definition terminal (fs : lfs) (mutation_id : string) (r : MutationResult) : Prop :=
  ∃ contents, fs !! record_name mutation_id = Some (LFile contents) ∧
    parse_record contents = Ok {| lr_subject := mr_subject r; lr_result := Some r |}.

(** A process owns a reservation: the record is exactly the reservation. *)
Definition owns (l : MutationLedger) (fs : lfs) (id : string) : Prop :=
  ∃ s b, ms_mutation_id s = id ∧ subject_validate s = Ok tt ∧ event_line (reserved s) b ∧
    fs !! record_name id = Some (LFile b).

Record ledger_inv (sys : ledger_sys) : Prop := {
  li_owns : ∀ pid l id, sys_procs sys !! pid = Some l → id ∈ ml_owned_reservations l →
    owns l (sys_fs sys) id;
  li_exclusive : ∀ pid pid' l l' id, sys_procs sys !! pid = Some l → sys_procs sys !! pid' = Some l' →
    id ∈ ml_owned_reservations l → id ∈ ml_owned_reservations l' → pid = pid'
}.
End System.

#[export] Instance record_name_inj : Inj (=) (=) record_name.
Proof. intros x y Hxy. by apply string_app_inj_len_r in Hxy as [? _]. Qed.

Section Transitions.
Context `{LedgerCodecLaws}.

Lemma classify_subject events rec :
  classify_events events = Ok rec → ∀ r, lr_result rec = Some r → mr_subject r = lr_subject rec.
Proof.
  destruct events as [|[v s|] rest]; [done| |done]. simpl. intros Hok r Hr.
  apply res_bind_Ok in Hok as ([] & _ & Hok). apply res_bind_Ok in Hok as ([] & _ & Hok).
  apply res_bind_Ok in Hok as (res & Hres & Hok). injection Hok as <-. simpl in *. subst res.
  destruct rest as [|[|v2 s2 o d t] rest]; [done|done|].
  apply res_bind_Ok in Hres as ([] & _ & Hres). by injection Hres as <-.
Qed.

Lemma parse_subject contents rec r :
  parse_record contents = Ok rec → lr_result rec = Some r → mr_subject r = lr_subject rec.
Proof.
  unfold parse_record. intros Hok. apply res_bind_Ok in Hok as ([] & _ & Hok).
  apply res_bind_Ok in Hok as (ev & _ & Hok). by eapply classify_subject.
Qed.

Lemma load_record_Ok root fs oe name rec :
  load_record root fs oe name = Ok rec →
  ∃ contents, fs !! name = Some (LFile contents) ∧ parse_record contents = Ok rec.
Proof.
  unfold load_record. rewrite map_err_Ok. destruct oe; [done|].
  destruct (fs !! name) as [[c|]|]; [|done..]. eauto.
Qed.

Lemma append_event_written env e w r :
  append_event env e = (w, r) →
  (w = [] ∨ ∃ rest, event_line e (w ++ rest)) ∧ (r = Ok tt → event_line e w).
Proof.
  unfold append_event. destruct (encode_event e) as [enc|] eqn:Henc.
  - destruct (le_torn env) as [[n m]|]; intros [= <- <-]; (split; [right|]).
    + exists (drop n (enc ++ [newline])). rewrite take_drop. by exists enc.
    + done.
    + exists []. rewrite app_nil_r. by exists enc.
    + intros _. by exists enc.
  - intros [= <- <-]. split; [by left|done].
Qed.

(** *** What one [reserve] does *)

Lemma reserve_cases env fs l s fs' l' r :
  reserve env fs l s = (fs', l', r) →
  let name := record_name (ms_mutation_id s) in
  (* refused, or answered from the record: the directory is untouched *)
  (fs' = fs ∧ ml_owned_reservations l' = ml_owned_reservations l ∧ r ≠ Ok Fresh ∧
   ∀ res, r = Ok (ExactReplay res) → terminal fs (ms_mutation_id s) res ∧ mr_subject res = s) ∨
  (* a new record *)
  (fs !! name = None ∧ subject_validate s = Ok tt ∧ is_frozen (ml_recovery l) = false ∧
   ∃ written, fs' = <[name := LFile written]> fs ∧
     ((r = Ok Fresh ∧ event_line (reserved s) written ∧ is_frozen (ml_recovery l') = false ∧
       ml_owned_reservations l' = {[ ms_mutation_id s ]} ∪ ml_owned_reservations l) ∨
      (is_ok r = false ∧ is_frozen (ml_recovery l') = true ∧
       ml_owned_reservations l' = ml_owned_reservations l ∧
       (written = [] ∨ ∃ rest, event_line (reserved s) (written ++ rest))))).
Proof.
  unfold reserve. intros Hr.
  destruct (status_require_writable (ml_recovery l) ;? subject_validate s) as [[]|e] eqn:Hg.
  2: { injection Hr as <- <- <-. by left. }
  apply res_bind_Ok in Hg as ([] & Hw & Hv). unfold status_require_writable in Hw.
  apply fail_if_Ok in Hw. destruct (le_create_error env) as [e|].
  { injection Hr as <- <- <-. by left. }
  destruct (fs !! record_name (ms_mutation_id s)) as [f|] eqn:Hf.
  - left. destruct (load_record _ fs _ _) as [state|e] eqn:Hl; [|by injection Hr as <- <- <-].
    destruct (require_same_subject s (lr_subject state)) as [[]|e] eqn:Hsame; [|by injection Hr as <- <- <-].
    unfold require_same_subject in Hsame. apply fail_if_Ok in Hsame. bools.
    destruct (lr_result state) as [res|] eqn:Hres; injection Hr as <- <- <-; [|done].
    split; [done|]. split; [done|]. split; [done|]. intros res' [= <-].
    apply load_record_Ok in Hl as (c & Hc & Hp). pose proof (parse_subject _ _ _ Hp Hres) as Hsub.
    split; [|congruence]. exists c. split; [done|]. rewrite Hp. f_equal. destruct state; simpl in *.
    congruence.
  - right. destruct (append_event env _) as [written appended] eqn:Ha.
    split; [done|]. split; [done|]. split; [done|]. exists written.
    destruct (appended ;? _) as [[]|m] eqn:Hper; injection Hr as <- <- <-; (split; [done|]).
    + left. split_and!; try done. apply res_bind_Ok in Hper as ([] & -> & _).
      by eapply append_event_written.
    + right. apply append_event_written in Ha as [Ha _]. split_and!; try done. simpl. unfold is_frozen. simpl. apply orb_true_iff. right.
      unfold saturating_add. apply negb_true_iff, N.eqb_neq. unfold u64_max. lia.
Qed.

(** *** What one [settle] does *)

Lemma settle_cases env fs l req fs' l' r :
  settle env fs l (mr_subject req) (mr_outcome req) (mr_result_digest req)
    (mr_completed_at_unix_ms req) = (fs', l', r) →
  let id := ms_mutation_id (mr_subject req) in
  (fs' = fs ∧ ml_owned_reservations l' = ml_owned_reservations l ∧ r ≠ Ok Fresh ∧
   ∀ res, r = Ok (ExactReplay res) → terminal fs id res ∧ res = req) ∨
  (id ∈ ml_owned_reservations l ∧ result_wf req ∧
   ml_owned_reservations l' = ml_owned_reservations l ∖ {[ id ]} ∧
   ∃ contents written, fs !! record_name id = Some (LFile contents) ∧
     parse_record contents = Ok {| lr_subject := mr_subject req; lr_result := None |} ∧
     fs' = <[record_name id := LFile (contents ++ written)]> fs ∧
     ((r = Ok Fresh ∧ event_line (settled req) written ∧
       is_frozen (ml_recovery l') = bool_decide (mr_outcome req = Unknown)) ∨
      (is_ok r = false ∧ is_frozen (ml_recovery l') = true ∧
       (written = [] ∨ ∃ rest, event_line (settled req) (written ++ rest))))).
Proof.
  unfold settle. intros Hr.
  destruct (settle_guard _ _ _ _) as [[]|e] eqn:Hg.
  2: { injection Hr as <- <- <-. by left. }
  unfold settle_guard in Hg. apply res_bind_Ok in Hg as ([] & Hw & Hg).
  apply res_bind_Ok in Hg as ([] & Hv & Hg). apply res_bind_Ok in Hg as ([] & Hd & Ht).
  unfold status_require_writable in Hw. apply fail_if_Ok in Hw. apply fail_if_Ok, N.ltb_ge in Ht.
  destruct (load_record _ fs _ _) as [state|e] eqn:Hl; [|injection Hr as <- <- <-; by left].
  destruct (require_same_subject _ (lr_subject state)) as [[]|e] eqn:Hsame;
    [|injection Hr as <- <- <-; by left].
  unfold require_same_subject in Hsame. apply fail_if_Ok in Hsame. bools.
  apply load_record_Ok in Hl as (c & Hc & Hp).
  destruct req as [s o d t]. simpl in *.
  destruct (lr_result state) as [res|] eqn:Hres.
  - left. pose proof (parse_subject _ _ _ Hp Hres) as Hsub.
    case_bool_decide as Heq; injection Hr as <- <- <-; [|done].
    split; [done|]. split; [done|]. split; [done|]. intros res' [= <-]. split; [|done].
    exists c. split; [done|]. rewrite Hp. f_equal. destruct state; simpl in *. congruence.
  - destruct (decide (ms_mutation_id s ∈ ml_owned_reservations l)) as [Hown|Hown].
    2: { rewrite bool_decide_eq_false_2 in Hr by done. injection Hr as <- <- <-. by left. }
    rewrite bool_decide_eq_true_2 in Hr by done. simpl in Hr. right.
    destruct (append_event env _) as [written appended] eqn:Ha.
    unfold append_bytes in Hr. rewrite Hc in Hr.
    split; [done|]. split; [done|].
    assert (parse_record c = Ok {| lr_subject := s; lr_result := None |}) as Hp'.
    { rewrite Hp. f_equal. destruct state; simpl in *. congruence. }
    apply append_event_written in Ha as [Htorn Hline].
    destruct appended as [[]|m]; injection Hr as <- <- <-.
    + split; [by case_bool_decide|]. exists c, written. split_and!; try done. left.
      split; [done|]. split; [by apply Hline|]. case_bool_decide; simpl; [|done].
      unfold is_frozen. simpl. unfold blen. rewrite length_app. simpl. apply orb_true_iff. left.
      apply negb_true_iff, N.eqb_neq. lia.
    + split; [done|]. exists c, written. split_and!; try done. right. split_and!; try done.
      unfold is_frozen. simpl. apply orb_true_iff. right.
      unfold saturating_add. apply negb_true_iff, N.eqb_neq. unfold u64_max. lia.
Qed.
End Transitions.

Section Invariants.
Context `{LedgerCodecLaws}.

Lemma terminal_fun fs id r r' : terminal fs id r → terminal fs id r' → r = r'.
Proof. intros (c & Hc & Hp) (c' & Hc' & Hp'). simplify_eq. rewrite Hp in Hp'. by injection Hp' as _ ->. Qed.

Lemma owned_parse l fs id c :
  owns l fs id → fs !! record_name id = Some (LFile c) →
  ∃ s, ms_mutation_id s = id ∧ subject_validate s = Ok tt ∧ event_line (reserved s) c ∧
    parse_record c = Ok {| lr_subject := s; lr_result := None |}.
Proof.
  intros (s & b & Hid & Hv & Hl & Hf) Hc. simplify_eq. exists s. split_and!; try done.
  by apply parse_reserved.
Qed.

Lemma owns_other l fs id name f :
  owns l fs id → record_name id ≠ name → owns l (<[name := f]> fs) id.
Proof.
  intros (s & b & Hid & Hv & Hl & Hf) Hne. exists s, b. split_and!; try done.
  by rewrite lookup_insert_ne.
Qed.

(** Replacing one process whose reservations only shrink, over the same
    directory, keeps the invariant. *)
Lemma inv_replace sys pid l l' :
  ledger_inv sys → (∀ l0, sys_procs sys !! pid = Some l0 → l0 = l) →
  ml_owned_reservations l' ⊆ (if sys_procs sys !! pid then ml_owned_reservations l else ∅) →
  ledger_inv {| sys_fs := sys_fs sys; sys_procs := <[pid := l']> (sys_procs sys) |}.
Proof.
  intros [Ho He] Hl Hsub. constructor; simpl.
  - intros p k id Hk Hid. apply lookup_insert_Some in Hk as [[<- <-]|[Hne Hk]]; [|by eapply Ho].
    apply Hsub in Hid. destruct (sys_procs sys !! pid) as [l0|] eqn:E; [|set_solver].
    rewrite <- (Hl l0 eq_refl) in Hid. by apply (Ho _ _ _ E).
  - intros p p' k k' id Hk Hk' Hid Hid'.
    apply lookup_insert_Some in Hk as [[<- <-]|[Hne Hk]];
      apply lookup_insert_Some in Hk' as [[<- <-]|[Hne' Hk']]; [done|..|by eapply He].
    + apply Hsub in Hid. destruct (sys_procs sys !! pid) as [l0|] eqn:E; [|set_solver].
      rewrite <- (Hl l0 eq_refl) in Hid. by eapply He.
    + apply Hsub in Hid'. destruct (sys_procs sys !! pid) as [l0|] eqn:E; [|set_solver].
      rewrite <- (Hl l0 eq_refl) in Hid'. by eapply He.
Qed.

Lemma reserve_inv sys pid l env s fs' l' r :
  ledger_inv sys → sys_procs sys !! pid = Some l → reserve env (sys_fs sys) l s = (fs', l', r) →
  ledger_inv {| sys_fs := fs'; sys_procs := <[pid := l']> (sys_procs sys) |}.
Proof.
  intros Hinv Hl Hr. apply reserve_cases in Hr as [(-> & Hown & _)|(Hnew & Hv & _ & w & -> & Hcases)].
  - apply (inv_replace _ _ l); [done|congruence|]. rewrite Hl, Hown. done.
  - destruct Hinv as [Ho He].
    assert (∀ p k id, sys_procs sys !! p = Some k → id ∈ ml_owned_reservations k →
              record_name id ≠ record_name (ms_mutation_id s)) as Hdiff.
    { intros p k id Hk Hid Heq. destruct (Ho _ _ _ Hk Hid) as (? & ? & _ & _ & _ & Hf). congruence. }
    assert (∀ id, id ∈ ml_owned_reservations l' → id ∈ ml_owned_reservations l ∨
              (id = ms_mutation_id s ∧ event_line (reserved s) w)) as Hl'.
    { intros id Hid. destruct Hcases as [(_ & Hline & _ & Heq)|(_ & _ & Heq & _)]; rewrite Heq in Hid; set_solver. }
    constructor; simpl.
    + intros p k id Hk Hid. apply lookup_insert_Some in Hk as [[<- <-]|[Hne Hk]].
      * destruct (Hl' id Hid) as [Hid'|[-> Hline]].
        -- destruct (Ho _ _ _ Hl Hid') as (s0 & b & ? & ? & ? & ?). exists s0, b. split_and!; try done.
           rewrite lookup_insert_ne; [done|]. apply not_eq_sym. by eapply Hdiff.
        -- exists s, w. split_and!; try done. by rewrite lookup_insert_eq.
      * apply owns_other; [by eapply Ho|by eapply Hdiff].
    + intros p p' k k' id Hk Hk' Hid Hid'.
      apply lookup_insert_Some in Hk as [[<- <-]|[Hne Hk]];
        apply lookup_insert_Some in Hk' as [[<- <-]|[Hne' Hk']]; [done|..|by eapply He].
      * destruct (Hl' id Hid) as [Hi|[-> _]]; [by eapply He|]. by destruct (Hdiff _ _ _ Hk' Hid').
      * destruct (Hl' id Hid') as [Hi|[-> _]]; [by eapply He|]. by destruct (Hdiff _ _ _ Hk Hid).
Qed.

Lemma settle_inv sys pid l env req fs' l' r :
  ledger_inv sys → sys_procs sys !! pid = Some l →
  settle env (sys_fs sys) l (mr_subject req) (mr_outcome req) (mr_result_digest req)
    (mr_completed_at_unix_ms req) = (fs', l', r) →
  ledger_inv {| sys_fs := fs'; sys_procs := <[pid := l']> (sys_procs sys) |}.
Proof.
  intros Hinv Hl Hr. apply settle_cases in Hr as [(-> & Hown & _)|(Hid & _ & Hown & c & w & Hc & _ & -> & _)].
  - apply (inv_replace _ _ l); [done|congruence|]. rewrite Hl, Hown. done.
  - assert (ledger_inv {| sys_fs := sys_fs sys; sys_procs := <[pid := l']> (sys_procs sys) |}) as Hinv'.
    { apply (inv_replace _ _ l); [done|congruence|]. rewrite Hl, Hown. set_solver. }
    destruct Hinv' as [Ho He]. constructor; simpl; [|exact He].
    intros p k id0 Hk Hid0. apply owns_other; [by eapply Ho|]. intros Heq%record_name_inj. subst id0.
    apply lookup_insert_Some in Hk as [[<- <-]|[Hne Hk]].
    + rewrite Hown in Hid0. set_solver.
    + destruct Hinv as [_ Hex]. by destruct (Hne (Hex _ _ _ _ _ Hl Hk Hid Hid0)).
Qed.

Lemma step_inv sys out sys' : ledger_inv sys → ledger_step sys out sys' → ledger_inv sys'.
Proof.
  intros Hinv Hs. destruct Hs.
  - eapply (inv_replace _ _ (default l (sys_procs sys !! pid))); [done|by intros ? ->|].
    unfold ledger_open in *. simpl in *. simplify_eq. simpl. set_solver.
  - by eapply reserve_inv.
  - by eapply settle_inv.
Qed.

Lemma init_inv : ledger_inv ledger_init.
Proof. constructor; simpl; intros *; by rewrite lookup_empty. Qed.

(** Records are never removed, and a terminal record never changes. *)
Lemma step_keeps sys out sys' :
  ledger_step sys out sys' →
  (∀ name, is_Some (sys_fs sys !! name) → is_Some (sys_fs sys' !! name)) ∧
  (∀ id r, terminal (sys_fs sys) id r → terminal (sys_fs sys') id r).
Proof.
  intros Hs. destruct Hs as [sys pid root oe listing l Hp Hop|sys pid l env s fs' l' r Hl Hr|sys pid l env req fs' l' r Hl Hr]; simpl.
  - done.
  - apply reserve_cases in Hr as [(-> & _)|(Hnew & _ & _ & w & -> & _)]; [done|]. split.
    + intros name Hn. destruct (decide (name = record_name (ms_mutation_id s))) as [->|Hne];
        [by rewrite lookup_insert_eq|by rewrite lookup_insert_ne].
    + intros id res (c & Hc & Hpr). exists c. split; [|done]. rewrite lookup_insert_ne; [done|congruence].
  - apply settle_cases in Hr as [(-> & _)|(_ & _ & _ & c & w & Hc & Hpc & -> & _)]; [done|]. split.
    + intros name Hn. destruct (decide (name = record_name (ms_mutation_id (mr_subject req)))) as [->|Hne];
        [by rewrite lookup_insert_eq|by rewrite lookup_insert_ne].
    + intros id res (c' & Hc' & Hpr). exists c'. split; [|done]. rewrite lookup_insert_ne; [done|].
      intros Heq. rewrite Heq in Hc. simplify_eq. rewrite Hpr in Hpc. congruence.
Qed.

(** A settlement of an owned reservation that succeeds is new, and durable. *)
Lemma settle_owned l fs env req fs' l' x :
  owns l fs (ms_mutation_id (mr_subject req)) →
  settle env fs l (mr_subject req) (mr_outcome req) (mr_result_digest req)
    (mr_completed_at_unix_ms req) = (fs', l', Ok x) →
  x = Fresh ∧ terminal fs' (ms_mutation_id (mr_subject req)) req ∧
  is_frozen (ml_recovery l') = bool_decide (mr_outcome req = Unknown).
Proof.
  intros Hown Hr. pose proof Hown as (s0 & b0 & _ & _ & _ & Hb0).
  destruct (owned_parse l _ _ b0 Hown Hb0) as (s & Hs & Hv & Hb & Hps).
  apply settle_cases in Hr as [(-> & _ & Hnf & Ht)|(Hid & Hwf & _ & c & w & Hc & Hpc & -> & Hcases)].
  - destruct x as [|res]; [done|]. destruct (Ht _ eq_refl) as [(c & Hc & Hpc) _]. simplify_eq.
    rewrite Hps in Hpc. by injection Hpc.
  - simplify_eq. destruct Hcases as [([= ->] & Hline & Hfr)|(Hbad & _)]; [|done].
    split; [done|]. split; [|done]. exists (c ++ w). split; [by rewrite lookup_insert_eq|].
    rewrite Hpc in Hps. injection Hps as Hsub.
    destruct (parse_settling s req c w []) as [Hps _]; try done.
    { by rewrite app_nil_r. }
    rewrite Hps. destruct (decide (w = [])) as [->|].
    { destruct Hline as (enc & _ & Hnil). by destruct enc. }
    simpl. by rewrite Hsub.
Qed.

(** What a call reports is on disk when it returns. *)
Lemma step_reports sys out sys' res :
  ledger_inv sys → ledger_step sys out sys' → reports out res →
  terminal (sys_fs sys') (ms_mutation_id (mr_subject res)) res.
Proof.
  intros Hinv Hs Hrep.
  destruct Hs as [sys pid root oe listing l Hp Hop|sys pid l env s fs' l' r Hl Hr|sys pid l env req fs' l' r Hl Hr]; simpl in *.
  - done.
  - destruct r as [[|res']|]; [done| |done]. subst res'.
    apply reserve_cases in Hr as [(-> & _ & _ & Ht)|(_ & _ & _ & w & _ & [(? & _)|(? & _)])]; [|done..].
    by destruct (Ht _ eq_refl) as [Hterm ->].
  - pose proof Hr as Hc. apply settle_cases in Hc as [(-> & _ & Hnf & Ht)|(Hid & _ & _ & _)].
    + destruct r as [[|res']|]; [done| |done]. subst res'. by destruct (Ht _ eq_refl) as [Hterm ->].
    + destruct r as [x|]; [|done]. destruct (settle_owned l _ _ _ _ _ _ (li_owns _ Hinv _ _ _ Hl Hid) Hr) as (-> & Hterm & _).
      by subst res.
Qed.

Lemma run_inv outs sys :
  ledger_run ledger_init outs sys →
  ledger_inv sys ∧
  (∀ out res, out ∈ outs → reports out res → terminal (sys_fs sys) (ms_mutation_id (mr_subject res)) res) ∧
  (∀ pid s, OutReserve pid s (Ok Fresh) ∈ outs → is_Some (sys_fs sys !! record_name (ms_mutation_id s))).
Proof.
  remember ledger_init as init eqn:Hi. induction 1 as [sys|sys outs mid out sys' Hrun IH Hstep]; subst.
  - split; [apply init_inv|]. split; [by intros ? ? ?%elem_of_nil|by intros ? ? ?%elem_of_nil].
  - destruct IH as (Hinv & Hrep & Hfresh); [done|]. destruct (step_keeps _ _ _ Hstep) as [Hk1 Hk2].
    split; [by eapply step_inv|]. split.
    + intros o res [Ho|Ho%list_elem_of_singleton]%elem_of_app Hr; [by apply Hk2, (Hrep o)|].
      subst o. by eapply step_reports.
    + intros pid s [Ho|Ho%list_elem_of_singleton]%elem_of_app; [by eapply Hk1, Hfresh|]. subst out.
      inversion Hstep as [|? ? l env ? fs' l' r Hl Hr|]; subst. simpl.
      apply reserve_cases in Hr as [(_ & _ & Hnf & _)|(_ & _ & _ & w & -> & _)]; [done|].
      by rewrite lookup_insert_eq.
Qed.

(** The mutations an output reserves afresh. *)
Definition fresh_id (out : ledger_output) : list string :=
  match out with
  | OutReserve _ s (Ok Fresh) => [ms_mutation_id s]
  | _ => []
  end.
Definition fresh_ids (outs : list ledger_output) : list string := flat_map fresh_id outs.

Lemma fresh_ids_app outs out : fresh_ids (outs ++ [out]) = fresh_ids outs ++ fresh_id out.
Proof. unfold fresh_ids. rewrite flat_map_app. simpl. by rewrite app_nil_r. Qed.

Lemma fresh_ids_elem id outs :
  id ∈ fresh_ids outs ↔ ∃ pid s, OutReserve pid s (Ok Fresh) ∈ outs ∧ id = ms_mutation_id s.
Proof.
  unfold fresh_ids. rewrite list_elem_of_In, in_flat_map. setoid_rewrite <- list_elem_of_In. split.
  - intros (out & Hout & Hid). destruct out as [|pid s [[|]|]|]; simpl in Hid; try by apply elem_of_nil in Hid.
    apply list_elem_of_singleton in Hid as ->. eauto.
  - intros (pid & s & Hout & ->). exists (OutReserve pid s (Ok Fresh)). split; [done|]. by left.
Qed.

Lemma run_keeps sys outs sys' name :
  ledger_run sys outs sys' → is_Some (sys_fs sys !! name) → is_Some (sys_fs sys' !! name).
Proof.
  induction 1 as [|sys outs mid out sys' Hrun IH Hstep]; [done|].
  intros Hn. by apply (step_keeps _ _ _ Hstep), IH.
Qed.

(** From any state, a run reserves a mutation afresh at most once, and only one
    that had no record. *)
Lemma fresh_ids_run sys outs sys' :
  ledger_run sys outs sys' →
  NoDup (fresh_ids outs) ∧
  ∀ id, id ∈ fresh_ids outs →
    sys_fs sys !! record_name id = None ∧ is_Some (sys_fs sys' !! record_name id).
Proof.
  induction 1 as [sys|sys outs mid out sys' Hrun [Hnd Hids] Hstep].
  { split; [constructor|]. by intros id ?%elem_of_nil. }
  destruct (step_keeps _ _ _ Hstep) as [Hk _].
  assert (∀ id, id ∈ fresh_id out → sys_fs mid !! record_name id = None ∧
            is_Some (sys_fs sys' !! record_name id)) as Hout.
  { intros id Hid. destruct out as [|pid s [[|]|]|]; simpl in Hid; try by apply elem_of_nil in Hid.
    apply list_elem_of_singleton in Hid as ->. inversion Hstep as [|? ? l env ? fs' l' r Hl Hr|]; subst.
    apply reserve_cases in Hr as [(_ & _ & Hnf & _)|(Hnew & _ & _ & w & -> & _)]; [done|].
    simpl. by rewrite lookup_insert_eq. }
  rewrite fresh_ids_app. split.
  - apply NoDup_app. split; [done|]. split.
    + intros id Hid Hid'. destruct (Hids id Hid) as [_ [f Hf]]. apply Hout in Hid' as [Hn _]. congruence.
    + destruct out as [|pid s [[|]|]|]; simpl; try apply NoDup_nil_2; apply NoDup_singleton.
  - intros id [Hid|Hid]%elem_of_app.
    + destruct (Hids id Hid). split; [done|]. by apply Hk.
    + destruct (Hout id Hid) as [Hn Hs]. split; [|done].
      destruct (sys_fs sys !! record_name id) eqn:E; [|done].
      destruct (run_keeps _ _ _ (record_name id) Hrun) as [f' Hf]; [eauto|]. congruence.
Qed.

(** A settlement that succeeds, now or by replay, is the requested one. *)
Lemma settled_requested sys outs sys' pid req x :
  ledger_run sys outs sys' → OutSettle pid req (Ok x) ∈ outs → reports (OutSettle pid req (Ok x)) req.
Proof.
  induction 1 as [|sys outs mid out sys' Hrun IH Hstep]; [by intros ?%elem_of_nil|].
  intros [Hin|<-%list_elem_of_singleton]%elem_of_app; [by apply IH|].
  inversion Hstep as [| |? ? l env ? fs' l' r Hl Hr]; subst.
  destruct x as [|res]; [done|]. simpl.
  apply settle_cases in Hr as [(_ & _ & _ & Ht)|(_ & _ & _ & c & w & _ & _ & _ & [[? _]|[? _]])]; [|done..].
  by destruct (Ht res eq_refl) as [_ ->].
Qed.

(** Over any number of processes sharing the directory, interleaved in any
    order, crashing and reopening at any point, with any file-system failures
    and torn appends, a mutation id is reserved afresh at most once. *)
Theorem reserve_fresh_at_most_once outs sys :
  ledger_run ledger_init outs sys → NoDup (fresh_ids outs).
Proof. intros Hrun. by destruct (fresh_ids_run _ _ _ Hrun). Qed.

(** C6: one mutation has one terminal result, for ever: whatever any process,
    in any interleaving and through any crash, ever reports as the settlement
    or the exact replay of a mutation is one and the same result, and it is
    durable when reported. *)
Theorem settlement_is_unique outs sys out out' res res' :
  ledger_run ledger_init outs sys → out ∈ outs → out' ∈ outs →
  reports out res → reports out' res' →
  ms_mutation_id (mr_subject res) = ms_mutation_id (mr_subject res') →
  res = res' ∧ terminal (sys_fs sys) (ms_mutation_id (mr_subject res)) res.
Proof.
  intros (_ & Hrep & _)%run_inv Ho Ho' Hr Hr' Hid.
  pose proof (Hrep _ _ Ho Hr) as Ht. pose proof (Hrep _ _ Ho' Hr') as Ht'. rewrite <- Hid in Ht'.
  split; [|done]. by eapply terminal_fun.
Qed.
End Invariants.

(** ** Recovery *)

Section Recovery.
Context `{LedgerCodecLaws}.

(** A reservation torn at any byte is unreadable or in flight. *)
Lemma parse_reserving s p q rec :
  subject_validate s = Ok tt → event_line (reserved s) (p ++ q) → parse_record p = Ok rec →
  rec = {| lr_subject := s; lr_result := None |}.
Proof.
  intros Hs Hpq. pose proof (event_line_small (reserved s) _ Hs Hpq) as Hsmall.
  destruct (decide (p = [])) as [->|Hp]; [done|].
  destruct (decide (q = [])) as [->|Hq].
  { rewrite app_nil_r in Hpq. rewrite (parse_reserved s p Hs Hpq). by intros [= <-]. }
  destruct Hpq as (enc & He & Hpq).
  rewrite (app_removelast_last newline (l := q)), app_assoc in Hpq by done.
  apply app_inj_tail in Hpq as [Henc _]. set (q' := removelast q) in *.
  assert (blen enc <= MAX_FRAME_BYTES) as Hle by (by apply (encode_event_short (reserved s))).
  unfold parse_record.
  assert (MAX_LEDGER_RECORD_BYTES <? blen p = false) as ->.
  { rewrite <- Henc, blen_app in Hle. bools. unfold MAX_LEDGER_RECORD_BYTES. lia. }
  cbn [fail_if res_bind].
  destruct (decide (q' = [])) as [Hq'|Hq'].
  - rewrite Hq', app_nil_r in Henc. subst p.
    destruct (load_events_frame 3 (reader_of enc) [] (reserved s) enc enc)
      as (r' & Hr' & Hload); [done|done|simpl; lia|by left|apply reads_reader_of|].
    rewrite Hload. rewrite after_line_last in Hr' by (by eapply encode_one_line).
    rewrite load_events_eof by done. simpl. rewrite Hs. by intros [= <-].
  - pose proof (load_events_torn 3 (reader_of p) [] (reserved s) p q') as Ht. rewrite Henc in Ht.
    specialize (Ht He Hp Hq' Hle (reads_reader_of p)).
    by destruct (load_events 4 (reader_of p) []).
Qed.

(** A settlement torn at any byte is unreadable, in flight, or the settlement. *)
Lemma parse_settling_cases s r b p q rec :
  subject_validate s = Ok tt → result_wf r → mr_subject r = s →
  event_line (reserved s) b → event_line (settled r) (p ++ q) → parse_record (b ++ p) = Ok rec →
  rec = {| lr_subject := s; lr_result := None |} ∨ rec = {| lr_subject := s; lr_result := Some r |}.
Proof.
  intros Hs Hr Hsub Hb Hpq Hp. destruct (parse_settling s r b p q Hs Hr Hsub Hb Hpq) as [H1 H2].
  destruct (decide (p = [])) as [->|Hne]; [left; congruence|].
  destruct (decide (length q <= 1)%nat); [right; congruence|].
  rewrite Hp in H2. by specialize (H2 Hne ltac:(lia)).
Qed.

(** Where every record of the directory comes from. *)
Definition record_origin (outs : list ledger_output) (name : string) (c : bytes) : Prop :=
  ∃ pid s r, OutReserve pid s r ∈ outs ∧ name = record_name (ms_mutation_id s) ∧
    subject_validate s = Ok tt ∧
    (c = [] ∨ (∃ rest, event_line (reserved s) (c ++ rest)) ∨
     ∃ b p rest pid' req r', c = b ++ p ∧ event_line (reserved s) b ∧
       event_line (settled req) (p ++ rest) ∧ result_wf req ∧ mr_subject req = s ∧
       OutSettle pid' req r' ∈ outs).

Lemma origin_mono outs outs' name c :
  (∀ o, o ∈ outs → o ∈ outs') → record_origin outs name c → record_origin outs' name c.
Proof.
  intros Hsub (pid & s & r & Hin & Hn & Hv & Hc). exists pid, s, r. split_and!; auto.
  destruct Hc as [?|[?|(b & p & rest & pid' & req & r' & ? & ? & ? & ? & ? & ?)]]; [by auto..|].
  right. right. exists b, p, rest, pid', req, r'. split_and!; auto.
Qed.

Lemma origin_parse outs name c rec :
  record_origin outs name c → parse_record c = Ok rec →
  ∃ pid r, OutReserve pid (lr_subject rec) r ∈ outs ∧
    name = record_name (ms_mutation_id (lr_subject rec)) ∧
    subject_validate (lr_subject rec) = Ok tt ∧
    (lr_result rec = None ∨
     ∃ pid' req r', lr_result rec = Some req ∧ mr_subject req = lr_subject rec ∧
       OutSettle pid' req r' ∈ outs).
Proof.
  intros (pid & s & r & Hin & Hn & Hv & Hc) Hp.
  assert (lr_subject rec = s ∧ (lr_result rec = None ∨
     ∃ pid' req r', lr_result rec = Some req ∧ mr_subject req = s ∧ OutSettle pid' req r' ∈ outs))
    as [-> Hres]; [|by eauto 10].
  destruct Hc as [->|[[rest Hl]|(b & p & rest & pid' & req & r' & -> & Hb & Hl & Hwf & Hsub & Hset)]]; [done|..].
  - apply (parse_reserving s c rest rec Hv Hl) in Hp as ->. simpl. auto.
  - destruct (parse_settling_cases s req b p rest rec Hv Hwf Hsub Hb Hl Hp) as [->| ->]; simpl; eauto 10.
Qed.

Lemma run_origin outs sys :
  ledger_run ledger_init outs sys →
  ∀ name c, sys_fs sys !! name = Some (LFile c) → record_origin outs name c.
Proof.
  remember ledger_init as init eqn:Hi. induction 1 as [sys|sys outs mid out sys' Hrun IH Hstep]; subst.
  - intros name c. simpl. by rewrite lookup_empty.
  - specialize (IH eq_refl). destruct (run_inv _ _ Hrun) as (Hinv & _ & _).
    assert (∀ name c, sys_fs mid !! name = Some (LFile c) → record_origin (outs ++ [out]) name c) as Hold.
    { intros name c Hc. eapply origin_mono; [|by eapply IH]. intros o Ho. apply elem_of_app. by left. }
    assert (out ∈ outs ++ [out]) as Hout by (apply elem_of_app; right; by left).
    destruct Hstep as [mid pid root oe listing l Hp Hop|mid pid l env s fs' l' r Hl Hr|mid pid l env req fs' l' r Hl Hr];
      simpl; [done|..].
    + apply reserve_cases in Hr as [(-> & _)|(Hnew & Hv & _ & w & -> & Hcases)]; [done|].
      intros name c [[<- [= <-]]|[Hne Hc]]%lookup_insert_Some; [|by apply Hold].
      exists pid, s, r. split_and!; try done.
      destruct Hcases as [(_ & Hline & _)|(_ & _ & _ & [->|Ht])]; [|by left|by right; left].
      right. left. exists []. by rewrite app_nil_r.
    + apply settle_cases in Hr as [(-> & _)|(Hid & Hwf & _ & c0 & w & Hc0 & Hpc & -> & Hcases)]; [done|].
      intros name c [[<- [= <-]]|[Hne Hc]]%lookup_insert_Some; [|by apply Hold].
      destruct (owned_parse l _ _ _ (li_owns _ Hinv _ _ _ Hl Hid) Hc0) as (s & Hs & Hv & Hb & Hps).
      rewrite Hpc in Hps. injection Hps as Hsub.
      destruct (origin_parse _ _ _ _ (IH _ _ Hc0) Hpc) as (p1 & r1 & Hin1 & _). simpl in Hin1.
      exists p1, (mr_subject req), r1. split_and!; try done.
      { apply elem_of_app. by left. }
      { by rewrite Hsub. }
      destruct Hcases as [(_ & Hline & _)|(_ & _ & [->|[rest Ht]])].
      * right. right. exists c0, w, [], pid, req, r. rewrite app_nil_r, Hsub. split_and!; try done.
      * rewrite app_nil_r. right. left. exists []. by rewrite app_nil_r, Hsub.
      * right. right. exists c0, w, rest, pid, req, r. rewrite Hsub. split_and!; try done.
Qed.

(** A scan only ever freezes. *)
Lemma is_frozen_corrupt st : is_frozen (mark_corrupt st) = true.
Proof.
  unfold is_frozen, mark_corrupt. simpl. apply orb_true_iff. right.
  unfold saturating_add. apply negb_true_iff, N.eqb_neq. unfold u64_max. lia.
Qed.

Lemma is_frozen_indeterminate st s k : is_frozen (mark_indeterminate st s k) = true.
Proof.
  unfold is_frozen, mark_indeterminate. simpl. apply orb_true_iff. left.
  apply negb_true_iff, N.eqb_neq. unfold blen. rewrite length_app. simpl. lia.
Qed.

(** The record of [name] carries a terminal result that is known. *)
Definition cleanly_settled (root : string) (fs : lfs) (oe : string → option string) (name : string) : Prop :=
  ∃ rec r, load_record root fs (oe name) name = Ok rec ∧
    name = record_name (ms_mutation_id (lr_subject rec)) ∧
    lr_result rec = Some r ∧ mr_outcome r ≠ Unknown.

Lemma scan_record_frozen root fs oe st name :
  is_frozen (scan_record root fs oe st name) = false ↔
  is_frozen st = false ∧ cleanly_settled root fs oe name.
Proof.
  unfold scan_record, cleanly_settled. destruct (load_record _ _ _ _) as [rec|e].
  2: { rewrite is_frozen_corrupt. split; [done|]. by intros (_ & ? & ? & ? & _). }
  destruct (String.eqb_spec name (record_name (ms_mutation_id (lr_subject rec)))) as [Hn|Hn]; simpl.
  2: { rewrite is_frozen_corrupt. split; [done|]. by intros (_ & rec' & ? & [= <-] & ? & _). }
  destruct (lr_result rec) as [r|] eqn:Hr.
  - case_bool_decide as Ho.
    + rewrite is_frozen_indeterminate. split; [done|].
      intros (_ & rec' & r' & [= <-] & _ & Hr' & Hne). congruence.
    + split; [intros ?; split; [done|]; eauto 10|by intros [? _]].
  - rewrite is_frozen_indeterminate. split; [done|].
    intros (_ & rec' & r' & [= <-] & _ & Hr' & _). congruence.
Qed.

Lemma scan_records_frozen root fs oe names st :
  is_frozen (foldl (scan_record root fs oe) st names) = false ↔
  is_frozen st = false ∧ Forall (cleanly_settled root fs oe) names.
Proof.
  revert st. induction names as [|n names IH]; intros st; simpl.
  - split; [by split|by intros [? _]].
  - rewrite IH, scan_record_frozen, Forall_cons. tauto.
Qed.

Lemma scan_recovery_frozen root fs oe listing :
  is_frozen (scan_recovery root fs oe listing) = false ↔
  blen listing <= MAX_LEDGER_RECORDS ∧ Forall (cleanly_settled root fs oe) listing.
Proof.
  unfold scan_recovery. rewrite scan_records_frozen, merge_sort_Permutation.
  destruct (MAX_LEDGER_RECORDS <? blen listing) eqn:E; bools.
  - rewrite is_frozen_corrupt. split; [by intros [? _]|lia].
  - rewrite take_ge; [|unfold blen in E; lia]. split; [by intros [_ ?]|by intros [_ ?]].
Qed.

Lemma frozen_refuses env fs l :
  is_frozen (ml_recovery l) = true →
  (∀ s, ∃ e, reserve env fs l s = (fs, l, Err e)) ∧
  (∀ s o d t, ∃ e, settle env fs l s o d t = (fs, l, Err e)).
Proof.
  intros Hf. unfold reserve, settle, settle_guard, status_require_writable. rewrite Hf. simpl.
  split; intros; eauto.
Qed.

(** Recovery is fail-closed and exact.  Opening the ledger leaves it
    writable exactly when the directory lists at most 4096 entries and every one
    is a readable record under its own name with a known terminal result;
    otherwise the process is frozen, and a frozen process refuses every
    reservation and settlement without touching the directory. *)
Theorem recovery_exact root fs oe listing l :
  ledger_open root (Ok tt) fs oe (Ok listing) = Ok l →
  (is_frozen (ml_recovery l) = false ↔
   blen listing <= MAX_LEDGER_RECORDS ∧ Forall (cleanly_settled root fs oe) listing) ∧
  (is_frozen (ml_recovery l) = true → ∀ env,
     (∀ s, ∃ e, reserve env fs l s = (fs, l, Err e)) ∧
     (∀ s o d t, ∃ e, settle env fs l s o d t = (fs, l, Err e))).
Proof.
  unfold ledger_open. simpl. intros [= <-]. simpl. split; [apply scan_recovery_frozen|].
  intros Hf env. by apply frozen_refuses.
Qed.

(** C15: a reopened ledger that is writable accounts for every permit.  After any
    run of any processes, with crashes, failures and torn writes, if opening
    the directory leaves it writable then every mutation ever reserved afresh
    has on disk the committed or aborted result that some process asked to
    settle for exactly that subject. *)
Theorem writable_reopen_accounts_for_all outs sys root oe listing l pid s :
  ledger_run ledger_init outs sys → listing ≡ₚ elements (dom (sys_fs sys)) →
  ledger_open root (Ok tt) (sys_fs sys) oe (Ok listing) = Ok l →
  is_frozen (ml_recovery l) = false →
  OutReserve pid s (Ok Fresh) ∈ outs →
  ∃ pid' req r', OutSettle pid' req r' ∈ outs ∧
    ms_mutation_id (mr_subject req) = ms_mutation_id s ∧ mr_outcome req ≠ Unknown ∧
    terminal (sys_fs sys) (ms_mutation_id s) req.
Proof.
  intros Hrun Hlist Hopen Hw Hres. unfold ledger_open in Hopen. simpl in Hopen. injection Hopen as <-.
  simpl in Hw. apply scan_recovery_frozen in Hw as [_ Hall].
  destruct (run_inv _ _ Hrun) as (_ & _ & Hfresh). apply Hfresh in Hres as [f Hf].
  rewrite Forall_forall in Hall. destruct (Hall (record_name (ms_mutation_id s))) as (rec & r & Hload & Hn & Hr & Ho).
  { rewrite Hlist. apply elem_of_elements, elem_of_dom. eauto. }
  apply load_record_Ok in Hload as (c & Hc & Hp).
  destruct (origin_parse _ _ _ _ (run_origin _ _ Hrun _ _ Hc) Hp) as (_ & _ & _ & _ & _ & [Hnone|Hsome]); [congruence|].
  destruct Hsome as (pid' & req & r' & Hreq & Hsub & Hset). rewrite Hr in Hreq. injection Hreq as ->.
  apply record_name_inj in Hn. exists pid', req, r'. split_and!; try done.
  - by rewrite Hsub.
  - exists c. split; [done|]. rewrite Hp. f_equal. destruct rec; simpl in *. congruence.
Qed.
End Recovery.

(** ** A concrete ledger *)
Module LedgerReference.

Fixpoint repeat_char (n : nat) (c : ascii) : string :=
  match n with O => "" | S n => String c (repeat_char n c) end.
Definition hex64 : string := repeat_char 64 "a"%char.

Definition subject : MutationSubject := {|
  ms_authority_envelope_digest := hex64; ms_authority_token_nonce := hex64;
  ms_mutation_id := "mut_" +:+ hex64; ms_reservation_id := "rsv_" +:+ hex64;
  ms_operation := ApplyPatch; ms_request_digest := hex64;
  ms_repository_id := "rep_" +:+ hex64; ms_workspace_id := "wsp_" +:+ hex64;
  ms_workspace_generation := 1; ms_workspace_nonce := hex64;
  ms_attempt_id := "atm_" +:+ hex64; ms_attempt_fence := 1; ms_authority_epoch := 1;
  ms_freeze_generation := 0; ms_permit_nonce := hex64; ms_permit_digest := hex64
|}.
Definition committed : MutationResult :=
  {| mr_subject := subject; mr_outcome := Committed; mr_result_digest := hex64;
     mr_completed_at_unix_ms := 7 |}.

#[export] Instance LedgerEvent_eq_dec : EqDecision LedgerEvent.
Proof. solve_decision. Defined.

(** A codec of the two events of one mutation. *)
Definition codec_of (subject : MutationSubject) (final : MutationResult) : LedgerCodec := {|
  json_float := unit;
  json_finite := λ _, true;
  tokenize line := if String.eqb line "r}" || String.eqb line "s}" then Ok (RString line) else Err "invalid";
  event_of_value v :=
    match v with
    | VString s => if String.eqb s "r}" then Ok (reserved subject)
                   else if String.eqb s "s}" then Ok (settled final) else Err "unknown"
    | _ => Err "unknown"
    end;
  encode_event e := if decide (e = reserved subject) then Ok (as_bytes "r}")
                    else if decide (e = settled final) then Ok (as_bytes "s}")
                    else Err "unsupported"
|}.

Lemma codec_encodes s r e b :
  @encode_event (codec_of s r) e = Ok b →
  (e = reserved s ∧ b = as_bytes "r}") ∨ (e = settled r ∧ b = as_bytes "s}").
Proof. simpl. repeat case_decide; try done; intros [= <-]; auto. Qed.

Lemma prefix_two (x y : byte) p q : [x; y] = p ++ q → q ≠ [] → p = [] ∨ p = [x].
Proof.
  destruct p as [|a [|b [|c p]]]; simpl; intros Heq Hq; simplify_eq; auto; by destruct q.
Qed.

Lemma codec_of_laws subject final : @LedgerCodecLaws (codec_of subject final).
Proof.
  split.
  - intros e b [[-> ->]|[-> ->]]%codec_encodes; [exists "r}"|exists "s}"]; by split_and!.
  - intros e b [[-> ->]|[-> ->]]%codec_encodes; done.
  - intros e p q s He Hq Hs.
    assert (p = [] ∨ ∃ x, p = [x] ∧ (x = x72 ∨ x = x73)) as [->|(x & -> & Hx)].
    { apply codec_encodes in He as [[_ Hpq]|[_ Hpq]]; symmetry in Hpq; vm_compute in Hpq;
        (apply prefix_two in Hpq as [->| ->]; [by left|right; eauto|done]). }
    + vm_compute in Hs. by simplify_eq.
    + destruct Hx as [->| ->]; vm_compute in Hs; by simplify_eq.
  - intros e b _ [[-> ->]|[-> ->]]%codec_encodes; by vm_compute.
Qed.

#[export] Instance codec : LedgerCodec := codec_of subject committed.
#[export] Instance codec_laws : LedgerCodecLaws := codec_of_laws subject committed.

Definition calm : ledger_env := {|
  le_create_error := None; le_open_error := None; le_torn := None; le_sync_error := None;
  le_dirsync_error := None |}.
Definition readable : string → option string := λ _, None.

Definition opened (fs : lfs) : MutationLedger := {|
  ml_root := "/ledger"; ml_owned_reservations := ∅;
  ml_recovery := scan_recovery "/ledger" fs readable (elements (dom fs)) |}.

Definition call : Type := lfs * MutationLedger * result ReplayDisposition MutationLedgerError.
Abbreviation reserve_first := (reserve calm ∅ (opened ∅) subject).
Definition settle_after (c : call) : call :=
  settle calm (fst (fst c)) (snd (fst c)) (mr_subject committed) (mr_outcome committed)
    (mr_result_digest committed) (mr_completed_at_unix_ms committed).
Definition replay_after (c : call) : call := reserve calm (fst (fst c)) (opened (fst (fst c))) subject.

(** Conversion unfolds the abbreviations of this module first. *)
Strategy expand [settle_after replay_after].

Lemma first_is_fresh : snd reserve_first = Ok Fresh.
Proof. vm_compute. reflexivity. Qed.
Lemma settles_fresh : snd (settle_after reserve_first) = Ok Fresh.
Proof. vm_compute. reflexivity. Qed.
Lemma replays_exactly : snd (replay_after (settle_after reserve_first)) = Ok (ExactReplay committed).
Proof. vm_compute. reflexivity. Qed.
Lemma torn_open_frozen : is_frozen (ml_recovery (opened (fst (fst reserve_first)))) = true.
Proof. vm_compute. reflexivity. Qed.
Lemma final_open_writable :
  is_frozen (ml_recovery (opened (fst (fst (replay_after (settle_after reserve_first)))))) = false.
Proof. vm_compute. reflexivity. Qed.

Lemma open_ok fs : ledger_open "/ledger" (Ok tt) fs readable (Ok (elements (dom fs))) = Ok (opened fs).
Proof. reflexivity. Qed.

(** One process reserves and settles; a second opens the directory and replays. *)
Definition outputs (fs : lfs) : list ledger_output :=
  [OutOpen 0 (ml_recovery (opened ∅)); OutReserve 0 subject (Ok Fresh); OutSettle 0 committed (Ok Fresh);
   OutOpen 1 (ml_recovery (opened fs)); OutReserve 1 subject (Ok (ExactReplay committed))].

Lemma run_five s0 s1 s2 s3 s4 s5 o1 o2 o3 o4 o5 :
  ledger_step s0 o1 s1 → ledger_step s1 o2 s2 → ledger_step s2 o3 s3 → ledger_step s3 o4 s4 →
  ledger_step s4 o5 s5 → ledger_run s0 [o1; o2; o3; o4; o5] s5.
Proof.
  intros H1 H2 H3 H4 H5. apply (run_snoc s0 [o1; o2; o3; o4] s4 o5 s5); [|done].
  apply (run_snoc s0 [o1; o2; o3] s3 o4 s4); [|done]. apply (run_snoc s0 [o1; o2] s2 o3 s3); [|done].
  apply (run_snoc s0 [o1] s1 o2 s2); [|done]. apply (run_snoc s0 [] s0 o1 s1); [constructor|done].
Qed.

Definition at_ (fs : lfs) (procs : gmap nat MutationLedger) : ledger_sys :=
  {| sys_fs := fs; sys_procs := procs |}.

Lemma opens fs procs pid :
  ledger_step (at_ fs procs) (OutOpen pid (ml_recovery (opened fs))) (at_ fs (<[pid := opened fs]> procs)).
Proof. exact (step_open (at_ fs procs) pid _ _ _ _ (Permutation_refl _) (open_ok fs)). Qed.

Lemma reserves fs procs pid l fs' l' r :
  reserve calm fs l subject = (fs', l', r) →
  ledger_step (at_ fs (<[pid := l]> procs)) (OutReserve pid subject r)
    (at_ fs' (<[pid := l']> (<[pid := l]> procs))).
Proof.
  intros Hr. exact (step_reserve (at_ fs (<[pid := l]> procs)) pid l calm subject fs' l' r
    (lookup_insert_eq procs pid l) Hr).
Qed.

Lemma settles fs procs pid l fs' l' r :
  settle calm fs l (mr_subject committed) (mr_outcome committed) (mr_result_digest committed)
    (mr_completed_at_unix_ms committed) = (fs', l', r) →
  ledger_step (at_ fs (<[pid := l]> procs)) (OutSettle pid committed r)
    (at_ fs' (<[pid := l']> (<[pid := l]> procs))).
Proof.
  intros Hr. exact (step_settle (at_ fs (<[pid := l]> procs)) pid l calm committed fs' l' r
    (lookup_insert_eq procs pid l) Hr).
Qed.

Lemma run_from (c : call) :
  reserve_first = c → snd c = Ok Fresh → snd (settle_after c) = Ok Fresh →
  snd (replay_after (settle_after c)) = Ok (ExactReplay committed) →
  is_frozen (ml_recovery (opened (fst (fst (replay_after (settle_after c)))))) = false →
  ∃ fs sys, ledger_run ledger_init (outputs fs) sys ∧ is_frozen (ml_recovery (opened (sys_fs sys))) = false.
Proof.
  destruct c as [[fs1 h1] r1]. cbn [fst snd]. intros E1 ->.
  destruct (settle_after (fs1, h1, Ok Fresh)) as [[fs2 h2] r2] eqn:E2. cbn [fst snd]. intros ->.
  destruct (replay_after (fs2, h2, Ok Fresh)) as [[fs3 h3] r3] eqn:E3. cbn [fst snd]. intros -> F4.
  eexists fs2, (at_ fs3 _). split; [|exact F4].
  exact (run_five _ _ _ _ _ _ _ _ _ _ _ (opens ∅ ∅ 0) (reserves ∅ ∅ 0 _ _ _ _ E1)
    (settles fs1 _ 0 _ _ _ _ E2) (opens fs2 _ 1) (reserves fs2 _ 1 _ _ _ _ E3)).
Qed.

Lemma outputs_run : ∃ fs sys, ledger_run ledger_init (outputs fs) sys ∧
  is_frozen (ml_recovery (opened (sys_fs sys))) = false.
Proof.
  exact (run_from reserve_first eq_refl first_is_fresh settles_fresh replays_exactly final_open_writable).
Qed.

Lemma reports_in_outputs fs :
  OutReserve 0 subject (Ok Fresh) ∈ outputs fs ∧ OutSettle 0 committed (Ok Fresh) ∈ outputs fs ∧
  OutReserve 1 subject (Ok (ExactReplay committed)) ∈ outputs fs.
Proof. unfold outputs. simpl. split_and!; repeat (apply elem_of_cons; first [left; reflexivity|right]). Qed.

Example reserve_fresh_at_most_once_witness : NoDup [ms_mutation_id subject].
Proof.
  destruct outputs_run as (fs & sys & Hrun & _). exact (reserve_fresh_at_most_once (outputs fs) sys Hrun).
Defined.

Example settlement_is_unique_witness : ∃ sys, terminal (sys_fs sys) (ms_mutation_id subject) committed.
Proof.
  destruct outputs_run as (fs & sys & Hrun & _). exists sys.
  destruct (reports_in_outputs fs) as (_ & Hs & Hr).
  exact (proj2 (settlement_is_unique (outputs fs) sys _ _ committed committed Hrun Hs Hr
    eq_refl eq_refl eq_refl)).
Defined.

Example recovery_exact_witness :
  ∃ e, reserve calm (fst (fst reserve_first)) (opened (fst (fst reserve_first))) subject
       = (fst (fst reserve_first), opened (fst (fst reserve_first)), Err e).
Proof.
  exact (proj1 (proj2 (recovery_exact "/ledger" (fst (fst reserve_first)) readable
    (elements (dom (fst (fst reserve_first)))) (opened (fst (fst reserve_first)))
    (open_ok (fst (fst reserve_first)))) torn_open_frozen calm) subject).
Defined.

Example writable_reopen_accounts_for_all_witness :
  ∃ sys (outs : list ledger_output) pid' req r', OutSettle pid' req r' ∈ outs ∧
    ms_mutation_id (mr_subject req) = ms_mutation_id subject ∧ mr_outcome req ≠ Unknown ∧
    terminal (sys_fs sys) (ms_mutation_id subject) req.
Proof.
  destruct outputs_run as (fs & sys & Hrun & Hw). exists sys, (outputs fs).
  destruct (reports_in_outputs fs) as (Hf & _ & _).
  exact (writable_reopen_accounts_for_all (outputs fs) sys "/ledger" readable
    (elements (dom (sys_fs sys))) (opened (sys_fs sys)) 0 subject Hrun (Permutation_refl _)
    (open_ok (sys_fs sys)) Hw Hf).
Defined.
End LedgerReference.
