(* ===== verification/Gateway.v ===== *)
(** [crates/bullet-gitd/src/authority_gateway.rs] with its [gateway.rs],
    [support.rs] and [fingerprint.rs]: the fail-closed boundary that turns one
    verified authority decision into one mutation permit, consumes the permit
    immediately before repository I/O, and settles it afterwards.

    The gateway calls a checker through the interface [FinalAuthorityCheck], the
    clock, the file system and the ledger of [Ledger].  The [n]-th external call
    of a gateway is answered by [env n]; theorems hold for every [env].  A small
    state monad [M] threads the gateway through its calls, with [do?] for the
    [?] operator. *)

From S2P Require Import Prelude Digests Ids StrictJson Ledger.

(** ** Errors *)

Inductive GatewayError : Type :=
  | GContractUnavailable (message : string)
  | GRefused (message : string)
  | GSubjectMismatch (message : string)
  | GPermitExpired
  | GInvalidPermitWindow
  | GClock (message : string)
  | GSettlementUnknown (message : string)
  | GLedger (error : MutationLedgerError).

Definition gateway_reason_code (e : GatewayError) : string :=
  match e with
  | GContractUnavailable _ => "AUTHORITY_CONTRACT_UNAVAILABLE"
  | GRefused _ => "AUTHORITY_REFUSED"
  | GSubjectMismatch _ => "AUTHORITY_SUBJECT_MISMATCH"
  | GPermitExpired => "MUTATION_PERMIT_EXPIRED"
  | GInvalidPermitWindow => "INVALID_MUTATION_PERMIT_WINDOW"
  | GClock _ => "AUTHORITY_CLOCK_FAILED"
  | GSettlementUnknown _ => "MUTATION_OUTCOME_UNKNOWN"
  | GLedger error => ledger_reason_code error
  end.

(** The [Display] text of [GatewayError]. *)
Definition gateway_display (e : GatewayError) : string :=
  match e with
  | GContractUnavailable m => "authority contract unavailable: " +:+ m
  | GRefused m => "authority final check refused: " +:+ m
  | GSubjectMismatch m => "verified authority subject mismatch: " +:+ m
  | GPermitExpired => "mutation permit expired"
  | GInvalidPermitWindow => "mutation permit window is invalid"
  | GClock m => "trusted clock failed: " +:+ m
  | GSettlementUnknown m => "mutation outcome is unknown after repository execution: " +:+ m
  | GLedger error => ledger_display error
  end.

(** ** Requests and decisions *)

Abbreviation json := (Value json_float).

(** [serde_json::to_vec] on a [Value]. *)
Class JsonEncode `{LedgerCodec} : Type := to_vec : json → result bytes string.

Section Types.
Context `{LedgerCodec}.

(** [authority_without_permit]: [Map::remove] of the key [kernel_permit]. *)
Definition authority_without_permit (authority : json) : json :=
  match authority with
  | VObject map => VObject (List.filter (λ kv, negb (String.eqb (fst kv) "kernel_permit")) map)
  | other => other
  end.

Record FinalCheckInput : Type := {
  fci_operation : MutationOperation;
  fci_authority : json;
  fci_params : json;
  fci_transport_fingerprint : Digest
}.

Record VerifiedDecision : Type := {
  vd_subject : MutationSubject;
  vd_operation : MutationOperation;
  vd_transport_fingerprint : Digest;
  vd_expires_at_unix_ms : N
}.

Record FinalSettlementInput : Type := {
  fsi_subject : MutationSubject;
  fsi_outcome : MutationOutcome;
  fsi_result_digest : string;
  fsi_completed_at_unix_ms : N;
  fsi_settlement_fingerprint : Digest
}.

Record VerifiedSettlement : Type := {
  vs_mutation_id : string;
  vs_reservation_id : string;
  vs_result_digest : string;
  vs_settlement_fingerprint : Digest
}.
End Types.

(** The trait [FinalAuthorityCheck], over a checker's own state. *)
Class FinalAuthorityCheck `{LedgerCodec} : Type := {
  checker : Type;
  checker_check : checker → FinalCheckInput → checker * result VerifiedDecision GatewayError;
  checker_settle : checker → FinalSettlementInput → checker * result VerifiedSettlement GatewayError
}.

Record MutationPermit : Type := {
  mp_subject : MutationSubject;
  mp_operation : MutationOperation;
  mp_transport_fingerprint : Digest;
  mp_expires_at_unix_ms : N
}.

Record PendingMutation : Type := { pm_subject : MutationSubject }.

(** [MutationPermit::into_pending] *)
Definition into_pending (p : MutationPermit) : PendingMutation := {| pm_subject := mp_subject p |}.

Inductive SettlementPath : Type := Kernel | ReceiptLocal.

Definition MAX_MUTATION_PERMIT_TTL_MS : N := 1000.
Definition RECEIPT_AUTHORITY_EPOCH : N := 1.

(** [ReceiptSubject] and [ReceiptAuthorization] of [daemon.rs]. *)
Record ReceiptSubject : Type := {
  rcp_receipt_token : string;
  rcp_receipt_digest : string;
  rcp_attempt_id : string;
  rcp_attempt_fence : N;
  rcp_workspace_nonce : bytes;
  rcp_repository_id : string;
  rcp_workspace_id : string;
  rcp_workspace_generation : N
}.

Inductive ReceiptAuthorization : Type :=
  | ReceiptFresh (permit : MutationPermit)
  | ReceiptReplay (result : MutationResult).

(** ** Fingerprints *)

Definition outcome_bytes (o : MutationOutcome) : bytes :=
  as_bytes match o with
           | Committed => "committed"
           | Aborted => "aborted"
           | Unknown => "unknown"
           end.

Section Fingerprints.
Context `{Blake3, HexCrate, LedgerCodec, !JsonEncode}.

Definition settlement_fields (subject : MutationSubject) (outcome : MutationOutcome)
    (result_digest : string) (completed_at_unix_ms : N) : list bytes := [
  as_bytes "bullet-gitd.pre-contract-settlement-fingerprint.v1";
  as_bytes (ms_authority_envelope_digest subject);
  as_bytes (ms_authority_token_nonce subject);
  as_bytes (ms_mutation_id subject);
  as_bytes (ms_reservation_id subject);
  as_bytes (operation_str (ms_operation subject));
  as_bytes (ms_request_digest subject);
  as_bytes (ms_repository_id subject);
  as_bytes (ms_workspace_id subject);
  as_bytes (u64_to_string (ms_workspace_generation subject));
  as_bytes (ms_workspace_nonce subject);
  as_bytes (ms_attempt_id subject);
  as_bytes (u64_to_string (ms_attempt_fence subject));
  as_bytes (u64_to_string (ms_authority_epoch subject));
  as_bytes (u64_to_string (ms_freeze_generation subject));
  as_bytes (ms_permit_nonce subject);
  as_bytes (ms_permit_digest subject);
  outcome_bytes outcome;
  as_bytes result_digest;
  as_bytes (u64_to_string completed_at_unix_ms)].

Definition settlement_fingerprint (subject : MutationSubject) (outcome : MutationOutcome)
    (result_digest : string) (completed_at_unix_ms : N) : Digest :=
  framed_digest (settlement_fields subject outcome result_digest completed_at_unix_ms).

Definition transport_fields (operation : MutationOperation) (authority params : bytes) : list bytes :=
  [as_bytes "bullet-gitd.pre-contract-request-fingerprint.v1";
   as_bytes (operation_str operation); authority; params].

Definition transport_fingerprint (operation : MutationOperation) (authority params : json)
    : result Digest GatewayError :=
  let? authority := map_err (λ e, GRefused ("encode authority: " +:+ e)) (to_vec authority) in
  let? params := map_err (λ e, GRefused ("encode parameters: " +:+ e)) (to_vec params) in
  Ok (framed_digest (transport_fields operation authority params)).

(** [MutationPermit::validate_immediately_before_repository] *)
Definition validate_immediately_before_repository (p : MutationPermit)
    (operation : MutationOperation) (authority params : json) (now_unix_ms : N)
    : result unit GatewayError :=
  let? actual := transport_fingerprint operation (authority_without_permit authority) params in
  fail_if (negb (bool_decide (mp_operation p = operation))
           || negb (bool_decide (mp_transport_fingerprint p = actual)))
    (GSubjectMismatch "operation or request fields changed after final check") ;?
  fail_if (mp_expires_at_unix_ms p <=? now_unix_ms) GPermitExpired.

(** The result digest of an abort before repository I/O. *)
Definition abort_digest (operation : MutationOperation) (refusal : GatewayError) : string :=
  to_hex (framed_digest [as_bytes "bullet-gitd.pre-repository-abort.v1";
    as_bytes (operation_str operation); as_bytes (gateway_reason_code refusal)]).

(** The closure [derive] of [receipt_mutation_subject]. *)
Definition receipt_fields (domain : string) (r : ReceiptSubject) : list bytes :=
  [as_bytes domain; as_bytes (rcp_receipt_digest r); as_bytes (operation_str CleanupWorkspace);
   as_bytes (rcp_attempt_id r); as_bytes (u64_to_string (rcp_attempt_fence r));
   as_bytes (hex_encode (rcp_workspace_nonce r))].
Definition receipt_derive (domain : string) (r : ReceiptSubject) : string :=
  to_hex (framed_digest (receipt_fields domain r)).

Definition receipt_mutation_subject (r : ReceiptSubject) (fingerprint : Digest) : MutationSubject := {|
  ms_authority_envelope_digest := to_hex (digest_of (as_bytes (rcp_receipt_token r)));
  ms_authority_token_nonce := rcp_receipt_digest r;
  ms_mutation_id := "mut_" +:+ receipt_derive "bullet-gitd.receipt-mutation-id.v1" r;
  ms_reservation_id := "rsv_" +:+ receipt_derive "bullet-gitd.receipt-reservation-id.v1" r;
  ms_operation := CleanupWorkspace;
  ms_request_digest := to_hex fingerprint;
  ms_repository_id := rcp_repository_id r;
  ms_workspace_id := rcp_workspace_id r;
  ms_workspace_generation := rcp_workspace_generation r;
  ms_workspace_nonce := hex_encode (rcp_workspace_nonce r);
  ms_attempt_id := rcp_attempt_id r;
  ms_attempt_fence := rcp_attempt_fence r;
  ms_authority_epoch := RECEIPT_AUTHORITY_EPOCH;
  ms_freeze_generation := 0;
  ms_permit_nonce := receipt_derive "bullet-gitd.receipt-permit-nonce.v1" r;
  ms_permit_digest := receipt_derive "bullet-gitd.receipt-permit-digest.v1" r
|}.
End Fingerprints.

(** ** The gateway *)

(** The replies to one external call: the clock's [as_millis], [symlink_metadata]
    of the ledger path (does it exist?), the directory checks, the listing of
    the entries and the record reads of [MutationLedger::open], and one ledger
    call. *)
Record replies : Type := {
  rp_clock : result N string;
  rp_metadata : result bool string;
  rp_prepared : result unit string;
  rp_open_error : string → option string;
  rp_listing : list string → result (list string) string;
  rp_ledger : ledger_env
}.

(** [AuthorityGateway], the ledger directories of the disk by path, and the
    number of external calls made so far. *)
Record AuthorityGateway `{FinalAuthorityCheck} : Type := {
  gw_checker : checker;
  gw_ledger : option MutationLedger;
  gw_ledger_root : option string;
  gw_disk : gmap string lfs;
  gw_calls : nat
}.

Section Gateway.
Context `{Blake3, HexCrate, LedgerCodec, !JsonEncode, !FinalAuthorityCheck}.
Variable env : nat → replies.

Definition M (A : Type) : Type := AuthorityGateway → AuthorityGateway * A.
Definition ret {A} (a : A) : M A := λ g, (g, a).
Definition bind {A B} (m : M A) (k : A → M B) : M B := λ g, let '(g, a) := m g in k a g.

Definition get : M AuthorityGateway := λ g, (g, g).

(** The [?] operator in a method of the gateway. *)
Definition bind_ok {A B E} (m : M (result A E)) (k : A → M (result B E)) : M (result B E) :=
  bind m (λ r, match r with Ok a => k a | Err e => ret (Err e) end).

Local Notation "'do' x ':=' m 'in' k" := (bind m (λ x, k))
  (at level 200, x name, m at level 100, k at level 200).
Local Notation "'do?' x ':=' m 'in' k" := (bind_ok m (λ x, k))
  (at level 200, x name, m at level 100, k at level 200).
Local Notation "m ;! k" := (bind_ok m (λ _ : unit, k))
  (at level 100, k at level 200, right associativity).

Definition with_checker (g : AuthorityGateway) (c : checker) : AuthorityGateway :=
  {| gw_checker := c; gw_ledger := gw_ledger g; gw_ledger_root := gw_ledger_root g;
     gw_disk := gw_disk g; gw_calls := gw_calls g |}.
(** The ledger directory at a path, empty when it does not exist. *)
Definition dir (disk : gmap string lfs) (path : string) : lfs := default ∅ (disk !! path).
(** The gateway after a call on ledger [l] left [fs] in its directory. *)
Definition with_ledger (g : AuthorityGateway) (fs : lfs) (l : MutationLedger) : AuthorityGateway :=
  {| gw_checker := gw_checker g; gw_ledger := Some l; gw_ledger_root := gw_ledger_root g;
     gw_disk := <[ml_root l := fs]> (gw_disk g); gw_calls := gw_calls g |}.

(** One external call. *)
Definition next_reply : M replies := λ g,
  ({| gw_checker := gw_checker g; gw_ledger := gw_ledger g; gw_ledger_root := gw_ledger_root g;
      gw_disk := gw_disk g; gw_calls := S (gw_calls g) |}, env (gw_calls g)).

(** [SystemClock::now_unix_ms] *)
Definition clock_reading (r : replies) : result N GatewayError :=
  let? millis := map_err GClock (rp_clock r) in
  fail_if (u64_max <? millis) (GClock "system time exceeds u64 milliseconds") ;?
  Ok millis.
Definition now_unix_ms : M (result N GatewayError) := do r := next_reply in ret (clock_reading r).

(** [MutationLedger::open] of the ledger under the attached root. *)
Definition open_at (root : string) : M (result unit GatewayError) :=
  do r := next_reply in λ g,
  let path := join root ".bullet-mutation-ledger" in
  let fs := dir (gw_disk g) path in
  match ledger_open path (rp_prepared r) fs (rp_open_error r) (rp_listing r (elements (dom fs))) with
  | Err e => (g, Err (GLedger e))
  | Ok l => (with_ledger g fs l, Ok tt)
  end.

(** [MutationLedger::reserve] and [settle] on the gateway's ledger. *)
Definition ledger_reserve (l : MutationLedger) (subject : MutationSubject)
    : M (result ReplayDisposition MutationLedgerError) :=
  do r := next_reply in λ g,
  let '(fs, l, res) := reserve (rp_ledger r) (dir (gw_disk g) (ml_root l)) l subject in
  (with_ledger g fs l, res).
Definition ledger_settle (l : MutationLedger) (subject : MutationSubject) (outcome : MutationOutcome)
    (result_digest : string) (completed_at_unix_ms : N)
    : M (result ReplayDisposition MutationLedgerError) :=
  do r := next_reply in λ g,
  let '(fs, l, res) :=
    settle (rp_ledger r) (dir (gw_disk g) (ml_root l)) l subject outcome result_digest completed_at_unix_ms in
  (with_ledger g fs l, res).

Definition call_check (input : FinalCheckInput) : M (result VerifiedDecision GatewayError) := λ g,
  let '(c, r) := checker_check (gw_checker g) input in (with_checker g c, r).
Definition call_settle (input : FinalSettlementInput) : M (result VerifiedSettlement GatewayError) := λ g,
  let '(c, r) := checker_settle (gw_checker g) input in (with_checker g c, r).

(** [AuthorityGateway::open_ledger] *)
Definition open_ledger : M (result MutationLedger GatewayError) :=
  do g := get in
  match gw_ledger g, gw_ledger_root g with
  | None, Some root => open_at root
  | _, _ => ret (Ok tt)
  end ;!
  do g := get in
  ret (ok_or (gw_ledger g) (GContractUnavailable "durable authority ledger is unavailable")).

(** [AuthorityGateway::recover_existing_ledger] *)
Definition recover_existing_ledger : M (result unit GatewayError) :=
  do g := get in
  match gw_ledger g, gw_ledger_root g with
  | None, Some root =>
      do r := next_reply in
      match rp_metadata r with
      | Ok true => open_at root
      | Ok false => ret (Ok tt)
      | Err error => ret (Err (GLedger (LIo ("inspect " +:+ join root ".bullet-mutation-ledger"
                       +:+ " before online authority check: " +:+ error))))
      end
  | _, _ => ret (Ok tt)
  end ;!
  do g := get in
  ret match gw_ledger g with
      | Some l => map_err GLedger (status_require_writable (ml_recovery l))
      | None => Ok tt
      end.

(** [AuthorityGateway::acknowledge_online] *)
Definition acknowledge_online (pending : PendingMutation) (outcome : MutationOutcome)
    (result_digest : string) (completed_at_unix_ms : N) : M (result unit GatewayError) :=
  let subject := pm_subject pending in
  let fingerprint := settlement_fingerprint subject outcome result_digest completed_at_unix_ms in
  do reply := call_settle {| fsi_subject := subject; fsi_outcome := outcome;
    fsi_result_digest := result_digest; fsi_completed_at_unix_ms := completed_at_unix_ms;
    fsi_settlement_fingerprint := fingerprint |} in
  ret (let? ack := map_err (λ e, GSettlementUnknown (gateway_display e)) reply in
       fail_if (negb (String.eqb (vs_mutation_id ack) (ms_mutation_id subject))
                || negb (String.eqb (vs_reservation_id ack) (ms_reservation_id subject))
                || negb (String.eqb (vs_result_digest ack) result_digest)
                || negb (bool_decide (vs_settlement_fingerprint ack = fingerprint)))
         (GSettlementUnknown "online settlement acknowledgment changed an exact bound field")).

(** The final, local step of [settle_through]. *)
Definition settle_durably (pending : PendingMutation) (outcome : MutationOutcome)
    (result_digest : string) (completed_at_unix_ms : N) : M (result unit GatewayError) :=
  do g := get in
  match gw_ledger g with
  | None => ret (Err (GSettlementUnknown "durable authority ledger is unavailable"))
  | Some l =>
      do r := ledger_settle l (pm_subject pending) outcome result_digest completed_at_unix_ms in
      ret match r with
          | Ok _ => Ok tt
          | Err error => Err (GSettlementUnknown (ledger_display error))
          end
  end.

(** [AuthorityGateway::settle_through] *)
Definition settle_through (pending : PendingMutation) (outcome : MutationOutcome)
    (result_digest : string) (path : SettlementPath) : M (result unit GatewayError) :=
  do now := now_unix_ms in
  do? completed_at_unix_ms := ret (map_err (λ e, GSettlementUnknown (gateway_display e)) now) in
  do? parsed_digest :=
    ret (map_err (λ e, GSettlementUnknown (types_display e)) (from_hex result_digest)) in
  ret (fail_if (negb (String.eqb (to_hex parsed_digest) result_digest))
         (GSettlementUnknown "result digest is not full lowercase hexadecimal")) ;!
  match path with
  | Kernel => acknowledge_online pending outcome result_digest completed_at_unix_ms
  | ReceiptLocal => ret (Ok tt)
  end ;!
  settle_durably pending outcome result_digest completed_at_unix_ms.

(** [AuthorityGateway::settle] and [settle_locally] *)
Definition gateway_settle (pending : PendingMutation) (outcome : MutationOutcome)
    (result_digest : string) : M (result unit GatewayError) :=
  settle_through pending outcome result_digest Kernel.
Definition settle_locally (pending : PendingMutation) (outcome : MutationOutcome)
    (result_digest : string) : M (result unit GatewayError) :=
  settle_through pending outcome result_digest ReceiptLocal.

(** [AuthorityGateway::abort_before_repository] *)
Definition abort_before_repository (pending : PendingMutation) (refusal : GatewayError)
    (path : SettlementPath) : M GatewayError :=
  let subject := pm_subject pending in
  do settled := settle_through pending Aborted (abort_digest (ms_operation subject) refusal) path in
  match settled with
  | Ok _ => ret refusal
  | Err unknown =>
      do g := get in
      match gw_ledger g with
      | Some l => do _ := ledger_reserve l subject in ret unknown
      | None => ret unknown
      end
  end.

(** The refusal the permit window calls for, if any. *)
Definition window_refusal (now : result N GatewayError) (expires_at_unix_ms : N) : option GatewayError :=
  match now with
  | Ok now =>
      if expires_at_unix_ms <=? now then Some GPermitExpired
      else if MAX_MUTATION_PERMIT_TTL_MS <? expires_at_unix_ms - now then Some GInvalidPermitWindow
      else None
  | Err error => Some error
  end.

(** The two tests of [authorize] on the checker's decision. *)
Definition decision_binds (operation : MutationOperation) (fingerprint : Digest)
    (expected_attempt : string) (expected_fence : N) (expected_workspace_nonce : bytes)
    (d : VerifiedDecision) : result unit GatewayError :=
  fail_if (negb (bool_decide (vd_operation d = operation))
           || negb (bool_decide (ms_operation (vd_subject d) = operation))
           || negb (bool_decide (vd_transport_fingerprint d = fingerprint))
           || negb (String.eqb (ms_request_digest (vd_subject d)) (to_hex fingerprint)))
    (GSubjectMismatch "final-check response does not bind the exact operation and request") ;?
  fail_if (negb (String.eqb (ms_attempt_id (vd_subject d)) expected_attempt)
           || negb (ms_attempt_fence (vd_subject d) =? expected_fence)
           || negb (String.eqb (ms_workspace_nonce (vd_subject d)) (hex_encode expected_workspace_nonce)))
    (GSubjectMismatch "final-check response does not bind the exact writer incarnation").

(** [AuthorityGateway::authorize] *)
Definition authorize (operation : MutationOperation) (authority params : json)
    (expected_attempt : string) (expected_fence : N) (expected_workspace_nonce : bytes)
    : M (result MutationPermit GatewayError) :=
  recover_existing_ledger ;!
  do? fingerprint :=
    ret (transport_fingerprint operation (authority_without_permit authority) params) in
  do? decision := call_check {| fci_operation := operation; fci_authority := authority;
    fci_params := params; fci_transport_fingerprint := fingerprint |} in
  ret (decision_binds operation fingerprint expected_attempt expected_fence
         expected_workspace_nonce decision) ;!
  do now := now_unix_ms in
  let refusal := window_refusal now (vd_expires_at_unix_ms decision) in
  do? ledger := open_ledger in
  do reserved := ledger_reserve ledger (vd_subject decision) in
  do? permit := ret match reserved with
    | Err error => Err (GLedger error)
    | Ok Fresh => Ok {| mp_subject := vd_subject decision; mp_operation := operation;
        mp_transport_fingerprint := fingerprint;
        mp_expires_at_unix_ms := vd_expires_at_unix_ms decision |}
    | Ok (ExactReplay _) =>
        Err (GRefused "settled replay returns its durable result, never another permit")
    end in
  match refusal with
  | Some refusal => do error := abort_before_repository (into_pending permit) refusal Kernel in
      ret (Err error)
  | None => ret (Ok permit)
  end.

(** [AuthorityGateway::authorize_by_preservation_receipt] *)
Definition authorize_by_preservation_receipt (authority params : json) (receipt : ReceiptSubject)
    : M (result ReceiptAuthorization GatewayError) :=
  recover_existing_ledger ;!
  do? fingerprint :=
    ret (transport_fingerprint CleanupWorkspace (authority_without_permit authority) params) in
  do? now := now_unix_ms in
  do? expires_at_unix_ms := ret (ok_or (checked_add now MAX_MUTATION_PERMIT_TTL_MS)
    (GClock "permit window exceeds u64 milliseconds")) in
  let subject := receipt_mutation_subject receipt fingerprint in
  do? ledger := open_ledger in
  do reserved := ledger_reserve ledger subject in
  ret match reserved with
      | Err error => Err (GLedger error)
      | Ok Fresh => Ok (ReceiptFresh {| mp_subject := subject; mp_operation := CleanupWorkspace;
          mp_transport_fingerprint := fingerprint; mp_expires_at_unix_ms := expires_at_unix_ms |})
      | Ok (ExactReplay result) => Ok (ReceiptReplay result)
      end.

(** [AuthorityGateway::consume_through] *)
Definition consume_through (permit : MutationPermit) (operation : MutationOperation)
    (authority params : json) (path : SettlementPath) : M (result PendingMutation GatewayError) :=
  do now := now_unix_ms in
  let validation := let? now := now in
    validate_immediately_before_repository permit operation authority params now in
  match validation with
  | Ok _ => ret (Ok (into_pending permit))
  | Err refusal => do error := abort_before_repository (into_pending permit) refusal path in
      ret (Err error)
  end.

(** [AuthorityGateway::consume] and [consume_by_preservation_receipt] *)
Definition consume (permit : MutationPermit) (operation : MutationOperation)
    (authority params : json) : M (result PendingMutation GatewayError) :=
  consume_through permit operation authority params Kernel.
Definition consume_by_preservation_receipt (permit : MutationPermit) (authority params : json)
    : M (result PendingMutation GatewayError) :=
  consume_through permit CleanupWorkspace authority params ReceiptLocal.

(** [AuthorityGateway::attach_ledger_root] *)
Definition attach_ledger_root (root : string) : M unit := λ g,
  ({| gw_checker := gw_checker g; gw_ledger := gw_ledger g; gw_ledger_root := Some root;
      gw_disk := gw_disk g; gw_calls := gw_calls g |}, tt).
End Gateway.

(** ** Reasoning about gateway calls *)

Lemma reserve_root `{LedgerCodec} env fs l s fs' l' r :
  reserve env fs l s = (fs', l', r) → ml_root l' = ml_root l.
Proof.
  unfold reserve. intros Hr. repeat case_match; simplify_eq; done.
Qed.

Lemma settle_root `{LedgerCodec} env fs l s o d t fs' l' r :
  settle env fs l s o d t = (fs', l', r) → ml_root l' = ml_root l.
Proof.
  unfold settle. intros Hr. repeat case_match; simplify_eq; done.
Qed.

(** A listing is the directory's entries, in any order. *)
Definition faithful (r : replies) : Prop :=
  ∀ names names', rp_listing r names = Ok names' → names' ≡ₚ names.

Section Calls.
Context `{Blake3, HexCrate, LedgerCodec, !JsonEncode, !FinalAuthorityCheck}.

Lemma bind_inv {A B} (m : M A) (k : A → M B) g g' b :
  bind m k g = (g', b) → ∃ g1 a, m g = (g1, a) ∧ k a g1 = (g', b).
Proof. unfold bind. destruct (m g) as [g1 a]. eauto. Qed.

Lemma bind_ok_inv {A B E} (m : M (result A E)) (k : A → M (result B E)) g g' b :
  bind_ok m k g = (g', b) →
  (∃ g1 a, m g = (g1, Ok a) ∧ k a g1 = (g', b)) ∨ (∃ e, m g = (g', Err e) ∧ b = Err e).
Proof.
  unfold bind_ok. intros (g1 & [a|e] & Hm & Hk)%bind_inv; [left; eauto|].
  right. injection Hk as <- <-. eauto.
Qed.
End Calls.

(** Run a monadic hypothesis through its binds; the failures of [do?] are left
    as goals. *)
Ltac m_inv H :=
  lazymatch type of H with
  | bind _ _ _ = _ =>
      let g := fresh "g" in let a := fresh "a" in let Ha := fresh "Hm" in
      apply bind_inv in H as (g & a & Ha & H)
  | bind_ok _ _ _ = _ =>
      let g := fresh "g" in let a := fresh "a" in let Ha := fresh "Hm" in
      let e := fresh "e" in let He := fresh "He" in
      apply bind_ok_inv in H as [(g & a & Ha & H)|(e & Ha & He)]
  end.

(** ** Refinement: what the gateway does to one ledger directory

    Seen from the directory [p], each gateway method is a sequence of the ledger
    steps of [Ledger], made by one process.  [wp] collects that sequence. *)

Section Refinement.
Context `{Blake3, HexCrate, LedgerCodec, !JsonEncode, !FinalAuthorityCheck}.

Definition ledger_path (g : AuthorityGateway) : option string := ml_root <$> gw_ledger g.

(** The process that stands for gateway [g] in the directory [p]. *)
Definition proc_at (p : string) (g : AuthorityGateway) (l : MutationLedger) : Prop :=
  gw_ledger g = Some l ∧ ml_root l = p.

Definition at_dir (disk : gmap string lfs) (p : string) (procs : gmap nat MutationLedger) : ledger_sys :=
  {| sys_fs := dir disk p; sys_procs := procs |}.

Definition moves (pid : nat) (p : string) (g : AuthorityGateway) (outs : list ledger_output)
    (g' : AuthorityGateway) : Prop :=
  ∀ procs, (∀ l, proc_at p g l → procs !! pid = Some l) →
  ∃ procs', ledger_run (at_dir (gw_disk g) p procs) outs (at_dir (gw_disk g') p procs') ∧
    (∀ l, proc_at p g' l → procs' !! pid = Some l) ∧
    (∀ q, q ≠ pid → procs' !! q = procs !! q).

Lemma ledger_run_app sys outs sys' outs' sys'' :
  ledger_run sys outs sys' → ledger_run sys' outs' sys'' → ledger_run sys (outs ++ outs') sys''.
Proof.
  intros Hrun Hrun'. induction Hrun'; [by rewrite app_nil_r|].
  rewrite app_assoc. econstructor; eauto.
Qed.

Lemma moves_trans pid p g outs g1 outs' g' :
  moves pid p g outs g1 → moves pid p g1 outs' g' → moves pid p g (outs ++ outs') g'.
Proof.
  intros Hm Hm' procs Hp. destruct (Hm procs Hp) as (procs1 & Hr & Hp1 & Ho).
  destruct (Hm' procs1 Hp1) as (procs2 & Hr' & Hp2 & Ho'). exists procs2.
  split; [by eapply ledger_run_app|]. split; [done|]. intros q Hq. by rewrite Ho', Ho.
Qed.

(** A step that leaves the ledger and the disk alone. *)
Lemma moves_quiet pid p g g' :
  gw_ledger g' = gw_ledger g → gw_disk g' = gw_disk g → moves pid p g [] g'.
Proof.
  intros Hl Hd procs Hp. exists procs. unfold at_dir. rewrite Hd. split; [constructor|].
  split; [|done]. intros l [Hg Hr]. apply Hp. by rewrite Hl in Hg.
Qed.

Lemma moves_with pid p g fs l l' out :
  (∀ l0, gw_ledger g = Some l0 → l0 = l) → ml_root l' = ml_root l →
  (∀ procs, (gw_ledger g = Some l → procs !! pid = Some l) →
     ledger_step {| sys_fs := dir (gw_disk g) (ml_root l); sys_procs := procs |} out
       {| sys_fs := fs; sys_procs := <[pid := l']> procs |}) →
  moves pid p g (if decide (ml_root l = p) then [out] else []) (with_ledger g fs l').
Proof.
  intros Hl Hroot Hstep procs Hp. case_decide as Hdec.
  - exists (<[pid := l']> procs). split_and!.
    + apply (run_snoc _ [] (at_dir (gw_disk g) p procs)); [constructor|].
      unfold at_dir, dir at 2. simpl. rewrite Hroot, Hdec, lookup_insert_eq. simpl. rewrite <- Hdec.
      apply Hstep. intros Hg. apply Hp. by split.
    + intros l0 [[= <-] _]. apply lookup_insert_eq.
    + intros q Hq. by apply lookup_insert_ne.
  - exists procs. split_and!.
    + unfold at_dir, dir at 2. simpl. rewrite Hroot, lookup_insert_ne by done. constructor.
    + intros l0 [[= <-] Hr]. congruence.
    + done.
Qed.

Definition wp {A} (pid : nat) (p : string) (m : M A) (g : AuthorityGateway)
    (Q : list ledger_output → AuthorityGateway → A → Prop) : Prop :=
  ∃ outs, moves pid p g outs (fst (m g)) ∧ Q outs (fst (m g)) (snd (m g)).

Lemma wp_mono {A} pid p (m : M A) g (Q Q' : _ → _ → _ → Prop) :
  wp pid p m g Q → (∀ outs g' a, Q outs g' a → Q' outs g' a) → wp pid p m g Q'.
Proof. intros (outs & Hm & HQ) Himp. exists outs. auto. Qed.

Lemma wp_ret {A} pid p (a : A) g (Q : _ → _ → _ → Prop) : Q [] g a → wp pid p (ret a) g Q.
Proof. intros HQ. exists []. split; [by apply moves_quiet|done]. Qed.

Lemma wp_quiet {A} pid p (m : M A) g (Q : _ → _ → _ → Prop) :
  gw_ledger (fst (m g)) = gw_ledger g → gw_disk (fst (m g)) = gw_disk g →
  Q [] (fst (m g)) (snd (m g)) → wp pid p m g Q.
Proof. intros. exists []. split; [by apply moves_quiet|done]. Qed.

Lemma wp_get pid p g (Q : _ → _ → _ → Prop) : Q [] g g → wp pid p get g Q.
Proof. intros HQ. by apply wp_quiet. Qed.

Lemma wp_bind {A B} pid p (m : M A) (k : A → M B) g (Q : _ → _ → _ → Prop) :
  wp pid p m g (λ outs g1 a, wp pid p (k a) g1 (λ outs', Q (outs ++ outs'))) →
  wp pid p (bind m k) g Q.
Proof.
  unfold wp, bind. intros (outs & Hm & outs' & Hk & HQ). destruct (m g) as [g1 a]. simpl in *.
  exists (outs ++ outs'). split; [by eapply moves_trans|done].
Qed.

Lemma wp_bind_ok {A B E} pid p (m : M (result A E)) (k : A → M (result B E)) g (Q : _ → _ → _ → Prop) :
  wp pid p m g (λ outs g1 r, match r with
    | Ok a => wp pid p (k a) g1 (λ outs', Q (outs ++ outs'))
    | Err e => Q outs g1 (Err e)
    end) →
  wp pid p (bind_ok m k) g Q.
Proof.
  intros Hm. apply wp_bind. eapply wp_mono; [exact Hm|]. intros outs g1 [a|e] HQ; [done|].
  apply wp_ret. by rewrite app_nil_r.
Qed.

Lemma wp_then {A B E} pid p (m : M (result A E)) (k : A → M (result B E)) g (Q : _ → _ → _ → Prop) :
  wp pid p m g (λ _ _ _, True) →
  (∀ outs g1 a, wp pid p (k a) g1 (λ outs', Q (outs ++ outs'))) →
  (∀ outs g1 e, Q outs g1 (Err e)) →
  wp pid p (bind_ok m k) g Q.
Proof. intros Hm Hk He. apply wp_bind_ok. eapply wp_mono; [exact Hm|]. intros outs g1 [a|e] _; auto. Qed.
End Refinement.

Section MethodTraces.
Context `{Blake3, HexCrate, LedgerCodec, !JsonEncode, !FinalAuthorityCheck}.
Variables (env : nat → replies) (pid : nat) (p : string).
Hypothesis env_faithful : ∀ n, faithful (env n).

Lemma wp_next_reply g Q :
  (∀ g', gw_ledger g' = gw_ledger g → gw_disk g' = gw_disk g → Q [] g' (env (gw_calls g))) →
  wp pid p (next_reply env) g Q.
Proof. intros HQ. apply wp_quiet; [done..|]. by apply HQ. Qed.

Lemma wp_clock g (Q : _ → _ → _ → Prop) :
  (∀ g' r, gw_ledger g' = gw_ledger g → Q [] g' r) → wp pid p (now_unix_ms env) g Q.
Proof.
  intros HQ. apply wp_bind, wp_next_reply. intros g' Hl _. apply wp_ret. by apply HQ.
Qed.

Lemma wp_call_check input g (Q : _ → _ → _ → Prop) :
  (∀ g' r, gw_ledger g' = gw_ledger g → Q [] g' r) → wp pid p (call_check input) g Q.
Proof.
  intros HQ. unfold call_check. apply wp_quiet; simpl; destruct (checker_check _ _); [done..|].
  by apply HQ.
Qed.

Lemma wp_call_settle input g (Q : _ → _ → _ → Prop) :
  (∀ g' r, gw_ledger g' = gw_ledger g → Q [] g' r) → wp pid p (call_settle input) g Q.
Proof.
  intros HQ. unfold call_settle. apply wp_quiet; simpl; destruct (checker_settle _ _); [done..|].
  by apply HQ.
Qed.

Lemma wp_open_at root g (Q : _ → _ → _ → Prop) :
  gw_ledger g = None → (∀ outs g' r, Q outs g' r) → wp pid p (open_at env root) g Q.
Proof.
  intros Hnone HQ. apply wp_bind, wp_next_reply. intros g' Hl Hd. rewrite Hnone in Hl.
  set (r := env (gw_calls g)). set (path := join root ".bullet-mutation-ledger").
  unfold wp. cbv beta zeta. fold path.
  destruct (ledger_open path _ _ _ _) as [l|e] eqn:Ho; simpl.
  2: { exists []. split; [by apply moves_quiet|apply HQ]. }
  eexists. split; [|apply HQ].
  unfold ledger_open in Ho. destruct (rp_prepared r) as [[]|]; [|done].
  destruct (rp_listing r _) as [names|] eqn:Hn; [|done]. apply env_faithful in Hn. simpl in Ho.
  assert (ml_root l = path) as Hroot by (by injection Ho as <-). rewrite <- Hroot in *.
  apply (moves_with pid p g' _ l l (OutOpen pid (ml_recovery l))); [congruence|done|].
  intros procs _. apply (step_open (Build_ledger_sys _ procs) pid (ml_root l) (rp_open_error r) names l); [done|].
  rewrite <- Ho. unfold ledger_open. simpl. by rewrite Hroot.
Qed.

Lemma wp_open_ledger g (Q : _ → _ → _ → Prop) :
  (∀ outs g' r, (∀ l, r = Ok l → gw_ledger g' = Some l) → Q outs g' r) →
  wp pid p (open_ledger env) g Q.
Proof.
  intros HQ. apply wp_bind, wp_get, wp_then.
  - destruct (gw_ledger g) eqn:Hl; [by apply wp_ret|].
    destruct (gw_ledger_root g); [by apply wp_open_at|by apply wp_ret].
  - intros outs g' []. apply wp_bind, wp_get, wp_ret, HQ. intros l. by rewrite ok_or_Ok.
  - intros outs g' e. by apply HQ.
Qed.

Lemma wp_recover g (Q : _ → _ → _ → Prop) :
  (∀ outs g' r, Q outs g' r) → wp pid p (recover_existing_ledger env) g Q.
Proof.
  intros HQ. apply wp_bind, wp_get, wp_then.
  - destruct (gw_ledger g) eqn:Hl; [by apply wp_ret|].
    destruct (gw_ledger_root g) as [root|]; [|by apply wp_ret].
    apply wp_bind, wp_next_reply. intros g' Hl' _. rewrite Hl in Hl'.
    destruct (rp_metadata _) as [[]|]; [by apply wp_open_at|by apply wp_ret..].
  - intros outs g' []. apply wp_bind, wp_get, wp_ret, HQ.
  - intros outs g' e. by apply HQ.
Qed.

Lemma wp_ledger_reserve l s g (Q : _ → _ → _ → Prop) :
  gw_ledger g = Some l →
  (∀ outs g' r, ledger_path g' = Some (ml_root l) →
     (ml_root l = p → outs = [OutReserve pid s r]) → Q outs g' r) →
  wp pid p (ledger_reserve env l s) g Q.
Proof.
  intros Hg HQ. apply wp_bind, wp_next_reply. intros g' Hl Hd. rewrite Hg in Hl. unfold wp. cbv beta.
  destruct (reserve _ _ l s) as [[fs' l'] r] eqn:Hr. pose proof (reserve_root _ _ _ _ _ _ _ Hr) as Hroot.
  simpl. eexists. split; [|apply HQ].
  - apply (moves_with _ _ _ _ l _ (OutReserve pid s r)); [congruence|done|].
    intros procs Hp. eapply (step_reserve (Build_ledger_sys _ procs)); [by apply Hp|exact Hr].
  - unfold ledger_path. simpl. by rewrite Hroot.
  - intros Hp. by rewrite decide_True.
Qed.

Lemma wp_ledger_settle l s o d t g (Q : _ → _ → _ → Prop) :
  gw_ledger g = Some l →
  (∀ outs g' r, ledger_path g' = Some (ml_root l) →
     (ml_root l = p → outs = [OutSettle pid {| mr_subject := s; mr_outcome := o;
        mr_result_digest := d; mr_completed_at_unix_ms := t |} r]) → Q outs g' r) →
  wp pid p (ledger_settle env l s o d t) g Q.
Proof.
  intros Hg HQ. apply wp_bind, wp_next_reply. intros g' Hl Hd. rewrite Hg in Hl. unfold wp. cbv beta.
  destruct (settle _ _ l s o d t) as [[fs' l'] r] eqn:Hr. pose proof (settle_root _ _ _ _ _ _ _ _ _ _ Hr) as Hroot.
  simpl. eexists. split; [|apply HQ].
  - apply (moves_with _ _ _ _ l _ (OutSettle pid {| mr_subject := s; mr_outcome := o;
        mr_result_digest := d; mr_completed_at_unix_ms := t |} r)); [congruence|done|].
    intros procs Hp. eapply (step_settle (Build_ledger_sys _ procs)); [by apply Hp|exact Hr].
  - unfold ledger_path. simpl. by rewrite Hroot.
  - intros Hp. by rewrite decide_True.
Qed.

Definition requested (s : MutationSubject) (o : MutationOutcome) (d : string) (t : N) : MutationResult :=
  {| mr_subject := s; mr_outcome := o; mr_result_digest := d; mr_completed_at_unix_ms := t |}.

Lemma wp_settle_durably pending o d t g (Q : _ → _ → _ → Prop) :
  (∀ outs g' r, (r = Ok tt → ledger_path g' = Some p →
      ∃ x, OutSettle pid (requested (pm_subject pending) o d t) (Ok x) ∈ outs) → Q outs g' r) →
  wp pid p (settle_durably env pending o d t) g Q.
Proof.
  intros HQ. apply wp_bind, wp_get. destruct (gw_ledger g) as [l|] eqn:Hl; [|by apply wp_ret, HQ].
  apply wp_bind, (wp_ledger_settle l); [done|]. intros outs g' r Hpath Hout.
  apply wp_ret, HQ. rewrite Hpath. intros Hok [= Hp]. rewrite (Hout Hp). destruct r as [x|]; [|done].
  exists x. unfold requested. set_solver.
Qed.

Lemma wp_settle_through pending o d path g (Q : _ → _ → _ → Prop) :
  (∀ outs g' r, (r = Ok tt → ledger_path g' = Some p →
      ∃ t x, OutSettle pid (requested (pm_subject pending) o d t) (Ok x) ∈ outs) → Q outs g' r) →
  wp pid p (settle_through env pending o d path) g Q.
Proof.
  intros HQ. apply wp_bind, wp_clock. intros g1 now _. apply wp_bind_ok, wp_ret.
  destruct now as [t|e]; [|by apply HQ]. simpl. apply wp_bind_ok, wp_ret.
  destruct (from_hex d) as [parsed|e]; [|by apply HQ]. simpl. apply wp_bind_ok, wp_ret.
  destruct (fail_if _ _); [|by apply HQ]. apply wp_then.
  - destruct path; [|by apply wp_ret]. apply wp_bind, wp_call_settle. intros g2 r _. by apply wp_ret.
  - intros outs g2 []. apply wp_settle_durably. intros outs' g3 r Hr. apply HQ.
    intros Hok Hpath. destruct (Hr Hok Hpath) as [x Hx]. exists t, x. set_solver.
  - intros outs g2 e. by apply HQ.
Qed.

Lemma wp_abort pending refusal path g (Q : _ → _ → _ → Prop) :
  (∀ outs g' e, Q outs g' e) → wp pid p (abort_before_repository env pending refusal path) g Q.
Proof.
  intros HQ. apply wp_bind, wp_settle_through. intros outs g1 [[]|e] _; [by apply wp_ret|].
  apply wp_bind, wp_get. destruct (gw_ledger g1) as [l|] eqn:Hl; [|by apply wp_ret].
  apply wp_bind, (wp_ledger_reserve l); [done|]. intros. by apply wp_ret.
Qed.

Definition permit_traced (s : MutationSubject) (outs : list ledger_output) (g' : AuthorityGateway) : Prop :=
  ledger_path g' = Some p → OutReserve pid s (Ok Fresh) ∈ outs.

Lemma wp_authorize op authority params attempt fence nonce g (Q : _ → _ → _ → Prop) :
  (∀ outs g' r, (∀ permit, r = Ok permit → permit_traced (mp_subject permit) outs g') → Q outs g' r) →
  wp pid p (authorize env op authority params attempt fence nonce) g Q.
Proof.
  intros HQ. apply wp_then; [by apply wp_recover| |intros; by apply HQ].
  intros outs1 g1 []. apply wp_bind_ok, wp_ret.
  destruct (transport_fingerprint _ _ _) as [fp|e]; [|by apply HQ].
  apply wp_bind_ok, wp_call_check. intros g2 [decision|e] _; [|by apply HQ].
  apply wp_bind_ok, wp_ret. destruct (decision_binds _ _ _ _ _ _) as [[]|e]; [|by apply HQ].
  apply wp_bind, wp_clock. intros g3 now _.
  apply wp_bind_ok, wp_open_ledger. intros outs2 g4 [l|e] Hl; [|by apply HQ].
  apply wp_bind, (wp_ledger_reserve l); [by apply Hl|]. intros outs3 g5 r Hpath Hout.
  apply wp_bind_ok, wp_ret. destruct r as [[|]|]; [|by apply HQ..].
  destruct (window_refusal _ _) as [refusal|].
  - apply wp_bind, wp_abort. intros. apply wp_ret. by apply HQ.
  - apply wp_ret, HQ. intros permit [= <-] Hp. rewrite Hpath in Hp. injection Hp as Hp.
    rewrite (Hout Hp). simpl. set_solver.
Qed.

Lemma wp_receipt authority params receipt g (Q : _ → _ → _ → Prop) :
  (∀ outs g' r, (∀ permit, r = Ok (ReceiptFresh permit) → permit_traced (mp_subject permit) outs g') →
     Q outs g' r) →
  wp pid p (authorize_by_preservation_receipt env authority params receipt) g Q.
Proof.
  intros HQ. apply wp_then; [by apply wp_recover| |intros; by apply HQ].
  intros outs1 g1 []. apply wp_bind_ok, wp_ret.
  destruct (transport_fingerprint _ _ _) as [fp|e]; [|by apply HQ].
  apply wp_bind_ok, wp_clock. intros g2 [now|e] _; [|by apply HQ].
  apply wp_bind_ok, wp_ret. destruct (ok_or _ _) as [expires|e]; [|by apply HQ].
  apply wp_bind_ok, wp_open_ledger. intros outs2 g3 [l|e] Hl; [|by apply HQ].
  apply wp_bind, (wp_ledger_reserve l); [by apply Hl|]. intros outs3 g4 r Hpath Hout.
  apply wp_ret, HQ. intros permit Hr Hp. destruct r as [[|]|]; [|done..]. injection Hr as <-.
  rewrite Hpath in Hp. injection Hp as Hp. rewrite (Hout Hp). simpl. set_solver.
Qed.

Lemma wp_consume permit op authority params path g (Q : _ → _ → _ → Prop) :
  (∀ outs g' r, Q outs g' r) → wp pid p (consume_through env permit op authority params path) g Q.
Proof.
  intros HQ. apply wp_bind, wp_clock. intros g1 now _. cbv zeta.
  destruct (res_bind _ _); [by apply wp_ret|]. apply wp_bind, wp_abort. intros. by apply wp_ret.
Qed.
End MethodTraces.

(** ** Many daemons over one disk *)

Inductive gateway_call `{LedgerCodec} : Type :=
  | CallAttach (root : string)
  | CallAuthorize (operation : MutationOperation) (authority params : json)
      (expected_attempt : string) (expected_fence : N) (expected_workspace_nonce : bytes)
  | CallReceipt (authority params : json) (receipt : ReceiptSubject)
  | CallConsume (permit : MutationPermit) (operation : MutationOperation) (authority params : json)
  | CallConsumeReceipt (permit : MutationPermit) (authority params : json)
  | CallSettle (pending : PendingMutation) (outcome : MutationOutcome) (result_digest : string)
  | CallSettleLocally (pending : PendingMutation) (outcome : MutationOutcome) (result_digest : string).

Inductive gateway_reply : Type :=
  | RepAttached
  | RepPermit (r : result MutationPermit GatewayError)
  | RepReceipt (r : result ReceiptAuthorization GatewayError)
  | RepPending (r : result PendingMutation GatewayError)
  | RepSettled (subject : MutationSubject) (outcome : MutationOutcome) (result_digest : string)
      (r : result unit GatewayError).

(** A reply, the daemon it came from, and the ledger that daemon holds. *)
Record gateway_output : Type := {
  go_pid : nat;
  go_path : option string;
  go_reply : gateway_reply
}.

Section Farm.
Context `{Blake3, HexCrate, LedgerCodec, !JsonEncode, !FinalAuthorityCheck}.

Definition exec (env : nat → replies) (c : gateway_call) : M gateway_reply :=
  match c with
  | CallAttach root => bind (attach_ledger_root root) (λ _, ret RepAttached)
  | CallAuthorize op authority params attempt fence nonce =>
      bind (authorize env op authority params attempt fence nonce) (λ r, ret (RepPermit r))
  | CallReceipt authority params receipt =>
      bind (authorize_by_preservation_receipt env authority params receipt) (λ r, ret (RepReceipt r))
  | CallConsume permit op authority params =>
      bind (consume env permit op authority params) (λ r, ret (RepPending r))
  | CallConsumeReceipt permit authority params =>
      bind (consume_by_preservation_receipt env permit authority params) (λ r, ret (RepPending r))
  | CallSettle pending o d =>
      bind (gateway_settle env pending o d) (λ r, ret (RepSettled (pm_subject pending) o d r))
  | CallSettleLocally pending o d =>
      bind (settle_locally env pending o d) (λ r, ret (RepSettled (pm_subject pending) o d r))
  end.

Record farm : Type := {
  fm_disk : gmap string lfs;
  fm_gateways : gmap nat AuthorityGateway
}.
Definition farm_init : farm := {| fm_disk := ∅; fm_gateways := ∅ |}.

(** [AuthorityGateway::unavailable] and [AuthorityGateway::kernel]: a gateway
    without ledger. *)
Definition new_gateway (c : checker) : AuthorityGateway :=
  {| gw_checker := c; gw_ledger := None; gw_ledger_root := None; gw_disk := ∅; gw_calls := 0 |}.
Definition on_disk (disk : gmap string lfs) (g : AuthorityGateway) : AuthorityGateway :=
  {| gw_checker := gw_checker g; gw_ledger := gw_ledger g; gw_ledger_root := gw_ledger_root g;
     gw_disk := disk; gw_calls := 0 |}.

(** Daemons start, and restart after any crash, at any time; calls of different
    daemons interleave; any permit and any pending mutation may be presented. *)
Inductive farm_step : farm → list gateway_output → farm → Prop :=
  | farm_start f pid c :
      farm_step f [] {| fm_disk := fm_disk f; fm_gateways := <[pid := new_gateway c]> (fm_gateways f) |}
  | farm_call f pid env call g g' reply :
      fm_gateways f !! pid = Some g → (∀ n, faithful (env n)) →
      exec env call (on_disk (fm_disk f) g) = (g', reply) →
      farm_step f [{| go_pid := pid; go_path := ledger_path g'; go_reply := reply |}]
        {| fm_disk := gw_disk g'; fm_gateways := <[pid := g']> (fm_gateways f) |}.

Inductive farm_run : farm → list gateway_output → farm → Prop :=
  | farm_nil f : farm_run f [] f
  | farm_snoc f outs mid out f' :
      farm_run f outs mid → farm_step mid out f' → farm_run f (outs ++ out) f'.

(** The mutation a reply issues a permit for, under the ledger at [p]. *)
Definition issued (p : string) (o : gateway_output) : list MutationSubject :=
  if decide (go_path o = Some p) then
    match go_reply o with
    | RepPermit (Ok permit) => [mp_subject permit]
    | RepReceipt (Ok (ReceiptFresh permit)) => [mp_subject permit]
    | _ => []
    end
  else [].
Definition permits (p : string) (outs : list gateway_output) : list MutationSubject :=
  flat_map (issued p) outs.

(** The settlements a reply acknowledges, under the ledger at [p]. *)
Definition settled_at (p : string) (o : gateway_output) (s : MutationSubject)
    (outcome : MutationOutcome) (d : string) : Prop :=
  go_path o = Some p ∧ go_reply o = RepSettled s outcome d (Ok tt).

(** The ledger events that stand for one reply. *)
Definition traced (p : string) (o : gateway_output) (outs : list ledger_output) : Prop :=
  (∀ s, s ∈ issued p o → issued p o = [s] ∧ OutReserve (go_pid o) s (Ok Fresh) ∈ outs) ∧
  (∀ s outcome d, settled_at p o s outcome d →
     ∃ t x, OutSettle (go_pid o) (requested s outcome d t) (Ok x) ∈ outs).

Lemma traced_none p pid path r outs :
  match r with RepAttached | RepPending _ => True | _ => False end →
  traced p {| go_pid := pid; go_path := path; go_reply := r |} outs.
Proof.
  intros Hr. split.
  - intros s. unfold issued. simpl. case_decide; destruct r; try done; by intros ?%elem_of_nil.
  - intros s o d [_ Hs]. simpl in Hs. by subst r.
Qed.

Lemma exec_traced env p pid c g :
  (∀ n, faithful (env n)) →
  wp pid p (exec env c) g (λ outs g' r,
    traced p {| go_pid := pid; go_path := ledger_path g'; go_reply := r |} outs).
Proof.
  intros Hf. destruct c; apply wp_bind.
  - apply wp_quiet; [done..|]. by apply wp_ret, traced_none.
  - apply wp_authorize; [done|]. intros outs g' r Hr. apply wp_ret. rewrite app_nil_r.
    split; [|by intros s o d [_ ?]]. intros s. unfold issued. simpl. case_decide as Hp; [|by intros ?%elem_of_nil].
    destruct r as [permit|]; [|by intros ?%elem_of_nil]. intros ->%list_elem_of_singleton.
    split; [done|]. by apply (Hr permit).
  - apply wp_receipt; [done|]. intros outs g' r Hr. apply wp_ret. rewrite app_nil_r.
    split; [|by intros s o d [_ ?]]. intros s. unfold issued. simpl. case_decide as Hp; [|by intros ?%elem_of_nil].
    destruct r as [[permit|]|]; [|by intros ?%elem_of_nil..]. intros ->%list_elem_of_singleton.
    split; [done|]. by apply (Hr permit).
  - apply wp_consume; [done|]. intros outs g' r. by apply wp_ret, traced_none.
  - apply wp_consume; [done|]. intros outs g' r. by apply wp_ret, traced_none.
  - apply wp_settle_through; [done|]. intros outs g' r Hr. apply wp_ret. rewrite app_nil_r. split.
    + intros s. unfold issued. simpl. case_decide; by intros ?%elem_of_nil.
    + intros s o d [Hp [= <- <- <- ->]]. by apply Hr.
  - apply wp_settle_through; [done|]. intros outs g' r Hr. apply wp_ret. rewrite app_nil_r. split.
    + intros s. unfold issued. simpl. case_decide; by intros ?%elem_of_nil.
    + intros s o d [Hp [= <- <- <- ->]]. by apply Hr.
Qed.

(** The ledger system stands for the farm, seen from the directory [p]. *)
Record represents (p : string) (f : farm) (sys : ledger_sys) : Prop := {
  rep_fs : sys_fs sys = dir (fm_disk f) p;
  rep_procs pid g l : fm_gateways f !! pid = Some g → proc_at p g l → sys_procs sys !! pid = Some l
}.

Lemma permits_app p outs outs' : permits p (outs ++ outs') = permits p outs ++ permits p outs'.
Proof. apply flat_map_app. Qed.

Lemma issued_fresh p o louts :
  traced p o louts → map ms_mutation_id (issued p o) ⊆+ fresh_ids louts.
Proof.
  intros [Hi _]. destruct (issued p o) as [|s l]; [apply submseteq_nil_l|].
  destruct (Hi s) as [[= ->] Hin]; [by left|]. simpl. apply singleton_submseteq_l, fresh_ids_elem. eauto.
Qed.

(** One step of the farm is a sequence of steps of the ledger system. *)
Lemma farm_step_sim p f out f' sys :
  farm_step f out f' → represents p f sys →
  ∃ louts sys', ledger_run sys louts sys' ∧ represents p f' sys' ∧
    map ms_mutation_id (permits p out) ⊆+ fresh_ids louts ∧
    ∀ o s outcome d, o ∈ out → settled_at p o s outcome d →
      ∃ pid t x, OutSettle pid (requested s outcome d t) (Ok x) ∈ louts.
Proof.
  intros Hstep [Hfs Hprocs]. destruct Hstep as [f pid c|f pid env call g g' reply Hg Hf Hexec].
  - exists [], sys. split; [constructor|]. split; [split; [done|]|].
    + intros pid' g l Hl [Hg Hp]. simpl in Hl. apply lookup_insert_Some in Hl as [[<- <-]|[_ Hl]]; [done|].
      by eapply Hprocs.
    + split; [done|]. by intros o s outcome d ?%elem_of_nil.
  - destruct (exec_traced env p pid call (on_disk (fm_disk f) g) Hf) as (louts & Hm & Ht).
    rewrite Hexec in Hm, Ht. simpl in Hm, Ht.
    destruct (Hm (sys_procs sys)) as (procs' & Hrun & Hp' & Ho').
    { intros l Hl. by eapply Hprocs. }
    exists louts, (at_dir (gw_disk g') p procs'). split; [|split; [split; [done|]|split]].
    + unfold at_dir at 1 in Hrun. simpl in Hrun. rewrite <- Hfs in Hrun. by destruct sys.
    + intros pid' g0 l Hl Hp. simpl in Hl. apply lookup_insert_Some in Hl as [[<- <-]|[Hne Hl]].
      * by apply Hp'.
      * simpl. rewrite Ho' by done. by eapply Hprocs.
    + unfold permits. simpl. rewrite app_nil_r. by apply issued_fresh.
    + intros o s outcome d ->%list_elem_of_singleton Hs. destruct Ht as [_ Ht].
      destruct (Ht _ _ _ Hs) as (t & x & Hin). eauto.
Qed.

Lemma farm_sim p outs f :
  farm_run farm_init outs f →
  ∃ louts sys, ledger_run ledger_init louts sys ∧ represents p f sys ∧
    map ms_mutation_id (permits p outs) ⊆+ fresh_ids louts ∧
    ∀ o s outcome d, o ∈ outs → settled_at p o s outcome d →
      ∃ pid t x, OutSettle pid (requested s outcome d t) (Ok x) ∈ louts.
Proof.
  remember farm_init as init eqn:Hi. induction 1 as [f|f outs mid out f' Hrun IH Hstep]; subst.
  - exists [], ledger_init. split; [constructor|]. split; [split; [done|by intros pid g l [=]]|].
    split; [done|]. by intros o s outcome d ?%elem_of_nil.
  - destruct IH as (louts & sys & Hl & Hrep & Hper & Hset); [done|].
    destruct (farm_step_sim p _ _ _ _ Hstep Hrep) as (louts' & sys' & Hl' & Hrep' & Hper' & Hset').
    exists (louts ++ louts'), sys'. split; [by eapply ledger_run_app|]. split; [done|]. split.
    + rewrite permits_app, map_app. unfold fresh_ids. rewrite flat_map_app. by apply submseteq_app.
    + intros o s outcome d [Ho|Ho]%elem_of_app Hs.
      * destruct (Hset _ _ _ _ Ho Hs) as (pid & t & x & Hin). exists pid, t, x. set_solver.
      * destruct (Hset' _ _ _ _ Ho Hs) as (pid & t & x & Hin). exists pid, t, x. set_solver.
Qed.

(** C11: one permit per mutation.  Over any number of daemons sharing one disk,
    restarting at any point, with their calls interleaved in any order and
    whatever the checker, the clock and the file system answer, the permits
    issued against one ledger directory carry pairwise distinct mutation ids. *)
Theorem permits_issued_once p outs f :
  farm_run farm_init outs f → NoDup (map ms_mutation_id (permits p outs)).
Proof.
  intros (louts & sys & Hl & _ & Hper & _)%(farm_sim p). destruct (fresh_ids_run _ _ _ Hl) as [Hnd _].
  apply submseteq_Permutation in Hper as [k Hk]. rewrite Hk in Hnd. by apply NoDup_app in Hnd as [? _].
Qed.
End Farm.

Section Settling.
Context `{Blake3, HexCrate, LedgerCodecLaws, !JsonEncode, !FinalAuthorityCheck}.

(** A mutation settles one way.  Whatever any daemons do in any order,
    two settlements of a mutation acknowledged under one ledger directory agree
    on the subject, the outcome and the result digest, and that result is on
    disk. *)
Theorem settlements_agree p outs f o s outcome d o' s' outcome' d' :
  farm_run farm_init outs f → o ∈ outs → o' ∈ outs →
  settled_at p o s outcome d → settled_at p o' s' outcome' d' →
  ms_mutation_id s = ms_mutation_id s' →
  s = s' ∧ outcome = outcome' ∧ d = d' ∧
  ∃ t, terminal (dir (fm_disk f) p) (ms_mutation_id s) (requested s outcome d t).
Proof.
  intros (louts & sys & Hl & [Hfs _] & _ & Hset)%(farm_sim p) Ho Ho' Hs Hs' Hid.
  destruct (Hset _ _ _ _ Ho Hs) as (pid & t & x & Hin).
  destruct (Hset _ _ _ _ Ho' Hs') as (pid' & t' & x' & Hin').
  destruct (run_inv _ _ Hl) as (_ & Hrep & _).
  pose proof (Hrep _ _ Hin (settled_requested _ _ _ _ _ _ Hl Hin)) as Ht.
  pose proof (Hrep _ _ Hin' (settled_requested _ _ _ _ _ _ Hl Hin')) as Ht'.
  simpl in Ht, Ht'. rewrite <- Hid in Ht'. pose proof (terminal_fun _ _ _ _ Ht Ht') as Heq.
  injection Heq as -> -> -> ->. rewrite <- Hfs. eauto.
Qed.
End Settling.

(** ** One call at a time *)

Section Single.
Context `{Blake3, HexLaws, LedgerCodecLaws, !JsonEncode, !FinalAuthorityCheck}.
Variable env : nat → replies.

(** The reservation of [s] is durable, owned by this gateway and unsettled. *)
Definition live (g : AuthorityGateway) (s : MutationSubject) : Prop :=
  ∃ l b, gw_ledger g = Some l ∧ is_frozen (ml_recovery l) = false ∧ subject_validate s = Ok tt ∧
    ms_mutation_id s ∈ ml_owned_reservations l ∧ event_line (reserved s) b ∧
    dir (gw_disk g) (ml_root l) !! record_name (ms_mutation_id s) = Some (LFile b).

Definition frozen (g : AuthorityGateway) : Prop :=
  ∃ l, gw_ledger g = Some l ∧ is_frozen (ml_recovery l) = true.

(** The ledger the gateway holds has terminal result [r]. *)
Definition durable (g : AuthorityGateway) (r : MutationResult) : Prop :=
  ∃ l, gw_ledger g = Some l ∧ terminal (dir (gw_disk g) (ml_root l)) (ms_mutation_id (mr_subject r)) r.

(** The gateways differ in the checker and the calls only. *)
Definition same_ledger (g g' : AuthorityGateway) : Prop :=
  gw_ledger g' = gw_ledger g ∧ gw_disk g' = gw_disk g.

Lemma same_live g g' s : same_ledger g g' → live g s → live g' s.
Proof. unfold live. by intros [-> ->]. Qed.

Lemma same_trans g g' g'' : same_ledger g g' → same_ledger g' g'' → same_ledger g g''.
Proof. unfold same_ledger. intuition congruence. Qed.

Lemma clock_inv g g' r :
  now_unix_ms env g = (g', r) → same_ledger g g' ∧ ∃ n, r = clock_reading (env n).
Proof. unfold now_unix_ms. intros Hm. m_inv Hm. injection Hm0 as <- <-. injection Hm as <- <-. split; [done|eauto]. Qed.

Lemma clock_bounded r now : clock_reading r = Ok now → now <= u64_max.
Proof. unfold clock_reading. intros Hr. res_inv. bools. lia. Qed.

Lemma next_reply_inv g g' r : next_reply env g = (g', r) → same_ledger g g' ∧ r = env (gw_calls g).
Proof. by intros [= <- <-]. Qed.

Lemma settle_refused lenv fs l s o d t fs' l' e :
  settle lenv fs l s o d t = (fs', l', Err e) → (fs' = fs ∧ l' = l) ∨ is_frozen (ml_recovery l') = true.
Proof.
  unfold settle. intros Hs.
  repeat match type of Hs with
  | context [match ?x with _ => _ end] => destruct x eqn:?
  end; simplify_eq; auto; right; apply is_frozen_corrupt.
Qed.

Lemma reserve_freezes lenv fs l s b fs' l' r :
  subject_validate s = Ok tt → event_line (reserved s) b →
  fs !! record_name (ms_mutation_id s) = Some (LFile b) →
  reserve lenv fs l s = (fs', l', r) →
  is_frozen (ml_recovery l') = true ∨ le_create_error lenv ≠ None.
Proof.
  intros Hv Hb Hf Hr. unfold reserve in Hr.
  destruct (is_frozen (ml_recovery l)) eqn:Hfr.
  { unfold status_require_writable in Hr. rewrite Hfr in Hr. injection Hr as _ <- _. by left. }
  unfold status_require_writable in Hr. rewrite Hfr in Hr. simpl in Hr. rewrite Hv in Hr.
  destruct (le_create_error lenv); [by right|]. rewrite Hf in Hr.
  destruct (load_record _ fs _ _) as [state|e] eqn:Hl.
  2: { injection Hr as _ <- _. left. apply is_frozen_corrupt. }
  apply load_record_Ok in Hl as (c & Hc & Hp). rewrite Hf in Hc. injection Hc as <-.
  rewrite (parse_reserved s b) in Hp by done. injection Hp as <-. simpl in Hr.
  unfold require_same_subject in Hr. rewrite bool_decide_eq_true_2 in Hr by done. simpl in Hr.
  injection Hr as _ <- _. left. apply is_frozen_indeterminate.
Qed.

(** The checker acknowledged this exact settlement. *)
Definition acknowledged (s : MutationSubject) (o : MutationOutcome) (d : string) (t : N) : Prop :=
  let fingerprint := settlement_fingerprint s o d t in
  ∃ c c' ack,
    checker_settle c {| fsi_subject := s; fsi_outcome := o; fsi_result_digest := d;
      fsi_completed_at_unix_ms := t; fsi_settlement_fingerprint := fingerprint |} = (c', Ok ack) ∧
    ack = {| vs_mutation_id := ms_mutation_id s; vs_reservation_id := ms_reservation_id s;
             vs_result_digest := d; vs_settlement_fingerprint := fingerprint |}.

Lemma acknowledge_inv pending o d t g g' r :
  acknowledge_online pending o d t g = (g', r) →
  same_ledger g g' ∧
  ((r = Ok tt ∧ acknowledged (pm_subject pending) o d t) ∨ ∃ m, r = Err (GSettlementUnknown m)).
Proof.
  unfold acknowledge_online, call_settle. intros Hm. m_inv Hm.
  destruct (checker_settle _ _) as [c' reply] eqn:Hc. injection Hm0 as <- <-. injection Hm as <- <-.
  split; [done|]. destruct reply as [ack|e]; [|right; simpl; eauto]. cbn [map_err res_bind].
  destruct (fail_if _ _) as [[]|e] eqn:Hf.
  - left. split; [done|]. apply fail_if_Ok in Hf. exists (gw_checker g), c', ack. split; [done|].
    bools. destruct Hf as [[[Hf1 Hf2] Hf3] Hf4]. destruct ack. simpl in *. by subst.
  - right. apply fail_if_Err in Hf as [_ ->]. eauto.
Qed.

Lemma settle_durably_live pending o d t g g' r :
  live g (pm_subject pending) → settle_durably env pending o d t g = (g', r) →
  (r = Ok tt ∧ durable g' (requested (pm_subject pending) o d t) ∧ (o = Unknown → frozen g')) ∨
  ((∃ m, r = Err (GSettlementUnknown m)) ∧ (live g' (pm_subject pending) ∨ frozen g')).
Proof.
  intros (l & b & Hl & Hfr & Hv & Hown & Hb & Hf). unfold settle_durably, ledger_settle. intros Hm.
  m_inv Hm. injection Hm0 as <- <-. rewrite Hl in Hm. m_inv Hm. m_inv Hm0.
  apply next_reply_inv in Hm1 as [[Hl' Hd] ->].
  destruct (settle _ _ l _ _ _ _) as [[fs' l'] res] eqn:Hs. pose proof (settle_root _ _ _ _ _ _ _ _ _ _ Hs) as Hroot.
  injection Hm0 as <- <-. injection Hm as <- <-. rewrite Hd in Hs. destruct res as [x|e].
  - left. split; [done|].
    destruct (settle_owned l (dir (gw_disk g) (ml_root l)) (rp_ledger (env (gw_calls g)))
      (requested (pm_subject pending) o d t) fs' l' x) as (-> & Hterm & Hfrz); [|done|].
    { exists (pm_subject pending), b. done. }
    split.
    + exists l'. split; [done|]. simpl. unfold dir. rewrite lookup_insert_eq. done.
    + intros ->. exists l'. split; [done|]. rewrite Hfrz. by rewrite bool_decide_eq_true_2.
  - right. split; [eauto|]. apply settle_refused in Hs as [[-> ->]|Hfrz]; [left|right; by exists l'].
    exists l, b. simpl. unfold dir at 1. rewrite lookup_insert_eq. done.
Qed.

(** The one outcome of a settlement that is not unknown. *)
Definition settled_now (g' : AuthorityGateway) (s : MutationSubject) (o : MutationOutcome) (d : string)
    (path : SettlementPath) : Prop :=
  ∃ n t, clock_reading (env n) = Ok t ∧ durable g' (requested s o d t) ∧
    (path = Kernel → acknowledged s o d t) ∧ (o = Unknown → frozen g').

Lemma settle_through_live path pending o d g g' r :
  live g (pm_subject pending) → settle_through env pending o d path g = (g', r) →
  (r = Ok tt ∧ settled_now g' (pm_subject pending) o d path) ∨
  ((∃ m, r = Err (GSettlementUnknown m)) ∧ (live g' (pm_subject pending) ∨ frozen g')).
Proof.
  intros Hlive. unfold settle_through. intros Hm. m_inv Hm.
  apply clock_inv in Hm0 as [Hsame [n ->]]. apply (same_live _ _ _ Hsame) in Hlive. clear Hsame.
  m_inv Hm; injection Hm0 as -> Hc.
  2: { right. destruct (clock_reading (env n)); simpl in Hc; simplify_eq. eauto. }
  rename a into t. apply map_err_Ok in Hc. m_inv Hm; injection Hm0 as -> Hd.
  2: { right. destruct (from_hex d); simpl in Hd; simplify_eq. eauto. }
  m_inv Hm; injection Hm0 as -> Hd2.
  2: { right. apply fail_if_Err in Hd2 as [_ ->]. eauto. }
  assert (∀ g0 g1 r1, live g0 (pm_subject pending) → match path with
            | Kernel => acknowledge_online pending o d t
            | ReceiptLocal => ret (Ok tt) end g0 = (g1, r1) →
          live g1 (pm_subject pending) ∧ ((r1 = Ok tt ∧ (path = Kernel → acknowledged (pm_subject pending) o d t))
             ∨ ∃ m, r1 = Err (GSettlementUnknown m))) as Hack.
  { clear g g' Hlive Hm. intros g g3 r3 Hlive Ha. destruct path.
    - apply acknowledge_inv in Ha as [Hsame Ha]. split; [by eapply same_live|].
      destruct Ha as [[? ?]|?]; auto.
    - injection Ha as <- <-. split; [done|]. by left. }
  m_inv Hm; apply (Hack _ _ _ Hlive) in Hm0 as [Hlive' Hr].
  - destruct Hr as [[_ Hack']|[m [=]]]. destruct (settle_durably_live _ _ _ _ _ _ _ Hlive' Hm)
      as [(-> & Hdur & Hfr)|Hbad]; [left|by right].
    split; [done|]. exists n, t. done.
  - right. destruct Hr as [[[=] _]|[m [= ->]]]. subst r. eauto.
Qed.

(** How a refusal after the reservation ends: a proven abort, acknowledged and
    durable, or an unknown outcome that freezes the ledger of this process
    unless even that call fails. *)
Definition aborted_or_frozen (g' : AuthorityGateway) (s : MutationSubject) (refusal e : GatewayError)
    (path : SettlementPath) : Prop :=
  (e = refusal ∧ settled_now g' s Aborted (abort_digest (ms_operation s) refusal) path) ∨
  ((∃ m, e = GSettlementUnknown m) ∧
   (frozen g' ∨ ∃ n, le_create_error (rp_ledger (env n)) ≠ None)).

Lemma abort_live path pending refusal g g' e :
  live g (pm_subject pending) → abort_before_repository env pending refusal path g = (g', e) →
  aborted_or_frozen g' (pm_subject pending) refusal e path.
Proof.
  intros Hlive. unfold abort_before_repository. intros Hm. m_inv Hm.
  apply settle_through_live in Hm0 as [[-> Hs]|[[m ->] Hlf]]; [|..|done].
  { injection Hm as <- <-. by left. }
  right. m_inv Hm. injection Hm0 as <- <-. destruct Hlf as [(l & b & Hl & Hfr & Hv & Hown & Hb & Hf)|(l & Hl & Hfr)];
    rewrite Hl in Hm; m_inv Hm; unfold ledger_reserve in Hm0; m_inv Hm0;
    apply next_reply_inv in Hm1 as [[Hl' Hd] ->];
    destruct (reserve _ _ l _) as [[fs' l'] res] eqn:Hr; injection Hm0 as <- <-; injection Hm as <- <-;
    (split; [eauto|]).
  - rewrite Hd in Hr. apply (reserve_freezes _ _ _ _ b) in Hr as [Hfz|Hce]; [|..|done|done|done]; [left|right; eauto].
    by exists l'.
  - left. exists l'. split; [done|]. unfold reserve, status_require_writable in Hr. rewrite Hfr in Hr.
    injection Hr as _ <- _. done.
Qed.

(** No ledger directory changed. *)
Definition same_dirs (g g' : AuthorityGateway) : Prop :=
  ∀ path, dir (gw_disk g') path = dir (gw_disk g) path.

Lemma same_dirs_trans g g' g'' : same_dirs g g' → same_dirs g' g'' → same_dirs g g''.
Proof. intros Hd Hd' path. by rewrite Hd', Hd. Qed.

Lemma same_ledger_dirs g g' : same_ledger g g' → same_dirs g g'.
Proof. intros [_ Hd] path. by rewrite Hd. Qed.

Lemma open_at_inv root g g' r : open_at env root g = (g', r) → same_dirs g g'.
Proof.
  unfold open_at. intros Hm. m_inv Hm. apply next_reply_inv in Hm0 as [[Hl Hd] ->]. cbv zeta in Hm.
  destruct (ledger_open _ _ _ _ _) as [l|e] eqn:Ho; injection Hm as <- <-; intros path.
  2: { by rewrite Hd. }
  simpl. rewrite <- Hd. unfold dir at 1. destruct (decide (ml_root l = path)) as [Heq|Hne].
  - rewrite Heq, lookup_insert_eq. simpl. f_equal. rewrite <- Heq. unfold ledger_open in Ho. by res_inv.
  - by rewrite lookup_insert_ne.
Qed.

Lemma ensure_inv (m : M (result unit GatewayError)) {A} (k : unit → M (result A GatewayError)) g g' r :
  (∀ g0 r0, m g = (g0, r0) → same_dirs g g0) → (∀ g0 g1 r0, k tt g0 = (g1, r0) → g1 = g0) →
  bind_ok m k g = (g', r) → same_dirs g g'.
Proof.
  intros Hm Hk Hb. m_inv Hb.
  - destruct a. apply Hk in Hb as ->. by eapply Hm.
  - by eapply Hm.
Qed.

Lemma recover_inv g g' r : recover_existing_ledger env g = (g', r) → same_dirs g g'.
Proof.
  unfold recover_existing_ledger. intros Hm. m_inv Hm. injection Hm0 as <- <-.
  eapply ensure_inv; [| |exact Hm].
  - intros g1 r1 Ho. destruct (gw_ledger g) as [l|]; [by injection Ho as <- <-|].
    destruct (gw_ledger_root g) as [root|]; [|by injection Ho as <- <-].
    m_inv Ho. apply next_reply_inv in Hm0 as [Hs ->]. apply same_ledger_dirs in Hs.
    destruct (rp_metadata _) as [[]|]; [|by injection Ho as <- <-..].
    eapply same_dirs_trans; [exact Hs|]. by eapply open_at_inv.
  - intros g1 g2 r1 Hk. cbv beta in Hk. m_inv Hk. injection Hm0 as <- <-. by injection Hk as <- _.
Qed.

Lemma open_ledger_inv g g' r :
  open_ledger env g = (g', r) → same_dirs g g' ∧ ∀ l, r = Ok l → gw_ledger g' = Some l.
Proof.
  unfold open_ledger. intros Hm. m_inv Hm. injection Hm0 as <- <-. split.
  - eapply ensure_inv; [| |exact Hm].
    + intros g1 r1 Ho. destruct (gw_ledger g) as [l|]; [by injection Ho as <- <-|].
      destruct (gw_ledger_root g) as [root|]; [by eapply open_at_inv|by injection Ho as <- <-].
    + intros g1 g2 r1 Hk. cbv beta in Hk. m_inv Hk. injection Hm0 as <- <-. by injection Hk as <- _.
  - m_inv Hm; [|by subst r]. m_inv Hm. injection Hm1 as <- <-. injection Hm as <- <-.
    intros l. by rewrite ok_or_Ok.
Qed.

Lemma ledger_reserve_inv l s g g' r :
  gw_ledger g = Some l → ledger_reserve env l s g = (g', r) →
  (r = Ok Fresh ∧ live g' s ∧ ledger_path g' = Some (ml_root l) ∧
   dir (gw_disk g) (ml_root l) !! record_name (ms_mutation_id s) = None) ∨
  (r ≠ Ok Fresh ∧ (same_dirs g g' ∨ frozen g') ∧
   ∀ res, r = Ok (ExactReplay res) → mr_subject res = s ∧ durable g' res).
Proof.
  intros Hg. unfold ledger_reserve. intros Hm. m_inv Hm. apply next_reply_inv in Hm0 as [[Hl Hd] ->].
  destruct (reserve _ _ l s) as [[fs' l'] res] eqn:Hr. injection Hm as <- <-. rewrite Hd in Hr.
  pose proof (reserve_root _ _ _ _ _ _ _ Hr) as Hroot.
  apply reserve_cases in Hr as [(-> & _ & Hnf & Hrep)|(Hnew & Hv & _ & w & -> & [(-> & Hw & Hfr & Hown)|(Hbad & Hfr & _)])].
  - right. split; [done|]. split.
    + left. intros path. simpl. rewrite Hd, Hroot. unfold dir at 1.
      destruct (decide (ml_root l = path)) as [<-|Hne]; [by rewrite lookup_insert_eq|by rewrite lookup_insert_ne].
    + intros x ->. destruct (Hrep x eq_refl) as [Ht Hs]. split; [done|]. exists l'. split; [done|].
      simpl. unfold dir at 1. rewrite lookup_insert_eq. by rewrite Hs.
  - left. split; [done|]. split; [|split; [unfold ledger_path; simpl; by rewrite Hroot|done]]. exists l', w. simpl. unfold dir at 1. rewrite lookup_insert_eq. simpl.
    rewrite lookup_insert_eq, Hown. split_and!; try done. set_solver.
  - right. split; [by intros ->|]. split; [right; by exists l'|]. by intros x ->.
Qed.

Lemma call_check_inv input g g' r :
  call_check input g = (g', r) → same_ledger g g' ∧ ∃ c, checker_check c input = (gw_checker g', r).
Proof.
  unfold call_check. destruct (checker_check (gw_checker g) input) as [c' r'] eqn:Hc. intros [= <- <-].
  split; [done|]. by exists (gw_checker g).
Qed.

Lemma decision_binds_Ok op fp attempt fence nonce d u :
  decision_binds op fp attempt fence nonce d = Ok u ↔
  vd_operation d = op ∧ ms_operation (vd_subject d) = op ∧ vd_transport_fingerprint d = fp ∧
  ms_request_digest (vd_subject d) = to_hex fp ∧ ms_attempt_id (vd_subject d) = attempt ∧
  ms_attempt_fence (vd_subject d) = fence ∧ ms_workspace_nonce (vd_subject d) = hex_encode nonce.
Proof.
  unfold decision_binds. rewrite res_bind_Ok. setoid_rewrite fail_if_Ok. split.
  - intros (_ & Hb & Hc). bools. tauto.
  - intros Hd. exists tt. bools. tauto.
Qed.

Lemma window_open now expires :
  window_refusal now expires = None ↔
  ∃ t, now = Ok t ∧ t < expires ∧ expires <= t + MAX_MUTATION_PERMIT_TTL_MS.
Proof.
  unfold window_refusal. destruct now as [t|e]; [|naive_solver].
  destruct (expires <=? t) eqn:E1; [bools; split; [done|]; intros (t' & [= <-] & ? & ?); lia|].
  destruct (MAX_MUTATION_PERMIT_TTL_MS <? expires - t) eqn:E2; bools.
  - split; [done|]. intros (t' & [= <-] & ? & ?). lia.
  - split; [|done]. intros _. exists t. split; [done|]. lia.
Qed.

(** [authorize] up to the checked decision and the reserved subject. *)
Lemma authorize_inv op authority params attempt fence nonce g g' r :
  authorize env op authority params attempt fence nonce g = (g', r) →
  (∃ e, r = Err e ∧ (same_dirs g g' ∨ frozen g')) ∨
  ∃ fp c c' d now g1,
    transport_fingerprint op (authority_without_permit authority) params = Ok fp ∧
    checker_check c {| fci_operation := op; fci_authority := authority; fci_params := params;
                       fci_transport_fingerprint := fp |} = (c', Ok d) ∧
    decision_binds op fp attempt fence nonce d = Ok tt ∧
    (∃ n, now = clock_reading (env n)) ∧
    live g1 (vd_subject d) ∧
    (∃ p, ledger_path g1 = Some p ∧
       dir (gw_disk g) p !! record_name (ms_mutation_id (vd_subject d)) = None) ∧
    let permit := {| mp_subject := vd_subject d; mp_operation := op; mp_transport_fingerprint := fp;
                     mp_expires_at_unix_ms := vd_expires_at_unix_ms d |} in
    match window_refusal now (vd_expires_at_unix_ms d) with
    | None => g' = g1 ∧ r = Ok permit
    | Some refusal => ∃ e, r = Err e ∧
        abort_before_repository env (into_pending permit) refusal Kernel g1 = (g', e)
    end.
Proof.
  unfold authorize. intros Hm. m_inv Hm.
  2: { left. apply recover_inv in Hm0. eauto. }
  apply recover_inv in Hm0. rename Hm0 into Hd. m_inv Hm; injection Hm0 as -> Hfp; [|left; eauto].
  rename a0 into fp. m_inv Hm; apply call_check_inv in Hm0 as [Hs [c Hc]];
    apply same_ledger_dirs, (same_dirs_trans _ _ _ Hd) in Hs; clear Hd; [|left; eauto].
  rename a0 into d, Hs into Hd. m_inv Hm; injection Hm0 as -> Hb; [|left; eauto]. destruct a0.
  m_inv Hm. apply clock_inv in Hm0 as [Hs Hn]. rename a0 into now.
  apply same_ledger_dirs, (same_dirs_trans _ _ _ Hd) in Hs. clear Hd. rename Hs into Hd. cbv zeta in Hm.
  m_inv Hm; apply open_ledger_inv in Hm0 as [Hs Hl];
    apply (same_dirs_trans _ _ _ Hd) in Hs; clear Hd; [|left; eauto].
  rename a0 into l, Hs into Hd. specialize (Hl l eq_refl). m_inv Hm.
  apply (ledger_reserve_inv l _ _ _ _ Hl) in Hm0 as [(-> & Hlive & Hpath & Hnew)|(Hnf & Hs & _)].
  2: { left. m_inv Hm; injection Hm0 as <- Hr.
       - destruct a0 as [[|]|]; by simplify_eq.
       - exists e. split; [done|]. destruct Hs as [Hs|?]; [left|by right]. by eapply same_dirs_trans. }
  m_inv Hm; unfold ret in Hm0; simplify_eq. right.
  eexists fp, c, _, d, now, _. split; [done|]. split; [exact Hc|]. split; [done|]. split; [done|].
  split; [exact Hlive|]. split.
  { exists (ml_root l). split; [done|]. by rewrite <- Hd. }
  cbv zeta. destruct (window_refusal _ _) as [refusal|].
  - m_inv Hm. injection Hm as <- <-. eexists. split; [done|]. exact Hm0.
  - by injection Hm as <- <-.
Qed.

(** A permit is exactly one verified decision.  [authorize] returns a permit
    only for a decision the checker gave on this operation and request, whose
    subject names the operation, the request fingerprint and the expected
    attempt, fence and nonce, whose remaining life is positive and at most one
    second, and whose mutation had no record: its reservation is now durable
    and owned by this process. *)
Theorem authorize_permit_exact op authority params attempt fence nonce g g' permit :
  authorize env op authority params attempt fence nonce g = (g', Ok permit) →
  transport_fingerprint op (authority_without_permit authority) params
    = Ok (mp_transport_fingerprint permit) ∧
  (∃ c c', checker_check c {| fci_operation := op; fci_authority := authority; fci_params := params;
       fci_transport_fingerprint := mp_transport_fingerprint permit |}
     = (c', Ok {| vd_subject := mp_subject permit; vd_operation := op;
                  vd_transport_fingerprint := mp_transport_fingerprint permit;
                  vd_expires_at_unix_ms := mp_expires_at_unix_ms permit |})) ∧
  mp_operation permit = op ∧ ms_operation (mp_subject permit) = op ∧
  ms_request_digest (mp_subject permit) = to_hex (mp_transport_fingerprint permit) ∧
  ms_attempt_id (mp_subject permit) = attempt ∧ ms_attempt_fence (mp_subject permit) = fence ∧
  ms_workspace_nonce (mp_subject permit) = hex_encode nonce ∧
  (∃ n now, clock_reading (env n) = Ok now ∧ now < mp_expires_at_unix_ms permit
     ∧ mp_expires_at_unix_ms permit <= now + MAX_MUTATION_PERMIT_TTL_MS) ∧
  live g' (mp_subject permit) ∧
  ∃ p, ledger_path g' = Some p ∧
    dir (gw_disk g) p !! record_name (ms_mutation_id (mp_subject permit)) = None.
Proof.
  intros [(e & [=] & _)|(fp & c & c' & d & now & g1 & Hfp & Hc & Hb & (n & Hn) & Hlive & Hnew & Hw)]%authorize_inv.
  destruct (window_refusal _ _) as [refusal|] eqn:Hwin; [by destruct Hw as (e & [=] & _)|].
  destruct Hw as [-> [= ->]]. simpl. apply decision_binds_Ok in Hb as (? & ? & ? & ? & ? & ? & ?).
  split; [done|]. split; [exists c, c'; rewrite Hc; destruct d; simpl in *; by subst|].
  split_and!; try done. apply window_open in Hwin as (t & Ht & ? & ?). exists n, t. split_and!; try done.
  by rewrite <- Hn.
Qed.

(** A refused authorization leaves nothing live.  Either no ledger directory
    changed, or this process's ledger is frozen, or a reservation was made for a
    decision whose window had closed and is already durably settled as aborted,
    acknowledged online, or is reported unknown. *)
Theorem authorize_refusal_closed op authority params attempt fence nonce g g' e :
  authorize env op authority params attempt fence nonce g = (g', Err e) →
  same_dirs g g' ∨ frozen g' ∨
  ∃ s refusal now, (∃ n, now = clock_reading (env n)) ∧ ms_operation s = op ∧ ms_attempt_id s = attempt ∧
    ms_attempt_fence s = fence ∧ (∃ expires, window_refusal now expires = Some refusal) ∧
    aborted_or_frozen g' s refusal e Kernel.
Proof.
  intros [(e' & _ & [Hd|Hf])|(fp & c & c' & d & now & g1 & Hfp & Hc & Hb & Hn & Hlive & _ & Hw)]%authorize_inv;
    [by left|by right; left|]. right. right.
  destruct (window_refusal _ _) as [refusal|] eqn:Hwin; [|by destruct Hw as [_ [=]]].
  destruct Hw as (e' & [= <-] & Ha). exists (vd_subject d), refusal, now.
  apply decision_binds_Ok in Hb as (? & ? & ? & ? & ? & ? & ?). split_and!; try done; [by eexists|].
  apply (abort_live _ (into_pending {| mp_subject := vd_subject d; mp_operation := op;
     mp_transport_fingerprint := fp; mp_expires_at_unix_ms := vd_expires_at_unix_ms d |})) in Ha; done.
Qed.

(** A live permit is consumed exactly when the clock reads, the operation and
    the request are those of the final check and the permit has not expired;
    the reservation then stays live.  Every refusal is a proven abort or an
    unknown outcome. *)
Theorem consume_exact path permit op authority params g g' r :
  live g (mp_subject permit) → consume_through env permit op authority params path g = (g', r) →
  ∃ n, match r with
  | Ok pending =>
      pending = into_pending permit ∧ live g' (mp_subject permit) ∧ op = mp_operation permit ∧
      transport_fingerprint op (authority_without_permit authority) params
        = Ok (mp_transport_fingerprint permit) ∧
      ∃ now, clock_reading (env n) = Ok now ∧ now < mp_expires_at_unix_ms permit
  | Err e =>
      ∃ refusal,
        (let? now := clock_reading (env n) in
         validate_immediately_before_repository permit op authority params now) = Err refusal ∧
        aborted_or_frozen g' (mp_subject permit) refusal e path
  end.
Proof.
  intros Hlive. unfold consume_through. intros Hm. m_inv Hm. apply clock_inv in Hm0 as [Hs [n ->]].
  apply (same_live _ _ _ Hs) in Hlive. exists n. cbv zeta in Hm.
  destruct (res_bind _ _) as [[]|refusal] eqn:Hv.
  - injection Hm as <- <-. split; [done|]. split; [done|].
    apply res_bind_Ok in Hv as (now & Hnow & Hv). unfold validate_immediately_before_repository in Hv.
    res_inv. bools. destruct Hr0 as [Hop Hfp]. subst. rewrite Hr. split_and!; try done. eauto.
  - m_inv Hm. injection Hm as <- <-. exists refusal. split; [done|].
    by apply (abort_live _ (into_pending permit)) in Hm0.
Qed.

(** Settling a live reservation is all or unknown.  [settle] and
    [settle_locally] succeed only with the result durable under the time the
    clock read, after the checker acknowledged exactly that settlement where
    the path is the Kernel's; a success with outcome unknown freezes the
    ledger; every failure is reported as an unknown outcome, and the
    reservation is then still live or the ledger frozen. *)
Theorem settle_exact path pending o d g g' r :
  live g (pm_subject pending) → settle_through env pending o d path g = (g', r) →
  match r with
  | Ok _ => settled_now g' (pm_subject pending) o d path
  | Err e => gateway_reason_code e = "MUTATION_OUTCOME_UNKNOWN" ∧
             (live g' (pm_subject pending) ∨ frozen g')
  end.
Proof.
  intros Hlive Hm. by apply settle_through_live in Hm as [[-> ?]|[[m ->] ?]].
Qed.

(** A receipt's cleanup is replayed, never repeated.  Under one receipt, a
    fresh permit names the receipt's subject, lives one second from the clock's
    reading without overflow, and its reservation is durable; a replay returns
    the durable result of exactly that subject. *)
Theorem receipt_authorization_exact authority params receipt g g' a :
  authorize_by_preservation_receipt env authority params receipt g = (g', Ok a) →
  ∃ fp, transport_fingerprint CleanupWorkspace (authority_without_permit authority) params = Ok fp ∧
  let s := receipt_mutation_subject receipt fp in
  match a with
  | ReceiptFresh permit =>
      mp_subject permit = s ∧ mp_operation permit = CleanupWorkspace ∧
      mp_transport_fingerprint permit = fp ∧ live g' s ∧
      ∃ n now, clock_reading (env n) = Ok now ∧
        mp_expires_at_unix_ms permit = now + MAX_MUTATION_PERMIT_TTL_MS ∧
        mp_expires_at_unix_ms permit <= u64_max
  | ReceiptReplay res => mr_subject res = s ∧ durable g' res
  end.
Proof.
  unfold authorize_by_preservation_receipt. intros Hm. m_inv Hm; [|done]. clear Hm0.
  m_inv Hm; [|done]. injection Hm0 as -> Hfp. m_inv Hm; [|done]. apply clock_inv in Hm0 as [_ [n Hn]].
  m_inv Hm; [|done]. injection Hm0 as -> He. rename a1 into fp, a2 into now, a3 into expires.
  exists fp. split; [done|]. cbv zeta in *.
  m_inv Hm; [|done]. apply open_ledger_inv in Hm0 as [_ Hl]. specialize (Hl _ eq_refl). m_inv Hm.
  apply (ledger_reserve_inv _ _ _ _ _ Hl) in Hm0. injection Hm as -> Ha.
  destruct Hm0 as [(-> & Hlive & _)|(Hnf & _ & Hrep)].
  - injection Ha as <-. simpl. split_and!; try done. exists n, now. split; [done|].
    apply ok_or_Ok in He. unfold checked_add in He. case_match eqn:Hle; [|done]. injection He as <-.
    bools. done.
  - match type of Ha with context [match ?x with _ => _ end] => destruct x as [[|res]|] end; [done| |done]. injection Ha as <-. by apply Hrep.
Qed.
End Single.

(** [UnavailableFinalCheck], the checker of [AuthorityGateway::unavailable]. *)
Definition UnavailableFinalCheck `{LedgerCodec} : FinalAuthorityCheck := {|
  checker := unit;
  checker_check _ _ := (tt, Err (GContractUnavailable
    "frozen bullet-wire authority source and Kernel final-check client are unavailable"));
  checker_settle _ _ := (tt, Err (GContractUnavailable
    "frozen bullet-wire authority source and Kernel settlement client are unavailable"))
|}.

Section Unavailable.
Context `{Blake3, HexLaws, LedgerCodecLaws, !JsonEncode}.
#[local] Existing Instance UnavailableFinalCheck.

(** Without a checker no decision is made: whatever the request, the ledger
    and the environment, [authorize] gives no permit and no ledger directory
    changes unless it froze this process. *)
Theorem unavailable_never_authorizes env op authority params attempt fence nonce
    (g : AuthorityGateway) :
  ∃ g' e, authorize env op authority params attempt fence nonce g = (g', Err e) ∧
    (same_dirs g g' ∨ frozen g').
Proof.
  destruct (authorize env op authority params attempt fence nonce g) as [g' r] eqn:Ha.
  apply authorize_inv in Ha as [(e & -> & Hd)|(fp & c & c' & d & now & g1 & _ & [=] & _)]; eauto.
Qed.
End Unavailable.

(** ** What the fingerprints bind *)

Section Binding.
Context `{Blake3, HexLaws, LedgerCodecLaws, !JsonEncode, !FinalAuthorityCheck}.
Variable env : nat → replies.

#[export] Instance operation_str_inj : Inj (=) (=) operation_str.
Proof. by intros [] []. Qed.
#[export] Instance outcome_bytes_inj : Inj (=) (=) outcome_bytes.
Proof. by intros [] []. Qed.

(** C25: a permit works for the authorized request only.  If [authorize] issues a
    permit for a request and the permit is later consumed, by any gateway state
    holding its live reservation, then the consumed operation is the authorized
    one and the authority (less the permit itself) and the parameters encode to
    the same bytes, or those two requests are an exact hash collision. *)
Theorem permit_binds_request env' path op authority params attempt fence nonce g g' permit
    op' authority' params' h h' pending a p a' p' :
  authorize env op authority params attempt fence nonce g = (g', Ok permit) →
  live h (mp_subject permit) →
  consume_through env' permit op' authority' params' path h = (h', Ok pending) →
  to_vec (authority_without_permit authority) = Ok a → to_vec params = Ok p →
  to_vec (authority_without_permit authority') = Ok a' → to_vec params' = Ok p' →
  Forall addressable [a; p; a'; p'] →
  op' = op ∧
  ((a' = a ∧ p' = p) ∨
   collides blake3_hash (frames (transport_fields op a' p')) (frames (transport_fields op a p))).
Proof.
  intros Hau Hlive Hco Ha Hp Ha' Hp' Haddr.
  apply authorize_inv in Hau as [(e & [=] & _)|(fp & c & c' & d & now & g1 & Hfp & _ & _ & _ & _ & _ & Hw)].
  destruct (window_refusal _ _) as [refusal|]; [by destruct Hw as (e & [=] & _)|].
  destruct Hw as [_ [= ->]]. unfold consume_through in Hco. m_inv Hco. apply clock_inv in Hm as [_ [n ->]].
  cbv zeta in Hco. destruct (res_bind _ _) as [[]|refusal] eqn:Hv.
  2: { m_inv Hco. by injection Hco. }
  apply res_bind_Ok in Hv as (t & _ & Hv). unfold validate_immediately_before_repository in Hv.
  simpl in Hv. res_inv. bools. destruct Hr0 as [<- <-]. split; [done|].
  unfold transport_fingerprint in Hr, Hfp. rewrite Ha, Hp in Hfp. rewrite Ha', Hp' in Hr.
  simpl in Hr, Hfp. rewrite <- Hr in Hfp. injection Hfp as Heq.
  rewrite !list.Forall_cons in Haddr. destruct Haddr as (? & ? & ? & ? & _).
  assert (∀ x y, addressable x → addressable y → Forall addressable (transport_fields op x y)) as Hall.
  { intros x y Hx Hy. unfold transport_fields. rewrite !list.Forall_cons. split_and!; try done.
    by destruct op. }
  symmetry in Heq. apply framed_digest_binds in Heq as [Heq|Hcol]; [|by right|by apply Hall..].
  left. by injection Heq as -> ->.
Qed.

(** The strings of a subject that reach a hash fit in memory. *)
Definition settlement_addressable (s : MutationSubject) (o : MutationOutcome) (d : string) (t : N) : Prop :=
  Forall addressable (settlement_fields s o d t).

(** A settlement fingerprint names one settlement: two settlements have the
    same fingerprint only if every field of the subject, the outcome, the result
    digest and the completion time agree, or the two preimages are an exact hash
    collision. *)
Theorem settlement_fingerprint_binds s o d t s' o' d' t' :
  settlement_addressable s o d t → settlement_addressable s' o' d' t' →
  settlement_fingerprint s o d t = settlement_fingerprint s' o' d' t' →
  (s = s' ∧ o = o' ∧ d = d' ∧ t = t') ∨
  collides blake3_hash (frames (settlement_fields s o d t)) (frames (settlement_fields s' o' d' t')).
Proof.
  intros Ha Ha' Heq. apply framed_digest_binds in Heq as [Heq|?]; [left|by right|done..].
  unfold settlement_fields in Heq. destruct s, s'. simpl in Heq.
  repeat match goal with
  | H : _ :: _ = _ :: _ |- _ => let H1 := fresh in apply cons_fields in H as [H1 H]
  end.
  simplify_eq. done.
Qed.

Lemma validate_digest_Ok v : validate_digest v = Ok tt ↔ lower_hex_64 v = true.
Proof. unfold validate_digest. by rewrite fail_if_Ok, negb_false_iff. Qed.

Lemma to_hex_lower_64 d : lower_hex_64 (to_hex d) = true.
Proof. unfold lower_hex_64. by rewrite to_hex_slen, to_hex_lower. Qed.

Lemma validate_id_hex prefix d : validate_id (prefix +:+ to_hex d) prefix = Ok tt.
Proof. unfold validate_id. rewrite strip_prefix_app. simpl. by rewrite to_hex_lower_64. Qed.

(** The ledger accepts the subject of a receipt exactly when the facts the
    daemon supplies are well formed: every derived identifier always is. *)
Theorem receipt_subject_valid r fp :
  subject_validate (receipt_mutation_subject r fp) = Ok tt ↔
  lower_hex_64 (rcp_receipt_digest r) = true ∧ blen (rcp_workspace_nonce r) = 32 ∧
  validate_id (rcp_repository_id r) "rep_" = Ok tt ∧ validate_id (rcp_workspace_id r) "wsp_" = Ok tt ∧
  validate_id (rcp_attempt_id r) "atm_" = Ok tt ∧
  1 <= rcp_workspace_generation r <= MAX_SAFE_INTEGER ∧ 1 <= rcp_attempt_fence r <= MAX_SAFE_INTEGER.
Proof.
  assert (∀ x name, validate_positive_generation x name = Ok tt ↔ 1 <= x <= MAX_SAFE_INTEGER) as Hpos.
  { intros x name. unfold validate_positive_generation. rewrite fail_if_Ok. bools. lia. }
  assert (validate_digest (hex_encode (rcp_workspace_nonce r)) = Ok tt ↔ blen (rcp_workspace_nonce r) = 32)
    as Hnonce.
  { rewrite validate_digest_Ok. unfold lower_hex_64. rewrite hex_encode_length, hex_encode_lower. bools. lia. }
  unfold subject_validate, receipt_mutation_subject, receipt_derive. cbn [ms_authority_envelope_digest
    ms_authority_token_nonce ms_mutation_id ms_reservation_id ms_operation ms_request_digest ms_repository_id
    ms_workspace_id ms_workspace_generation ms_workspace_nonce ms_attempt_id ms_attempt_fence
    ms_authority_epoch ms_freeze_generation ms_permit_nonce ms_permit_digest].
  rewrite !validate_id_hex. unfold validate_digest at 1 3 5 6. rewrite !to_hex_lower_64. cbn [negb fail_if res_bind].
  rewrite <- Hnonce, <- validate_digest_Ok, <- (Hpos _ "workspace_generation"), <- (Hpos _ "attempt_fence").
  rewrite !res_bind_unit. change (validate_positive_generation RECEIPT_AUTHORITY_EPOCH _) with (@Ok unit MutationLedgerError tt).
  cbn. tauto.
Qed.

Definition receipt_addressable (r : ReceiptSubject) : Prop :=
  Forall addressable (receipt_fields "bullet-gitd.receipt-mutation-id.v1" r).

(** The mutation id of a receipt-gated cleanup names the sealed receipt and
    the writer incarnation: two cleanups share an id only if they agree on the
    receipt digest, the attempt, the fence and the nonce, or the preimages are
    an exact hash collision. *)
Theorem receipt_mutation_id_binds r r' fp fp' :
  receipt_addressable r → receipt_addressable r' →
  ms_mutation_id (receipt_mutation_subject r fp) = ms_mutation_id (receipt_mutation_subject r' fp') →
  (rcp_receipt_digest r = rcp_receipt_digest r' ∧ rcp_attempt_id r = rcp_attempt_id r' ∧
   rcp_attempt_fence r = rcp_attempt_fence r' ∧ rcp_workspace_nonce r = rcp_workspace_nonce r') ∨
  collides blake3_hash (frames (receipt_fields "bullet-gitd.receipt-mutation-id.v1" r))
    (frames (receipt_fields "bullet-gitd.receipt-mutation-id.v1" r')).
Proof.
  intros Ha Ha' Heq. simpl in Heq. apply string_app_inj_len in Heq as [_ Heq]; [|done].
  apply to_hex_inj, framed_digest_binds in Heq as [Heq|?]; [left|by right|done..].
  unfold receipt_fields in Heq. injection Heq as H1' H2' H3' H4'.
  apply as_bytes_inj in H1', H2', H3', H4'. apply u64_to_string_inj in H3'.
  apply (f_equal hex_decode) in H4'. rewrite !hex_decode_encode in H4'. by injection H4' as H4'.
Qed.
End Binding.

(** ** A concrete daemon *)
Module GatewayReference.
Import Reference.

Definition hex64 : string := Eval vm_compute in LedgerReference.hex64.
Definition nonce : bytes := Eval vm_compute in repeat xaa 32.

(** A request with null authority and parameters. *)
Definition encode_null `{LedgerCodec} (v : json) : result bytes string :=
  match v with VNull => Ok (as_bytes "null") | _ => Err "unsupported" end.
Definition null_fingerprint (operation : MutationOperation) : Digest :=
  framed_digest (transport_fields operation (as_bytes "null") (as_bytes "null")).
Definition attempt : string := "atm_" +:+ hex64.

Definition patch_subject : MutationSubject := {|
  ms_authority_envelope_digest := hex64; ms_authority_token_nonce := hex64;
  ms_mutation_id := "mut_" +:+ hex64; ms_reservation_id := "rsv_" +:+ hex64;
  ms_operation := ApplyPatch; ms_request_digest := to_hex (null_fingerprint ApplyPatch);
  ms_repository_id := "rep_" +:+ hex64; ms_workspace_id := "wsp_" +:+ hex64;
  ms_workspace_generation := 1; ms_workspace_nonce := hex_encode nonce;
  ms_attempt_id := attempt; ms_attempt_fence := 1; ms_authority_epoch := 1;
  ms_freeze_generation := 0; ms_permit_nonce := hex64; ms_permit_digest := hex64
|}.
Definition receipt : ReceiptSubject := {|
  rcp_receipt_token := "sealed"; rcp_receipt_digest := hex64; rcp_attempt_id := attempt;
  rcp_attempt_fence := 1; rcp_workspace_nonce := nonce; rcp_repository_id := "rep_" +:+ hex64;
  rcp_workspace_id := "wsp_" +:+ hex64; rcp_workspace_generation := 1 |}.
Definition receipt_subject : MutationSubject :=
  receipt_mutation_subject receipt (null_fingerprint CleanupWorkspace).

(** A daemon whose clock stands at [now], whose checker grants [subject] until
    [expires], and whose ledger codec knows the reservation of [subject] and the
    settlement [final]. *)
Record config : Type := {
  subject : MutationSubject;
  final : MutationResult;
  now : N;
  expires : N
}.

Section Concrete.
Context (c : config).

#[local] Instance codec : LedgerCodec := LedgerReference.codec_of (subject c) (final c).
#[local] Instance codec_laws : LedgerCodecLaws := LedgerReference.codec_of_laws (subject c) (final c).
#[local] Instance encoder : JsonEncode := encode_null.

(** A checker that grants the subject and acknowledges every settlement. *)
#[local] Instance granting : FinalAuthorityCheck := {|
  checker := unit;
  checker_check _ input := (tt, Ok {| vd_subject := subject c; vd_operation := fci_operation input;
    vd_transport_fingerprint := fci_transport_fingerprint input; vd_expires_at_unix_ms := expires c |});
  checker_settle _ input := (tt, Ok {|
    vs_mutation_id := ms_mutation_id (fsi_subject input);
    vs_reservation_id := ms_reservation_id (fsi_subject input);
    vs_result_digest := fsi_result_digest input;
    vs_settlement_fingerprint := fsi_settlement_fingerprint input |})
|}.

Definition env : nat → replies := λ _, {|
  rp_clock := Ok (now c); rp_metadata := Ok false; rp_prepared := Ok tt; rp_open_error := λ _, None;
  rp_listing := Ok; rp_ledger := LedgerReference.calm |}.

Lemma env_faithful n : faithful (env n).
Proof. by intros names names' [= <-]. Qed.

Definition idle : @checker _ granting := tt.
Definition fresh_daemon : AuthorityGateway := new_gateway idle.
Definition start : AuthorityGateway := fst (attach_ledger_root "/root" fresh_daemon).
Definition authorized : AuthorityGateway * result MutationPermit GatewayError :=
  authorize env ApplyPatch VNull VNull attempt 1 nonce start.
Definition permit : MutationPermit := {| mp_subject := subject c; mp_operation := ApplyPatch;
  mp_transport_fingerprint := null_fingerprint ApplyPatch; mp_expires_at_unix_ms := expires c |}.

(** The replies of one daemon to a list of calls. *)
Fixpoint run_calls (calls : list gateway_call) (g : AuthorityGateway) : list gateway_output :=
  match calls with
  | [] => []
  | call :: calls =>
      let '(g', r) := exec env call (on_disk (gw_disk g) g) in
      {| go_pid := 0; go_path := ledger_path g'; go_reply := r |} :: run_calls calls g'
  end.

Lemma run_calls_farm calls g outs f :
  farm_run farm_init outs f → fm_gateways f !! 0%nat = Some g → fm_disk f = gw_disk g →
  ∃ f', farm_run farm_init (outs ++ run_calls calls g) f'.
Proof.
  revert g outs f. induction calls as [|call calls IH]; intros g outs f Hrun Hg Hd.
  - exists f. by rewrite app_nil_r.
  - simpl. destruct (exec env call (on_disk (gw_disk g) g)) as [g' r] eqn:He.
    destruct (IH g' (outs ++ [{| go_pid := 0; go_path := ledger_path g'; go_reply := r |}])
      {| fm_disk := gw_disk g'; fm_gateways := <[0%nat := g']> (fm_gateways f) |}) as [f' Hf'].
    + eapply farm_snoc; [done|]. eapply farm_call; [done|apply env_faithful|]. by rewrite Hd.
    + simpl. by rewrite lookup_insert_eq.
    + done.
    + exists f'. by rewrite <- app_assoc in Hf'.
Qed.

Lemma calls_run calls : ∃ f, farm_run farm_init (run_calls calls fresh_daemon) f.
Proof.
  destruct (run_calls_farm calls fresh_daemon []
    {| fm_disk := ∅; fm_gateways := <[0%nat := fresh_daemon]> ∅ |}) as [f Hf]; [|done..|by exists f].
  apply (farm_snoc farm_init [] farm_init [] _ (farm_nil _)). apply farm_start.
Qed.

Definition reaches (outs : list gateway_output) (f : farm) : Prop := farm_run farm_init outs f.

Definition session_calls : list gateway_call :=
  [CallAttach "/root"; CallAuthorize ApplyPatch VNull VNull attempt 1 nonce;
             CallConsume permit ApplyPatch VNull VNull;
             CallSettle (into_pending permit) Committed hex64].
Definition session : list gateway_output := run_calls session_calls fresh_daemon.

End Concrete.

Definition ledger_dir : string := "/root/.bullet-mutation-ledger".

(** One second of life: the permit is issued and its patch committed. *)
Definition committed : MutationResult := requested patch_subject Committed hex64 100.
Definition granted : config :=
  {| subject := patch_subject; final := committed; now := 100; expires := 500 |}.
(** The decision has expired: the reservation is aborted. *)
Definition aborted : MutationResult :=
  requested patch_subject Aborted (abort_digest ApplyPatch GPermitExpired) 600.
Definition late : config :=
  {| subject := patch_subject; final := aborted; now := 600; expires := 500 |}.

#[local] Existing Instances codec codec_laws encoder granting.

Lemma session_permits : permits ledger_dir (session granted) = [patch_subject].
Proof. vm_compute. reflexivity. Qed.
Definition settlement_reply : gateway_output := {| go_pid := 0; go_path := Some ledger_dir;
  go_reply := RepSettled patch_subject Committed hex64 (Ok tt) |}.
Lemma session_settles : settlement_reply ∈ session granted.
Proof. apply (list_elem_of_lookup_2 _ 3). vm_compute. reflexivity. Qed.

Lemma permit_issued : snd (authorized granted) = Ok (permit granted).
Proof. vm_compute. reflexivity. Qed.
Lemma expired_refused : snd (authorized late) = Err GPermitExpired.
Proof. vm_compute. reflexivity. Qed.

Lemma pair_of {A B} (x : A * B) b : snd x = b → x = (fst x, b).
Proof. by intros <-; destruct x. Qed.

Lemma authorized_live : live (fst (authorized granted)) patch_subject.
Proof.
  pose proof (pair_of _ _ permit_issued) as Ha. unfold authorized at 1 in Ha.
  apply authorize_inv in Ha as [(e & [=] & _)|(fp & c & c' & d & now & g1 & _ & Hc & _ & _ & Hlive & _ & Hw)].
  destruct (window_refusal _ _); [by destruct Hw as (? & [=] & _)|]. destruct Hw as [-> _].
  injection Hc as _ <-. exact Hlive.
Qed.

Definition consumed := consume_through (env granted) (permit granted) ApplyPatch VNull VNull
  Kernel (fst (authorized granted)).
Lemma permit_consumed : snd consumed = Ok (into_pending (permit granted)).
Proof. vm_compute. reflexivity. Qed.

(** The cleanup of a sealed receipt. *)
Definition sealed : config := {| subject := receipt_subject;
  final := requested receipt_subject Committed hex64 100; now := 100; expires := 500 |}.
Definition cleanup := authorize_by_preservation_receipt (env sealed) VNull VNull receipt (start sealed).
Definition cleanup_permit : MutationPermit := {| mp_subject := receipt_subject;
  mp_operation := CleanupWorkspace; mp_transport_fingerprint := null_fingerprint CleanupWorkspace;
  mp_expires_at_unix_ms := 1100 |}.
Lemma cleanup_fresh : snd cleanup = Ok (ReceiptFresh cleanup_permit).
Proof. vm_compute. reflexivity. Qed.

Definition settled_once := settle_through (env granted) (into_pending (permit granted))
  Committed hex64 Kernel (fst (authorized granted)).
Lemma permit_settled : snd settled_once = Ok tt.
Proof. vm_compute. reflexivity. Qed.

(** The receipt path does not ask the checker: it issues its permit even from
    [AuthorityGateway::unavailable]. *)
Example unavailable_issues_receipt_permit :
  snd (@authorize_by_preservation_receipt _ _ (codec sealed) (encoder sealed) UnavailableFinalCheck
    (env sealed) VNull VNull receipt
    (fst (attach_ledger_root "/root" (@new_gateway _ UnavailableFinalCheck tt))))
  = Ok (ReceiptFresh cleanup_permit).
Proof. vm_compute. reflexivity. Qed.

(** Conversion unfolds the abbreviations of this module first. *)
Strategy expand [settled_once consumed cleanup authorized start fresh_daemon].

Lemma null_addressable : Forall addressable [as_bytes "null"; as_bytes "null"; as_bytes "null"; as_bytes "null"].
Proof. repeat (constructor; [by vm_compute|]). constructor. Qed.
Lemma settlement_small : settlement_addressable patch_subject Committed hex64 100.
Proof. apply (bool_decide_unpack (Forall addressable _)). vm_compute. exact I. Qed.
Lemma receipt_small : receipt_addressable receipt.
Proof. apply (bool_decide_unpack (Forall addressable _)). vm_compute. exact I. Qed.

Example permits_issued_once_witness :
  ∃ f, reaches granted (session granted) f ∧
    permits ledger_dir (session granted) = [patch_subject] ∧ NoDup [ms_mutation_id patch_subject].
Proof.
  destruct (calls_run granted (session_calls granted)) as [f Hf]. exists f. split; [exact Hf|].
  split; [exact session_permits|]. pose proof (permits_issued_once ledger_dir (session granted) f Hf) as Hn.
  rewrite session_permits in Hn. exact Hn.
Defined.

Example settlements_agree_witness :
  ∃ f t, reaches granted (session granted) f ∧
    @terminal (codec granted) (dir (fm_disk f) ledger_dir) (ms_mutation_id patch_subject)
    (requested patch_subject Committed hex64 t).
Proof.
  destruct (calls_run granted (session_calls granted)) as [f Hf]. exists f.
  destruct (proj2 (proj2 (proj2 (settlements_agree ledger_dir _ f _ patch_subject Committed hex64
    _ patch_subject Committed hex64 Hf session_settles session_settles
    (conj eq_refl eq_refl) (conj eq_refl eq_refl) eq_refl)))) as [t Ht].
  exists t. split; [exact Hf|exact Ht].
Defined.

Example authorize_permit_exact_witness :
  ∃ p, ledger_path (fst (authorized granted)) = Some p ∧
    dir (gw_disk (start granted)) p !! record_name (ms_mutation_id patch_subject) = None.
Proof.
  exact (proj2 (proj2 (proj2 (proj2 (proj2 (proj2 (proj2 (proj2 (proj2 (proj2
    (authorize_permit_exact (env granted) ApplyPatch VNull VNull attempt 1 nonce (start granted) _
      (permit granted) (pair_of _ _ permit_issued)))))))))))).
Defined.

Example authorize_refusal_closed_witness :
  ∃ g', same_dirs (start late) g' ∨ frozen g' ∨
    ∃ s refusal now, (∃ n, now = clock_reading (env late n)) ∧ ms_operation s = ApplyPatch ∧
      ms_attempt_id s = attempt ∧ ms_attempt_fence s = 1 ∧
      (∃ expires, window_refusal now expires = Some refusal) ∧
      aborted_or_frozen (env late) g' s refusal GPermitExpired Kernel.
Proof.
  exists (fst (authorized late)).
  exact (authorize_refusal_closed (env late) ApplyPatch VNull VNull attempt 1 nonce (start late) _ _
    (pair_of _ _ expired_refused)).
Defined.

Example consume_exact_witness : live (fst consumed) patch_subject.
Proof.
  destruct (consume_exact (env granted) Kernel (permit granted) ApplyPatch VNull VNull _ _ _
    authorized_live (pair_of _ _ permit_consumed)) as (n & _ & Hl & _). exact Hl.
Defined.

Example settle_exact_witness :
  settled_now (env granted) (fst settled_once) patch_subject Committed hex64 Kernel.
Proof.
  exact (settle_exact (env granted) Kernel (into_pending (permit granted)) Committed hex64 _ _ _
    authorized_live (pair_of _ _ permit_settled)).
Defined.

Example receipt_authorization_exact_witness : live (fst cleanup) (mp_subject cleanup_permit).
Proof.
  destruct (receipt_authorization_exact (env sealed) VNull VNull receipt (start sealed) _ _
    (pair_of _ _ cleanup_fresh)) as (fp & _ & Hs & _ & _ & Hl & _).
  rewrite Hs. exact Hl.
Defined.

Example permit_binds_request_witness : ApplyPatch = ApplyPatch.
Proof.
  exact (proj1 (permit_binds_request (env granted) (env granted) Kernel ApplyPatch VNull VNull
    attempt 1 nonce (start granted) _ (permit granted) ApplyPatch VNull VNull _ _ _
    (as_bytes "null") (as_bytes "null") (as_bytes "null") (as_bytes "null")
    (pair_of _ _ permit_issued) authorized_live (pair_of _ _ permit_consumed)
    eq_refl eq_refl eq_refl eq_refl null_addressable)).
Defined.

Example settlement_fingerprint_binds_witness :
  (patch_subject = patch_subject ∧ Committed = Committed ∧ hex64 = hex64 ∧ 100 = 100) ∨
  collides blake3_hash (frames (settlement_fields patch_subject Committed hex64 100))
    (frames (settlement_fields patch_subject Committed hex64 100)).
Proof. exact (settlement_fingerprint_binds _ _ _ _ _ _ _ _ settlement_small settlement_small eq_refl). Defined.

Example receipt_mutation_id_binds_witness :
  (rcp_receipt_digest receipt = rcp_receipt_digest receipt ∧ rcp_attempt_id receipt = rcp_attempt_id receipt ∧
   rcp_attempt_fence receipt = rcp_attempt_fence receipt ∧
   rcp_workspace_nonce receipt = rcp_workspace_nonce receipt) ∨
  collides blake3_hash (frames (receipt_fields "bullet-gitd.receipt-mutation-id.v1" receipt))
    (frames (receipt_fields "bullet-gitd.receipt-mutation-id.v1" receipt)).
Proof.
  exact (receipt_mutation_id_binds receipt receipt (null_fingerprint ApplyPatch)
    (null_fingerprint CleanupWorkspace) receipt_small receipt_small eq_refl).
Defined.

Example unavailable_never_authorizes_witness :
  ∃ e, snd (@authorize _ _ (codec sealed) (encoder sealed) UnavailableFinalCheck
    (env sealed) ApplyPatch VNull VNull attempt 1 nonce (@new_gateway _ UnavailableFinalCheck tt)) = Err e.
Proof.
  destruct (@unavailable_never_authorizes _ _ _ (codec sealed) (codec_laws sealed) (encoder sealed)
    (env sealed) ApplyPatch VNull VNull attempt 1 nonce (@new_gateway _ UnavailableFinalCheck tt))
    as (g' & e & Heq & _).
  exists e. rewrite Heq. reflexivity.
Defined.

Example receipt_subject_valid_witness :
  subject_validate (receipt_mutation_subject receipt (null_fingerprint CleanupWorkspace)) = Ok tt.
Proof.
  apply (receipt_subject_valid receipt (null_fingerprint CleanupWorkspace)).
  repeat split; vm_compute; first [reflexivity|discriminate].
Defined.
End GatewayReference.
