(* ===== verification/KernelPermit.v ===== *)
(** [crates/bullet-gitd/src/kernel_permit.rs] with [kernel_permit/wire.rs] and
    [kernel_permit/transport.rs]: the production checker of the gateway.  It asks
    the Kernel over a Unix socket whose file, owner, group, mode and peer are those
    of the configuration, one bounded line each way within a deadline.

    The system answers one call by an [rpc_env].  A loop over a descriptor takes one
    round per iteration, with the time that remained when the iteration began; when
    the rounds are used up the deadline has passed.  [call] also returns the bytes
    that were written to the peer. *)

From S2P Require Import Prelude Paths Decimal Digests Protocol StrictJson Ledger Gateway.

Definition ENV_SOCKET : string := "BULLET_KERNEL_AUTHORITY_SOCKET".
Definition ENV_SERVER_UID : string := "BULLET_KERNEL_AUTHORITY_SERVER_UID".
Definition ENV_SOCKET_GID : string := "BULLET_KERNEL_AUTHORITY_SOCKET_GID".
(** In nanoseconds. *)
Definition RPC_DEADLINE : N := 1000000000.
Definition PROTO : string := "bullet-farm.kernel-authority.rpc.v1".
Definition REQUEST_ID : N := 1.
Definition LINE_MAX : N := 65536.
Definition SOCKET_MODE : N := 432.
Definition i64_max : N := 9223372036854775807.

(** ** Wire ([wire.rs]) *)

Record RpcRequest (T : Type) : Type := {
  rpq_proto : string;
  rpq_id : N;
  rpq_method : string;
  rpq_params : T;
  rpq_now_unix_ms : N
}.
Arguments Build_RpcRequest {T}.
Arguments rpq_proto {T}. Arguments rpq_id {T}. Arguments rpq_method {T}.
Arguments rpq_params {T}. Arguments rpq_now_unix_ms {T}.

Inductive RpcReply (R : Type) : Type :=
  | SuccessReply (proto : string) (id : N) (result : R)
  | ErrorReply (proto : string) (id : N) (code message : string).
Arguments SuccessReply {R}. Arguments ErrorReply {R}.

(** [serde_json] on the messages. *)
Class RpcEncode (T : Type) : Type := encode_request : RpcRequest T → result bytes string.
Class RpcDecode (R : Type) : Type := decode_reply : bytes → result (RpcReply R) string.

Section Bodies.
Context `{LedgerCodec}.

Record CheckBody : Type := {
  cb_operation : string;
  cb_authority : json;
  cb_params : json;
  cb_kernel_permit : json;
  cb_transport_fingerprint : string
}.
Record CheckReply : Type := {
  cr_subject : MutationSubject;
  cr_operation : string;
  cr_transport_fingerprint : string;
  cr_expires_at_unix_ms : N
}.
Record SettleBody : Type := {
  sbd_subject : MutationSubject;
  sbd_outcome : string;
  sbd_result_digest : string;
  sbd_completed_at_unix_ms : N;
  sbd_settlement_fingerprint : string
}.
Record SettleReply : Type := {
  srp_mutation_id : string;
  srp_reservation_id : string;
  srp_result_digest : string;
  srp_settlement_fingerprint : string
}.
End Bodies.

(** ** The socket ([transport.rs]) *)

Record SocketIdentity : Type := { sid_dev : N; sid_ino : N; sid_uid : N; sid_gid : N; sid_mode : N }.
#[export] Instance SocketIdentity_eq_dec : EqDecision SocketIdentity.
Proof. solve_decision. Defined.

Record ExpectedServer : Type := { xs_uid : N; xs_socket_gid : N }.
Record TransportConfig : Type := { tc_socket : string; tc_expected : ExpectedServer; tc_deadline : N }.

(** [fs::symlink_metadata] of the socket. *)
Record socket_meta : Type := {
  sm_socket : bool; sm_dev : N; sm_ino : N; sm_uid : N; sm_gid : N; sm_mode : N
}.
Record admit_env : Type := { ad_canonicalize : string → result string string; ad_meta : result socket_meta string }.

Inductive connect_event : Type := ConnectedNow | ConnectPending | ConnectFailed (e : string).
Inductive poll_event : Type := PollTimeout | PollReady (nval_or_hup : bool) | PollInterrupted | PollFailed (e : string).
Record connect_env : Type := {
  cn_socket : option string;
  cn_address : option string;
  cn_connect : connect_event;
  cn_deadline : bool;                     (** [Instant::now() + deadline] is representable *)
  cn_polls : list (N * poll_event);       (** with the nanoseconds that remained *)
  cn_status : result (option string) string;
  cn_blocking : option string
}.

Inductive write_event : Type := Wrote (n : N) | WriteInterrupted | WriteTimedOut | WriteFailed (e : string).
Inductive read_event : Type := ReadEnd | ReadByte (b : byte) | ReadInterrupted | ReadTimedOut | ReadFailed (e : string).
Record round (E : Type) : Type := { rd_remaining : N; rd_timeout : option string; rd_event : E }.
Arguments Build_round {E}.
Arguments rd_remaining {E}. Arguments rd_timeout {E}. Arguments rd_event {E}.

Record rpc_env : Type := {
  rp_before : admit_env;
  rp_connect : connect_env;
  rp_peer : result N string;              (** [SO_PEERCRED] *)
  rp_after : admit_env;
  rp_now : result N string;               (** milliseconds since the epoch *)
  rp_write_deadline : bool;
  rp_writes : list (round write_event);
  rp_read_deadline : bool;
  rp_reads : list (round read_event)
}.

Definition rpc_refused {A} (message : string) : result A GatewayError := Err (GRefused message).
Definition call_ok (context : string) (r : option string) : result unit GatewayError :=
  match r with Some e => Err (GRefused (context +:+ e)) | None => Ok tt end.

(** [parse_id]; the value is an [OsString]. *)
Definition parse_id (name : string) (value : option bytes) : result N string :=
  let? value := ok_or value (name +:+ " is missing") in
  let? value := ok_or (from_utf8 value) (name +:+ " is not UTF-8") in
  ok_or (parse_u32 value) (name +:+ " must be an unsigned 32-bit integer").

(** [TransportConfig::from_values] *)
Definition from_values (socket : option string) (uid socket_gid : option bytes) (deadline : N)
    : result TransportConfig string :=
  let? socket := ok_or socket "BULLET_KERNEL_AUTHORITY_SOCKET is missing" in
  let? uid := parse_id "BULLET_KERNEL_AUTHORITY_SERVER_UID" uid in
  let? socket_gid := parse_id "BULLET_KERNEL_AUTHORITY_SOCKET_GID" socket_gid in
  fail_if (deadline =? 0) "Kernel authority deadline must be positive" ;?
  Ok {| tc_socket := socket; tc_expected := {| xs_uid := uid; xs_socket_gid := socket_gid |};
        tc_deadline := deadline |}.

(** [TransportConfig::admit_socket] *)
Definition admit_socket (c : TransportConfig) (env : admit_env) : result SocketIdentity GatewayError :=
  let path := tc_socket c in
  fail_if (negb (starts_with "/" path)) (GRefused "Kernel authority socket must be an absolute path") ;?
  let? parent := ok_or (parent_path path) (GRefused "Kernel authority socket has no parent") in
  let? canonical := map_err (λ e, GRefused ("Kernel authority socket parent: " +:+ e)) (ad_canonicalize env parent) in
  fail_if (negb (same_path canonical parent))
    (GRefused "Kernel authority socket parent must be canonical with no symlink traversal") ;?
  let? meta := map_err (λ e, GRefused ("Kernel authority socket metadata: " +:+ e)) (ad_meta env) in
  fail_if (negb (sm_socket meta)) (GRefused "Kernel authority path must be a non-symlink Unix socket") ;?
  let identity := {| sid_dev := sm_dev meta; sid_ino := sm_ino meta; sid_uid := sm_uid meta;
                     sid_gid := sm_gid meta; sid_mode := N.land (sm_mode meta) 4095 |} in
  fail_if (negb (sid_mode identity =? SOCKET_MODE)) (GRefused "Kernel authority socket must be mode 0660") ;?
  fail_if (negb (sid_uid identity =? xs_uid (tc_expected c)))
    (GRefused "Kernel authority socket owner does not match the admitted service UID") ;?
  fail_if (negb (sid_gid identity =? xs_socket_gid (tc_expected c)))
    (GRefused "Kernel authority socket group does not match the admitted socket GID") ;?
  Ok identity.

(** The [loop] of [connect_with_deadline]. *)
Fixpoint poll_loop (polls : list (N * poll_event)) : result unit GatewayError :=
  match polls with
  | [] => rpc_refused "Kernel authority connect deadline exceeded"
  | (remaining, event) :: polls =>
      fail_if (remaining =? 0) (GRefused "Kernel authority connect deadline exceeded") ;?
      fail_if (i64_max <? remaining / 1000000000) (GRefused "Kernel authority connect deadline is invalid") ;?
      match event with
      | PollTimeout => rpc_refused "Kernel authority connect deadline exceeded"
      | PollReady failed => fail_if failed (GRefused "Kernel authority connect failed")
      | PollInterrupted => poll_loop polls
      | PollFailed e => rpc_refused ("Kernel authority connect poll failed: " +:+ e)
      end
  end.

(** [connect_with_deadline] *)
Definition connect_with_deadline (env : connect_env) : result unit GatewayError :=
  call_ok "Kernel authority socket: " (cn_socket env) ;?
  call_ok "Kernel authority address: " (cn_address env) ;?
  match cn_connect env with
  | ConnectedNow => Ok tt
  | ConnectPending =>
      fail_if (negb (cn_deadline env)) (GRefused "Kernel authority deadline overflow") ;?
      poll_loop (cn_polls env) ;?
      match cn_status env with
      | Ok status => call_ok "Kernel authority connect failed: " status
      | Err e => rpc_refused ("Kernel authority connect status failed: " +:+ e)
      end
  | ConnectFailed e => rpc_refused ("Kernel authority connect failed: " +:+ e)
  end ;?
  call_ok "Kernel authority blocking mode: " (cn_blocking env).

(** [validate_connected_identity] *)
Definition validate_connected_identity (expected : ExpectedServer) (before after : SocketIdentity) (peer_uid : N)
    : result unit GatewayError :=
  fail_if (negb (bool_decide (before = after)))
    (GRefused "Kernel authority socket identity changed during connect") ;?
  fail_if (negb (peer_uid =? xs_uid expected))
    (GRefused "Kernel authority peer UID does not match the admitted service UID").

(** [TransportConfig::connect], with [peer_uid] *)
Definition connect (c : TransportConfig) (env : rpc_env) : result unit GatewayError :=
  let? before := admit_socket c (rp_before env) in
  connect_with_deadline (rp_connect env) ;?
  let? peer := map_err (λ e, GRefused ("Kernel authority SO_PEERCRED: " +:+ e)) (rp_peer env) in
  let? after := admit_socket c (rp_after env) in
  validate_connected_identity (tc_expected c) before after peer.

(** [set_write_deadline] and [set_read_deadline] *)
Definition set_deadline {E} (operation : string) (r : round E) : result unit GatewayError :=
  fail_if (rd_remaining r =? 0) (GRefused ("Kernel authority " +:+ operation +:+ " deadline exceeded")) ;?
  call_ok ("Kernel authority " +:+ operation +:+ " deadline: ") (rd_timeout r).

(** The loop of [write_line], with what was written. *)
Fixpoint write_loop (left : bytes) (rounds : list (round write_event)) : bytes * result unit GatewayError :=
  match left, rounds with
  | [], _ => ([], Ok tt)
  | _, [] => ([], rpc_refused "Kernel authority write deadline exceeded")
  | _, r :: rounds =>
      match set_deadline "write" r with
      | Err e => ([], Err e)
      | Ok _ =>
          match rd_event r with
          | Wrote n =>
              if n =? 0 then ([], rpc_refused "Kernel authority write returned zero bytes")
              else let '(sent, res) := write_loop (drop (N.to_nat n) left) rounds in
                   (take (N.to_nat n) left ++ sent, res)
          | WriteInterrupted => write_loop left rounds
          | WriteTimedOut => ([], rpc_refused "Kernel authority write deadline exceeded")
          | WriteFailed e => ([], rpc_refused ("Kernel authority write failed: " +:+ e))
          end
      end
  end.

(** The loop of [read_json]; [buf] is reversed. *)
Fixpoint read_line (buf : bytes) (rounds : list (round read_event)) : result bytes GatewayError :=
  fail_if (LINE_MAX <=? blen buf) (GRefused "Kernel authority response line too long") ;?
  match rounds with
  | [] => rpc_refused "Kernel authority read deadline exceeded"
  | r :: rounds =>
      set_deadline "read" r ;?
      match rd_event r with
      | ReadEnd => rpc_refused "Kernel authority response ended before newline"
      | ReadByte b => if Byte.eqb b x0a then Ok (reverse buf) else read_line (b :: buf) rounds
      | ReadInterrupted => read_line buf rounds
      | ReadTimedOut => rpc_refused "Kernel authority read deadline exceeded"
      | ReadFailed e => rpc_refused ("Kernel authority read failed: " +:+ e)
      end
  end.

Definition deadline (representable : bool) : result unit GatewayError :=
  fail_if (negb representable) (GRefused "Kernel authority deadline overflow").

(** [now_unix_ms] of [wire.rs] *)
Definition rpc_now_unix_ms (env : rpc_env) : result N GatewayError :=
  let? millis := map_err GClock (rp_now env) in
  fail_if (u64_max <? millis) (GClock "system time exceeds u64 milliseconds") ;?
  Ok millis.

(** [validate_reply_identity] *)
Definition validate_reply_identity (proto : string) (id : N) : result unit GatewayError :=
  fail_if (negb (String.eqb proto PROTO)) (GRefused "Kernel authority response protocol mismatch") ;?
  fail_if (negb (id =? REQUEST_ID)) (GRefused "Kernel authority response id mismatch").

Section Call.
Context {T R : Type} `{!RpcEncode T, !RpcDecode R}.

(** The line that [write_line] writes. *)
Definition request_line (request : RpcRequest T) : result bytes GatewayError :=
  let? encoded := map_err (λ e, GRefused ("Kernel authority encode: " +:+ e)) (encode_request request) in
  fail_if (LINE_MAX <? blen (encoded ++ [x0a])) (GRefused "Kernel authority request line too long") ;?
  Ok (encoded ++ [x0a]).

(** [write_line] *)
Definition write_line (env : rpc_env) (request : RpcRequest T) : bytes * result unit GatewayError :=
  match let? line := request_line request in deadline (rp_write_deadline env) ;? Ok line with
  | Err e => ([], Err e)
  | Ok line => write_loop line (rp_writes env)
  end.

(** [read_json] *)
Definition read_json (env : rpc_env) : result (RpcReply R) GatewayError :=
  deadline (rp_read_deadline env) ;?
  let? line := read_line [] (rp_reads env) in
  map_err (λ e, GRefused ("Kernel authority decode: " +:+ e)) (decode_reply line).

Definition accept (reply : RpcReply R) : result R GatewayError :=
  match reply with
  | SuccessReply proto id result => validate_reply_identity proto id ;? Ok result
  | ErrorReply proto id code message =>
      validate_reply_identity proto id ;?
      if String.eqb code "AUTHORITY_CONTRACT_UNAVAILABLE" then Err (GContractUnavailable message)
      else Err (GRefused (code +:+ ": " +:+ message))
  end.

Definition request_of (method : string) (params : T) (now : N) : RpcRequest T :=
  {| rpq_proto := PROTO; rpq_id := REQUEST_ID; rpq_method := method; rpq_params := params; rpq_now_unix_ms := now |}.

(** [call], with what was written to the peer. *)
Definition call (c : TransportConfig) (env : rpc_env) (method : string) (params : T)
    : bytes * result R GatewayError :=
  match connect c env ;? rpc_now_unix_ms env with
  | Err e => ([], Err e)
  | Ok now =>
      let '(sent, written) := write_line env (request_of method params now) in
      (sent, written ;? let? reply := read_json env in accept reply)
  end.
End Call.

(** ** The checker ([kernel_permit.rs]) *)

Section Checker.
Context `{Blake3, HexCrate, LedgerCodec, !RpcEncode CheckBody, !RpcEncode SettleBody,
  !RpcDecode CheckReply, !RpcDecode SettleReply}.

(** [extract_kernel_permit] *)
Definition extract_kernel_permit (authority : json) : option json :=
  match authority with
  | VObject map => snd <$> find (λ kv, String.eqb (fst kv) "kernel_permit") map
  | _ => None
  end.

Record KernelPermitCheck : Type := { kpc_transport : result TransportConfig string }.

(** [KernelPermitCheck::from_env], of the environment variables *)
Definition from_env (var : string → option bytes) : KernelPermitCheck := {|
  kpc_transport := from_values (String.string_of_list_byte <$> var ENV_SOCKET) (var ENV_SERVER_UID) (var ENV_SOCKET_GID)
                     RPC_DEADLINE |}.

(** [KernelPermitCheck::transport] *)
Definition transport (k : KernelPermitCheck) : result TransportConfig GatewayError :=
  map_err (λ message, GContractUnavailable ("Kernel authority transport is not admitted: " +:+ message))
    (kpc_transport k).

Definition check_body (input : FinalCheckInput) (permit : json) : CheckBody := {|
  cb_operation := operation_str (fci_operation input);
  cb_authority := authority_without_permit (fci_authority input);
  cb_params := fci_params input;
  cb_kernel_permit := permit;
  cb_transport_fingerprint := to_hex (fci_transport_fingerprint input) |}.

(** [FinalAuthorityCheck::check] for [KernelPermitCheck], with what was written *)
Definition kernel_check (k : KernelPermitCheck) (env : rpc_env) (input : FinalCheckInput)
    : bytes * result VerifiedDecision GatewayError :=
  match extract_kernel_permit (fci_authority input), transport k with
  | None, _ => ([], Err (GContractUnavailable
      "unsigned or legacy authority token is not a Kernel-issued mutation permit"))
  | Some _, Err e => ([], Err e)
  | Some permit, Ok c =>
      let '(sent, reply) := call (R := CheckReply) c env "check" (check_body input permit) in
      (sent,
       let? reply := reply in
       fail_if (negb (String.eqb (cr_operation reply) (operation_str (fci_operation input)))
                || negb (String.eqb (cr_transport_fingerprint reply) (to_hex (fci_transport_fingerprint input))))
         (GSubjectMismatch "Kernel check did not bind the exact operation and request") ;?
       Ok {| vd_subject := cr_subject reply; vd_operation := fci_operation input;
             vd_transport_fingerprint := fci_transport_fingerprint input;
             vd_expires_at_unix_ms := cr_expires_at_unix_ms reply |})
  end.

Definition outcome_text (o : MutationOutcome) : string :=
  match o with Committed => "committed" | Aborted => "aborted" | Unknown => "unknown" end.

Definition settle_body (input : FinalSettlementInput) : SettleBody := {|
  sbd_subject := fsi_subject input;
  sbd_outcome := outcome_text (fsi_outcome input);
  sbd_result_digest := fsi_result_digest input;
  sbd_completed_at_unix_ms := fsi_completed_at_unix_ms input;
  sbd_settlement_fingerprint := to_hex (fsi_settlement_fingerprint input) |}.

(** [FinalAuthorityCheck::settle] for [KernelPermitCheck], with what was written *)
Definition kernel_settle (k : KernelPermitCheck) (env : rpc_env) (input : FinalSettlementInput)
    : bytes * result VerifiedSettlement GatewayError :=
  match transport k with
  | Err e => ([], Err e)
  | Ok c =>
      let '(sent, reply) := call (R := SettleReply) c env "settle" (settle_body input) in
      (sent,
       let? reply := reply in
       let? fingerprint := map_err (λ e, GSettlementUnknown (types_display e))
                             (from_hex (srp_settlement_fingerprint reply)) in
       Ok {| vs_mutation_id := srp_mutation_id reply; vs_reservation_id := srp_reservation_id reply;
             vs_result_digest := srp_result_digest reply; vs_settlement_fingerprint := fingerprint |})
  end.

(** The checker of the gateway, whose configuration never changes; its [n]-th call
    is answered by [answers n]. *)
Definition kernel_checker (k : KernelPermitCheck) (answers : nat → rpc_env) : FinalAuthorityCheck := {|
  checker := nat;
  checker_check n input := (S n, snd (kernel_check k (answers n) input));
  checker_settle n input := (S n, snd (kernel_settle k (answers n) input)) |}.
End Checker.

(** ** Specification *)

(** A socket file that [c] admits. *)
Record admitted (c : TransportConfig) (env : admit_env) (i : SocketIdentity) : Prop := {
  am_absolute : starts_with "/" (tc_socket c) = true;
  am_canonical : ∃ parent canonical, parent_path (tc_socket c) = Some parent ∧
    ad_canonicalize env parent = Ok canonical ∧ components canonical = components parent;
  am_meta : ∃ m, ad_meta env = Ok m ∧ sm_socket m = true ∧
    i = {| sid_dev := sm_dev m; sid_ino := sm_ino m; sid_uid := sm_uid m; sid_gid := sm_gid m;
           sid_mode := N.land (sm_mode m) 4095 |};
  am_mode : sid_mode i = SOCKET_MODE;
  am_uid : sid_uid i = xs_uid (tc_expected c);
  am_gid : sid_gid i = xs_socket_gid (tc_expected c)
}.

(** The stream is connected to the admitted server: the same admitted socket file
    before and after, and the peer runs as its owner. *)
Definition authenticated (c : TransportConfig) (env : rpc_env) : Prop :=
  ∃ i, admitted c (rp_before env) i ∧ connect_with_deadline (rp_connect env) = Ok tt ∧
    rp_peer env = Ok (xs_uid (tc_expected c)) ∧ admitted c (rp_after env) i.

(** The bytes that arrive until the first round that fails. *)
Fixpoint arrivals (rounds : list (round read_event)) : bytes :=
  match rounds with
  | [] => []
  | r :: rounds =>
      match set_deadline "read" r, rd_event r with
      | Ok _, ReadByte b => b :: arrivals rounds
      | Ok _, ReadInterrupted => arrivals rounds
      | _, _ => []
      end
  end.

(** The reply is one line within the bound. *)
Definition answered (env : rpc_env) (line : bytes) : Prop :=
  (∃ rest, arrivals (rp_reads env) = line ++ x0a :: rest) ∧ x0a ∉ line ∧ blen line < LINE_MAX.

(** ** Lemmas *)

Lemma admit_socket_Ok c env i : admit_socket c env = Ok i ↔ admitted c env i.
Proof.
  unfold admit_socket. split.
  - intros Hok. res_inv. bools. constructor; try done.
    + eexists _, _. split; [done|]. by split.
    + eexists. by split_and!.
  - intros [Ha (parent & canonical & Hp & Hc & He) (m & Hm & Hs & ->) Hmode Hu Hg]. simpl in *.
    rewrite Ha, Hp. simpl. rewrite Hc. simpl.
    assert (same_path canonical parent = true) as -> by (by apply same_path_spec). simpl.
    rewrite Hm. simpl. rewrite Hs. simpl. rewrite Hmode, Hu, Hg, !N.eqb_refl. done.
Qed.

Lemma connect_Ok c env : connect c env = Ok tt ↔ authenticated c env.
Proof.
  unfold connect, authenticated. split.
  - intros Hok. res_inv. unfold validate_connected_identity in Hok. res_inv. bools. subst.
    exists r2. split; [by apply admit_socket_Ok|]. split; [done|]. split; [done|]. by apply admit_socket_Ok.
  - intros (i & Hb%admit_socket_Ok & Hc & Hp & Ha%admit_socket_Ok). rewrite Hb, Hc, Hp, Ha. simpl.
    unfold validate_connected_identity. rewrite bool_decide_eq_true_2 by done. simpl. by rewrite N.eqb_refl.
Qed.

(** What was written is a prefix, all of it exactly when the loop succeeds. *)
Lemma write_loop_prefix left rounds sent r :
  write_loop left rounds = (sent, r) → sent `prefix_of` left ∧ (r = Ok tt ↔ sent = left).
Proof.
  revert left sent r. induction rounds as [|w rounds IH]; intros [|b left] sent r Hw; simpl in Hw;
    try (injection Hw as <- <-; split; [apply prefix_nil|done]).
  destruct (set_deadline _ w) as [|e]; [|injection Hw as <- <-; split; [apply prefix_nil|done]].
  destruct (rd_event w) as [n| | |e]; try (injection Hw as <- <-; split; [apply prefix_nil|done]); [|by apply IH].
  destruct (n =? 0); [injection Hw as <- <-; split; [apply prefix_nil|done]|].
  destruct (write_loop (drop _ _) rounds) as [sent' r'] eqn:E. injection Hw as <- <-.
  apply IH in E as [Hp Hr]. split.
  - rewrite <- (take_drop (N.to_nat n) (b :: left)) at 2. by apply prefix_app.
  - rewrite Hr. rewrite <- (take_drop (N.to_nat n) (b :: left)) at 3. split; [by intros ->|apply app_inv_head].
Qed.

Lemma read_line_spec buf rounds line :
  blen buf <= LINE_MAX →
  read_line buf rounds = Ok line ↔
  ∃ more rest, line = reverse buf ++ more ∧ arrivals rounds = more ++ x0a :: rest ∧ x0a ∉ more ∧ blen line < LINE_MAX.
Proof.
  assert (∀ b : bytes, blen (reverse b) = blen b) as Hrev by (intros b; unfold blen; by rewrite length_reverse).
  revert buf. induction rounds as [|r rounds IH]; intros buf Hbuf; simpl.
  { destruct (LINE_MAX <=? blen buf); (split; [done|]); by intros ([] & rest & _ & [=] & _). }
  destruct (N.leb_spec LINE_MAX (blen buf)) as [Hlong|Hshort]; simpl.
  { split; [done|]. intros (more & rest & -> & _ & _ & Hl). unfold blen in *. rewrite length_app, length_reverse in Hl. lia. }
  destruct (set_deadline "read" r) as [[]|e]; simpl; [|split; [done|]; by intros ([] & rest & _ & [=] & _)].
  destruct (rd_event r) as [|b| | |e]; try (split; [done|]; by intros ([] & rest & _ & [=] & _)); [|by apply IH].
  destruct (Byte.eqb b x0a) eqn:Eb.
  - apply Byte.byte_dec_bl in Eb as ->. split.
    + intros [= <-]. exists [], (arrivals rounds). rewrite app_nil_r. split_and!; [done..|by apply not_elem_of_nil|].
      by rewrite Hrev.
    + intros ([|c more] & rest & -> & Ha & Hn & _); [by rewrite app_nil_r|].
      injection Ha as <- _. destruct Hn. by left.
  - assert (b ≠ x0a) as Hb by (intros ->; by vm_compute in Eb).
    rewrite IH by (unfold blen in *; simpl; unfold LINE_MAX in *; lia). split.
    + intros (more & rest & -> & Ha & Hn & Hl). exists (b :: more), rest. rewrite reverse_cons, <- app_assoc in *.
      split_and!; [done|by rewrite Ha| |done]. by apply not_elem_of_cons.
    + intros ([|c more] & rest & -> & Ha & Hn & Hl); [by injection Ha as [= ->]|]. injection Ha as <- Ha.
      apply not_elem_of_cons in Hn as [_ Hn]. exists more, rest. rewrite reverse_cons, <- app_assoc. by split_and!.
Qed.

Lemma read_line_answered env line : read_line [] (rp_reads env) = Ok line ↔ answered env line.
Proof.
  rewrite read_line_spec by done. unfold answered. split.
  - intros (more & rest & -> & ? & ? & ?). split_and!; [by exists rest|done..].
  - intros ([rest ?] & ? & ?). by exists line, rest.
Qed.

Section CallSpec.
Context {T R : Type} `{!RpcEncode T, !RpcDecode R}.

Lemma request_line_Ok (request : RpcRequest T) line :
  request_line request = Ok line ↔
  ∃ encoded, encode_request request = Ok encoded ∧ line = encoded ++ [x0a] ∧ blen line <= LINE_MAX.
Proof.
  unfold request_line. split.
  - intros Hok. res_inv. bools. eexists. split; [done|]. split; [done|]. lia.
  - intros (encoded & He & -> & Hl). rewrite He. simpl.
    assert (LINE_MAX <? blen (encoded ++ [x0a]) = false) as -> by (apply N.ltb_ge; lia). done.
Qed.

Lemma accept_Ok (reply : RpcReply R) r : accept reply = Ok r ↔ reply = SuccessReply PROTO REQUEST_ID r.
Proof.
  unfold accept, validate_reply_identity. split.
  - destruct reply; intros Hok; res_inv; bools; [by subst|]. by destruct (String.eqb _ _).
  - intros ->. done.
Qed.

Lemma read_reply_Ok env (reply : RpcReply R) :
  read_json env = Ok reply ↔
  rp_read_deadline env = true ∧ ∃ line, answered env line ∧ decode_reply line = Ok reply.
Proof.
  unfold read_json, deadline. split.
  - intros Hok. res_inv. bools. split; [done|]. eexists. split; [by apply read_line_answered|done].
  - intros (Hd & line & Ha%read_line_answered & Hdec). rewrite Hd. simpl. rewrite Ha. simpl. by rewrite Hdec.
Qed.

(** One exchange: the request reaches nobody but the admitted server, whole or as a
    prefix, and the result is the one the server's line carries. *)
Definition exchanged (c : TransportConfig) (env : rpc_env) (request : N → RpcRequest T) (sent : bytes)
    (reply : R) : Prop :=
  authenticated c env ∧ (∃ now, rpc_now_unix_ms env = Ok now ∧ request_line (request now) = Ok sent) ∧
  rp_write_deadline env = true ∧ write_loop sent (rp_writes env) = (sent, Ok tt) ∧
  rp_read_deadline env = true ∧
  ∃ line, answered env line ∧ decode_reply line = Ok (SuccessReply PROTO REQUEST_ID reply).

Lemma call_Ok c env method params sent reply :
  call c env method params = (sent, Ok reply) ↔ exchanged c env (request_of method params) sent reply.
Proof.
  unfold call, exchanged. split.
  - destruct (connect c env) as [[]|] eqn:Hc; [|done]. apply connect_Ok in Hc. simpl.
    destruct (rpc_now_unix_ms env) as [now|] eqn:Hn; [|done].
    destruct (write_line env _) as [sent' written] eqn:Hw. intros [= -> Hok]. unfold write_line in Hw.
    destruct (request_line _) as [line|] eqn:Hl; [|by injection Hw as <- <-]. simpl in Hw. unfold deadline in Hw.
    destruct (rp_write_deadline env) eqn:Hd; [|by injection Hw as <- <-]. simpl in Hw.
    destruct written as [[]|]; [|done]. pose proof Hw as Hp. apply write_loop_prefix in Hp as [_ Hp].
    rewrite (proj1 Hp eq_refl) in *. simpl in Hok. apply res_bind_Ok in Hok as (r & Hr & Ha).
    apply accept_Ok in Ha as ->. apply read_reply_Ok in Hr as [Hrd Hline].
    split_and!; [done|by exists now|done..].
  - intros (Hc%connect_Ok & (now & Hn & Hl) & Hd & Hw & Hr). apply read_reply_Ok in Hr.
    rewrite Hc. simpl. rewrite Hn. unfold write_line, deadline. rewrite Hl, Hd. simpl. rewrite Hw. simpl.
    by rewrite Hr.
Qed.

Lemma call_sent c env method params sent (r : result R GatewayError) :
  call c env method params = (sent, r) →
  sent = [] ∨ authenticated c env ∧ ∃ now line, rpc_now_unix_ms env = Ok now ∧
    request_line (request_of method params now) = Ok line ∧ sent `prefix_of` line.
Proof.
  unfold call. destruct (connect c env) as [[]|] eqn:Hc; [|intros [= <- _]; by left]. apply connect_Ok in Hc. simpl.
  destruct (rpc_now_unix_ms env) as [now|] eqn:Hn; [|intros [= <- _]; by left].
  destruct (write_line env _) as [sent' written] eqn:Hw. intros [= <- _]. unfold write_line in Hw.
  destruct (request_line _) as [line|] eqn:Hl; [|injection Hw as <- _; by left]. simpl in Hw.
  destruct (deadline _); [|injection Hw as <- _; by left]. simpl in Hw. apply write_loop_prefix in Hw as [Hp _].
  right. split; [done|]. by exists now, line.
Qed.
End CallSpec.

(** ** Properties *)

Section Properties.
Context `{Blake3, HexCrate, LedgerCodec, !RpcEncode CheckBody, !RpcEncode SettleBody,
  !RpcDecode CheckReply, !RpcDecode SettleReply}.

(** The checker gives a decision exactly for the Kernel's answer. *)
Lemma kernel_check_Ok k env input sent d :
  kernel_check k env input = (sent, Ok d) ↔
  ∃ permit c reply,
    extract_kernel_permit (fci_authority input) = Some permit ∧ kpc_transport k = Ok c ∧
    exchanged c env (request_of "check" (check_body input permit)) sent reply ∧
    cr_operation reply = operation_str (fci_operation input) ∧
    cr_transport_fingerprint reply = to_hex (fci_transport_fingerprint input) ∧
    d = {| vd_subject := cr_subject reply; vd_operation := fci_operation input;
           vd_transport_fingerprint := fci_transport_fingerprint input;
           vd_expires_at_unix_ms := cr_expires_at_unix_ms reply |}.
Proof.
  unfold kernel_check, transport. split.
  - destruct (extract_kernel_permit _) as [permit|]; [|done]. destruct (kpc_transport k) as [c|]; [|done]. simpl.
    destruct (call c env "check" _) as [sent' r] eqn:Hc. intros [= -> Hok].
    apply res_bind_Ok in Hok as (reply & -> & Hok). apply call_Ok in Hc. res_inv. bools. destruct Hr as [? ?].
    by exists permit, c, reply.
  - intros (permit & c & reply & -> & -> & Hc%call_Ok & Ho & Hf & ->). simpl. rewrite Hc. simpl.
    by rewrite Ho, Hf, !String.eqb_refl.
Qed.

(** C26: nothing is said to a stranger.  Whatever a call of the checker comes to, a
    byte is written only to the authenticated server of the configured transport,
    and what is written is a prefix of the one request line of this call. *)
Theorem kernel_speaks_only_to_server k env :
  (∀ input sent r, kernel_check k env input = (sent, r) → sent ≠ [] →
     ∃ permit c now line, extract_kernel_permit (fci_authority input) = Some permit ∧ kpc_transport k = Ok c ∧
       authenticated c env ∧ request_line (request_of "check" (check_body input permit) now) = Ok line ∧
       sent `prefix_of` line) ∧
  (∀ input sent r, kernel_settle k env input = (sent, r) → sent ≠ [] →
     ∃ c now line, kpc_transport k = Ok c ∧ authenticated c env ∧
       request_line (request_of "settle" (settle_body input) now) = Ok line ∧ sent `prefix_of` line).
Proof.
  split.
  - intros input sent r. unfold kernel_check, transport.
    destruct (extract_kernel_permit _) as [permit|]; [|by intros [= <- _]].
    destruct (kpc_transport k) as [c|]; [|by intros [= <- _]]. simpl.
    destruct (call c env "check" _) as [sent' r'] eqn:Hc. intros [= <- _] Hne.
    apply call_sent in Hc as [|(Ha & now & line & _ & Hl & Hp)]; [done|]. by exists permit, c, now, line.
  - intros input sent r. unfold kernel_settle, transport.
    destruct (kpc_transport k) as [c|]; [|by intros [= <- _]]. simpl.
    destruct (call c env "settle" _) as [sent' r'] eqn:Hc. intros [= <- _] Hne.
    apply call_sent in Hc as [|(Ha & now & line & _ & Hl & Hp)]; [done|]. by exists c, now, line.
Qed.

Section Gateway.
Context `{!HexLaws, !LedgerCodecLaws, !JsonEncode} (k : KernelPermitCheck) (answers : nat → rpc_env).
#[local] Instance kernel : FinalAuthorityCheck := kernel_checker k answers.

(** C12: where the permits of the production daemon come from.  A permit that
    [authorize] returns over this checker comes from one exchange with the
    authenticated server, whose line names the operation and the fingerprint of
    exactly this authority and these parameters; the subject and the expiry of the
    permit are those of the line, and the subject is the expected writer.  The other
    call that issues permits, [authorize_by_preservation_receipt], asks no Kernel, and
    its permits are for a cleanup only, under the subject derived from the receipt and
    this very request, for one second from the clock's reading. *)
Theorem gateway_permit_is_kernel env g g' permit :
  (∀ op authority params attempt fence nonce,
   authorize env op authority params attempt fence nonce g = (g', Ok permit) →
   ∃ n token c reply sent fingerprint,
     transport_fingerprint op (authority_without_permit authority) params = Ok fingerprint ∧
     extract_kernel_permit authority = Some token ∧ kpc_transport k = Ok c ∧
     exchanged c (answers n) (request_of "check" {|
       cb_operation := operation_str op; cb_authority := authority_without_permit authority; cb_params := params;
       cb_kernel_permit := token; cb_transport_fingerprint := to_hex fingerprint |}) sent reply ∧
     cr_operation reply = operation_str op ∧ cr_transport_fingerprint reply = to_hex fingerprint ∧
     permit = {| mp_subject := cr_subject reply; mp_operation := op; mp_transport_fingerprint := fingerprint;
                 mp_expires_at_unix_ms := cr_expires_at_unix_ms reply |} ∧
     ms_attempt_id (cr_subject reply) = attempt ∧ ms_attempt_fence (cr_subject reply) = fence ∧
     ms_workspace_nonce (cr_subject reply) = hex_encode nonce) ∧
  (∀ authority params receipt,
   authorize_by_preservation_receipt env authority params receipt g = (g', Ok (ReceiptFresh permit)) →
   mp_operation permit = CleanupWorkspace ∧
   ∃ fingerprint n now,
     transport_fingerprint CleanupWorkspace (authority_without_permit authority) params = Ok fingerprint ∧
     mp_subject permit = receipt_mutation_subject receipt fingerprint ∧
     mp_transport_fingerprint permit = fingerprint ∧
     clock_reading (env n) = Ok now ∧ mp_expires_at_unix_ms permit = now + MAX_MUTATION_PERMIT_TTL_MS).
Proof.
  split.
  - intros op authority params attempt fence nonce
      [(e & [=] & _)|(fp & n & n' & d & now & g1 & Hfp & Hc & Hb & _ & _ & _ & Hw)]%authorize_inv.
    destruct (window_refusal _ _) as [refusal|]; [by destruct Hw as (e & [=] & _)|].
    destruct Hw as [-> [= ->]]. simpl in Hc. injection Hc as _ Hc.
    destruct (kernel_check k (answers n) _) as [sent r] eqn:Ek. simpl in Hc. subst r.
    apply kernel_check_Ok in Ek as (token & c & reply & Ht & Htr & Hex & Ho & Hf & ->).
    apply decision_binds_Ok in Hb as (_ & _ & _ & _ & ? & ? & ?). simpl in *.
    exists n, token, c, reply, sent, fp. by split_and!.
  - intros authority params receipt (fp & Hfp & Hs & Ho & Hf & _ & n & now & Hn & He & _)%receipt_authorization_exact.
    split; [done|]. by exists fp, n, now.
Qed.
End Gateway.
End Properties.

(** ** A concrete exchange *)

Module KernelReference.
Import Reference GatewayReference.

Definition fingerprint : Digest := framed_digest (transport_fields ApplyPatch (as_bytes "{}") (as_bytes "null")).
Definition writer : MutationSubject := {|
  ms_authority_envelope_digest := hex64; ms_authority_token_nonce := hex64;
  ms_mutation_id := "mut_" +:+ hex64; ms_reservation_id := "rsv_" +:+ hex64;
  ms_operation := ApplyPatch; ms_request_digest := to_hex fingerprint;
  ms_repository_id := "rep_" +:+ hex64; ms_workspace_id := "wsp_" +:+ hex64;
  ms_workspace_generation := 1; ms_workspace_nonce := hex_encode nonce;
  ms_attempt_id := attempt; ms_attempt_fence := 1; ms_authority_epoch := 1;
  ms_freeze_generation := 0; ms_permit_nonce := hex64; ms_permit_digest := hex64 |}.
Definition exchange : config :=
  {| subject := writer; final := requested writer Committed hex64 100; now := 100; expires := 500 |}.

#[local] Instance writer_codec : LedgerCodec := codec exchange.
#[local] Instance writer_laws : LedgerCodecLaws := codec_laws exchange.
#[local] Instance object_encode : JsonEncode := λ v,
  match v with VObject [] => Ok (as_bytes "{}") | VNull => Ok (as_bytes "null") | _ => Err "unsupported" end.
#[local] Instance encode_method {T} : RpcEncode T := λ r, Ok (as_bytes (rpq_method r)).
#[local] Instance decode_check : RpcDecode CheckReply := λ b,
  if bool_decide (b = as_bytes "granted") then Ok (SuccessReply PROTO REQUEST_ID {|
    cr_subject := writer; cr_operation := operation_str ApplyPatch;
    cr_transport_fingerprint := to_hex fingerprint; cr_expires_at_unix_ms := 500 |}) else Err "unknown reply".
#[local] Instance decode_settle : RpcDecode SettleReply := λ b, Err "unknown reply".

Definition socket_variables (name : string) : option bytes :=
  if String.eqb name ENV_SOCKET then Some (as_bytes "/run/kernel/authority.sock")
  else if String.eqb name ENV_SERVER_UID then Some (as_bytes "1000")
  else if String.eqb name ENV_SOCKET_GID then Some (as_bytes "+1001") else None.
Definition installed : KernelPermitCheck := from_env socket_variables.
Definition config1 : TransportConfig := {|
  tc_socket := "/run/kernel/authority.sock"; tc_expected := {| xs_uid := 1000; xs_socket_gid := 1001 |};
  tc_deadline := RPC_DEADLINE |}.

Definition socket_file : admit_env := {| ad_canonicalize p := Ok p;
  ad_meta := Ok {| sm_socket := true; sm_dev := 5; sm_ino := 7; sm_uid := 1000; sm_gid := 1001; sm_mode := 49584 |} |}.
Definition io_round {E} (e : E) : round E := {| rd_remaining := 1000; rd_timeout := None; rd_event := e |}.
(** Connecting waits once, writing is split and reading is interrupted. *)
Definition served : rpc_env := {|
  rp_before := socket_file;
  rp_connect := {| cn_socket := None; cn_address := None; cn_connect := ConnectPending; cn_deadline := true;
    cn_polls := [(900, PollInterrupted); (800, PollReady false)]; cn_status := Ok None; cn_blocking := None |};
  rp_peer := Ok 1000; rp_after := socket_file; rp_now := Ok 100;
  rp_write_deadline := true; rp_writes := map io_round [Wrote 2; WriteInterrupted; Wrote 4];
  rp_read_deadline := true;
  rp_reads := io_round ReadInterrupted :: map (λ b, io_round (ReadByte b)) (as_bytes "granted" ++ [x0a; x00]) |}.

Definition authority1 : json := VObject [("kernel_permit", VString "permit")].
Definition input1 : FinalCheckInput := {|
  fci_operation := ApplyPatch; fci_authority := authority1; fci_params := VNull;
  fci_transport_fingerprint := fingerprint |}.
Definition decision1 : VerifiedDecision := {|
  vd_subject := writer; vd_operation := ApplyPatch; vd_transport_fingerprint := fingerprint;
  vd_expires_at_unix_ms := 500 |}.

Lemma installed_config : kpc_transport installed = Ok config1.
Proof. vm_compute. reflexivity. Qed.
Lemma checked : kernel_check installed served input1 = (as_bytes "check" ++ [x0a], Ok decision1).
Proof. vm_compute. reflexivity. Qed.

Example kernel_speaks_only_to_server_witness : ∃ c, kpc_transport installed = Ok c ∧ authenticated c served.
Proof.
  destruct (proj1 (kernel_speaks_only_to_server installed served) input1 _ _ checked ltac:(discriminate))
    as (permit & c & now & line & _ & Hc & Ha & _).
  exists c. split; [exact Hc|exact Ha].
Defined.

#[local] Instance installed_kernel : FinalAuthorityCheck := kernel_checker installed (λ _, served).
Definition gateway0 : AuthorityGateway := fst (attach_ledger_root "/root" (@new_gateway _ installed_kernel 0%nat)).
Definition granted1 : AuthorityGateway * result MutationPermit GatewayError :=
  authorize (env exchange) ApplyPatch authority1 VNull attempt 1 nonce gateway0.
Definition permit1 : MutationPermit := {| mp_subject := writer; mp_operation := ApplyPatch;
  mp_transport_fingerprint := fingerprint; mp_expires_at_unix_ms := 500 |}.
Lemma granted1_ok : snd granted1 = Ok permit1.
Proof. vm_compute. reflexivity. Qed.
Lemma granted1_eq :
  authorize (env exchange) ApplyPatch authority1 VNull attempt 1 nonce gateway0 = (fst granted1, Ok permit1).
Proof. rewrite <- granted1_ok. unfold granted1. apply surjective_pairing. Qed.

(** The same checker beside a ledger that knows the cleanup of a receipt. *)
Section Receipted.
#[local] Instance sealed_codec : LedgerCodec := codec sealed.
#[local] Instance sealed_laws : LedgerCodecLaws := codec_laws sealed.
#[local] Instance null_encode : JsonEncode := encode_null.
#[local] Instance sealed_kernel : FinalAuthorityCheck := kernel_checker installed (λ _, served).
Definition gateway1 : AuthorityGateway := fst (attach_ledger_root "/root" (@new_gateway _ sealed_kernel 0%nat)).
Definition receipted1 : AuthorityGateway * result ReceiptAuthorization GatewayError :=
  authorize_by_preservation_receipt (env sealed) VNull VNull receipt gateway1.
Strategy expand [receipted1].
Definition is_fresh (r : result ReceiptAuthorization GatewayError) : bool :=
  match r with Ok (ReceiptFresh _) => true | _ => false end.
Lemma receipted1_fresh : is_fresh (snd receipted1) = true.
Proof. vm_compute. reflexivity. Qed.
Lemma fresh_run {S} (run : S * result ReceiptAuthorization GatewayError) :
  is_fresh (snd run) = true → ∃ permit, run = (fst run, Ok (ReceiptFresh permit)).
Proof. destruct run as [g [[permit|]|]]; simpl; [by exists permit|done..]. Qed.
Lemma receipted1_eq : ∃ permit,
  authorize_by_preservation_receipt (env sealed) VNull VNull receipt gateway1 = (fst receipted1, Ok (ReceiptFresh permit)).
Proof. destruct (fresh_run receipted1 receipted1_fresh) as [p E]. exists p. unfold receipted1 at 1 in E. exact E. Qed.

Example gateway_permit_is_kernel_witness :
  (∃ c, kpc_transport installed = Ok c ∧ authenticated c served) ∧
  ∃ permit, authorize_by_preservation_receipt (env sealed) VNull VNull receipt gateway1
      = (fst receipted1, Ok (ReceiptFresh permit)) ∧ mp_operation permit = CleanupWorkspace.
Proof.
  split.
  - destruct (proj1 (@gateway_permit_is_kernel _ _ writer_codec _ _ _ _ _ writer_laws object_encode installed (λ _, served)
      (env exchange) gateway0 (fst granted1) permit1) ApplyPatch authority1 VNull attempt 1 nonce granted1_eq)
      as (n & token & c & reply & sent & fp & _ & _ & Hc & [Ha _] & _).
    exists c. split; [exact Hc|exact Ha].
  - destruct receipted1_eq as [permit E]. exists permit. split; [exact E|].
    exact (proj1 (proj2 (gateway_permit_is_kernel installed (λ _, served) (env sealed) gateway1
      (fst receipted1) permit) VNull VNull receipt E)).
Defined.
End Receipted.
End KernelReference.
