(* ===== verification/Daemon.v ===== *)
(** [crates/bullet-gitd/src/daemon.rs], [daemon_handlers.rs], [daemon/codec.rs],
    the request side of [protocol.rs] and the loop of [main.rs]: one daemon
    serves one workspace session.  It composes the [AuthorityGateway] of
    [Gateway] with a workspace behind the interface [AgentRepository].

    A handler is a computation [D] over the daemon's state; [None] is a panic,
    which ends the process.  The builds with [fixture-authority] are not
    modelled. *)

From S2P Require Import Prelude Digests Ids Proposal Candidate ProofRoots Journal Protocol Cas Generation Capability Scope Apply SafeGit Repository StrictJson Ledger Gateway Clone.

(** ** Requests and parameters ([protocol.rs]) *)

Section Protocol.
Context `{LedgerCodec}.

Record Request : Type := {
  rq_id : json;
  rq_method : string;
  rq_token : json;
  rq_params : json
}.

Record CloneParams : Type := {
  clp_source_repo : string;
  clp_base_sha : string;
  clp_root : string;
  clp_created_at : string;
  clp_allowed_prefixes : list string;
  clp_commit_date : string
}.

Record PatchParam : Type := {
  ptp_path : string;
  ptp_op : option string;
  ptp_contents_hex : option string
}.
Record ApplyParams : Type := { app_patches : list PatchParam }.
Record ApplyProposalParams : Type := { apr_proposal : PatchProposal }.
(** The grant is only decoded; the Kernel authenticates the raw parameters. *)
Record PrepareParams : Type := { prp_change : Change; prp_provenance : CandidateProvenance }.
Record ProofInputParams : Type := {
  pip_scope_and_write_set : string;
  pip_runner_and_sandbox : string;
  pip_toolchain_and_deps : string;
  pip_evidence : string;
  pip_verifier_evidence : string;
  pip_reviews : string;
  pip_policy : string;
  pip_approvals_and_effect_receipts : string
}.
Record BindProofParams : Type := { bpp_candidate : Candidate; bpp_inputs : ProofInputParams }.
Record VerifyProofParams : Type := {
  vpp_root : ProofRoot; vpp_candidate : Candidate; vpp_inputs : ProofInputParams }.
Record PreserveParams : Type := { psp_destination : string }.
Record CleanupParams : Type := { cup_preservation_receipt : string; cup_deleted_at : string }.

(** [serde_json::from_value], [serde_json::to_value] and [serde_json::from_str]
    on a request line, and [Value::to_string]. *)
Class FromValue (T : Type) : Type := from_value : json → result T string.
Class ToValue (T : Type) : Type := to_value_of : T → result json string.
Class RequestLine : Type := request_of : string → result Request string.
Class JsonText : Type := json_text : json → string.

(** [protocol::envelope] *)
Definition envelope `{!JsonEncode} (token : json) : AuthorityEnvelope := {|
  ae_token := match token with
              | VNull => []
              | VString text => as_bytes text
              | other => match to_vec other with Ok b => b | Err _ => [] end
              end |}.

(** [protocol::ok_line] and [protocol::err_line], before printing; the keys of a
    [serde_json] map are sorted. *)
Definition ok_value (id result : json) : json := VObject [("id", id); ("ok", result)].
Definition err_value (id : json) (code message : string) : json :=
  VObject [("err", VObject [("code", VString code); ("message", VString message)]); ("id", id)].
End Protocol.

(** ** Errors ([daemon/codec.rs]) *)

Definition MethodError : Type := string * string.

Definition authority_display (e : AuthorityError) : string :=
  match e with
  | AuUnauthorized m => "authority required: " +:+ m
  | AuStaleAuthority m => "stale authority: " +:+ m
  end.

Definition candidate_display (e : CandidateManifestError) : string :=
  match e with
  | CUnsupportedSchema v => "CandidateManifest schema " +:+ u64_to_string v +:+ " is unsupported"
  | CInvalidFence => "Candidate fence must be nonzero"
  | CActualScopeExceedsGrant p => "actual path " +:+ p +:+ " is outside the granted scope"
  | CCandidateIdMismatch => "stored Candidate id does not match the manifest-derived id"
  | CContentIdMismatch => "stored Candidate content id does not match the manifest-derived id"
  | CCanonicalJson m => "canonical Candidate encoding failed: " +:+ m
  end.

Definition proof_display (e : ProofRootError) : string :=
  match e with PMismatch => "proof root does not match the Candidate and inputs" end.

Definition preservation_display (e : PreservationError) : string :=
  match e with
  | PvInvalidDestination m => "invalid preservation destination: " +:+ m
  | PvCorrupt m => "corrupt preservation state: " +:+ m
  | PvReceiptRefused m => "preservation receipt refused: " +:+ m
  | PvUnsupported m => "unsupported preservation backend: " +:+ m
  | PvIo m => "preservation io failure: " +:+ m
  | PvOutcomeUnknown m => "preservation cleanup outcome is unknown: " +:+ m
  end.

Definition cap_error `{CapabilityText} (e : CapabilityError) : MethodError :=
  (capability_reason_code e, capability_display e).
Definition auth_error (e : AuthorityError) : MethodError := (authority_reason_code e, authority_display e).
Definition candidate_error (e : CandidateManifestError) : MethodError :=
  (candidate_reason_code e, candidate_display e).
Definition gateway_error (e : GatewayError) : MethodError := (gateway_reason_code e, gateway_display e).
Definition not_cloned : MethodError := ("NOT_CLONED", "clone must be the first call").
Definition bad_request (message : string) : MethodError := ("BAD_REQUEST", message).
Definition outcome_unknown (message : string) : MethodError := ("MUTATION_OUTCOME_UNKNOWN", message).

Section Codec.
Context `{LedgerCodec}.

Definition MethodResult : Type := result json MethodError.

Definition parse_params {T} `{!FromValue T} (params : json) : result T MethodError :=
  map_err (λ e, bad_request ("invalid params: " +:+ e)) (from_value params).

Definition to_value {T} `{!ToValue T} (x : T) : MethodResult :=
  map_err (λ e, ("ENCODING", "encode result: " +:+ e)) (to_value_of x).

Definition proof_inputs (p : ProofInputParams) : ProofInputs := {|
  scope_and_write_set := as_bytes (pip_scope_and_write_set p);
  runner_and_sandbox := as_bytes (pip_runner_and_sandbox p);
  toolchain_and_deps := as_bytes (pip_toolchain_and_deps p);
  evidence := as_bytes (pip_evidence p);
  verifier_evidence := as_bytes (pip_verifier_evidence p);
  reviews := as_bytes (pip_reviews p);
  policy := as_bytes (pip_policy p);
  approvals_and_effect_receipts := as_bytes (pip_approvals_and_effect_receipts p) |}.

(** [decode_patch] *)
Definition decode_patch `{HexCrate, StrDebug} (patch : PatchParam) : result PatchHunk MethodError :=
  let write :=
    match ptp_contents_hex patch with
    | None => Err (bad_request ("contents_hex required for write op: " +:+ ptp_path patch))
    | Some hex_text =>
        fail_if (2 * MAX_CONTENT_BYTES <? slen hex_text)
          ("CONTENT_TOO_LARGE", ptp_path patch +:+ " exceeds " +:+ u64_to_string MAX_CONTENT_BYTES
                                +:+ " decoded bytes") ;?
        let? contents := map_err (λ e, bad_request ("contents_hex for " +:+ ptp_path patch +:+ ": " +:+ e))
                           (hex_decode hex_text) in
        Ok (hunk_write (ptp_path patch) contents)
    end in
  match ptp_op patch with
  | None => write
  | Some op =>
      if String.eqb op "write" then write
      else if String.eqb op "delete" then
        match ptp_contents_hex patch with
        | Some _ => Err (bad_request ("delete op must not carry contents_hex: " +:+ ptp_path patch))
        | None => Ok (hunk_delete (ptp_path patch))
        end
      else Err (bad_request ("unknown patch op " +:+ str_debug op +:+ ": " +:+ ptp_path patch))
  end.
End Codec.

(** ** The served workspace *)

(** What the daemon reads of a workspace. *)
Record WorkspaceView : Type := {
  wv_repo_dir : string;
  wv_runtime_dir : string;
  wv_manifest : WorkspaceManifest;
  wv_checkpoint : Checkpoint;
  wv_binding : ActiveGenerationBinding
}.

Record PreservationReceipt : Type := {
  prr_token : string;
  prr_receipt_digest : Digest;
  prr_destination : string;
  prr_artifact_digest : Digest
}.

(** A call on a repository handle, in the world outside the process; [None] is a
    panic. *)
Definition action (repo world A : Type) : Type :=
  repo → world → repo * world * option (result A CapabilityError).

(** The trait [AgentRepository], as far as the daemon calls it. *)
Class AgentRepository : Type := {
  world : Type;
  repo : Type;
  ar_view : repo → WorkspaceView;
  ar_read_tree : AuthorityEnvelope → action repo world (list string);
  ar_apply_change : AuthorityEnvelope → list PatchHunk → action repo world unit;
  ar_apply_proposal : AuthorityEnvelope → PatchProposal → action repo world Checkpoint;
  ar_validate_proposal : AuthorityEnvelope → PatchProposal → action repo world unit;
  ar_checkpoint : AuthorityEnvelope → action repo world Checkpoint;
  ar_validate_candidate_preparation : AuthorityEnvelope → CandidateProvenance → action repo world unit;
  ar_prepare_candidate : AuthorityEnvelope → Change → CandidateProvenance → action repo world Candidate
}.

(** [PrivateClone::create], [RealRepository::new], [PreservationAuthority] and
    [AuthorizedCleanup]. *)
Class WorkspaceService `{AgentRepository} : Type := {
  clone : Type;
  seal : Type;
  cleanup_permit : Type;
  ws_create : CloneRequest → world → world * result clone CapabilityError;
  ws_runtime_dir : clone → string;
  ws_open_seal : string → world → world * result seal PreservationError;
  ws_repository : clone → ScopeGrant → ExpectedAuthority → CommitIdentity → world →
                  world * result repo CapabilityError;
  ws_issue : seal → AuthorityEnvelope → string → action repo world PreservationReceipt;
  ws_authorize_receipt : seal → AuthorityEnvelope → string → action repo world cleanup_permit;
  ws_receipt_digest : cleanup_permit → Digest;
  ws_cleanup : cleanup_permit → string → action repo world string
}.

(** ** The daemon *)

Record Session `{WorkspaceService} : Type := {
  ss_repo : repo;
  ss_expected : ExpectedAuthority;
  ss_preservation : seal
}.

(** [dm_executed] is not in the code: the mutations whose repository call was
    made, each under the ledger directory of its reservation. *)
Record Daemon `{FinalAuthorityCheck, WorkspaceService} : Type := {
  dm_session : option Session;
  dm_authority : AuthorityGateway;
  dm_mutation_frozen : bool;
  dm_world : world;
  dm_executed : list (option string * MutationSubject)
}.

Section State.
Context `{Blake3, HexCrate, LedgerCodec, !JsonEncode, !FinalAuthorityCheck, !AgentRepository, !WorkspaceService}.

Definition set_session (s : option Session) (d : Daemon) : Daemon :=
  {| dm_session := s; dm_authority := dm_authority d; dm_mutation_frozen := dm_mutation_frozen d;
     dm_world := dm_world d; dm_executed := dm_executed d |}.
Definition set_authority (g : AuthorityGateway) (d : Daemon) : Daemon :=
  {| dm_session := dm_session d; dm_authority := g; dm_mutation_frozen := dm_mutation_frozen d;
     dm_world := dm_world d; dm_executed := dm_executed d |}.
Definition set_frozen (d : Daemon) : Daemon :=
  {| dm_session := dm_session d; dm_authority := dm_authority d; dm_mutation_frozen := true;
     dm_world := dm_world d; dm_executed := dm_executed d |}.
Definition set_world (w : world) (d : Daemon) : Daemon :=
  {| dm_session := dm_session d; dm_authority := dm_authority d;
     dm_mutation_frozen := dm_mutation_frozen d; dm_world := w; dm_executed := dm_executed d |}.
Definition add_executed (s : MutationSubject) (d : Daemon) : Daemon :=
  {| dm_session := dm_session d; dm_authority := dm_authority d;
     dm_mutation_frozen := dm_mutation_frozen d; dm_world := dm_world d;
     dm_executed := dm_executed d ++ [(ml_root <$> gw_ledger (dm_authority d), s)] |}.

Definition D (A : Type) : Type := Daemon → Daemon * option A.
Definition d_ret {A} (a : A) : D A := λ d, (d, Some a).
Definition d_bind {A B} (m : D A) (k : A → D B) : D B := λ d,
  match m d with
  | (d, Some a) => k a d
  | (d, None) => (d, None)
  end.
Definition d_try {A B} (m : D (result A MethodError)) (k : A → D (result B MethodError))
    : D (result B MethodError) :=
  d_bind m (λ r, match r with Ok a => k a | Err e => d_ret (Err e) end).
Definition d_get : D Daemon := λ d, (d, Some d).
Definition d_update (f : Daemon → Daemon) : D unit := λ d, (f d, Some tt).

(** A call of the gateway. *)
Definition d_gateway {A} (m : Gateway.M A) : D A := λ d,
  let '(g, a) := m (dm_authority d) in (set_authority g d, Some a).

(** A call on the world, before any repository is open. *)
Definition d_world {A E} (f : E → MethodError) (m : world → world * result A E) : D (result A MethodError) :=
  λ d, let '(w, r) := m (dm_world d) in (set_world w d, Some (map_err f r)).

(** A call on the session. *)
Definition d_session {A} `{!CapabilityText} (m : Session → action repo world A) : D (result A MethodError) := λ d,
  match dm_session d with
  | None => (d, Some (Err not_cloned))
  | Some s =>
      let '(r, w, res) := m s (ss_repo s) (dm_world d) in
      (set_session (Some {| ss_repo := r; ss_expected := ss_expected s; ss_preservation := ss_preservation s |})
         (set_world w d), option_map (map_err cap_error) res)
  end.
End State.

Declare Scope daemon_scope.
Delimit Scope daemon_scope with daemon.
Notation "'let!' x ':=' m 'in' k" := (d_try m (λ x, k))
  (at level 200, x name, m at level 100, k at level 200) : daemon_scope.
Notation "'run!' x ':=' m 'in' k" := (d_bind m (λ x, k))
  (at level 200, x name, m at level 100, k at level 200) : daemon_scope.

#[local] Open Scope daemon_scope.

Section Dispatch.
Context `{Blake3, HexCrate, LedgerCodec, !JsonEncode, !FinalAuthorityCheck, !AgentRepository, !WorkspaceService,
  !StrDebug, !CapabilityText, !TokenDecoder, !Unicode, !Jcs CandidateManifest, !Jcs CandidateContentManifest,
  !FromValue CloneParams, !FromValue ApplyParams, !FromValue ApplyProposalParams, !FromValue PrepareParams,
  !FromValue BindProofParams, !FromValue VerifyProofParams, !FromValue PreserveParams,
  !FromValue CleanupParams, !ToValue Checkpoint, !ToValue Candidate, !ToValue ProofRoot,
  !ToValue ActiveGenerationBinding}.
(** The replies to the gateway's external calls. *)
Variable env : nat → replies.

Definition of_result {A} (r : result A MethodError) : D (result A MethodError) := d_ret r.

(** A value of the [json!] macro, which unwraps [to_value]. *)
Definition embed {T} `{!ToValue T} (x : T) : D json := λ d,
  (d, match to_value_of x with Ok v => Some v | Err _ => None end).
Definition digest_value (d : Digest) : json := VString (to_hex d).

(** [Daemon::new], whose checker is in state [c]; the ledgers are on [disk]. *)
Definition daemon_new (c : checker) (disk : gmap string lfs) (w : world) : Daemon := {|
  dm_session := None;
  dm_authority := {| gw_checker := c; gw_ledger := None; gw_ledger_root := None; gw_disk := disk; gw_calls := 0 |};
  dm_mutation_frozen := false; dm_world := w; dm_executed := [] |}.

(** [Daemon::verify_token] *)
Definition verify_token (req : Request) : D (result WireAuthorityToken MethodError) := λ d,
  (d, Some match dm_session d with
           | None => Err not_cloned
           | Some s =>
               let? token := map_err auth_error (token_parse (ae_token (envelope (rq_token req)))) in
               map_err auth_error (token_verify token (ea_attempt_id (ss_expected s))
                 (ea_attempt_fence (ss_expected s)) (ea_workspace_nonce (ss_expected s))) ;?
               Ok token
           end).

(** [Daemon::require_unfrozen] *)
Definition require_unfrozen : D (result unit MethodError) := λ d,
  (d, Some (fail_if (dm_mutation_frozen d)
     (outcome_unknown "daemon mutation is frozen after an indeterminate repository outcome"))).

(** [Daemon::authorize_mutation] *)
Definition authorize_mutation (req : Request) (operation : MutationOperation) (token : WireAuthorityToken)
    : D (result MutationPermit MethodError) :=
  let! _u := require_unfrozen in
  run! r := d_gateway (authorize env operation (rq_token req) (rq_params req) (wt_attempt_id token)
                         (wt_attempt_fence token) (wt_workspace_nonce token)) in
  of_result (map_err gateway_error r).

(** [Daemon::consume_permit] *)
Definition consume_permit (req : Request) (operation : MutationOperation) (permit : MutationPermit)
    : D (result PendingMutation MethodError) :=
  run! r := d_gateway (consume env permit operation (rq_token req) (rq_params req)) in
  of_result (map_err gateway_error r).

(** [Daemon::authorize_cleanup_by_receipt] *)
Definition authorize_cleanup_by_receipt (req : Request) (receipt : ReceiptSubject)
    : D (result ReceiptAuthorization MethodError) :=
  let! _u := require_unfrozen in
  run! r := d_gateway (authorize_by_preservation_receipt env (rq_token req) (rq_params req) receipt) in
  of_result (map_err gateway_error r).

(** [Daemon::consume_receipt_permit] *)
Definition consume_receipt_permit (req : Request) (permit : MutationPermit)
    : D (result PendingMutation MethodError) :=
  run! r := d_gateway (consume_by_preservation_receipt env permit (rq_token req) (rq_params req)) in
  of_result (map_err gateway_error r).

Definition result_fields (operation : MutationOperation) (outcome : MutationOutcome) (encoded : bytes)
    : list bytes :=
  [as_bytes "bullet-gitd.mutation-result.v1"; as_bytes (operation_str operation); outcome_bytes outcome; encoded].
Definition result_digest (operation : MutationOperation) (outcome : MutationOutcome) (encoded : bytes)
    : string := to_hex (framed_digest (result_fields operation outcome encoded)).

(** [Daemon::finish_mutation] *)
Definition finish_mutation (operation : MutationOperation) (pending : PendingMutation)
    (result : MethodResult) (path : SettlementPath) : D MethodResult :=
  let '(outcome, payload) :=
    match result with
    | Ok value => (Committed, value)
    | Err (code, message) => (Unknown, VObject [("code", VString code); ("message", VString message)])
    end in
  match to_vec payload with
  | Err error =>
      run! _f := d_update set_frozen in
      d_ret (Err (outcome_unknown ("cannot encode exact mutation result: " +:+ error)))
  | Ok encoded =>
      run! settled := d_gateway (settle_through env pending outcome
                                   (result_digest operation outcome encoded) path) in
      match settled with
      | Err error => run! _f := d_update set_frozen in d_ret (Err (gateway_error error))
      | Ok _ =>
          match result with
          | Ok value => d_ret (Ok value)
          | Err (code, message) =>
              run! _f := d_update set_frozen in
              d_ret (Err (outcome_unknown ("repository returned " +:+ code
                                           +:+ " after permit consumption: " +:+ message)))
          end
      end
  end.

(** The repository call of a handler, its permit being consumed. *)
Definition execute (pending : PendingMutation) (body : D MethodResult) : D MethodResult :=
  run! _e := d_update (add_executed (pm_subject pending)) in body.

(** The four steps the handlers share. *)
Definition permitted (req : Request) (operation : MutationOperation) (token : WireAuthorityToken)
    (body : D MethodResult) : D MethodResult :=
  let! permit := authorize_mutation req operation token in
  let! pending := consume_permit req operation permit in
  run! result := execute pending body in
  finish_mutation operation pending result Kernel.

(** The closure of [handle_clone]. *)
Definition clone_body (token : WireAuthorityToken) (params : CloneParams) : D MethodResult :=
  let! workspace := d_world cap_error (ws_create {|
    clr_source_repo := clp_source_repo params; clr_base_sha := clp_base_sha params;
    clr_variant_id := wt_variant_id token; clr_attempt_id := wt_attempt_id token;
    clr_root := clp_root params; clr_created_at := clp_created_at params;
    clr_nonce := wt_workspace_nonce token |}) in
  let! grant := of_result (map_err cap_error (scope_new (clp_allowed_prefixes params))) in
  let expected := {| ea_attempt_id := wt_attempt_id token; ea_attempt_fence := wt_attempt_fence token;
                     ea_workspace_nonce := wt_workspace_nonce token |} in
  let! preservation := d_world (λ e, (preservation_reason_code e, preservation_display e))
    (ws_open_seal (ws_runtime_dir workspace)) in
  let! opened := d_world cap_error (ws_repository workspace grant expected (Repository.farm (clp_commit_date params))) in
  let view := ar_view opened in
  run! binding := embed (wv_binding view) in
  run! _s := d_update (set_session (Some {| ss_repo := opened; ss_expected := expected;
                                            ss_preservation := preservation |})) in
  d_ret (Ok (VObject [
    ("active_generation", binding);
    ("base_checkpoint_digest", digest_value (ckp_digest (wv_checkpoint view)));
    ("base_checkpoint_id", VString (as_str (ckp_id (wv_checkpoint view))));
    ("base_sha", VString (oid_str (wm_base_sha (wv_manifest view))));
    ("branch", VString (wm_branch (wv_manifest view)));
    ("repo_dir", VString (wv_repo_dir view));
    ("runtime_dir", VString (wv_runtime_dir view))])).

(** [Daemon::handle_clone] *)
Definition handle_clone (req : Request) : D MethodResult :=
  run! d := d_get in
  if bool_decide (is_Some (dm_session d))
  then d_ret (Err ("ALREADY_CLONED", "this daemon already serves a workspace"))
  else
    let! token := of_result (map_err auth_error (token_parse (ae_token (envelope (rq_token req))))) in
    let! params := of_result (parse_params (rq_params req)) in
    run! _a := d_gateway (attach_ledger_root (clp_root params)) in
    permitted req CloneWorkspace token (clone_body token params).

(** The arms of [Daemon::handle_repo]. *)
Definition handle_read_tree (req : Request) : D MethodResult :=
  let! files := d_session (λ _, ar_read_tree (envelope (rq_token req))) in
  d_ret (Ok (VObject [("files", VArray (map VString files))])).

Definition handle_apply_change (req : Request) (token : WireAuthorityToken) : D MethodResult :=
  let! params := of_result (parse_params (rq_params req)) in
  let! patches := of_result (try_map decode_patch (app_patches params)) in
  permitted req ApplyPatch token (
    let! _u := d_session (λ _, ar_apply_change (envelope (rq_token req)) patches) in
    d_ret (Ok (VObject [("applied", VNumber (NumU64 (blen patches)))]))).

(** The closure of the arm of [apply_proposal]. *)
Definition proposal_body (req : Request) (proposal : PatchProposal) : D MethodResult :=
  let! checkpoint := d_session (λ _, ar_apply_proposal (envelope (rq_token req)) proposal) in
  run! d := d_get in
  match dm_session d with
  | None => d_ret (Err not_cloned)
  | Some s =>
      let view := ar_view (ss_repo s) in
      run! binding := embed (wv_binding view) in
      d_ret (Ok (VObject [
        ("active_generation", binding);
        ("applied", VNumber (NumU64 (blen (pp_operations proposal))));
        ("checkpoint", VObject [("digest", digest_value (ckp_digest checkpoint));
                                ("id", VString (as_str (ckp_id checkpoint)))]);
        ("proposal_id", VString (as_str (pp_proposal_id proposal)));
        ("repo_dir", VString (wv_repo_dir view))]))
  end.

Definition handle_apply_proposal (req : Request) (token : WireAuthorityToken) : D MethodResult :=
  let! params := of_result (parse_params (rq_params req)) in
  let proposal := apr_proposal params in
  let! _v := d_session (λ _, ar_validate_proposal (envelope (rq_token req)) proposal) in
  permitted req ApplyPatch token (proposal_body req proposal).

Definition handle_checkpoint (req : Request) (token : WireAuthorityToken) : D MethodResult :=
  permitted req OpCheckpoint token (
    let! checkpoint := d_session (λ _, ar_checkpoint (envelope (rq_token req))) in
    of_result (to_value checkpoint)).

Definition handle_prepare_candidate (req : Request) (token : WireAuthorityToken) : D MethodResult :=
  let! params := of_result (parse_params (rq_params req)) in
  let! _v := d_session (λ _, ar_validate_candidate_preparation (envelope (rq_token req)) (prp_provenance params)) in
  permitted req PrepareCandidate token (
    let! candidate := d_session (λ _, ar_prepare_candidate (envelope (rq_token req)) (prp_change params)
                                        (prp_provenance params)) in
    of_result (to_value candidate)).

Definition unknown_method (method : string) : MethodResult :=
  Err ("UNKNOWN_METHOD", "unknown method: " +:+ method).

(** [Daemon::handle_repo] *)
Definition handle_repo (req : Request) : D MethodResult :=
  let! token := verify_token req in
  let method := rq_method req in
  if String.eqb method "read_tree" then handle_read_tree req
  else if String.eqb method "apply_change" then handle_apply_change req token
  else if String.eqb method "apply_proposal" then handle_apply_proposal req token
  else if String.eqb method "checkpoint" then handle_checkpoint req token
  else if String.eqb method "prepare_candidate" then handle_prepare_candidate req token
  else d_ret (unknown_method method).

(** [Daemon::handle_bind_proof] *)
Definition handle_bind_proof (req : Request) : MethodResult :=
  let? params := parse_params (rq_params req) in
  map_err candidate_error (validate_identity (bpp_candidate params)) ;?
  to_value (proof_bind (bpp_candidate params) (proof_inputs (bpp_inputs params))).

(** [Daemon::handle_verify_proof_root] *)
Definition handle_verify_proof_root (req : Request) : MethodResult :=
  let? params := parse_params (rq_params req) in
  map_err candidate_error (validate_identity (vpp_candidate params)) ;?
  map_err (λ e, (proof_root_reason_code e, proof_display e))
    (verify_proof_root (vpp_root params) (vpp_candidate params) (proof_inputs (vpp_inputs params))) ;?
  Ok (VObject [("verified", VBool true)]).

(** [Daemon::handle_preserve] *)
Definition handle_preserve (req : Request) : D MethodResult :=
  let! token := verify_token req in
  let! params := of_result (parse_params (rq_params req)) in
  permitted req PreserveWorkspace token (
    let! receipt := d_session (λ s, ws_issue (ss_preservation s) (envelope (rq_token req)) (psp_destination params)) in
    d_ret (Ok (VObject [
      ("artifact_digest", digest_value (prr_artifact_digest receipt));
      ("destination", VString (prr_destination receipt));
      ("preservation_receipt", VString (prr_token receipt));
      ("preservation_receipt_digest", digest_value (prr_receipt_digest receipt))]))).

(** [Session::receipt_identity] *)
Definition receipt_identity (view : WorkspaceView) : string * string :=
  let manifest := wv_manifest view in
  ("rep_" +:+ to_hex (framed_digest [as_bytes "bullet-gitd.receipt-repository-id.v1";
     as_bytes (wm_source_repo manifest); as_bytes (wm_mirror_dir manifest);
     as_bytes (oid_str (wm_base_sha manifest))]),
   "wsp_" +:+ to_hex (framed_digest [as_bytes "bullet-gitd.receipt-workspace-id.v1";
     as_bytes (wv_runtime_dir view); as_bytes (wm_attempt_id manifest); as_bytes (wm_nonce_hex manifest)])).

(** [cleanup_result] *)
Definition cleanup_result (tombstone receipt_digest : string) : json :=
  VObject [("preservation_receipt_digest", VString receipt_digest); ("tombstone", VString tombstone);
           ("verified", VBool true)].

(** [Daemon::replay_cleanup] *)
Definition replay_cleanup (runtime_dir receipt_digest : string) (settled : MutationResult) : D MethodResult :=
  let mutation_id := ms_mutation_id (mr_subject settled) in
  match mr_outcome settled with
  | Aborted => d_ret (Err ("AUTHORITY_REFUSED", mutation_id +:+ " durably aborted before repository execution"))
  | Unknown =>
      run! _f := d_update set_frozen in
      d_ret (Err (outcome_unknown (mutation_id +:+ " has an indeterminate durable cleanup outcome")))
  | Committed =>
      let payload := cleanup_result (join runtime_dir "tombstone.json") receipt_digest in
      let! encoded := of_result (map_err (λ e, outcome_unknown ("cannot encode exact mutation result: " +:+ e))
                                   (to_vec payload)) in
      if String.eqb (result_digest CleanupWorkspace Committed encoded) (mr_result_digest settled)
      then run! _s := d_update (set_session None) in d_ret (Ok payload)
      else d_ret (Err ("AUTHORITY_REPLAY_CONFLICT",
                       mutation_id +:+ " does not reproduce its durable result digest"))
  end.

(** The closure of [handle_cleanup]. *)
Definition cleanup_body (permit : cleanup_permit) (deleted_at receipt_digest : string) : D MethodResult :=
  let! tombstone := d_session (λ _, ws_cleanup permit deleted_at) in
  run! _s := d_update (set_session None) in
  d_ret (Ok (cleanup_result tombstone receipt_digest)).

(** The subject of a receipt-gated cleanup. *)
Definition receipt_subject (params : CleanupParams) (token : WireAuthorityToken) (view : WorkspaceView)
    (receipt_digest : string) : ReceiptSubject := {|
  rcp_receipt_token := cup_preservation_receipt params;
  rcp_receipt_digest := receipt_digest;
  rcp_attempt_id := wt_attempt_id token;
  rcp_attempt_fence := wt_attempt_fence token;
  rcp_workspace_nonce := wt_workspace_nonce token;
  rcp_repository_id := fst (receipt_identity view);
  rcp_workspace_id := snd (receipt_identity view);
  rcp_workspace_generation := saturating_add (agb_generation (wv_binding view)) 1 |}.

(** [Daemon::handle_cleanup] *)
Definition handle_cleanup (req : Request) : D MethodResult :=
  let! token := verify_token req in
  let! params := of_result (parse_params (rq_params req)) in
  let! _u := require_unfrozen in
  let! authorized := d_session (λ s, ws_authorize_receipt (ss_preservation s) (envelope (rq_token req))
                                       (cup_preservation_receipt params)) in
  run! d := d_get in
  let! view := of_result (ok_or (ar_view ∘ ss_repo <$> dm_session d) not_cloned) in
  let digest := to_hex (ws_receipt_digest authorized) in
  let! authorization := authorize_cleanup_by_receipt req (receipt_subject params token view digest) in
  match authorization with
  | ReceiptReplay settled => replay_cleanup (wv_runtime_dir view) digest settled
  | ReceiptFresh permit =>
      let! pending := consume_receipt_permit req permit in
      run! result := execute pending (cleanup_body authorized (cup_deleted_at params) digest) in
      finish_mutation CleanupWorkspace pending result ReceiptLocal
  end.

(** [Daemon::dispatch] *)
Definition dispatch (req : Request) : D MethodResult :=
  let method := rq_method req in
  if String.eqb method "clone" then handle_clone req
  else if existsb (String.eqb method)
            ["read_tree"; "apply_change"; "apply_proposal"; "checkpoint"; "prepare_candidate"]
  then handle_repo req
  else if String.eqb method "preserve" then handle_preserve req
  else if String.eqb method "cleanup" then handle_cleanup req
  else if String.eqb method "bind_proof" then d_ret (handle_bind_proof req)
  else if String.eqb method "verify_proof_root" then d_ret (handle_verify_proof_root req)
  else d_ret (unknown_method method).

Context `{!RequestLine, !JsonText}.

(** [Daemon::handle_line] *)
Definition handle_line (line : string) : D string :=
  match request_of line with
  | Err error => d_ret (json_text (err_value VNull "BAD_REQUEST" error))
  | Ok req =>
      run! r := dispatch req in
      d_ret (json_text match r with
                       | Ok result => ok_value (rq_id req) result
                       | Err (code, message) => err_value (rq_id req) code message
                       end)
  end.

(** [str::trim] leaves nothing: the line is white space. *)
Definition blank (line : string) : bool := String.eqb (trim line) "".

(** What becomes of an answer: [writeln!] on standard output fails, or the flush
    after it, or neither. *)
Inductive delivery : Type := Delivered | WriteFailed | FlushFailed.
#[export] Instance delivery_eq_dec : EqDecision delivery.
Proof. solve_decision. Defined.

(** The loop of [main] on the frames of [input]: the answers it writes, with what
    became of each.  [out n] is what becomes of the [n]-th answer; [None] is fuel
    exhaustion. *)
Fixpoint serve (out : nat → delivery) (fuel n : nat) (input : list chunk) (d : Daemon)
    : option (Daemon * list (string * delivery)) :=
  match fuel with
  | O => None
  | S fuel =>
      match read_frame input with
      | (Ok None, _) => Some (d, [])
      | (Err error, _) =>
          Some (d, [(json_text (err_value VNull (frame_reason_code error) (frame_display error)), out n)])
      | (Ok (Some line), input) =>
          if blank line then serve out fuel n input d
          else match handle_line line d with
               | (d, None) => Some (d, [])
               | (d, Some response) =>
                   if decide (out n = Delivered)
                   then match serve out fuel (S n) input d with
                        | Some (d, responses) => Some (d, (response, out n) :: responses)
                        | None => None
                        end
                   else Some (d, [(response, out n)])
               end
      end
  end.
End Dispatch.

(** ** The interface's contract *)

(** What the calls that only look may leave behind: [observes r w r' w'] when
    everything the handle [r] serves in [w] is served by [r'] in [w']. *)
Class AgentRepositoryLaws `{AgentRepository} : Type := {
  observes : repo → world → repo → world → Prop;
  observes_refl r w : observes r w r w;
  observes_trans r1 w1 r2 w2 r3 w3 : observes r1 w1 r2 w2 → observes r2 w2 r3 w3 → observes r1 w1 r3 w3;
  read_tree_observes auth r w r' w' res : ar_read_tree auth r w = (r', w', res) → observes r w r' w';
  validate_proposal_observes auth p r w r' w' res :
    ar_validate_proposal auth p r w = (r', w', res) → observes r w r' w';
  validate_candidate_observes auth p r w r' w' res :
    ar_validate_candidate_preparation auth p r w = (r', w', res) → observes r w r' w'
}.

(** Checking a preservation receipt only looks. *)
Class SealLaws `{WorkspaceService, !AgentRepositoryLaws} : Prop :=
  authorize_receipt_observes s auth token r w r' w' res :
    ws_authorize_receipt s auth token r w = (r', w', res) → observes r w r' w'.

(** ** Reasoning about handlers *)

Section Runs.
Context `{Blake3, HexCrate, LedgerCodec, !JsonEncode, !FinalAuthorityCheck, !AgentRepository, !WorkspaceService,
  !AgentRepositoryLaws, !SealLaws}.

(** [d'] serves the session of [d]. *)
Definition kept (d d' : Daemon) : Prop :=
  match dm_session d, dm_session d' with
  | Some s, Some s' =>
      ss_expected s' = ss_expected s ∧ ss_preservation s' = ss_preservation s ∧
      observes (ss_repo s) (dm_world d) (ss_repo s') (dm_world d')
  | None, None => dm_world d' = dm_world d
  | _, _ => False
  end.

(** Neither the gateway nor the freeze flag was touched, nothing was executed. *)
Record untouched (d d' : Daemon) : Prop := {
  ut_authority : dm_authority d' = dm_authority d;
  ut_frozen : dm_mutation_frozen d' = dm_mutation_frozen d;
  ut_executed : dm_executed d' = dm_executed d
}.

(** A computation of the session and the world alone. *)
Definition local {A} (m : D A) : Prop := ∀ d, untouched d (fst (m d)).

(** A computation that only looks. *)
Definition looks {A} (m : D A) : Prop := ∀ d, untouched d (fst (m d)) ∧ kept d (fst (m d)).

#[export] Instance untouched_preorder : PreOrder untouched.
Proof. split; [by constructor|]. intros d1 d2 d3 [] []. constructor; congruence. Qed.

#[export] Instance kept_preorder : PreOrder kept.
Proof.
  split.
  - intros d. unfold kept. destruct (dm_session d); [|done]. split_and!; [done..|]. apply observes_refl.
  - intros d1 d2 d3. unfold kept. destruct (dm_session d1), (dm_session d2), (dm_session d3); try done.
    + intros (-> & -> & ?) (-> & -> & ?). split_and!; [done..|]. by eapply observes_trans.
    + congruence.
Qed.

Lemma d_bind_inv {A B} (m : D A) (k : A → D B) d d' r :
  d_bind m k d = (d', r) →
  (∃ d1 a, m d = (d1, Some a) ∧ k a d1 = (d', r)) ∨ (m d = (d', None) ∧ r = None).
Proof. unfold d_bind. destruct (m d) as [d1 [a|]]; [eauto|]. intros [= <- <-]. by right. Qed.

Lemma d_try_inv {A B} (m : D (result A MethodError)) (k : A → D (result B MethodError)) d d' r :
  d_try m k d = (d', r) →
  (∃ d1 a, m d = (d1, Some (Ok a)) ∧ k a d1 = (d', r)) ∨
  (∃ e, m d = (d', Some (Err e)) ∧ r = Some (Err e)) ∨ (m d = (d', None) ∧ r = None).
Proof.
  unfold d_try. intros [(d1 & [a|e] & Hm & Hk)|Hn]%d_bind_inv; [left; eauto| |by right; right].
  right. left. injection Hk as <- <-. eauto.
Qed.

Lemma local_ret {A} (a : A) : local (d_ret a).
Proof. intros d. simpl. done. Qed.

Lemma local_embed {T} `{!ToValue T} (x : T) : local (embed x).
Proof. intros d. simpl. done. Qed.

Lemma local_update f : (∀ d, untouched d (f d)) → local (d_update f).
Proof. intros Hf d. apply Hf. Qed.

Lemma local_get : local d_get.
Proof. intros d. simpl. done. Qed.

Lemma local_bind {A B} (m : D A) (k : A → D B) : local m → (∀ a, local (k a)) → local (d_bind m k).
Proof.
  intros Hm Hk d. unfold d_bind. specialize (Hm d). destruct (m d) as [d1 [a|]]; [|done].
  etrans; [exact Hm|apply Hk].
Qed.

Lemma local_try {A B} (m : D (result A MethodError)) (k : A → D (result B MethodError)) :
  local m → (∀ a, local (k a)) → local (d_try m k).
Proof. intros Hm Hk. apply local_bind; [done|]. intros [a|e]; [apply Hk|apply local_ret]. Qed.

Lemma local_session {A} `{!CapabilityText} (m : Session → action repo world A) : local (d_session m).
Proof.
  intros d. unfold d_session. destruct (dm_session d) as [s|]; [|done].
  by destruct (m s _ _) as [[r w] res].
Qed.

Lemma local_world {A E} (f : E → MethodError) (m : world → world * result A E) : local (d_world f m).
Proof. intros d. unfold d_world. by destruct (m _) as [w r]. Qed.

Lemma looks_ret {A} (a : A) : looks (d_ret a).
Proof. intros d. by split. Qed.

Lemma looks_bind {A B} (m : D A) (k : A → D B) : looks m → (∀ a, looks (k a)) → looks (d_bind m k).
Proof.
  intros Hm Hk d. unfold d_bind. specialize (Hm d). destruct (m d) as [d1 [a|]]; [|done].
  destruct Hm as [Hm Hm'], (Hk a d1) as [Hk1 Hk2]. split; by etrans.
Qed.

Lemma d_session_ok {A} `{!CapabilityText} (m : Session → action repo world A) d d1 a :
  d_session m d = (d1, Some (Ok a)) →
  ∃ s r, dm_session d = Some s ∧ m s (ss_repo s) (dm_world d) = (r, dm_world d1, Some (Ok a)) ∧
    dm_session d1 = Some {| ss_repo := r; ss_expected := ss_expected s; ss_preservation := ss_preservation s |}.
Proof.
  unfold d_session. destruct (dm_session d) as [s|]; [|done].
  destruct (m s (ss_repo s) (dm_world d)) as [[r w] [[b|e]|]] eqn:E; intros [= <- ->].
  by exists s, r.
Qed.

Lemma looks_session {A} `{!CapabilityText} (m : Session → action repo world A) :
  (∀ s r w r' w' res, m s r w = (r', w', res) → observes r w r' w') → looks (d_session m).
Proof.
  intros Hm d. split; [apply local_session|]. unfold d_session. destruct (dm_session d) as [s|] eqn:Es.
  - destruct (m s _ _) as [[r w] res] eqn:E. unfold kept. rewrite Es. simpl. apply Hm in E. by split_and!.
  - done.
Qed.
End Runs.

Create HintDb daemon.
#[export] Hint Resolve local_ret local_get local_session local_world local_embed looks_ret : daemon.
#[export] Hint Resolve local_bind local_try local_update : daemon.

(** ** What one request does *)

Section Requests.
Context `{Blake3, HexCrate, LedgerCodec, !JsonEncode, !FinalAuthorityCheck, !AgentRepository, !WorkspaceService,
  !AgentRepositoryLaws, !SealLaws, !StrDebug, !CapabilityText, !TokenDecoder, !Unicode,
  !Jcs CandidateManifest, !Jcs CandidateContentManifest,
  !FromValue CloneParams, !FromValue ApplyParams, !FromValue ApplyProposalParams, !FromValue PrepareParams,
  !FromValue BindProofParams, !FromValue VerifyProofParams, !FromValue PreserveParams,
  !FromValue CleanupParams, !ToValue Checkpoint, !ToValue Candidate, !ToValue ProofRoot,
  !ToValue ActiveGenerationBinding}.
Variable env : nat → replies.

(** One authorization, by the Kernel's decision or by a receipt. *)
Inductive gate (req : Request) (op : MutationOperation) :
    SettlementPath → AuthorityGateway → AuthorityGateway → result MutationPermit GatewayError → Prop :=
  | gate_kernel attempt fence nonce g g' r :
      authorize env op (rq_token req) (rq_params req) attempt fence nonce g = (g', r) →
      gate req op Kernel g g' r
  | gate_receipt receipt g g' permit :
      op = CleanupWorkspace →
      authorize_by_preservation_receipt env (rq_token req) (rq_params req) receipt g = (g', Ok (ReceiptFresh permit)) →
      gate req op ReceiptLocal g g' (Ok permit)
  | gate_receipt_err receipt g g' e :
      op = CleanupWorkspace →
      authorize_by_preservation_receipt env (rq_token req) (rq_params req) receipt g = (g', Err e) →
      gate req op ReceiptLocal g g' (Err e).

(** The four ways of a mutation: refused, refused at its consumption, ended by a
    panic, finished. *)
Inductive mutated (req : Request) (op : MutationOperation) (path : SettlementPath) (d : Daemon) :
    Daemon → option MethodResult → Prop :=
  | mu_refused g e :
      gate req op path (dm_authority d) g (Err e) →
      mutated req op path d (set_authority g d) (Some (Err (gateway_error e)))
  | mu_aborted g1 permit g2 e :
      gate req op path (dm_authority d) g1 (Ok permit) →
      consume_through env permit op (rq_token req) (rq_params req) path g1 = (g2, Err e) →
      mutated req op path d (set_authority g2 d) (Some (Err (gateway_error e)))
  | mu_died g1 permit g2 pending d' :
      gate req op path (dm_authority d) g1 (Ok permit) →
      consume_through env permit op (rq_token req) (rq_params req) path g1 = (g2, Ok pending) →
      untouched (add_executed (pm_subject pending) (set_authority g2 d)) d' →
      mutated req op path d d' None
  | mu_finished g1 permit g2 pending d3 result d' r :
      gate req op path (dm_authority d) g1 (Ok permit) →
      consume_through env permit op (rq_token req) (rq_params req) path g1 = (g2, Ok pending) →
      untouched (add_executed (pm_subject pending) (set_authority g2 d)) d3 →
      finish_mutation env op pending result path d3 = (d', r) →
      mutated req op path d d' r.

(** A cleanup whose receipt was settled before. *)
Definition replayed (req : Request) (d d' : Daemon) (r : option MethodResult) : Prop :=
  ∃ receipt g settled runtime_dir digest,
    authorize_by_preservation_receipt env (rq_token req) (rq_params req) receipt (dm_authority d)
      = (g, Ok (ReceiptReplay settled)) ∧
    replay_cleanup runtime_dir digest settled (set_authority g d) = (d', r).

(** What precedes the first step that can mutate. *)
Record admitted (d d1 : Daemon) : Prop := {
  ad_kept : kept d d1;
  ad_ledger : same_ledger (dm_authority d) (dm_authority d1);
  ad_frozen : dm_mutation_frozen d1 = dm_mutation_frozen d;
  ad_executed : dm_executed d1 = dm_executed d
}.

#[local] Instance admitted_preorder : PreOrder admitted.
Proof.
  split; [by constructor|]. intros d1 d2 d3 [? ? ? ?] [? ? ? ?].
  constructor; [by etrans|by eapply same_trans|congruence..].
Qed.

Lemma looks_admitted d d1 : untouched d d1 ∧ kept d d1 → admitted d d1.
Proof. intros [[Ha ? ?] ?]. constructor; [done|by split; rewrite Ha|done..]. Qed.

Definition mutation_run (req : Request) (d1 d' : Daemon) (r : option MethodResult) : Prop :=
  d' = d1 ∨ dm_mutation_frozen d1 = false ∧
    ((∃ op path, mutated req op path d1 d' r) ∨ replayed req d1 d' r).

Lemma gateway_call_inv {A} (m : Gateway.M (result A GatewayError)) d d' r :
  d_bind (d_gateway m) (λ r, of_result (map_err gateway_error r)) d = (d', r) →
  ∃ g a, m (dm_authority d) = (g, a) ∧ d' = set_authority g d ∧ r = Some (map_err gateway_error a).
Proof.
  unfold d_bind, d_gateway. destruct (m (dm_authority d)) as [g a]. intros [= <- <-]. eauto.
Qed.

(** A call of the gateway behind the freeze. *)
Lemma unfrozen_call_inv {A} (m : Gateway.M (result A GatewayError)) d d' r :
  d_try require_unfrozen (λ _, d_bind (d_gateway m) (λ r, of_result (map_err gateway_error r))) d = (d', r) →
  (dm_mutation_frozen d = true ∧ d' = d ∧ ∃ e, r = Some (Err e)) ∨
  (dm_mutation_frozen d = false ∧ ∃ g a, m (dm_authority d) = (g, a) ∧ d' = set_authority g d ∧
     r = Some (map_err gateway_error a)).
Proof.
  unfold d_try at 1, require_unfrozen. unfold d_bind at 1. destruct (dm_mutation_frozen d) eqn:Ef; simpl.
  - intros [= <- <-]. left. eauto.
  - intros Hm. right. split; [done|]. by apply gateway_call_inv.
Qed.

(** From the consumption of a permit on. *)
Lemma consumed_run req op path permit body d g d' r :
  local body → gate req op path (dm_authority d) g (Ok permit) →
  (let! pending := d_bind (d_gateway (consume_through env permit op (rq_token req) (rq_params req) path))
                     (λ r, of_result (map_err gateway_error r)) in
   run! result := execute pending body in
   finish_mutation env op pending result path) (set_authority g d) = (d', r) →
  mutated req op path d d' r.
Proof.
  intros Hb Hg [(d2 & pending & Hm & Hk)|[(e & Hm & ->)|[Hm _]]]%d_try_inv;
    apply gateway_call_inv in Hm as (g2 & a & Hc & -> & Ha); [|destruct a as [|e2]; [done|]|done].
  2: { injection Ha as ->. exact (mu_aborted req op path d g permit g2 e2 Hg Hc). }
  destruct a as [p|]; [|done]. injection Ha as ->. change (set_authority g2 (set_authority g d)) with (set_authority g2 d) in Hk.
  unfold execute in Hk. apply d_bind_inv in Hk as [(d3 & result & He & Hk)|[He ->]].
  - eapply mu_finished; [done|done| |exact Hk].
    unfold d_bind, d_update in He. specialize (Hb (add_executed (pm_subject p) (set_authority g2 d))).
    by rewrite He in Hb.
  - eapply mu_died; [done|done|].
    unfold d_bind, d_update in He. specialize (Hb (add_executed (pm_subject p) (set_authority g2 d))).
    by rewrite He in Hb.
Qed.

Lemma permitted_run req op token body d d' r :
  local body → permitted env req op token body d = (d', r) → mutation_run req d d' r.
Proof.
  intros Hb [(d1 & permit & Hm & Hp)|[(e & Hm & ->)|[Hm _]]]%d_try_inv;
    apply unfrozen_call_inv in Hm as [(Hf & -> & e' & He)|(Hf & g & a & Ha & -> & He)]; try done; try by left.
  - destruct a as [p|]; [|done]. injection He as ->. right. split; [done|]. left. exists op, Kernel.
    eapply consumed_run; [exact Hb|by eapply gate_kernel|exact Hp].
  - destruct a as [|e2]; [done|]. injection He as ->. right. split; [done|]. left. exists op, Kernel.
    by eapply mu_refused, gate_kernel.
Qed.

(** A look, then a mutation. *)
Definition handles (req : Request) (m : D MethodResult) : Prop := ∀ d d' r,
  m d = (d', r) → ∃ d1, admitted d d1 ∧ mutation_run req d1 d' r.

Lemma handles_permitted req op token body : local body → handles req (permitted env req op token body).
Proof. intros Hb d d' r Hm. exists d. split; [done|]. by eapply permitted_run. Qed.

Lemma handles_looks req m : looks m → handles req m.
Proof.
  intros Hm d d' r E. specialize (Hm d). rewrite E in Hm. exists d'. split; [by apply looks_admitted|by left].
Qed.

Lemma handles_try {A} req (m : D (result A MethodError)) k :
  looks m → (∀ a, handles req (k a)) → handles req (d_try m k).
Proof.
  intros Hm Hk d d' r E. specialize (Hm d). apply d_try_inv in E as [(d1 & a & E & Ek)|[(e & E & ->)|[E ->]]];
    rewrite E in Hm; apply looks_admitted in Hm.
  - apply Hk in Ek as (d2 & Hd2 & Hr). exists d2. split; [by etrans|done].
  - exists d'. split; [done|by left].
  - exists d'. split; [done|by left].
Qed.

Lemma handles_bind {A} req (m : D A) k : looks m → (∀ a, handles req (k a)) → handles req (d_bind m k).
Proof.
  intros Hm Hk d d' r E. specialize (Hm d). apply d_bind_inv in E as [(d1 & a & E & Ek)|[E ->]];
    rewrite E in Hm; apply looks_admitted in Hm.
  - apply Hk in Ek as (d2 & Hd2 & Hr). exists d2. split; [by etrans|done].
  - exists d'. split; [done|by left].
Qed.

Lemma looks_verify_token req : looks (verify_token req).
Proof. intros d. by split. Qed.
Lemma looks_get : looks d_get.
Proof. intros d. by split. Qed.
Lemma looks_unfrozen : looks require_unfrozen.
Proof. intros d. by split. Qed.

#[local] Hint Resolve looks_ret looks_verify_token looks_get looks_unfrozen handles_permitted handles_try
  handles_bind handles_looks : daemon.

Lemma local_set_session s : local (d_update (set_session s)).
Proof. by apply local_update. Qed.
#[local] Hint Resolve local_set_session : daemon.

Lemma clone_local token params : local (clone_body token params).
Proof. unfold clone_body, of_result. eauto 12 with daemon. Qed.

Lemma proposal_local req proposal : local (proposal_body req proposal).
Proof.
  apply local_try; [eauto with daemon|]. intros checkpoint. apply local_bind; [eauto with daemon|]. intros d.
  destruct (dm_session d); eauto with daemon.
Qed.

Lemma cleanup_local permit deleted_at digest : local (cleanup_body permit deleted_at digest).
Proof. unfold cleanup_body. eauto 12 with daemon. Qed.

Lemma handle_repo_handles req : handles req (handle_repo env req).
Proof.
  unfold handle_repo, handle_read_tree, handle_apply_change, handle_apply_proposal, handle_checkpoint,
    handle_prepare_candidate, of_result.
  apply handles_try; [eauto with daemon|]. intros token. cbv zeta.
  repeat case_match.
  - apply handles_try; [|eauto with daemon]. apply looks_session. intros s r w r' w' res. apply read_tree_observes.
  - eauto 12 with daemon.
  - apply handles_try; [eauto with daemon|]. intros params. apply handles_try.
    + apply looks_session. intros s r w r' w' res. apply validate_proposal_observes.
    + intros _. apply handles_permitted, proposal_local.
  - eauto 12 with daemon.
  - apply handles_try; [eauto with daemon|]. intros params. apply handles_try; [|eauto 12 with daemon].
    apply looks_session. intros s r w r' w' res. apply validate_candidate_observes.
  - eauto with daemon.
Qed.

Lemma handle_preserve_handles req : handles req (handle_preserve env req).
Proof. unfold handle_preserve, of_result. eauto 12 with daemon. Qed.

Lemma handle_clone_handles req : handles req (handle_clone env req).
Proof.
  unfold handle_clone, of_result. apply handles_bind; [eauto with daemon|]. intros d0.
  case_bool_decide; [eauto with daemon|].
  apply handles_try; [eauto with daemon|]. intros token. apply handles_try; [eauto with daemon|]. intros params.
  intros d d' r [(d1 & [] & Hm & Hk)|[Hm _]]%d_bind_inv; [|done]. injection Hm as <-.
  exists (set_authority (fst (attach_ledger_root (clp_root params) (dm_authority d))) d). split.
  - constructor; [|done..]. unfold kept. simpl. destruct (dm_session d); [|done]. split_and!; [done..|]. apply observes_refl.
  - by eapply permitted_run; [apply clone_local|].
Qed.

Lemma handle_cleanup_handles req : handles req (handle_cleanup env req).
Proof.
  unfold handle_cleanup, of_result. apply handles_try; [eauto with daemon|]. intros token.
  apply handles_try; [eauto with daemon|]. intros params. apply handles_try; [eauto with daemon|]. intros [].
  apply handles_try.
  { apply looks_session. intros s r w r' w' res. apply authorize_receipt_observes. }
  intros authorized. apply handles_bind; [eauto with daemon|]. intros d0. apply handles_try; [eauto with daemon|].
  intros view. cbv zeta. unfold authorize_cleanup_by_receipt.
  intros d d' r [(d1 & a & Hm & Hk)|[(e & Hm & ->)|[Hm _]]]%d_try_inv; exists d; (split; [done|]);
    apply unfrozen_call_inv in Hm as [(Hf & -> & e' & He)|(Hf & g & x & Hg & -> & He)]; try done; try by left.
  - destruct x as [x|]; [|done]. injection He as ->. right. split; [done|]. destruct x as [permit|settled].
    + left. exists CleanupWorkspace, ReceiptLocal.
      eapply consumed_run; [apply cleanup_local|by eapply gate_receipt|exact Hk].
    + right. by repeat eexists.
  - destruct x as [|e2]; [done|]. injection He as ->. right. split; [done|]. left. exists CleanupWorkspace, ReceiptLocal.
    by eapply mu_refused, gate_receipt_err.
Qed.

(** Every request looks, then mutates in one of the four ways, if at all. *)
Lemma dispatch_handles req : handles req (dispatch env req).
Proof.
  unfold dispatch. pose proof handle_clone_handles. pose proof handle_repo_handles.
  pose proof handle_preserve_handles. pose proof handle_cleanup_handles.
  repeat case_match; eauto with daemon.
Qed.

(** ** The session's gate *)

(** What [req] must carry to get past the token check: of the served session, or
    for the call that opens one. *)
Definition admits (req : Request) (d : Daemon) : Prop :=
  ∃ token, token_parse (ae_token (envelope (rq_token req))) = Ok token ∧
  match dm_session d with
  | None => rq_method req = "clone"
  | Some s => rq_method req ≠ "clone" ∧
      token_verify token (ea_attempt_id (ss_expected s)) (ea_attempt_fence (ss_expected s))
        (ea_workspace_nonce (ss_expected s)) = Ok tt
  end.

Lemma verify_token_refuses req d :
  rq_method req ≠ "clone" → ¬ admits req d → ∃ e, verify_token req d = (d, Some (Err e)).
Proof.
  intros Hm Ha. unfold verify_token, admits in *. destruct (dm_session d) as [s|]; [|eauto].
  destruct (token_parse _) as [token|e]; simpl; [|eauto].
  destruct (token_verify token _ _ _) as [[]|e] eqn:Ev; simpl; [|eauto]. destruct Ha. eauto.
Qed.

(** The daemon serves nobody but its session.  A request whose token is not the
    session's, or, before there is a session, anything but a [clone] with a
    readable token, changes nothing at all, neither in the workspace nor in the
    ledger nor in the gateway; it is refused, unless it only binds or verifies a
    proof root. *)
Theorem session_gate req d :
  ¬ admits req d →
  ∃ r, dispatch env req d = (d, Some r) ∧
    (is_ok r = true → rq_method req = "bind_proof" ∨ rq_method req = "verify_proof_root").
Proof.
  intros Ha. assert (∀ {A} (k : A → D MethodResult) m, (∃ e, m d = (d, Some (Err e))) →
    ∃ r, d_try m k d = (d, Some r) ∧
      (is_ok r = true → rq_method req = "bind_proof" ∨ rq_method req = "verify_proof_root")) as Htry.
  { intros A k m [e He]. exists (Err e). unfold d_try, d_bind. by rewrite He. }
  unfold dispatch. destruct (String.eqb_spec (rq_method req) "clone") as [Ec|Ec].
  - unfold handle_clone, d_bind at 1, d_get. unfold admits in Ha. rewrite Ec in Ha.
    case_bool_decide as Hs; [by eexists|]. apply Htry. destruct (dm_session d); [by destruct Hs|].
    destruct (token_parse _) as [token|e]; [destruct Ha; eauto|by eexists].
  - destruct (verify_token_refuses req d Ec Ha) as [e He].
    destruct (existsb _ _); [apply Htry; eauto|]. destruct (String.eqb _ "preserve"); [apply Htry; eauto|].
    destruct (String.eqb _ "cleanup"); [apply Htry; eauto|].
    destruct (String.eqb_spec (rq_method req) "bind_proof") as [Eb|]; [eexists; by split; [|left]|].
    destruct (String.eqb_spec (rq_method req) "verify_proof_root") as [Ev|]; [eexists; by split; [|right]|].
    by eexists.
Qed.

(** ** The frozen daemon *)

(** [d'] differs from [d] in what looking leaves. *)
Definition inert (d d' : Daemon) : Prop := admitted d d' ∧ dm_mutation_frozen d' = true.

(** The daemon after a sequence of requests; a panic ends it. *)
Fixpoint handle_all (reqs : list Request) (d : Daemon) : Daemon :=
  match reqs with
  | [] => d
  | req :: reqs =>
      match dispatch env req d with
      | (d, Some _) => handle_all reqs d
      | (d, None) => d
      end
  end.

Lemma frozen_dispatch req d : dm_mutation_frozen d = true → inert d (fst (dispatch env req d)).
Proof.
  intros Hf. destruct (dispatch env req d) as [d' r] eqn:E.
  apply dispatch_handles in E as (d1 & Hd1 & [->|[Hf1 _]]).
  - split; [done|]. simpl. by rewrite (ad_frozen _ _ Hd1).
  - rewrite (ad_frozen _ _ Hd1) in Hf1. congruence.
Qed.

(** C35: an indeterminate outcome is final for the process.  Once the daemon is
    frozen, no sequence of requests, whatever authority they carry, executes a
    mutation, reaches the ledger or thaws it: the session stays, serving all that
    it served. *)
Theorem frozen_daemon_is_inert reqs d :
  dm_mutation_frozen d = true → inert d (handle_all reqs d).
Proof.
  intros Hf. assert (inert d d) as Hd by by split. revert Hd. generalize d at 2 4. clear Hf.
  induction reqs as [|req reqs IH]; intros d1 Hd1; [done|]. simpl.
  assert (inert d (fst (dispatch env req d1))) as Hd2.
  { destruct Hd1 as [Ha Hf]. destruct (frozen_dispatch req d1 Hf) as [Ha' Hf']. split; [by etrans|done]. }
  destruct (dispatch env req d1) as [d2 [r|]]; [by apply IH|done].
Qed.
End Requests.

(** ** At most once *)

Section Once.
Context `{Blake3, HexCrate, LedgerCodec, !JsonEncode, !FinalAuthorityCheck, !AgentRepository, !WorkspaceService,
  !AgentRepositoryLaws, !SealLaws, !StrDebug, !CapabilityText, !TokenDecoder, !Unicode,
  !Jcs CandidateManifest, !Jcs CandidateContentManifest,
  !FromValue CloneParams, !FromValue ApplyParams, !FromValue ApplyProposalParams, !FromValue PrepareParams,
  !FromValue BindProofParams, !FromValue VerifyProofParams, !FromValue PreserveParams,
  !FromValue CleanupParams, !ToValue Checkpoint, !ToValue Candidate, !ToValue ProofRoot,
  !ToValue ActiveGenerationBinding}.

(** The mutations executed under the ledger directory [p]. *)
Definition ids_at (p : string) (execs : list (option string * MutationSubject)) : list string :=
  map (ms_mutation_id ∘ snd) (filter (λ e, fst e = Some p) execs).

Lemma ids_at_all p l : Forall (λ x, fst x = Some p) l → ids_at p l = map (λ x, ms_mutation_id (snd x)) l.
Proof.
  unfold ids_at. induction 1 as [|e l He _ IH]; [done|].
  rewrite filter_cons_True by done. simpl. by rewrite IH.
Qed.
Lemma ids_at_app p l k : ids_at p (l ++ k) = ids_at p l ++ ids_at p k.
Proof. unfold ids_at. by rewrite filter_app, map_app. Qed.

(** Daemons over one disk.  They start, and restart, at any time, and their
    requests interleave in any order.  A crash inside a request leaves the disk
    of a request whose later calls fail, and its process does not answer again. *)
Record daemon_farm : Type := {
  df_disk : gmap string lfs;
  df_daemons : gmap nat Daemon
}.
Definition daemon_farm_init : daemon_farm := {| df_disk := ∅; df_daemons := ∅ |}.

Definition on_shared (disk : gmap string lfs) (d : Daemon) : Daemon :=
  set_authority (on_disk disk (dm_authority d)) d.

Inductive daemon_farm_step :
    daemon_farm → list (option string * MutationSubject) → daemon_farm → Prop :=
  | dfs_start f pid c w :
      daemon_farm_step f []
        {| df_disk := df_disk f; df_daemons := <[pid := daemon_new c ∅ w]> (df_daemons f) |}
  | dfs_request f pid env req d d' r execs :
      df_daemons f !! pid = Some d → (∀ n, faithful (env n)) →
      dispatch env req (on_shared (df_disk f) d) = (d', r) →
      dm_executed d' = dm_executed d ++ execs →
      daemon_farm_step f execs
        {| df_disk := gw_disk (dm_authority d');
           df_daemons := match r with
                         | Some _ => <[pid := d']> (df_daemons f)
                         | None => delete pid (df_daemons f)
                         end |}.

Inductive daemon_farm_run :
    daemon_farm → list (option string * MutationSubject) → daemon_farm → Prop :=
  | dfr_nil f : daemon_farm_run f [] f
  | dfr_snoc f execs mid out f' :
      daemon_farm_run f execs mid → daemon_farm_step mid out f' → daemon_farm_run f (execs ++ out) f'.

Section Traces.
Variables (env : nat → replies) (pid : nat) (p : string).
Hypothesis env_faithful : ∀ n, faithful (env n).

Lemma gate_moves req op path g g' r :
  gate env req op path g g' r →
  ∃ outs, moves pid p g outs g' ∧ ∀ permit, r = Ok permit → permit_traced pid p (mp_subject permit) outs g'.
Proof.
  intros Hg. inversion Hg as [attempt fence nonce ? ? ? Ha|receipt ? ? ? -> Ha|receipt ? ? e -> Ha]; subst.
  - destruct (wp_authorize env pid p env_faithful op (rq_token req) (rq_params req) attempt fence nonce g
      (λ outs g' r, ∀ permit, r = Ok permit → permit_traced pid p (mp_subject permit) outs g') ltac:(done))
      as (outs & Hm & Ht). rewrite Ha in Hm, Ht. eauto.
  - destruct (wp_receipt env pid p env_faithful (rq_token req) (rq_params req) receipt g
      (λ outs g' r, ∀ permit, r = Ok (ReceiptFresh permit) → permit_traced pid p (mp_subject permit) outs g')
      ltac:(done)) as (outs & Hm & Ht).
    rewrite Ha in Hm, Ht. exists outs. split; [done|]. intros q [= <-]. by apply Ht.
  - destruct (wp_receipt env pid p env_faithful (rq_token req) (rq_params req) receipt g
      (λ _ _ _, True) ltac:(done)) as (outs & Hm & _). rewrite Ha in Hm. exists outs. by split.
Qed.

Lemma consume_moves permit op authority params path g g' r :
  consume_through env permit op authority params path g = (g', r) →
  ∃ outs, moves pid p g outs g' ∧
    ∀ pending, r = Ok pending → same_ledger g g' ∧ pm_subject pending = mp_subject permit.
Proof.
  intros Hc. destruct (wp_consume env pid p env_faithful permit op authority params path g (λ _ _ _, True) ltac:(done))
    as (outs & Hm & _). rewrite Hc in Hm. exists outs. split; [done|]. intros pending ->.
  unfold consume_through in Hc. m_inv Hc. apply clock_inv in Hm0 as [Hs _]. cbv zeta in Hc.
  destruct (res_bind _ _); [by injection Hc as <- <-|]. m_inv Hc. by injection Hc.
Qed.

Lemma finish_moves op pending result path d d' r :
  finish_mutation env op pending result path d = (d', r) →
  dm_executed d' = dm_executed d ∧ ∃ outs, moves pid p (dm_authority d) outs (dm_authority d').
Proof.
  unfold finish_mutation. destruct (match result with Ok v => (Committed, v) | Err _ => _ end) as [o payload].
  destruct (to_vec payload) as [encoded|e].
  2: { intros [= <- <-]. split; [done|]. exists []. by apply moves_quiet. }
  unfold d_bind at 1, d_gateway.
  destruct (wp_settle_through env pid p env_faithful pending o (result_digest op o encoded) path (dm_authority d)
    (λ _ _ _, True) ltac:(done)) as (outs & Hm & _).
  destruct (settle_through _ _ _ _ _ _) as [g s]. simpl in Hm. intros Hk.
  assert (dm_executed d' = dm_executed d ∧ dm_authority d' = g) as [-> ->]; [|eauto].
  destruct s as [|e]; [destruct result as [v|[code message]]|]; by injection Hk as <- _.
Qed.

Lemma admitted_moves d d1 : admitted d d1 → moves pid p (dm_authority d) [] (dm_authority d1).
Proof. intros [_ [Hl Hd] _ _]. by apply moves_quiet. Qed.

Lemma executed_fresh s outs g where_ :
  permit_traced pid p s outs g → where_ = ledger_path g → ids_at p [(where_, s)] ⊆+ fresh_ids outs.
Proof.
  intros Ht ->. unfold ids_at, permit_traced in *. rewrite filter_cons. simpl.
  case_decide as Hp; [|apply submseteq_nil_l]. simpl. apply singleton_submseteq_l, fresh_ids_elem. eauto.
Qed.

(** One request is a sequence of ledger steps, with a fresh reservation for what
    it executes. *)
Lemma dispatch_moves req d d' r :
  dispatch env req d = (d', r) →
  ∃ outs execs, moves pid p (dm_authority d) outs (dm_authority d') ∧
    dm_executed d' = dm_executed d ++ execs ∧ ids_at p execs ⊆+ fresh_ids outs.
Proof.
  intros (d1 & Hd1 & Hr)%dispatch_handles. pose proof (admitted_moves _ _ Hd1) as Hm1.
  destruct Hd1 as [_ _ _ Hex].
  assert (∀ g outs', moves pid p (dm_authority d1) outs' g →
    ∃ outs execs, moves pid p (dm_authority d) outs g ∧ dm_executed d1 = dm_executed d ++ execs ∧
      ids_at p execs ⊆+ fresh_ids outs) as Hnone.
  { intros g outs' Hm. exists outs', []. split; [by apply (moves_trans _ _ _ [] _ outs' _ Hm1)|].
    rewrite app_nil_r. split; [done|apply submseteq_nil_l]. }
  destruct Hr as [->|[_ [(op & path & Hm)|(receipt & g & settled & dir & digest & Ha & Hr)]]].
  - apply (Hnone _ []). by apply moves_quiet.
  - destruct Hm as [g e Hg|g1 permit g2 e Hg Hc|g1 permit g2 pending d' Hg Hc Hu|g1 permit g2 pending d3 res d' r Hg Hc Hu Hfin];
      apply gate_moves in Hg as (o1 & Hm2 & Ht); [by apply (Hnone _ o1)|..];
      apply consume_moves in Hc as (o2 & Hm3 & Hs); pose proof (moves_trans _ _ _ _ _ _ _ Hm2 Hm3) as Hm.
    + by apply (Hnone _ (o1 ++ o2)).
    + destruct (Hs _ eq_refl) as [[Hl _] Es]. exists (o1 ++ o2), [(ledger_path g2, mp_subject permit)].
      rewrite (ut_authority _ _ Hu), (ut_executed _ _ Hu). simpl. rewrite Hex, Es.
      split; [by apply (moves_trans _ _ _ [] _ _ _ Hm1)|]. split; [done|].
      unfold fresh_ids. rewrite flat_map_app. etrans; [|apply submseteq_inserts_r, reflexivity].
      eapply executed_fresh; [by apply Ht|]. unfold ledger_path. by rewrite Hl.
    + destruct (Hs _ eq_refl) as [[Hl _] Es]. apply finish_moves in Hfin as [He (o3 & Hm4)].
      rewrite (ut_authority _ _ Hu) in Hm4. rewrite (ut_executed _ _ Hu) in He. simpl in He, Hm4.
      exists ((o1 ++ o2) ++ o3), [(ledger_path g2, mp_subject permit)]. rewrite He, Hex, Es.
      split; [apply (moves_trans _ _ _ [] _ _ _ Hm1); by eapply moves_trans|]. split; [done|].
      unfold fresh_ids. rewrite !flat_map_app. rewrite <- app_assoc. etrans; [|apply submseteq_inserts_r, reflexivity].
      eapply executed_fresh; [by apply Ht|]. unfold ledger_path. by rewrite Hl.
  - destruct (wp_receipt env pid p env_faithful (rq_token req) (rq_params req) receipt (dm_authority d1)
      (λ _ _ _, True) ltac:(done)) as (outs & Hm & _). rewrite Ha in Hm. simpl in Hm.
    assert (dm_authority d' = g ∧ dm_executed d' = dm_executed d1) as [-> ->]; [|by apply (Hnone _ outs)].
    unfold replay_cleanup in Hr. destruct (mr_outcome settled); [|by injection Hr as <- _..].
    unfold d_try, d_bind, of_result, d_ret in Hr. destruct (to_vec _); simpl in Hr; [|by injection Hr as <- _].
    destruct (String.eqb _ _); by injection Hr as <- _.
Qed.
End Traces.

(** The ledger system stands for the daemons, seen from the directory [p]. *)
Lemma daemon_farm_sim p execs f :
  daemon_farm_run daemon_farm_init execs f →
  ∃ louts sys, ledger_run ledger_init louts sys ∧ sys_fs sys = dir (df_disk f) p ∧
    (∀ pid d l, df_daemons f !! pid = Some d → proc_at p (dm_authority d) l → sys_procs sys !! pid = Some l) ∧
    ids_at p execs ⊆+ fresh_ids louts.
Proof.
  remember daemon_farm_init as init eqn:Hi. induction 1 as [f|f execs mid out f' Hrun IH Hstep]; subst.
  { exists [], ledger_init. split; [constructor|]. split; [done|]. split; [done|apply submseteq_nil_l]. }
  destruct IH as (louts & sys & Hl & Hfs & Hprocs & Hids); [done|].
  destruct Hstep as [f pid c w|f pid env req d d' r execs' Hd Hf Hreq Hex].
  - exists louts, sys. rewrite app_nil_r. split_and!; [done..| |done]. intros pid' d l Hd Hp. simpl in Hd.
    apply lookup_insert_Some in Hd as [[<- <-]|[_ Hd]]; [by destruct Hp|by eapply Hprocs].
  - destruct (dispatch_moves env pid p Hf _ _ _ _ Hreq) as (outs & new & Hm & Hex' & Hnew).
    rewrite Hex in Hex'. simpl in Hex'. apply app_inv_head in Hex' as <-.
    destruct (Hm (sys_procs sys)) as (procs' & Hrun' & Hp' & Ho').
    { intros l Hp. by eapply Hprocs. }
    exists (louts ++ outs), (at_dir (gw_disk (dm_authority d')) p procs').
    split; [eapply ledger_run_app; [exact Hl|]|split; [done|split]].
    + simpl in Hrun'. unfold at_dir at 1 in Hrun'. simpl in Hrun'. rewrite <- Hfs in Hrun'. by destruct sys.
    + intros pid' d0 l Hl' Hp. simpl in Hl'. destruct (decide (pid' = pid)) as [->|Hne].
      * destruct r; [|by rewrite lookup_delete_eq in Hl']. rewrite lookup_insert_eq in Hl'.
        injection Hl' as <-. by apply Hp'.
      * simpl. rewrite Ho' by done. eapply Hprocs; [|exact Hp].
        destruct r; [by rewrite lookup_insert_ne in Hl'|by rewrite lookup_delete_ne in Hl'].
    + rewrite ids_at_app. unfold fresh_ids. rewrite flat_map_app. by apply submseteq_app.
Qed.

(** C3: at most once under one ledger directory.  Over any number of daemons sharing
    one disk, restarting and crashing at any point, with their requests interleaved in
    any order and whatever the checker, the clock, the file system and the workspaces
    answer, the mutations executed under one ledger directory carry pairwise distinct
    mutation ids; so all of them do when every daemon keeps the same directory.  Nothing
    is promised across two directories: each has its own memory, and a root attached in
    the place of another ([attach_ledger_root]) starts with none. *)
Theorem mutations_executed_at_most_once p execs f :
  daemon_farm_run daemon_farm_init execs f →
  NoDup (ids_at p execs) ∧
  (Forall (λ x, fst x = Some p) execs → NoDup (map (λ x, ms_mutation_id (snd x)) execs)).
Proof.
  intros (louts & sys & Hl & _ & _ & Hids)%(daemon_farm_sim p). destruct (fresh_ids_run _ _ _ Hl) as [Hnd _].
  apply submseteq_Permutation in Hids as [k Hk]. rewrite Hk in Hnd. apply NoDup_app in Hnd as [Hnd _].
  split; [done|]. intros Hp. by rewrite <- (ids_at_all p).
Qed.
End Once.

(** ** Every mutation is accounted for *)

Section Accounting.
Context `{Blake3, HexLaws, LedgerCodecLaws, !JsonEncode, !FinalAuthorityCheck, !AgentRepository, !WorkspaceService,
  !AgentRepositoryLaws, !SealLaws, !StrDebug, !CapabilityText, !TokenDecoder, !Unicode,
  !Jcs CandidateManifest, !Jcs CandidateContentManifest,
  !FromValue CloneParams, !FromValue ApplyParams, !FromValue ApplyProposalParams, !FromValue PrepareParams,
  !FromValue BindProofParams, !FromValue VerifyProofParams, !FromValue PreserveParams,
  !FromValue CleanupParams, !ToValue Checkpoint, !ToValue Candidate, !ToValue ProofRoot,
  !ToValue ActiveGenerationBinding}.
Variable env : nat → replies.

(** The subject names this operation on exactly this request. *)
Definition names_request (req : Request) (op : MutationOperation) (s : MutationSubject) : Prop :=
  ms_operation s = op ∧
  ∃ fp, transport_fingerprint op (authority_without_permit (rq_token req)) (rq_params req) = Ok fp ∧
        ms_request_digest s = to_hex fp.

Lemma gate_live req op path g g' permit :
  gate env req op path g g' (Ok permit) →
  live g' (mp_subject permit) ∧ names_request req op (mp_subject permit).
Proof.
  intros Hg. inversion Hg as [attempt fence nonce ? ? ? Ha|receipt ? ? ? -> Ha|]; subst.
  - apply authorize_inv in Ha as [(e & [=] & _)|(fp & c & c' & d & now & g1 & Hfp & _ & Hb & _ & Hlive & _ & Hw)].
    destruct (window_refusal _ _); [by destruct Hw as (e & [=] & _)|]. destruct Hw as [-> [= ->]].
    apply decision_binds_Ok in Hb as (_ & Hop & _ & Hd & _). split; [done|]. split; [done|]. by exists fp.
  - apply receipt_authorization_exact in Ha as (fp & Hfp & -> & _ & _ & Hlive & _).
    split; [done|]. split; [done|]. by exists fp.
Qed.

Lemma consume_live path permit op authority params g g' pending :
  live g (mp_subject permit) → consume_through env permit op authority params path g = (g', Ok pending) →
  pm_subject pending = mp_subject permit ∧ live g' (mp_subject permit).
Proof.
  intros Hl Hc. apply (consume_exact env _ _ _ _ _ _ _ _ Hl) in Hc as (n & -> & Hlive & _). done.
Qed.

(** What [finish_mutation] answers. *)
Lemma finish_spec op pending result path d d' r :
  live (dm_authority d) (pm_subject pending) → finish_mutation env op pending result path d = (d', r) →
  dm_executed d' = dm_executed d ∧ dm_session d' = dm_session d ∧ dm_world d' = dm_world d ∧
  ((∃ v encoded, r = Some (Ok v) ∧ result = Ok v ∧ to_vec v = Ok encoded ∧
      dm_mutation_frozen d' = dm_mutation_frozen d ∧
      settled_now env (dm_authority d') (pm_subject pending) Committed (result_digest op Committed encoded) path) ∨
   (dm_mutation_frozen d' = true ∧ ∃ m, r = Some (Err (outcome_unknown m)))).
Proof.
  intros Hlive. unfold finish_mutation.
  set (op_ := match result with Ok v => (Committed, v) | Err _ => _ end). destruct op_ as [outcome payload] eqn:Eo.
  destruct (to_vec payload) as [encoded|e] eqn:Ee.
  2: { intros [= <- <-]. do 3 (split; [done|]). right. eauto. }
  unfold d_bind at 1, d_gateway.
  destruct (settle_through env pending outcome (result_digest op outcome encoded) path (dm_authority d)) as [g s] eqn:Es.
  apply (settle_through_live env _ _ _ _ _ _ _ Hlive) in Es as [[-> Hs]|[[m ->] _]].
  2: { intros [= <- <-]. do 3 (split; [done|]). right. split; [done|]. by eexists. }
  destruct result as [v|[code message]]; injection Eo as <- <-.
  - intros [= <- <-]. do 3 (split; [done|]). left. by exists v, encoded.
  - intros [= <- <-]. do 3 (split; [done|]). right. eauto.
Qed.

(** A mutation that answered success: its repository call succeeded, between
    states that the authorization and the settlement left alone, and the answer is
    settled. *)
Lemma permitted_committed req op token body d d' v :
  local body → permitted env req op token body d = (d', Some (Ok v)) →
  ∃ d2 d3 s encoded, dm_session d2 = dm_session d ∧ dm_world d2 = dm_world d ∧ body d2 = (d3, Some (Ok v)) ∧
    dm_session d' = dm_session d3 ∧ dm_world d' = dm_world d3 ∧ names_request req op s ∧ to_vec v = Ok encoded ∧
    settled_now env (dm_authority d') s Committed (result_digest op Committed encoded) Kernel.
Proof.
  intros Hb [(d1 & permit & Ha & Hk)|[(e & _ & [=])|[_ [=]]]]%d_try_inv.
  apply unfrozen_call_inv in Ha as [(_ & _ & e & [=])|(_ & g & [p|] & Hg & -> & [= ->])].
  apply d_try_inv in Hk as [(d2 & pending & Hc & Hk)|[(e & _ & [=])|[_ [=]]]].
  apply gateway_call_inv in Hc as (g2 & [q|] & Hc & -> & [= ->]).
  apply d_bind_inv in Hk as [(d3 & result & He & Hf)|[_ [=]]].
  apply gate_kernel, gate_live in Hg as [Hl Hn]. apply (consume_live _ _ _ _ _ _ _ _ Hl) in Hc as [Es Hl2].
  change (set_authority g2 (set_authority g d)) with (set_authority g2 d) in He.
  assert (body (add_executed (pm_subject q) (set_authority g2 d)) = (d3, Some result)) as Hbody by exact He.
  pose proof (Hb (add_executed (pm_subject q) (set_authority g2 d))) as Hu. rewrite Hbody in Hu. simpl in Hu.
  apply finish_spec in Hf as (_ & Hs & Hw & [(v' & encoded & [= <-] & -> & Hv & _ & Hset)|(_ & m & [=])]);
    [|rewrite (ut_authority _ _ Hu); by rewrite Es].
  rewrite Es in Hset. by exists (add_executed (pm_subject q) (set_authority g2 d)), d3, (mp_subject p), encoded.
Qed.

(** The ways a request ends. *)
Inductive accounted (req : Request) (d d' : Daemon) : option MethodResult → Prop :=
  (** Nothing was executed: the session serves what it did. *)
  | ac_nothing r :
      kept d d' → dm_mutation_frozen d' = dm_mutation_frozen d → dm_executed d' = dm_executed d →
      accounted req d d' r
  (** One mutation was executed, and its success is durable and acknowledged. *)
  | ac_committed op path s where_ v encoded :
      dm_mutation_frozen d = false → names_request req op s →
      dm_executed d' = dm_executed d ++ [(where_, s)] → dm_mutation_frozen d' = false →
      to_vec v = Ok encoded →
      settled_now env (dm_authority d') s Committed (result_digest op Committed encoded) path →
      accounted req d d' (Some (Ok v))
  (** One mutation was executed, and its outcome is unknown: frozen. *)
  | ac_unknown op s where_ m :
      dm_mutation_frozen d = false → names_request req op s →
      dm_executed d' = dm_executed d ++ [(where_, s)] → dm_mutation_frozen d' = true →
      accounted req d d' (Some (Err (outcome_unknown m)))
  (** The process died in the one mutation it was executing. *)
  | ac_died op s where_ :
      dm_mutation_frozen d = false → names_request req op s →
      dm_executed d' = dm_executed d ++ [(where_, s)] → accounted req d d' None
  (** A durable cleanup was answered again, without executing anything. *)
  | ac_replayed settled v encoded :
      dm_mutation_frozen d' = dm_mutation_frozen d → dm_executed d' = dm_executed d → dm_session d' = None →
      names_request req CleanupWorkspace (mr_subject settled) → durable (dm_authority d') settled →
      mr_outcome settled = Committed → to_vec v = Ok encoded →
      mr_result_digest settled = result_digest CleanupWorkspace Committed encoded →
      accounted req d d' (Some (Ok v))
  (** A durable cleanup of unknown outcome was found: frozen. *)
  | ac_replay_unknown settled m :
      kept d d' → dm_executed d' = dm_executed d → dm_mutation_frozen d' = true →
      durable (dm_authority d') settled → mr_outcome settled = Unknown →
      accounted req d d' (Some (Err (outcome_unknown m))).

Lemma kept_authority g d d1 : kept d d1 → kept d (set_authority g d1).
Proof. done. Qed.

Lemma mutated_accounted req op path d d1 d' r :
  admitted d d1 → dm_mutation_frozen d1 = false → mutated env req op path d1 d' r → accounted req d d' r.
Proof.
  intros [Hk _ Hfr Hex] Hf1 Hm. rewrite Hf1 in Hfr. symmetry in Hfr.
  destruct Hm as [g e Hg|g1 permit g2 e Hg Hc|g1 permit g2 pending d' Hg Hc Hu|g1 permit g2 pending d3 res d' r Hg Hc Hu Hfin].
  - apply ac_nothing; [done|simpl; congruence|done].
  - apply ac_nothing; [done|simpl; congruence|done].
  - apply gate_live in Hg as [Hl Hn]. apply (consume_live _ _ _ _ _ _ _ _ Hl) in Hc as [Es _].
    eapply (ac_died _ _ _ op (mp_subject permit)); [done|done|]. rewrite (ut_executed _ _ Hu). simpl. by rewrite Hex, Es.
  - apply gate_live in Hg as [Hl Hn]. apply (consume_live _ _ _ _ _ _ _ _ Hl) in Hc as [Es Hl2].
    apply finish_spec in Hfin as (He & _ & _ & Hr); [|by rewrite (ut_authority _ _ Hu), Es].
    rewrite (ut_executed _ _ Hu) in He. simpl in He. rewrite Hex, Es in He. rewrite Es in Hr.
    destruct Hr as [(v & encoded & -> & _ & Hv & Hfz & Hs)|(Hfz & m & ->)].
    + eapply (ac_committed _ _ _ op path (mp_subject permit)); try done.
      rewrite Hfz, (ut_frozen _ _ Hu). done.
    + by eapply (ac_unknown _ _ _ op (mp_subject permit)).
Qed.

Lemma replayed_accounted req d d1 d' r :
  admitted d d1 → replayed env req d1 d' r → accounted req d d' r.
Proof.
  intros [Hk _ Hfr Hex] (receipt & g & settled & dir & digest & Ha & Hr).
  apply receipt_authorization_exact in Ha as (fp & Hfp & Hs & Hd). unfold replay_cleanup in Hr.
  destruct (mr_outcome settled) eqn:Eo.
  - unfold d_try, d_bind, of_result, d_ret in Hr. destruct (to_vec _) as [encoded|e] eqn:Ee; simpl in Hr.
    2: { injection Hr as <- <-. by apply ac_nothing. }
    destruct (String.eqb_spec (result_digest CleanupWorkspace Committed encoded) (mr_result_digest settled)) as [Ed|].
    + injection Hr as <- <-. eapply (ac_replayed _ _ _ settled); try done. rewrite Hs. split; [done|]. by exists fp.
    + injection Hr as <- <-. by apply ac_nothing.
  - injection Hr as <- <-. by apply ac_nothing.
  - injection Hr as <- <-. by eapply (ac_replay_unknown _ _ _ settled).
Qed.

(** C4: every mutation is accounted for.  Whatever a request is and whatever the
    Kernel, the clock, the ledger and the workspace answer, it executes at most
    one mutation, only in an unfrozen daemon and only one that was authorized for
    this operation on exactly this request; it answers success only when the
    committed result is durable under the digest of the answer (and acknowledged
    by the Kernel where its permit authorized it); every other end of an executed
    mutation answers MUTATION_OUTCOME_UNKNOWN and freezes the daemon, or is the
    death of the process.  A request that executes nothing leaves the session
    serving what it served, or is the replay of a durable cleanup. *)
Theorem daemon_mutations_accounted req d d' r :
  dispatch env req d = (d', r) → accounted req d d' r.
Proof.
  intros (d1 & Hd1 & [->|[Hf [(op & path & Hm)|Hr]]])%dispatch_handles.
  - destruct Hd1. by apply ac_nothing.
  - by eapply mutated_accounted.
  - by eapply replayed_accounted.
Qed.
End Accounting.

(** ** The loop *)

Section Loop.
Context `{Blake3, HexCrate, LedgerCodec, !JsonEncode, !FinalAuthorityCheck, !AgentRepository, !WorkspaceService,
  !StrDebug, !CapabilityText, !TokenDecoder, !Unicode,
  !Jcs CandidateManifest, !Jcs CandidateContentManifest,
  !FromValue CloneParams, !FromValue ApplyParams, !FromValue ApplyProposalParams, !FromValue PrepareParams,
  !FromValue BindProofParams, !FromValue VerifyProofParams, !FromValue PreserveParams,
  !FromValue CleanupParams, !ToValue Checkpoint, !ToValue Candidate, !ToValue ProofRoot,
  !ToValue ActiveGenerationBinding, !RequestLine, !JsonText}.
Variable env : nat → replies.

(** The frames of a byte stream: its lines, up to the first that is refused. *)
Fixpoint wire_frames (fuel : nat) (s : bytes) : list string * option FrameReadError :=
  match fuel with
  | O => ([], None)
  | S fuel =>
      match frame_spec [] s with
      | Ok None => ([], None)
      | Ok (Some line) => let '(lines, e) := wire_frames fuel (after_line s) in (line :: lines, e)
      | Err e => ([], Some e)
      end
  end.

(** The answers to [wire_frames], from the [n]-th on: one for each line that is not
    blank, in order, and one for a refused frame; a panic, or an answer that cannot be
    written or flushed, is the last thing that happens. *)
Fixpoint answers (out : nat → delivery) (n : nat) (lines : list string) (refused : option FrameReadError)
    (d : Daemon) : Daemon * list (string * delivery) :=
  match lines with
  | [] => (d, match refused with
              | Some e => [(json_text (err_value VNull (frame_reason_code e) (frame_display e)), out n)]
              | None => []
              end)
  | line :: lines =>
      if blank line then answers out n lines refused d
      else match handle_line env line d with
           | (d, None) => (d, [])
           | (d, Some response) =>
               if decide (out n = Delivered)
               then let '(d, rs) := answers out (S n) lines refused d in (d, (response, out n) :: rs)
               else (d, [(response, out n)])
           end
  end.

(** The answers that are due. *)
Definition due (lines : list string) (refused : option FrameReadError) : nat :=
  length (filter (λ line, blank line = false) lines) + match refused with Some _ => 1 | None => 0 end.

(** How a run that ends in [d'] with the answers [rs] has dealt with [lines]: every
    answer met the fate of its turn, all but the last were delivered, and none of those
    due is missing unless the last could not be delivered or a request panicked. *)
Record dealt (out : nat → delivery) (n : nat) (lines : list string) (refused : option FrameReadError)
    (d' : Daemon) (rs : list (string * delivery)) : Prop := {
  dl_fate i x : rs !! i = Some x → snd x = out (n + i)%nat;
  dl_delivered i x : rs !! i = Some x → (S i < length rs)%nat → snd x = Delivered;
  dl_complete : length rs = due lines refused ∨ (∃ x, last rs = Some x ∧ snd x ≠ Delivered) ∨
    ∃ line d1, line ∈ lines ∧ handle_line env line d1 = (d', None)
}.

Lemma dealt_skip out n line lines refused d' rs :
  blank line = true → dealt out n lines refused d' rs → dealt out n (line :: lines) refused d' rs.
Proof.
  intros Hb [Hf Hd Hc]. constructor; [done..|]. unfold due. rewrite filter_cons_False by congruence.
  destruct Hc as [?|[?|(l & d1 & Hin & Hp)]]; [by left|by right; left|right; right].
  exists l, d1. split; [by right|done].
Qed.

Lemma dealt_cons out n line lines refused d' response rs :
  blank line = false → out n = Delivered → dealt out (S n) lines refused d' rs →
  dealt out n (line :: lines) refused d' ((response, out n) :: rs).
Proof.
  intros Hb Ho [Hf Hd Hc]. constructor.
  - intros [|i] x; simpl; [intros [= <-]; by rewrite Nat.add_0_r|].
    intros Hx. rewrite <- Nat.add_succ_comm. by apply Hf.
  - intros [|i] x; simpl; [by intros [= <-]|]. intros Hx Hi. apply (Hd i); [done|lia].
  - unfold due. rewrite filter_cons_True by done. simpl.
    destruct Hc as [Hc|[(x & Hx & Hne)|(l & d1 & Hin & Hp)]].
    + left. by rewrite Hc.
    + right. left. exists x. split; [|done]. rewrite last_cons. by rewrite Hx.
    + right. right. exists l, d1. split; [by right|done].
Qed.

Lemma answers_dealt out lines refused n d d' rs :
  answers out n lines refused d = (d', rs) → dealt out n lines refused d' rs.
Proof.
  revert n d d' rs. induction lines as [|line lines IH]; intros n d d' rs; simpl.
  - intros [= <- <-]. destruct refused as [e|]; constructor; try done.
    + intros [|i] x; simpl; [intros [= <-]; by rewrite Nat.add_0_r|done].
    + intros i x _ Hi. simpl in Hi. lia.
    + by left.
    + by left.
  - destruct (blank line) eqn:Hb; [intros Ha; apply dealt_skip; [done|by eapply IH]|].
    destruct (handle_line env line d) as [d1 [response|]] eqn:Eh.
    + case_decide as Ho.
      * destruct (answers out (S n) lines refused d1) as [d2 rs2] eqn:E. intros [= <- <-].
        apply dealt_cons; [done..|by eapply IH].
      * intros [= <- <-]. constructor.
        -- intros [|i] x; simpl; [intros [= <-]; by rewrite Nat.add_0_r|done].
        -- intros i x _ Hi. simpl in Hi. lia.
        -- right. left. by eexists.
    + intros [= <- <-]. constructor; [done..|]. right. right. exists line, d. split; [by left|done].
Qed.

(** A line a client may send, and what it puts on the wire. *)
Definition sendable (line : string) : Prop :=
  split_newline (as_bytes line) = None ∧ valid_utf8 (as_bytes line) = true ∧ slen line <= MAX_FRAME_BYTES.
Definition wire (lines : list string) : bytes := flat_map (λ line, as_bytes line ++ [newline]) lines.

Lemma after_line_shorter s : s ≠ [] → (length (after_line s) < length s)%nat.
Proof.
  intros Hs. unfold after_line. destruct (split_newline s) as [[p q]|] eqn:E.
  - apply split_newline_Some in E as [-> _]. rewrite length_app. simpl. lia.
  - destruct s; [done|simpl; lia].
Qed.

Lemma frame_spec_sendable line s : sendable line → frame_spec [] (as_bytes line ++ newline :: s) = Ok (Some line).
Proof.
  intros (Hn & Hu & Hl). unfold frame_spec. rewrite split_newline_line by done. simpl.
  rewrite <- blen_as_bytes in Hl. apply N.ltb_ge in Hl as ->. unfold finish, from_utf8. rewrite Hu.
  unfold as_bytes. by rewrite String.string_of_list_byte_of_string.
Qed.

Lemma frames_wire lines fuel :
  Forall sendable lines → (length (wire lines) < fuel)%nat → wire_frames fuel (wire lines) = (lines, None).
Proof.
  revert fuel. induction lines as [|line lines IH]; intros fuel Hs Hf; (destruct fuel as [|fuel]; [lia|]); [done|].
  apply Forall_cons in Hs as [Hline Hs].
  assert (wire (line :: lines) = as_bytes line ++ newline :: wire lines) as E.
  { unfold wire. simpl. by rewrite <- app_assoc. }
  rewrite E in *. cbn [wire_frames]. rewrite frame_spec_sendable by done. unfold after_line.
  rewrite split_newline_line by apply Hline. rewrite length_app in Hf. simpl in Hf. rewrite IH by (done || lia). done.
Qed.

Lemma serve_frames out fuel n r s d :
  reads r s → (length s < fuel)%nat →
  serve env out fuel n r d = Some (let '(lines, e) := wire_frames fuel s in answers out n lines e d).
Proof.
  revert n r s d. induction fuel as [|fuel IH]; intros n r s d Hr Hf; [lia|].
  apply read_frame_spec in Hr as [Hr1 Hr2]. simpl. destruct (read_frame r) as [[[line|]|e] r'] eqn:E; simpl in Hr1, Hr2;
    rewrite <- Hr1; [|done..].
  assert (length (after_line s) < length s)%nat as Hlt.
  { apply after_line_shorter. intros ->. vm_compute in Hr1. done. }
  specialize (Hr2 line eq_refl). assert (length (after_line s) < fuel)%nat as Hf' by lia.
  destruct (wire_frames fuel (after_line s)) as [lines e] eqn:Ef. simpl.
  destruct (blank line).
  - rewrite (IH n r' (after_line s)) by done. by rewrite Ef.
  - destruct (handle_line env line d) as [d1 [response|]]; [|done]. case_decide; [|done].
    rewrite (IH (S n) r' (after_line s)) by done. rewrite Ef. by destruct (answers out (S n) lines e d1).
Qed.

(** C34: the daemon answers.  However the bytes of its input arrive, the loop writes,
    for every line that is not blank and in order, the one answer [handle_line] gives
    in the state the earlier lines left, and one for the first frame that is too long
    or not UTF-8, where it stops; what clients send as lines are the lines it serves.
    It ends before that only after an answer that could not be written or flushed, or
    when a request panics: all other answers due are there, every answer but the last
    was delivered, and none is written twice. *)
Theorem serve_answers_every_line out r s d fuel :
  reads r s → (length s < fuel)%nat →
  serve env out fuel 0 r d = Some (let '(lines, e) := wire_frames fuel s in answers out 0 lines e d) ∧
  (∀ lines, Forall sendable lines → s = wire lines → serve env out fuel 0 r d = Some (answers out 0 lines None d)) ∧
  ∀ d' rs, serve env out fuel 0 r d = Some (d', rs) →
    let '(lines, e) := wire_frames fuel s in dealt out 0 lines e d' rs.
Proof.
  intros Hr Hf. assert (∀ lines, Forall sendable lines → s = wire lines → wire_frames fuel s = (lines, None)) as Hw.
  { intros lines Hs ->. by apply frames_wire. }
  rewrite (serve_frames out fuel 0 r s d Hr Hf). split; [done|]. split; [intros lines Hs ->; by rewrite (Hw lines)|].
  intros d' rs [= Hrs]. destruct (wire_frames fuel s) as [lines e]. by eapply answers_dealt.
Qed.

(** The bytes and the chunks of an input. *)
Definition input_size (r : list chunk) : nat :=
  sum_list_with (λ c, match c with Data b => S (length b) | IoError _ => 1%nat end) r.

Lemma read_loop_progress acc r line r' :
  read_loop acc r = (Ok (Some line), r') →
  (input_size r' < input_size r + (if decide (acc = []) then 0 else 1))%nat.
Proof.
  revert acc. induction r as [|c r IH]; intros acc.
  - simpl. destruct acc; [done|]. intros [= _ <-]. destruct (decide _); simpl; [done|lia].
  - destruct c as [av|e]; [|done]. destruct av as [|x av].
    + simpl. destruct acc; [done|]. intros [= _ <-]. destruct (decide _); simpl; [done|lia].
    + rewrite read_loop_data by done. destruct (checked_add _ _) as [n|]; [|done].
      destruct (MAX_FRAME_BYTES <? n); [done|]. destruct (split_newline (x :: av)) as [[p rest]|] eqn:E.
      * apply split_newline_Some in E as [E _]. assert (length (x :: av) = length p + S (length rest))%nat as Hlen.
        { by rewrite E, length_app. }
        intros [= _ <-]. unfold input_size. destruct rest; simpl in *; lia.
      * intros Hk. apply IH in Hk. unfold input_size in *. simpl. destruct (decide (acc ++ x :: av = [])); lia.
Qed.

(** The loop ends.  On every input, read errors, empty reads, refused frames, panics
    and failed writes included, the loop of [main] runs at most once per byte and read
    of the input. *)
Theorem serve_terminates out r d : ∃ d' responses, serve env out (S (input_size r)) 0 r d = Some (d', responses).
Proof.
  assert (∀ fuel n r d, (input_size r < fuel)%nat → is_Some (serve env out fuel n r d)) as Hs.
  { clear r d. induction fuel as [|fuel IH]; intros n r d Hf; [lia|]. simpl.
    destruct (read_frame r) as [[[line|]|e] r'] eqn:E; [|by eauto..].
    apply read_loop_progress in E. simpl in E. assert (input_size r' < fuel)%nat as Hf' by lia.
    destruct (blank line); [by apply IH|]. destruct (handle_line env line d) as [d1 [response|]]; [|by eauto].
    case_decide; [|by eauto]. destruct (IH (S n) r' d1 Hf') as [[d2 rs] ->]. by eauto. }
  destruct (Hs _ 0%nat r d (Nat.lt_succ_diag_r _)) as [[d' rs] ->]. eauto.
Qed.
End Loop.
