(* ===== verification/Served.v ===== *)
(** The daemon over the durable workspace: the operations of [Repository]
    implement the interface [AgentRepository] of [Daemon] and satisfy its laws,
    and what a committed answer of the composed daemon means.

    The world of the interface is the site of the workspace and the number of
    calls made so far; call [n] runs under the replies [envs n]. *)

From S2P Require Import Prelude Digests Ids Proposal Candidate ProofRoots Lineage Journal Protocol Disk Cas Generation Capability Scope Apply SafeGit Repository Publication Preparation Writer StrictJson Ledger Gateway Daemon.

Section Instance_.
Context `{Blake3, HexLaws, StrDebug, !GenerationCodec, !GenerationCodecLaws, !BatchCodec, !BatchCodecLaws,
  !CapabilityText, !GitBinary, !GitLaws, !Unicode, !CharCase, !TokenDecoder, !ScopeText,
  !Jcs CandidateManifest, !Jcs CandidateContentManifest}.
Variable envs : nat → repo_env.

Definition view_of (r : RealRepository) : WorkspaceView := {|
  wv_repo_dir := repo_dir r;
  wv_runtime_dir := pc_runtime_dir (rr_workspace r);
  wv_manifest := pc_manifest (rr_workspace r);
  wv_checkpoint := active_checkpoint r;
  wv_binding := generation_binding (store_of r) |}.

(** A method of the handle: it runs to its end, and a panic has no result. *)
Definition method {A} (m : repo_env → script site fault A) : action RealRepository (site * nat) A := λ r '(s, n),
  let '(trace, res) := m (envs n) (with_self r s) in
  let s' := left_in (with_self r s) trace in
  (st_self s', (s', S n),
   match res with
   | Ok a => Some (Ok a)
   | Err (Refused e) => Some (Err e)
   | Err (Panicked _) => None
   end).

Definition real_agent : AgentRepository := {|
  world := site * nat;
  repo := RealRepository;
  ar_view := view_of;
  ar_read_tree auth := method (λ env, refusing (read_tree env auth));
  ar_apply_change auth patches := method (λ env, apply_change env auth patches);
  ar_apply_proposal auth p := method (λ env, apply_proposal env auth p);
  ar_validate_proposal auth p := method (λ env, refusing (validate_proposal_op env auth p));
  ar_checkpoint auth := method (λ env, refusing (checkpoint_op env auth));
  ar_validate_candidate_preparation auth p := method (λ env, refusing (validate_candidate_preparation env auth p));
  ar_prepare_candidate auth change p := method (λ env, refusing (prepare_candidate env auth change p)) |}.

(** ** The laws *)

Lemma same_handle_trans r1 r2 r3 : same_handle r1 r2 → same_handle r2 r3 → same_handle r1 r3.
Proof. intros (c & n & -> & _) (c' & n' & -> & Hc'). by exists c', n'. Qed.

Lemma quiet_trans s1 s2 s3 : quiet s1 s2 → quiet s2 s3 → quiet s1 s3.
Proof.
  intros [? ? ?] [? ? ?]. constructor;
    [by eapply stays_trans|by eapply cas_grows_trans|by eapply same_handle_trans].
Qed.

Definition site_of (r : RealRepository) (w : site * nat) : site := with_self r (fst w).

(** What a call that only looks leaves of a served workspace. *)
Definition still_served (r : RealRepository) (w : site * nat) (r' : RealRepository) (w' : site * nat) : Prop :=
  repo_inv (site_of r w) → quiet (site_of r w) (site_of r' w').

Lemma still_served_trans r1 w1 r2 w2 r3 w3 :
  still_served r1 w1 r2 w2 → still_served r2 w2 r3 w3 → still_served r1 w1 r3 w3.
Proof.
  intros Hfirst Hnext Hinv. specialize (Hfirst Hinv). eapply quiet_trans; [exact Hfirst|].
  apply Hnext. by eapply quiet_inv.
Qed.

Lemma method_looks {A} (m : repo_env → script site CapabilityError A) (P : site → A → site → Prop) :
  (∀ s0 env, repo_inv s0 → keeps_to (quiet s0) (m env) (P s0)) →
  ∀ r w r' w' res, method (λ env, refusing (m env)) r w = (r', w', res) → still_served r w r' w'.
Proof.
  intros Hm r [s n] r' w' res Hc Hinv. unfold method in Hc. unfold site_of in Hinv. simpl in Hinv.
  destruct (run_map_err (with_self r s) Refused (m (envs n)) (quiet (with_self r s))
    (λ _ s', quiet (with_self r s) s')) as [_ Hq].
  { eapply run_weaken; [done| |apply (Hm _ _ Hinv), quiet_refl, Hinv]. by intros ? ? [? _]. }
  unfold refusing in Hc. destruct (script_map_err Refused (m (envs n)) (with_self r s)) as [trace out]. simpl in Hq.
  injection Hc as <- <- _. unfold site_of. simpl. by destruct (left_in (with_self r s) trace).
Qed.

Lemma read_tree_spec s0 env auth : repo_inv s0 → keeps_to (quiet s0) (read_tree env auth) (λ _ _, True).
Proof.
  intros Hinv. apply keeps_to_self. intros s Hs. rewrite (quiet_store _ _ Hs).
  apply run_bind_lift; [done|]. intros _ _. apply run_bind_lift; [done|]. intros _ _.
  refine (keeps_to_then (quiet s0) _ _ _ (guard_spec s0 Hinv env) _ s Hs). intros _.
  apply (keeps_to_then (quiet s0)); [|intros ?; by apply keeps_to_ret].
  apply git_at_stable; [by apply quiet_stable|by repeat constructor].
Qed.

Lemma validate_proposal_spec s0 env auth p :
  repo_inv s0 → keeps_to (quiet s0) (validate_proposal_op env auth p) (λ _ _, True).
Proof.
  intros Hinv. eapply keeps_to_bind; [by apply proposal_admission_spec|]. intros a s Hs _. by apply keeps_to_ret.
Qed.

Definition real_agent_laws : @AgentRepositoryLaws real_agent.
Proof.
  refine (@Build_AgentRepositoryLaws real_agent still_served _ _ _ _ _).
  - intros r w Hinv. by apply quiet_refl.
  - apply still_served_trans.
  - intros auth. apply (method_looks (λ env, read_tree env auth) (λ _ _ _, True)).
    intros s0 env Hs0. by apply read_tree_spec.
  - intros auth p. apply (method_looks (λ env, validate_proposal_op env auth p) (λ _ _ _, True)).
    intros s0 env Hs0. by apply validate_proposal_spec.
  - intros auth p. apply (method_looks (λ env, validate_candidate_preparation env auth p)
      (λ s0 _ _, preparation_admitted s0 auth p)).
    intros s0 env Hs0. by apply validate_candidate_preparation_spec.
Defined.
End Instance_.

(** ** What a committed answer means *)

Section Composition.
Context `{Blake3, HexLaws, StrDebug, !GenerationCodec, !GenerationCodecLaws, !BatchCodec, !BatchCodecLaws,
  !CapabilityText, !GitBinary, !GitLaws, !Unicode, !CharCase, !TokenDecoder, !ScopeText,
  !Jcs CandidateManifest, !Jcs CandidateContentManifest, LedgerCodec, !LedgerCodecLaws, !JsonEncode,
  !FinalAuthorityCheck}.
Context (envs : nat → repo_env) `{svc : @WorkspaceService (real_agent envs),
  !FromValue CloneParams, !FromValue ApplyParams, !FromValue ApplyProposalParams, !FromValue PrepareParams,
  !FromValue BindProofParams, !FromValue VerifyProofParams, !FromValue PreserveParams,
  !FromValue CleanupParams, !ToValue Checkpoint, !ToValue Candidate, !ToValue ProofRoot,
  !ToValue ActiveGenerationBinding}.
Variable env : nat → replies.

Lemma method_ok {A} (m : repo_env → script site fault A) r w r' w' a :
  method envs m r w = (r', w', Some (Ok a)) →
  ∃ trace, m (envs (snd w)) (site_of r w) = (trace, Ok a) ∧ site_of r' w' = left_in (site_of r w) trace.
Proof.
  destruct w as [s n]. unfold method, site_of. simpl.
  destruct (m (envs n) (with_self r s)) as [trace [b|[e|x]]]; intros [= <- <- ->].
  exists trace. split; [done|]. simpl. by destruct (left_in (with_self r s) trace).
Qed.

(** C2: a committed proposal is published.  When the daemon over the durable
    workspace answers [apply_proposal] with success, the proposal of the request
    passed every check against a workspace that still served all that it served
    before, the new active generation is that workspace with exactly the proposal's
    operations applied and its journal extended by exactly their mutations, the
    session serves it from an intact store, and the ledger durably holds, as
    committed, a mutation that names this very request and the digest of the
    answer, which the Kernel acknowledged. *)
Theorem committed_proposal_is_published req (d d' : @Daemon _ _ _ svc) (s : @Session _ svc) v :
  dispatch env req d = (d', Some (Ok v)) → rq_method req = "apply_proposal" → dm_session d = Some s →
  repo_inv (site_of (ss_repo s) (dm_world d)) → rr_healthy (ss_repo s) = true →
  controls_fit (store_of (ss_repo s)) →
  blen (dj_ops (rr_journal (ss_repo s))) + MAX_PATCH_OPERATIONS < u64_max →
  (∀ n, races_valid (envs n)) →
  ∃ params r' sub encoded before c,
    from_value (rq_params req) = Ok params ∧
    dm_session d' = Some {| ss_repo := r'; ss_expected := ss_expected s; ss_preservation := ss_preservation s |} ∧
    quiet (site_of (ss_repo s) (dm_world d)) before ∧
    proposal_published before (apr_proposal params) c (store_of r') (site_of r' (dm_world d')) ∧
    active_checkpoint r' = c ∧ repo_inv (site_of r' (dm_world d')) ∧ rr_healthy r' = true ∧
    names_request req ApplyPatch sub ∧ to_vec v = Ok encoded ∧
    settled_now env (dm_authority d') sub Committed (result_digest ApplyPatch Committed encoded) Kernel.
Proof.
  intros Hd Hm Hs Hinv Hh Hfit Hroom Hrace. unfold dispatch, handle_repo in Hd. rewrite Hm in Hd. simpl in Hd.
  apply d_try_inv in Hd as [(d1 & token & Hv & Hd)|[(e & _ & [=])|[_ [=]]]].
  injection Hv as <- _. unfold handle_apply_proposal in Hd.
  apply d_try_inv in Hd as [(d1 & params & Hp & Hd)|[(e & _ & [=])|[_ [=]]]].
  injection Hp as <- Hp. unfold parse_params in Hp. apply map_err_Ok in Hp.
  apply d_try_inv in Hd as [(d1 & [] & Hval & Hd)|[(e & _ & [=])|[_ [=]]]].
  apply d_session_ok in Hval as (s_ & r1 & Hs_ & Hval & Hs1). rewrite Hs in Hs_. injection Hs_ as <-.
  apply (@validate_proposal_observes _ (real_agent_laws envs)) in Hval.
  apply permitted_committed in Hd as (d2 & d3 & sub & encoded & Hs2 & Hw2 & Hb & Hs3 & Hw3 & Hn & Hv & Hset).
  2: { apply proposal_local. }
  apply d_try_inv in Hb as [(d4 & c & Ha & Hb)|[(e & _ & [=])|[_ [=]]]].
  assert (d3 = d4) as ->.
  { unfold d_bind, d_get in Hb. destruct (dm_session d4); [|by injection Hb as <- _].
    unfold embed in Hb. by destruct (to_value_of _); [injection Hb as <- _|]. }
  apply d_session_ok in Ha as (s4 & r' & Hs4 & Ha & Hs5). rewrite Hs2, Hs1 in Hs4. injection Hs4 as <-.
  simpl in Ha, Hs5. rewrite Hw2 in Ha. apply method_ok in Ha as (trace & Ha & Hsite).
  specialize (Hval Hinv). pose proof (quiet_handle _ _ Hval) as (_ & _ & _ & Hj & Hh1 & _).
  pose proof (quiet_store _ _ Hval) as Hst. simpl in Hj, Hh1, Hst.
  pose proof (apply_proposal_spec (envs (snd (dm_world d1))) (envelope (rq_token req)) (apr_proposal params)
    (site_of r1 (dm_world d1))) as [_ Hq].
  - by eapply quiet_inv.
  - simpl. by rewrite Hh1.
  - apply Hrace.
  - simpl. by rewrite Hst.
  - simpl. by rewrite Hj.
  - rewrite Ha in Hq. simpl in Hq. rewrite <- Hsite in Hq. destruct Hq as (Hi & Hh' & Hc & Hpub).
    exists params, r', sub, encoded, (site_of r1 (dm_world d1)), c.
    rewrite Hs3, Hw3. by split_and!.
Qed.
End Composition.

(** ** A concrete deployment *)

(** The workspace of [Writer], a ledger codec that knows one mutation, a Kernel
    that grants and acknowledges it; the preservation backend is unsupported. *)
Module ServedReference.
Import Reference ScopeReference CandidateReference CasReference ApplyReference WriterReference.

Definition nonce : bytes := GatewayReference.nonce.
Definition expected1 : ExpectedAuthority :=
  {| ea_attempt_id := as_str attempt_id; ea_attempt_fence := 3; ea_workspace_nonce := nonce |}.
#[export] Instance wire_token : TokenDecoder := λ b,
  if bool_decide (b = as_bytes "token")
  then Ok {| wt_variant_id := as_str variant_id; wt_attempt_id := as_str attempt_id;
             wt_attempt_fence := 3; wt_workspace_nonce := nonce |}
  else Err "unknown token".

(** *** JSON *)

Definition quote (s : string) : string := String "034" (s +:+ String "034" "").

Section Json.
Context `{LedgerCodec}.

(** Compact printing, for strings without escapes. *)
Fixpoint show (v : json) : string :=
  match v with
  | VNull => "null"
  | VBool b => if b then "true" else "false"
  | VNumber (NumU64 n) => u64_to_string n
  | VNumber _ => "0"
  | VString s => quote s
  | VArray l => "[" +:+ String.concat "," (map show l) +:+ "]"
  | VObject l => "{" +:+ String.concat "," (map (λ kv, quote (fst kv) +:+ ":" +:+ show (snd kv)) l) +:+ "}"
  end.

#[export] Instance show_encode : JsonEncode := λ v, Ok (as_bytes (show v)).
#[export] Instance show_text : JsonText := show.

Definition member (k : string) (v : json) : option json :=
  match v with VObject l => snd <$> find (λ kv, String.eqb k (fst kv)) l | _ => None end.
Definition text (k : string) (v : json) : string :=
  match member k v with Some (VString s) => s | _ => "" end.

#[export] Instance clone_from : FromValue CloneParams := λ v, Ok {|
  clp_source_repo := text "source_repo" v; clp_base_sha := text "base_sha" v; clp_root := text "root" v;
  clp_created_at := text "created_at" v; clp_allowed_prefixes := [text "allowed_prefix" v];
  clp_commit_date := text "commit_date" v |}.
#[export] Instance proposal_from : FromValue ApplyProposalParams := λ v,
  if String.eqb (text "proposal" v) (as_str (pp_proposal_id proposal))
  then Ok {| apr_proposal := proposal |} else Err "unknown proposal".
Definition unsupported {T} : FromValue T := λ _, Err "unsupported".
#[export] Instance apply_from : FromValue ApplyParams := unsupported.
#[export] Instance prepare_from : FromValue PrepareParams := unsupported.
#[export] Instance bind_from : FromValue BindProofParams := unsupported.
#[export] Instance verify_from : FromValue VerifyProofParams := unsupported.
#[export] Instance preserve_from : FromValue PreserveParams := unsupported.
#[export] Instance cleanup_from : FromValue CleanupParams := unsupported.

#[export] Instance checkpoint_to : ToValue Checkpoint := λ c,
  Ok (VObject [("digest", VString (to_hex (ckp_digest c))); ("id", VString (as_str (ckp_id c)))]).
#[export] Instance candidate_to : ToValue Candidate := λ c, Ok (VString (as_str (cand_id c))).
#[export] Instance root_to : ToValue ProofRoot := λ _, Err "unsupported".
Definition binding_value (b : ActiveGenerationBinding) : json := VObject [
  ("generation", VNumber (NumU64 (agb_generation b)));
  ("manifest_digest", VString (to_hex (agb_manifest_digest b)))].
#[export] Instance binding_to : ToValue ActiveGenerationBinding := λ b, Ok (binding_value b).

(** *** Requests *)

Definition apply_request : Request := {|
  rq_id := VNumber (NumU64 1); rq_method := "apply_proposal"; rq_token := VString "token";
  rq_params := VObject [("proposal", VString (as_str (pp_proposal_id proposal)))] |}.
Definition clone_request : Request := {|
  rq_id := VNumber (NumU64 2); rq_method := "clone"; rq_token := VString "token";
  rq_params := VObject [("allowed_prefix", VString "src"); ("commit_date", VString "2024-01-01T00:00:00Z");
                        ("root", VString "/root")] |}.
Definition stranger : Request := {|
  rq_id := VNumber (NumU64 3); rq_method := "apply_proposal"; rq_token := VString "stranger";
  rq_params := rq_params apply_request |}.
#[export] Instance two_lines : RequestLine := λ line,
  if String.eqb line "apply" then Ok apply_request
  else if String.eqb line "clone" then Ok clone_request else Err "unreadable".

Definition fingerprint_of (op : MutationOperation) (req : Request) : Digest :=
  framed_digest (transport_fields op (as_bytes (show (rq_token req))) (as_bytes (show (rq_params req)))).

(** The answers of the two requests. *)
Definition self1 : RealRepository := {| rr_workspace := clone0; rr_grant := grant; rr_expected := expected1;
  rr_identity := identity; rr_journal := rr_journal (st_self site0); rr_cas := rr_cas (st_self site0);
  rr_checkpoint_count := 0; rr_healthy := true; rr_lineage := [] |}.
Definition applied1 := apply_proposal calm_repo envelope proposal (with_self self1 site0).
Definition self2 : RealRepository := st_self (left_in (with_self self1 site0) (fst applied1)).
Definition applied_answer : json := VObject [
  ("active_generation", binding_value (generation_binding (store_of self2)));
  ("applied", VNumber (NumU64 1));
  ("checkpoint", VObject [("digest", digest_value (ckp_digest (ckp_of [op1])));
                          ("id", VString (as_str (ckp_id (ckp_of [op1]))))]);
  ("proposal_id", VString (as_str (pp_proposal_id proposal)));
  ("repo_dir", VString (repo_dir self2))].
Definition cloned_answer : json := VObject [
  ("active_generation", binding_value (generation_binding store0));
  ("base_checkpoint_digest", digest_value (ckp_digest (ckp_of [])));
  ("base_checkpoint_id", VString (as_str (ckp_id (ckp_of []))));
  ("base_sha", VString (oid_str (sha head_hex)));
  ("branch", VString "bullet");
  ("repo_dir", VString (repo_dir self1));
  ("runtime_dir", VString "/run")].
End Json.

(** *** The two mutations *)

Definition subject_of (op : MutationOperation) (req : ∀ `{LedgerCodec}, Request) : MutationSubject := {|
  ms_authority_envelope_digest := LedgerReference.hex64; ms_authority_token_nonce := LedgerReference.hex64;
  ms_mutation_id := "mut_" +:+ LedgerReference.hex64; ms_reservation_id := "rsv_" +:+ LedgerReference.hex64;
  ms_operation := op; ms_request_digest := to_hex (fingerprint_of op (@req LedgerReference.codec));
  ms_repository_id := "rep_" +:+ LedgerReference.hex64; ms_workspace_id := "wsp_" +:+ LedgerReference.hex64;
  ms_workspace_generation := 1; ms_workspace_nonce := hex_encode nonce;
  ms_attempt_id := as_str attempt_id; ms_attempt_fence := 3; ms_authority_epoch := 1;
  ms_freeze_generation := 0; ms_permit_nonce := LedgerReference.hex64; ms_permit_digest := LedgerReference.hex64 |}.
Definition final_of (s : MutationSubject) (answer : ∀ `{LedgerCodec}, json) : MutationResult :=
  requested s Committed (result_digest (ms_operation s) Committed
    (as_bytes (show (@answer LedgerReference.codec)))) 100.

Record config : Type := { cf_subject : MutationSubject; cf_final : MutationResult }.
Definition applying : config := Eval vm_compute in
  let s := subject_of ApplyPatch (@apply_request) in {| cf_subject := s; cf_final := final_of s (@applied_answer) |}.
Definition cloning : config := Eval vm_compute in
  let s := subject_of CloneWorkspace (@clone_request) in {| cf_subject := s; cf_final := final_of s (@cloned_answer) |}.

Definition envs : nat → repo_env := λ _, calm_repo.

(** *** The workspace service *)

Definition open_repository (pc : PrivateClone) (g : ScopeGrant) (e : ExpectedAuthority) (i : CommitIdentity)
    (w : site * nat) : (site * nat) * result RealRepository CapabilityError :=
  let '(trace, res) := repository_new calm_repo pc g e i (fst w) in
  let s' := left_in (fst w) trace in
  ((s', S (snd w)), let? _u := res in Ok (st_self s')).

Definition no_backend : CapabilityError := CapPreservation (PvUnsupported "no backend").
#[export] Instance agent : AgentRepository := real_agent envs.
#[export] Instance agent_laws : AgentRepositoryLaws := real_agent_laws envs.
#[export] Instance site_service : WorkspaceService :=
  @Build_WorkspaceService agent PrivateClone unit unit
    (λ _ w, (w, Ok clone0)) pc_runtime_dir (λ _ w, (w, Ok tt)) open_repository
    (λ _ _ _ r w, (r, w, Some (Err no_backend))) (λ _ _ _ r w, (r, w, Some (Err no_backend)))
    (λ _, zero_digest) (λ _ _ r w, (r, w, Some (Err no_backend))).
#[export] Instance site_seal : SealLaws.
Proof. intros s auth token r w r' w' res [= <- <- _]. apply observes_refl. Qed.

Section Concrete.
Context (c : config).

#[local] Instance codec : LedgerCodec := LedgerReference.codec_of (cf_subject c) (cf_final c).
#[local] Instance codec_laws : LedgerCodecLaws := LedgerReference.codec_of_laws (cf_subject c) (cf_final c).
#[local] Instance granting : FinalAuthorityCheck := {|
  checker := unit;
  checker_check _ input := (tt, Ok {| vd_subject := cf_subject c; vd_operation := fci_operation input;
    vd_transport_fingerprint := fci_transport_fingerprint input; vd_expires_at_unix_ms := 500 |});
  checker_settle _ input := (tt, Ok {|
    vs_mutation_id := ms_mutation_id (fsi_subject input);
    vs_reservation_id := ms_reservation_id (fsi_subject input);
    vs_result_digest := fsi_result_digest input;
    vs_settlement_fingerprint := fsi_settlement_fingerprint input |})
|}.

Definition env : nat → replies := λ _, {|
  rp_clock := Ok 100; rp_metadata := Ok false; rp_prepared := Ok tt; rp_open_error := λ _, None;
  rp_listing := Ok; rp_ledger := LedgerReference.calm |}.
Lemma replies_faithful n : faithful (env n).
Proof. by intros names names' [= <-]. Qed.

(** The daemon after start, and one that serves the workspace. *)
Definition fresh : Daemon := daemon_new tt ∅ (site0, 0%nat).
Definition session1 : Session := {| ss_repo := self1; ss_expected := expected1; ss_preservation := tt |}.
Definition serving : Daemon :=
  set_session (Some session1) (set_authority (fst (attach_ledger_root "/root" (dm_authority fresh))) fresh).

Definition cloned := dispatch env clone_request fresh.
Definition patched_run := dispatch env apply_request serving.
End Concrete.

(** *** The hypotheses of the theorems *)

Lemma inv1 : repo_inv (with_self self1 site0).
Proof. destruct inv0 as [Ho Hj Hc Hl Hb]. by constructor. Qed.

Lemma room1 : blen (dj_ops (rr_journal self1)) + MAX_PATCH_OPERATIONS < u64_max.
Proof. exact room0. Qed.

Section Cloning.
#[local] Instance cloning_codec : LedgerCodec := codec cloning.
#[local] Instance cloning_laws : LedgerCodecLaws := codec_laws cloning.
#[local] Instance cloning_kernel : FinalAuthorityCheck := granting cloning.

Lemma cloned_eq : dispatch env clone_request (fresh cloning) = (fst (cloned cloning), snd (cloned cloning)).
Proof. unfold cloned. apply surjective_pairing. Qed.

Lemma cloned_executed : dm_executed (fst (cloned cloning)) = [(Some GatewayReference.ledger_dir, cf_subject cloning)].
Proof. vm_compute. reflexivity. Qed.

Lemma cloned_ok : snd (cloned cloning) = Some (Ok cloned_answer).
Proof. vm_compute. reflexivity. Qed.

Lemma farm_cloned : ∃ f, daemon_farm_run daemon_farm_init [(Some GatewayReference.ledger_dir, cf_subject cloning)] f.
Proof.
  eexists. eapply (dfr_snoc _ [] _ [_]).
  - eapply (dfr_snoc _ [] _ []); [constructor|]. apply (dfs_start _ 0%nat (tt : @checker _ cloning_kernel) ((site0, 0%nat) : @world agent)).
  - eapply (dfs_request _ 0%nat env clone_request (fresh cloning)).
    + apply lookup_insert_eq.
    + apply replies_faithful.
    + exact cloned_eq.
    + rewrite cloned_executed. reflexivity.
Qed.

Definition two_clones : bytes := Eval vm_compute in wire ["clone"; "clone"].

Lemma two_clones_reads : reads [Data two_clones] two_clones.
Proof. exact (reads_reader_of two_clones). Qed.

Lemma clones_sendable : Forall sendable ["clone"; "clone"].
Proof. repeat (constructor; [by vm_compute|]). constructor. Qed.

Example mutations_executed_at_most_once_witness :
  NoDup (ids_at GatewayReference.ledger_dir [(Some GatewayReference.ledger_dir, cf_subject cloning)]) ∧
  NoDup [ms_mutation_id (cf_subject cloning)].
Proof.
  destruct farm_cloned as [f Hf].
  destruct (mutations_executed_at_most_once GatewayReference.ledger_dir _ f Hf) as [Hnd Hall].
  split; [exact Hnd|]. apply Hall. by apply Forall_singleton.
Defined.

Definition broken_after_first (n : nat) : delivery := match n with O => Delivered | _ => FlushFailed end.

Example serve_answers_every_line_witness :
  serve env (λ _, Delivered) 100 0 [Data two_clones] (fresh cloning)
    = Some (answers env (λ _, Delivered) 0 ["clone"; "clone"] None (fresh cloning)) ∧
  ∃ d' rs, serve env broken_after_first 100 0 [Data two_clones] (fresh cloning) = Some (d', rs) ∧
    dealt env broken_after_first 0 ["clone"; "clone"] None d' rs.
Proof.
  assert (length two_clones < 100)%nat as Hf by (apply Nat.ltb_lt; vm_compute; reflexivity). split.
  - apply (proj1 (proj2 (serve_answers_every_line env (λ _, Delivered) [Data two_clones] two_clones (fresh cloning) 100
      two_clones_reads Hf)) ["clone"; "clone"] clones_sendable). reflexivity.
  - destruct (serve_answers_every_line env broken_after_first [Data two_clones] two_clones (fresh cloning) 100
      two_clones_reads Hf) as (_ & Hs & Hd). specialize (Hs ["clone"; "clone"] clones_sendable eq_refl).
    destruct (answers env broken_after_first 0 ["clone"; "clone"] None (fresh cloning)) as [d' rs].
    exists d', rs. split; [exact Hs|]. exact (Hd d' rs Hs).
Defined.
End Cloning.

Section Applying.
#[local] Instance applying_codec : LedgerCodec := codec applying.
#[local] Instance applying_laws : LedgerCodecLaws := codec_laws applying.
#[local] Instance applying_kernel : FinalAuthorityCheck := granting applying.

Lemma patched_eq : dispatch env apply_request (serving applying) = (fst (patched_run applying), snd (patched_run applying)).
Proof. unfold patched_run. apply surjective_pairing. Qed.

Lemma patched_ok : snd (patched_run applying) = Some (Ok applied_answer).
Proof. vm_compute. reflexivity. Qed.

Example frozen_daemon_is_inert_witness :
  dm_executed (handle_all env [apply_request; clone_request] (set_frozen (serving applying))) = [].
Proof.
  exact (ad_executed _ _ (proj1 (frozen_daemon_is_inert env [apply_request; clone_request]
    (set_frozen (serving applying)) eq_refl))).
Defined.

Lemma stranger_refused : ¬ admits stranger (serving applying).
Proof.
  intros (token & Ht & _). vm_compute in Ht. discriminate.
Qed.

Example session_gate_witness :
  ∃ r, dispatch env stranger (serving applying) = (serving applying, Some r).
Proof.
  destruct (session_gate env stranger (serving applying) stranger_refused) as (r & Hd & _). exists r. exact Hd.
Defined.

Example daemon_mutations_accounted_witness :
  accounted env apply_request (serving applying) (fst (patched_run applying))
    (Some (Ok applied_answer)).
Proof.
  pose proof (daemon_mutations_accounted env apply_request (serving applying) _ _
    patched_eq) as Ha.
  rewrite patched_ok in Ha. exact Ha.
Defined.

Example committed_proposal_is_published_witness :
  ∃ r', dm_session (fst (patched_run applying))
          = Some {| ss_repo := r' : @repo agent; ss_expected := expected1; ss_preservation := tt |} ∧
    repo_inv (site_of r' (dm_world (fst (patched_run applying)))) ∧ rr_healthy r' = true.
Proof.
  pose proof patched_eq as He. rewrite patched_ok in He.
  destruct (committed_proposal_is_published envs env apply_request _ _ session1 _ He eq_refl eq_refl
    inv1 eq_refl fits0 room1 (λ _, races0))
    as (params & r' & sub & encoded & before & c & _ & Hs & _ & _ & _ & Hi & Hh & _).
  exists r'. exact (conj Hs (conj Hi Hh)).
Defined.
End Applying.
End ServedReference.
