(* ===== verification/Fixture.v ===== *)
(** The authority of the disposable demonstration: [fixture_permit.rs],
    [authority_gateway/fixture.rs] and [bin/fixture_main.rs] of [crates/bullet-gitd],
    with what the feature [fixture-authority] adds to [daemon.rs] and
    [daemon_handlers.rs].  The checker asks nobody: it verifies one permit, bound by a
    MAC to a writer and to one directory, and that directory serves one clone.

    [fixture_checker] is an instance of [FinalAuthorityCheck], so the daemon is that of
    Daemon; the clone is its clone behind a marker file. *)

From S2P Require Import Prelude Paths Digests Ids Proposal Candidate ProofRoots Lineage Journal Protocol Disk Cas Generation Capability Scope Apply SafeGit Repository Publication Preparation Writer StrictJson Ledger Gateway Daemon Served.

(** ** The permit ([fixture_permit.rs]) *)

Definition MAC_DOMAIN : bytes := as_bytes "bullet-gitd.fixture-permit.mac.v1".
Definition FIXTURE_SCHEMA : string := "v1".

Record FixturePermitClaims : Type := {
  fpc_schema_version : string;
  fpc_attempt_id : string;
  fpc_attempt_fence : N;
  fpc_workspace_nonce_hex : string;
  fpc_destination : string
}.
Record FixturePermit : Type := { fp_claims : FixturePermitClaims; fp_mac_hex : string }.

Inductive FixturePermitError : Type := FixtureRefused (message : string).
Definition fixture_reason_code (e : FixturePermitError) : string := "AUTHORITY_REFUSED".
Definition fixture_display (e : FixturePermitError) : string :=
  match e with FixtureRefused m => "fixture permit refused: " +:+ m end.

(** [serde_json] on the claims and on a permit. *)
Class ClaimsCodec : Type := {
  encode_claims : FixturePermitClaims → result bytes string;
  decode_permit : bytes → result FixturePermit string
}.
(** The struct serializer writes every field. *)
Class ClaimsLaws `{ClaimsCodec} : Prop :=
  encode_claims_inj c c' b : encode_claims c = Ok b → encode_claims c' = Ok b → c = c'.

Definition zero_key (key : bytes) : bool := forallb (Byte.eqb x00) key.

Section Permit.
Context `{Blake3, HexCrate, ClaimsCodec}.

Definition mint_fixture_permit (key : bytes) (claims : FixturePermitClaims)
    : result FixturePermit FixturePermitError :=
  fail_if (zero_key key) (FixtureRefused "fixture MAC key must be 32 nonzero bytes") ;?
  fail_if (negb (String.eqb (fpc_schema_version claims) FIXTURE_SCHEMA))
    (FixtureRefused "schema_version must be v1") ;?
  let? body := map_err (λ err, FixtureRefused ("encode claims: " +:+ err)) (encode_claims claims) in
  Ok {| fp_claims := claims; fp_mac_hex := to_hex (framed_digest [MAC_DOMAIN; key; body]) |}.

Definition verify_fixture_permit (key : bytes) (permit : FixturePermit)
    : result FixturePermitClaims FixturePermitError :=
  let? expected := mint_fixture_permit key (fp_claims permit) in
  fail_if (negb (String.eqb (fp_mac_hex expected) (fp_mac_hex permit)))
    (FixtureRefused "fixture permit MAC does not match") ;?
  Ok (fp_claims permit).

Definition parse_fixture_key (hex_text : string) : result bytes FixturePermitError :=
  let? key := map_err (λ err, FixtureRefused ("fixture key hex: " +:+ err)) (hex_decode hex_text) in
  fail_if (negb (blen key =? 32)) (FixtureRefused "fixture MAC key must be 32 bytes") ;?
  fail_if (zero_key key) (FixtureRefused "fixture MAC key must be 32 nonzero bytes") ;?
  Ok key.
End Permit.

(** ** The root *)

(** [symlink_metadata] (a symbolic link is not a directory), [canonicalize]. *)
Record root_env : Type := {
  re_metadata : result (bool * N) string;
  re_canonicalize : string → result string string
}.

Definition require_preopened_fixture_root (env : root_env) (root : string) : result string string :=
  fail_if (negb (starts_with "/" root)) "fixture root must be an absolute pre-opened path" ;?
  let? '(is_dir, mode) := map_err (λ e, "fixture root must already exist: " +:+ e) (re_metadata env) in
  fail_if (negb is_dir) "fixture root must be an ordinary directory" ;?
  let? canonical := map_err (λ e, "fixture root is not canonical: " +:+ e) (re_canonicalize env root) in
  fail_if (negb (same_path canonical root)) "fixture root must be the canonical pre-opened path" ;?
  fail_if (negb (N.land mode 63 =? 0)) "fixture root must be mode 0700" ;?
  Ok canonical.

(** The marker file: [None] when it is absent.  What one call may meet: an error of
    [open], a write that stops, an error of [sync_all]. *)
Record marker_env : Type := {
  mk_open : option string;
  mk_write : nat * option string;
  mk_sync : option string
}.

(** The states of the marker that the call exposes, and its outcome. *)
Definition consume_fixture_generation (env : marker_env) (marker : option bytes)
    : list (option bytes) * result unit string :=
  match mk_open env, marker with
  | Some e, _ => ([], Err ("create fixture generation marker: " +:+ e))
  | None, Some _ => ([], Err "fixture workspace generation 1 is already consumed")
  | None, None =>
      match mk_write env with
      | (n, Some e) => ([Some []; Some (take n (as_bytes "1" ++ [newline]))],
                        Err ("write fixture generation marker: " +:+ e))
      | (_, None) =>
          ([Some []; Some (as_bytes "1" ++ [newline])],
           match mk_sync env with
           | Some e => Err ("sync fixture generation marker: " +:+ e)
           | None => Ok tt
           end)
      end
  end.

Definition destination_is_fixture_root (env : root_env) (requested fixture_root : string) : bool :=
  same_path requested fixture_root
  || match re_canonicalize env requested with
     | Ok path => same_path path fixture_root
     | Err _ => false
     end.

(** ** The checker ([authority_gateway/fixture.rs]) *)

(** [Value::get] then [as_str]. *)
Definition param_str `{LedgerCodec} (key : string) (params : json) : option string :=
  match params with
  | VObject map =>
      match find (λ kv, String.eqb (fst kv) key) map with Some (_, VString s) => Some s | _ => None end
  | _ => None
  end.

Definition derived `{Blake3, HexCrate} (domain : string) (fields : list bytes) : string :=
  to_hex (framed_digest (as_bytes domain :: fields)).

(** [FixtureCheck], with the readings of its clock. *)
Record FixtureCheck : Type := {
  fk_key : bytes;
  fk_permit : FixturePermit;
  fk_clock : nat → replies
}.

Section Checker.
Context `{Blake3, HexCrate, LedgerCodec, !JsonEncode, !TokenDecoder, !ClaimsCodec}.

Definition refused {A} (e : FixturePermitError) : result A GatewayError := Err (GRefused (fixture_display e)).

(** The claims of the permit, which name the writer of the token and, for a clone,
    the root. *)
Definition fixture_binds (k : FixtureCheck) (input : FinalCheckInput)
    : result (FixturePermitClaims * WireAuthorityToken) GatewayError :=
  let? claims := map_err (λ e, GRefused (fixture_display e)) (verify_fixture_permit (fk_key k) (fk_permit k)) in
  let? parsed := map_err (λ e, GRefused (authority_display e)) (token_parse (ae_token (envelope (fci_authority input)))) in
  fail_if (negb (String.eqb (wt_attempt_id parsed) (fpc_attempt_id claims))
    || negb (wt_attempt_fence parsed =? fpc_attempt_fence claims)
    || negb (String.eqb (hex_encode (wt_workspace_nonce parsed)) (fpc_workspace_nonce_hex claims)))
    (GRefused "fixture permit does not bind this authority token") ;?
  (if bool_decide (fci_operation input = CloneWorkspace) then
     let root := default "" (param_str "root" (fci_params input)) in
     fail_if (negb (String.eqb root (fpc_destination claims))) (GRefused ("FIXTURE_DESTINATION_REFUSED: " +:+ root))
   else Ok tt) ;?
  Ok (claims, parsed).

Definition fixture_subject (k : FixtureCheck) (input : FinalCheckInput) (claims : FixturePermitClaims)
    (parsed : WireAuthorityToken) : MutationSubject :=
  let token := ae_token (envelope (fci_authority input)) in
  let mutation_hex := derived "fixture.mutation"
    [as_bytes (operation_str (fci_operation input)); digest_as_bytes (fci_transport_fingerprint input)] in {|
  ms_authority_envelope_digest := derived "fixture.authority-envelope" [token];
  ms_authority_token_nonce := derived "fixture.token-nonce" [token];
  ms_mutation_id := "mut_" +:+ mutation_hex;
  ms_reservation_id := "rsv_" +:+ derived "fixture.reservation" [as_bytes mutation_hex];
  ms_operation := fci_operation input;
  ms_request_digest := to_hex (fci_transport_fingerprint input);
  ms_repository_id := "rep_" +:+ derived "fixture.repo" [as_bytes (fpc_destination claims)];
  ms_workspace_id := "wsp_" +:+ derived "fixture.workspace" [as_bytes (fpc_destination claims)];
  ms_workspace_generation := 1;
  ms_workspace_nonce := hex_encode (wt_workspace_nonce parsed);
  ms_attempt_id := wt_attempt_id parsed;
  ms_attempt_fence := wt_attempt_fence parsed;
  ms_authority_epoch := 1;
  ms_freeze_generation := 0;
  ms_permit_nonce := derived "fixture.permit-nonce" [as_bytes (fp_mac_hex (fk_permit k))];
  ms_permit_digest := derived "fixture.permit-digest" [as_bytes (fp_mac_hex (fk_permit k))] |}.

(** [FixtureCheck::check]; the permit lives half a second. *)
Definition fixture_check (k : FixtureCheck) (n : nat) (input : FinalCheckInput)
    : result VerifiedDecision GatewayError :=
  let? '(claims, parsed) := fixture_binds k input in
  let? now := clock_reading (fk_clock k n) in
  Ok {| vd_subject := fixture_subject k input claims parsed; vd_operation := fci_operation input;
        vd_transport_fingerprint := fci_transport_fingerprint input;
        vd_expires_at_unix_ms := saturating_add now 500 |}.

(** [FixtureCheck::settle] *)
Definition fixture_settle (input : FinalSettlementInput) : VerifiedSettlement := {|
  vs_mutation_id := ms_mutation_id (fsi_subject input);
  vs_reservation_id := ms_reservation_id (fsi_subject input);
  vs_result_digest := fsi_result_digest input;
  vs_settlement_fingerprint := fsi_settlement_fingerprint input |}.

(** Its state counts the readings of the clock. *)
Definition fixture_checker (k : FixtureCheck) : FinalAuthorityCheck := {|
  checker := nat;
  checker_check n input := (S n, fixture_check k n input);
  checker_settle n input := (n, Ok (fixture_settle input)) |}.

(** [AuthorityGateway::fixture]: the ledger of the root is opened at once. *)
Definition gateway_fixture (env : root_env) (r : replies) (root : string) (k : FixtureCheck)
    (disk : gmap string lfs) : result (@AuthorityGateway _ (fixture_checker k)) GatewayError :=
  let? claims := map_err (λ e, GRefused (fixture_display e)) (verify_fixture_permit (fk_key k) (fk_permit k)) in
  fail_if (negb (String.eqb (fpc_destination claims) root)
    && negb (bool_decide (res_ok (re_canonicalize env root) = Some (fpc_destination claims))))
    (GRefused "fixture permit destination does not match the pre-opened root") ;?
  let path := Ledger.join root ".bullet-mutation-ledger" in
  let fs := dir disk path in
  let? ledger := map_err GLedger
    (ledger_open path (rp_prepared r) fs (rp_open_error r) (rp_listing r (elements (dom fs)))) in
  Ok (with_ledger {| gw_checker := 0%nat : @checker _ (fixture_checker k); gw_ledger := None; gw_ledger_root := None;
                     gw_disk := disk; gw_calls := 1 |} fs ledger).
End Checker.

(** ** The daemon *)

(** [gitd-fixture] and its root: the daemon and the marker file. *)
Record fixture_state `{FinalAuthorityCheck, WorkspaceService} : Type := {
  fx_daemon : Daemon;
  fx_marker : option bytes
}.

Section Fixture.
Context `{Blake3, HexCrate, LedgerCodec, !JsonEncode, !AgentRepository, !WorkspaceService,
  !StrDebug, !CapabilityText, !TokenDecoder, !Unicode, !Jcs CandidateManifest, !Jcs CandidateContentManifest,
  !FromValue CloneParams, !FromValue ApplyParams, !FromValue ApplyProposalParams, !FromValue PrepareParams,
  !FromValue BindProofParams, !FromValue VerifyProofParams, !FromValue PreserveParams,
  !FromValue CleanupParams, !ToValue Checkpoint, !ToValue Candidate, !ToValue ProofRoot,
  !ToValue ActiveGenerationBinding, !ClaimsCodec}.
Variable env : nat → replies.
Variable k : FixtureCheck.
#[local] Instance fixture_authority : FinalAuthorityCheck := fixture_checker k.

(** [Daemon::fixture] *)
Definition daemon_fixture (re : root_env) (fixture_root : string) (disk : gmap string lfs) (w : world)
    : result (Daemon * string) string :=
  let? fixture_root := require_preopened_fixture_root re fixture_root in
  let? authority := map_err (λ e, gateway_reason_code e +:+ ": " +:+ gateway_display e)
    (gateway_fixture re (env 0) fixture_root k disk) in
  Ok ({| dm_session := None; dm_authority := authority; dm_mutation_frozen := false; dm_world := w;
         dm_executed := [] |}, fixture_root).

(** [Daemon::handle_clone] of this build: the states of the marker, the daemon and
    the answer. *)
Definition fixture_handle_clone (re : root_env) (me : marker_env) (fixture_root : string) (req : Request)
    (marker : option bytes) (d : Daemon) : list (option bytes) * (Daemon * option MethodResult) :=
  if bool_decide (is_Some (dm_session d))
  then ([], (d, Some (Err ("ALREADY_CLONED", "this daemon already serves a workspace"))))
  else
    match (let? token := map_err auth_error (token_parse (ae_token (envelope (rq_token req)))) in
           let? params := parse_params (rq_params req) in
           Ok (token, params)) with
    | Err e => ([], (d, Some (Err e)))
    | Ok (token, params) =>
        let d := set_authority (fst (attach_ledger_root (clp_root params) (dm_authority d))) d in
        if negb (destination_is_fixture_root re (clp_root params) fixture_root)
        then ([], (d, Some (Err ("FIXTURE_DESTINATION_REFUSED", "clone root must be the pre-opened fixture root"))))
        else
          match consume_fixture_generation me marker with
          | (trace, Err error) => (trace, (d, Some (Err ("FIXTURE_GENERATION_CONSUMED", error))))
          | (trace, Ok _) => (trace, permitted env req CloneWorkspace token (clone_body token params) d)
          end
    end.

(** [Daemon::dispatch] of this build. *)
Definition fixture_dispatch (re : root_env) (me : marker_env) (fixture_root : string) (req : Request)
    (st : fixture_state) : fixture_state * option MethodResult :=
  if String.eqb (rq_method req) "clone" then
    let '(trace, (d, r)) := fixture_handle_clone re me fixture_root req (fx_marker st) (fx_daemon st) in
    ({| fx_daemon := d; fx_marker := default (fx_marker st) (last trace) |}, r)
  else
    let '(d, r) := dispatch env req (fx_daemon st) in
    ({| fx_daemon := d; fx_marker := fx_marker st |}, r).
End Fixture.

(** ** The program ([bin/fixture_main.rs]) *)

Record fixture_config : Type := { fc_root : string; fc_key_hex : string; fc_permit_file : string }.

Fixpoint fixture_args (args : list string) (root key_hex permit_file : option string)
    : result fixture_config string :=
  match args with
  | [] =>
      let? root := ok_or root "--root is required" in
      let? key_hex := ok_or key_hex "--key-hex is required" in
      let? permit_file := ok_or permit_file "--permit-file is required" in
      Ok {| fc_root := root; fc_key_hex := key_hex; fc_permit_file := permit_file |}
  | arg :: args =>
      if String.eqb arg "--root" then
        match args with
        | [] => Err "--root requires a directory"
        | value :: args => fixture_args args (Some value) key_hex permit_file
        end
      else if String.eqb arg "--key-hex" then
        match args with
        | [] => Err "--key-hex requires 64 hex"
        | value :: args => fixture_args args root (Some value) permit_file
        end
      else if String.eqb arg "--permit-file" then
        match args with
        | [] => Err "--permit-file requires a path"
        | value :: args => fixture_args args root key_hex (Some value)
        end
      else Err ("unknown argument " +:+ arg)
  end.

Definition parse_fixture_args (args : list string) : result fixture_config string :=
  fixture_args args None None None.

Definition load_permit `{ClaimsCodec} (read : string → result bytes string) (path : string)
    : result FixturePermit string :=
  let? b := map_err (λ e, "read permit file: " +:+ e) (read path) in
  map_err (λ e, "decode permit file: " +:+ e) (decode_permit b).

(** What [main] has before its daemon: the root, the key and the permit; every refusal
    exits with 2. *)
Definition fixture_start `{HexCrate, ClaimsCodec} (re : root_env) (read : string → result bytes string)
    (args : list string) : result (string * bytes * FixturePermit) string :=
  let? config := parse_fixture_args args in
  let? root := require_preopened_fixture_root re (fc_root config) in
  let? key := map_err fixture_display (parse_fixture_key (fc_key_hex config)) in
  let? permit := load_permit read (fc_permit_file config) in
  Ok (root, key, permit).

(** ** The permit's MAC *)

Lemma fail_if_then {B E} c (err : E) (r : result B E) b :
  (fail_if c err ;? r) = Ok b ↔ c = false ∧ r = Ok b.
Proof. destruct c; simpl; naive_solver. Qed.

Section PermitLemmas.
Context `{Blake3, HexCrate, HexLaws, ClaimsCodec}.

Lemma verify_fixture_permit_Ok key permit claims :
  verify_fixture_permit key permit = Ok claims ↔
  claims = fp_claims permit ∧ zero_key key = false ∧ fpc_schema_version claims = FIXTURE_SCHEMA ∧
  ∃ body, encode_claims claims = Ok body ∧ fp_mac_hex permit = to_hex (framed_digest [MAC_DOMAIN; key; body]).
Proof.
  unfold verify_fixture_permit, mint_fixture_permit. split.
  - intros (p & Hm & Hv)%res_bind_Ok. apply fail_if_then in Hv as [Hmac%negb_false_iff%String.eqb_eq [= <-]].
    apply fail_if_then in Hm as [Hk Hm].
    apply fail_if_then in Hm as [Hs%negb_false_iff%String.eqb_eq Hm].
    apply res_bind_Ok in Hm as (body & Hb & [= <-]). apply map_err_Ok in Hb. simpl in Hmac. eauto 8.
  - intros (-> & -> & -> & body & -> & ->). simpl. by rewrite String.eqb_refl.
Qed.

(** What is minted verifies, under its key, as the claims it was minted for. *)
Lemma mint_verify key claims permit :
  mint_fixture_permit key claims = Ok permit → verify_fixture_permit key permit = Ok claims.
Proof.
  intros Hm. assert (fp_claims permit = claims) as <-.
  { unfold mint_fixture_permit in Hm. apply fail_if_then in Hm as [_ Hm]. apply fail_if_then in Hm as [_ Hm].
    by apply res_bind_Ok in Hm as (body & _ & [= <-]). }
  unfold verify_fixture_permit. rewrite Hm. simpl. by rewrite String.eqb_refl.
Qed.

(** One MAC is of one key and one set of claims, or two framed preimages collide. *)
Lemma fixture_mac_binds `{!ClaimsLaws} key permit claims key' permit' claims' body body' :
  verify_fixture_permit key permit = Ok claims → verify_fixture_permit key' permit' = Ok claims' →
  fp_mac_hex permit = fp_mac_hex permit' →
  encode_claims claims = Ok body → encode_claims claims' = Ok body' →
  Forall addressable [MAC_DOMAIN; key; body] → Forall addressable [MAC_DOMAIN; key'; body'] →
  (key = key' ∧ claims = claims') ∨
  collides blake3_hash (frames [MAC_DOMAIN; key; body]) (frames [MAC_DOMAIN; key'; body']).
Proof.
  intros (_ & _ & _ & b & Hb & Hm)%verify_fixture_permit_Ok (_ & _ & _ & b' & Hb' & Hm')%verify_fixture_permit_Ok Heq
    Hbody Hbody' Ha Ha'. rewrite Hbody in Hb. rewrite Hbody' in Hb'. simplify_eq.
  rewrite Hm, Hm' in Heq. apply to_hex_inj in Heq.
  apply framed_digest_binds in Heq as [Hf|Hc]; [|by right|done..].
  apply cons_fields in Hf as [_ Hf]. apply cons_fields in Hf as [Hk Hf]. apply cons_fields in Hf as [-> _].
  left. split; [done|]. by eapply encode_claims_inj.
Qed.
End PermitLemmas.

(** ** One clone for one writer *)

Section Once.
Context `{Blake3, HexLaws, LedgerCodecLaws, !JsonEncode, !AgentRepository, !WorkspaceService,
  !AgentRepositoryLaws, !SealLaws, !StrDebug, !CapabilityText, !TokenDecoder, !Unicode,
  !Jcs CandidateManifest, !Jcs CandidateContentManifest,
  !FromValue CloneParams, !FromValue ApplyParams, !FromValue ApplyProposalParams, !FromValue PrepareParams,
  !FromValue BindProofParams, !FromValue VerifyProofParams, !FromValue PreserveParams,
  !FromValue CleanupParams, !ToValue Checkpoint, !ToValue Candidate, !ToValue ProofRoot,
  !ToValue ActiveGenerationBinding, !ClaimsCodec}.

(** What a mutation of the fixture daemon was permitted by. *)
Definition fixture_named (k : FixtureCheck) (req : Request) (op : MutationOperation) (s : MutationSubject) : Prop :=
  ∃ claims parsed, verify_fixture_permit (fk_key k) (fk_permit k) = Ok claims ∧
    token_parse (ae_token (envelope (rq_token req))) = Ok parsed ∧
    wt_attempt_id parsed = fpc_attempt_id claims ∧ wt_attempt_fence parsed = fpc_attempt_fence claims ∧
    hex_encode (wt_workspace_nonce parsed) = fpc_workspace_nonce_hex claims ∧
    (op = CloneWorkspace → default "" (param_str "root" (rq_params req)) = fpc_destination claims) ∧
    ms_operation s = op ∧ ms_attempt_id s = fpc_attempt_id claims ∧ ms_attempt_fence s = fpc_attempt_fence claims ∧
    ms_workspace_nonce s = fpc_workspace_nonce_hex claims.

Lemma fixture_binds_Ok k input claims parsed :
  fixture_binds k input = Ok (claims, parsed) →
  verify_fixture_permit (fk_key k) (fk_permit k) = Ok claims ∧
  token_parse (ae_token (envelope (fci_authority input))) = Ok parsed ∧
  wt_attempt_id parsed = fpc_attempt_id claims ∧ wt_attempt_fence parsed = fpc_attempt_fence claims ∧
  hex_encode (wt_workspace_nonce parsed) = fpc_workspace_nonce_hex claims ∧
  (fci_operation input = CloneWorkspace → default "" (param_str "root" (fci_params input)) = fpc_destination claims).
Proof.
  unfold fixture_binds. intros (c & Hc%map_err_Ok & Hb)%res_bind_Ok.
  apply res_bind_Ok in Hb as (t & Ht%map_err_Ok & Hb). apply fail_if_then in Hb as [Hw Hb].
  rewrite !orb_false_iff, !negb_false_iff, !String.eqb_eq, N.eqb_eq in Hw. destruct Hw as [[Ha Hf] Hn].
  apply res_bind_Ok in Hb as (u & Hd & [= <- <-]). split_and!; try done. intros Hop.
  rewrite bool_decide_eq_true_2 in Hd by done. cbv zeta in Hd.
  by apply fail_if_Ok, negb_false_iff, String.eqb_eq in Hd.
Qed.

Section Daemon.
Variable env : nat → replies.
Variable k : FixtureCheck.
#[local] Instance fixed_authority : FinalAuthorityCheck := fixture_checker k.

Lemma gate_named req op g g' permit :
  gate env req op Kernel g g' (Ok permit) → fixture_named k req op (mp_subject permit).
Proof.
  intros Hg. inversion Hg as [attempt fence nonce ? ? ? Ha| |]; subst.
  apply authorize_inv in Ha as [(e & [=] & _)|(fp & c & c' & d & now & g1 & _ & Hc & _ & _ & _ & _ & Hw)].
  destruct (window_refusal _ _); [by destruct Hw as (e & [=] & _)|]. destruct Hw as [-> [= ->]].
  simpl in Hc. injection Hc as _ Hc. unfold fixture_check in Hc.
  apply res_bind_Ok in Hc as ([claims parsed] & Hb & Hc). apply res_bind_Ok in Hc as (t & _ & [= <-]).
  apply fixture_binds_Ok in Hb as (Hv & Ht & Ha & Hf & Hn & Hr). exists claims, parsed. by split_and!.
Qed.

Lemma permitted_mutated req op token body d d' r :
  local body → permitted env req op token body d = (d', r) → d' = d ∨ mutated env req op Kernel d d' r.
Proof.
  intros Hb [(d1 & permit & Hm & Hp)|[(e & Hm & ->)|[Hm _]]]%d_try_inv;
    apply unfrozen_call_inv in Hm as [(Hf & -> & e' & He)|(Hf & g & a & Ha & -> & He)]; try done; try by left.
  - destruct a as [p|]; [|done]. injection He as ->. right.
    eapply consumed_run; [exact Hb|by eapply gate_kernel|exact Hp].
  - destruct a as [|e2]; [done|]. injection He as ->. right. by eapply mu_refused, gate_kernel.
Qed.

(** A permitted mutation executes at most once, and what the permit names. *)
Lemma permitted_executes req op token body d d' r :
  local body → permitted env req op token body d = (d', r) →
  dm_executed d' = dm_executed d ∨
  ∃ place s, dm_executed d' = dm_executed d ++ [(place, s)] ∧ fixture_named k req op s.
Proof.
  intros Hb [->|Hm]%permitted_mutated; [by left| |done].
  destruct Hm as [g e Hg|g1 permit g2 e Hg Hc|g1 permit g2 pending d' Hg Hc Hu|g1 permit g2 pending d3 res d' r Hg Hc Hu Hfin];
    [by left|by left|..]; right; pose proof (gate_named _ _ _ _ _ Hg) as Hn; apply gate_live in Hg as [Hl _];
    apply (consume_live env _ _ _ _ _ _ _ _ Hl) in Hc as [Es Hl2].
  - eexists _, _. split; [by rewrite (ut_executed _ _ Hu)|]. by rewrite Es.
  - apply finish_spec in Hfin as (He & _); [|by rewrite (ut_authority _ _ Hu), Es].
    eexists _, _. split; [by rewrite He, (ut_executed _ _ Hu)|]. by rewrite Es.
Qed.

(** Consuming succeeds only when the marker was absent, and leaves one. *)
Lemma consume_marks me marker trace r :
  consume_fixture_generation me marker = (trace, r) →
  (∀ m, m ∈ trace → marker = None ∧ is_Some m) ∧ (r = Ok tt → marker = None ∧ is_Some (default marker (last trace))).
Proof.
  unfold consume_fixture_generation. destruct (mk_open me), marker; try (intros [= <- <-]; split; [set_solver|done]).
  destruct (mk_write me) as [n [e|]]; intros [= <- <-]; (split; [|by try destruct (mk_sync me)]);
    intros m [->|[->|[]%elem_of_nil]%elem_of_cons]%elem_of_cons; done.
Qed.

(** One clone request: it exposes a marker only where there was none, and it executes
    only after it made one. *)
Lemma fixture_clone_step re me root req marker d trace d' r :
  fixture_handle_clone env k re me root req marker d = (trace, (d', r)) →
  (∀ m, m ∈ trace → marker = None ∧ is_Some m) ∧
  (dm_executed d' = dm_executed d ∨
   marker = None ∧ is_Some (default marker (last trace)) ∧
   ∃ place s, dm_executed d' = dm_executed d ++ [(place, s)] ∧ fixture_named k req CloneWorkspace s ∧
     ∃ params, parse_params (T := CloneParams) (rq_params req) = Ok params ∧
       destination_is_fixture_root re (clp_root params) root = true).
Proof.
  unfold fixture_handle_clone. case_bool_decide; [intros [= <- <- <-]; split; [set_solver|by left]|].
  destruct (let? token := _ in _) as [[token params]|e] eqn:Hp; [|intros [= <- <- <-]; split; [set_solver|by left]].
  cbv zeta. destruct (destination_is_fixture_root _ _ _) eqn:Hd; simpl;
    [|intros [= <- <- <-]; split; [set_solver|by left]].
  destruct (consume_fixture_generation me marker) as [tr [[]|e]] eqn:Hc; apply consume_marks in Hc as [Ht Hok];
    [|intros [= <- <- <-]; split; [done|by left]].
  destruct Hok as [-> Hsome]; [done|]. intros [= <- Hrun]. split; [done|].
  apply permitted_executes in Hrun as [He|(place & s & He & Hn)]; [by left| |apply clone_local].
  right. split; [done|]. split; [done|]. exists place, s. split; [exact He|]. split; [done|].
  exists params. split; [|done]. apply res_bind_Ok in Hp as (t & _ & Hp). by apply res_bind_Ok in Hp as (p & Hp & [= _ <-]).
Qed.
End Daemon.

(** The life of a fixture root: daemons with any permit, in any state, serve clone
    requests one after another; one may die before the clone is made, leaving any
    marker that the call exposed.  The list holds the clones that were executed. *)
Record fixture_clone : Type := { xc_check : FixtureCheck; xc_request : Request; xc_subject : MutationSubject;
                                 xc_root_env : root_env }.

Inductive fixture_life (root : string) : option bytes → list fixture_clone → Prop :=
  | fl_start : fixture_life root None []
  | fl_clone env k re me req marker clones d trace d' r placed :
      fixture_life root marker clones →
      fixture_handle_clone env k re me root req marker d = (trace, (d', r)) →
      dm_executed d' = dm_executed d ++ placed →
      fixture_life root (default marker (last trace))
        (clones ++ map (λ p, {| xc_check := k; xc_request := req; xc_subject := snd p; xc_root_env := re |}) placed)
  | fl_crash env k re me req marker clones d trace out marker' :
      fixture_life root marker clones →
      fixture_handle_clone env k re me root req marker d = (trace, out) → marker' ∈ trace →
      fixture_life root marker' clones.

Definition fixture_lawful (root : string) (c : fixture_clone) : Prop :=
  fixture_named (xc_check c) (xc_request c) CloneWorkspace (xc_subject c) ∧
  ∃ params, parse_params (T := CloneParams) (rq_params (xc_request c)) = Ok params ∧
    destination_is_fixture_root (xc_root_env c) (clp_root params) root = true.

(** C32: a fixture root serves one clone, for the writer of its permit.  Over any
    number of fixture daemons started on one root, with any permits and in any state,
    through refusals, failed writes of the marker and crashes, at most one clone is
    executed; it was permitted under a MAC that verifies with the daemon's key, for
    the attempt, the fence and the workspace nonce of the signed claims, and for
    the root itself. *)
Theorem fixture_root_serves_once root marker clones :
  fixture_life root marker clones →
  (length clones <= 1)%nat ∧ (marker = None → clones = []) ∧ Forall (fixture_lawful root) clones.
Proof.
  induction 1 as [|env k re me req marker clones d trace d' r placed _ (IHl & IHm & IHf) Hc Hex
    |env k re me req marker clones d trace [d' r] marker' _ (IHl & IHm & IHf) Hc Hin];
    [by split; [simpl; lia|split; [|apply Forall_nil_2]]|..]; apply fixture_clone_step in Hc as [Ht Hs].
  - destruct Hs as [He|(-> & Hsome & place & s & He & Hn & Hp)]; rewrite He in Hex.
    + rewrite <- (app_nil_r (dm_executed d)) in Hex at 1. apply app_inv_head in Hex as <-. simpl.
      rewrite app_nil_r. split; [done|]. split; [|done]. destruct (last trace) as [m|] eqn:El; [|done].
      simpl. intros ->. apply last_Some_elem_of, Ht in El as [_ [? [=]]].
    + apply app_inv_head in Hex as <-. rewrite IHm by done. simpl. split; [lia|]. split.
      * by destruct Hsome as [? ->].
      * apply Forall_singleton. split; done.
  - destruct (Ht _ Hin) as [-> [b ->]]. by rewrite (IHm eq_refl) in *.
Qed.
End Once.

(** ** A demonstration *)

(** The deployment of [ServedReference], under a permit for its root. *)
Module FixtureReference.
Import Reference ScopeReference CandidateReference CasReference ApplyReference WriterReference ServedReference.

Definition key : bytes := repeat x07 32.
Definition claims : FixturePermitClaims := {|
  fpc_schema_version := "v1"; fpc_attempt_id := as_str attempt_id; fpc_attempt_fence := 3;
  fpc_workspace_nonce_hex := hex_encode nonce; fpc_destination := "/root" |}.

#[export] Instance claims_codec : ClaimsCodec := {|
  encode_claims c := Ok (frames [as_bytes (fpc_schema_version c); as_bytes (fpc_attempt_id c);
    as_bytes (u64_to_string (fpc_attempt_fence c)); as_bytes (fpc_workspace_nonce_hex c); as_bytes (fpc_destination c)]);
  decode_permit _ := Err "unsupported" |}.

Definition permit : FixturePermit := Eval vm_compute in
  match mint_fixture_permit key claims with Ok p => p | Err _ => {| fp_claims := claims; fp_mac_hex := "" |} end.

Definition clock : nat → replies := λ _, {|
  rp_clock := Ok 100; rp_metadata := Ok false; rp_prepared := Ok tt; rp_open_error := λ _, None;
  rp_listing := Ok; rp_ledger := LedgerReference.calm |}.
Definition check : FixtureCheck := {| fk_key := key; fk_permit := permit; fk_clock := clock |}.

Definition cloning_subject : MutationSubject := Eval vm_compute in
  match fixture_check check 0 {| fci_operation := CloneWorkspace;
    fci_authority := rq_token (@clone_request LedgerReference.codec);
    fci_params := rq_params (@clone_request LedgerReference.codec);
    fci_transport_fingerprint := fingerprint_of CloneWorkspace (@clone_request LedgerReference.codec) |} with
  | Ok d => vd_subject d
  | Err _ => cf_subject cloning
  end.
Definition demonstration : config := Eval vm_compute in
  {| cf_subject := cloning_subject; cf_final := final_of cloning_subject (@cloned_answer) |}.

#[local] Instance fixture_codec : LedgerCodec := codec demonstration.
#[local] Instance fixture_codec_laws : LedgerCodecLaws := codec_laws demonstration.
#[local] Instance demonstrated : FinalAuthorityCheck := fixture_checker check.

Definition opened_root : root_env := {| re_metadata := Ok (true, 448); re_canonicalize := Ok |}.
Definition calm_marker : marker_env := {| mk_open := None; mk_write := (0%nat, None); mk_sync := None |}.

Definition fresh_fixture : Daemon := match daemon_fixture clock check opened_root "/root" ∅ (site0, 0%nat) with
  | Ok (d, _) => d
  | Err _ => daemon_new 0%nat ∅ (site0, 0%nat)
  end.
Definition first_clone := fixture_handle_clone clock check opened_root calm_marker "/root" clone_request None fresh_fixture.

Lemma first_clone_ok : snd (snd first_clone) = Some (Ok cloned_answer).
Proof. vm_compute. reflexivity. Qed.
Lemma first_clone_executed : dm_executed (fst (snd first_clone)) =
  dm_executed fresh_fixture ++ [(Some GatewayReference.ledger_dir, cloning_subject)].
Proof. vm_compute. reflexivity. Qed.
Lemma first_clone_marked : default None (last (fst first_clone)) = Some (as_bytes "1" ++ [newline]).
Proof. vm_compute. reflexivity. Qed.

(** The next daemon on this root is refused. *)
Example second_clone_refused :
  snd (snd (fixture_handle_clone clock check opened_root calm_marker "/root" clone_request
    (default None (last (fst first_clone))) fresh_fixture))
  = Some (Err ("FIXTURE_GENERATION_CONSUMED", "fixture workspace generation 1 is already consumed")).
Proof. vm_compute. reflexivity. Qed.

Definition served_clone : fixture_clone := {|
  xc_check := check; xc_request := clone_request; xc_subject := cloning_subject; xc_root_env := opened_root |}.

Lemma demonstration_life : fixture_life "/root" (Some (as_bytes "1" ++ [newline])) [served_clone].
Proof.
  rewrite <- first_clone_marked. change [served_clone] with
    ([] ++ map (λ p : option string * MutationSubject, {| xc_check := check; xc_request := clone_request;
      xc_subject := snd p; xc_root_env := opened_root |}) [(Some GatewayReference.ledger_dir, cloning_subject)]).
  eapply (fl_clone _ clock check opened_root calm_marker clone_request None [] fresh_fixture (fst first_clone)
    (fst (snd first_clone)) (snd (snd first_clone))); [constructor| |].
  - change (first_clone = (fst first_clone, (fst (snd first_clone), snd (snd first_clone)))).
    by destruct first_clone as [trace [d' r]].
  - exact first_clone_executed.
Qed.

Example fixture_root_serves_once_witness :
  (length [served_clone] <= 1)%nat ∧ fixture_named check clone_request CloneWorkspace cloning_subject.
Proof.
  destruct (fixture_root_serves_once "/root" _ _ demonstration_life) as (Hl & _ & Hf).
  split; [exact Hl|]. exact (proj1 (proj1 (Forall_singleton _ _) Hf)).
Defined.
End FixtureReference.
