(* ===== verification/AuditJson.v ===== *)
(** [report_policy/strict_json.rs] of [crates/bullet-git-workspace/src/bin/bullet-ci-jankurai]:
    the strict decoder of audit reports, and the reading of a [serde_json::Value].

    [serde_json] keeps the members of an object sorted by key ([btree_insert]) and
    compares numbers by value.  Its tokenizer presents the tree [Raw] of StrictJson. *)

From S2P Require Import Prelude StrictJson.

Definition i64_max : Z := 9223372036854775807.

(** Every element of two lists, pairwise. *)
Fixpoint forallb2 {A B} (p : A → B → bool) (l : list A) (m : list B) : bool :=
  match l, m with
  | [], [] => true
  | x :: l, y :: m => p x y && forallb2 p l m
  | _, _ => false
  end.

Section AuditJson.
(** [f64]: [is_finite] and [==]. *)
Context {float : Type} (is_finite : float → bool) (float_eqb : float → float → bool).

(** ** [serde_json::Value] *)

(** [Number] holds a non-negative integer as a [u64]. *)
Definition integer (n : Number float) : option Z :=
  match n with NumI64 z => Some z | NumU64 n => Some (Z.of_N n) | NumF64 _ => None end.

Definition number_eqb (a b : Number float) : bool :=
  match a, b with
  | NumF64 f, NumF64 g => float_eqb f g
  | _, _ =>
      match integer a, integer b with
      | Some x, Some y => (x =? y)%Z
      | _, _ => false
      end
  end.

(** [==] *)
Fixpoint value_eqb (v w : Value float) : bool :=
  match v, w with
  | VNull, VNull => true
  | VBool a, VBool b => Bool.eqb a b
  | VNumber a, VNumber b => number_eqb a b
  | VString s, VString t => String.eqb s t
  | VArray l, VArray m => forallb2 value_eqb l m
  | VObject l, VObject m =>
      forallb2 (λ x y, match x, y with (k, v), (k', w) => String.eqb k k' && value_eqb v w end) l m
  | _, _ => false
  end.

Definition as_object (v : Value float) : option (list (string * Value float)) :=
  match v with VObject m => Some m | _ => None end.
Definition as_array (v : Value float) : option (list (Value float)) :=
  match v with VArray l => Some l | _ => None end.
Definition as_str (v : Value float) : option string :=
  match v with VString s => Some s | _ => None end.
Definition as_bool (v : Value float) : option bool :=
  match v with VBool b => Some b | _ => None end.
Definition as_i64 (v : Value float) : option Z :=
  match v with
  | VNumber (NumI64 z) => Some z
  | VNumber (NumU64 n) => if (Z.of_N n <=? i64_max)%Z then Some (Z.of_N n) else None
  | _ => None
  end.
Definition as_u64 (v : Value float) : option N :=
  match v with
  | VNumber (NumI64 z) => if (0 <=? z)%Z then Some (Z.to_N z) else None
  | VNumber (NumU64 n) => Some n
  | _ => None
  end.

(** [Map::get] *)
Definition map_get (k : string) (m : list (string * Value float)) : option (Value float) :=
  option_map snd (list_find (λ kv, fst kv = k) m ≫= λ '(_, kv), Some kv).

Definition get (k : string) (v : Value float) : option (Value float) := as_object v ≫= map_get k.

(** An object from its members, as [json!] builds it. *)
Definition json_object (members : list (string * Value float)) : Value float :=
  VObject (foldl (λ m '(k, v), snd (btree_insert k v m)) [] members).

(** ** The decoder *)

Definition MAX_JSON_BYTES : N := 64 * 1024 * 1024.

(** [CheckedVisitor]; the number kinds are [Number::from]. *)
Fixpoint checked (r : Raw float) : result (Value float) string :=
  match r with
  | RNull => Ok VNull
  | RBool b => Ok (VBool b)
  | RI64 z => Ok (VNumber (NumI64 z))
  | RU64 n => Ok (VNumber (NumU64 n))
  | RF64 f => if is_finite f then Ok (VNumber (NumF64 f)) else Err "NONFINITE_JSON"
  | RString s => Ok (VString s)
  | RSeq l =>
      let? values := (fix visit_seq (l : list (Raw float)) : result (list (Value float)) string :=
        match l with
        | [] => Ok []
        | x :: l => let? v := checked x in let? vs := visit_seq l in Ok (v :: vs)
        end) l in
      Ok (VArray values)
  | RMap members =>
      let? values := (fix visit_map (values : list (string * Value float)) (l : list (string * Raw float))
          : result (list (string * Value float)) string :=
        match l with
        | [] => Ok values
        | (key, x) :: l =>
            if contains_key key values then Err ("DUPLICATE_JSON_KEY:" +:+ key)
            else let? v := checked x in visit_map (snd (btree_insert key v values)) l
        end) [] members in
      Ok (VObject values)
  end.

(** [serde_json]'s tokenizer on a whole input, its final [end] included. *)
Context (tokens : bytes → result (Raw float) string).

Definition decode (b : bytes) : result (Value float) string :=
  fail_if (MAX_JSON_BYTES <? blen b) "JSON_BYTE_LIMIT" ;?
  let? r := tokens b in
  checked r.

(** ** Specification: the value with the members of every object sorted *)

Fixpoint sorted (v : Value float) : Value float :=
  match v with
  | VArray l => VArray (map sorted l)
  | VObject m =>
      VObject ((fix go (acc m : list (string * Value float)) :=
        match m with
        | [] => acc
        | (k, v) :: m => go (snd (btree_insert k (sorted v) acc)) m
        end) [] m)
  | _ => v
  end.

(** ** Lemmas *)

Definition checked_members (members : list (string * Raw float)) (values : list (string * Value float)) :=
  (fix visit_map (values : list (string * Value float)) (l : list (string * Raw float))
      : result (list (string * Value float)) string :=
    match l with
    | [] => Ok values
    | (key, x) :: l =>
        if contains_key key values then Err ("DUPLICATE_JSON_KEY:" +:+ key)
        else let? v := checked x in visit_map (snd (btree_insert key v values)) l
    end) values members.

Definition sorted_members (m acc : list (string * Value float)) : list (string * Value float) :=
  (fix go (acc m : list (string * Value float)) :=
    match m with
    | [] => acc
    | (k, v) :: m => go (snd (btree_insert k (sorted v) acc)) m
    end) acc m.

Definition sort_onto (acc : list (string * Value float)) (kv : string * Value float) :=
  snd (btree_insert (fst kv) (sorted (snd kv)) acc).

Lemma sorted_members_fold m acc : sorted_members m acc = foldl sort_onto acc m.
Proof. revert acc. induction m as [|[k v] m IH]; intros acc; simpl; [done|]. apply IH. Qed.

Lemma contains_key_keys {A B} k (l : list (string * A)) (m : list (string * B)) :
  (∀ k, k ∈ map fst l ↔ k ∈ map fst m) → contains_key k l = contains_key k m.
Proof.
  intros Hk. destruct (contains_key k l) eqn:El, (contains_key k m) eqn:Em; try done.
  - apply contains_key_false in Em. rewrite <- Hk in Em. apply contains_key_false in Em. congruence.
  - apply contains_key_false in El. rewrite Hk in El. apply contains_key_false in El. congruence.
Qed.

Lemma btree_insert_key {V} k (v : V) m k' :
  k' ∈ map fst (snd (btree_insert k v m)) ↔ k' = k ∨ k' ∈ map fst m.
Proof.
  induction m as [|[j w] m IH]; simpl; [set_solver|].
  destruct (String.compare k j) eqn:E; simpl; [|set_solver|].
  - apply Strings.String.compare_eq_iff in E as ->. set_solver.
  - destruct (btree_insert k v m) as [o m'] eqn:Eb. simpl in *. set_solver.
Qed.

Lemma checked_seq l : checked (RSeq l) = let? vs := try_map checked l in Ok (VArray vs).
Proof. simpl. f_equal. induction l as [|x l IH]; simpl; [done|]. by rewrite IH. Qed.

Definition agrees (r : Raw float) : Prop :=
  res_ok (checked r) = option_map sorted (res_ok (strict_value is_finite r)).

Lemma agrees_cases r : agrees r →
  (∃ v, strict_value is_finite r = Ok v ∧ checked r = Ok (sorted v)) ∨
  (∃ e e', strict_value is_finite r = Err e ∧ checked r = Err e').
Proof.
  unfold agrees. destruct (checked r), (strict_value is_finite r); simpl; intros [=]; subst; eauto.
Qed.

Lemma checked_seq_agrees l :
  (∀ x, x ∈ l → agrees x) →
  res_ok (try_map checked l) = option_map (map sorted) (res_ok (try_map (strict_value is_finite) l)).
Proof.
  induction l as [|x l IH]; intros Hl; [done|]. simpl.
  destruct (agrees_cases x (Hl x ltac:(by left))) as [(v & -> & ->) | (e & e' & -> & ->)]; [|done].
  simpl. specialize (IH ltac:(intros y Hy; apply Hl; by right)).
  destruct (try_map checked l), (try_map (strict_value is_finite) l); simpl in *; by simplify_eq.
Qed.

Lemma checked_members_agree (l : list (string * Raw float)) values acc :
  (∀ x, x ∈ l → agrees (snd x)) →
  (∀ k, k ∈ map fst values ↔ k ∈ map fst acc) →
  acc = foldl sort_onto [] values →
  res_ok (checked_members l acc) =
  option_map (foldl sort_onto []) (res_ok (strict_members is_finite l values)).
Proof.
  revert values acc. induction l as [|[k x] l IH]; intros values acc Hl Hk ->; [done|].
  simpl. rewrite <- (contains_key_keys k values) by done.
  destruct (contains_key k values); [done|].
  destruct (agrees_cases x (Hl (k, x) ltac:(by left))) as [(v & -> & ->) | (e & e' & -> & ->)]; [|done].
  simpl. apply (IH (values ++ [(k, v)])).
  - intros y Hy. apply Hl. by right.
  - intros k'. rewrite btree_insert_key, map_app, elem_of_app, Hk. simpl. set_solver.
  - by rewrite foldl_app.
Qed.

Lemma checked_agrees r : agrees r.
Proof.
  remember (raw_size r) as n eqn:Hn. revert r Hn.
  induction (lt_wf n) as [n _ IH]. intros r ->. destruct r as [|b|z|m|f|s|l|l]; try done.
  - unfold agrees. simpl. by destruct (is_finite f).
  - unfold agrees. rewrite checked_seq, strict_value_seq.
    pose proof (checked_seq_agrees l) as Hs.
    specialize (Hs ltac:(intros x Hx; by eapply IH; [apply raw_size_seq|])).
    destruct (try_map checked l), (try_map (strict_value is_finite) l); simpl in *; by simplify_eq.
  - unfold agrees. change (checked (RMap l)) with (let? vs := checked_members l [] in Ok (VObject vs)).
    change (strict_value is_finite (RMap l)) with
      (let? vs := strict_members is_finite l [] in Ok (VObject vs)).
    pose proof (checked_members_agree l [] []) as Hs.
    specialize (Hs ltac:(intros x Hx; by eapply IH; [apply raw_size_map|]) ltac:(done) ltac:(done)).
    destruct (checked_members l []), (strict_members is_finite l []); simpl in *; simplify_eq; [|done].
    simpl. fold (sorted_members a0 []). by rewrite sorted_members_fold.
Qed.

(** The report decoder and the ledger's strict decoder, written apart, agree: they
    accept the same documents, and the report decoder's value is the ledger's with
    the members of every object, at any depth, sorted by key. *)
Theorem strict_decoders_agree r :
  res_ok (checked r) = option_map sorted (res_ok (strict_value is_finite r)).
Proof. apply checked_agrees. Qed.

(** ** Values that a text can hold *)

(** What the tokenizer presents for the text of a value. *)
Fixpoint to_raw (v : Value float) : Raw float :=
  match v with
  | VNull => RNull
  | VBool b => RBool b
  | VNumber (NumI64 z) => RI64 z
  | VNumber (NumU64 n) => RU64 n
  | VNumber (NumF64 f) => RF64 f
  | VString s => RString s
  | VArray l => RSeq (map to_raw l)
  | VObject m => RMap (map (λ kv, (fst kv, to_raw (snd kv))) m)
  end.

(** No floats, non-negative integers unsigned, members sorted, and arrays and objects
    nested at most [d] deep. *)
Fixpoint canonical (d : nat) (v : Value float) {struct v} : Prop :=
  match v with
  | VNumber (NumI64 z) => (z < 0)%Z
  | VNumber (NumF64 _) => False
  | VArray l => match d with O => False | S d => foldr (λ v P, canonical d v ∧ P) True l end
  | VObject m =>
      match d with
      | O => False
      | S d => keys_sorted m ∧ foldr (λ kv P, canonical d (snd kv) ∧ P) True m
      end
  | _ => True
  end.

Lemma btree_insert_last {V} k (v : V) m :
  Forall (λ x, String.compare (fst x) k = Lt) m → snd (btree_insert k v m) = m ++ [(k, v)].
Proof.
  induction m as [|[j w] m IH]; simpl; [done|]. intros [Hj Hm]%Forall_cons. simpl in Hj.
  rewrite String.compare_antisym, Hj. simpl. specialize (IH Hm).
  destruct (btree_insert k v m) as [o m']. simpl in *. by rewrite IH.
Qed.

Lemma checked_member k x l acc :
  Forall (λ y, String.compare (fst y) k = Lt) acc →
  checked_members ((k, x) :: l) acc = let? v := checked x in checked_members l (acc ++ [(k, v)]).
Proof.
  intros Hk. simpl. replace (contains_key k acc) with false.
  - destruct (checked x) as [v|e]; simpl; [|done]. by rewrite btree_insert_last.
  - symmetry. apply contains_key_false. intros ([j v] & -> & Hin)%list_elem_of_fmap.
    rewrite Forall_forall in Hk. apply Hk in Hin. simpl in Hin.
    by rewrite string_compare_gt_irrefl in Hin.
Qed.

Lemma keys_sorted_before {V} (acc m : list (string * V)) k v :
  keys_sorted (acc ++ (k, v) :: m) →
  Forall (λ x, String.compare (fst x) k = Lt) acc ∧ keys_sorted ((acc ++ [(k, v)]) ++ m).
Proof.
  intros Hs. split; [|by rewrite <- app_assoc]. apply Forall_forall. intros x Hx.
  refine (StronglySorted_app_1_elem_of _ _ _ x (k, v) Hs Hx _). by left.
Qed.

(** What is written from a canonical value is read back as that value. *)
Lemma checked_to_raw d v : canonical d v → checked (to_raw v) = Ok v.
Proof.
  revert d v. fix IH 2. intros d [|b|[z|n|f]|s|l|m]; try done.
  - destruct d as [|d]; [done|]. intros Hc. change (to_raw (VArray l)) with (RSeq (map to_raw l)). rewrite checked_seq.
    assert (try_map checked (map to_raw l) = Ok l) as Hl; [|by rewrite Hl].
    simpl in Hc. induction l as [|v l IHl]; simpl; [done|]. destruct Hc as [Hv Hl].
    rewrite (IH d) by done. simpl. by rewrite IHl.
  - destruct d as [|d]; [done|]. intros [Hs Hc]. change (to_raw (VObject m)) with (RMap (map (λ kv, (fst kv, to_raw (snd kv))) m)).
    change (checked (RMap ?l)) with (let? vs := checked_members l [] in Ok (VObject vs)).
    assert (∀ acc, keys_sorted (acc ++ m) →
      checked_members (map (λ kv, (fst kv, to_raw (snd kv))) m) acc = Ok (acc ++ m)) as Hm;
      [|by rewrite (Hm [])]. clear Hs.
    induction m as [|[k v] m IHm]; intros acc Hs; [by rewrite app_nil_r|].
    destruct Hc as [Hv Hc]. apply keys_sorted_before in Hs as [Hk Hs]. simpl map.
    rewrite checked_member by done. rewrite (IH d) by done. simpl. rewrite IHm by done.
    by rewrite <- app_assoc.
Qed.

Lemma canonical_object d members :
  Forall (λ kv, canonical d (snd kv)) members → canonical (S d) (json_object members).
Proof.
  unfold json_object. intros Hm. simpl. split.
  - assert (∀ acc, keys_sorted acc →
      keys_sorted (foldl (λ m '(k, v), snd (btree_insert k v m)) acc members)) as Hs; [|apply Hs; constructor].
    clear Hm. induction members as [|[k v] l IH]; intros acc Hs; [done|]. simpl. apply IH.
    by apply btree_insert_sorted.
  - assert (∀ acc : list (string * Value float), foldr (λ kv P, canonical d (snd kv) ∧ P) True acc →
      foldr (λ kv P, canonical d (snd kv) ∧ P) True
        (foldl (λ m '(k, v), snd (btree_insert k v m)) acc members)) as Hs; [|by apply Hs].
    induction Hm as [|[k v] l Hv Hl IH]; intros acc Hacc; [done|]. simpl. apply IH. clear IH.
    induction acc as [|[j w] acc IH]; [done|]. simpl in *. destruct Hacc as [Hw Hacc].
    destruct (String.compare k j); simpl; [done|done|].
    specialize (IH Hacc). destruct (btree_insert k v acc). done.
Qed.

Lemma canonical_array d (l : list (Value float)) :
  Forall (canonical d) l → canonical (S d) (VArray l).
Proof. induction 1; simpl; [done|]. by split. Qed.

(** ** Reading *)

(** The value an object built from [members] has for a key: the last given. *)
Definition last_given (k : string) (members : list (string * Value float)) : option (Value float) :=
  foldl (λ o '(k', v), if String.eqb k k' then Some v else o) None members.

Lemma list_find_cons {A} (P : A → Prop) `{∀ x, Decision (P x)} x l :
  list_find P (x :: l) = if decide (P x) then Some (O, x) else prod_map S id <$> list_find P l.
Proof. done. Qed.

Lemma map_get_cons k k' v m : map_get k ((k', v) :: m) = if String.eqb k k' then Some v else map_get k m.
Proof.
  unfold map_get. rewrite list_find_cons. simpl. case_decide as E.
  - subst. by rewrite String.eqb_refl.
  - assert (String.eqb k k' = false) as -> by (apply String.eqb_neq; congruence).
    by destruct (list_find _ m) as [[i [j w]]|].
Qed.

Lemma map_get_insert k k' v m :
  map_get k (snd (btree_insert k' v m)) = if String.eqb k k' then Some v else map_get k m.
Proof.
  induction m as [|[j w] m IH]; simpl; [by rewrite map_get_cons|].
  destruct (String.compare k' j) eqn:E; simpl; [|by rewrite map_get_cons|].
  - apply String.compare_eq_iff in E as ->. rewrite !map_get_cons. by destruct (String.eqb k j).
  - destruct (btree_insert k' v m) as [o m']. simpl in *. rewrite !map_get_cons, IH.
    destruct (String.eqb k j) eqn:Ej; [|done]. apply String.eqb_eq in Ej as ->.
    destruct (String.eqb j k') eqn:Ek; [|done]. apply String.eqb_eq in Ek as ->.
    by rewrite string_compare_gt_irrefl in E.
Qed.

Lemma get_json_object k members : get k (json_object members) = last_given k members.
Proof.
  unfold get, json_object, last_given. simpl.
  change None with (map_get k []). generalize (@nil (string * Value float)) as acc.
  induction members as [|[k' v] l IH]; intros acc; simpl; [done|].
  rewrite IH. f_equal. by rewrite map_get_insert.
Qed.

Lemma map_get_Some k m v : map_get k m = Some v → (k, v) ∈ m.
Proof.
  unfold map_get. destruct (list_find _ m) as [[i [k' w]]|] eqn:E; simpl; [|done].
  intros [= ->]. apply list_find_Some in E as (Hi & Hk & _). simpl in Hk. subst.
  by eapply list_elem_of_lookup_2.
Qed.

Lemma value_eqb_str v s : value_eqb v (VString s) = true ↔ v = VString s.
Proof.
  destruct v; simpl; split; try done.
  - by intros ->%String.eqb_eq.
  - intros [= ->]. apply String.eqb_refl.
Qed.

Lemma value_eqb_str_l s v : value_eqb (VString s) v = true ↔ v = VString s.
Proof.
  destruct v; simpl; split; try done.
  - by intros ->%String.eqb_eq.
  - intros [= ->]. apply String.eqb_refl.
Qed.

Lemma value_eqb_strings (l : list string) v :
  value_eqb v (VArray (map VString l)) = true ↔ v = VArray (map VString l).
Proof.
  destruct v as [| | | |m|]; simpl; try (by split). split.
  - intros Hf. f_equal. revert l Hf. induction m as [|x m IH]; intros [|s l]; simpl; try done.
    intros [Hx Hm]%andb_true_iff. apply value_eqb_str in Hx as ->. f_equal. by apply IH.
  - intros [= ->]. induction l as [|s l IH]; simpl; [done|]. by rewrite String.eqb_refl.
Qed.

(** [==] is transitive on [f64]. *)
Context (float_trans : ∀ x y z, float_eqb x y = true → float_eqb y z = true → float_eqb x z = true).

Lemma number_eqb_trans a b c :
  number_eqb a b = true → number_eqb b c = true → number_eqb a c = true.
Proof using float_trans.
  destruct a, b, c; simpl; try done; try apply float_trans; intros; try lia.
Qed.

Lemma value_eqb_trans a b c : value_eqb a b = true → value_eqb b c = true → value_eqb a c = true.
Proof using float_trans.
  revert a b c. fix IH 1.
  intros a b c. destruct a as [|p|p|p|l|l], b as [|q|q|q|m|m]; try done;
    destruct c as [|r|r|r|n|n]; try done; simpl.
  - intros ->%Bool.eqb_prop ->%Bool.eqb_prop. apply Bool.eqb_reflx.
  - apply number_eqb_trans.
  - intros ->%String.eqb_eq ->%String.eqb_eq. apply String.eqb_refl.
  - revert l m n. fix IHl 1. intros [|x l] [|y m]; try done; intros [|z n]; try done; simpl.
    intros [Hx Hl]%andb_true_iff [Hy Hm]%andb_true_iff. apply andb_true_iff. split.
    + by apply (IH _ y).
    + by apply (IHl _ m).
  - revert l m n. fix IHl 1. intros [|[k x] l] [|[k' y] m]; try done;
      intros [|[k'' z] n]; try done; simpl.
    intros [[->%String.eqb_eq Hx]%andb_true_iff Hl]%andb_true_iff
      [[->%String.eqb_eq Hy]%andb_true_iff Hm]%andb_true_iff.
    rewrite String.eqb_refl. apply andb_true_iff. split; [by apply (IH _ y)|by apply (IHl _ m)].
Qed.

Definition contains (l : list (Value float)) (v : Value float) : bool := existsb (λ w, value_eqb w v) l.

Lemma contains_trans (a b c : list (Value float)) :
  (∀ v, v ∈ b → contains a v = true) → (∀ v, v ∈ c → contains b v = true) →
  ∀ v, v ∈ c → contains a v = true.
Proof using float_trans.
  intros Hab Hbc v Hv. apply Hbc, existsb_exists in Hv as (w & Hw%list_elem_of_In & Hvw).
  apply Hab, existsb_exists in Hw as (u & Hu & Huw). apply existsb_exists. exists u.
  split; [done|]. by apply (value_eqb_trans _ w).
Qed.
End AuditJson.
