(* ===== verification/AuditPolicy.v ===== *)
(** [report_policy/mod.rs] of [crates/bullet-git-workspace/src/bin/bullet-ci-jankurai]:
    what an audit report must show to pass the committed policy, alone or against an
    accepted baseline.

    The TOML parser, SHA-256 (with its [hex] text) and the equality of floats are not
    under src/: [PolicyCrates]. *)

From S2P Require Import Prelude StrictJson AuditJson Protocol.

(** [toml::Value], as far as it is read. *)
Inductive Toml : Type :=
  | TInteger (z : Z)
  | TString (s : string)
  | TArray (l : list Toml)
  | TTable (members : list (string * Toml))
  | TOther.

Class PolicyCrates (float : Type) : Type := {
  f_is_finite : float → bool;
  f_eqb : float → float → bool;
  f_eqb_trans x y z : f_eqb x y = true → f_eqb y z = true → f_eqb x z = true;
  toml_from_str : string → result Toml string;
  json_tokens : bytes → result (Raw float) string;
  utf8_error : bytes → string;
  (** [hex::encode(Sha256::digest(bytes))] *)
  sha256_hex : bytes → string
}.

Definition toml_get (key : string) (v : Toml) : option Toml :=
  match v with
  | TTable m => option_map snd (list_find (λ kv, fst kv = key) m ≫= λ '(_, kv), Some kv)
  | _ => None
  end.
Definition toml_integer (v : Toml) : option Z := match v with TInteger z => Some z | _ => None end.
Definition toml_array (v : Toml) : option (list Toml) := match v with TArray l => Some l | _ => None end.
Definition toml_str (v : Toml) : option string := match v with TString s => Some s | _ => None end.

(** [require] *)
Definition require (condition : bool) (reason : string) : result unit string :=
  if condition then Ok tt else Err reason.

Lemma audit_require_Ok c e u : require c e = Ok u ↔ c = true.
Proof. destruct c, u; simpl; split; done. Qed.

Definition option_eqb {A} (eqb : A → A → bool) (x y : option A) : bool :=
  match x, y with Some a, Some b => eqb a b | None, None => true | _, _ => false end.

Lemma option_eqb_Some {A} (eqb : A → A → bool) x a :
  (∀ a b, eqb a b = true ↔ a = b) → option_eqb eqb x (Some a) = true ↔ x = Some a.
Proof. intros He. destruct x as [b|]; simpl; [rewrite He|]; split; congruence. Qed.

Section Policy.
Context `{PolicyCrates float}.
Abbreviation Json := (Value float).

Definition report_decode (b : bytes) : result Json string := decode f_is_finite json_tokens b.
Definition json_eqb (v w : Json) : bool := value_eqb f_eqb v w.

Definition field (v : Json) (key : string) : result Json string :=
  ok_or (get key v) ("REPORT_FIELD_MISSING:" +:+ key).
Definition array (v : Json) (key : string) : result (list Json) string :=
  let? f := field v key in
  ok_or (as_array f) ("REPORT_ARRAY_REQUIRED:" +:+ key).

(** ** [Policy::parse] *)

Record Policy : Type := {
  po_minimum : Z;
  po_fail_on : list string;
  po_advisory_on : list string;
  po_fingerprint : string
}.

Definition policy_strings (value : Toml) (key : string) : result (list string) string :=
  let? l := ok_or (toml_get key value ≫= toml_array) ("SOURCE_POLICY_ARRAY_REQUIRED:" +:+ key) in
  try_map (λ v, ok_or (toml_str v) ("SOURCE_POLICY_STRING_REQUIRED:" +:+ key)) l.

Definition filtered {A} (p : A → bool) (o : option A) : option A :=
  o ≫= λ a, if p a then Some a else None.

Definition policy_parse (b : bytes) : result Policy string :=
  let? source := ok_or (from_utf8 b) ("SOURCE_POLICY_UTF8:" +:+ utf8_error b) in
  let? value := map_err (λ e, "SOURCE_POLICY_INVALID:" +:+ e) (toml_from_str source) in
  let? minimum := ok_or (filtered (λ m, 65 <=? m)%Z (toml_get "minimum_score" value ≫= toml_integer))
    "SOURCE_POLICY_BELOW_FLOOR" in
  let? fail_on := policy_strings value "fail_on" in
  let? advisory_on := policy_strings value "advisory_on" in
  Ok {| po_minimum := minimum; po_fail_on := fail_on; po_advisory_on := advisory_on;
        po_fingerprint := "sha256:" +:+ sha256_hex b |}.

(** ** [validate] *)

Definition is_i64 (v : Json) (z : Z) : bool := option_eqb Z.eqb (as_i64 v) (Some z).
Definition is_str (v : Json) (s : string) : bool := option_eqb String.eqb (as_str v) (Some s).
Definition is_bool (v : Json) (b : bool) : bool := option_eqb Bool.eqb (as_bool v) (Some b).

Definition push_hard (acc : list Json) (finding : Json) : result (list Json) string :=
  let? severity := field finding "severity" in
  if is_str severity "critical" || is_str severity "high" then
    let? fingerprint := field finding "fingerprint" in
    Ok (acc ++ [fingerprint])
  else Ok acc.

(** [hard_findings] *)
Definition hard_findings (report : Json) : result (list Json) string :=
  let? findings := array report "findings" in
  try_fold push_hard [] findings.

(** [&&] of tests that may fail: the later ones are not made when one is false. *)
Fixpoint all_of (tests : list (result bool string)) : result bool string :=
  match tests with
  | [] => Ok true
  | t :: tests => let? b := t in if b then all_of tests else Ok false
  end.

Definition checked_sub_i64 (x y : Z) : option Z :=
  if ((- i64_max - 1 <=? x - y) && (x - y <=? i64_max))%Z then Some (x - y)%Z else None.

Definition fingerprint_keys : list string :=
  ["report_fingerprint"; "input_fingerprint"; "policy_fingerprint"].
Definition version_keys : list string := ["policy_fingerprint"; "schema_version"; "standard_version"].

Definition ratchet_decision (decision : Json) (baseline_score delta : Z) (baseline : Json)
    : result unit string :=
  let? ratchet := field decision "ratchet" in
  let? agreed := all_of [
    let? v := field ratchet "passed" in Ok (is_bool v true);
    let? v := field ratchet "allowed_drop" in Ok (is_i64 v 0);
    let? v := field ratchet "baseline_score" in Ok (is_i64 v baseline_score);
    let? v := field ratchet "score_delta" in Ok (is_i64 v delta);
    let? l := array ratchet "new_caps" in Ok (match l with [] => true | _ => false end);
    let? l := array ratchet "new_hard_findings" in Ok (match l with [] => true | _ => false end);
    let? v := field ratchet "policy_changed" in Ok (is_bool v false)] in
  require agreed "RATCHET_DECISION_MISMATCH" ;?
  try_for (λ key,
    let? a := field ratchet ("baseline_" +:+ key) in
    let? b := field baseline key in
    require (json_eqb a b) "RATCHET_BASELINE_MISMATCH") fingerprint_keys.

(** [validate_ratchet] *)
Definition validate_ratchet (report baseline decision : Json) (score : Z) : result unit string :=
  let? base := field baseline "score" in
  let? baseline_score := ok_or (as_i64 base) "RATCHET_SCORE_DROP" in
  require (baseline_score <=? score)%Z "RATCHET_SCORE_DROP" ;?
  let? delta := ok_or (checked_sub_i64 score baseline_score) "RATCHET_DECISION_MISMATCH" in
  ratchet_decision decision baseline_score delta baseline ;?
  try_for (λ key,
    let? a := field report key in
    let? b := field baseline key in
    require (json_eqb a b) "RATCHET_POLICY_OR_VERSION_DRIFT") version_keys ;?
  let? old_caps := array baseline "caps_applied" in
  let? caps := array report "caps_applied" in
  require (forallb (contains f_eqb old_caps) caps) "RATCHET_NEW_CAP" ;?
  let? old_hard := hard_findings baseline in
  let? hard := hard_findings report in
  require (forallb (contains f_eqb old_hard) hard) "RATCHET_NEW_HARD_FINDING".

Definition policy_agrees (policy : Policy) (report observed : Json) : result unit string :=
  let? minimum := field observed "minimum_score" in
  require (is_i64 minimum (po_minimum policy)) "REPORT_POLICY_MISMATCH:minimum_score" ;?
  try_for (λ '(key, expected),
    let? v := field observed key in
    require (json_eqb v (VArray (map VString expected))) ("REPORT_POLICY_MISMATCH:" +:+ key))
    [("fail_on", po_fail_on policy); ("advisory_on", po_advisory_on policy)] ;?
  let? fingerprint := field report "policy_fingerprint" in
  require (is_str fingerprint (po_fingerprint policy)) "POLICY_FINGERPRINT_MISMATCH".

(** The decision of the report: its score. *)
Definition decision_passes (policy : Policy) (report decision : Json) : result Z string :=
  let? v := field report "score" in
  let? score := ok_or (filtered (λ s, po_minimum policy <=? s)%Z (as_i64 v)) "REPORT_DECISION_NOT_PASSING" in
  let? passed := all_of [
    let? v := field decision "passed" in Ok (is_bool v true);
    let? v := field decision "status" in Ok (is_str v "pass");
    let? v := field decision "minimum_score" in Ok (is_i64 v (po_minimum policy));
    let? v := field decision "hard_findings" in Ok (is_i64 v 0)] in
  require passed "REPORT_DECISION_NOT_PASSING" ;?
  Ok score.

Definition finding_allowed (policy : Policy) (finding : Json) : result unit string :=
  let? v := field finding "severity" in
  let? severity := ok_or (as_str v) "FINDING_SEVERITY_INVALID" in
  require (negb (existsb (λ denied, String.eqb denied severity) (po_fail_on policy)))
    "HARD_FINDING_IN_PASS".

Definition validate (report : Json) (policy_bytes : bytes) (baseline : option Json) : result unit string :=
  let? policy := policy_parse policy_bytes in
  let? observed := field report "policy" in
  policy_agrees policy report observed ;?
  let? decision := field report "decision" in
  let? score := decision_passes policy report decision in
  let? findings := array report "findings" in
  try_for (finding_allowed policy) findings ;?
  let? mode := field observed "mode" in
  require (is_str mode (match baseline with Some _ => "ratchet" | None => "standard" end))
    "REPORT_MODE_MISMATCH" ;?
  match baseline with
  | Some baseline => validate_ratchet report baseline decision score
  | None => Ok tt
  end.

(** ** What a report says *)

Definition score_of (v : Json) : option Z := get "score" v ≫= as_i64.
Definition fingerprint_of (v : Json) : option string := get "policy_fingerprint" v ≫= as_str.
Definition caps_of (v : Json) : list Json := default [] (get "caps_applied" v ≫= as_array).
Definition findings_of (v : Json) : list Json := default [] (get "findings" v ≫= as_array).
Definition severity_of (v : Json) : option string := get "severity" v ≫= as_str.

(** The fingerprints of the findings of critical or high severity. *)
Definition hard_of (v : Json) : list Json :=
  omap (λ f, if bool_decide (severity_of f = Some "critical" ∨ severity_of f = Some "high")
             then get "fingerprint" f else None) (findings_of v).

(** A report that meets the policy by itself. *)
Definition meets (policy : Policy) (report : Json) : Prop :=
  (∃ score, score_of report = Some score ∧ 65 ≤ po_minimum policy ∧ po_minimum policy ≤ score)%Z ∧
  fingerprint_of report = Some (po_fingerprint policy) ∧
  Forall (λ f, ∃ s, severity_of f = Some s ∧ s ∉ po_fail_on policy) (findings_of report).

(** A report no worse than its baseline, under the same policy. *)
Definition no_worse (baseline report : Json) : Prop :=
  (∃ s t, score_of baseline = Some s ∧ score_of report = Some t ∧ s ≤ t)%Z ∧
  (fingerprint_of report = fingerprint_of baseline) ∧
  (∀ c, c ∈ caps_of report → contains f_eqb (caps_of baseline) c = true) ∧
  (∀ c, c ∈ hard_of report → contains f_eqb (hard_of baseline) c = true).

(** Reports accepted one after the other, each against the one before it; every
    step names the policy it was checked against. *)
Fixpoint ratchet_run (baseline : Json) (steps : list (bytes * Json)) : Prop :=
  match steps with
  | [] => True
  | (policy, report) :: steps =>
      validate report policy (Some baseline) = Ok tt ∧ ratchet_run report steps
  end.

(** ** Lemmas *)

Lemma field_Ok v k w : field v k = Ok w ↔ get k v = Some w.
Proof. unfold field. apply ok_or_Ok. Qed.

Lemma array_Ok v k l : array v k = Ok l → get k v ≫= as_array = Some l.
Proof.
  unfold array. intros (w & Hw%field_Ok & Hl%ok_or_Ok)%res_bind_Ok. by rewrite Hw.
Qed.

Lemma is_i64_true v z : is_i64 v z = true ↔ as_i64 v = Some z.
Proof. apply option_eqb_Some, Z.eqb_eq. Qed.
Lemma is_str_true v s : is_str v s = true ↔ as_str v = Some s.
Proof. apply option_eqb_Some, String.eqb_eq. Qed.
Lemma is_bool_true v b : is_bool v b = true ↔ as_bool v = Some b.
Proof. apply option_eqb_Some, Bool.eqb_true_iff. Qed.

Lemma all_of_true tests : all_of tests = Ok true ↔ Forall (λ t, t = Ok true) tests.
Proof.
  induction tests as [|t tests IH]; simpl; [by split|].
  rewrite Forall_cons, <- IH, res_bind_Ok. split.
  - intros (b & -> & Hb). by destruct b.
  - intros [-> Ht]. by exists true.
Qed.

Lemma filtered_Some {A} (p : A → bool) o a : filtered p o = Some a ↔ o = Some a ∧ p a = true.
Proof.
  unfold filtered. destruct o as [b|]; simpl; [|naive_solver].
  destruct (p b) eqn:E; split; try done.
  - by intros [= ->].
  - by intros [[= ->] _].
  - intros [[= ->] ?]. congruence.
Qed.

Lemma policy_parse_floor b p : policy_parse b = Ok p →
  (65 ≤ po_minimum p)%Z ∧ po_fingerprint p = "sha256:" +:+ sha256_hex b.
Proof.
  unfold policy_parse. intros Hp. res_inv. simpl.
  match goal with Hf : filtered _ _ = Some _ |- _ => apply filtered_Some in Hf as [_ Hf%Z.leb_le] end.
  done.
Qed.

Lemma decision_passes_score p r d s :
  decision_passes p r d = Ok s → score_of r = Some s ∧ (po_minimum p ≤ s)%Z.
Proof.
  unfold decision_passes. intros Hd. res_inv.
  match goal with Hf : filtered _ _ = Some _ |- _ => apply filtered_Some in Hf as [Hi Hf%Z.leb_le] end.
  match goal with Hs : field r _ = Ok _ |- _ => apply field_Ok in Hs end.
  unfold score_of. simplify_option_eq. done.
Qed.

Lemma policy_agrees_fingerprint p r o :
  policy_agrees p r o = Ok tt → fingerprint_of r = Some (po_fingerprint p).
Proof.
  unfold policy_agrees. intros Hp.
  apply res_bind_Ok in Hp as (m & _ & Hp). apply res_bind_unit in Hp as [_ Hp].
  apply res_bind_unit in Hp as [_ Hp]. apply res_bind_Ok in Hp as (f & Hf%field_Ok & Hr).
  apply audit_require_Ok, is_str_true in Hr. unfold fingerprint_of. by rewrite Hf.
Qed.

Lemma finding_allowed_Ok p f :
  finding_allowed p f = Ok tt → ∃ s, severity_of f = Some s ∧ s ∉ po_fail_on p.
Proof.
  unfold finding_allowed. intros Hf. res_inv. apply audit_require_Ok, negb_true_iff in Hf.
  rewrite existsb_false in Hf.
  match goal with Hs : field f _ = Ok _ |- _ => apply field_Ok in Hs as Hg end.
  eexists. unfold severity_of. rewrite Hg. split; [done|]. intros Hin%Hf.
  by rewrite String.eqb_refl in Hin.
Qed.

(** The run of [validate] that accepts a report. *)
Lemma validate_inv r b base : validate r b base = Ok tt →
  ∃ p d s, policy_parse b = Ok p ∧ meets p r ∧ score_of r = Some s ∧
    match base with Some base => validate_ratchet r base d s = Ok tt | None => True end.
Proof.
  unfold validate. intros (p & Hp & Hv)%res_bind_Ok. apply res_bind_Ok in Hv as (o & Ho & Hv).
  apply res_bind_unit in Hv as [Ha Hv]. apply res_bind_Ok in Hv as (d & Hd & Hv).
  apply res_bind_Ok in Hv as (s & Hs & Hv). apply res_bind_Ok in Hv as (fs & Hfs%array_Ok & Hv).
  apply res_bind_unit in Hv as [Hall Hv]. apply res_bind_Ok in Hv as (m & Hm & Hv).
  apply res_bind_unit in Hv as [_ Hv].
  apply policy_parse_floor in Hp as Hfloor. apply decision_passes_score in Hs as [Hsc Hmin].
  exists p, d, s. split; [done|]. split; [|split; [done|]].
  - split; [exists s; naive_solver|]. split; [by eapply policy_agrees_fingerprint|].
    unfold findings_of. rewrite Hfs. simpl. apply try_for_Ok in Hall.
    eapply Forall_impl; [exact Hall|]. apply finding_allowed_Ok.
  - by destruct base.
Qed.

Lemma hard_findings_Ok v l : hard_findings v = Ok l → l = hard_of v.
Proof.
  unfold hard_findings, hard_of, findings_of. intros (fs & ->%array_Ok & Hl)%res_bind_Ok. simpl.
  change (omap _ fs) with ([] ++ omap (λ f, if bool_decide (severity_of f = Some "critical" ∨
    severity_of f = Some "high") then get "fingerprint" f else None) fs).
  revert Hl. generalize (@nil Json) as acc. induction fs as [|f fs IH]; intros acc Hl; simpl in *.
  - injection Hl as ->. by rewrite app_nil_r.
  - apply res_bind_Ok in Hl as (acc' & Hf & Hl%IH). rewrite Hl. clear IH Hl.
    apply res_bind_Ok in Hf as (w & Hw%field_Ok & Hf). assert (severity_of f = as_str w) as Hsev by (unfold severity_of; by rewrite Hw).
    rewrite Hsev.
    assert (is_str w "critical" || is_str w "high" =
      bool_decide (as_str w = Some "critical" ∨ as_str w = Some "high")) as Hb.
    { apply Bool.eq_iff_eq_true. by rewrite orb_true_iff, !is_str_true, bool_decide_eq_true. }
    rewrite Hb in Hf. destruct (bool_decide _).
    + apply res_bind_Ok in Hf as (x & Hx%field_Ok & [= <-]). rewrite Hx. by rewrite <- app_assoc.
    + by injection Hf as <-.
Qed.

Lemma ratchet_no_worse r base d s p :
  validate_ratchet r base d s = Ok tt → score_of r = Some s →
  fingerprint_of r = Some (po_fingerprint p) → no_worse base r.
Proof.
  unfold validate_ratchet. intros (b & Hb%field_Ok & Hv)%res_bind_Ok Hs Hfp.
  apply res_bind_Ok in Hv as (bs & Hbs%ok_or_Ok & Hv).
  apply res_bind_unit in Hv as [Hle%audit_require_Ok%Z.leb_le Hv].
  apply res_bind_Ok in Hv as (delta & _ & Hv). apply res_bind_unit in Hv as [_ Hv].
  apply res_bind_unit in Hv as [Hver Hv]. apply res_bind_Ok in Hv as (oc & Hoc%array_Ok & Hv).
  apply res_bind_Ok in Hv as (cs & Hcs%array_Ok & Hv).
  apply res_bind_unit in Hv as [Hcaps%audit_require_Ok Hv].
  apply res_bind_Ok in Hv as (oh & Hoh%hard_findings_Ok & Hv).
  apply res_bind_Ok in Hv as (hs & Hhs%hard_findings_Ok & Hhard%audit_require_Ok). subst.
  rewrite forallb_forall in Hcaps, Hhard. setoid_rewrite <- list_elem_of_In in Hcaps.
  setoid_rewrite <- list_elem_of_In in Hhard. split; [|split; [|split]].
  - exists bs, s. unfold score_of at 1. by rewrite Hb.
  - apply try_for_Ok, Forall_cons in Hver as [Hver _].
    apply res_bind_Ok in Hver as (x & Hx%field_Ok & Hver).
    apply res_bind_Ok in Hver as (y & Hy%field_Ok & Hver%audit_require_Ok).
    unfold fingerprint_of in *. rewrite Hx in Hfp |- *. rewrite Hy. simpl in *.
    destruct x; try done. by apply value_eqb_str_l in Hver as ->.
  - unfold caps_of. by rewrite Hoc, Hcs.
  - done.
Qed.

Lemma no_worse_trans a b c : no_worse a b → no_worse b c → no_worse a c.
Proof.
  intros ((s & t & Hs & Ht & Hst) & Hf & Hc & Hh) ((t' & u & Ht' & Hu & Htu) & Hf' & Hc' & Hh').
  simplify_eq. split; [exists s, u; split; [done|split; [done|lia]]|]. split; [congruence|].
  split; by eapply contains_trans; [apply f_eqb_trans|..].
Qed.

Lemma ratchet_step r P base : validate r P (Some base) = Ok tt →
  no_worse base r ∧ ∃ p, policy_parse P = Ok p ∧ meets p r.
Proof.
  intros (p & d & s & Hp & Hm & Hs & Hr)%validate_inv. split; [|by exists p].
  eapply ratchet_no_worse; [done..|]. apply Hm.
Qed.

(** C29: however many reports are accepted one after the other, each against its
    predecessor, every one of them meets its policy (score at least the policy's
    minimum, itself at least 65, and no finding of a denied severity), scores no
    less than the first baseline, has no cap and no critical or high finding the
    baseline had not, and all were checked against policies of one fingerprint:
    quality never decays along the chain, and the policy is never exchanged. *)
Theorem ratchet_run_never_decays base steps :
  ratchet_run base steps →
  Forall (λ '(P, r), no_worse base r ∧
    (∃ p, policy_parse P = Ok p ∧ meets p r) ∧
    fingerprint_of base = Some ("sha256:" +:+ sha256_hex P)) steps.
Proof.
  revert base. induction steps as [|[P r] steps IH]; intros base; simpl; [by constructor|].
  intros [(Hn & p & Hp & Hm)%ratchet_step Hrun]. specialize (IH r Hrun).
  assert (fingerprint_of base = Some (po_fingerprint p)) as Hfp
    by (destruct Hn as (_ & <- & _); apply Hm).
  constructor.
  - split; [done|]. split; [by exists p|]. apply policy_parse_floor in Hp as [_ <-]. done.
  - eapply Forall_impl; [exact IH|]. intros [Q r'] (Hn' & Hmeet & Hq).
    split; [by eapply no_worse_trans|]. split; [done|]. destruct Hn as (_ & Hf & _). congruence.
Qed.
End Policy.

(** A policy, an accepted baseline and two reports that ratchet it up. *)
Module AuditPolicyReference.

Definition policy_source : bytes := as_bytes "minimum_score = 70".

#[local] Instance crates : PolicyCrates Z := {|
  f_is_finite := λ _, true;
  f_eqb := Z.eqb;
  f_eqb_trans := λ x y z Hxy Hyz,
    proj2 (Z.eqb_eq x z) (eq_trans (proj1 (Z.eqb_eq x y) Hxy) (proj1 (Z.eqb_eq y z) Hyz));
  toml_from_str := λ s,
    if String.eqb s "minimum_score = 70" then
      Ok (TTable [("minimum_score", TInteger 70); ("fail_on", TArray [TString "critical"]);
                  ("advisory_on", TArray [TString "low"])])
    else Err "expected `=`";
  json_tokens := λ _, Err "EOF while parsing a value";
  utf8_error := λ _, "invalid utf-8 sequence";
  sha256_hex := λ b, u64_to_string (blen b)
|}.

Abbreviation Json := (Value Z).
Definition num (z : Z) : Json := VNumber (NumU64 (Z.to_N z)).
Definition strs (l : list string) : Json := VArray (map VString l).

Definition finding (severity fingerprint : string) : Json :=
  json_object [("severity", VString severity); ("fingerprint", VString fingerprint)].

Definition ratchet (base delta : Z) (report_fp : string) : list (string * Json) :=
  [("passed", VBool true); ("allowed_drop", num 0); ("baseline_score", num base);
   ("score_delta", num delta); ("new_caps", VArray []); ("new_hard_findings", VArray []);
   ("policy_changed", VBool false); ("baseline_report_fingerprint", VString report_fp);
   ("baseline_input_fingerprint", VString "i"); ("baseline_policy_fingerprint", VString "sha256:18")].

Definition report (score : Z) (fp mode : string) (ratchet : list (string * Json))
    (caps : list string) (findings : list Json) : Json :=
  json_object [
    ("policy", json_object [("minimum_score", num 70); ("fail_on", strs ["critical"]);
       ("advisory_on", strs ["low"]); ("mode", VString mode)]);
    ("policy_fingerprint", VString "sha256:18");
    ("decision", json_object ([("passed", VBool true); ("status", VString "pass");
       ("minimum_score", num 70); ("hard_findings", num 0)] ++ [("ratchet", json_object ratchet)]));
    ("score", num score); ("findings", VArray findings); ("caps_applied", strs caps);
    ("report_fingerprint", VString fp); ("input_fingerprint", VString "i");
    ("schema_version", VString "1"); ("standard_version", VString "2")].

Definition baseline : Json :=
  report 71 "r0" "standard" [] ["no-tests"; "no-docs"] [finding "high" "f1"; finding "low" "f2"].
Definition first : Json := report 75 "r1" "ratchet" (ratchet 71 4 "r0") ["no-docs"] [finding "high" "f1"].
Definition second : Json := report 80 "r2" "ratchet" (ratchet 75 5 "r1") [] [].

Example baseline_accepted : validate baseline policy_source None = Ok tt.
Proof. vm_compute. reflexivity. Qed.

(** A dropped score, a new cap and a new high finding are each refused. *)
Example decay_refused :
  validate (report 70 "r1" "ratchet" (ratchet 71 (-1) "r0") [] []) policy_source (Some baseline)
    = Err "RATCHET_SCORE_DROP" ∧
  validate (report 75 "r1" "ratchet" (ratchet 71 4 "r0") ["no-lint"] []) policy_source (Some baseline)
    = Err "RATCHET_NEW_CAP" ∧
  validate (report 75 "r1" "ratchet" (ratchet 71 4 "r0") [] [finding "high" "f3"]) policy_source
    (Some baseline) = Err "RATCHET_NEW_HARD_FINDING".
Proof. vm_compute. split; [|split]; reflexivity. Qed.

Lemma ratchet_run_never_decays_witness :
  Forall (λ '(P, r), no_worse baseline r ∧
    (∃ p, policy_parse P = Ok p ∧ meets p r) ∧
    fingerprint_of baseline = Some ("sha256:" +:+ sha256_hex P))
    [(policy_source, first); (policy_source, second)].
Proof.
  apply (ratchet_run_never_decays baseline). vm_compute. split; [|split]; constructor.
Defined.
End AuditPolicyReference.
