(* ===== verification/AuditInventory.v ===== *)
(** [paths.rs] (names), [observation/common.rs] and [observation/inventory.rs] of
    [crates/bullet-git-workspace/src/bin/bullet-ci-jankurai]: the files an audit run
    may leave, their bounded collection, and how they are read back.

    [run_dir] is the run's directory as it is read: what each directory lists and what
    [artifacts::read] returns for each path; the collection reads each path once. *)

From S2P Require Import Prelude Decimal StrictJson AuditJson Protocol AuditPolicy.

Definition REPORTS : list string := ["repo-score.json"; "repo-score.md"; "repair-queue.jsonl"].
Definition PRODUCER : list string :=
  ["observation.argv"; "observation.stdout"; "observation.stderr"; "observation.exit"; "observation.json"].
Definition PHASES : list string := ["before"; "ratchet"; "audit"; "final"].
Definition ARTIFACTS : list string := [
  ".ci-artifacts/observations/audit.json";
  "target/jankurai/audit-state.json";
  "target/jankurai/update/state.json";
  "target/jankurai/accepted-baseline.json";
  "target/jankurai/repo-score.json";
  "target/jankurai/repo-score.md";
  "target/jankurai/repair-queue.jsonl";
  ".jankurai/repo-score.json";
  ".jankurai/repo-score.md";
  ".jankurai/repair-queue.jsonl";
  ".jankurai/repo-score-current.json";
  ".jankurai/repo-score-current.md";
  ".jankurai/score-history.jsonl"].

(** [allowed]: every name a run may hold. *)
Definition allowed : list string :=
  ["invocation.json"; "previous-observation.json"; "audit.started"; "result.txt";
   "retention.stderr"; "staging.stderr"; "ratchet.json"; "ratchet.md"] ++ PRODUCER
  ++ (stage ← ["bootstrap"; "doctor"; "lane"; "audit"; "ratchet"];
      suffix ← ["stdout"; "stderr"; "exit"]; [stage +:+ "." +:+ suffix])
  ++ map (λ stage, stage +:+ ".argv") ["bootstrap"; "doctor"; "lane"]
  ++ map (λ stage, stage +:+ ".tool.jsonl") ["doctor"; "audit"; "ratchet"]
  ++ map (λ suffix, "doctor.tool.jsonl." +:+ suffix) ["stdout"; "stderr"]
  ++ (stage ← ["audit"; "ratchet"]; suffix ← ["argv"; "stdout"; "stderr"; "exit"];
      [stage +:+ ".validation." +:+ suffix])
  ++ (phase ← PHASES;
      (phase +:+ ".absent") :: map (λ artifact, phase +:+ "/" +:+ artifact) ARTIFACTS).

(** [paths::absolute_parts] *)
Definition absolute_parts (path : string) : result (list string) string :=
  fail_if (negb (starts_with "/" path) || (4096 <? slen path) || char_contains Ascii.zero path)
    "NONNORMAL_ABSOLUTE_PATH" ;?
  let parts := tail (split "/" path) in
  fail_if (existsb (λ part, bool_decide (part ∈ [""; "."; ".."])) parts) "NONNORMAL_ABSOLUTE_PATH" ;?
  Ok parts.

(** [decimal] *)
Definition decimal (b : bytes) : result N string :=
  let s := String.string_of_list_byte b in
  require (negb (blen b =? 0) && (blen b <=? 3) && is_digits s
    && ((blen b =? 1) || negb (starts_with "0" s))) "EXIT_RECORD_INVALID" ;?
  if digits_value 0 s <=? 255 then Ok (digits_value 0 s) else Err "EXIT_RECORD_RANGE".

(** [str::lines] *)
Definition strip_cr (s : string) : string :=
  default s (strip_suffix (String "013" EmptyString) s).
Definition lines (s : string) : list string :=
  let parts := split "010" s in
  map strip_cr (match last parts with Some EmptyString => removelast parts | _ => parts end).

(** [strip_suffix] of one byte. *)
Fixpoint strip_last (c : byte) (b : bytes) : option bytes :=
  match b with
  | [] => None
  | [x] => if Byte.eqb x c then Some [] else None
  | x :: b => option_map (cons x) (strip_last c b)
  end.

(** The arguments of a command, each ended by a zero byte. *)
Definition argv_bytes (argv : list string) : bytes :=
  concat (map (λ arg, as_bytes arg ++ [x00]) argv).

Lemma res_bind_require {B} c e (k : result B string) b :
  (require c e ;? k) = Ok b ↔ c = true ∧ k = Ok b.
Proof. destruct c; simpl; naive_solver. Qed.

Section Inventory.
Context `{PolicyCrates float}.
Abbreviation Json := (Value float).

(** [artifacts::Artifact]: what was read, and its digest, size and identity. *)
Record Artifact : Type := { ar_bytes : bytes; ar_subject : Json; ar_path : string }.

Record Inventory : Type := {
  inv_data : gmap string Artifact;
  inv_issues : list string;
  inv_omissions : list string
}.
Definition inventory_default : Inventory := {| inv_data := ∅; inv_issues := []; inv_omissions := [] |}.

Definition push_issue (issue : string) (inv : Inventory) : Inventory :=
  {| inv_data := inv_data inv; inv_issues := inv_issues inv ++ [issue];
     inv_omissions := inv_omissions inv |}.
Definition push_omission (path : string) (inv : Inventory) : Inventory :=
  {| inv_data := inv_data inv; inv_issues := inv_issues inv;
     inv_omissions := inv_omissions inv ++ [path] |}.
Definition insert_artifact (path : string) (a : Artifact) (inv : Inventory) : Inventory :=
  {| inv_data := <[path := a]> (inv_data inv); inv_issues := inv_issues inv;
     inv_omissions := inv_omissions inv |}.

(** ** [Inventory::scan] *)

Inductive entry_kind : Type := KDir | KFile | KOther.
Record dirent : Type := { de_name : bytes; de_kind : result entry_kind string }.

Record run_dir : Type := {
  (** the opened directory's entries, up to the first that cannot be read *)
  rd_list : string → result (list (result dirent string)) string;
  rd_read : string → result Artifact string
}.

(** The proper ancestors of a relative path, the empty one included. *)
Definition ancestors (path : string) : list string :=
  map (λ n, String.concat "/" (take n (split "/" path))) (seq 0 (length (split "/" path))).
Definition directories : list string := allowed ≫= ancestors.

Definition join (directory name : string) : string :=
  if String.eqb directory "" then name else directory +:+ "/" +:+ name.

Record scan_state : Type := { sc_inventory : Inventory; sc_pending : list string; sc_total : N }.

Definition with_inventory (s : scan_state) (inv : Inventory) : scan_state :=
  {| sc_inventory := inv; sc_pending := sc_pending s; sc_total := sc_total s |}.

Definition INVENTORY_BYTES : N := 256 * 1024 * 1024.

(** A file of the run: its artifact, or the reason it is left out. *)
Definition scan_file (rd : run_dir) (run relative : string) (kind : entry_kind) (s : scan_state)
    : result unit string * scan_state :=
  let inv := sc_inventory s in
  let inv := if bool_decide (relative ∈ allowed) then inv else push_issue ("EXTRA_ARTIFACT:" +:+ relative) inv in
  if bool_decide (relative ∈ PRODUCER) then
    (require (match kind with KFile => true | _ => false end) "PRODUCER_OUTPUT_NOT_REGULAR",
     with_inventory s inv)
  else
    match rd_read rd (run +:+ "/" +:+ relative) with
    | Err error => (Ok tt, with_inventory s (push_omission relative (push_issue error inv)))
    | Ok artifact =>
        let total := sc_total s + blen (ar_bytes artifact) in
        if INVENTORY_BYTES <? total then
          (Err "INVENTORY_BYTE_LIMIT",
           {| sc_inventory := push_omission relative inv; sc_pending := sc_pending s; sc_total := total |})
        else
          (require (negb (bool_decide (is_Some (inv_data inv !! relative)))) "DUPLICATE_INVENTORY_ARTIFACT",
           {| sc_inventory := insert_artifact relative artifact inv; sc_pending := sc_pending s;
              sc_total := total |})
    end.

(** One entry of a directory; a directory the run may have waits on the stack. *)
Definition scan_child (rd : run_dir) (run directory : string) (child : dirent) (s : scan_state)
    : result unit string * scan_state :=
  match from_utf8 (de_name child), de_kind child with
  | None, _ => (Err "NON_UTF8_ARTIFACT_PATH", s)
  | Some _, Err e => (Err e, s)
  | Some name, Ok KDir =>
      let relative := join directory name in
      (Ok tt,
       if bool_decide (relative ∈ directories) then
         {| sc_inventory := sc_inventory s; sc_pending := sc_pending s ++ [relative]; sc_total := sc_total s |}
       else with_inventory s (push_omission (relative +:+ "/")
              (push_issue ("EXTRA_DIRECTORY:" +:+ relative) (sc_inventory s))))
  | Some name, Ok kind => scan_file rd run (join directory name) kind s
  end.

Fixpoint scan_children (rd : run_dir) (run directory : string) (children : list dirent) (s : scan_state)
    : result unit string * scan_state :=
  match children with
  | [] => (Ok tt, s)
  | child :: children =>
      match scan_child rd run directory child s with
      | (Ok _, s) => scan_children rd run directory children s
      | failed => failed
      end
  end.

Definition name_le (a b : dirent) : Prop :=
  String.leb (String.string_of_list_byte (de_name a)) (String.string_of_list_byte (de_name b)) = true.
#[local] Instance name_le_dec : RelDecision name_le := λ a b, bool_eq_dec _ _.

Definition run_path (run relative : string) : string :=
  if String.eqb relative "" then run else run +:+ "/" +:+ relative.

(** The entries of a directory that are taken: at most [257 - entries] of them. *)
Definition list_children (rd : run_dir) (run directory : string) (entries : nat)
    : result (list dirent) string :=
  let path := run_path run directory in
  let? _ := absolute_parts (path +:+ "/.inventory-lookup") in
  let? listed := rd_list rd path in
  let? children := try_map id (take (257 - entries) listed) in
  require (entries + length children <=? 256)%nat "INVENTORY_ENTRY_LIMIT" ;?
  Ok (merge_sort name_le children).

(** The stack is popped at its end. *)
Fixpoint scan_dirs (fuel : nat) (rd : run_dir) (run : string) (entries : nat) (s : scan_state)
    : option (result unit string * Inventory) :=
  match last (sc_pending s), fuel with
  | None, _ => Some (Ok tt, sc_inventory s)
  | Some _, O => None
  | Some directory, S fuel =>
      let s := {| sc_inventory := sc_inventory s; sc_pending := removelast (sc_pending s);
                  sc_total := sc_total s |} in
      match list_children rd run directory entries with
      | Err e => Some (Err e, sc_inventory s)
      | Ok children =>
          match scan_children rd run directory children s with
          | (Ok _, s) => scan_dirs fuel rd run (entries + length children) s
          | (Err e, s) => Some (Err e, sc_inventory s)
          end
      end
  end.

(** Every directory but the first is one of at most 256 entries. *)
Definition SCAN_FUEL : nat := 257.
Definition scan (rd : run_dir) (run : string) (inv : Inventory) : option (result unit string * Inventory) :=
  scan_dirs SCAN_FUEL rd run 0 {| sc_inventory := inv; sc_pending := [""]; sc_total := 0 |}.

(** ** Reading *)

Definition inv_get (inv : Inventory) (path : string) : result bytes string :=
  ok_or (option_map ar_bytes (inv_data inv !! path)) ("ARTIFACT_MISSING:" +:+ path).
Definition inv_contains (inv : Inventory) (path : string) : bool :=
  bool_decide (is_Some (inv_data inv !! path)).
(** [inventory.data.keys().any(..)] *)
Definition inv_any_key (inv : Inventory) (p : string → bool) : bool :=
  existsb (λ row, p (fst row)) (map_to_list (inv_data inv)).

(** [Inventory::exit] *)
Definition inv_exit (inv : Inventory) (path : string) : result N string :=
  let? raw := inv_get inv path in
  let? b := ok_or (strip_last newline raw) "EXIT_NEWLINE_REQUIRED" in
  decimal b.

(** [Inventory::argv] *)
Definition inv_argv (inv : Inventory) (name : string) (expected : list string) : result unit string :=
  let? raw := inv_get inv (name +:+ ".argv") in
  require (bool_decide (raw = argv_bytes expected)) ("STAGE_ARGV_MISMATCH:" +:+ name) ;?
  let? _ := inv_get inv (name +:+ ".stdout") in
  let? _ := inv_get inv (name +:+ ".stderr") in
  Ok tt.

(** [Inventory::snapshot] *)
Definition inv_snapshot (inv : Inventory) (phase : string) : result unit string :=
  let present := List.filter (λ path, inv_contains inv (phase +:+ "/" +:+ path)) ARTIFACTS in
  let absence := default [] (option_map ar_bytes (inv_data inv !! (phase +:+ ".absent"))) in
  let? text := ok_or (from_utf8 absence) ("OS_ERROR: " +:+ utf8_error absence) in
  let absent : gset string := list_to_set (lines text) in
  require (bool_decide (length (lines text) = size absent)
    && bool_decide ((list_to_set present : gset string) ## absent)
    && bool_decide ((list_to_set present : gset string) ∪ absent = list_to_set ARTIFACTS))
    ("SNAPSHOT_INCOMPLETE:" +:+ phase).

Definition key_le (a b : string * Artifact) : Prop := String.leb (fst a) (fst b) = true.
#[local] Instance key_le_dec : RelDecision key_le := λ a b, bool_eq_dec _ _.
Definition inv_rows (inv : Inventory) : list (string * Artifact) :=
  merge_sort key_le (map_to_list (inv_data inv)).

(** [item["path"] = path.into()] *)
Definition with_path (path : string) (subject : Json) : Json :=
  match subject with
  | VObject m => VObject (snd (btree_insert "path" (VString path) m))
  | other => other
  end.
(** [Inventory::subjects] *)
Definition inv_subjects (inv : Inventory) : list Json :=
  map (λ row, with_path (fst row) (ar_subject (snd row))) (inv_rows inv).

(** [Artifact::recheck], with what [artifacts::read] returns now. *)
Definition recheck (now : string → result Artifact string) (a : Artifact) : result unit string :=
  let? current := now (ar_path a) in
  fail_if (negb (json_eqb (ar_subject a) (ar_subject current))
    || negb (bool_decide (ar_bytes a = ar_bytes current))) "ARTIFACT_DRIFT".

(** [Inventory::recheck] *)
Definition inv_recheck (now : string → result Artifact string) (inv : Inventory) : result unit string :=
  try_for (λ row, recheck now (snd row)) (inv_rows inv).

(** ** Specification of the collection *)

(** The directories that are entered. *)
Inductive entered (rd : run_dir) (run : string) : string → Prop :=
  | entered_run : entered rd run ""
  | entered_child d listed child name :
      entered rd run d → rd_list rd (run_path run d) = Ok listed → Ok child ∈ listed →
      from_utf8 (de_name child) = Some name → de_kind child = Ok KDir → join d name ∈ directories →
      entered rd run (join d name).

(** What became of an entry. *)
Definition accounted (rd : run_dir) (run d : string) (child : dirent) (inv : Inventory) : Prop :=
  ∃ name, from_utf8 (de_name child) = Some name ∧
  let relative := join d name in
  match de_kind child with
  | Err _ => False
  | Ok KDir => relative ∈ directories ∨ ("EXTRA_DIRECTORY:" +:+ relative) ∈ inv_issues inv
  | Ok kind =>
      (relative ∈ allowed ∨ ("EXTRA_ARTIFACT:" +:+ relative) ∈ inv_issues inv) ∧
      ((relative ∈ PRODUCER ∧ kind = KFile) ∨
       (∃ a, rd_read rd (run +:+ "/" +:+ relative) = Ok a ∧ inv_data inv !! relative = Some a) ∨
       (∃ e, rd_read rd (run +:+ "/" +:+ relative) = Err e ∧ e ∈ inv_issues inv ∧
             relative ∈ inv_omissions inv))
  end.

Definition inv_grows (a b : Inventory) : Prop :=
  inv_data a ⊆ inv_data b ∧ (∀ i, i ∈ inv_issues a → i ∈ inv_issues b) ∧
  (∀ o, o ∈ inv_omissions a → o ∈ inv_omissions b).

(** ** Lemmas *)

#[local] Opaque allowed directories PRODUCER.
#[local] Typeclasses Opaque allowed directories PRODUCER.

Lemma in_push {A} (l : list A) x : x ∈ l ++ [x].
Proof. apply elem_of_app. right. by left. Qed.

Lemma grows_issue (a : Inventory) issue : inv_grows a (push_issue issue a).
Proof. split; [done|]. split; [|done]. intros i Hi. apply elem_of_app. by left. Qed.

Lemma grows_both (a : Inventory) issue path : inv_grows a (push_omission path (push_issue issue a)).
Proof. split; [done|]. split; intros i Hi; apply elem_of_app; by left. Qed.

#[local] Instance inv_grows_preorder : PreOrder inv_grows.
Proof.
  split.
  - intros a. by split.
  - intros a b c (H1 & H2 & H3) (H4 & H5 & H6). split; [by trans (inv_data b)|]. split; auto.
Qed.

Lemma accounted_grows rd run d c a b : inv_grows a b → accounted rd run d c a → accounted rd run d c b.
Proof.
  intros (Hd & Hi & Ho) (name & Hn & Hc). exists name. split; [done|]. cbv zeta in *.
  destruct (de_kind c) as [[]|]; [naive_solver|..|done].
  all: destruct Hc as [He Hc]; split; [naive_solver|].
  all: destruct Hc as [Hp | [(x & Hr & Hx) | (e & Hr & He' & Hx)]]; [by left|right; left|right; right].
  1, 3: exists x; split; [done|]; by eapply lookup_weaken.
  all: exists e; auto.
Qed.

Lemma scan_file_spec rd run rel k s s' :
  k ≠ KDir → scan_file rd run rel k s = (Ok tt, s') →
  sc_pending s' = sc_pending s ∧ inv_grows (sc_inventory s) (sc_inventory s') ∧
  (rel ∈ allowed ∨ ("EXTRA_ARTIFACT:" +:+ rel) ∈ inv_issues (sc_inventory s')) ∧
  ((rel ∈ PRODUCER ∧ k = KFile) ∨
   (∃ a, rd_read rd (run +:+ "/" +:+ rel) = Ok a ∧ inv_data (sc_inventory s') !! rel = Some a) ∨
   (∃ e, rd_read rd (run +:+ "/" +:+ rel) = Err e ∧ e ∈ inv_issues (sc_inventory s') ∧
         rel ∈ inv_omissions (sc_inventory s'))).
Proof.
  intros Hk. unfold scan_file.
  set (inv := if bool_decide (rel ∈ allowed) then _ else _). cbv zeta.
  assert (inv_data inv = inv_data (sc_inventory s) ∧
    (rel ∈ allowed ∨ ("EXTRA_ARTIFACT:" +:+ rel) ∈ inv_issues inv) ∧
    inv_grows (sc_inventory s) inv) as (Hdata & Hext & Hg).
  { subst inv. case_bool_decide as Ha; [split; [done|]; split; [by left|done]|].
    split; [done|]. split; [right; apply in_push|apply grows_issue]. }
  clearbody inv. case_bool_decide as Hp.
  - intros [=]; simplify_eq. split; [done|]. split; [done|]. split; [done|]. left.
    split; [done|]. by destruct k.
  - destruct (rd_read rd _) as [a|e].
    + destruct (INVENTORY_BYTES <? _); [done|]. intros [= Hfresh <-]. simpl. rewrite Hdata in Hfresh.
      apply audit_require_Ok, negb_true_iff, bool_decide_eq_false in Hfresh.
      split; [done|]. split; [|split; [done|]].
      * etrans; [exact Hg|]. split; [simpl; rewrite Hdata; apply insert_subseteq; by apply eq_None_not_Some|done].
      * right. left. exists a. split; [done|]. by rewrite lookup_insert_eq.
    + intros [= <-]. simpl. split; [done|]. split; [|split].
      * etrans; [exact Hg|apply grows_both].
      * destruct Hext as [?|?]; [by left|right; apply elem_of_app; by left].
      * right. right. exists e. split; [done|]. split; apply in_push.
Qed.

(** An allowed directory waits on the stack. *)
Definition waits (d : string) (c : dirent) (pending : list string) : Prop :=
  ∀ name, from_utf8 (de_name c) = Some name → de_kind c = Ok KDir → join d name ∈ directories →
  join d name ∈ pending.

Lemma none_new {A} (l : list A) n (P : A → Prop) :
  ∃ new, l = l ++ new ∧ (length new ≤ n)%nat ∧ ∀ p, p ∈ new → P p.
Proof. exists []. rewrite app_nil_r. split; [done|]. split; [simpl; lia|]. by intros p ?%elem_of_nil. Qed.

Lemma scan_child_spec rd run d c s s' :
  scan_child rd run d c s = (Ok tt, s') →
  inv_grows (sc_inventory s) (sc_inventory s') ∧
  (∃ new, sc_pending s' = sc_pending s ++ new ∧ (length new ≤ 1)%nat ∧
    ∀ p, p ∈ new → ∃ name, from_utf8 (de_name c) = Some name ∧ de_kind c = Ok KDir ∧
      p = join d name ∧ p ∈ directories) ∧
  accounted rd run d c (sc_inventory s') ∧ waits d c (sc_pending s').
Proof.
  unfold scan_child, accounted, waits.
  destruct (from_utf8 (de_name c)) as [name|]; [|done]. destruct (de_kind c) as [[]|]; [..|done].
  - intros [= <-]. case_bool_decide as Hd; simpl.
    + split; [done|]. split; [exists [join d name]; split; [done|]; split; [simpl; lia|]|].
      { intros p ->%list_elem_of_singleton. by exists name. }
      split; [exists name; auto|]. intros ? [= <-] _ _. apply in_push.
    + split; [apply grows_both|]. split; [apply none_new|].
      split; [exists name; split; [done|]; right; apply in_push|]. by intros ? [= <-] _ ?.
  - intros (Hp & Hg & Ha)%scan_file_spec; [|done].
    split; [done|]. rewrite Hp. split; [apply none_new|].
    split; [by exists name|done].
  - intros (Hp & Hg & Ha)%scan_file_spec; [|done].
    split; [done|]. rewrite Hp. split; [apply none_new|].
    split; [by exists name|done].
Qed.

Lemma scan_children_spec rd run d cs s s' :
  scan_children rd run d cs s = (Ok tt, s') →
  inv_grows (sc_inventory s) (sc_inventory s') ∧
  (∃ new, sc_pending s' = sc_pending s ++ new ∧ (length new ≤ length cs)%nat ∧
    ∀ p, p ∈ new → ∃ c name, c ∈ cs ∧ from_utf8 (de_name c) = Some name ∧ de_kind c = Ok KDir ∧
      p = join d name ∧ p ∈ directories) ∧
  (∀ c, c ∈ cs → accounted rd run d c (sc_inventory s') ∧ waits d c (sc_pending s')).
Proof.
  revert s. induction cs as [|c cs IH]; intros s; simpl.
  - intros [= <-]. split; [done|]. split; [apply none_new|]. by intros c ?%elem_of_nil.
  - destruct (scan_child rd run d c s) as [[[]|] s1] eqn:Ec; [|done].
    apply scan_child_spec in Ec as (Hg & (n1 & Hp1 & Hl1 & Hn1) & Ha & Hw).
    intros (Hg' & (n2 & Hp2 & Hl2 & Hn2) & Ha')%IH. split; [by etrans|]. split.
    + exists (n1 ++ n2). rewrite Hp2, Hp1, app_assoc. split; [done|].
      split; [rewrite length_app; lia|]. intros p [Hp|Hp]%elem_of_app.
      * apply Hn1 in Hp as (name & Hp). exists c, name. split; [by left|done].
      * apply Hn2 in Hp as (c' & name & Hc & Hp). exists c', name. split; [by right|done].
    + intros c' [->|Hc]%elem_of_cons; [|by apply Ha'].
      split; [by eapply accounted_grows|]. intros name H1' H2' H3'. rewrite Hp2.
      apply elem_of_app. left. by apply Hw.
Qed.

Lemma list_children_spec rd run d n children :
  (n ≤ 256)%nat → list_children rd run d n = Ok children →
  (n + length children ≤ 256)%nat ∧
  ∃ listed, rd_list rd (run_path run d) = Ok listed ∧
    (∀ c, Ok c ∈ listed ↔ c ∈ children) ∧ (∀ e, Err e ∉ listed).
Proof.
  unfold list_children. intros Hn (_ & _ & Hl)%res_bind_Ok.
  apply res_bind_Ok in Hl as (listed & Hlist & Hl).
  apply res_bind_Ok in Hl as (cs & Hcs%try_map_Ok & Hl).
  apply res_bind_require in Hl as [Hle%Nat.leb_le [= <-]].
  pose proof (Permutation_length (merge_sort_Permutation name_le cs)) as Hlen.
  pose proof (Forall2_length _ _ _ Hcs) as Ht. rewrite length_take in Ht.
  split; [lia|]. exists listed. split; [done|].
  rewrite take_ge in Hcs by lia. clear Ht.
  assert (listed = map Ok cs) as ->.
  { clear -Hcs. induction Hcs as [|x y l m Hx Hf IH]; [done|]. simpl in *. by rewrite Hx, <- IH. }
  split.
  - intros c. rewrite merge_sort_Permutation, list_elem_of_fmap. split.
    + by intros (y & [= ->] & Hy).
    + intros Hc. by exists c.
  - intros e (y & Hy & _)%list_elem_of_fmap. done.
Qed.

Lemma last_snoc_removelast {A} (l : list A) x : last l = Some x → l = removelast l ++ [x].
Proof.
  intros Hl. destruct l as [|y l] using rev_ind; [done|]. rewrite last_snoc in Hl.
  injection Hl as ->. by rewrite removelast_last.
Qed.

Lemma scan_dirs_total rd run fuel n s :
  (n ≤ 256)%nat → (length (sc_pending s) + (256 - n) ≤ fuel)%nat → is_Some (scan_dirs fuel rd run n s).
Proof.
  revert n s. induction fuel as [|fuel IH]; intros n s Hn Hf; simpl.
  - destruct (sc_pending s); simpl in *; [by eexists|lia].
  - destruct (last (sc_pending s)) as [d|] eqn:El; [|by eexists].
    apply last_snoc_removelast in El. assert (length (sc_pending s) = S (length (removelast (sc_pending s)))) as Hlen
      by (rewrite El at 1; rewrite length_app; simpl; lia).
    destruct (list_children rd run d n) as [cs|e] eqn:Ec; [|by eexists].
    apply list_children_spec in Ec as [Hle _]; [|done].
    destruct (scan_children _ _ _ _ _) as [[[]|e] s1] eqn:Es; [|by eexists].
    apply scan_children_spec in Es as (_ & (new & Hp & Hl & _) & _). simpl in Hp.
    apply IH; [lia|]. rewrite Hp, length_app. lia.
Qed.

(** The directories already read, with the stack, are closed. *)
Definition scanned (rd : run_dir) (run : string) (visited : list string) (s : scan_state) : Prop :=
  ("" ∈ visited ∨ "" ∈ sc_pending s) ∧
  ∀ d, d ∈ visited → ∃ listed, rd_list rd (run_path run d) = Ok listed ∧ (∀ e, Err e ∉ listed) ∧
    ∀ c, Ok c ∈ listed → accounted rd run d c (sc_inventory s) ∧ waits d c (visited ++ sc_pending s).

Lemma scan_dirs_scanned rd run fuel n s visited inv :
  (n ≤ 256)%nat → scanned rd run visited s → scan_dirs fuel rd run n s = Some (Ok tt, inv) →
  ∃ visited' s', sc_inventory s' = inv ∧ sc_pending s' = [] ∧ scanned rd run visited' s'.
Proof.
  revert n s visited. induction fuel as [|fuel IH]; intros n s visited Hn Hsc; simpl;
    (destruct (last (sc_pending s)) as [d|] eqn:El;
      [|intros [= <-]; apply last_None in El; by exists visited, s]); [done|].
  apply last_snoc_removelast in El.
  destruct (list_children rd run d n) as [cs|e] eqn:Ec; [|done].
  apply list_children_spec in Ec as (Hle & listed & Hlist & Hc & Herr); [|done].
  destruct (scan_children _ _ _ _ _) as [[[]|e] s1] eqn:Es; [|done].
  apply scan_children_spec in Es as (Hg & (new & Hp & _ & _) & Ha). simpl in Hg, Hp.
  apply (IH _ _ (d :: visited)); [lia|]. destruct Hsc as [Hroot Hdone]. split.
  - rewrite Hp. rewrite El in Hroot. set_solver.
  - intros d' [->|Hd']%elem_of_cons.
    + exists listed. split; [done|]. split; [done|]. intros c Hcl. apply Hc, Ha in Hcl as [Hacc Hw].
      split; [done|]. intros name H1' H2' H3'. specialize (Hw name H1' H2' H3'). set_solver.
    + apply Hdone in Hd' as (l' & Hl' & He' & Hall). exists l'. split; [done|]. split; [done|].
      intros c Hcl. apply Hall in Hcl as [Hacc Hw]. split; [by eapply accounted_grows|].
      intros name H1' H2' H3'. specialize (Hw name H1' H2' H3'). rewrite Hp. rewrite El in Hw. set_solver.
Qed.

(** C30: the collection of a run's files always ends; and when it succeeds, every
    entry of every directory it entered is accounted for: an allowed artifact is in
    the inventory with what was read, the regular files the producer writes after the
    collection ([PRODUCER]) are passed over, an allowed directory is entered itself, and
    anything else (an unknown file or directory, a file that cannot be read) has left
    an issue, which fails the run. *)
Theorem scan_accounts_for_everything rd run inv :
  is_Some (scan rd run inv) ∧
  ∀ inv', scan rd run inv = Some (Ok tt, inv') → ∀ d, entered rd run d →
    ∃ listed, rd_list rd (run_path run d) = Ok listed ∧ (∀ e, Err e ∉ listed) ∧
      ∀ child, Ok child ∈ listed → accounted rd run d child inv'.
Proof.
  split; [apply scan_dirs_total; [lia|unfold SCAN_FUEL; simpl; lia]|]. intros inv' Hs d Hd.
  apply (scan_dirs_scanned _ _ _ _ _ []) in Hs as (visited & s & <- & Hp & Hroot & Hdone);
    [|lia|split; [right; simpl; set_solver|set_solver]].
  rewrite Hp in Hroot, Hdone. assert (d ∈ visited) as Hin.
  { induction Hd as [|d listed c name Hd IH Hl Hc Hname Hk Hdir]; [set_solver|].
    apply Hdone in IH as (l' & Hl' & _ & Hall). rewrite Hl in Hl'. injection Hl' as <-. apply Hall in Hc as [_ Hw].
    specialize (Hw name Hname Hk Hdir). set_solver. }
  apply Hdone in Hin as (listed & Hl & He & Hall). exists listed. split; [done|]. split; [done|].
  intros c Hc. by apply Hall.
Qed.
End Inventory.

(** A run with a stray file that cannot be read. *)
Module AuditInventoryReference.

Definition file (name : string) : result dirent string :=
  Ok {| de_name := as_bytes name; de_kind := Ok KFile |}.
Definition run : string := "/runs/run.abcd1234".

Definition stray_run : run_dir (float:=Z) := {|
  rd_list path := Ok (if String.eqb path run then
    [file "stray"; Ok {| de_name := as_bytes "before"; de_kind := Ok KDir |}; file "audit.started"; file "observation.json"]
    else []);
  rd_read path := if String.eqb path (run +:+ "/stray") then Err "ARTIFACT_KIND_OR_LIMIT"
    else Ok {| ar_bytes := as_bytes "pid=7"; ar_subject := VNull; ar_path := path |}
|}.

Definition collected : Inventory (float:=Z) :=
  match scan stray_run run inventory_default with Some (_, inv) => inv | None => inventory_default end.

Lemma scan_accounts_for_everything_witness :
  inv_issues collected = ["EXTRA_ARTIFACT:stray"; "ARTIFACT_KIND_OR_LIMIT"] ∧
  (∃ listed, rd_list stray_run (run_path run "") = Ok listed ∧ (∀ e, Err e ∉ listed) ∧
     ∀ child, Ok child ∈ listed → accounted stray_run run "" child collected).
Proof.
  split; [by vm_compute|].
  apply (proj2 (scan_accounts_for_everything stray_run run inventory_default) collected).
  - vm_compute. reflexivity.
  - apply entered_run.
Defined.
End AuditInventoryReference.
