(* ===== verification/AuditTool.v ===== *)
(** [tool.rs], [record.rs], [admission.rs], [execution.rs] and [descriptors.rs] of
    [crates/bullet-git-workspace/src/bin/bullet-ci-jankurai], which run the pinned
    scanner once and record what happened, event by event.

    The child process, its pipes, the descriptors and the disk are the environment
    [tool_env]: what each call returns. *)

From S2P Require Import Prelude Decimal StrictJson AuditJson Protocol AuditPolicy AuditInventory.

Definition PROFILE_NAME : string := "local-linux-x86_64-gnu-jankurai-1.6.11".
Definition INSTALL_RECEIPT : string := "40749914e412bc54f62c872884a76d287d48e359a4a7b3ddb0efc9d4ffbdd43a".
Definition SOURCE_COMMIT : string := "b88562fdb124aa86dedd70ab972e7d0d87e58be1".

Record Profile : Type := { pf_sha256 : string; pf_size : N; pf_version : bytes }.
Definition PIN : Profile := {|
  pf_sha256 := "9e6b8857a26f6004d4c74e510e13b06d880f2e2ae0c89502698889ed690c5d6c";
  pf_size := 19484592;
  pf_version := as_bytes "jankurai 1.6.11"
|}.

Record Request : Type := { rq_candidate : string; rq_record : string; rq_argv : list string }.

(** ** The command line *)

(** [parse]; an argument that is not UTF-8 is [None]. *)
Fixpoint parse_options (args : list string) (candidate record : option string)
    : result Request string :=
  match args with
  | [] => Err "COMMAND_SEPARATOR_REQUIRED"
  | option :: rest =>
      if String.eqb option "--" then
        let? candidate := ok_or candidate "CANDIDATE_REQUIRED" in
        let? record := ok_or record "RECORD_REQUIRED" in
        Ok {| rq_candidate := candidate; rq_record := record; rq_argv := rest |}
      else
        match rest with
        | [] => Err "MISSING_OPTION_VALUE"
        | value :: rest =>
            if String.eqb option "--candidate" && bool_decide (candidate = None) then
              parse_options rest (Some value) record
            else if String.eqb option "--record" && bool_decide (record = None) then
              parse_options rest candidate (Some value)
            else Err "UNSUPPORTED_OR_DUPLICATE_OPTION"
        end
  end.

Definition parse (args : list (option string)) : result Request string :=
  let? args := try_map (λ arg, ok_or arg "NON_UTF8_ARGUMENT") args in
  parse_options args None None.

(** [chunks_exact(2)] of a list of even length. *)
Fixpoint pairs {A} (l : list A) : list (A * A) :=
  match l with a :: b :: l => (a, b) :: pairs l | _ => [] end.

Definition audit_options : list string := ["--json"; "--md"; "--repair-queue-jsonl"; "--mode"; "--baseline"].

Definition insert_option (values : list (string * string)) (pair : string * string)
    : result (list (string * string)) string :=
  let '(key, value) := pair in
  fail_if (negb (bool_decide (key ∈ audit_options)) || String.eqb value "" || (4096 <? slen value)
    || char_contains Ascii.zero value) "UNSUPPORTED_TOOL_ARGV" ;?
  let '(old, values) := btree_insert key value values in
  fail_if (bool_decide (is_Some old)) "UNSUPPORTED_TOOL_ARGV" ;?
  Ok values.

(** [validate_argv] *)
Definition validate_argv (argv : list string) : result unit string :=
  if bool_decide (argv = ["--version"]) then Ok tt
  else
    fail_if (negb (bool_decide (take 4 argv = ["audit"; "."; "--full"; "--no-score-history"])))
      "UNSUPPORTED_TOOL_ARGV" ;?
    let rest := drop 4 argv in
    fail_if (negb (Nat.even (length rest)) || (10 <? length rest)%nat) "UNSUPPORTED_TOOL_ARGV" ;?
    let? values := try_fold insert_option [] (pairs rest) in
    fail_if (negb (contains_key "--json" values) || negb (contains_key "--md" values))
      "AUDIT_REPORT_PATHS_REQUIRED" ;?
    fail_if (negb (Bool.eqb (contains_key "--mode" values) (contains_key "--baseline" values)))
      "INCOMPLETE_RATCHET_ARGV" ;?
    fail_if (existsb (λ '(key, mode), String.eqb key "--mode" && negb (String.eqb mode "ratchet")) values)
      "UNSUPPORTED_AUDIT_MODE".

(** ** [descriptors::flags] and [check] *)

Definition is_octal (c : ascii) : bool :=
  (48 <=? Ascii.N_of_ascii c) && (Ascii.N_of_ascii c <=? 55).
Fixpoint octal_value (acc : N) (s : string) : N :=
  match s with
  | EmptyString => acc
  | String c s => octal_value (acc * 8 + (Ascii.N_of_ascii c - 48)) s
  end.

(** [char::is_whitespace] on ASCII, which is all a kernel flags line has. *)
Definition is_space (c : ascii) : bool :=
  (Ascii.N_of_ascii c =? 32) || ((9 <=? Ascii.N_of_ascii c) && (Ascii.N_of_ascii c <=? 13)).
Fixpoint trim_start (s : string) : string :=
  match s with String c r => if is_space c then trim_start r else s | _ => s end.
Fixpoint trim_end (s : string) : string :=
  match s with
  | String c r =>
      match trim_end r with
      | EmptyString => if is_space c then EmptyString else String c EmptyString
      | r => String c r
      end
  | _ => s
  end.
Definition trim (s : string) : string := trim_end (trim_start s).

Definition descriptor_flags (text : string) : result N string :=
  match omap (strip_prefix "flags:") (lines text) with
  | [value] =>
      let value := trim value in
      fail_if (String.eqb value "" || negb (chars_all is_octal value)) "DESCRIPTOR_FLAGS_INVALID" ;?
      if octal_value 0 value <=? u64_max then Ok (octal_value 0 value) else Err "DESCRIPTOR_FLAGS_INVALID"
  | _ => Err "DESCRIPTOR_FLAGS_AMBIGUOUS"
  end.

Definition O_CLOEXEC : N := 524288.
Definition i32_max : N := 2147483647.

(** An entry of [/proc/self/fdinfo]: its name, and its text as [read_info] reads it. *)
Definition fd_entry : Type := result (bytes * result bytes string) string.

(** [descriptors::read_info]; the bytes are cut at 65,537. *)
Definition read_info (reader : result bytes string) : result string string :=
  let? raw := reader in
  let b := take 65537 raw in
  let? text := ok_or (from_utf8 b) "OS_ERROR: stream did not contain valid UTF-8" in
  fail_if (65536 <? slen text) "DESCRIPTOR_INFO_LIMIT" ;?
  Ok text.

Definition check_entry (executable : N) (s : list N * bool) (entry : fd_entry) : result (list N * bool) string :=
  let '(seen, found) := s in
  let? '(name, reader) := entry in
  let? name := ok_or (from_utf8 name) "DESCRIPTOR_NAME_INVALID" in
  fail_if (String.eqb name "" || negb (is_digits name)) "DESCRIPTOR_NAME_INVALID" ;?
  let fd := digits_value 0 name in
  fail_if (i32_max <? fd) "DESCRIPTOR_NAME_INVALID" ;?
  fail_if (bool_decide (fd ∈ seen) || (4096 <? N.of_nat (S (length seen)))) "DESCRIPTOR_INVENTORY_INVALID" ;?
  let? text := read_info reader in
  let? flags := descriptor_flags text in
  let cloexec := negb (N.land flags O_CLOEXEC =? 0) in
  if fd =? executable then
    fail_if cloexec "EXECUTABLE_FD_NOT_INHERITABLE" ;? Ok (fd :: seen, true)
  else
    fail_if ((3 <=? fd) && negb cloexec) ("INHERITED_DESCRIPTOR_REFUSED: " +:+ u64_to_string fd) ;?
    Ok (fd :: seen, found).

(** [descriptors::check] *)
Definition check_descriptors (entries : result (list fd_entry) string) (executable : N) : result unit string :=
  let? entries := entries in
  let? '(_, found) := try_fold (check_entry executable) ([], false) entries in
  fail_if (negb found) "EXECUTABLE_FD_ABSENT".

(** ** [execution::environment] *)

Definition loader_key (key : string) : bool :=
  starts_with "LD_" key || bool_decide (key ∈ ["GLIBC_TUNABLES"; "GCONV_PATH"; "LOCPATH"]).

Definition UPDATE_CHECK : string := "JANKURAI_NO_UPDATE_CHECK".

Definition string_le (a b : string) : Prop := String.leb a b = true.
#[export] Instance string_le_dec : RelDecision string_le := λ a b, bool_eq_dec _ _.

(** The environment of the child, sorted by key, and its keys; a key that is not
    UTF-8 is [None]. *)
Definition child_environment (env : list (option string * bytes))
    : result (list (string * bytes) * list string) string :=
  let? env := try_map (λ '(key, value),
    let? key := ok_or key "ENVIRONMENT_KEY_NON_UTF8" in
    fail_if (loader_key key) "DYNAMIC_LOADER_ENVIRONMENT_REFUSED" ;?
    Ok (key, value)) env in
  let keys := map fst env in
  Ok (snd (btree_insert UPDATE_CHECK (as_bytes "1") env),
      if bool_decide (UPDATE_CHECK ∈ keys) then keys else merge_sort string_le (keys ++ [UPDATE_CHECK])).

(** ** [paths::Identity] and [paths::Ancestor] *)

Record Metadata : Type := {
  md_dev : N; md_ino : N; md_mode : N; md_uid : N; md_gid : N; md_size : N; md_nlink : N;
  md_mtime : Z; md_mtime_nsec : Z; md_ctime : Z; md_ctime_nsec : Z
}.
Record Identity : Type := {
  id_device : string; id_inode : string; id_mode : N; id_uid : N; id_gid : N; id_size : N;
  id_links : N; id_mtime_ns : string; id_ctime_ns : string
}.
#[export] Instance Identity_eq_dec : EqDecision Identity.
Proof. solve_decision. Defined.

(** [Identity::of] *)
Definition identity_of (m : Metadata) : Identity := {|
  id_device := u64_to_string (md_dev m); id_inode := u64_to_string (md_ino m); id_mode := md_mode m;
  id_uid := md_uid m; id_gid := md_gid m; id_size := md_size m; id_links := md_nlink m;
  id_mtime_ns := pretty (md_mtime m * 1000000000 + md_mtime_nsec m)%Z;
  id_ctime_ns := pretty (md_ctime m * 1000000000 + md_ctime_nsec m)%Z
|}.

Record Ancestor : Type := {
  an_device : string; an_inode : string; an_mode : N; an_uid : N; an_gid : N
}.
#[export] Instance Ancestor_eq_dec : EqDecision Ancestor.
Proof. solve_decision. Defined.

(** [Metadata::is_file] and [is_dir] *)
Definition is_file (m : Metadata) : bool := N.land (md_mode m) 61440 =? 32768.

(** ** The environment *)

Inductive append_reply : Type :=
  | Appended
  | WriteFails (written : nat) (e : string)
  | SyncFails (e : string).

(** [ExitStatus]: [code] and [signal]. *)
Record exit_status : Type := { es_code : option Z; es_signal : option Z }.

Inductive pipe_read : Type :=
  | PRead (b : bytes) (file_error : option string)
  | PWouldBlock
  | PInterrupted
  | PFails (e : string).

(** One turn of the capture loop. *)
Record look : Type := {
  lk_wait : result (option exit_status) string;
  lk_stdout : pipe_read;
  lk_stderr : pipe_read;
  lk_expired : bool
}.

Record tool_env : Type := {
  te_new : result unit string;                     (** [Record::new] *)
  te_time : nat → result N string;                 (** nanoseconds, at each append *)
  te_append : nat → append_reply;
  te_open : list string → result (result Metadata string * list Ancestor) string;
  te_memfd : result unit string;
  te_reads : list (result (bytes * option string) string);   (** chunks, and the write of each *)
  te_metadata : result Metadata string;
  te_reopen : list string → result (result Metadata string * list Ancestor) string;
  te_permissions : result unit string;
  te_add_seals : result unit string;
  te_get_seals : result N string;
  te_seek : result unit string;
  te_readback : list (result bytes string);
  te_sealed : result Metadata string;
  te_variables : list (option string * bytes);
  te_streams : result unit string * result unit string;
  te_dup : result N string;
  te_fdinfo : result (list fd_entry) string;
  te_spawn : result N string;
  te_pipes : bool * bool;                          (** the child has the two pipes *)
  te_nonblock : result unit string * result unit string;
  te_looks : list look;                            (** up to the deadline *)
  te_print : result unit string * result unit string;
  te_wait : result exit_status string
}.

Record tool_state : Type := {
  ts_file : bytes;               (** the record *)
  ts_sequence : N;
  ts_attempts : nat;
  ts_native : option Z;
  ts_stdout : bytes;             (** the retained streams *)
  ts_stderr : bytes
}.
Definition fresh_state : tool_state :=
  {| ts_file := []; ts_sequence := 0; ts_attempts := 0; ts_native := None; ts_stdout := []; ts_stderr := [] |}.

Definition set_record (file : bytes) (sequence : N) (s : tool_state) : tool_state :=
  {| ts_file := file; ts_sequence := sequence; ts_attempts := S (ts_attempts s); ts_native := ts_native s;
     ts_stdout := ts_stdout s; ts_stderr := ts_stderr s |}.
Definition set_native (native : Z) (s : tool_state) : tool_state :=
  {| ts_file := ts_file s; ts_sequence := ts_sequence s; ts_attempts := ts_attempts s;
     ts_native := Some native; ts_stdout := ts_stdout s; ts_stderr := ts_stderr s |}.
Definition set_streams (stdout stderr : bytes) (s : tool_state) : tool_state :=
  {| ts_file := ts_file s; ts_sequence := ts_sequence s; ts_attempts := ts_attempts s;
     ts_native := ts_native s; ts_stdout := stdout; ts_stderr := stderr |}.

(** Fallible steps over that state. *)
Definition Tool (A : Type) : Type := tool_state → result A string * tool_state.
Definition tret {A} (a : A) : Tool A := λ s, (Ok a, s).
Definition lift {A} (r : result A string) : Tool A := λ s, (r, s).
Definition tbind {A B} (m : Tool A) (k : A → Tool B) : Tool B := λ s,
  match m s with (Ok a, s) => k a s | (Err e, s) => (Err e, s) end.
Notation "'let!' x ':=' e 'in' k" := (tbind e (λ x, k))
  (at level 200, x pattern, e at level 100, k at level 200).
Notation "e ;! k" := (tbind e (λ _ : unit, k)) (at level 100, k at level 200, right associativity).

Definition io {A} (r : result A string) : result A string := map_err (λ e, "OS_ERROR: " +:+ e) r.

(** Crates of the tool: [serde_json::to_vec] and [base64]'s standard engine. *)
Class ToolCrates (float : Type) : Type := {
  json_to_vec : Value float → bytes;
  base64_encode : bytes → string;
  base64_decode : string → result bytes string
}.

Section Tool.
Context `{PolicyCrates float, ToolCrates float}.
Abbreviation Json := (Value float).

Definition jnum (n : N) : Json := VNumber (NumU64 n).
(** [Number::from(i64)] *)
Definition jint (z : Z) : Json := VNumber (if (0 <=? z)%Z then NumU64 (Z.to_N z) else NumI64 z).
Definition jopt (o : option Z) : Json := match o with Some z => jint z | None => VNull end.
Definition jstrs (l : list string) : Json := VArray (map VString l).

Definition identity_json (i : Identity) : Json := json_object [
  ("device", VString (id_device i)); ("inode", VString (id_inode i)); ("mode", jnum (id_mode i));
  ("uid", jnum (id_uid i)); ("gid", jnum (id_gid i)); ("size", jnum (id_size i));
  ("links", jnum (id_links i)); ("mtime_ns", VString (id_mtime_ns i)); ("ctime_ns", VString (id_ctime_ns i))].
Definition ancestor_json (a : Ancestor) : Json := json_object [
  ("device", VString (an_device a)); ("inode", VString (an_inode a)); ("mode", jnum (an_mode a));
  ("uid", jnum (an_uid a)); ("gid", jnum (an_gid a))].

(** ** [Record::append] *)

Definition TOOL_SCHEMA : string := "bullet.local-auditor-tool.v1".
Definition TOOL_CLASS : string := "LOCAL_TOOL_DIAGNOSTIC".

Definition record_row (sequence time : N) (event : string) (fields : list (string * Json)) : Json :=
  json_object ([("schema", VString TOOL_SCHEMA); ("sequence", jnum sequence);
    ("time_ns", VString (u64_to_string time)); ("event", VString event);
    ("evidence_class", VString TOOL_CLASS)] ++ fields).

Definition append (env : tool_env) (event : string) (fields : list (string * Json)) : Tool unit := λ s,
  match io (te_time env (ts_attempts s)) with
  | Err e => (Err e, set_record (ts_file s) (ts_sequence s) s)
  | Ok time =>
      let b := json_to_vec (record_row (ts_sequence s) time event fields) ++ [newline] in
      match te_append env (ts_attempts s) with
      | Appended => (Ok tt, set_record (ts_file s ++ b) (ts_sequence s + 1) s)
      | WriteFails n e => (io (Err e), set_record (ts_file s ++ take n b) (ts_sequence s) s)
      | SyncFails e => (io (Err e), set_record (ts_file s ++ b) (ts_sequence s) s)
      end
  end.

(** ** [admission::admit] *)

(** [paths::open_candidate] and the [metadata] of what it opened. *)
Definition open_candidate
    (open : list string → result (result Metadata string * list Ancestor) string) (path : string)
    : result (result Metadata string * list Ancestor) string :=
  let? parts := absolute_parts path in
  io (open parts).

(** The copy: the bytes, and the first twenty of the first chunk. *)
Definition copy_chunk (size : N) (s : bytes * bytes) (chunk : result (bytes * option string) string)
    : result (bytes * bytes) string :=
  let '(copied, header) := s in
  let? '(b, write_error) := io chunk in
  let header := if blen copied =? 0 then header ++ take 20 b else header in
  fail_if (size <? blen (copied ++ b)) "CANDIDATE_SIZE_CHANGED" ;?
  match write_error with Some e => io (Err e) | None => Ok (copied ++ b, header) end.

Definition readback_chunk (size : N) (read : bytes) (chunk : result bytes string) : result bytes string :=
  let? b := io chunk in
  fail_if (size <? blen (read ++ b)) "SEALED_ARTIFACT_DIGEST_MISMATCH" ;?
  Ok (read ++ b).

Definition elf_header (header : bytes) : bool :=
  bool_decide (take 7 header = [x7f; x45; x4c; x46; x02; x01; x01])
  && bool_decide (take 2 (drop 18 header) = [x3e; x00]).

Definition SEALS : N := 15.

(** The checks on what was copied, up to the sealed file read back. *)
Definition seal_copy (env : tool_env) (profile : Profile) (header : bytes) : result bytes string :=
  fail_if (negb (elf_header header)) "CANDIDATE_ELF_PROFILE_MISMATCH" ;?
  io (te_permissions env) ;?
  io (te_add_seals env) ;?
  let? seals := io (te_get_seals env) in
  fail_if (negb (seals =? SEALS)) "EXECUTABLE_SEAL_MISMATCH" ;?
  io (te_seek env) ;?
  let? readback := try_fold (readback_chunk (pf_size profile)) [] (te_readback env) in
  fail_if (negb (blen readback =? pf_size profile)
    || negb (String.eqb (sha256_hex readback) (pf_sha256 profile))) "SEALED_ARTIFACT_DIGEST_MISMATCH" ;?
  Ok readback.

(** The candidate still is what was opened. *)
Definition recheck_candidate (env : tool_env) (candidate : string) (profile : Profile)
    (identity : Identity) (lookups : list Ancestor) (copied : bytes) : result unit string :=
  let? same := (if blen copied =? pf_size profile
    then let? m := io (te_metadata env) in Ok (bool_decide (identity = identity_of m)) else Ok false) in
  fail_if (negb same) "CANDIDATE_CHANGED_DURING_READ" ;?
  let? '(current, current_lookups) := open_candidate (te_reopen env) candidate in
  let? m := io current in
  fail_if (negb (bool_decide (identity = identity_of m)) || negb (bool_decide (lookups = current_lookups)))
    "CANDIDATE_LOOKUP_CHANGED" ;?
  fail_if (negb (String.eqb (sha256_hex copied) (pf_sha256 profile))) "CANDIDATE_SHA256_MISMATCH".

Definition admit_candidate (env : tool_env) (candidate : string) (profile : Profile) : Tool bytes :=
  let! (opened, lookups) := lift (open_candidate (te_open env) candidate) in
  let! before := lift (io opened) in
  let identity := identity_of before in
  let ancestors := VArray (map ancestor_json lookups) in
  append env "candidate_opened" [("path", VString candidate); ("identity", identity_json identity);
    ("ancestor_identities", ancestors)] ;!
  lift (fail_if (negb (is_file before) || (N.land (md_mode before) 73 =? 0)
    || negb (md_size before =? pf_size profile)) "CANDIDATE_KIND_MODE_OR_SIZE_MISMATCH") ;!
  lift (io (te_memfd env)) ;!
  let! (copied, header) := lift (try_fold (copy_chunk (pf_size profile)) ([], []) (te_reads env)) in
  append env "candidate_read" [("path", VString candidate); ("identity", identity_json identity);
    ("ancestor_identities", ancestors); ("sha256", VString (sha256_hex copied));
    ("copied_bytes", jnum (blen copied))] ;!
  lift (recheck_candidate env candidate profile identity lookups copied) ;!
  let! readback := lift (seal_copy env profile header) in
  let! sealed := lift (io (te_sealed env)) in
  append env "admitted" [("sha256", VString (sha256_hex readback)); ("size", jnum (blen copied));
    ("seals", jnum SEALS); ("executable_identity", identity_json (identity_of sealed))] ;!
  tret readback.

(** ** [execution::run] *)

Definition VERSION_BYTES : N := 65536.

(** [terminated] *)
Definition terminated (env : tool_env) (status : exit_status) : Tool unit :=
  let! raw := lift (ok_or (match es_code status with Some code => Some code
    | None => option_map Z.opp (es_signal status) end) "NATIVE_OUTCOME_UNKNOWN") in
  let exit := (if (raw <? 0) then 128 - raw else raw)%Z in
  (λ s, (Ok tt, set_native exit s)) ;!
  append env "terminated" [("native_returncode", jint raw); ("exit_status", jint exit)].

(** [Capture]: its bytes are those of its retained file. *)
Record Capture : Type := { cp_bytes : bytes; cp_eof : bool }.
Definition capture_new : Capture := {| cp_bytes := []; cp_eof := false |}.

(** [Capture::pump]: the capture, and what its file now holds. *)
Definition pump (c : Capture) (read : pipe_read) : result Capture string * bytes :=
  if cp_eof c then (Ok c, cp_bytes c)
  else
    let room := N.min (VERSION_BYTES + 1 - blen (cp_bytes c)) 8192 in
    match read with
    | PRead b file_error =>
        match take (N.to_nat room) b, file_error with
        | [], _ => (Ok {| cp_bytes := cp_bytes c; cp_eof := true |}, cp_bytes c)
        | _, Some e => (io (Err e), cp_bytes c)
        | b, None =>
            let all := cp_bytes c ++ b in
            (if VERSION_BYTES <? blen all then Err "VERSION_OUTPUT_LIMIT"
             else Ok {| cp_bytes := all; cp_eof := false |}, all)
        end
    | PWouldBlock | PInterrupted => (Ok c, cp_bytes c)
    | PFails e => (io (Err e), cp_bytes c)
    end.

(** [observe], while the end of the child has not been seen. *)
Definition observe (env : tool_env) (wait : result (option exit_status) string) (observed : bool) : Tool bool :=
  if observed then tret true
  else
    let! status := lift (io wait) in
    match status with
    | Some status => terminated env status ;! tret true
    | None => tret false
    end.

Definition pump_both (stdout stderr : Capture) (l : look) : Tool (Capture * Capture) := λ s,
  let '(out, file) := pump stdout (lk_stdout l) in
  let s := set_streams file (ts_stderr s) s in
  match out with
  | Err e => (Err e, s)
  | Ok stdout =>
      let '(err, file) := pump stderr (lk_stderr l) in
      let s := set_streams (ts_stdout s) file s in
      match err with
      | Err e => (Err e, s)
      | Ok stderr => (Ok (stdout, stderr), s)
      end
  end.

Definition native_known : Tool bool := λ s, (Ok (bool_decide (is_Some (ts_native s))), s).

(** The capture loop: the two outputs. *)
Fixpoint capture_loop (env : tool_env) (looks : list look) (observed : bool) (stdout stderr : Capture)
    : Tool (bytes * bytes) :=
  match looks with
  | [] => lift (Err "VERSION_TIMEOUT")
  | l :: looks =>
      let! observed := observe env (lk_wait l) observed in
      let! (stdout, stderr) := pump_both stdout stderr l in
      let! known := native_known in
      if known && cp_eof stdout && cp_eof stderr then tret (cp_bytes stdout, cp_bytes stderr)
      else if lk_expired l then lift (Err "VERSION_TIMEOUT")
      else capture_loop env looks observed stdout stderr
  end.

(** Without the carriage returns and line feeds at its end. *)
Fixpoint trim_crlf (b : bytes) : bytes :=
  match b with
  | [] => []
  | x :: b =>
      match trim_crlf b with
      | [] => if Byte.eqb x x0d || Byte.eqb x x0a then [] else [x]
      | b => x :: b
      end
  end.

Definition version_run (env : tool_env) (profile : Profile) : Tool unit :=
  lift (fail_if (negb (fst (te_pipes env))) "VERSION_STDOUT_UNAVAILABLE") ;!
  lift (fail_if (negb (snd (te_pipes env))) "VERSION_STDERR_UNAVAILABLE") ;!
  lift (io (fst (te_nonblock env))) ;!
  lift (io (snd (te_nonblock env))) ;!
  let! (stdout, stderr) := capture_loop env (te_looks env) false capture_new capture_new in
  append env "version_output" [("stdout_base64", VString (base64_encode stdout));
    ("stderr_base64", VString (base64_encode stderr))] ;!
  lift (io (fst (te_print env))) ;!
  lift (io (snd (te_print env))) ;!
  λ s, (fail_if (bool_decide (ts_native s = Some 0%Z)
    && (negb (bool_decide (trim_crlf stdout = pf_version profile)) || negb (bool_decide (stderr = []))))
    "VERSION_OUTPUT_MISMATCH", s).

Definition proc_fd (fd : N) : string := "/proc/self/fd/" +:+ u64_to_string fd.
Definition EXECUTION_LIMITS : string :=
  "No source/runtime closure, process-tree supervision, network containment or release authority; unqualified inheritable FDs refuse".

Definition run_inner (env : tool_env) (argv : list string) (profile : Profile) (version : bool) : Tool Z :=
  let! (_, keys) := lift (child_environment (te_variables env)) in
  lift (if version then io (fst (te_streams env)) ;? io (snd (te_streams env)) else Ok tt) ;!
  let! inherit := lift (io (te_dup env)) in
  append env "launch_intent" [("argv", jstrs ("jankurai" :: argv));
    ("executable", VString (proc_fd inherit)); ("inherited_environment_keys", jstrs keys);
    ("update_check", VString "disabled_by_JANKURAI_NO_UPDATE_CHECK_1");
    ("inherited_fds", VArray (map jnum (if version then [0] else [0; 1; 2])));
    ("passed_executable_fd", jnum inherit);
    ("streams", VString (if version then "retained" else "caller_owned"));
    ("limitations", VString EXECUTION_LIMITS)] ;!
  lift (check_descriptors (te_fdinfo env) inherit) ;!
  let! pid := lift (io (te_spawn env)) in
  append env "started" [("pid", jnum pid)] ;!
  (if version then version_run env profile
   else let! status := lift (io (te_wait env)) in terminated env status) ;!
  λ s, (ok_or (ts_native s) "NATIVE_OUTCOME_UNKNOWN", s).

(** [execution::run] *)
Definition run (env : tool_env) (argv : list string) (profile : Profile) : Tool Z :=
  run_inner env argv profile (bool_decide (argv = ["--version"])).

(** ** [invoke] *)

Definition request_fields (request : Request) (profile : Profile) : list (string * Json) := [
  ("profile", VString PROFILE_NAME); ("candidate", VString (rq_candidate request));
  ("argv", jstrs (rq_argv request)); ("record_path", VString (rq_record request));
  ("pinned_sha256", VString (pf_sha256 profile)); ("pinned_size", jnum (pf_size profile));
  ("install_receipt_sha256", VString INSTALL_RECEIPT); ("source_commit", VString SOURCE_COMMIT);
  ("provenance_is_distribution_acceptance", VBool false)].

Definition invocation_run (env : tool_env) (request : Request) (profile : Profile) : Tool Z :=
  append env "request" (request_fields request profile) ;!
  lift (validate_argv (rq_argv request)) ;!
  let! _ := admit_candidate env (rq_candidate request) profile in
  let! status := run env (rq_argv request) profile in
  append env "complete" [("exit_status", jint status)] ;!
  tret status.

(** [settle]: the status, whatever becomes of the last row. *)
Definition settle (env : tool_env) (outcome : result Z string) (s : tool_state) : Z * tool_state :=
  match outcome with
  | Ok status => (status, s)
  | Err error =>
      let status := default 75%Z (filtered (λ z, negb (z =? 0)%Z) (ts_native s)) in
      (status, snd (append env "refused" [("reason", VString error); ("native_status", jopt (ts_native s));
        ("exit_status", jint status)] s))
  end.

(** [invoke]: the exit code, and what is on disk; no record is made when it cannot
    be created. *)
Definition invoke (env : tool_env) (request : Request) (profile : Profile) : Z * option tool_state :=
  match (let? _ := absolute_parts (rq_record request) in te_new env) with
  | Err _ => (75%Z, None)
  | Ok _ =>
      let '(outcome, s) := invocation_run env request profile fresh_state in
      let '(status, s) := settle env outcome s in
      (status, Some s)
  end.
End Tool.
