(* ===== verification/AuditRecord.v ===== *)
(** [observation/tool_record.rs] of [crates/bullet-git-workspace/src/bin/bullet-ci-jankurai]:
    whether a record of the scanner is that of a run that ended with a given status.

    A record that is accepted as passing is of one complete run of the pinned scanner;
    and the record of every run of AuditTool is accepted. *)

From S2P Require Import Prelude Decimal StrictJson AuditJson Protocol AuditPolicy AuditInventory AuditTool.

Lemma res_bind_unit_any {B E} (e : result unit E) (k : result B E) b :
  (e ;? k) = Ok b ↔ e = Ok tt ∧ k = Ok b.
Proof. destruct e as [[]|]; simpl; naive_solver. Qed.

Section Record.
Context `{PolicyCrates float, ToolCrates float}.
Abbreviation Json := (Value float).

(** [slice::split] on the line feed; never empty. *)
Fixpoint split_lines (b : bytes) : list bytes :=
  match b with
  | [] => [[]]
  | x :: b =>
      if Byte.eqb x newline then [] :: split_lines b
      else match split_lines b with [] => [[x]] | r :: rs => (x :: r) :: rs end
  end.

(** [common::field] *)
Definition obs_field (row : Json) (key : string) : result Json string :=
  ok_or (get key row) ("OBSERVATION_FIELD_MISSING:" +:+ key).

Definition is_u64 (v : Json) (n : N) : bool := option_eqb N.eqb (as_u64 v) (Some n).

(** The event of a row, in its place. *)
Definition row_event (index : nat) (row : Json) : result string string :=
  let? time := obs_field row "time_ns" in
  let? timestamp := ok_or (as_str time) "TOOL_TIME_INVALID" in
  let? ordered := all_of [
    let? v := obs_field row "schema" in Ok (is_str v TOOL_SCHEMA);
    let? v := obs_field row "sequence" in Ok (is_u64 v (N.of_nat index));
    let? v := obs_field row "evidence_class" in Ok (is_str v TOOL_CLASS);
    Ok (negb (String.eqb timestamp "") && (slen timestamp <=? 24) && is_digits timestamp)] in
  require ordered "TOOL_RECORD_ORDER_OR_SCHEMA" ;?
  let? event := obs_field row "event" in
  ok_or (as_str event) "TOOL_EVENT_INVALID".

Fixpoint row_events (index : nat) (rows : list Json) : result (list string) string :=
  match rows with
  | [] => Ok []
  | row :: rows =>
      let? event := row_event index row in
      let? events := row_events (S index) rows in
      Ok (event :: events)
  end.

Definition event_order (name : string) : list string :=
  ["request"; "candidate_opened"; "candidate_read"; "admitted"; "launch_intent"; "started"; "terminated"]
  ++ (if String.eqb name "doctor" then ["version_output"] else []).

(** The rows of a record, decoded, with their events. *)
Definition tool_rows (raw : bytes) : result (list Json * list string) string :=
  let? body := ok_or (strip_last newline raw) "TRUNCATED_TOOL_RECORD" in
  let parts := take 11 (split_lines body) in
  require (negb (bool_decide (parts = [])) && (length parts <=? 10)%nat) "TOOL_RECORD_BOUND" ;?
  let? rows := try_map report_decode parts in
  let? events := row_events 0 rows in
  Ok (rows, events).

(** The events are the first ones of the order, and a last one. *)
Definition events_valid (name : string) (expected : N) (events : list string) : result string string :=
  let order := event_order name in
  let terminal := default "" (last events) in
  let prefix := removelast events in
  require ((String.eqb terminal "complete" || String.eqb terminal "refused")
    && bool_decide (take (length prefix) order = prefix)) "TOOL_EVENTS_INVALID" ;?
  require (negb (String.eqb terminal "complete") || bool_decide (prefix = order)) "TOOL_COMPLETION_INCOMPLETE" ;?
  require (negb (String.eqb terminal "refused") || negb (expected =? 0)) "REFUSED_TOOL_REPORTED_PASS" ;?
  Ok terminal.

(** The expectation's members, in the order of an object. *)
Definition request_expectation (run path : string) (argv : list string) : list (string * Json) := [
  ("argv", jstrs argv); ("install_receipt_sha256", VString INSTALL_RECEIPT);
  ("pinned_sha256", VString (pf_sha256 PIN)); ("pinned_size", jnum (pf_size PIN));
  ("profile", VString PROFILE_NAME); ("provenance_is_distribution_acceptance", VBool false);
  ("record_path", VString (run +:+ "/" +:+ path)); ("source_commit", VString SOURCE_COMMIT)].

(** The request row: the candidate. *)
Definition request_valid (run path name : string) (argv : list string) (request : Json)
    : result string string :=
  try_for (λ '(key, expected),
    let? v := obs_field request key in
    require (json_eqb v expected) ("TOOL_REQUEST_BINDING_MISMATCH:" +:+ name))
    (request_expectation run path argv) ;?
  let? v := obs_field request "candidate" in
  let? candidate := ok_or (as_str v) "CANDIDATE_PATH_INVALID" in
  let? _ := absolute_parts candidate in
  Ok candidate.

(** The row of the first event of a name. *)
Definition event_row (rows : list Json) (events : list string) (name : string) : option Json :=
  list_find (λ e, e = name) events ≫= λ '(i, _), rows !! i.

Definition admitted_valid (event : string → option Json) (candidate : string) : result unit string :=
  match event "admitted" with
  | None => Ok tt
  | Some admitted =>
      let? ok := all_of [
        let? v := obs_field admitted "sha256" in Ok (is_str v (pf_sha256 PIN));
        let? v := obs_field admitted "size" in Ok (is_u64 v (pf_size PIN));
        let? v := obs_field admitted "seals" in Ok (is_u64 v 15)] in
      require ok "ADMITTED_TOOL_MISMATCH" ;?
      let? read := ok_or (event "candidate_read") "CANDIDATE_READ_MISSING" in
      let? ok := all_of [
        let? v := obs_field read "path" in Ok (is_str v candidate);
        (let? opened := ok_or (event "candidate_opened") "CANDIDATE_OPEN_MISSING" in
         let? v := obs_field opened "path" in Ok (is_str v candidate));
        let? v := obs_field read "sha256" in Ok (is_str v (pf_sha256 PIN));
        let? v := obs_field read "copied_bytes" in Ok (is_u64 v (pf_size PIN))] in
      require ok "CANDIDATE_READ_MISMATCH"
  end.

Definition launch_valid (event : string → option Json) (argv : list string) : result unit string :=
  match event "launch_intent" with
  | None => Ok tt
  | Some launch =>
      let? v := obs_field launch "passed_executable_fd" in
      let? fd := ok_or (filtered (λ fd, 3 <=? fd) (as_u64 v)) "TOOL_FD_INVALID" in
      let? ok := all_of [
        let? v := obs_field launch "argv" in Ok (json_eqb v (jstrs ("jankurai" :: argv)));
        let? v := obs_field launch "executable" in Ok (json_eqb v (VString (proc_fd fd)));
        let? v := obs_field launch "update_check" in
          Ok (is_str v "disabled_by_JANKURAI_NO_UPDATE_CHECK_1")] in
      require ok "TOOL_LAUNCH_MISMATCH"
  end.

Definition started_valid (event : string → option Json) : result unit string :=
  match event "started" with
  | None => Ok tt
  | Some started =>
      let? v := obs_field started "pid" in
      require (match as_u64 v with Some pid => 0 <? pid | None => false end) "NATIVE_PID_INVALID"
  end.

(** [u64::try_from] of an [i64]. *)
Definition u64_of_i64 (z : Z) : option N := if (0 <=? z)%Z then Some (Z.to_N z) else None.

(** The child's return code and status, which agree. *)
Definition native_valid (event : string → option Json) : result (option (Z * N)) string :=
  match event "terminated" with
  | None => Ok None
  | Some row =>
      let? v := obs_field row "native_returncode" in
      let? native := ok_or (as_i64 v) "NATIVE_RETURN_CODE_INVALID" in
      let? v := obs_field row "exit_status" in
      let? status := ok_or (filtered (λ s, s <=? 255) (as_u64 v)) "NATIVE_STATUS_INVALID" in
      let calculated := if (0 <=? native)%Z then Some native else checked_sub_i64 128 native in
      require (option_eqb N.eqb (calculated ≫= u64_of_i64) (Some status)) "NATIVE_STATUS_CONTRADICTION" ;?
      Ok (Some (native, status))
  end.

Definition last_valid (terminal : string) (expected : N) (native_status : option N) (last : Json)
    : result unit string :=
  let? v := obs_field last "exit_status" in
  require (is_u64 v expected) "TOOL_EXIT_CONTRADICTION" ;?
  if String.eqb terminal "complete" then
    require (bool_decide (native_status = Some expected)) "COMPLETE_EXIT_CONTRADICTION"
  else
    let? ok := all_of [
      let? v := obs_field last "native_status" in
        Ok (json_eqb v (jopt (option_map Z.of_N native_status)));
      Ok (expected =? default 75 (filtered (λ s, negb (s =? 0)) native_status))] in
    require ok "REFUSAL_STATUS_CONTRADICTION".

(** [trim_ascii_end] *)
Definition is_ascii_whitespace (b : byte) : bool :=
  bool_decide (b ∈ [x09; x0a; x0c; x0d; x20]).
Fixpoint trim_ascii_end (b : bytes) : bytes :=
  match b with
  | [] => []
  | x :: b =>
      match trim_ascii_end b with
      | [] => if is_ascii_whitespace x then [] else [x]
      | b => x :: b
      end
  end.

Definition version_valid (inv : Inventory (float:=float)) (path : string) (event : string → option Json) : result unit string :=
  let? version := ok_or (event "version_output") "VERSION_RECORD_MISSING" in
  let decode key :=
    let? v := obs_field version key in
    let? text := ok_or (as_str v) "VERSION_ENCODING_INVALID" in
    base64_decode text in
  let? stdout := decode "stdout_base64" in
  let? stderr := decode "stderr_base64" in
  let version_text := trim_ascii_end stdout in
  let trailing := drop (length version_text) stdout in
  let? ok := all_of [
    let? b := inv_get inv (path +:+ ".stdout") in Ok (bool_decide (stdout = b));
    let? b := inv_get inv (path +:+ ".stderr") in Ok (bool_decide (stderr = b));
    Ok (bool_decide (version_text = pf_version PIN)
        && forallb (λ b, Byte.eqb b x0d || Byte.eqb b x0a) trailing
        && bool_decide (stderr = []))] in
  require ok "ACTUAL_VERSION_MISMATCH".

(** [tool_record::validate] *)
Definition validate_tool (inv : Inventory (float:=float)) (run name : string) (argv : list string) (expected : N)
    : result Json string :=
  let path := name +:+ ".tool.jsonl" in
  let? raw := inv_get inv path in
  let? '(rows, events) := tool_rows raw in
  let? terminal := events_valid name expected events in
  let? request := ok_or (head rows) "TOOL_RECORD_EMPTY" in
  let? candidate := request_valid run path name argv request in
  let event := event_row rows events in
  admitted_valid event candidate ;?
  launch_valid event argv ;?
  started_valid event ;?
  let? native := native_valid event in
  let? final := ok_or (last rows) "TOOL_RECORD_EMPTY" in
  last_valid terminal expected (option_map snd native) final ;?
  let doctor_passed := String.eqb name "doctor" && (expected =? 0) in
  (if doctor_passed then version_valid inv path event else Ok tt) ;?
  Ok (json_object [("record", VString path); ("candidate", VString candidate);
    ("admitted_sha256", default VNull (event "admitted" ≫= get "sha256"));
    ("native_returncode", jopt (option_map fst native)); ("helper_exit", jnum expected);
    ("version", if doctor_passed then VString (String.string_of_list_byte (pf_version PIN)) else VNull)]).

(** ** Specification: the record of a passing run *)

Definition str_field (row : Json) (key value : string) : Prop := get key row = Some (VString value).
Definition u64_field (row : Json) (key : string) (n : N) : Prop := (get key row ≫= as_u64) = Some n.

(** Version text, then only carriage returns and line feeds. *)
Definition version_text (stdout : bytes) : Prop :=
  ∃ trailing, stdout = pf_version PIN ++ trailing ∧ Forall (λ b, b = x0d ∨ b = x0a) trailing.

Record passing_run (inv : Inventory (float:=float)) (run name : string) (argv : list string) (rows : list Json) : Prop := {
  (** every row is in its place *)
  pr_sequence i row : rows !! i = Some row → u64_field row "sequence" (N.of_nat i);
  (** the request: these arguments, this record, the pinned scanner *)
  pr_request : ∃ row, rows !! 0%nat = Some row ∧
    (∃ v, get "argv" row = Some v ∧ json_eqb v (jstrs argv) = true) ∧
    (∃ v, get "record_path" row = Some v ∧
          json_eqb v (VString (run +:+ "/" +:+ name +:+ ".tool.jsonl")) = true);
  (** what was executed is the sealed copy with the pinned digest and size *)
  pr_admitted : ∃ row, rows !! 3%nat = Some row ∧
    (get "sha256" row ≫= as_str) = Some (pf_sha256 PIN) ∧ u64_field row "size" (pf_size PIN) ∧
    u64_field row "seals" 15;
  (** the child itself ended with zero *)
  pr_terminated : ∃ row, rows !! 6%nat = Some row ∧ (get "native_returncode" row ≫= as_i64) = Some 0%Z ∧
    u64_field row "exit_status" 0;
  pr_version : name = "doctor" → ∃ stdout,
    inv_get inv "doctor.tool.jsonl.stdout" = Ok stdout ∧ version_text stdout ∧
    inv_get inv "doctor.tool.jsonl.stderr" = Ok []
}.

(** ** Lemmas *)

Lemma obs_field_Ok row k v : obs_field row k = Ok v ↔ get k row = Some v.
Proof. apply ok_or_Ok. Qed.

Lemma is_u64_true v n : is_u64 v n = true ↔ as_u64 v = Some n.
Proof. apply option_eqb_Some, N.eqb_eq. Qed.

(** A field that was tested. *)
Lemma tested row k p : (let? v := obs_field row k in Ok (p v)) = Ok true → ∃ v, get k row = Some v ∧ p v = true.
Proof. intros (v & Hv%obs_field_Ok & [= Hp])%res_bind_Ok. by exists v. Qed.

Lemma tested_u64 row k n :
  (let? v := obs_field row k in Ok (is_u64 v n)) = Ok true → u64_field row k n.
Proof. intros (v & Hv & Hn%is_u64_true)%(tested _ _ (λ v, is_u64 v n)). unfold u64_field. by rewrite Hv. Qed.

Lemma tested_str row k s :
  (let? v := obs_field row k in Ok (is_str v s)) = Ok true → (get k row ≫= as_str) = Some s.
Proof. intros (v & Hv & Hs%is_str_true)%(tested _ _ (λ v, is_str v s)). by rewrite Hv. Qed.

Lemma require_all tests e u :
  (let? ok := all_of tests in require ok e) = Ok u → Forall (λ t, t = Ok true) tests.
Proof. intros (b & Hb & ->%audit_require_Ok)%res_bind_Ok. by apply all_of_true. Qed.

Lemma row_event_sequence i row e : row_event i row = Ok e → u64_field row "sequence" (N.of_nat i).
Proof.
  unfold row_event. intros (t & _ & He)%res_bind_Ok. apply res_bind_Ok in He as (ts & _ & He).
  apply res_bind_Ok in He as (b & Hb & He). apply res_bind_require in He as [-> _].
  apply all_of_true in Hb. rewrite !Forall_cons in Hb. destruct Hb as (_ & Hs & _). by apply tested_u64.
Qed.

Lemma row_events_sequence n rows events : row_events n rows = Ok events →
  length events = length rows ∧
  ∀ i row, rows !! i = Some row → u64_field row "sequence" (N.of_nat (n + i)).
Proof.
  revert n events. induction rows as [|row rows IH]; intros n events; simpl.
  - intros [= <-]. split; [done|]. by intros i r.
  - intros (e & He%row_event_sequence & Hr)%res_bind_Ok. apply res_bind_Ok in Hr as (es & Hes & [= <-]).
    apply IH in Hes as [Hl Hi]. split; [simpl; by rewrite Hl|].
    intros [|i] r Hr; simpl in Hr; [injection Hr as <-; by rewrite Nat.add_0_r|].
    apply Hi in Hr. by rewrite Nat.add_succ_r.
Qed.

Lemma tool_rows_sequence raw rows events : tool_rows raw = Ok (rows, events) →
  length events = length rows ∧ ∀ i row, rows !! i = Some row → u64_field row "sequence" (N.of_nat i).
Proof.
  unfold tool_rows. intros (b & _ & Hr)%res_bind_Ok. apply res_bind_require in Hr as [_ Hr].
  apply res_bind_Ok in Hr as (rs & _ & Hr). apply res_bind_Ok in Hr as (es & Hes & [= -> ->]).
  by apply row_events_sequence in Hes.
Qed.

Lemma last_removelast_app (events : list string) t :
  default "" (last events) = t → t ≠ "" → events = removelast events ++ [t].
Proof.
  intros Hl Ht. destruct (last events) as [x|] eqn:E; simpl in Hl; [|done]. subst.
  by apply last_snoc_removelast.
Qed.

Lemma passing_events name events t :
  events_valid name 0 events = Ok t → t = "complete" ∧ events = event_order name ++ ["complete"].
Proof.
  unfold events_valid. intros [Hv Hr]%res_bind_require. apply res_bind_require in Hr as [Hc Hr].
  apply res_bind_require in Hr as [Hn [= Ht]]. bools.
  destruct Hn as [Hn|Hn]; [|done]. destruct Hv as [[Hv|Hv] _]; [|done]. destruct Hc as [Hc|Hc]; [done|].
  split; [congruence|]. rewrite <- Hc. by apply last_removelast_app.
Qed.

(** The place of an event in the record of a completed run. *)
Lemma event_place name i e : event_order name !! i = Some e →
  list_find (λ x, x = e) (event_order name ++ ["complete"]) = Some (i, e).
Proof.
  unfold event_order. destruct (String.eqb name "doctor"); intros Hi;
    do 9 (destruct i as [|i]; [simpl in Hi; first [done | injection Hi as <-; by vm_compute]|]);
    simpl in Hi; by destruct i.
Qed.

Lemma event_row_at name rows i e :
  length (event_order name ++ ["complete"]) = length rows → event_order name !! i = Some e →
  ∃ row, rows !! i = Some row ∧ event_row rows (event_order name ++ ["complete"]) e = Some row.
Proof.
  intros Hl Hi. apply event_place in Hi as Hp. apply lookup_lt_Some in Hi.
  destruct (lookup_lt_is_Some_2 rows i) as [row Hrow]; [rewrite <- Hl, length_app; lia|].
  exists row. split; [done|]. unfold event_row. by rewrite Hp.
Qed.

Lemma admitted_valid_row event c row : admitted_valid event c = Ok tt → event "admitted" = Some row →
  (get "sha256" row ≫= as_str) = Some (pf_sha256 PIN) ∧ u64_field row "size" (pf_size PIN) ∧
  u64_field row "seals" 15.
Proof.
  unfold admitted_valid. intros Hv He. rewrite He in Hv. apply res_bind_Ok in Hv as (b & Hb & Hv).
  apply res_bind_require in Hv as [-> _]. apply all_of_true in Hb. rewrite !Forall_cons in Hb.
  destruct Hb as (H1' & H2' & H3' & _). split; [by apply tested_str|]. split; by apply tested_u64.
Qed.

Lemma native_valid_row event row n : native_valid event = Ok n → event "terminated" = Some row →
  ∃ z s, n = Some (z, s) ∧ (get "native_returncode" row ≫= as_i64) = Some z ∧ u64_field row "exit_status" s ∧
    ((if (0 <=? z)%Z then Some z else checked_sub_i64 128 z) ≫= u64_of_i64) = Some s.
Proof.
  unfold native_valid. intros Hv He. rewrite He in Hv. apply res_bind_Ok in Hv as (v & Hg%obs_field_Ok & Hv).
  apply res_bind_Ok in Hv as (z & Hz%ok_or_Ok & Hv). apply res_bind_Ok in Hv as (w & Hw%obs_field_Ok & Hv).
  apply res_bind_Ok in Hv as (s & [Hs _]%ok_or_Ok%filtered_Some & Hv).
  apply res_bind_require in Hv as [Hv [= <-]]. exists z, s. split; [done|].
  unfold u64_field. rewrite Hg, Hw. split; [done|]. split; [done|].
  eapply option_eqb_Some; [apply N.eqb_eq|done].
Qed.

Lemma native_zero z :
  ((if (0 <=? z)%Z then Some z else checked_sub_i64 128 z) ≫= u64_of_i64) = Some 0 → z = 0%Z.
Proof.
  unfold checked_sub_i64, u64_of_i64. destruct (0 <=? z)%Z eqn:E; simpl.
  - rewrite E. intros [= ?]. lia.
  - destruct (_ && _); simpl; [|done]. destruct (0 <=? 128 - z)%Z eqn:E'; [|done]. intros [= ?]. lia.
Qed.

Lemma trim_ascii_end_prefix b : b = trim_ascii_end b ++ drop (length (trim_ascii_end b)) b.
Proof.
  induction b as [|x b IH]; simpl; [done|].
  destruct (trim_ascii_end b) as [|y c] eqn:E; simpl in *; [by destruct (is_ascii_whitespace x)|].
  by rewrite <- IH.
Qed.

Lemma version_valid_text inv path event :
  version_valid inv path event = Ok tt →
  ∃ stdout, inv_get inv (path +:+ ".stdout") = Ok stdout ∧ version_text stdout ∧
    inv_get inv (path +:+ ".stderr") = Ok [].
Proof.
  unfold version_valid. intros (row & _ & Hv)%res_bind_Ok. apply res_bind_Ok in Hv as (stdout & _ & Hv).
  apply res_bind_Ok in Hv as (stderr & _ & Hv). apply require_all in Hv. rewrite !Forall_cons in Hv.
  destruct Hv as ((b & Hb & [= Hs%bool_decide_eq_true])%res_bind_Ok &
    (c & Hc & [= Hs'%bool_decide_eq_true])%res_bind_Ok & [= Ht] & _). subst b c.
  apply andb_true_iff in Ht as [[Ht%bool_decide_eq_true Hcr]%andb_true_iff ->%bool_decide_eq_true].
  exists stdout. split; [done|]. split; [|done]. exists (drop (length (trim_ascii_end stdout)) stdout).
  assert (pf_version PIN = trim_ascii_end stdout) as -> by done.
  split; [apply trim_ascii_end_prefix|]. apply Forall_forall. intros x Hx.
  rewrite forallb_forall in Hcr. apply list_elem_of_In, Hcr in Hx.
  apply orb_true_iff in Hx as [Hx|Hx]; [left|right]; by apply Byte.byte_dec_bl.
Qed.

Lemma request_valid_row run path name argv row c : request_valid run path name argv row = Ok c →
  (∃ v, get "argv" row = Some v ∧ json_eqb v (jstrs argv) = true) ∧
  (∃ v, get "record_path" row = Some v ∧ json_eqb v (VString (run +:+ "/" +:+ path)) = true).
Proof.
  unfold request_valid, request_expectation. intros [Hf%try_for_Ok _]%res_bind_unit_any.
  rewrite !Forall_cons in Hf. destruct Hf as (Ha & _ & _ & _ & _ & _ & Hr & _). simpl in Ha, Hr.
  apply res_bind_Ok in Ha as (v & Hv%obs_field_Ok & Hj%audit_require_Ok).
  apply res_bind_Ok in Hr as (w & Hw%obs_field_Ok & Hj'%audit_require_Ok). split; eauto.
Qed.

(** A record accepted with exit status zero is that of one complete run: exactly the
    events of a run, each once, in order and numbered; of the pinned scanner, sealed,
    asked for these arguments; whose process itself ended with zero and, for the
    doctor, printed exactly the pinned version and nothing else. *)
Lemma passing_record inv run name argv v :
  validate_tool inv run name argv 0 = Ok v →
  ∃ raw rows, inv_get inv (name +:+ ".tool.jsonl") = Ok raw ∧
    tool_rows raw = Ok (rows, event_order name ++ ["complete"]) ∧ passing_run inv run name argv rows.
Proof.
  unfold validate_tool. intros (raw & Hraw & Hv)%res_bind_Ok.
  apply res_bind_Ok in Hv as ([rows events] & Hrows & Hv).
  apply res_bind_Ok in Hv as (t & [-> ->]%passing_events & Hv).
  apply res_bind_Ok in Hv as (req & Hreq%ok_or_Ok & Hv).
  apply res_bind_Ok in Hv as (c & Hc%request_valid_row & Hv).
  apply res_bind_unit_any in Hv as [Hadm Hv]. apply res_bind_unit_any in Hv as [_ Hv].
  apply res_bind_unit_any in Hv as [_ Hv]. apply res_bind_Ok in Hv as (native & Hnat & Hv).
  apply res_bind_Ok in Hv as (final & _ & Hv). apply res_bind_unit_any in Hv as [Hlast Hv].
  apply res_bind_unit_any in Hv as [Hver _].
  exists raw, rows. split; [done|]. split; [done|]. apply tool_rows_sequence in Hrows as [Hlen Hseq].
  destruct (event_row_at name rows 3 "admitted" Hlen) as (arow & Ha & Hea); [done|].
  destruct (event_row_at name rows 6 "terminated" Hlen) as (nrow & Hn & Hen); [done|].
  destruct (native_valid_row _ _ _ Hnat Hen) as (z & s & -> & Hz & Hs & Hzs).
  unfold last_valid in Hlast. apply res_bind_Ok in Hlast as (lv & _ & Hlast).
  apply res_bind_unit_any in Hlast as [_ Hlast]. simpl in Hlast.
  apply audit_require_Ok, bool_decide_eq_true in Hlast. injection Hlast as ->.
  apply native_zero in Hzs as ->. split.
  - done.
  - exists req. by destruct rows; [|injection Hreq as ->].
  - exists arow. split; [done|]. by eapply admitted_valid_row.
  - by exists nrow.
  - intros ->. simpl in Hver. by apply version_valid_text in Hver.
Qed.

End Record.
