(* ===== verification/AuditAgreement.v ===== *)
(** The record that the scanner's run of AuditTool leaves is one that the validator of
    AuditRecord accepts for the run's exit status.

    [at_trace] relates the file of the record to the list of its events, every append
    of which succeeded; [unrecorded] is a run one of whose appends did not; [ensures]
    is a triple with a postcondition for each outcome of a step. *)

From S2P Require Import Prelude Decimal StrictJson AuditJson Protocol AuditPolicy AuditInventory AuditTool AuditRecord.

Section Agreement.
Context `{PolicyCrates float, ToolCrates float}.
Abbreviation Json := (Value float).
Abbreviation Trace := (list (string * list (string * Json))).

Context (env : tool_env) (request : Request).

(** ** Events and rows *)

Definition time_at (i : nat) : N := default 0 (res_ok (te_time env i)).

Definition trace_row (i : nat) (e : string * list (string * Json)) : Json :=
  record_row (N.of_nat i) (time_at i) (fst e) (snd e).
Definition trace_rows (tr : Trace) : list Json := imap trace_row tr.

Definition row_line (row : Json) : bytes := json_to_vec row ++ [newline].
Definition trace_file (tr : Trace) : bytes := concat (map row_line (trace_rows tr)).

(** What the rows of a run say. *)
Record facts : Type := {
  fa_identity : Identity;
  fa_ancestors : list Ancestor;
  fa_sha256 : string;
  fa_copied : N;
  fa_executable : Identity;
  fa_keys : list string;
  fa_fd : N;
  fa_pid : N;
  fa_raw : Z;
  fa_stdout : bytes;
  fa_stderr : bytes
}.

Definition exit_of (raw : Z) : Z := (if (raw <? 0) then 128 - raw else raw)%Z.

Definition is_version : bool := bool_decide (rq_argv request = ["--version"]).
Definition ancestors_json (l : list Ancestor) : Json := VArray (map ancestor_json l).

Definition request_event : string * list (string * Json) := ("request", request_fields request PIN).
Definition opened_event (f : facts) : string * list (string * Json) :=
  ("candidate_opened", [("path", VString (rq_candidate request)); ("identity", identity_json (fa_identity f));
    ("ancestor_identities", ancestors_json (fa_ancestors f))]).
Definition read_event (f : facts) : string * list (string * Json) :=
  ("candidate_read", [("path", VString (rq_candidate request)); ("identity", identity_json (fa_identity f));
    ("ancestor_identities", ancestors_json (fa_ancestors f)); ("sha256", VString (fa_sha256 f));
    ("copied_bytes", jnum (fa_copied f))]).
Definition admitted_event (f : facts) : string * list (string * Json) :=
  ("admitted", [("sha256", VString (fa_sha256 f)); ("size", jnum (fa_copied f)); ("seals", jnum SEALS);
    ("executable_identity", identity_json (fa_executable f))]).
Definition launch_event (f : facts) : string * list (string * Json) :=
  ("launch_intent", [("argv", jstrs ("jankurai" :: rq_argv request));
    ("executable", VString (proc_fd (fa_fd f))); ("inherited_environment_keys", jstrs (fa_keys f));
    ("update_check", VString "disabled_by_JANKURAI_NO_UPDATE_CHECK_1");
    ("inherited_fds", VArray (map jnum (if is_version then [0] else [0; 1; 2])));
    ("passed_executable_fd", jnum (fa_fd f));
    ("streams", VString (if is_version then "retained" else "caller_owned"));
    ("limitations", VString EXECUTION_LIMITS)]).
Definition started_event (f : facts) : string * list (string * Json) := ("started", [("pid", jnum (fa_pid f))]).
Definition terminated_event (f : facts) : string * list (string * Json) :=
  ("terminated", [("native_returncode", jint (fa_raw f)); ("exit_status", jint (exit_of (fa_raw f)))]).
Definition version_event (f : facts) : string * list (string * Json) :=
  ("version_output", [("stdout_base64", VString (base64_encode (fa_stdout f)));
    ("stderr_base64", VString (base64_encode (fa_stderr f)))]).

(** The events of a whole run, before its last one. *)
Definition full_trace (f : facts) : Trace :=
  [request_event; opened_event f; read_event f; admitted_event f; launch_event f; started_event f;
   terminated_event f] ++ (if is_version then [version_event f] else []).

Definition raw_ok (raw : Z) : Prop := (-127 <= raw <= 255)%Z.

(** The first [k] events of a run that [native] is the outcome of. *)
Definition honest (k : nat) (f : facts) (native : option Z) : Prop :=
  (1 ≤ k ≤ length (full_trace f))%nat ∧
  ((4 ≤ k)%nat → fa_sha256 f = pf_sha256 PIN ∧ fa_copied f = pf_size PIN) ∧
  ((5 ≤ k)%nat → 3 ≤ fa_fd f) ∧
  ((6 ≤ k)%nat → 0 < fa_pid f) ∧
  native = (if decide (7 ≤ k)%nat then Some (exit_of (fa_raw f)) else None) ∧
  ((7 ≤ k)%nat → raw_ok (fa_raw f)).

(** ** The state after some events *)

(** An append that read the clock, wrote its whole row and synced it; every one that was
    attempted did. *)
Definition appended (n : nat) : Prop := te_append env n = Appended ∧ is_ok (te_time env n) = true.
Definition recorded (s : tool_state) : Prop := ∀ n, (n < ts_attempts s)%nat → appended n.

Definition at_trace (tr : Trace) (native : option Z) (stdout stderr : bytes) (s : tool_state) : Prop :=
  recorded s ∧ ts_file s = trace_file tr ∧ ts_sequence s = N.of_nat (length tr) ∧
  ts_attempts s = length tr ∧ ts_native s = native ∧ ts_stdout s = stdout ∧ ts_stderr s = stderr.

(** A run whose record could not be written. *)
Definition unrecorded (s : tool_state) : Prop :=
  (∃ n, (n < ts_attempts s)%nat ∧ ¬ appended n) ∧ ∀ z, ts_native s = Some z → (0 <= z <= 255)%Z.

(** A run cut short, by a refusal or by its record, and a run that came to its end. *)
Definition stopped (s : tool_state) : Prop :=
  (∃ k f native stdout stderr, honest k f native ∧ at_trace (take k (full_trace f)) native stdout stderr s) ∨
  unrecorded s.

(** What a run of the version has printed. *)
Definition version_seen (f : facts) (stdout stderr : bytes) : Prop :=
  is_version = true → stdout = fa_stdout f ∧ stderr = fa_stderr f ∧
    (exit_of (fa_raw f) = 0%Z → trim_crlf stdout = pf_version PIN ∧ stderr = []).

Definition finished (status : Z) (f : facts) (last : Trace) (s : tool_state) : Prop :=
  status = exit_of (fa_raw f) ∧ honest (length (full_trace f)) f (Some status) ∧
  ∃ stdout stderr, at_trace (full_trace f ++ last) (Some status) stdout stderr s ∧
    version_seen f stdout stderr.

(** How a run is settled. *)
Definition complete_event (status : Z) : string * list (string * Json) :=
  ("complete", [("exit_status", jint status)]).
Definition refused_event (reason : string) (native : option Z) (status : Z) : string * list (string * Json) :=
  ("refused", [("reason", VString reason); ("native_status", jopt native); ("exit_status", jint status)]).
Definition refusal_status (native : option Z) : Z :=
  default 75%Z (filtered (λ z, negb (z =? 0)%Z) native).

Definition settled (status : Z) (s : tool_state) : Prop :=
  (∃ f, finished status f [complete_event status] s) ∨
  (∃ k f native reason stdout stderr, honest k f native ∧ status = refusal_status native ∧
    at_trace (take k (full_trace f) ++ [refused_event reason native status]) native stdout stderr s) ∨
  ((0 < status <= 255)%Z ∧ unrecorded s).

Definition ensures {A} (P : tool_state → Prop) (m : Tool A) (Q : A → tool_state → Prop) : Prop :=
  ∀ s, P s → match m s with (Ok a, s') => Q a s' | (Err _, s') => stopped s' end.

(** What the kernel grants, whatever else happens: the clock's nanoseconds have at most
    twenty-four digits; descriptors 0 to 2 are taken, so a duplicate is at least 3;
    process ids are positive; and statuses are those of [waitpid]. *)
Definition status_ok (st : exit_status) : Prop :=
  match es_code st, es_signal st with
  | Some code, _ => (0 <= code <= 255)%Z
  | None, Some signal => (1 <= signal <= 127)%Z
  | None, None => True
  end.

Record lawful : Prop := {
  lw_time n t : te_time env n = Ok t → slen (u64_to_string t) <= 24;
  lw_dup fd : te_dup env = Ok fd → 3 <= fd;
  lw_spawn pid : te_spawn env = Ok pid → 0 < pid;
  lw_wait st : te_wait env = Ok st → status_ok st;
  lw_looks l st : l ∈ te_looks env → lk_wait l = Ok (Some st) → status_ok st
}.
Context (Hlaw : lawful).

(** ** Steps *)

Lemma ensures_bind {A B} P (m : Tool A) R (k : A → Tool B) Q :
  ensures P m R → (∀ a, ensures (R a) (k a) Q) → ensures P (tbind m k) Q.
Proof.
  intros Hm Hk s Hs. specialize (Hm s Hs). unfold tbind. destruct (m s) as [[a|e] s']; [|done].
  by apply (Hk a s').
Qed.

Lemma ensures_lift {A B} P (r : result A string) (k : A → Tool B) Q :
  (∀ s, P s → stopped s) → (∀ a, r = Ok a → ensures P (k a) Q) → ensures P (tbind (lift r) k) Q.
Proof.
  intros Hp Hk s Hs. unfold tbind, lift. destruct r as [a|e]; [by apply (Hk a)|by apply Hp].
Qed.

Lemma ensures_ret {A} (P : tool_state → Prop) (a : A) (Q : A → tool_state → Prop) :
  (∀ s, P s → Q a s) → ensures P (tret a) Q.
Proof. intros Hq s Hs. by apply Hq. Qed.

Lemma ensures_mono {A} (P P' : tool_state → Prop) (m : Tool A) Q :
  (∀ s, P s → P' s) → ensures P' m Q → ensures P m Q.
Proof. intros Hp Hm s Hs. by apply Hm, Hp. Qed.

Lemma trace_rows_snoc tr e : trace_rows (tr ++ [e]) = trace_rows tr ++ [trace_row (length tr) e].
Proof. unfold trace_rows. rewrite imap_app. simpl. by rewrite Nat.add_0_r. Qed.

Definition native_in_range (native : option Z) : Prop := ∀ z, native = Some z → (0 <= z <= 255)%Z.

(** An append adds its event, or leaves the run unrecorded. *)
Lemma append_at tr native out err ev f s : at_trace tr native out err s → native_in_range native →
  match append env ev f s with
  | (Ok _, s') => at_trace (tr ++ [(ev, f)]) native out err s'
  | (Err _, s') => unrecorded s'
  end.
Proof.
  intros (Hw & Hf & Hq & Ha & Hn & Ho & He) Hr.
  assert (∀ file q, ¬ appended (ts_attempts s) → unrecorded (set_record file q s)) as Hfail.
  { intros file q Hna. split; [exists (ts_attempts s); split; [simpl; lia|done]|]. simpl. by rewrite Hn. }
  unfold append. destruct (te_time env (ts_attempts s)) as [t|e] eqn:Ht; simpl.
  2: { apply Hfail. intros [_ Hok]. by rewrite Ht in Hok. }
  destruct (te_append env (ts_attempts s)) eqn:Hk; simpl; [|apply Hfail; intros [Hok _]; congruence..].
  split_and!; try done; simpl.
  - intros n Hlt. simpl in Hlt. destruct (decide (n = ts_attempts s)) as [->|Hne]; [|apply Hw; lia].
    split; [done|by rewrite Ht].
  - unfold trace_file. rewrite trace_rows_snoc, map_app, concat_app, Hf, Hq. simpl.
    unfold trace_row, time_at. rewrite <- Ha, Ht, app_nil_r. done.
  - rewrite Hq, length_app. simpl. lia.
  - rewrite Ha, length_app. simpl. lia.
Qed.

Lemma exit_bounds raw : raw_ok raw → (0 <= exit_of raw <= 255)%Z.
Proof. unfold raw_ok, exit_of. destruct (raw <? 0)%Z eqn:E; lia. Qed.

Lemma exit_in_range raw : raw_ok raw → native_in_range (Some (exit_of raw)).
Proof. by intros Hr%exit_bounds z [= <-]. Qed.
Lemma none_in_range : native_in_range None.
Proof. by intros z. Qed.
#[local] Hint Resolve exit_in_range none_in_range : core.

Lemma ensures_append {B} tr tr' native out err ev f (k : unit → Tool B) Q :
  native_in_range native → tr ++ [(ev, f)] = tr' → ensures (at_trace tr' native out err) (k tt) Q →
  ensures (at_trace tr native out err) (tbind (append env ev f) k) Q.
Proof.
  intros Hr <- Hk s Hs. apply (append_at _ _ _ _ ev f) in Hs; [|done]. unfold tbind.
  destruct (append env ev f s) as [[[]|e] s']; [by apply Hk|by right].
Qed.

(** A run may stop after any of its events. *)
Lemma stop_at k f native out err s :
  honest k f native → at_trace (take k (full_trace f)) native out err s → stopped s.
Proof. intros Hh Ha. left. by exists k, f, native, out, err. Qed.

Lemma length_full f : length (full_trace f) = (if is_version then 8 else 7)%nat.
Proof. unfold full_trace. rewrite length_app. by destruct is_version. Qed.

(** The facts known after the admission, the launch, the start and the end of the child. *)
Definition id0 : Identity := {|
  id_device := ""; id_inode := ""; id_mode := 0; id_uid := 0; id_gid := 0; id_size := 0; id_links := 0;
  id_mtime_ns := ""; id_ctime_ns := "" |}.
Definition known (i : Identity) (l : list Ancestor) (sha : string) (n : N) (x : Identity)
    (keys : list string) (fd pid : N) (raw : Z) : facts := {|
  fa_identity := i; fa_ancestors := l; fa_sha256 := sha; fa_copied := n; fa_executable := x;
  fa_keys := keys; fa_fd := fd; fa_pid := pid; fa_raw := raw; fa_stdout := []; fa_stderr := [] |}.
Definition with_output (out err : bytes) (f : facts) : facts := {|
  fa_identity := fa_identity f; fa_ancestors := fa_ancestors f; fa_sha256 := fa_sha256 f;
  fa_copied := fa_copied f; fa_executable := fa_executable f; fa_keys := fa_keys f; fa_fd := fa_fd f;
  fa_pid := fa_pid f; fa_raw := fa_raw f; fa_stdout := out; fa_stderr := err |}.

(** [honest], with only what the prefix has to satisfy. *)
Lemma honest_prefix k f :
  (1 ≤ k ≤ 6)%nat →
  ((4 ≤ k)%nat → fa_sha256 f = pf_sha256 PIN ∧ fa_copied f = pf_size PIN) →
  ((5 ≤ k)%nat → 3 ≤ fa_fd f) → ((6 ≤ k)%nat → 0 < fa_pid f) → honest k f None.
Proof.
  intros Hk H4 H5 H6. unfold honest. rewrite length_full. split; [destruct is_version; lia|].
  split; [done|]. split; [done|]. split; [done|]. case_decide; [lia|]. split; [done|lia].
Qed.

Ltac stops k f :=
  intros ? ?; eapply (stop_at k f); [|eassumption]; apply honest_prefix; simpl; try lia; auto.

(** ** The admission *)

Lemma admit_ensures :
  ensures (at_trace [request_event] None [] []) (admit_candidate env (rq_candidate request) PIN)
    (λ _ s, ∃ i l x, at_trace (take 4 (full_trace
      (known i l (pf_sha256 PIN) (pf_size PIN) x [] 0 0 0))) None [] [] s).
Proof using Hlaw.
  unfold admit_candidate. set (f0 := known id0 [] "" 0 id0 [] 0 0 0).
  apply ensures_lift; [by stops 1%nat f0|]. intros [opened lookups] _.
  apply ensures_lift; [by stops 1%nat f0|]. intros before _. cbv zeta.
  set (i := identity_of before). set (f1 := known i lookups "" 0 id0 [] 0 0 0).
  apply (ensures_append _ (take 2 (full_trace f1))); [done..|].
  apply ensures_lift; [by stops 2%nat f1|]. intros _ _.
  apply ensures_lift; [by stops 2%nat f1|]. intros _ _.
  apply ensures_lift; [by stops 2%nat f1|]. intros [copied header] _.
  set (f2 := known i lookups (sha256_hex copied) (blen copied) id0 [] 0 0 0).
  apply (ensures_append _ (take 3 (full_trace f2))); [done..|].
  apply ensures_lift; [by stops 3%nat f2|]. intros [] Hcheck.
  apply ensures_lift; [by stops 3%nat f2|]. intros readback Hseal.
  apply ensures_lift; [by stops 3%nat f2|]. intros sealed _.
  assert (sha256_hex copied = pf_sha256 PIN ∧ blen copied = pf_size PIN) as [Hs Hn].
  { unfold recheck_candidate in Hcheck. apply res_bind_Ok in Hcheck as (same & Hsame & Hcheck).
    apply res_bind_unit_any in Hcheck as [Hc Hcheck]. apply fail_if_Ok, negb_false_iff in Hc as ->.
    apply res_bind_Ok in Hcheck as ([current l] & _ & Hcheck).
    apply res_bind_Ok in Hcheck as (m & _ & Hcheck). apply res_bind_unit_any in Hcheck as [_ Hcheck].
    apply fail_if_Ok, negb_false_iff, String.eqb_eq in Hcheck. split; [done|].
    destruct (blen copied =? pf_size PIN) eqn:E; [by apply N.eqb_eq|done]. }
  assert (sha256_hex readback = pf_sha256 PIN) as Hr.
  { unfold seal_copy in Hseal. repeat (apply res_bind_unit_any in Hseal as [_ Hseal]).
    apply res_bind_Ok in Hseal as (seals & _ & Hseal).
    repeat (apply res_bind_unit_any in Hseal as [_ Hseal]).
    apply res_bind_Ok in Hseal as (r & _ & Hseal). apply res_bind_unit_any in Hseal as [Hc [= ->]].
    apply fail_if_Ok, orb_false_iff in Hc as [_ Hc]. by apply negb_false_iff, String.eqb_eq in Hc. }
  subst f2. rewrite Hs, Hn, Hr. set (x := identity_of sealed).
  apply (ensures_append _ (take 4 (full_trace (known i lookups (pf_sha256 PIN) (pf_size PIN) x [] 0 0 0))));
    [done..|].
  apply ensures_ret. intros s Ha. by exists i, lookups, x.
Qed.

(** ** The execution *)

Section Launched.
Context (i : Identity) (l : list Ancestor) (x : Identity) (keys : list string) (fd pid : N).
Context (Hfd : 3 ≤ fd) (Hpid : 0 < pid).

Definition launched (raw : Z) : facts := known i l (pf_sha256 PIN) (pf_size PIN) x keys fd pid raw.

Definition running (out err : bytes) : tool_state → Prop :=
  at_trace (take 6 (full_trace (launched 0))) None out err.
Definition ended (out err : bytes) (s : tool_state) : Prop :=
  ∃ raw, raw_ok raw ∧ at_trace (take 7 (full_trace (launched raw))) (Some (exit_of raw)) out err s.

Lemma running_stopped out err s : running out err s → stopped s.
Proof using Hfd Hpid. revert s. unfold running. by stops 6%nat (launched 0). Qed.

Lemma honest_seven raw : raw_ok raw → honest 7 (launched raw) (Some (exit_of raw)).
Proof using Hfd Hpid.
  intros Hr. unfold honest. rewrite length_full. split; [destruct is_version; lia|].
  split; [done|]. split; [done|]. split; [done|]. case_decide; [done|lia].
Qed.

Lemma ended_stopped out err s : ended out err s → stopped s.
Proof using Hfd Hpid. intros (raw & Hr & Ha). eapply stop_at; [by apply honest_seven|exact Ha]. Qed.

Lemma terminated_ensures st out err : status_ok st →
  ensures (running out err) (terminated env st) (λ _, ended out err).
Proof using Hlaw Hfd Hpid.
  intros Hst. unfold terminated. apply ensures_lift; [intros s; apply running_stopped|].
  intros raw Hraw%ok_or_Ok s (Hw & Hf & Hq & Ha & _ & Ho & He). unfold tbind.
  assert (raw_ok raw) as Hok.
  { unfold status_ok, raw_ok in *. destruct (es_code st), (es_signal st); simpl in *; simplify_eq; lia. }
  assert (at_trace (take 6 (full_trace (launched 0))) (Some (exit_of raw)) out err (set_native (exit_of raw) s))
    as Hat by by split_and!.
  apply (append_at _ _ _ _ "terminated" [("native_returncode", jint raw); ("exit_status", jint (exit_of raw))])
    in Hat; [|by auto].
  fold (exit_of raw). destruct (append env _ _ (set_native (exit_of raw) s)) as [[[]|e] s']; [|by right].
  by exists raw.
Qed.

Definition seen (observed : bool) (out err : bytes) (s : tool_state) : Prop :=
  if observed then ended out err s else running out err s.

Lemma seen_stopped observed out err s : seen observed out err s → stopped s.
Proof using Hfd Hpid. destruct observed; [apply ended_stopped|apply running_stopped]. Qed.

Lemma observe_ensures wait observed out err :
  (∀ st, wait = Ok (Some st) → status_ok st) →
  ensures (seen observed out err) (observe env wait observed) (λ observed, seen observed out err).
Proof using Hlaw Hfd Hpid.
  intros Hw. unfold observe. destruct observed; [by apply ensures_ret|].
  apply ensures_lift; [intros s; apply running_stopped|]. intros [st|] Hst; [|by apply ensures_ret].
  eapply ensures_bind; [apply terminated_ensures, Hw|].
  - unfold io in Hst. destruct wait as [o|e]; simpl in Hst; [by injection Hst as ->|done].
  - intros []. by apply ensures_ret.
Qed.

Lemma seen_streams observed out err out' err' s :
  seen observed out err s → seen observed out' err' (set_streams out' err' s).
Proof.
  destruct observed; simpl.
  - intros (raw & Hr & Hw & Hf & Hq & Ha & Hn & _). exists raw. split; [done|]. by split_and!.
  - intros (Hw & Hf & Hq & Ha & Hn & _). by split_and!.
Qed.

Lemma pump_file c r c' file : pump c r = (Ok c', file) → file = cp_bytes c'.
Proof.
  unfold pump. destruct (cp_eof c); [by intros [= <- <-]|]. destruct r as [b e| | |e]; try by intros [= <- <-].
  destruct (take _ b) as [|y b'], e as [e|]; try done; try by intros [= <- <-].
  destruct (VERSION_BYTES <? _); [done|]. by intros [= <- <-].
Qed.

Lemma set_streams_twice a b c d s : set_streams c d (set_streams a b s) = set_streams c d s.
Proof. done. Qed.

Lemma pump_both_ensures observed stdout stderr lk :
  ensures (seen observed (cp_bytes stdout) (cp_bytes stderr)) (pump_both stdout stderr lk)
    (λ '(stdout, stderr), seen observed (cp_bytes stdout) (cp_bytes stderr)).
Proof using Hfd Hpid.
  intros s Hs. unfold pump_both. destruct (pump stdout (lk_stdout lk)) as [[so|e] file] eqn:Eo.
  2: { by eapply seen_stopped, seen_streams. }
  destruct (pump stderr (lk_stderr lk)) as [[se|e] file'] eqn:Ee; simpl; rewrite set_streams_twice.
  2: { by eapply seen_stopped, seen_streams. }
  apply pump_file in Eo, Ee. subst. by eapply seen_streams.
Qed.

Lemma capture_loop_ensures looks observed stdout stderr :
  (∀ lk st, lk ∈ looks → lk_wait lk = Ok (Some st) → status_ok st) →
  ensures (seen observed (cp_bytes stdout) (cp_bytes stderr)) (capture_loop env looks observed stdout stderr)
    (λ '(out, err), ended out err).
Proof using Hlaw Hfd Hpid.
  revert observed stdout stderr. induction looks as [|lk looks IH]; intros observed stdout stderr Hw; simpl.
  - intros s Hs. by eapply seen_stopped.
  - eapply ensures_bind; [apply observe_ensures; intros st; apply Hw; by left|]. intros observed'.
    eapply ensures_bind; [apply pump_both_ensures|]. intros [so se].
    intros s Hs. unfold tbind, native_known. destruct (bool_decide (is_Some (ts_native s))) eqn:Ek; simpl.
    + destruct (cp_eof so && cp_eof se) eqn:Ee; simpl.
      * apply bool_decide_eq_true in Ek as [z Hz]. destruct observed'; [exact Hs|].
        destruct Hs as (_ & _ & _ & _ & Hn & _). congruence.
      * destruct (lk_expired lk); [by eapply seen_stopped|]. apply IH; [|done].
        intros lk' st Hin. apply Hw. by right.
    + destruct (lk_expired lk); [by eapply seen_stopped|]. apply IH; [|done].
      intros lk' st Hin. apply Hw. by right.
Qed.

Lemma honest_eight raw out err : is_version = true → raw_ok raw →
  honest (length (full_trace (with_output out err (launched raw)))) (with_output out err (launched raw))
    (Some (exit_of raw)).
Proof using Hfd Hpid.
  intros Hv Hr. unfold honest. rewrite length_full, Hv. split; [lia|]. split; [done|].
  split; [done|]. split; [done|]. case_decide; [done|lia].
Qed.

Lemma version_ensures : is_version = true →
  ensures (running [] []) (version_run env PIN) (λ _ s, ∃ status f, finished status f [] s).
Proof using Hlaw Hfd Hpid.
  intros Hv. unfold version_run. do 4 (apply ensures_lift; [intros s; apply running_stopped|intros _ _]).
  eapply ensures_bind.
  { apply (capture_loop_ensures (te_looks env) false capture_new capture_new). apply Hlaw. }
  intros [out err] s (raw & Hr & Hs). revert s Hs.
  set (f := with_output out err (launched raw)).
  assert (take 7 (full_trace (launched raw)) ++ [version_event f] = full_trace f) as Ht.
  { unfold full_trace. by rewrite Hv. }
  refine (ensures_append _ _ _ _ _ _ _ _ _ _ Ht _); [by auto|]. clear Ht.
  assert (∀ s, at_trace (full_trace f) (Some (exit_of raw)) out err s → stopped s) as Hstop.
  { intros s Hs. eapply stop_at; [by apply honest_eight|]. by rewrite firstn_all. }
  apply ensures_lift; [done|]. intros _ _. apply ensures_lift; [done|]. intros _ _.
  intros s Hs. destruct (fail_if _ _) as [[]|e] eqn:E; [|by apply Hstop].
  apply fail_if_Ok in E. exists (exit_of raw), f. split; [done|]. split; [by apply honest_eight|].
  exists out, err. rewrite app_nil_r. split; [done|]. intros _. split; [done|]. split; [done|].
  intros Hz. destruct Hs as (_ & _ & _ & _ & Hn & _). simpl in Hz. rewrite Hn, Hz in E.
  rewrite bool_decide_eq_true_2 in E by done. simpl in E.
  apply orb_false_iff in E as [E1%negb_false_iff%bool_decide_eq_true E2%negb_false_iff%bool_decide_eq_true].
  done.
Qed.

Lemma wait_ensures : is_version = false →
  ensures (running [] []) (let! status := lift (io (te_wait env)) in terminated env status)
    (λ _ s, ∃ status f, finished status f [] s).
Proof using Hlaw Hfd Hpid.
  intros Hv. apply ensures_lift; [intros s; apply running_stopped|]. intros st Hst.
  intros s Hs. apply (terminated_ensures st) in Hs.
  2: { apply (lw_wait Hlaw). unfold io in Hst. destruct (te_wait env); simpl in Hst; [by injection Hst as ->|done]. }
  destruct (terminated env st s) as [[[]|e] s']; [|done]. destruct Hs as (raw & Hr & Hs).
  assert (full_trace (launched raw) = take 7 (full_trace (launched raw))) as Ht.
  { unfold full_trace. by rewrite Hv. }
  exists (exit_of raw), (launched raw). split; [done|]. split.
  - rewrite length_full, Hv. by apply honest_seven.
  - exists [], []. rewrite app_nil_r, Ht. split; [done|]. unfold version_seen. by rewrite Hv.
Qed.
End Launched.

Lemma run_ensures i l x :
  ensures (at_trace (take 4 (full_trace (known i l (pf_sha256 PIN) (pf_size PIN) x [] 0 0 0))) None [] [])
    (run env (rq_argv request) PIN) (λ status s, ∃ f, finished status f [] s).
Proof using Hlaw.
  unfold run. fold is_version. unfold run_inner.
  set (f4 := known i l (pf_sha256 PIN) (pf_size PIN) x [] 0 0 0).
  apply ensures_lift; [by stops 4%nat f4|]. intros [child keys] _.
  apply ensures_lift; [by stops 4%nat f4|]. intros _ _.
  apply ensures_lift; [by stops 4%nat f4|]. intros fd Hfd.
  assert (3 ≤ fd) as Hfd3.
  { apply (lw_dup Hlaw). unfold io in Hfd. destruct (te_dup env); simpl in Hfd; [by injection Hfd as ->|done]. }
  set (f5 := known i l (pf_sha256 PIN) (pf_size PIN) x keys fd 0 0).
  apply (ensures_append _ (take 5 (full_trace f5))); [done..|].
  apply ensures_lift; [by stops 5%nat f5|]. intros _ _.
  apply ensures_lift; [by stops 5%nat f5|]. intros pid Hpid.
  assert (0 < pid) as Hpid0.
  { apply (lw_spawn Hlaw). unfold io in Hpid. destruct (te_spawn env); simpl in Hpid; [by injection Hpid as ->|done]. }
  apply (ensures_append _ (take 6 (full_trace (launched i l x keys fd pid 0)))); [done..|].
  eapply ensures_bind.
  { destruct is_version eqn:Hv; [by apply version_ensures|by apply wait_ensures]. }
  intros [] s (status & f & Hf). pose proof Hf as (_ & _ & out & err & (_ & _ & _ & _ & Hn & _) & _).
  rewrite Hn. simpl. by exists f.
Qed.

Lemma honest_native k f native z : honest k f native → native = Some z → (0 <= z <= 255)%Z.
Proof.
  intros (_ & _ & _ & _ & -> & H7) Hz. case_decide; [|done]. injection Hz as <-. apply exit_bounds, H7. lia.
Qed.

Lemma refusal_range native : native_in_range native → (0 < refusal_status native <= 255)%Z.
Proof.
  intros Hn. unfold refusal_status. destruct native as [z|]; simpl; [|lia].
  specialize (Hn z eq_refl). unfold filtered. simpl.
  destruct (negb (z =? 0)%Z) eqn:E; simpl; [|lia]. apply negb_true_iff, Z.eqb_neq in E. lia.
Qed.

Lemma finished_raw status f last s : finished status f last s → raw_ok (fa_raw f).
Proof.
  intros (_ & (Hk & _ & _ & _ & _ & H7) & _). apply H7. rewrite length_full. destruct is_version; lia.
Qed.

Lemma finished_range status f last s : finished status f last s → (0 <= status <= 255)%Z.
Proof. intros Hf. pose proof (finished_raw _ _ _ _ Hf) as Hr. destruct Hf as (-> & _). by apply exit_bounds. Qed.

Lemma unrecorded_append ev f s : unrecorded s → unrecorded (snd (append env ev f s)).
Proof.
  intros [(n & Hn & Hna) Hr].
  assert (∀ file q, unrecorded (set_record file q s)) as Hu.
  { intros file q. split; [|done]. exists n. split; [simpl; lia|done]. }
  unfold append. destruct (io _); [|apply Hu]. destruct (te_append env _); apply Hu.
Qed.

Lemma finished_stopped status f s : finished status f [] s → stopped s.
Proof.
  intros (_ & Hh & out & err & Ha & _). eapply stop_at; [exact Hh|].
  rewrite app_nil_r in Ha. by rewrite firstn_all.
Qed.

Lemma invocation_ensures :
  ensures (at_trace [] None [] []) (invocation_run env request PIN)
    (λ status s, ∃ f, finished status f [complete_event status] s).
Proof using Hlaw.
  unfold invocation_run. set (f0 := known id0 [] "" 0 id0 [] 0 0 0).
  apply (ensures_append _ (take 1 (full_trace f0))); [done..|].
  apply ensures_lift; [by stops 1%nat f0|]. intros _ _.
  eapply ensures_bind; [apply admit_ensures|]. intros _ s (i & l & x & Hs). revert s Hs.
  eapply ensures_bind; [apply run_ensures|]. intros status s (f & Hf). pose proof (finished_range _ _ _ _ Hf) as Hr.
  destruct Hf as (Hst & Hh & out & err & Ha & Hv). rewrite app_nil_r in Ha.
  apply (append_at _ _ _ _ "complete" [("exit_status", jint status)]) in Ha; [|by intros z [= <-]].
  unfold tbind. destruct (append env _ _ s) as [[[]|e] s']; simpl; [|by right].
  exists f. split; [done|]. split; [done|]. by exists out, err.
Qed.

(** A refusal is settled, whether or not its row could be written. *)
Lemma refusal_settled reason s : stopped s →
  settled (refusal_status (ts_native s)) (snd (settle env (Err reason) s)).
Proof.
  unfold settle. fold (refusal_status (ts_native s)). intros [(k & f & native & out & err & Hh & Ha)|Hu].
  - assert (native_in_range native) as Hn by (intros z; by eapply honest_native).
    pose proof Ha as (_ & _ & _ & _ & -> & _). pose proof (refusal_range _ Hn) as Hr.
    apply (append_at _ _ _ _ "refused" [("reason", VString reason); ("native_status", jopt native);
      ("exit_status", jint (refusal_status native))]) in Ha; [|done].
    destruct (append env _ _ s) as [[[]|e] s']; simpl; right; [left|by right].
    exists k, f, native, reason, out, err. by split_and!.
  - right. right. pose proof Hu as [_ Hn]. split; [by apply refusal_range|].
    by apply unrecorded_append.
Qed.

(** Every run of the scanner is settled: completed, refused after some prefix of its
    events, or unrecorded. *)
Lemma invoke_settled :
  match invoke env request PIN with
  | (status, Some s) => settled status s
  | (status, None) => status = 75%Z
  end.
Proof using Hlaw.
  unfold invoke. destruct (let? _ := _ in te_new env) as [[]|e]; [|done].
  pose proof (invocation_ensures fresh_state) as Hi.
  specialize (Hi ltac:(split_and!; try done; intros n Hn; simpl in Hn; lia)).
  destruct (invocation_run env request PIN fresh_state) as [[status|reason] s]; simpl in Hi |- *; [by left|].
  apply (refusal_settled reason) in Hi. unfold settle in *. simpl in *. done.
Qed.

(** ** Reading the file back *)

Lemma strip_last_snoc c b : strip_last c (b ++ [c]) = Some b.
Proof.
  induction b as [|x b IH]; simpl.
  - destruct (Byte.eqb c c) eqn:E; [done|]. by rewrite Byte.byte_dec_lb in E.
  - rewrite IH. by destruct b.
Qed.

Lemma split_lines_app p b : newline ∉ p →
  split_lines (p ++ newline :: b) = p :: split_lines b.
Proof.
  induction p as [|x p IH]; simpl; [done|]. intros [Hx Hp]%not_elem_of_cons.
  destruct (Byte.eqb x newline) eqn:E; [by apply Byte.byte_dec_bl in E|]. by rewrite IH.
Qed.

Lemma split_lines_one p : newline ∉ p → split_lines p = [p].
Proof.
  induction p as [|x p IH]; simpl; [done|]. intros [Hx Hp]%not_elem_of_cons.
  destruct (Byte.eqb x newline) eqn:E; [by apply Byte.byte_dec_bl in E|]. by rewrite IH.
Qed.

Lemma lines_read parts : parts ≠ [] → Forall (λ p, newline ∉ p) parts →
  ∃ body, strip_last newline (concat (map (λ p, p ++ [newline]) parts)) = Some body ∧
    split_lines body = parts.
Proof.
  intros Hne Hp. destruct (exists_last Hne) as (ps & p & ->). exists (concat (map (λ p, p ++ [newline]) ps) ++ p).
  rewrite map_app, concat_app. simpl. rewrite app_nil_r, app_assoc. split; [apply strip_last_snoc|].
  apply Forall_app in Hp as [Hps [Hp _]%Forall_cons]. induction Hps as [|q ps Hq Hps IH]; simpl.
  - by apply split_lines_one.
  - rewrite <- !app_assoc. simpl. rewrite split_lines_app by done. f_equal. apply IH. by destruct ps.
Qed.

(** [serde_json::Deserializer] enters at most 127 arrays and objects, one in another. *)
Definition MAX_NESTING : nat := 127.

(** [serde_json] reads what it wrote, up to the nesting at which its parser gives up,
    and writes no line feed. *)
Context (json_reads : ∀ v, canonical MAX_NESTING v → blen (json_to_vec v) <= MAX_JSON_BYTES →
  json_tokens (json_to_vec v) = Ok (to_raw v)).
Context (json_line : ∀ v, newline ∉ json_to_vec v).

Lemma canonical_deeper d d' (v : Json) : canonical d v → (d ≤ d')%nat → canonical d' v.
Proof.
  revert d d' v. fix IH 3. intros d d' [|b|[z|n|f]|s|l|m]; try done;
    (destruct d as [|d]; [done|]; destruct d' as [|d']; [lia|]); simpl.
  - intros Hl Hd. induction l as [|v l IHl]; simpl in *; [done|]. destruct Hl as [Hv Hl].
    split; [apply (IH d); [done|lia]|by apply IHl].
  - intros [Hs Hm] Hd. split; [done|]. clear Hs. induction m as [|[k v] m IHm]; simpl in *; [done|].
    destruct Hm as [Hv Hm]. split; [apply (IH d); [done|lia]|by apply IHm].
Qed.

Definition base_keys : list string := ["schema"; "sequence"; "time_ns"; "event"; "evidence_class"].
Definition good_event (e : string * list (string * Json)) : Prop :=
  Forall (λ kv, canonical 2 (snd kv) ∧ fst kv ∉ base_keys) (snd e).

Lemma decode_row row : canonical MAX_NESTING row → blen (json_to_vec row) <= MAX_JSON_BYTES →
  report_decode (json_to_vec row) = Ok row.
Proof using json_reads.
  intros Hc Hl. unfold report_decode, decode. apply N.ltb_ge in Hl as Hl'. rewrite Hl'. simpl.
  rewrite json_reads by done. simpl. by eapply checked_to_raw.
Qed.

Lemma canonical_row n t ev fields : good_event (ev, fields) → canonical 3 (record_row n t ev fields).
Proof.
  intros Hg. apply canonical_object. apply Forall_app. split; [by repeat constructor|].
  eapply Forall_impl; [exact Hg|]. by intros kv [? _].
Qed.

Lemma last_given_other k fields o : k ∉ map fst fields →
  foldl (λ o '(k', v), if String.eqb k k' then Some v else o) o fields = (o : option Json).
Proof.
  revert o. induction fields as [|[k' v] l IH]; intros o; simpl; [done|].
  intros [Hk Hl]%not_elem_of_cons. rewrite IH by done. by destruct (String.eqb_spec k k').
Qed.

Lemma get_base k n t ev (fields : list (string * Json)) : good_event (ev, fields) → k ∈ base_keys →
  get k (record_row n t ev fields) = get k (record_row n t ev ([] : list (string * Json))).
Proof.
  intros Hg Hk. unfold record_row. rewrite !get_json_object. unfold last_given. rewrite !foldl_app.
  rewrite (last_given_other k fields); [done|]. intros ([k' v] & -> & Hin)%list_elem_of_fmap.
  unfold good_event in Hg. rewrite Forall_forall in Hg. by destruct (Hg _ Hin) as [_ Hn].
Qed.

Lemma get_field k n t ev (fields : list (string * Json)) v : last_given k fields = Some v →
  get k (record_row n t ev fields) = Some v.
Proof.
  unfold record_row. rewrite get_json_object. unfold last_given. rewrite foldl_app.
  match goal with |- _ → foldl _ ?o _ = _ => generalize o end.
  induction fields as [|[k' w] l IH] using rev_ind; intros o; [done|].
  rewrite !foldl_app. simpl. destruct (String.eqb k k'); [done|]. apply IH.
Qed.

Lemma is_str_refl s : is_str (VString s : Json) s = true.
Proof. by apply is_str_true. Qed.
Lemma is_u64_refl n : is_u64 (jnum n : Json) n = true.
Proof. by apply is_u64_true. Qed.

Lemma trace_row_event i e : good_event e → row_event i (trace_row i e) = Ok (fst e).
Proof using Hlaw.
  intros Hg. destruct e as [ev fields]. unfold row_event, trace_row, obs_field. simpl.
  assert (∀ k v, bool_decide (k ∈ base_keys) = true →
    get k (record_row (N.of_nat i) (time_at i) ev ([] : list (string * Json))) = Some v →
    get k (record_row (N.of_nat i) (time_at i) ev fields) = Some v) as Hb.
  { intros k v Hk%bool_decide_eq_true Hv. by rewrite get_base. }
  rewrite (Hb "time_ns" _ eq_refl eq_refl), (Hb "schema" _ eq_refl eq_refl),
    (Hb "sequence" _ eq_refl eq_refl), (Hb "evidence_class" _ eq_refl eq_refl),
    (Hb "event" _ eq_refl eq_refl). simpl.
  rewrite is_u64_refl. simpl. unfold time_at.
  assert (slen (u64_to_string (default 0 (res_ok (te_time env i)))) <= 24) as Hl.
  { destruct (te_time env i) as [t|e] eqn:Et; [by apply (lw_time Hlaw i t)|by vm_compute]. }
  destruct (u64_to_string_digits (default 0 (res_ok (te_time env i)))) as [Hd Hne]. rewrite Hd.
  destruct (String.eqb_spec (u64_to_string (default 0 (res_ok (te_time env i)))) ""); [done|].
  apply N.leb_le in Hl as ->. done.
Qed.

Lemma trace_row_events n tr : Forall good_event tr →
  row_events n (imap (λ i, trace_row (n + i)) tr) = Ok (map fst tr).
Proof using Hlaw.
  intros Hg. revert n. induction Hg as [|e tr He Hg IH]; intros n; simpl; [done|].
  rewrite Nat.add_0_r, trace_row_event by done. simpl.
  rewrite (imap_ext _ (λ i, trace_row (S n + i))); [by rewrite IH|].
  intros i x _. unfold compose. f_equal. lia.
Qed.

Lemma read_trace tr : tr ≠ [] → (length tr ≤ 10)%nat → Forall good_event tr →
  blen (trace_file tr) <= MAX_JSON_BYTES →
  tool_rows (trace_file tr) = Ok (trace_rows tr, map fst tr).
Proof using Hlaw json_line json_reads.
  intros Hne Hlen Hg Hsize. unfold tool_rows, trace_file in *.
  assert (map row_line (trace_rows tr) = map (λ p, p ++ [newline]) (map json_to_vec (trace_rows tr))) as El
    by (by rewrite map_map).
  rewrite El in Hsize |- *. clear El.
  assert (length (trace_rows tr) = length tr) as Hl by apply length_imap.
  destruct (lines_read (map json_to_vec (trace_rows tr))) as (body & -> & Hb).
  { intros E. apply Hne. destruct tr; [done|]. by destruct (trace_rows (p :: tr)). }
  { apply Forall_fmap, Forall_true. intros row. apply json_line. }
  simpl. rewrite Hb, take_ge by (rewrite length_map; lia).
  replace (negb _ && _) with true.
  2: { symmetry. apply andb_true_iff. split; [|apply Nat.leb_le; rewrite length_map; lia].
       apply negb_true_iff, bool_decide_eq_false. intros E. apply Hne. destruct tr; [done|]. done. }
  simpl. assert (try_map report_decode (map json_to_vec (trace_rows tr)) = Ok (trace_rows tr)) as ->.
  { apply try_map_Ok, Forall2_fmap_l, Forall_Forall2_diag, Forall_forall. intros row Hrow.
    apply decode_row.
    - apply elem_of_lookup_imap in Hrow as (i & e & -> & He). apply list_elem_of_lookup_2 in He.
      rewrite Forall_forall in Hg. destruct e as [ev fields]. apply (canonical_deeper 3); [by apply canonical_row, Hg|unfold MAX_NESTING; lia].
    - etrans; [|exact Hsize]. unfold blen.
      apply list_elem_of_split in Hrow as (a & b & ->). rewrite !map_app, concat_app, length_app.
      simpl. rewrite !length_app. lia. }
  simpl. unfold trace_rows. by rewrite (trace_row_events 0).
Qed.

(** ** The rows are those the validator expects *)

Lemma good_fields (fields : list (string * Json)) ev :
  Forall (canonical 2) (map snd fields) → forallb (λ k, negb (bool_decide (k ∈ base_keys))) (map fst fields) = true →
  good_event (ev, fields).
Proof.
  unfold good_event. simpl. induction fields as [|[k v] l IH]; simpl; [by constructor|].
  intros [Hv Hl]%Forall_cons [Hk%negb_true_iff%bool_decide_eq_false Hks]%andb_true_iff.
  constructor; [done|]. by apply IH.
Qed.

Lemma canonical_strings l : canonical 2 (jstrs l : Json).
Proof. apply canonical_array, Forall_fmap, Forall_true. by intros. Qed.
Lemma canonical_jint z : canonical 2 (jint z : Json).
Proof. unfold jint. destruct (0 <=? z)%Z eqn:E; simpl; [done|]. lia. Qed.
Lemma canonical_identity i : canonical 2 (identity_json i : Json).
Proof. apply canonical_object. by repeat constructor. Qed.
Lemma canonical_ancestors l : canonical 2 (ancestors_json l : Json).
Proof.
  apply canonical_array, Forall_fmap, Forall_true. intros a. apply canonical_object. by repeat constructor.
Qed.

Lemma canonical_nums l : canonical 2 (VArray (map jnum l) : Json).
Proof. apply canonical_array, Forall_fmap, Forall_true. by intros. Qed.
#[local] Hint Resolve canonical_strings canonical_jint canonical_identity canonical_ancestors canonical_nums : core.

Ltac good := apply good_fields; [|reflexivity]; unfold request_fields; rewrite ?map_cons; cbn [map snd];
  repeat (apply Forall_cons_2; [cbn [snd]; first [done | auto]|]);
  apply Forall_nil_2.

Lemma good_full f : Forall good_event (full_trace f).
Proof.
  unfold full_trace. apply Forall_app. split.
  - repeat (apply Forall_cons_2; [good|]). apply Forall_nil_2.
  - destruct is_version; [apply Forall_cons_2; [good|]|]; apply Forall_nil_2.
Qed.

Lemma obs_trace i e key v : last_given key (snd e) = Some v → obs_field (trace_row i e) key = Ok v.
Proof. intros Hl. apply obs_field_Ok, get_field, Hl. Qed.

Ltac reads i e key := rewrite (obs_trace i e key _ eq_refl).

(** ** The events in their places *)

Section Accepted.
Context (run name : string) (Hname : String.eqb name "doctor" = is_version).

Lemma full_names f : map fst (full_trace f) = event_order name.
Proof using Hname. unfold full_trace, event_order. rewrite Hname. by destruct is_version. Qed.

Lemma full_events k f : map fst (take k (full_trace f)) = take k (event_order name).
Proof using Hname. by rewrite <- firstn_map, full_names. Qed.

Lemma event_in_prefix k i e t : event_order name !! i = Some e → t = "complete" ∨ t = "refused" →
  list_find (λ x, x = e) (take k (event_order name) ++ [t]) = if decide (i < k)%nat then Some (i, e) else None.
Proof.
  unfold event_order. destruct (String.eqb name "doctor"); intros Hi Ht;
    do 8 (destruct i as [|i]; [simpl in Hi; first [done | injection Hi as <-;
      do 9 (destruct k as [|k]; [by destruct Ht as [-> | ->]; vm_compute|]);
      destruct Ht as [-> | ->]; (case_decide; [done|lia])]|]);
    apply lookup_lt_Some in Hi; simpl in Hi; lia.
Qed.

Context (k : nat) (f : facts) (native : option Z) (Hh : honest k f native).
Context (final : string * list (string * Json)).
Context (Hfinal : fst final = "complete" ∨ fst final = "refused").

Definition prefix_trace : Trace := take k (full_trace f) ++ [final].
Definition event_of (e : string) : option Json :=
  event_row (trace_rows prefix_trace) (map fst prefix_trace) e.

Lemma event_of_place i ev e : full_trace f !! i = Some ev → fst ev = e →
  event_of e = if decide (i < k)%nat then Some (trace_row i ev) else None.
Proof using Hname Hfinal.
  intros Hi <-. unfold event_of, event_row, prefix_trace at 2. rewrite map_app, full_events. simpl.
  rewrite (event_in_prefix _ i); [|by rewrite <- (full_names f), list_lookup_fmap, Hi|done].
  case_decide; [|done]. simpl. unfold trace_rows, prefix_trace.
  rewrite list_lookup_imap, lookup_app_l; [by rewrite lookup_take_lt, Hi|].
  rewrite length_take. apply lookup_lt_Some in Hi. lia.
Qed.

Lemma admitted_accepted : admitted_valid event_of (rq_candidate request) = Ok tt.
Proof using Hname Hfinal Hh.
  unfold admitted_valid. destruct Hh as (_ & H4 & _).
  rewrite (event_of_place 3 (admitted_event f) "admitted"), (event_of_place 2 (read_event f) "candidate_read"),
    (event_of_place 1 (opened_event f) "candidate_opened") by done.
  case_decide; [|done]. destruct H4 as [Hs Hn]; [lia|].
  rewrite !decide_True by lia. cbn [ok_or res_bind].
  reads 3%nat (admitted_event f) "sha256". reads 3%nat (admitted_event f) "size". reads 3%nat (admitted_event f) "seals".
  reads 2%nat (read_event f) "path". reads 1%nat (opened_event f) "path". reads 2%nat (read_event f) "sha256".
  reads 2%nat (read_event f) "copied_bytes". simpl.
  rewrite Hs, Hn, !is_str_refl. by rewrite !is_u64_refl.
Qed.

Lemma json_eqb_str s : json_eqb (VString s) (VString s) = true.
Proof. by apply value_eqb_str. Qed.
Lemma json_eqb_strs l : json_eqb (jstrs l) (jstrs l) = true.
Proof. by apply value_eqb_strings. Qed.

Lemma launch_accepted : launch_valid event_of (rq_argv request) = Ok tt.
Proof using Hname Hfinal Hh.
  unfold launch_valid. destruct Hh as (_ & _ & H5 & _).
  rewrite (event_of_place 4 (launch_event f) "launch_intent") by done.
  case_decide; [|done]. reads 4%nat (launch_event f) "passed_executable_fd".
  reads 4%nat (launch_event f) "argv". reads 4%nat (launch_event f) "executable".
  reads 4%nat (launch_event f) "update_check". cbn [res_bind].
  assert (filtered (λ fd, 3 <=? fd) (as_u64 (jnum (fa_fd f) : Json)) = Some (fa_fd f)) as ->.
  { apply filtered_Some. split; [done|]. apply N.leb_le, H5. lia. }
  cbn [ok_or res_bind all_of]. by rewrite json_eqb_strs, json_eqb_str.
Qed.

Lemma started_accepted : started_valid event_of = Ok tt.
Proof using Hname Hfinal Hh.
  unfold started_valid. destruct Hh as (_ & _ & _ & H6 & _).
  rewrite (event_of_place 5 (started_event f) "started") by done.
  case_decide; [|done]. reads 5%nat (started_event f) "pid". simpl.
  assert (0 < fa_pid f) as ->%N.ltb_lt by (apply H6; lia). done.
Qed.

Lemma as_i64_jint z : (z <= i64_max)%Z → as_i64 (jint z : Json) = Some z.
Proof.
  intros Hz. unfold jint, as_i64. destruct (0 <=? z)%Z eqn:E; [|done].
  rewrite Z2N.id by lia. by apply Z.leb_le in Hz as ->.
Qed.
Lemma as_u64_jint z : (0 <= z)%Z → as_u64 (jint z : Json) = Some (Z.to_N z).
Proof. intros Hz. unfold jint. apply Z.leb_le in Hz as ->. done. Qed.

Lemma native_accepted : ∃ n, native_valid event_of = Ok n ∧ option_map snd n = option_map Z.to_N native.
Proof using Hname Hfinal Hh.
  unfold native_valid. destruct Hh as (_ & _ & _ & _ & Hn & H7). subst native.
  rewrite (event_of_place 6 (terminated_event f) "terminated") by done.
  case_decide as Hk; [|rewrite decide_False by lia; by exists None].
  rewrite decide_True by lia. specialize (H7 ltac:(lia)). pose proof (exit_bounds _ H7) as He.
  reads 6%nat (terminated_event f) "native_returncode". reads 6%nat (terminated_event f) "exit_status". cbn [res_bind].
  unfold raw_ok in H7. rewrite as_i64_jint by (unfold i64_max; lia). cbn [ok_or res_bind].
  rewrite as_u64_jint by lia.
  assert (filtered (λ s, s <=? 255) (Some (Z.to_N (exit_of (fa_raw f)))) = Some (Z.to_N (exit_of (fa_raw f)))) as ->.
  { apply filtered_Some. split; [done|]. apply N.leb_le. lia. }
  cbn [ok_or res_bind].
  replace (((if (0 <=? fa_raw f)%Z then Some (fa_raw f) else checked_sub_i64 128 (fa_raw f)) ≫= u64_of_i64))
    with (Some (Z.to_N (exit_of (fa_raw f)))).
  - simpl. rewrite N.eqb_refl. simpl. by eexists.
  - unfold exit_of, checked_sub_i64, u64_of_i64, i64_max in *.
    destruct (fa_raw f <? 0)%Z eqn:E1, (0 <=? fa_raw f)%Z eqn:E2; try lia; simpl.
    + replace (_ && _) with true by (symmetry; apply andb_true_iff; split; apply Z.leb_le; lia). simpl.
      by replace (0 <=? 128 - fa_raw f)%Z with true by (symmetry; apply Z.leb_le; lia).
    + by rewrite E2.
Qed.

Lemma prefix_length : length (take k (full_trace f)) = k.
Proof using Hh. destruct Hh as ([_ Hk] & _). rewrite length_take. lia. Qed.

Lemma prefix_head : head (trace_rows prefix_trace) = Some (trace_row 0 request_event).
Proof using Hh.
  destruct Hh as ([Hk _] & _). unfold prefix_trace, full_trace. by destruct k as [|k']; [lia|].
Qed.

Lemma prefix_last : last (trace_rows prefix_trace) = Some (trace_row k final).
Proof using Hh.
  unfold prefix_trace. rewrite trace_rows_snoc, prefix_length. apply last_snoc.
Qed.

Lemma request_accepted path :
  rq_record request = run +:+ "/" +:+ path → is_ok (absolute_parts (rq_candidate request)) = true →
  request_valid run path name (rq_argv request) (trace_row 0 request_event) = Ok (rq_candidate request).
Proof.
  intros Hr (parts & Hp)%is_ok_true. unfold request_valid, request_expectation.
  cbn [try_for res_bind].
  reads 0%nat request_event "argv". reads 0%nat request_event "install_receipt_sha256".
  reads 0%nat request_event "pinned_sha256". reads 0%nat request_event "pinned_size".
  reads 0%nat request_event "profile". reads 0%nat request_event "provenance_is_distribution_acceptance".
  reads 0%nat request_event "record_path". reads 0%nat request_event "source_commit".
  reads 0%nat request_event "candidate". cbn [res_bind].
  rewrite json_eqb_strs, Hr, !json_eqb_str. cbn [as_str ok_or res_bind]. by rewrite Hp.
Qed.

Lemma prefix_events : map fst prefix_trace = take k (event_order name) ++ [fst final].
Proof using Hname. unfold prefix_trace. by rewrite map_app, full_events. Qed.

Lemma events_accepted expected :
  (fst final = "complete" → k = length (full_trace f)) → (fst final = "refused" → expected ≠ 0) →
  events_valid name expected (map fst prefix_trace) = Ok (fst final).
Proof using Hname Hfinal Hh.
  intros Hc Hr. unfold events_valid. rewrite prefix_events, last_snoc, removelast_last. cbn [default from_option id].
  assert (length (take k (event_order name)) = k) as Hl.
  { rewrite <- (full_events k f), length_map. apply prefix_length. }
  rewrite Hl. rewrite (bool_decide_eq_true_2 (take k (event_order name) = take k (event_order name))) by done.
  destruct Hfinal as [Hf|Hf]; rewrite Hf in *.
  - assert (take k (event_order name) = event_order name) as ->.
    { rewrite Hc, <- (full_names f), take_ge by (done || by rewrite length_map). done. }
    by rewrite bool_decide_eq_true_2.
  - specialize (Hr eq_refl). apply N.eqb_neq in Hr as ->. done.
Qed.

Lemma trim_ascii_end_app b t : trim_ascii_end t = [] → trim_ascii_end (b ++ t) = trim_ascii_end b.
Proof. intros Ht. induction b as [|y b IH]; simpl; [done|]. by rewrite IH. Qed.

Lemma trim_crlf_rest b : ∃ t, b = trim_crlf b ++ t ∧
  forallb (λ b, Byte.eqb b x0d || Byte.eqb b x0a) t = true ∧ trim_ascii_end t = [].
Proof.
  induction b as [|y b (t & Hb & Ht & Hw)]; [by exists []|]. simpl.
  destruct (trim_crlf b) as [|z c] eqn:E.
  - destruct (Byte.eqb y x0d || Byte.eqb y x0a) eqn:Ey.
    + exists (y :: t). simpl in Hb. subst b. split; [done|]. simpl. rewrite Ey, Ht. split; [done|].
      rewrite Hw. unfold is_ascii_whitespace. rewrite bool_decide_eq_true_2; [done|].
      apply orb_true_iff in Ey as [Ey|Ey]; apply Byte.byte_dec_bl in Ey as ->; set_solver.
    + exists t. simpl in Hb. by subst b.
  - exists t. split; [|done]. by rewrite Hb at 1.
Qed.

(** [base64] decodes what it encoded. *)
Context (base64_reads : ∀ b, base64_decode (base64_encode b) = Ok b).

Lemma version_accepted inv path stdout stderr :
  is_version = true → k = length (full_trace f) →
  stdout = fa_stdout f → stderr = fa_stderr f →
  inv_get inv (path +:+ ".stdout") = Ok stdout → inv_get inv (path +:+ ".stderr") = Ok stderr →
  trim_crlf stdout = pf_version PIN → stderr = [] →
  version_valid inv path event_of = Ok tt.
Proof.
  intros Hv Hk Hso Hse Ho He Ht Hempty. unfold version_valid.
  rewrite length_full, Hv in Hk.
  rewrite (event_of_place 7 (version_event f) "version_output");
    [|unfold full_trace; by rewrite Hv|done].
  rewrite decide_True by lia. cbn [ok_or res_bind].
  reads 7%nat (version_event f) "stdout_base64". reads 7%nat (version_event f) "stderr_base64".
  cbn [res_bind as_str ok_or]. rewrite !base64_reads. cbn [res_bind all_of].
  rewrite <- Hso, <- Hse, Ho, He. cbn [res_bind]. rewrite !bool_decide_eq_true_2 by done.
  destruct (trim_crlf_rest stdout) as (t & Hb & Hcr & Hw). rewrite Ht in Hb.
  assert (trim_ascii_end stdout = pf_version PIN) as Hend.
  { rewrite Hb, trim_ascii_end_app by done. by vm_compute. }
  rewrite Hend. rewrite Hb at 1. rewrite drop_app_length, Hcr, !bool_decide_eq_true_2 by done. done.
Qed.
End Accepted.

(** ** The record of a run *)

Context (run name : string) (Hname : String.eqb name "doctor" = is_version).
Context (Hrecord : rq_record request = run +:+ "/" +:+ name +:+ ".tool.jsonl").
Context (Hcandidate : is_ok (absolute_parts (rq_candidate request)) = true).
Context (base64_reads : ∀ b, base64_decode (base64_encode b) = Ok b).

(** The inventory holds what the run left. *)
Definition retains (inv : Inventory (float:=float)) (s : tool_state) : Prop :=
  inv_get inv (name +:+ ".tool.jsonl") = Ok (ts_file s) ∧
  (is_version = true → inv_get inv (name +:+ ".tool.jsonl.stdout") = Ok (ts_stdout s) ∧
                       inv_get inv (name +:+ ".tool.jsonl.stderr") = Ok (ts_stderr s)).

(** The validator's run over a record that is a prefix and a last event. *)
Lemma validate_prefix inv k f native final expected :
  honest k f native → good_event final → fst final = "complete" ∨ fst final = "refused" →
  blen (trace_file (prefix_trace k f final)) <= MAX_JSON_BYTES →
  inv_get inv (name +:+ ".tool.jsonl") = Ok (trace_file (prefix_trace k f final)) →
  (fst final = "complete" → k = length (full_trace f)) → (fst final = "refused" → expected ≠ 0) →
  last_valid (fst final) expected (option_map Z.to_N native) (trace_row k final) = Ok tt →
  (String.eqb name "doctor" && (expected =? 0) = true →
     version_valid inv (name +:+ ".tool.jsonl") (event_of k f final) = Ok tt) →
  is_ok (validate_tool inv run name (rq_argv request) expected) = true.
Proof using Hlaw json_line json_reads Hname Hrecord Hcandidate.
  intros Hh Hg Hfin Hsize Hfile Hc Hr Hlast Hver. unfold validate_tool. rewrite Hfile. cbn [res_bind].
  rewrite read_trace; [|by unfold prefix_trace; destruct (take k _)| | |done].
  2: { unfold prefix_trace. rewrite length_app, length_take, length_full. simpl. destruct is_version; lia. }
  2: { unfold prefix_trace. apply Forall_app. split; [apply Forall_take, good_full|].
       apply Forall_cons_2; [done|apply Forall_nil_2]. }
  cbn [res_bind]. rewrite (events_accepted name Hname k f native Hh final Hfin) by done. cbn [res_bind].
  rewrite (prefix_head k f native Hh final). cbn [ok_or res_bind].
  rewrite (request_accepted run name (name +:+ ".tool.jsonl")) by done. cbn [res_bind].
  fold (event_of k f final).
  change (event_row (trace_rows (prefix_trace k f final)) (map fst (prefix_trace k f final))) with
    (event_of k f final).
  rewrite (admitted_accepted name Hname k f native Hh final Hfin). cbn [res_bind].
  rewrite (launch_accepted name Hname k f native Hh final Hfin). cbn [res_bind].
  rewrite (started_accepted name Hname k f native Hh final Hfin). cbn [res_bind].
  destruct (native_accepted name Hname k f native Hh final Hfin) as (n & -> & Hn). cbn [res_bind].
  rewrite (prefix_last k f native Hh final). cbn [ok_or res_bind]. rewrite Hn, Hlast. cbn [res_bind].
  destruct (_ && _) eqn:E; [rewrite Hver by done|]; done.
Qed.

Lemma complete_accepted inv status f s :
  finished status f [complete_event status] s → blen (ts_file s) <= MAX_JSON_BYTES → retains inv s →
  is_ok (validate_tool inv run name (rq_argv request) (Z.to_N status)) = true.
Proof using Hlaw json_line json_reads Hname Hrecord Hcandidate base64_reads.
  intros Hfin Hsize [Hfile Hstreams]. apply finished_raw in Hfin as Hraw. pose proof (exit_bounds _ Hraw) as Hb.
  destruct Hfin as (-> & Hh & out & err & (_ & Hf & _ & _ & _ & Ho & He) & Hv).
  replace (full_trace f) with (take (length (full_trace f)) (full_trace f)) in Hf by (by rewrite firstn_all).
  rewrite Hf in Hsize, Hfile.
  refine (validate_prefix inv _ f _ (complete_event _) _ Hh _ (or_introl eq_refl) Hsize Hfile _ _ _ _).
  - apply good_fields; [|reflexivity]. apply Forall_cons_2; [apply canonical_jint|apply Forall_nil_2].
  - done.
  - done.
  - unfold last_valid. reads (length (full_trace f)) (complete_event (exit_of (fa_raw f))) "exit_status".
    cbn [res_bind]. unfold is_u64. rewrite as_u64_jint by lia. cbn [option_eqb]. rewrite N.eqb_refl. simpl.
    by rewrite bool_decide_eq_true_2.
  - intros [Hd Hz]%andb_true_iff. rewrite Hname in Hd. destruct (Hstreams Hd) as [Hso Hse].
    destruct (Hv Hd) as (Hout & Herr & Hzero). apply N.eqb_eq in Hz.
    destruct Hzero as [Ht Hempty]; [lia|]. rewrite Ho in Hso. rewrite He in Hse.
    eapply version_accepted; try done; first [by left | by rewrite string_app_assoc].
Qed.

Lemma refused_accepted inv k f native reason out err s :
  honest k f native →
  at_trace (take k (full_trace f) ++ [refused_event reason native (refusal_status native)]) native out err s →
  blen (ts_file s) <= MAX_JSON_BYTES → retains inv s →
  is_ok (validate_tool inv run name (rq_argv request) (Z.to_N (refusal_status native))) = true.
Proof using Hlaw json_line json_reads Hname Hrecord Hcandidate.
  intros Hh (_ & Hf & _) Hsize [Hfile _]. rewrite Hf in Hsize, Hfile.
  pose proof (λ z, honest_native _ _ _ z Hh) as Hn. pose proof (refusal_range _ Hn) as Hb.
  refine (validate_prefix inv _ f _ (refused_event reason _ _) _ Hh _ (or_intror eq_refl) Hsize Hfile _ _ _ _).
  - apply good_fields; [|reflexivity]. repeat (apply Forall_cons_2; [|]); try apply Forall_nil_2; try done.
    + destruct native; [apply canonical_jint|done].
    + apply canonical_jint.
  - done.
  - intros _. lia.
  - unfold last_valid. reads k (refused_event reason native (refusal_status native)) "exit_status".
    reads k (refused_event reason native (refusal_status native)) "native_status".
    cbn [res_bind]. unfold is_u64. rewrite as_u64_jint by lia. cbn [option_eqb]. rewrite N.eqb_refl. simpl.
    destruct native as [z|]; simpl; [|done]. specialize (Hn z eq_refl).
    unfold json_eqb, jint. rewrite Z2N.id by lia. destruct (0 <=? z)%Z eqn:Ez; [|lia]. simpl.
    rewrite Z.eqb_refl. unfold refusal_status, filtered in *. simpl in *.
    destruct (Z.eqb_spec z 0) as [->|Hne]; simpl in *; [done|].
    destruct (N.eqb_spec (Z.to_N z) 0); [lia|]. simpl. by rewrite N.eqb_refl.
  - intros [_ Hz]%andb_true_iff. apply N.eqb_eq in Hz. lia.
Qed.

End Agreement.

(** A serializer that satisfies the hypotheses, and a run refused at its candidate. *)
Module AuditAgreementReference.
Abbreviation Json := (Value Empty_set).
Abbreviation leaf := (option (string + (N + (Z + bool)))).

Fixpoint to_tree (v : Json) : gen_tree leaf :=
  match v with
  | VNull => GenLeaf None
  | VString s => GenLeaf (Some (inl s))
  | VNumber (NumU64 n) => GenLeaf (Some (inr (inl n)))
  | VNumber (NumI64 z) => GenLeaf (Some (inr (inr (inl z))))
  | VNumber (NumF64 f) => match f with end
  | VBool b => GenLeaf (Some (inr (inr (inr b))))
  | VArray l => GenNode 0 (map to_tree l)
  | VObject m => GenNode 1 (map (λ kv, GenNode 2 [GenLeaf (Some (inl (fst kv))); to_tree (snd kv)]) m)
  end.

Fixpoint from_tree (t : gen_tree leaf) : Json :=
  match t with
  | GenLeaf None => VNull
  | GenLeaf (Some (inl s)) => VString s
  | GenLeaf (Some (inr (inl n))) => VNumber (NumU64 n)
  | GenLeaf (Some (inr (inr (inl z)))) => VNumber (NumI64 z)
  | GenLeaf (Some (inr (inr (inr b)))) => VBool b
  | GenNode 0 l => VArray (map from_tree l)
  | GenNode _ l => VObject (map (λ t,
      match t with
      | GenNode _ [GenLeaf (Some (inl k)); v] => (k, from_tree v)
      | _ => ("", VNull)
      end) l)
  end.

Lemma from_to_tree v : from_tree (to_tree v) = v.
Proof.
  revert v. fix IH 1. intros [|b|[z|n|[]]|s|l|m]; simpl; try reflexivity; f_equal.
  - induction l as [|v l IHl]; simpl; [done|]. by rewrite IH, IHl.
  - induction m as [|[k v] m IHm]; simpl; [done|]. by rewrite IH, IHm.
Qed.

(** A positive as a text of binary digits, lowest first. *)
Fixpoint bits (p : positive) : bytes :=
  match p with xH => [] | xO p => x30 :: bits p | xI p => x31 :: bits p end.
Fixpoint of_bits (b : bytes) : option positive :=
  match b with
  | [] => Some 1%positive
  | x :: b =>
      if Byte.eqb x x30 then option_map xO (of_bits b)
      else if Byte.eqb x x31 then option_map xI (of_bits b) else None
  end.

Lemma of_bits_bits p : of_bits (bits p) = Some p.
Proof. induction p as [p IH|p IH|]; simpl; [by rewrite IH..|done]. Qed.
Lemma bits_line p : newline ∉ bits p.
Proof.
  induction p as [p IH|p IH|]; simpl; [..|by apply not_elem_of_nil];
    (apply not_elem_of_cons; split; [done|exact IH]).
Qed.

#[local] Instance crates : PolicyCrates Empty_set := {|
  f_is_finite := λ _, true;
  f_eqb := λ _ _, true;
  f_eqb_trans := λ _ _ _ _ _, eq_refl;
  toml_from_str := λ _, Err "expected `=`";
  json_tokens := λ b, match of_bits b ≫= countable.decode with
    | Some t => Ok (to_raw (from_tree t))
    | None => Err "expected value"
    end;
  utf8_error := λ _, "invalid utf-8 sequence";
  sha256_hex := λ b, u64_to_string (blen b)
|}.
#[local] Instance tool_crates : ToolCrates Empty_set := {|
  json_to_vec := λ v, bits (countable.encode (to_tree v));
  base64_encode := λ b, String.string_of_list_byte b;
  base64_decode := λ s, Ok (String.list_byte_of_string s)
|}.

Lemma crates_read v : canonical MAX_NESTING v → blen (json_to_vec v) <= MAX_JSON_BYTES →
  json_tokens (json_to_vec v) = Ok (to_raw v).
Proof. intros _ _. simpl. rewrite of_bits_bits. simpl. by rewrite countable.decode_encode, from_to_tree. Qed.

Definition candidate_metadata : Metadata := {|
  md_dev := 1; md_ino := 2; md_mode := 33261; md_uid := 0; md_gid := 0; md_size := 12; md_nlink := 1;
  md_mtime := 1700000000; md_mtime_nsec := 5; md_ctime := -1; md_ctime_nsec := 0 |}.

Definition env : tool_env := {|
  te_new := Ok tt; te_time := λ _, Ok 1700000000000000000; te_append := λ _, Appended;
  te_open := λ _, Ok (Ok candidate_metadata, []); te_memfd := Ok tt; te_reads := [];
  te_metadata := Ok candidate_metadata; te_reopen := λ _, Ok (Ok candidate_metadata, []);
  te_permissions := Ok tt; te_add_seals := Ok tt; te_get_seals := Ok SEALS; te_seek := Ok tt;
  te_readback := []; te_sealed := Ok candidate_metadata; te_variables := []; te_streams := (Ok tt, Ok tt);
  te_dup := Ok 3; te_fdinfo := Ok []; te_spawn := Ok 77; te_pipes := (true, true);
  te_nonblock := (Ok tt, Ok tt); te_looks := []; te_print := (Ok tt, Ok tt);
  te_wait := Ok {| es_code := Some 0%Z; es_signal := None |} |}.

Definition request : Request := {|
  rq_candidate := "/usr/bin/jankurai"; rq_record := "/r/audit.tool.jsonl";
  rq_argv := ["audit"; "."; "--full"; "--no-score-history"; "--json"; "j"; "--md"; "m"] |}.

Lemma env_lawful : lawful env.
Proof.
  split; try done.
  - intros n t [= <-]. by vm_compute.
  - by intros fd [= <-].
  - by intros pid [= <-].
  - by intros st [= <-].
  - by intros l st ?%elem_of_nil.
Qed.

(** What the run leaves: its record, and the inventory that retains it. *)
Definition left_state : tool_state := default fresh_state (snd (invoke env request PIN)).
Definition retained : Inventory (float:=Empty_set) :=
  insert_artifact "audit.tool.jsonl" {| ar_bytes := ts_file left_state; ar_subject := VNull; ar_path := "" |}
    inventory_default.

Lemma run_refused : fst (invoke env request PIN) = 75%Z ∧ snd (invoke env request PIN) = Some left_state ∧
  blen (ts_file left_state) <= MAX_JSON_BYTES.
Proof. split; [vm_compute; reflexivity|]. split; [vm_compute; reflexivity|]. by vm_compute. Qed.

Lemma run_recorded : recorded env left_state.
Proof. intros n _. by split. Qed.


(** Were the first row not to reach the disk, the run would end with 75 as well. *)
Example unrecorded_run_is_refused :
  fst (invoke {|
    te_new := Ok tt; te_time := te_time env; te_append := λ n, if Nat.eqb n 0 then SyncFails "EIO" else Appended;
    te_open := te_open env; te_memfd := Ok tt; te_reads := []; te_metadata := te_metadata env;
    te_reopen := te_reopen env; te_permissions := Ok tt; te_add_seals := Ok tt; te_get_seals := Ok SEALS;
    te_seek := Ok tt; te_readback := []; te_sealed := te_sealed env; te_variables := [];
    te_streams := te_streams env; te_dup := Ok 3; te_fdinfo := Ok []; te_spawn := Ok 77;
    te_pipes := (true, true); te_nonblock := te_nonblock env; te_looks := []; te_print := te_print env;
    te_wait := te_wait env |} request PIN) = 75%Z.
Proof. vm_compute. reflexivity. Qed.

(** Accepted as nothing else. *)
Example record_of_refusal_is_not_a_pass :
  is_ok (validate_tool retained "/r" "audit" (rq_argv request) 0) = false.
Proof. vm_compute. reflexivity. Qed.
End AuditAgreementReference.
