(* ===== verification/AuditObservation.v ===== *)
(** [observation/validate.rs] of [crates/bullet-git-workspace/src/bin/bullet-ci-jankurai]:
    the settlement of a whole audit run from the files it left: the doctor, the lane,
    the audit and its ratchet, the reports they staged and the state they may not touch. *)

From S2P Require Import Prelude Decimal StrictJson AuditJson Protocol AuditPolicy AuditInventory AuditTool AuditRecord.

(** [run.rsplit('/').next()] *)
Definition run_name (run : string) : string := default "" (last (split "/" run)).

(** [Path::starts_with], on normal absolute paths. *)
Fixpoint list_prefix (p l : list string) : bool :=
  match p, l with
  | [], _ => true
  | x :: p, y :: l => String.eqb x y && list_prefix p l
  | _, _ => false
  end.
Definition path_within (path root : string) : bool := list_prefix (split "/" root) (split "/" path).

(** [slice::split] on the zero byte; never empty. *)
Fixpoint split_zero (b : bytes) : list bytes :=
  match b with
  | [] => [[]]
  | x :: b =>
      if Byte.eqb x x00 then [] :: split_zero b
      else match split_zero b with [] => [[x]] | r :: rs => (x :: r) :: rs end
  end.

Definition BASELINE : string := "target/jankurai/accepted-baseline.json".

(** [native_argv] *)
Definition native_argv (run name : string) : list string :=
  ["audit"; "."; "--full"; "--no-score-history"] ++
  (if String.eqb name "ratchet" then
     ["--mode"; "ratchet"; "--baseline"; BASELINE; "--json"; run +:+ "/ratchet.json";
      "--md"; run +:+ "/ratchet.md"]
   else
     ["--repair-queue-jsonl"; ".jankurai/repair-queue.jsonl"; "--json"; ".jankurai/repo-score.json";
      "--md"; ".jankurai/repo-score.md"]).

Definition RESULT_KEYS : list string := ["stage"; "primary_status"; "retention_status"; "final_status"].
Definition STATUS_KEYS : list string := ["primary_status"; "retention_status"; "final_status"].

Section Observation.
Context `{PolicyCrates float, ToolCrates float}.
Abbreviation Json := (Value float).
Abbreviation Inv := (Inventory (float:=float)).

Definition utf8 (b : bytes) : result string string := ok_or (from_utf8 b) ("OS_ERROR: " +:+ utf8_error b).

(** ** [result_fields] *)

Definition result_line (fields : list (string * string)) (line : string)
    : result (list (string * string)) string :=
  let? '(key, value) := ok_or (split_once "=" line) "RESULT_FIELD_INVALID" in
  let '(old, fields) := btree_insert key value fields in
  require (bool_decide (old = None)) "DUPLICATE_RESULT_FIELD" ;?
  Ok fields.

(** [result[key]] *)
Definition result_get (fields : list (string * string)) (key : string) : string :=
  default "" (snd <$> (list_find (λ kv, fst kv = key) fields ≫= λ '(_, kv), Some kv)).
Definition result_status (fields : list (string * string)) (key : string) : result N string :=
  decimal (as_bytes (result_get fields key)).

Definition result_fields (b : bytes) : result (list (string * string)) string :=
  let? text := utf8 b in
  let? fields := try_fold result_line [] (lines text) in
  require (bool_decide ((list_to_set (map fst fields) : gset string) = list_to_set RESULT_KEYS))
    "RESULT_FIELDS_INVALID" ;?
  try_for (λ key, let? _ := result_status fields key in Ok tt) STATUS_KEYS ;?
  Ok fields.

(** ** [validation_argv] *)

Definition validation_argv (inv : Inv) (root run name : string) : result unit string :=
  let? raw := inv_get inv (name +:+ ".validation.argv") in
  let? body := ok_or (strip_last x00 raw) "VALIDATION_ARGV_TERMINATOR" in
  let? args := try_map utf8 (split_zero body) in
  let? runtime := ok_or (args !! 5%nat) "VALIDATION_ARGV_INCOMPLETE" in
  let? _ := absolute_parts runtime in
  require (negb (path_within runtime root)) "VALIDATION_RUNTIME_WITHIN_SOURCE" ;?
  let expected :=
    [root +:+ "/target/jankurai/bootstrap/" +:+ run_name run +:+ "/target/debug/bullet-ci-jankurai";
     "report"; "--root"; root; "--runtime"; runtime; "--report";
     if String.eqb name "ratchet" then run +:+ "/ratchet.json" else root +:+ "/.jankurai/repo-score.json"]
    ++ (if String.eqb name "ratchet" then ["--baseline"; root +:+ "/" +:+ BASELINE] else []) in
  require (bool_decide (args = expected)) "VALIDATION_ARGV_MISMATCH".

(** ** [validate]

    The tools found so far are kept when it fails. *)

Abbreviation Tools := (list (string * Json)).
Definition Obs (A : Type) : Type := Tools → result A string * Tools.
Definition oret {A} (r : result A string) : Obs A := λ t, (r, t).
Definition obind {A B} (m : Obs A) (k : A → Obs B) : Obs B := λ t,
  match m t with (Ok a, t) => k a t | (Err e, t) => (Err e, t) end.
Definition insert_tool (name : string) (v : Json) : Obs unit := λ t, (Ok tt, snd (btree_insert name v t)).

(** What is at an artifact's place now: [symlink_metadata], then [artifacts::read]. *)
Record place : Type := {
  pl_present : string → result bool string;
  pl_read : string → result (Artifact (float:=float)) string
}.
Definition current_bytes (p : place) (path : string) : result (option bytes) string :=
  let? present := io (pl_present p path) in
  if present then let? a := pl_read p path in Ok (Some (ar_bytes a)) else Ok None.

Definition kept_bytes (inv : Inv) (path : string) : option bytes := option_map ar_bytes (inv_data inv !! path).

(** The retained validation of a native run. *)
Definition validation_kept (inv : Inv) (root run name : string) : result unit string :=
  if inv_contains inv (name +:+ ".validation.exit") then
    let? _ := inv_get inv (name +:+ ".validation.stdout") in
    let? _ := inv_get inv (name +:+ ".validation.stderr") in
    let? status := inv_exit inv (name +:+ ".validation.exit") in
    if (status =? 0) || inv_contains inv (name +:+ ".validation.argv")
    then validation_argv inv root run name else Ok tt
  else Ok tt.

(** The report of a native run that ended with zero. *)
Definition report_kept (inv : Inv) (lane : N) (policy : bytes) (baseline : option Json) (name : string)
    : result unit string :=
  let? status := inv_exit inv (name +:+ ".validation.exit") in
  require ((status =? 0) || negb (lane =? 0)) "VALIDATION_FAILURE_PROMOTED" ;?
  let path := if String.eqb name "ratchet" then "ratchet.json" else "audit/.jankurai/repo-score.json" in
  let? raw := inv_get inv path in
  let? report := report_decode raw in
  validate report policy (if String.eqb name "ratchet" then baseline else None).

(** One of the two native runs. *)
Definition native_run (inv : Inv) (root run : string) (lane : N) (fields : list (string * string))
    (policy : bytes) (baseline : option Json) (name : string) : Obs unit :=
  if String.eqb name "ratchet" && match baseline with None => true | _ => false end then
    oret (require (negb (inv_any_key inv (starts_with "ratchet"))) "UNEXPECTED_RATCHET")
  else if negb (inv_contains inv (name +:+ ".exit")) then
    oret (require (negb (lane =? 0)) ("MISSING_NATIVE_RUN:" +:+ name))
  else
    obind (oret (inv_exit inv (name +:+ ".exit"))) (λ native_status,
    obind (oret (let? _ := inv_get inv (name +:+ ".stdout") in
                 let? _ := inv_get inv (name +:+ ".stderr") in
                 validation_kept inv root run name)) (λ _,
    obind (oret (validate_tool inv run name (native_argv run name) native_status)) (λ tool,
    obind (insert_tool name tool) (λ _,
    oret (
      inv_snapshot inv name ;?
      let? promoted := (if native_status =? 0 then Ok true
        else if lane =? native_status
        then let? primary := result_status fields "primary_status" in Ok (primary =? native_status)
        else Ok false) in
      require promoted "NATIVE_FAILURE_PROMOTED" ;?
      (if native_status =? 0 then report_kept inv lane policy baseline name else Ok tt)))))).

(** A report as it was made, as it was staged, and where it was copied. *)
Definition report_staged (inv : Inv) (name : string) : result unit string :=
  let? original := inv_get inv ("audit/.jankurai/" +:+ name) in
  let? staged := (let? a := inv_get inv ("final/.jankurai/" +:+ name) in
    if bool_decide (original = a) then
      let? b := inv_get inv ("final/target/jankurai/" +:+ name) in Ok (bool_decide (original = b))
    else Ok false) in
  require staged "STAGED_REPORT_MISMATCH".

Definition artifact_current (inv : Inv) (p : place) (root path : string) : result unit string :=
  if String.eqb path ".ci-artifacts/observations/audit.json" then Ok tt
  else
    let? current := current_bytes p (root +:+ "/" +:+ path) in
    require (bool_decide (kept_bytes inv ("final/" +:+ path) = current)) ("CURRENT_ARTIFACT_DRIFT:" +:+ path).

(** What a lane that passed must have left. *)
Definition lane_passed (inv : Inv) (p : place) (root : string) (fields : list (string * string))
    : result unit string :=
  require (String.eqb (result_get fields "stage") "complete"
    && forallb (λ key, String.eqb (result_get fields key) "0") STATUS_KEYS) "PASS_WITH_INCOMPLETE_SETTLEMENT" ;?
  try_for (report_staged inv) REPORTS ;?
  try_for (λ name, require (bool_decide (kept_bytes inv ("before/" +:+ name) = kept_bytes inv ("final/" +:+ name)))
    "STATE_OR_BASELINE_CHANGED") ["target/jankurai/update/state.json"; BASELINE] ;?
  require (negb (inv_contains inv "final/.jankurai/score-history.jsonl")) "UNEXPECTED_SCORE_HISTORY_WRITE" ;?
  try_for (artifact_current inv p root) ARTIFACTS.

Definition lane_prefixes : list string := ["lane."; "audit."; "ratchet."; "before/"; "final/"].

(** [audit.started]: the line of the lane's process. *)
Definition started_pid (inv : Inv) : result string string :=
  let? raw := inv_get inv "audit.started" in
  let? started := utf8 raw in
  ok_or (strip_prefix "pid=" started ≫= strip_suffix (String "010" EmptyString)) "LANE_START_INVALID".

(** The lane: its status, what [result.txt] says, the baseline it started from. *)
Definition lane_settled (inv : Inv) (run : string) (status : N)
    : result (N * list (string * string) * option Json) string :=
  inv_argv inv "lane" ["bash"; "ops/ci/audit.sh"; "--audit-run"; run] ;?
  let? lane := inv_exit inv "lane.exit" in
  let? pid := started_pid inv in
  require (negb (String.eqb pid "") && negb (starts_with "0" pid) && is_digits pid && (lane =? status))
    "LANE_STATUS_OR_START_MISMATCH" ;?
  let? raw := inv_get inv "result.txt" in
  let? fields := result_fields raw in
  let? final := result_status fields "final_status" in
  require (final =? lane) "RESULT_EXIT_CONTRADICTION" ;?
  inv_snapshot inv "before" ;?
  inv_snapshot inv "final" ;?
  let? baseline := match kept_bytes inv ("before/" +:+ BASELINE) with
    | Some b => let? v := report_decode b in Ok (Some v)
    | None => Ok None
    end in
  Ok (lane, fields, baseline).

Definition validate_run (inv : Inv) (p : place) (root run : string) (status : N) (policy : bytes) : Obs unit :=
  obind (oret (inv_argv inv "doctor" ["bash"; "scripts/ci-doctor.sh"; "audit"; "--audit-run"; run] ;?
               inv_exit inv "doctor.exit")) (λ doctor,
  obind (oret (validate_tool inv run "doctor" ["--version"] doctor)) (λ tool,
  obind (insert_tool "doctor" tool) (λ _,
  if negb (doctor =? 0) then
    oret (require ((status =? doctor)
      && negb (inv_any_key inv (λ path, existsb (λ prefix, starts_with prefix path) lane_prefixes)))
      "DOCTOR_FAILURE_LAUNCHED_LANE")
  else
    obind (oret (lane_settled inv run status)) (λ '(lane, fields, baseline),
    obind (native_run inv root run lane fields policy baseline "ratchet") (λ _,
    obind (native_run inv root run lane fields policy baseline "audit") (λ _,
    oret (if lane =? 0 then lane_passed inv p root fields else Ok tt))))))).

(** ** Specification: an audit that passed *)

(** A native run with status zero, and its report under the policy. *)
Definition native_passed (inv : Inv) (run name report_path : string) (policy : bytes)
    (baseline : option Json) : Prop :=
  (∃ rows, passing_run inv run name (native_argv run name) rows) ∧
  inv_exit inv (name +:+ ".validation.exit") = Ok 0 ∧
  ∃ raw report, inv_get inv report_path = Ok raw ∧ report_decode raw = Ok report ∧
    validate report policy baseline = Ok tt.

Record passing_audit (inv : Inv) (p : place) (root run : string) (policy : bytes) : Prop := {
  pa_doctor : ∃ rows, passing_run inv run "doctor" ["--version"] rows;
  pa_audit : native_passed inv run "audit" "audit/.jankurai/repo-score.json" policy None;
  (** with an accepted baseline, the ratchet ran against that very baseline *)
  pa_ratchet : match kept_bytes inv ("before/" +:+ BASELINE) with
    | None => ∀ path, is_Some (inv_data inv !! path) → starts_with "ratchet" path = false
    | Some b => ∃ baseline, report_decode b = Ok baseline ∧
        native_passed inv run "ratchet" "ratchet.json" policy (Some baseline)
    end;
  pa_staged name : name ∈ REPORTS → ∃ report,
    inv_get inv ("audit/.jankurai/" +:+ name) = Ok report ∧
    inv_get inv ("final/.jankurai/" +:+ name) = Ok report ∧
    inv_get inv ("final/target/jankurai/" +:+ name) = Ok report;
  pa_baseline : kept_bytes inv ("final/" +:+ BASELINE) = kept_bytes inv ("before/" +:+ BASELINE);
  pa_history : inv_data inv !! "final/.jankurai/score-history.jsonl" = None;
  (** what is in the repository now is what the run left *)
  pa_current path : path ∈ ARTIFACTS → path ≠ ".ci-artifacts/observations/audit.json" →
    current_bytes p (root +:+ "/" +:+ path) = Ok (kept_bytes inv ("final/" +:+ path))
}.

(** ** Lemmas *)

Lemma obind_Ok {A B} (m : Obs A) (k : A → Obs B) t b t' : obind m k t = (Ok b, t') →
  ∃ a t1, m t = (Ok a, t1) ∧ k a t1 = (Ok b, t').
Proof. unfold obind. destruct (m t) as [[a|e] t1]; [|done]. by exists a, t1. Qed.

Lemma oret_Ok {A} (r : result A string) t a t' : oret r t = (Ok a, t') → r = Ok a ∧ t' = t.
Proof. by intros [= -> ->]. Qed.

(** One step of [obind]. *)
Ltac ostep H x Hx :=
  let t := fresh "t" in
  apply obind_Ok in H as (x & t & Hx & H);
  try (apply oret_Ok in Hx as [Hx ->]).

Lemma inv_any_key_false (inv : Inv) p path :
  inv_any_key inv p = false → is_Some (inv_data inv !! path) → p path = false.
Proof.
  unfold inv_any_key. rewrite existsb_false. intros Hall [a Ha].
  apply (Hall (path, a)). by apply elem_of_map_to_list.
Qed.

Lemma inv_contains_false (inv : Inv) path : inv_contains inv path = false → inv_data inv !! path = None.
Proof. unfold inv_contains. intros Hn%bool_decide_eq_false. by apply eq_None_not_Some. Qed.

Lemma native_run_passed inv root run fields policy baseline name t t' :
  (name = "ratchet" → is_Some baseline) →
  native_run inv root run 0 fields policy baseline name t = (Ok tt, t') →
  native_passed inv run name
    (if String.eqb name "ratchet" then "ratchet.json" else "audit/.jankurai/repo-score.json")
    policy (if String.eqb name "ratchet" then baseline else None).
Proof.
  intros Hbase. unfold native_run.
  replace (String.eqb name "ratchet" && match baseline with None => true | _ => false end) with false.
  2: { destruct (String.eqb_spec name "ratchet"); [|done]. by destruct Hbase as [b ->]. }
  destruct (negb (inv_contains inv (name +:+ ".exit"))) eqn:Ec; [by intros [Hr _]%oret_Ok|].
  intros Hrun. ostep Hrun native Hnat. ostep Hrun u Hkept. ostep Hrun tool Htool. ostep Hrun u' Hins.
  apply oret_Ok in Hrun as [Hrun _]. apply res_bind_unit_any in Hrun as [_ Hrun].
  apply res_bind_Ok in Hrun as (promoted & Hp & Hrun). apply res_bind_require in Hrun as [-> Hrun].
  assert (native = 0) as ->.
  { destruct (native =? 0) eqn:E; [by apply N.eqb_eq|]. destruct native; [done|]. by simpl in Hp. }
  simpl in Hrun. unfold report_kept in Hrun. apply res_bind_Ok in Hrun as (status & Hs & Hrun).
  apply res_bind_require in Hrun as [Hz Hrun]. rewrite orb_false_r in Hz. apply N.eqb_eq in Hz as ->.
  apply res_bind_Ok in Hrun as (raw & Hraw & Hrun). apply res_bind_Ok in Hrun as (report & Hrep & Hval).
  split; [|split; [done|by exists raw, report]].
  apply passing_record in Htool as (raw' & rows & _ & _ & Hpass). by exists rows.
Qed.

Lemma lane_passed_spec inv p root fields : lane_passed inv p root fields = Ok tt →
  Forall (λ name, report_staged inv name = Ok tt) REPORTS ∧
  kept_bytes inv ("before/" +:+ BASELINE) = kept_bytes inv ("final/" +:+ BASELINE) ∧
  inv_data inv !! "final/.jankurai/score-history.jsonl" = None ∧
  Forall (λ path, artifact_current inv p root path = Ok tt) ARTIFACTS.
Proof.
  unfold lane_passed. intros [_ Hl]%res_bind_require. apply res_bind_unit_any in Hl as [Hs Hl].
  apply res_bind_unit_any in Hl as [Hb Hl]. apply res_bind_require in Hl as [Hh Hc].
  apply try_for_Ok in Hs, Hb, Hc. split; [done|]. split; [|split; [|done]].
  - apply Forall_cons in Hb as [_ Hb]. apply Forall_cons in Hb as [Hb%audit_require_Ok _].
    by apply bool_decide_eq_true in Hb.
  - by apply inv_contains_false, negb_true_iff.
Qed.

Lemma report_staged_spec inv name : report_staged inv name = Ok tt → ∃ report,
  inv_get inv ("audit/.jankurai/" +:+ name) = Ok report ∧
  inv_get inv ("final/.jankurai/" +:+ name) = Ok report ∧
  inv_get inv ("final/target/jankurai/" +:+ name) = Ok report.
Proof.
  unfold report_staged. intros (o & Ho & Hs)%res_bind_Ok. apply res_bind_Ok in Hs as (b & Hb & ->%audit_require_Ok).
  apply res_bind_Ok in Hb as (a & Ha & Hb). case_bool_decide; [subst a|done].
  apply res_bind_Ok in Hb as (c & Hc & [= Hb%bool_decide_eq_true]). subst c. by exists o.
Qed.

Lemma artifact_current_spec inv p root path : artifact_current inv p root path = Ok tt →
  path ≠ ".ci-artifacts/observations/audit.json" →
  current_bytes p (root +:+ "/" +:+ path) = Ok (kept_bytes inv ("final/" +:+ path)).
Proof.
  unfold artifact_current. intros Ha Hne. destruct (String.eqb_spec path ".ci-artifacts/observations/audit.json");
    [done|]. apply res_bind_Ok in Ha as (c & Hc & Hk%audit_require_Ok%bool_decide_eq_true). by rewrite Hc, Hk.
Qed.

(** A run settled with status zero is an audit that passed. *)
Lemma validate_run_passed inv p root run policy t t' :
  validate_run inv p root run 0 policy t = (Ok tt, t') → passing_audit inv p root run policy.
Proof.
  unfold validate_run. intros Hrun. ostep Hrun doctor Hd. ostep Hrun tool Htool. ostep Hrun u Hins.
  destruct (N.eqb_spec doctor 0) as [->|Hne]; cbn [negb] in Hrun.
  2: { apply oret_Ok in Hrun as [Hrun _]. apply audit_require_Ok, andb_true_iff in Hrun as [Hz _].
       apply N.eqb_eq in Hz. congruence. }
  ostep Hrun settled Hset. destruct settled as [[lane fields] baseline].
  apply obind_Ok in Hrun as ([] & t1 & Hratchet & Hrun).
  apply obind_Ok in Hrun as ([] & t2 & Haudit & Hrun). apply oret_Ok in Hrun as [Hlane _].
  unfold lane_settled in Hset. apply res_bind_unit_any in Hset as [_ Hset].
  apply res_bind_Ok in Hset as (l & Hl & Hset). apply res_bind_Ok in Hset as (pid & _ & Hset).
  apply res_bind_require in Hset as [Hpid Hset]. apply andb_true_iff in Hpid as [_ ->%N.eqb_eq].
  apply res_bind_Ok in Hset as (raw & _ & Hset). apply res_bind_Ok in Hset as (fs & _ & Hset).
  apply res_bind_Ok in Hset as (fin & _ & Hset). apply res_bind_require in Hset as [_ Hset].
  apply res_bind_unit_any in Hset as [_ Hset]. apply res_bind_unit_any in Hset as [_ Hset].
  apply res_bind_Ok in Hset as (base & Hbase & [= <- <- <-]). simpl in Hlane.
  apply lane_passed_spec in Hlane as (Hstaged & Hsame & Hhist & Hcur).
  rewrite Forall_forall in Hstaged, Hcur. split.
  - apply passing_record in Htool as (raw' & rows & _ & _ & Hpass). by exists rows.
  - apply native_run_passed in Haudit; [exact Haudit|done].
  - destruct (kept_bytes inv ("before/" +:+ BASELINE)) as [b|].
    + apply res_bind_Ok in Hbase as (v & Hv & [= <-]). exists v. split; [done|].
      apply native_run_passed in Hratchet; [exact Hratchet|by eexists].
    + injection Hbase as <-. apply oret_Ok in Hratchet as [Hr%audit_require_Ok%negb_true_iff _].
      intros path. by apply inv_any_key_false.
  - intros name Hn. by apply report_staged_spec, Hstaged.
  - done.
  - done.
  - intros path Hp. by apply artifact_current_spec, Hcur.
Qed.
End Observation.
