(* ===== verification/AuditBootstrap.v ===== *)
(** [observation/bootstrap.rs] and [observation/bootstrap_inputs.rs] of
    [crates/bullet-git-workspace/src/bin/bullet-ci-jankurai]: the build of the audit
    tool itself, as its receipts, its output and the sources it was built from show it.

    [boot_env] is the bootstrap directory and the source tree as they are read. *)

From S2P Require Import Prelude Decimal StrictJson AuditJson Protocol AuditPolicy AuditInventory AuditTool AuditRecord AuditObservation.

Definition BOOT_REPORTS : list string := [
  "invocation.json"; "source.before.sha256z"; "source.after.sha256z"; "tools.sha256"; "sysroot.stdout";
  "sysroot.stderr"; "cargo.version"; "cargo.version.stderr"; "rustc.version"; "rustc.version.stderr";
  "cargo.argv"; "cargo.environment.json"; "cargo.stdout"; "cargo.stderr"; "cargo.exit"; "artifact.json";
  "tools.readback.stdout"; "tools.readback.stderr"; "subjects.sha256"; "bootstrap.exit"].
Definition BINARY : string := "target/debug/bullet-ci-jankurai".

Definition SOURCE_ROOTS : list string := [
  "Cargo.toml"; "Cargo.lock"; "rust-toolchain.toml"; "ops/ci/jankurai-bootstrap.sh";
  "crates/bullet-git-types/Cargo.toml"; "crates/bullet-git-types/src";
  "crates/bullet-git-journal/Cargo.toml"; "crates/bullet-git-journal/src";
  "crates/bullet-git-workspace/Cargo.toml"; "crates/bullet-git-workspace/src";
  "crates/bullet-gitd/Cargo.toml"; "crates/bullet-gitd/src"; "contracts/generated/rust"].

(** [str::replace] of one character. *)
Fixpoint str_replace (c : ascii) (by_ s : string) : string :=
  match s with
  | EmptyString => EmptyString
  | String d s => if Ascii.eqb c d then by_ +:+ str_replace c by_ s else String d (str_replace c by_ s)
  end.

Definition backslash : ascii := "092".
Definition line_feed : ascii := "010".

Section Bootstrap.
Context `{PolicyCrates float, ToolCrates float}.
Abbreviation Json := (Value float).
Abbreviation Inv := (Inventory (float:=float)).
Abbreviation Art := (Artifact (float:=float)).

(** [value[key]] *)
Definition idx (v : Json) (key : string) : Json := default VNull (get key v).

(** [checksum_line], as GNU [sha256sum] prints a line. *)
Definition checksum_line (name : string) (b : bytes) : bytes :=
  let escaped := char_contains backslash name || char_contains line_feed name in
  let path := str_replace line_feed (String backslash "n")
    (str_replace backslash (String backslash (String backslash EmptyString)) name) in
  as_bytes ((if escaped then String backslash EmptyString else "") +:+ sha256_hex b +:+ "  " +:+ path
    +:+ String line_feed EmptyString).

(** ** The environment *)

Inductive source_kind : Type := SDir | SFile | SOther.

Record boot_env : Type := {
  be_uid : N;
  be_directory : string → result Metadata string;              (** the opened bootstrap directory *)
  be_list : string → result (list (result dirent string)) string;
  be_read : string → result Art string;
  be_cargo_present : result bool string;                       (** [.cargo] *)
  be_kind : string → result source_kind string;
  be_children : string → result (list (result bytes string)) string;
  be_recheck : string → result Art string                      (** what is read again *)
}.

(** ** [bootstrap::collect] *)

Definition boot_directory (root run : string) : string :=
  root +:+ "/target/jankurai/bootstrap/" +:+ run_name run.

Definition boot_allowed : list string := BOOT_REPORTS ++ ["target"].

(** An entry of the bootstrap directory. *)
Definition boot_child (inv : Inv) (child : result dirent string) : result Inv string * Inv :=
  match (let? c := io child in ok_or (option_map (λ name, (c, name)) (from_utf8 (de_name c)))
           "BOOTSTRAP_NON_UTF8_ENTRY") with
  | Err e => (Err e, inv)
  | Ok (c, name) =>
      let inv := if bool_decide (name ∈ boot_allowed) then inv
        else push_omission ("build/" +:+ name) (push_issue ("BOOTSTRAP_EXTRA_ENTRY:" +:+ name) inv) in
      (if String.eqb name "target" then
         let? kind := io (de_kind c) in
         require (match kind with KDir => true | _ => false end) "BOOTSTRAP_TARGET_NOT_DIRECTORY" ;? Ok inv
       else Ok inv, inv)
  end.

(** The entries, up to one more than may be there. *)
Fixpoint boot_children (room : nat) (children : list (result dirent string)) (inv : Inv)
    {struct children} : result Inv string * Inv :=
  match children, room with
  | [], _ => (Ok inv, inv)
  | _, O => let inv := push_omission "build/unexamined-extra-entries" (push_issue "BOOTSTRAP_ENTRY_LIMIT" inv) in
            (Ok inv, inv)
  | child :: children, S room =>
      match boot_child inv child with
      | (Ok inv, _) => boot_children room children inv
      | failed => failed
      end
  end.

Definition total_bytes (inv : Inv) : N :=
  foldr (λ row n, blen (ar_bytes (snd row)) + n) 0 (map_to_list (inv_data inv)).

(** A receipt, or the binary. *)
Definition boot_artifact (env : boot_env) (directory name : string) (inv : Inv) : result Inv string * Inv :=
  match be_read env (directory +:+ "/" +:+ name) with
  | Err error =>
      let inv := push_omission ("build/" +:+ name)
        (push_issue ("BOOTSTRAP_ARTIFACT_UNREADABLE:" +:+ name +:+ ":" +:+ error) inv) in
      (Ok inv, inv)
  | Ok a =>
      match (require (String.eqb name BINARY || (blen (ar_bytes a) <=? 32 * 1024 * 1024))
               "BOOTSTRAP_REPORT_BYTE_LIMIT" ;?
             require (total_bytes inv + blen (ar_bytes a) <=? INVENTORY_BYTES) "INVENTORY_BYTE_LIMIT") with
      | Err e => (Err e, inv)
      | Ok _ =>
          let inv' := insert_artifact ("build/" +:+ name) a inv in
          (require (negb (inv_contains inv ("build/" +:+ name))) "BOOTSTRAP_DUPLICATE_ARTIFACT" ;? Ok inv', inv')
      end
  end.

Fixpoint boot_artifacts (env : boot_env) (directory : string) (names : list string) (inv : Inv)
    : result Inv string * Inv :=
  match names with
  | [] => (Ok inv, inv)
  | name :: names =>
      match boot_artifact env directory name inv with
      | (Ok inv, _) => boot_artifacts env directory names inv
      | failed => failed
      end
  end.

(** [collect]: the inventory it leaves, also when it fails. *)
Definition boot_collect (env : boot_env) (root run : string) (inv : Inv) : result unit string * Inv :=
  let directory := boot_directory root run in
  match (let? _ := absolute_parts (directory +:+ "/.lookup") in
         let? m := io (be_directory env directory) in
         require ((N.land (md_mode m) 4095 =? 448) && (md_uid m =? be_uid env))
           "BOOTSTRAP_DIRECTORY_OWNER_INVALID" ;?
         io (be_list env directory)) with
  | Err e => (Err e, inv)
  | Ok children =>
      match boot_children (length boot_allowed) children inv with
      | (Err e, inv) => (Err e, inv)
      | (Ok inv, _) =>
          match boot_artifacts env directory (BOOT_REPORTS ++ [BINARY]) inv with
          | (Err e, inv) => (Err e, inv)
          | (Ok inv, _) => (Ok tt, inv)
          end
      end
  end.

(** ** [bootstrap_inputs::current] *)

Definition SOURCE_ENTRIES : nat := 4096.
Definition SOURCE_BYTES : N := 64 * 1024 * 1024.

(** The children of a source directory, put on the stack. *)
Fixpoint push_children (entries : nat) (relative : string) (children : list (result bytes string))
    (pending : list string) : result (list string) string :=
  match children with
  | [] => Ok pending
  | child :: children =>
      require (length pending + entries <? SOURCE_ENTRIES)%nat "BOOTSTRAP_SOURCE_ENTRY_LIMIT" ;?
      let? raw := io child in
      let? name := ok_or (from_utf8 raw) "BOOTSTRAP_NON_UTF8_SOURCE" in
      push_children entries relative children (pending ++ [relative +:+ "/" +:+ name])
  end.

(** The walk; [None] when the fuel is out. *)
Fixpoint source_walk (fuel : nat) (env : boot_env) (root : string) (entries : nat) (pending : list string)
    (files : list (string * Art)) (total : N) : option (result (list (string * Art)) string) :=
  match last pending, fuel with
  | None, _ => Some (Ok files)
  | Some _, O => None
  | Some relative, S fuel =>
      let pending := removelast pending in
      let absolute := root +:+ "/" +:+ relative in
      match (require (S entries <=? SOURCE_ENTRIES)%nat "BOOTSTRAP_SOURCE_ENTRY_LIMIT" ;?
             io (be_kind env absolute)) with
      | Err e => Some (Err e)
      | Ok SDir =>
          match (let? _ := absolute_parts (absolute +:+ "/.lookup") in
                 let? children := io (be_children env absolute) in
                 push_children (S entries) relative children pending) with
          | Err e => Some (Err e)
          | Ok pending => source_walk fuel env root (S entries) pending files total
          end
      | Ok kind =>
          match (require (match kind with SFile => true | _ => false end) "BOOTSTRAP_SOURCE_NOT_REGULAR" ;?
                 let? a := be_read env absolute in
                 require (total + blen (ar_bytes a) <=? SOURCE_BYTES) "BOOTSTRAP_SOURCE_BYTE_LIMIT" ;?
                 let '(old, files) := btree_insert relative a files in
                 require (negb (bool_decide (is_Some old))) "BOOTSTRAP_DUPLICATE_SOURCE" ;?
                 Ok (a, files)) with
          | Err e => Some (Err e)
          | Ok (a, files) =>
              source_walk fuel env root (S entries) pending files (total + blen (ar_bytes a))
          end
      end
  end.

(** Every turn of the walk counts an entry, and 4,096 are allowed. *)
Definition SOURCE_FUEL : nat := S SOURCE_ENTRIES.

Definition source_line (row : string * Art) : bytes :=
  as_bytes (sha256_hex (ar_bytes (snd row)) +:+ "  " +:+ fst row) ++ [x00].

(** [current]: the listing of the sources, and the sources. *)
Definition current_sources (env : boot_env) (root : string) : option (result (bytes * list Art) string) :=
  match io (be_cargo_present env) with
  | Err e => Some (Err e)
  | Ok cargo =>
      let pending := SOURCE_ROOTS ++ (if cargo then [".cargo"] else []) in
      let first := as_bytes (if cargo then "PRESENT .cargo" else "ABSENT .cargo") ++ [x00] in
      match source_walk SOURCE_FUEL env root 0 pending [] 0 with
      | None => None
      | Some (Err e) => Some (Err e)
      | Some (Ok files) =>
          Some (try_for (λ row, recheck (be_recheck env) (snd row)) files ;?
                Ok (first ++ concat (map source_line files), map snd files))
      end
  end.

(** ** [bootstrap::validate] *)

(** One line of Cargo's messages; what was counted so far. *)
Definition cargo_line (root executable : string) (counts : nat * nat) (line : bytes)
    : result (nat * nat) string :=
  let '(selected, finished) := counts in
  let? value := report_decode line in
  let? selected := (if is_str (idx value "reason") "compiler-artifact"
      && is_str (idx (idx value "target") "name") "bullet-ci-jankurai" then
    require (is_str (idx (idx value "target") "src_path")
               (root +:+ "/crates/bullet-git-workspace/src/bin/bullet-ci-jankurai/main.rs")
      && json_eqb (idx (idx value "target") "kind") (jstrs ["bin"])
      && is_bool (idx (idx value "profile") "test") false
      && is_bool (idx value "fresh") false
      && is_str (idx value "executable") executable) "BOOTSTRAP_CARGO_ARTIFACT_MISMATCH" ;?
    Ok (S selected)
  else Ok selected) in
  if is_str (idx value "reason") "build-finished" then
    require (json_eqb value (json_object [("reason", VString "build-finished"); ("success", VBool true)]))
      "BOOTSTRAP_CARGO_FAILED" ;?
    Ok (selected, S finished)
  else Ok (selected, finished).

Definition cargo_messages (b : bytes) (root executable : string) : result unit string :=
  let? '(selected, finished) := try_fold (cargo_line root executable) (0%nat, 0%nat)
    (List.filter (λ line, negb (bool_decide (line = []))) (split_lines b)) in
  require ((selected =? 1)%nat && (finished =? 1)%nat) "BOOTSTRAP_CARGO_SELECTION_INCOMPLETE".

Definition build_get (inv : Inv) (name : string) : result bytes string := inv_get inv ("build/" +:+ name).

Definition cargo_argv (sysroot root directory : string) : list string := [
  sysroot +:+ "/bin/cargo"; "build"; "--frozen"; "--manifest-path"; root +:+ "/Cargo.toml"; "--package";
  "bullet-git-workspace"; "--bin"; "bullet-ci-jankurai"; "--message-format=json"; "--target-dir";
  directory +:+ "/target"; "--jobs"; "2"].

(** One of the two tools of the toolchain: its line, and the tool. *)
Definition build_tool (env : boot_env) (inv : Inv) (sysroot name : string) : result (bytes * Art) string :=
  let path := sysroot +:+ "/bin/" +:+ name in
  let? tool := be_read env path in
  let? version := build_get inv (name +:+ ".version") in
  require (starts_with (name +:+ " 1.97.1 ") (String.string_of_list_byte version))
    "BOOTSTRAP_TOOL_VERSION_MISMATCH" ;?
  recheck (be_recheck env) tool ;?
  Ok (checksum_line path (ar_bytes tool), tool).

Definition environment_valid (environment : Json) (sysroot : string) : result unit string :=
  try_for (λ key,
    let? path := ok_or (as_str (idx environment key)) "BOOTSTRAP_ENVIRONMENT_INVALID" in
    let? _ := absolute_parts path in Ok tt) ["HOME"; "CARGO_HOME"] ;?
  require (json_eqb environment (json_object [("HOME", idx environment "HOME");
    ("CARGO_HOME", idx environment "CARGO_HOME"); ("PATH", VString (sysroot +:+ "/bin:/usr/bin:/bin"));
    ("RUSTC", VString (sysroot +:+ "/bin/rustc")); ("CARGO_NET_OFFLINE", VString "true");
    ("CARGO_INCREMENTAL", VString "0"); ("LANG", VString "C"); ("LC_ALL", VString "C");
    ("TZ", VString "UTC0")])) "BOOTSTRAP_ENVIRONMENT_MISMATCH".

(** [tools] *)
Definition build_tools (env : boot_env) (inv : Inv) (root directory : string) : result (list Art) string :=
  let? raw := build_get inv "sysroot.stdout" in
  let? text := utf8 raw in
  let? sysroot := ok_or (strip_suffix (String line_feed EmptyString) text) "BOOTSTRAP_SYSROOT_NEWLINE_REQUIRED" in
  let? _ := absolute_parts sysroot in
  let? tools := try_map (build_tool env inv sysroot) ["cargo"; "rustc"] in
  let? hashes := build_get inv "tools.sha256" in
  require (bool_decide (hashes = concat (map fst tools))) "BOOTSTRAP_TOOL_DRIFT" ;?
  let? argv := build_get inv "cargo.argv" in
  require (bool_decide (argv = argv_bytes (cargo_argv sysroot root directory))) "BOOTSTRAP_CARGO_ARGV_MISMATCH" ;?
  let? raw := build_get inv "cargo.environment.json" in
  let? environment := report_decode raw in
  environment_valid environment sysroot ;?
  Ok (map snd tools).

(** The binary: what the receipt says of it, and what it is. *)
Definition binary_valid (env : boot_env) (inv : Inv) (run executable : string) : result unit string :=
  let? raw := build_get inv "artifact.json" in
  let? artifact := report_decode raw in
  let? binary := build_get inv BINARY in
  require (json_eqb artifact (json_object [("schema", VString "bullet.audit-bootstrap.v1"); ("run", VString run);
    ("purpose", VString "audit"); ("executable", VString executable); ("sha256", VString (sha256_hex binary));
    ("evidence_class", VString "local_diagnostic"); ("continuous_custody", VBool false)]))
    "BOOTSTRAP_BINARY_SUBJECT_MISMATCH" ;?
  require (bool_decide (take 5 binary = [x7f; x45; x4c; x46; x02])) "BOOTSTRAP_BINARY_NOT_ELF64" ;?
  let identity := idx (default VNull (ar_subject <$> inv_data inv !! ("build/" +:+ BINARY))) "identity" in
  require (match as_u64 (idx identity "mode") with
           | Some mode => negb (N.land mode 73 =? 0) && (N.land mode 18 =? 0)
           | None => false
           end && is_u64 (idx identity "uid") (be_uid env)) "BOOTSTRAP_BINARY_PERMISSIONS_INVALID".

(** [validate], given the sources of now: the inputs of the build. *)
Definition boot_validate_with (env : boot_env) (inv : Inv) (root run : string) (sources : bytes)
    (inputs : list Art) : result (list Art) string :=
  let? before := build_get inv "source.before.sha256z" in
  let? after := build_get inv "source.after.sha256z" in
  require (bool_decide (before = after) && bool_decide (before = sources)) "BOOTSTRAP_SOURCE_DRIFT" ;?
  let? checksums := try_map (λ name, let? b := build_get inv name in Ok (checksum_line name b))
    (take 18 BOOT_REPORTS) in
  let? subjects := build_get inv "subjects.sha256" in
  require (bool_decide (subjects = concat checksums)) "BOOTSTRAP_SUBJECT_INVENTORY_MISMATCH" ;?
  let directory := boot_directory root run in
  let executable := directory +:+ "/" +:+ BINARY in
  binary_valid env inv run executable ;?
  let? messages := build_get inv "cargo.stdout" in
  cargo_messages messages root executable ;?
  let? tools := build_tools env inv root directory in
  Ok (inputs ++ tools).

Definition boot_validate (env : boot_env) (inv : Inv) (root run : string) : option (result (list Art) string) :=
  match (inv_argv inv "bootstrap" ["jankurai_bootstrap_prepare"; run] ;?
         let? passed := all_of [
           let? s := inv_exit inv "bootstrap.exit" in Ok (s =? 0);
           let? s := inv_exit inv "build/bootstrap.exit" in Ok (s =? 0);
           let? s := inv_exit inv "build/cargo.exit" in Ok (s =? 0)] in
         require passed "BOOTSTRAP_NOT_PASSING" ;?
         let? mine := build_get inv "invocation.json" in
         let? run's := inv_get inv "invocation.json" in
         require (bool_decide (mine = run's)) "BOOTSTRAP_FOREIGN_INVOCATION") with
  | Err e => Some (Err e)
  | Ok _ =>
      match current_sources env root with
      | None => None
      | Some (Err e) => Some (Err e)
      | Some (Ok (sources, inputs)) => Some (boot_validate_with env inv root run sources inputs)
      end
  end.

(** ** Lemmas *)

Lemma source_walk_total fuel env root entries pending files total :
  (entries ≤ SOURCE_ENTRIES)%nat → (SOURCE_FUEL ≤ fuel + entries)%nat →
  is_Some (source_walk fuel env root entries pending files total).
Proof.
  unfold SOURCE_FUEL. revert entries pending files total.
  induction fuel as [|fuel IH]; intros entries pending files total He Hf; [lia|]. cbn [source_walk].
  destruct (last pending) as [relative|]; [|by eexists]. cbv zeta.
  destruct (require (S entries <=? SOURCE_ENTRIES)%nat _ ;? _) as [k|e] eqn:Ek; [|by eexists].
  apply res_bind_require in Ek as [Hle%Nat.leb_le _]. destruct k.
  - destruct (let? _ := absolute_parts _ in _) as [p|e]; [|by eexists]. apply IH; [done|lia].
  - destruct (require _ _ ;? _) as [[a files']|e]; [|by eexists]. apply IH; [done|lia].
  - destruct (require _ _ ;? _) as [[a files']|e]; [|by eexists]. apply IH; [done|lia].
Qed.

(** The walk over the sources ends. *)
Lemma current_sources_total env root : is_Some (current_sources env root).
Proof.
  unfold current_sources. destruct (io (be_cargo_present env)) as [cargo|e]; [|by eexists].
  destruct (source_walk_total SOURCE_FUEL env root 0 (SOURCE_ROOTS ++ (if cargo then [".cargo"] else [])) [] 0)
    as [[files|e] ->]; [lia|lia|by eexists|by eexists].
Qed.

Lemma boot_validate_total env inv root run : is_Some (boot_validate env inv root run).
Proof.
  unfold boot_validate. destruct (inv_argv _ _ _ ;? _) as [u|e]; [|by eexists].
  destruct (current_sources_total env root) as [[[sources inputs]|e] ->]; by eexists.
Qed.

(** ** Specification: a build whose receipts hold *)

Record built (env : boot_env) (inv : Inv) (root run : string) : Prop := {
  (** the three exits are zero *)
  bu_exits : inv_exit inv "bootstrap.exit" = Ok 0 ∧ inv_exit inv "build/bootstrap.exit" = Ok 0 ∧
    inv_exit inv "build/cargo.exit" = Ok 0;
  (** the sources were the same before the build and after it, and still are *)
  bu_sources : ∃ sources inputs, current_sources env root = Some (Ok (sources, inputs)) ∧
    build_get inv "source.before.sha256z" = Ok sources ∧ build_get inv "source.after.sha256z" = Ok sources;
  (** the receipt names the retained binary by its digest *)
  bu_binary : ∃ raw artifact binary, build_get inv "artifact.json" = Ok raw ∧ report_decode raw = Ok artifact ∧
    build_get inv BINARY = Ok binary ∧
    get "sha256" artifact = Some (VString (sha256_hex binary)) ∧ get "run" artifact = Some (VString run);
  (** it is the build of this invocation *)
  bu_invocation : ∃ b, build_get inv "invocation.json" = Ok b ∧ inv_get inv "invocation.json" = Ok b;
  (** every receipt is as it was when they were summed *)
  bu_subjects : ∃ sums, build_get inv "subjects.sha256" = Ok (concat sums) ∧
    Forall2 (λ name sum, ∃ b, build_get inv name = Ok b ∧ sum = checksum_line name b)
      (take 18 BOOT_REPORTS) sums
}.

Lemma value_eqb_members l m k :
  forallb2 (λ x y : string * Json, match x, y with (k, v), (k', w) => String.eqb k k' && json_eqb v w end) l m
    = true →
  match map_get k l, map_get k m with
  | Some v, Some w => json_eqb v w = true
  | None, None => True
  | _, _ => False
  end.
Proof.
  revert m. induction l as [|[k1 v] l IH]; intros [|[k2 w] m]; try done. simpl.
  intros [[->%String.eqb_eq Hv]%andb_true_iff Hm]%andb_true_iff. rewrite !map_get_cons.
  destruct (String.eqb k k2); [done|]. by apply IH.
Qed.

(** Equal values have equal members. *)
Lemma json_eqb_get v w k : json_eqb v w = true →
  match get k v, get k w with
  | Some x, Some y => json_eqb x y = true
  | None, None => True
  | _, _ => False
  end.
Proof.
  unfold get. destruct v as [| | | | |l], w as [| | | | |m]; try done. simpl. intros Hm.
  by apply value_eqb_members.
Qed.

Lemma json_eqb_get_str v w k s : json_eqb v w = true → get k w = Some (VString s) → get k v = Some (VString s).
Proof.
  intros He Hw. pose proof (json_eqb_get v w k He) as Hg. rewrite Hw in Hg.
  destruct (get k v) as [x|]; [|done]. by apply value_eqb_str in Hg as ->.
Qed.

Lemma binary_valid_spec env inv run executable : binary_valid env inv run executable = Ok tt →
  ∃ raw artifact binary, build_get inv "artifact.json" = Ok raw ∧ report_decode raw = Ok artifact ∧
    build_get inv BINARY = Ok binary ∧
    get "sha256" artifact = Some (VString (sha256_hex binary)) ∧ get "run" artifact = Some (VString run).
Proof.
  unfold binary_valid. intros (raw & Hraw & Hb)%res_bind_Ok. apply res_bind_Ok in Hb as (a & Ha & Hb).
  apply res_bind_Ok in Hb as (b & Hbin & Hb). apply res_bind_require in Hb as [He _].
  exists raw, a, b. split; [done|]. split; [done|]. split; [done|].
  split; (eapply json_eqb_get_str; [exact He|]); by rewrite get_json_object.
Qed.

Lemma boot_validate_built env inv root run inputs :
  boot_validate env inv root run = Some (Ok inputs) → built env inv root run.
Proof.
  unfold boot_validate. destruct (inv_argv _ _ _ ;? _) as [[]|e] eqn:Eh; [|done].
  destruct (current_sources env root) as [[[sources ins]|e]|] eqn:Es; [|done..]. intros [= Hv].
  apply res_bind_unit_any in Eh as [_ Eh]. apply res_bind_Ok in Eh as (passed & Hp & Eh).
  apply res_bind_require in Eh as [-> Eh]. apply all_of_true in Hp. rewrite !Forall_cons in Hp.
  destruct Hp as ((a & Ha & [= ->%N.eqb_eq])%res_bind_Ok & (b & Hb & [= ->%N.eqb_eq])%res_bind_Ok &
    (c & Hc & [= ->%N.eqb_eq])%res_bind_Ok & _).
  apply res_bind_Ok in Eh as (mine & Hmine & Eh). apply res_bind_Ok in Eh as (their & Htheir & Eh).
  apply audit_require_Ok, bool_decide_eq_true in Eh. subst their.
  unfold boot_validate_with in Hv. apply res_bind_Ok in Hv as (before & Hbef & Hv).
  apply res_bind_Ok in Hv as (after & Haft & Hv). apply res_bind_require in Hv as [Hdrift Hv].
  apply andb_true_iff in Hdrift as [H1'%bool_decide_eq_true H2'%bool_decide_eq_true]. subst after before.
  apply res_bind_Ok in Hv as (sums & Hsums%try_map_Ok & Hv). apply res_bind_Ok in Hv as (subj & Hsubj & Hv).
  apply res_bind_require in Hv as [->%bool_decide_eq_true Hv]. apply res_bind_unit_any in Hv as [Hbin _].
  split.
  - done.
  - by exists sources, ins.
  - by eapply binary_valid_spec.
  - by exists mine.
  - exists sums. split; [done|]. eapply Forall2_impl; [exact Hsums|].
    intros name sum (x & Hx & [= <-])%res_bind_Ok. by exists x.
Qed.
End Bootstrap.
