(* ===== verification/AuditCapture.v ===== *)
(** [artifacts.rs], [report.rs], [observation/mod.rs], [observation/cli.rs] and the
    dispatch of [tool.rs] in [crates/bullet-git-workspace/src/bin/bullet-ci-jankurai]:
    reading and publishing artifacts, the repository's policy, the observation of an
    audit run and the later check of that observation.

    [capture_env] is what the disk and Git answer, each in its turn. *)

From S2P Require Import Prelude Decimal StrictJson AuditJson Protocol AuditPolicy AuditInventory AuditTool AuditRecord AuditAgreement AuditObservation AuditBootstrap.

Definition MAX_FILE : N := 64 * 1024 * 1024.

Definition SCHEMA : string := "bullet.local-audit-observation.v1".
Definition CLASS : string := "LOCAL_AUDIT_DIAGNOSTIC".
Definition LIMITATIONS : string :=
  "Unsigned local point-in-time diagnostics; no continuous source/runtime custody, installed distribution or aggregate event acceptance".
Definition INTERMEDIATES : string :=
  "target/ except the exact emitted target/debug/bullet-ci-jankurai; cache contents are not accepted proof inputs".

(** [char::is_ascii_alphanumeric] *)
Definition is_alphanumeric (c : ascii) : bool :=
  let n := Ascii.N_of_ascii c in
  ((48 <=? n) && (n <=? 57)) || ((65 <=? n) && (n <=? 90)) || ((97 <=? n) && (n <=? 122)).

Section Capture.
Context `{PolicyCrates float, ToolCrates float}.
Abbreviation Json := (Value float).
Abbreviation Inv := (Inventory (float:=float)).
Abbreviation Art := (Artifact (float:=float)).

(** ** [artifacts::read] *)

(** One read of one file: two lookups, the bytes between them, and the file again. *)
Record file_view : Type := {
  fv_open : list string → result (result Metadata string * list Ancestor) string;
  fv_bytes : result bytes string;                  (** at most one byte more than the limit *)
  fv_after : result Metadata string;
  fv_reopen : list string → result (result Metadata string * list Ancestor) string
}.

Definition artifact_subject (b : bytes) (i : Identity) : Json := json_object [
  ("sha256", VString (sha256_hex b)); ("size", jnum (blen b)); ("identity", identity_json i)].

Definition read_artifact (view : file_view) (path : string) : result Art string :=
  let? '(opened, ancestors) := open_candidate (fv_open view) path in
  let? metadata := io opened in
  fail_if (negb (is_file metadata) || (MAX_FILE <? md_size metadata)) "ARTIFACT_KIND_OR_LIMIT" ;?
  let? b := io (fv_bytes view) in
  fail_if (MAX_FILE <? blen b) "ARTIFACT_LIMIT" ;?
  let? after := io (fv_after view) in
  fail_if (negb (bool_decide (identity_of metadata = identity_of after))) "ARTIFACT_CHANGED_DURING_READ" ;?
  let? '(current, current_ancestors) := open_candidate (fv_reopen view) path in
  let? m := io current in
  fail_if (negb (bool_decide (identity_of metadata = identity_of m))
    || negb (bool_decide (ancestors = current_ancestors))) "ARTIFACT_LOOKUP_CHANGED" ;?
  Ok {| ar_bytes := b; ar_subject := artifact_subject b (identity_of metadata); ar_path := path |}.

(** ** [artifacts::publish] *)

Record publish_env : Type := {
  pe_parent : result (list Ancestor) string;
  pe_create : result unit string;          (** exclusive *)
  pe_write : result unit string;
  pe_sync : result unit string;
  pe_parent_sync : result unit string;
  pe_parent_again : result (list Ancestor) string;
  pe_read : result Art string
}.

(** Whether the file was made, with the outcome. *)
Definition publish (env : publish_env) (path : string) (b : bytes) : result unit string * bool :=
  match (fail_if (MAX_FILE <? blen b) "OUTPUT_LIMIT" ;?
         let? _ := absolute_parts path in
         let? ancestors := io (pe_parent env) in
         io (pe_create env) ;? Ok ancestors) with
  | Err e => (Err e, false)
  | Ok ancestors =>
      (io (pe_write env) ;? io (pe_sync env) ;? io (pe_parent_sync env) ;?
       let? current := io (pe_parent_again env) in
       let? same := (if bool_decide (current = ancestors)
         then let? a := pe_read env in Ok (bool_decide (ar_bytes a = b)) else Ok false) in
       fail_if (negb same) "OUTPUT_READBACK_MISMATCH", true)
  end.

(** ** [report.rs] *)

Record capture_env : Type := {
  ce_uid : N;
  ce_run_directory : result Metadata string;
  ce_invocation : string → result Art string;
  ce_scan : run_dir (float:=float);
  ce_boot : boot_env (float:=float);
  ce_git_config : string → result Art string;
  ce_new_directory : string → result unit string;   (** [artifacts::new_directory] *)
  ce_pin : result Json string;                      (** the pinned Git: its subject *)
  ce_git : list string → result bytes string;
  ce_policy : string → result Art string;
  ce_place : place (float:=float);
  ce_again : string → result Art string;            (** what is read again at the end *)
  ce_git_again : list string → result bytes string
}.

(** [Repository::new]: the subject of the Git it will use. *)
Definition repository_new (env : capture_env) (root runtime : string) : result Json string :=
  let? _ := absolute_parts root in
  let? _ := absolute_parts runtime in
  fail_if (path_within runtime root) "RUNTIME_MUST_BE_OUTSIDE_SOURCE" ;?
  let? _ := ce_git_config env (root +:+ "/.git/config") in
  let? _ := ce_new_directory env runtime in
  io (ce_pin env).

(** [Repository::head]; what Git prints is ASCII. *)
Definition repository_head (git : list string → result bytes string) : result string string :=
  let? b := git ["rev-parse"; "--verify"; "HEAD"] in
  let? text := utf8 b in
  let value := trim text in
  fail_if (negb ((slen value =? 40) || (slen value =? 64)) || negb (chars_all is_lower_hex_char value))
    "INVALID_COMMIT_ID" ;?
  Ok value.

(** [Repository::policy]: the head, and the policy file, which is the committed one. *)
Definition repository_policy (env : capture_env) (root : string) : result (string * Art) string :=
  let? head := repository_head (ce_git env) in
  let? policy := ce_policy env (root +:+ "/agent/audit-policy.toml") in
  let? committed := ce_git env ["show"; head +:+ ":agent/audit-policy.toml"] in
  fail_if (negb (bool_decide (committed = ar_bytes policy))) "UNCOMMITTED_POLICY" ;?
  Ok (head, policy).

(** Options in pairs: no other, none twice. *)
Definition take_option (allowed : list string) (refusal : string) (check : string → result unit string)
    (options : list (string * string)) (pair : string * string) : result (list (string * string)) string :=
  let '(key, value) := pair in
  let '(old, options') := btree_insert key value options in
  fail_if (negb (bool_decide (key ∈ allowed)) || bool_decide (is_Some old)) refusal ;?
  check value ;?
  Ok options'.

Definition option_get (options : list (string * string)) (key : string) : option string :=
  snd <$> (list_find (λ kv, fst kv = key) options ≫= λ '(_, kv), Some kv).

Definition report_options : list string := ["--root"; "--runtime"; "--report"; "--baseline"].

(** [report::entry]: what it prints is left out. *)
Definition report_entry (env : capture_env) (read : string → result Art string) (args : list string)
    : result unit string :=
  fail_if (negb (Nat.even (length args))) "REPORT_OPTION_VALUE_REQUIRED" ;?
  let? options := try_fold (take_option report_options "UNSUPPORTED_OR_DUPLICATE_REPORT_OPTION"
    (λ value, let? _ := absolute_parts value in Ok tt)) [] (pairs args) in
  let? root := ok_or (option_get options "--root") "REPORT_ROOT_REQUIRED" in
  let? runtime := ok_or (option_get options "--runtime") "REPORT_RUNTIME_REQUIRED" in
  let? report_path := ok_or (option_get options "--report") "REPORT_PATH_REQUIRED" in
  let? _ := repository_new env root runtime in
  let? '(head, policy) := repository_policy env root in
  let? report := read report_path in
  let? baseline := match option_get options "--baseline" with
    | Some path => let? a := read path in Ok (Some a)
    | None => Ok None
    end in
  let? parsed := report_decode (ar_bytes report) in
  let? parsed_baseline := match baseline with
    | Some a => let? v := report_decode (ar_bytes a) in Ok (Some v)
    | None => Ok None
    end in
  validate parsed (ar_bytes policy) parsed_baseline ;?
  recheck (ce_again env) report ;?
  recheck (ce_again env) policy ;?
  match baseline with Some a => recheck (ce_again env) a | None => Ok tt end ;?
  let? again := repository_head (ce_git_again env) in
  fail_if (negb (String.eqb again head)) "COMMIT_CHANGED".

(** ** [observation::invocation] *)

Definition run_path_valid (root run : string) : result string string :=
  let name := run_name run in
  let? suffix := ok_or (strip_prefix "run." name) "AUDIT_RUN_PATH_INVALID" in
  require (String.eqb run (root +:+ "/target/jankurai/audit-runs/" +:+ name)
    && (slen suffix =? 8) && chars_all is_alphanumeric suffix) "AUDIT_RUN_PATH_INVALID" ;?
  Ok name.

Definition invocation (env : capture_env) (root run : string) (parent : option N) : result Json string :=
  let? _ := absolute_parts root in
  let? _ := absolute_parts run in
  let? name := run_path_valid root run in
  let? metadata := io (ce_run_directory env) in
  require ((N.land (md_mode metadata) 4095 =? 448) && (md_uid metadata =? ce_uid env)) "AUDIT_RUN_OWNER_INVALID" ;?
  let? input := ce_invocation env (run +:+ "/invocation.json") in
  let? value := report_decode (ar_bytes input) in
  let? v := obs_field value "parent_pid" in
  let? pid := ok_or (filtered (λ pid, (0 <? pid) && (pid <=? u32_max)) (as_u64 v)) "AUDIT_RUN_PARENT_MISMATCH" in
  require (match parent with Some parent => parent =? pid | None => true end) "AUDIT_RUN_PARENT_MISMATCH" ;?
  let identity := idx (ar_subject input) "identity" in
  require (json_eqb value (json_object [("schema", VString "bullet.audit-invocation.v1"); ("id", VString name);
      ("repository", VString root); ("origin", VString "dispatcher"); ("parent_pid", jnum pid)])
    && match as_u64 (idx identity "mode") with Some mode => N.land mode 4095 =? 384 | None => false end
    && is_u64 (idx identity "uid") (ce_uid env)) "AUDIT_INVOCATION_INVALID" ;?
  Ok value.

(** ** [observation::collect] *)

(** What the closure has found so far. *)
Record found : Type := {
  fo_inventory : Inv;
  fo_commit : option string;
  fo_tree : option string;
  fo_clean : bool;
  fo_policy : option Json;
  fo_git : option Json;
  fo_tools : list (string * Json)
}.
Definition found0 (inv : Inv) : found := {|
  fo_inventory := inv; fo_commit := None; fo_tree := None; fo_clean := false; fo_policy := None;
  fo_git := None; fo_tools := [] |}.

(** From the tree of the head to the validation of the run: the inputs of the build
    and the tools. *)
Definition with_git (git : Json) (f : found) : found := {|
  fo_inventory := fo_inventory f; fo_commit := fo_commit f; fo_tree := fo_tree f; fo_clean := fo_clean f;
  fo_policy := fo_policy f; fo_git := Some git; fo_tools := fo_tools f |}.
Definition with_policy (head : string) (policy : Art) (f : found) : found := {|
  fo_inventory := fo_inventory f; fo_commit := Some head; fo_tree := fo_tree f; fo_clean := fo_clean f;
  fo_policy := Some (ar_subject policy); fo_git := fo_git f; fo_tools := fo_tools f |}.
Definition with_tree (tree : string) (f : found) : found := {|
  fo_inventory := fo_inventory f; fo_commit := fo_commit f; fo_tree := Some tree; fo_clean := fo_clean f;
  fo_policy := fo_policy f; fo_git := fo_git f; fo_tools := fo_tools f |}.
Definition with_clean (clean : bool) (f : found) : found := {|
  fo_inventory := fo_inventory f; fo_commit := fo_commit f; fo_tree := fo_tree f; fo_clean := clean;
  fo_policy := fo_policy f; fo_git := fo_git f; fo_tools := fo_tools f |}.
Definition with_tools (tools : list (string * Json)) (f : found) : found := {|
  fo_inventory := fo_inventory f; fo_commit := fo_commit f; fo_tree := fo_tree f; fo_clean := fo_clean f;
  fo_policy := fo_policy f; fo_git := fo_git f; fo_tools := tools |}.

(** The last part of the closure: nothing has changed meanwhile. *)
Definition collect_recheck (env : capture_env) (inv : Inv) (head : string) (policy : Art) (inputs : list Art)
    : result unit string :=
  inv_recheck (ce_again env) inv ;?
  recheck (ce_again env) policy ;?
  try_for (recheck (ce_again env)) inputs ;?
  let? again := repository_head (ce_git_again env) in
  require (String.eqb again head) "COMMIT_CHANGED".

Definition collect_settled (env : capture_env) (root run : string) (status : N) (head : string) (policy : Art)
    (f : found) : option (result unit string * found) :=
  match (let? b := ce_git env ["rev-parse"; "--verify"; head +:+ "^{tree}"] in utf8 b) with
  | Err e => Some (Err e, f)
  | Ok text =>
      let f := with_tree (trim text) f in
      match ce_git env ["status"; "--porcelain"; "--untracked-files=normal"] with
      | Err e => Some (Err e, f)
      | Ok b =>
          let f := with_clean (bool_decide (b = [])) f in
          match boot_validate (ce_boot env) (fo_inventory f) root run with
          | None => None
          | Some (Err e) => Some (Err e, f)
          | Some (Ok inputs) =>
              let '(settled, tools) :=
                validate_run (fo_inventory f) (ce_place env) root run status (ar_bytes policy) (fo_tools f) in
              let f := with_tools tools f in
              Some ((settled ;? collect_recheck env (fo_inventory f) head policy inputs), f)
          end
      end
  end.

(** The closure. *)
Definition collect_validation (env : capture_env) (root run : string) (status : N) (runtime : string)
    : option (result unit string * found) :=
  match scan (ce_scan env) run inventory_default with
  | None => None
  | Some (Err e, inv) => Some (Err e, found0 inv)
  | Some (Ok _, inv) =>
      match boot_collect (ce_boot env) root run inv with
      | (Err e, inv) => Some (Err e, found0 inv)
      | (Ok _, inv) =>
          match repository_new env root runtime with
          | Err e => Some (Err e, found0 inv)
          | Ok git =>
              let f := with_git git (found0 inv) in
              match repository_policy env root with
              | Err e => Some (Err e, f)
              | Ok (head, policy) =>
                  collect_settled env root run status head policy (with_policy head policy f)
              end
          end
      end
  end.

Definition jostr (o : option string) : Json := match o with Some s => VString s | None => VNull end.

(** The observation: it passes only for status zero with no issue. *)
Definition observation (root run : string) (status : N) (invocation : Json) (f : found) : Json :=
  let inv := fo_inventory f in
  json_object [
    ("schema_version", VString SCHEMA); ("repository", VString "bullet-git"); ("commit_oid", jostr (fo_commit f));
    ("tree_oid", jostr (fo_tree f)); ("clean", VBool (fo_clean f)); ("invocation", invocation);
    ("run_path", VString run); ("signed", VBool false); ("evidence_class", VString CLASS);
    ("artifact_hashes", VArray (inv_subjects inv)); ("tools", VObject (fo_tools f));
    ("git_tool", default VNull (fo_git f)); ("policy_subject", default VNull (fo_policy f));
    ("bootstrap_artifact_root", VString (root +:+ "/target/jankurai/bootstrap/" +:+ run_name run));
    ("primary_status", jnum status); ("integrity_issues", jstrs (inv_issues inv));
    ("omitted_artifacts", jstrs (inv_omissions inv));
    ("outcome", VString (if (status =? 0) && bool_decide (inv_issues inv = []) then "PASS" else "FAIL"));
    ("producer_outputs_excluded", jstrs PRODUCER); ("bootstrap_intermediates_excluded", VString INTERMEDIATES);
    ("limitations", VString LIMITATIONS)].

Definition with_issue (r : result unit string) (f : found) : found :=
  match r with
  | Ok _ => f
  | Err e => {| fo_inventory := push_issue e (fo_inventory f); fo_commit := fo_commit f; fo_tree := fo_tree f;
                fo_clean := fo_clean f; fo_policy := fo_policy f; fo_git := fo_git f; fo_tools := fo_tools f |}
  end.

Definition collect (env : capture_env) (root run : string) (status : N) (parent : option N) (runtime : string)
    : option (result Json string) :=
  match invocation env root run parent with
  | Err e => Some (Err e)
  | Ok inv =>
      match collect_validation env root run status runtime with
      | None => None
      | Some (r, f) => Some (Ok (observation root run status inv (with_issue r f)))
      end
  end.

(** ** [observation::capture] *)

Record capture_publish : Type := {
  cp_pretty : Json → bytes;                           (** [serde_json::to_vec_pretty] *)
  cp_first : publish_env;
  cp_directories : string → result bool string;       (** [create_dir]: whether it is new *)
  cp_lookup : string → result unit string;
  cp_second : publish_env
}.

(** The exit status, and the files that were made. *)
Definition capture (env : capture_env) (pub : capture_publish) (root run : string) (status parent : N)
    (runtime : string) : option (result N string * list string) :=
  match collect env root run status (Some parent) runtime with
  | None => None
  | Some (Err e) => Some (Err e, [])
  | Some (Ok report) =>
      let b := cp_pretty pub report ++ [newline] in
      let original := run +:+ "/observation.json" in
      let canonical := root +:+ "/.ci-artifacts/observations/audit.json" in
      Some (match publish (cp_first pub) original b with
      | (Err e, made) => (Err e, if made then [original] else [])
      | (Ok _, _) =>
          match try_for (λ path,
            let? _ := io (cp_directories pub path) in
            let? _ := absolute_parts (path +:+ "/.directory-lookup") in
            io (cp_lookup pub path)) [root +:+ "/.ci-artifacts"; root +:+ "/.ci-artifacts/observations"] with
          | Err e => (Err e, [original])
          | Ok _ =>
              match publish (cp_second pub) canonical b with
              | (Err e, made) => (Err e, original :: if made then [canonical] else [])
              | (Ok _, _) =>
                  ((let? _ := ok_or (get "outcome" report ≫= as_str) "OUTCOME_INVALID" in
                    let? issues := ok_or (as_array (idx report "integrity_issues")) "ISSUES_INVALID" in
                    Ok (match issues with [] => 0 | _ => 75 end)), [original; canonical])
              end
          end
      end)
  end.

(** ** [observation::check] *)

Definition check (env : capture_env) (read : string → result Art string) (root commit runtime : string)
    : option (result unit string) :=
  match (let? raw := read (root +:+ "/.ci-artifacts/observations/audit.json") in
         let? saved := report_decode (ar_bytes raw) in
         let? v := obs_field saved "run_path" in
         let? run := ok_or (as_str v) "RUN_PATH_INVALID" in
         let? original := read (run +:+ "/observation.json") in
         require (bool_decide (ar_bytes original = ar_bytes raw)) "PUBLISHED_OBSERVATION_MISMATCH" ;?
         let? v := obs_field saved "primary_status" in
         let? status := ok_or (filtered (λ s, s <=? 255) (as_u64 v)) "PRIMARY_STATUS_INVALID" in
         Ok (raw, saved, run, original, status)) with
  | Err e => Some (Err e)
  | Ok (raw, saved, run, original, status) =>
      match collect env root run status None runtime with
      | None => None
      | Some (Err e) => Some (Err e)
      | Some (Ok current) =>
          Some (
            require (json_eqb saved current) "OBSERVATION_OR_ARTIFACT_DRIFT" ;?
            recheck (ce_again env) raw ;?
            recheck (ce_again env) original ;?
            let? passing := all_of [
              let? v := obs_field saved "commit_oid" in Ok (is_str v commit);
              let? v := obs_field saved "clean" in Ok (is_bool v true);
              let? v := obs_field saved "outcome" in Ok (is_str v "PASS")] in
            require passing "LOCAL_AUDIT_NOT_PASSING")
      end
  end.

(** ** [cli::entry] *)

Definition command_options (command : string) : option (list string) :=
  if String.eqb command "capture" then Some ["--root"; "--runtime"; "--run"; "--status"]
  else if String.eqb command "check" then Some ["--root"; "--runtime"; "--commit"]
  else None.

Definition options_of (command : string) (args : list string) : result (list (string * string)) string :=
  require (Nat.even (length args)) "OBSERVATION_OPTION_VALUE_REQUIRED" ;?
  let? allowed := ok_or (command_options command) "OBSERVATION_COMMAND_INVALID" in
  let? options := try_fold (take_option allowed "OBSERVATION_OPTION_INVALID" (λ _, Ok tt)) [] (pairs args) in
  require (length options =? length allowed)%nat "OBSERVATION_OPTIONS_MISSING" ;?
  Ok options.

Definition option_value (options : list (string * string)) (key : string) : string :=
  default "" (option_get options key).

(** The exit status of [capture] or [check]. *)
Definition observation_entry (env : capture_env) (pub : capture_publish) (read : string → result Art string)
    (parent : option N) (command : string) (args : list string) : option (result N string) :=
  match (let? options := options_of command args in
         let? _ := absolute_parts (option_value options "--root") in
         let? _ := absolute_parts (option_value options "--runtime") in
         Ok options) with
  | Err e => Some (Err e)
  | Ok options =>
      let root := option_value options "--root" in
      let runtime := option_value options "--runtime" in
      if String.eqb command "capture" then
        match (let? parent := ok_or parent "PARENT_ID_UNAVAILABLE" in
               let? status := decimal (as_bytes (option_value options "--status")) in
               Ok (parent, status)) with
        | Err e => Some (Err e)
        | Ok (parent, status) =>
            option_map fst (capture env pub root (option_value options "--run") status parent runtime)
        end
      else
        option_map (res_map (λ _, 0)) (check env read root (option_value options "--commit") runtime)
  end.

(** ** [tool::entry]: the exit code *)

(** The two other entries, and the run of the tool, as they answer. *)
Definition tool_entry (report : list string → result unit string)
    (observe : string → list string → option (result N string)) (tool : Request → Z)
    (args : list (option string)) : option Z :=
  let exit (r : result N string) := match r with Ok status => Z.of_N status | Err _ => 75%Z end in
  let dispatch command rest :=
    match try_map (λ arg, ok_or arg "NON_UTF8_ARGUMENT") rest with
    | Err _ => Some 75%Z
    | Ok args =>
        if String.eqb command "report" then Some (exit (res_map (λ _, 0) (report args)))
        else option_map exit (observe command args)
    end in
  let run :=
    match parse args with
    | Ok request => Some (tool request)
    | Err _ => Some 2%Z
    end in
  if bool_decide (args = [Some "--help"]) then Some 0%Z
  else
    match args with
    | Some command :: rest =>
        if bool_decide (command ∈ ["report"; "capture"; "check"]) then dispatch command rest else run
    | _ => run
    end.

(** ** Lemmas *)

(** The bytes of an artifact are those read from a regular file that no lookup or
    identity distinguishes before and after. *)
Lemma read_artifact_spec view path a : read_artifact view path = Ok a →
  ar_path a = path ∧ fv_bytes view = Ok (ar_bytes a) ∧ blen (ar_bytes a) <= MAX_FILE ∧
  ∃ m, is_file m = true ∧ ar_subject a = artifact_subject (ar_bytes a) (identity_of m).
Proof.
  unfold read_artifact. intros ([o l] & _ & Hr)%res_bind_Ok. apply res_bind_Ok in Hr as (m & _ & Hr).
  apply res_bind_unit_any in Hr as [Hk%fail_if_Ok Hr]. apply res_bind_Ok in Hr as (b & Hb & Hr).
  apply res_bind_unit_any in Hr as [Hl%fail_if_Ok Hr]. apply res_bind_Ok in Hr as (m' & _ & Hr).
  apply res_bind_unit_any in Hr as [_ Hr]. apply res_bind_Ok in Hr as ([o' l'] & _ & Hr).
  apply res_bind_Ok in Hr as (m'' & _ & Hr). apply res_bind_unit_any in Hr as [_ [= <-]]. simpl.
  apply orb_false_iff in Hk as [Hk%negb_false_iff _]. apply N.ltb_ge in Hl.
  split; [done|]. split; [|split; [done|by exists m]].
  unfold io in Hb. destruct (fv_bytes view); simpl in Hb; congruence.
Qed.

Lemma json_eqb_get_str_r v w k s :
  json_eqb v w = true → get k v = Some (VString s) → get k w = Some (VString s).
Proof.
  intros He Hv. pose proof (json_eqb_get v w k He) as Hg. rewrite Hv in Hg.
  destruct (get k w) as [x|]; [|done]. apply (value_eqb_str_l f_eqb) in Hg. by rewrite Hg.
Qed.

Lemma json_eqb_get_bool v w k b :
  json_eqb v w = true → get k v = Some (VBool b) → get k w = Some (VBool b).
Proof.
  intros He Hv. pose proof (json_eqb_get v w k He) as Hg. rewrite Hv in Hg.
  destruct (get k w) as [[]|]; try done. simpl in Hg. by apply Bool.eqb_prop in Hg as ->.
Qed.

Lemma as_str_Some (v : Json) s : as_str v = Some s → v = VString s.
Proof. destruct v; simpl; congruence. Qed.
Lemma as_bool_Some (v : Json) b : as_bool v = Some b → v = VBool b.
Proof. destruct v; simpl; congruence. Qed.

Lemma observation_pass root run status inv r f :
  get "outcome" (observation root run status inv (with_issue r f)) = Some (VString "PASS") →
  status = 0 ∧ r = Ok tt ∧ inv_issues (fo_inventory f) = [].
Proof.
  unfold observation. rewrite get_json_object. simpl. intros [= Ho].
  destruct ((status =? 0) && _) eqn:E; [|done]. apply andb_true_iff in E as [Hs%N.eqb_eq Hi%bool_decide_eq_true].
  split; [done|]. destruct r as [[]|e]; simpl in Hi; [done|]. by destruct (inv_issues (fo_inventory f)).
Qed.

Lemma observation_commit root run status inv f s :
  get "commit_oid" (observation root run status inv f) = Some (VString s) → fo_commit f = Some s.
Proof. unfold observation. rewrite get_json_object. simpl. destruct (fo_commit f); by intros [= ->]. Qed.

Lemma observation_clean root run status inv f b :
  get "clean" (observation root run status inv f) = Some (VBool b) → fo_clean f = b.
Proof. unfold observation. rewrite get_json_object. simpl. by intros [= ->]. Qed.

(** Collecting the bootstrap directory only adds. *)
Definition issues_grow (a b : Inv) : Prop := ∀ i, i ∈ inv_issues a → i ∈ inv_issues b.

Lemma grow_refl (a : Inv) : issues_grow a a.
Proof. by intros i. Qed.
#[local] Hint Resolve grow_refl : core.

Lemma boot_child_issues inv child r inv' : boot_child inv child = (r, inv') →
  issues_grow inv inv' ∧ (∀ i, r = Ok i → i = inv').
Proof.
  unfold boot_child. destruct (let? c := io child in _) as [[c name]|e]; [|intros [= <- <-]; by split].
  intros [= <- <-]. split.
  - case_bool_decide; [done|]. intros i Hi. apply elem_of_app. by left.
  - intros i Hi. destruct (String.eqb name "target"); [|by injection Hi].
    apply res_bind_Ok in Hi as (k & _ & Hi). apply res_bind_require in Hi as [_ Hi]. by injection Hi.
Qed.

Lemma boot_children_issues room children inv r inv' : boot_children room children inv = (r, inv') →
  issues_grow inv inv' ∧ (∀ i, r = Ok i → i = inv').
Proof.
  revert room inv. induction children as [|c children IH]; intros room inv; simpl.
  - intros [= <- <-]. split; [done|congruence].
  - destruct room as [|room].
    + intros [= <- <-]. split; [|congruence]. intros i Hi. apply elem_of_app. by left.
    + destruct (boot_child inv c) as [[i|e] inv1] eqn:Ec; apply boot_child_issues in Ec as [Hg He].
      * pose proof (He i eq_refl) as ->. intros [Hg' He']%IH. split; [|done]. intros j Hj. by apply Hg', Hg.
      * intros [= <- <-]. by split.
Qed.

Lemma boot_artifact_issues env d name inv r inv' : boot_artifact env d name inv = (r, inv') →
  issues_grow inv inv' ∧ (∀ i, r = Ok i → i = inv').
Proof.
  unfold boot_artifact. destruct (be_read env _) as [a|e].
  - destruct (require _ _ ;? _) as [u|e]; [|intros [= <- <-]; by split].
    intros [= <- <-]. split; [by intros j|]. intros i [_ [= <-]]%res_bind_require. done.
  - intros [= <- <-]. split; [|congruence]. intros i Hi. apply elem_of_app. by left.
Qed.

Lemma boot_artifacts_issues env d names inv r inv' : boot_artifacts env d names inv = (r, inv') →
  issues_grow inv inv' ∧ (∀ i, r = Ok i → i = inv').
Proof.
  revert inv. induction names as [|name names IH]; intros inv; simpl.
  - intros [= <- <-]. split; [done|congruence].
  - destruct (boot_artifact env d name inv) as [[i|e] inv1] eqn:Ec; apply boot_artifact_issues in Ec as [Hg He].
    + pose proof (He i eq_refl) as ->. intros [Hg' He']%IH. split; [|done]. intros j Hj. by apply Hg', Hg.
    + intros [= <- <-]. by split.
Qed.

Lemma boot_collect_issues env root run inv r inv' :
  boot_collect env root run inv = (r, inv') → issues_grow inv inv'.
Proof.
  unfold boot_collect. destruct (let? _ := _ in _) as [children|e]; [|by intros [= <- <-]].
  destruct (boot_children _ children inv) as [[i|e] inv1] eqn:Ec; apply boot_children_issues in Ec as [Hg He].
  - pose proof (He i eq_refl) as ->.
    destruct (boot_artifacts env _ _ inv1) as [[i|e] inv2] eqn:Ea; apply boot_artifacts_issues in Ea as [Hg' He'];
      [pose proof (He' i eq_refl) as ->|]; intros [= <- <-]; intros j Hj; by apply Hg', Hg.
  - by intros [= <- <-].
Qed.

(** ** Specification: a commit whose audit passed *)

(** Read again at the end, an artifact is the same: its bytes, and its subject, with the
    digest and the identity of its file. *)
Definition unchanged (env : capture_env) (a : Art) : Prop :=
  ∃ b, ce_again env (ar_path a) = Ok b ∧ ar_bytes b = ar_bytes a ∧ json_eqb (ar_subject a) (ar_subject b) = true.

(** The run of the commit: what was scanned of it, its inventory, its policy. *)
Record audited (env : capture_env) (root commit run : string) (inv scanned : Inv) (policy : Art)
    (pol : Policy) : Prop := {
  (** every file of the run and of its build is an allowed artifact that was read *)
  au_scan : scan (ce_scan env) run inventory_default = Some (Ok tt, scanned);
  au_collected : boot_collect (ce_boot env) root run scanned = (Ok tt, inv);
  au_scanned : inv_issues scanned = [];
  au_issues : inv_issues inv = [];
  (** the policy is the committed one, and the commit is the head before and after *)
  au_policy : repository_policy env root = Ok (commit, policy);
  au_head : repository_head (ce_git_again env) = Ok commit;
  au_clean : ce_git env ["status"; "--porcelain"; "--untracked-files=normal"] = Ok [];
  au_built : built (ce_boot env) inv root run;
  au_audit : passing_audit inv (ce_place env) root run (ar_bytes policy);
  (** the report meets the policy *)
  au_parsed : policy_parse (ar_bytes policy) = Ok pol;
  au_report : ∃ raw report, inv_get inv "audit/.jankurai/repo-score.json" = Ok raw ∧
    report_decode raw = Ok report ∧ meets pol report;
  (** and is no worse than the baseline that was accepted before *)
  au_ratchet : ∀ b, kept_bytes inv ("before/" +:+ BASELINE) = Some b →
    ∃ baseline raw report, report_decode b = Ok baseline ∧ inv_get inv "ratchet.json" = Ok raw ∧
      report_decode raw = Ok report ∧ no_worse baseline report;
  (** the artifacts, the policy, the sources and the tools of the build are unchanged *)
  au_retained path a : inv_data inv !! path = Some a → unchanged env a;
  au_policy_again : unchanged env policy;
  au_inputs : ∃ sources inputs tools, current_sources (ce_boot env) root = Some (Ok (sources, inputs)) ∧
    build_tools (ce_boot env) inv root (boot_directory root run) = Ok tools ∧
    Forall (unchanged env) (inputs ++ tools)
}.

(** The published observation of a run: the one the run left, unchanged, and equal to
    what collecting the run gives now; it passes for the commit. *)
Record published_observation (env : capture_env) (read : string → result Art string)
    (root commit runtime run : string) (raw original : Art) (saved current : Json) : Prop := {
  po_read : read (root +:+ "/.ci-artifacts/observations/audit.json") = Ok raw;
  po_saved : report_decode (ar_bytes raw) = Ok saved;
  po_run : get "run_path" saved = Some (VString run);
  po_original : read (run +:+ "/observation.json") = Ok original;
  po_same : ar_bytes original = ar_bytes raw;
  po_collected : collect env root run 0 None runtime = Some (Ok current);
  po_current : json_eqb saved current = true;
  po_commit : get "commit_oid" saved = Some (VString commit);
  po_clean : get "clean" saved = Some (VBool true);
  po_outcome : get "outcome" saved = Some (VString "PASS");
  po_raw_again : unchanged env raw;
  po_original_again : unchanged env original
}.

Lemma recheck_unchanged env a u : recheck (ce_again env) a = Ok u → unchanged env a.
Proof.
  unfold recheck. intros (b & Hb & Hf%fail_if_Ok%orb_false_iff)%res_bind_Ok.
  destruct Hf as [Hs%negb_false_iff Hy%negb_false_iff%bool_decide_eq_true]. by exists b.
Qed.

Lemma inv_recheck_unchanged env inv u path a :
  inv_recheck (ce_again env) inv = Ok u → inv_data inv !! path = Some a → unchanged env a.
Proof.
  intros Hall%try_for_Ok Ha. rewrite Forall_forall in Hall. eapply recheck_unchanged, (Hall (path, a)).
  unfold inv_rows. rewrite merge_sort_Permutation. by apply elem_of_map_to_list.
Qed.

Lemma boot_validate_inputs env inv root run inputs : boot_validate env inv root run = Some (Ok inputs) →
  ∃ sources ins tools, current_sources env root = Some (Ok (sources, ins)) ∧
    build_tools env inv root (boot_directory root run) = Ok tools ∧ inputs = ins ++ tools.
Proof.
  unfold boot_validate. destruct (inv_argv _ _ _ ;? _) as [[]|e]; [|done].
  destruct (current_sources env root) as [[[sources ins]|e]|]; [|done..]. intros [= Hv].
  unfold boot_validate_with in Hv. do 2 (apply res_bind_Ok in Hv as (? & _ & Hv)).
  apply res_bind_require in Hv as [_ Hv]. do 2 (apply res_bind_Ok in Hv as (? & _ & Hv)).
  apply res_bind_require in Hv as [_ Hv]. apply res_bind_unit_any in Hv as [_ Hv].
  apply res_bind_Ok in Hv as (? & _ & Hv). apply res_bind_unit_any in Hv as [_ Hv].
  apply res_bind_Ok in Hv as (tools & Ht & [= <-]). by exists sources, ins, tools.
Qed.

Lemma collect_settled_Ok env root run status head policy f0 f :
  collect_settled env root run status head policy f0 = Some (Ok tt, f) →
  fo_inventory f = fo_inventory f0 ∧ fo_commit f = fo_commit f0 ∧
  (∃ b, ce_git env ["status"; "--porcelain"; "--untracked-files=normal"] = Ok b ∧
        fo_clean f = bool_decide (b = [])) ∧
  (∃ inputs, boot_validate (ce_boot env) (fo_inventory f) root run = Some (Ok inputs) ∧
             Forall (unchanged env) inputs) ∧
  (∃ t t', validate_run (fo_inventory f) (ce_place env) root run status (ar_bytes policy) t = (Ok tt, t')) ∧
  (∀ path a, inv_data (fo_inventory f) !! path = Some a → unchanged env a) ∧ unchanged env policy ∧
  repository_head (ce_git_again env) = Ok head.
Proof.
  unfold collect_settled. destruct (let? b := _ in _) as [text|e]; [|done]. cbv zeta.
  destruct (ce_git env ["status"; _; _]) as [b|e] eqn:Eb; [|done]. cbn [fo_inventory with_clean with_tree].
  destruct (boot_validate _ _ root run) as [[inputs|e]|] eqn:Ev; [|done..].
  destruct (validate_run _ _ root run status _ _) as [settled tools] eqn:Er.
  intros [= Hs <-]. cbn. apply res_bind_unit_any in Hs as [-> Hs].
  unfold collect_recheck in Hs. apply res_bind_unit_any in Hs as [Hall Hs].
  apply res_bind_unit_any in Hs as [Hpol Hs]. apply res_bind_unit_any in Hs as [Hins%try_for_Ok Hs].
  apply res_bind_Ok in Hs as (again & Ha & He%audit_require_Ok%String.eqb_eq). subst again.
  split; [done|]. split; [done|]. split; [by exists b|]. split.
  { exists inputs. split; [done|]. eapply Forall_impl; [exact Hins|]. intros a. apply recheck_unchanged. }
  split; [by exists (fo_tools f0), tools|]. split; [intros path a; by eapply inv_recheck_unchanged|].
  split; [by eapply recheck_unchanged|done].
Qed.

Lemma collect_validation_audited env root run runtime f commit :
  collect_validation env root run 0 runtime = Some (Ok tt, f) →
  inv_issues (fo_inventory f) = [] → fo_commit f = Some commit → fo_clean f = true →
  ∃ scanned policy pol, audited env root commit run (fo_inventory f) scanned policy pol.
Proof.
  unfold collect_validation. intros Hc Hissues Hcommit Hclean.
  destruct (scan _ run _) as [[[[]|e] scanned]|] eqn:Escan; [|done..].
  destruct (boot_collect _ root run scanned) as [[[]|e] inv] eqn:Eboot; [|done].
  destruct (repository_new env root runtime) as [git|e]; [|done].
  destruct (repository_policy env root) as [[head policy]|e] eqn:Epol; [|done].
  apply collect_settled_Ok in Hc as (Hinv & Hco & (b & Hb & Hcl) & (inputs & Hbv & Hins) & (t & t' & Hrun) & Hall & Hpa & Hhead).
  cbn in Hinv, Hco. rewrite Hco in Hcommit. injection Hcommit as ->.
  apply validate_run_passed in Hrun as Hpass. pose proof (pa_audit _ _ _ _ _ Hpass) as Haudit.
  destruct Haudit as (_ & _ & raw & report & Hraw & Hrep & Hval).
  apply validate_inv in Hval as (pol & d & s & Hp & Hm & _).
  pose proof Hbv as (sources & ins & tools & Hsrc & Htools & ->)%boot_validate_inputs.
  exists scanned, policy, pol. split; try done; [by rewrite Hinv|..].
  - apply boot_collect_issues in Eboot. rewrite <- Hinv in Eboot. destruct (inv_issues scanned) as [|i l] eqn:Ei; [done|].
    specialize (Eboot i). rewrite Ei, Hissues in Eboot. by destruct (not_elem_of_nil i); apply Eboot; left.
  - rewrite Hb. rewrite Hcl in Hclean. by apply bool_decide_eq_true in Hclean as ->.
  - by apply boot_validate_built in Hbv.
  - by exists raw, report.
  - intros b' Hb'. pose proof (pa_ratchet _ _ _ _ _ Hpass) as Hr. rewrite Hb' in Hr.
    destruct Hr as (baseline & Hdec & _ & _ & raw' & report' & Hraw' & Hrep' & Hval').
    apply ratchet_step in Hval' as [Hn _]. by exists baseline, raw', report'.
  - by exists sources, ins, tools.
Qed.

(** What [check] reads before it collects. *)
Lemma check_header (read : string → result Art string) root raw saved run original status :
  (let? raw := read (root +:+ "/.ci-artifacts/observations/audit.json") in
   let? saved := report_decode (ar_bytes raw) in
   let? v := obs_field saved "run_path" in
   let? run := ok_or (as_str v) "RUN_PATH_INVALID" in
   let? original := read (run +:+ "/observation.json") in
   require (bool_decide (ar_bytes original = ar_bytes raw)) "PUBLISHED_OBSERVATION_MISMATCH" ;?
   let? v := obs_field saved "primary_status" in
   let? status := ok_or (filtered (λ s, s <=? 255) (as_u64 v)) "PRIMARY_STATUS_INVALID" in
   Ok (raw, saved, run, original, status)) = Ok (raw, saved, run, original, status) →
  read (root +:+ "/.ci-artifacts/observations/audit.json") = Ok raw ∧
  report_decode (ar_bytes raw) = Ok saved ∧ get "run_path" saved = Some (VString run) ∧
  read (run +:+ "/observation.json") = Ok original ∧ ar_bytes original = ar_bytes raw.
Proof.
  intros (a & Ha & Hh)%res_bind_Ok. apply res_bind_Ok in Hh as (sv & Hsv & Hh).
  apply res_bind_Ok in Hh as (v & Hv%obs_field_Ok & Hh).
  apply res_bind_Ok in Hh as (r & Hr%ok_or_Ok%as_str_Some & Hh). subst v.
  apply res_bind_Ok in Hh as (o & Ho & Hh). apply res_bind_require in Hh as [Hs%bool_decide_eq_true Hh].
  apply res_bind_Ok in Hh as (w & _ & Hh). apply res_bind_Ok in Hh as (st & _ & Hh). by simplify_eq.
Qed.

(** C21: the check of a published observation is what it claims: when it accepts a commit,
    the observation is the one that its run left, equal to what collecting that run gives
    now, and the run is that of a whole, passing audit of the clean head: no file of it
    unexplained, the audit tool built from the present sources, the scanner the pinned one
    and complete, its report under the committed policy and no worse than the accepted
    baseline, and every report in the repository the one the run left.  Both copies of
    the observation, every artifact, the policy, and the sources and tools of the build
    are, read again at the end, what they were. *)
Theorem checked_observation_is_a_passing_audit env read root commit runtime :
  check env read root commit runtime = Some (Ok tt) →
  ∃ run raw original saved current inv scanned policy pol,
    published_observation env read root commit runtime run raw original saved current ∧
    audited env root commit run inv scanned policy pol.
Proof.
  unfold check. destruct (let? raw := _ in _) as [[[[[raw saved] run] original] status]|e] eqn:Eh; [|done].
  destruct (collect env root run status None runtime) as [[current|e]|] eqn:Ec; [|done..]. intros Hv%(inj Some).
  apply res_bind_require in Hv as [Heq Hv]. apply res_bind_unit_any in Hv as [Hraw2 Hv].
  apply res_bind_unit_any in Hv as [Horig2 Hv]. apply require_all in Hv. rewrite !Forall_cons in Hv.
  destruct Hv as (Hcommit & Hclean & Hout & _).
  apply (tested _ _ (λ v, is_str v commit)) in Hcommit as (vc & Hvc & ->%is_str_true%as_str_Some).
  apply (tested _ _ (λ v, is_bool v true)) in Hclean as (vl & Hvl & ->%is_bool_true%as_bool_Some).
  apply (tested _ _ (λ v, is_str v "PASS")) in Hout as (vo & Hvo & ->%is_str_true%as_str_Some).
  pose proof (json_eqb_get_str_r _ _ _ _ Heq Hvc) as Hvc'. pose proof (json_eqb_get_bool _ _ _ _ Heq Hvl) as Hvl'.
  pose proof (json_eqb_get_str_r _ _ _ _ Heq Hvo) as Hvo'.
  pose proof Ec as Ec'. unfold collect in Ec.
  destruct (invocation env root run None) as [invoc|e]; [|done].
  destruct (collect_validation env root run status runtime) as [[r f]|] eqn:Ev; [|done].
  injection Ec as <-. apply observation_pass in Hvo' as (-> & -> & Hissues).
  apply observation_commit in Hvc'. apply observation_clean in Hvl'. cbn in Hvc', Hvl'.
  destruct (collect_validation_audited _ _ _ _ _ _ Ev Hissues Hvc' Hvl') as (scanned & policy & pol & Ha).
  apply check_header in Eh as (Hr1 & Hr2 & Hr3 & Hr4 & Hr5).
  eexists run, raw, original, saved, _, (fo_inventory f), scanned, policy, pol. split; [|exact Ha].
  by split; try (by eapply recheck_unchanged).
Qed.
End Capture.

(** A passing audit, with an accepted baseline, and the check of its observation. *)
Module AuditCaptureReference.
Import AuditPolicyReference.

Definition root : string := "/src".
Definition run : string := "/src/target/jankurai/audit-runs/run.abcd1234".
Definition runtime : string := "/tmp/runtime".
Definition commit : string := "0123456789abcdef0123456789abcdef01234567".

(** Documents are texts of one word; [documents] says what each holds. *)
Definition crates_of (documents : list (string * Json)) : PolicyCrates Z := {|
  f_is_finite := λ _, true;
  f_eqb := Z.eqb;
  f_eqb_trans := @f_eqb_trans _ AuditPolicyReference.crates;
  toml_from_str := @toml_from_str _ AuditPolicyReference.crates;
  json_tokens := λ b, match list_find (λ d, fst d = String.string_of_list_byte b) documents with
    | Some (_, (_, v)) => Ok (to_raw v)
    | None => Err "expected value"
    end;
  utf8_error := λ _, "invalid utf-8 sequence";
  sha256_hex := λ b, u64_to_string (blen b)
|}.
#[local] Instance tool_crates : ToolCrates Z := {|
  json_to_vec := λ _, [];
  base64_encode := λ b, String.string_of_list_byte b;
  base64_decode := λ s, Ok (String.list_byte_of_string s)
|}.

(** ** The record of a tool that completed *)

Definition tool_request (name : string) : Request := {|
  rq_candidate := "/usr/bin/jankurai"; rq_record := run +:+ "/" +:+ name +:+ ".tool.jsonl";
  rq_argv := if String.eqb name "doctor" then ["--version"] else native_argv run name |}.
Definition tool_facts : facts := {|
  fa_identity := id0; fa_ancestors := []; fa_sha256 := pf_sha256 PIN; fa_copied := pf_size PIN;
  fa_executable := id0; fa_keys := []; fa_fd := 3; fa_pid := 77; fa_raw := 0;
  fa_stdout := pf_version PIN ++ [newline]; fa_stderr := [] |}.
Definition tool_documents (name : string) : list (string * Json) :=
  imap (λ i e, (name +:+ u64_to_string (N.of_nat i), record_row (N.of_nat i) 1700 (fst e) (snd e)))
    (full_trace (tool_request name) tool_facts ++ [complete_event 0]).
Definition text_lines (l : list string) : string :=
  foldr (λ line s, line +:+ String line_feed s) "" l.
Definition tool_text (name : string) : string := text_lines (map fst (tool_documents name)).

(** ** The documents *)

Definition invocation_document : Json := json_object [
  ("schema", VString "bullet.audit-invocation.v1"); ("id", VString "run.abcd1234"); ("repository", VString root);
  ("origin", VString "dispatcher"); ("parent_pid", jnum 41)].
Definition directory : string := boot_directory root run.
Definition binary : bytes := [x7f; x45; x4c; x46; x02].
Definition artifact_document : Json := json_object [
  ("schema", VString "bullet.audit-bootstrap.v1"); ("run", VString run); ("purpose", VString "audit");
  ("executable", VString (directory +:+ "/" +:+ BINARY)); ("sha256", VString "5");
  ("evidence_class", VString "local_diagnostic"); ("continuous_custody", VBool false)].
Definition environment_document : Json := json_object [
  ("HOME", VString "/home/a"); ("CARGO_HOME", VString "/home/a/.cargo");
  ("PATH", VString "/opt/rust/bin:/usr/bin:/bin"); ("RUSTC", VString "/opt/rust/bin/rustc");
  ("CARGO_NET_OFFLINE", VString "true"); ("CARGO_INCREMENTAL", VString "0"); ("LANG", VString "C");
  ("LC_ALL", VString "C"); ("TZ", VString "UTC0")].
Definition compiled_document : Json := json_object [
  ("reason", VString "compiler-artifact"); ("fresh", VBool false);
  ("target", json_object [("name", VString "bullet-ci-jankurai"); ("kind", jstrs ["bin"]);
    ("src_path", VString (root +:+ "/crates/bullet-git-workspace/src/bin/bullet-ci-jankurai/main.rs"))]);
  ("profile", json_object [("test", VBool false)]); ("executable", VString (directory +:+ "/" +:+ BINARY))].
Definition finished_document : Json :=
  json_object [("reason", VString "build-finished"); ("success", VBool true)].

Definition documents : list (string * Json) := Eval vm_compute in
  tool_documents "doctor" ++ tool_documents "ratchet" ++ tool_documents "audit" ++ [
    ("invocation", invocation_document); ("artifact", artifact_document);
    ("environment", environment_document); ("compiled", compiled_document); ("finished", finished_document);
    ("baseline", baseline); ("ratcheted", first); ("report", report 80 "r3" "standard" [] [] [])].

(** ** The files *)

Definition native_files (name : string) : list (string * bytes) := [
  (name +:+ ".stdout", []); (name +:+ ".stderr", []); (name +:+ ".exit", as_bytes (text_lines ["0"]));
  (name +:+ ".tool.jsonl", as_bytes (tool_text name));
  (name +:+ ".validation.stdout", []); (name +:+ ".validation.stderr", []);
  (name +:+ ".validation.exit", as_bytes (text_lines ["0"]));
  (name +:+ ".validation.argv", argv_bytes ([directory +:+ "/target/debug/bullet-ci-jankurai"; "report"; "--root"; root;
     "--runtime"; "/tmp/validation"; "--report";
     if String.eqb name "ratchet" then run +:+ "/ratchet.json" else root +:+ "/.jankurai/repo-score.json"]
     ++ if String.eqb name "ratchet" then ["--baseline"; root +:+ "/" +:+ BASELINE] else []))].

Definition staged : list (string * string) := [
  (".jankurai/repo-score.json", "report"); (".jankurai/repo-score.md", "md"); (".jankurai/repair-queue.jsonl", "queue")].
Definition copied : list (string * string) := [
  ("target/jankurai/repo-score.json", "report"); ("target/jankurai/repo-score.md", "md");
  ("target/jankurai/repair-queue.jsonl", "queue")].

(** The artifacts at a phase, and the list of the absent ones. *)
Definition phase_files (phase : string) (present : list (string * string)) : list (string * bytes) :=
  (phase +:+ ".absent", as_bytes (text_lines (List.filter
    (λ path, negb (bool_decide (path ∈ map fst present))) ARTIFACTS)))
  :: map (λ kv, (phase +:+ "/" +:+ fst kv, as_bytes (snd kv))) present.

Definition run_files : list (string * bytes) := Eval vm_compute in
  [("invocation.json", as_bytes "invocation");
   ("doctor.argv", argv_bytes ["bash"; "scripts/ci-doctor.sh"; "audit"; "--audit-run"; run]);
   ("doctor.stdout", []); ("doctor.stderr", []); ("doctor.exit", as_bytes (text_lines ["0"]));
   ("doctor.tool.jsonl", as_bytes (tool_text "doctor"));
   ("doctor.tool.jsonl.stdout", pf_version PIN ++ [newline]); ("doctor.tool.jsonl.stderr", []);
   ("bootstrap.argv", argv_bytes ["jankurai_bootstrap_prepare"; run]);
   ("bootstrap.stdout", []); ("bootstrap.stderr", []); ("bootstrap.exit", as_bytes (text_lines ["0"]));
   ("lane.argv", argv_bytes ["bash"; "ops/ci/audit.sh"; "--audit-run"; run]);
   ("lane.stdout", []); ("lane.stderr", []); ("lane.exit", as_bytes (text_lines ["0"]));
   ("audit.started", as_bytes (text_lines ["pid=12"]));
   ("result.txt", as_bytes (text_lines ["stage=complete"; "primary_status=0"; "retention_status=0"; "final_status=0"]));
   ("ratchet.json", as_bytes "ratcheted"); ("ratchet.md", [])]
  ++ native_files "ratchet" ++ native_files "audit"
  ++ phase_files "before" [(BASELINE, "baseline")]
  ++ phase_files "ratchet" [(BASELINE, "baseline")]
  ++ phase_files "audit" ((BASELINE, "baseline") :: staged)
  ++ phase_files "final" ((BASELINE, "baseline") :: staged ++ copied).

Definition lookup_file (files : list (string * bytes)) (path : string) : option bytes :=
  snd <$> (list_find (λ kv, fst kv = path) files ≫= λ '(_, kv), Some kv).

Definition metadata (mode size : N) : Metadata := {|
  md_dev := 1; md_ino := 2; md_mode := mode; md_uid := 1000; md_gid := 1000; md_size := size; md_nlink := 1;
  md_mtime := 1700000000; md_mtime_nsec := 5; md_ctime := 1700000000; md_ctime_nsec := 5 |}.

Section Readers.
Context `{PolicyCrates Z}.

Definition view_of (mode : N) (b : bytes) : file_view := {|
  fv_open := λ _, Ok (Ok (metadata mode (blen b)), []); fv_bytes := Ok b;
  fv_after := Ok (metadata mode (blen b)); fv_reopen := λ _, Ok (Ok (metadata mode (blen b)), []) |}.

(** [artifacts::read] of a regular file of these bytes. *)
Definition read_bytes (path : string) (b : bytes) : result (Artifact (float:=Z)) string :=
  read_artifact (view_of (if ends_with "/invocation.json" path then 33152 else 33261) b) path.

(** The sources, and the tools of the toolchain, are all one text. *)
Definition source_text : bytes := as_bytes "src".
Definition build_env (files : list (string * bytes)) : boot_env (float:=Z) :=
  let read path := read_bytes path (default source_text (lookup_file files path)) in {|
  be_uid := 1000; be_directory := λ _, Ok (metadata 16832 0);
  be_list := λ _, Ok (Ok {| de_name := as_bytes "target"; de_kind := Ok KDir |}
    :: map (λ name, Ok {| de_name := as_bytes name; de_kind := Ok KFile |}) BOOT_REPORTS);
  be_read := read; be_cargo_present := Ok false; be_kind := λ _, Ok SFile; be_children := λ _, Ok [];
  be_recheck := read |}.

End Readers.

(** The disk holds texts, and no digest of it depends on a document. *)
Section Disk.
#[local] Instance no_crates : PolicyCrates Z := crates_of [].

Definition sources_now : bytes := Eval vm_compute in
  match current_sources (build_env []) root with Some (Ok (b, _)) => b | _ => [] end.

Definition receipts : list (string * bytes) := [
  ("invocation.json", as_bytes "invocation"); ("source.before.sha256z", sources_now);
  ("source.after.sha256z", sources_now);
  ("tools.sha256", checksum_line "/opt/rust/bin/cargo" source_text ++ checksum_line "/opt/rust/bin/rustc" source_text);
  ("sysroot.stdout", as_bytes (text_lines ["/opt/rust"])); ("sysroot.stderr", []);
  ("cargo.version", as_bytes "cargo 1.97.1 (a)"); ("cargo.version.stderr", []);
  ("rustc.version", as_bytes "rustc 1.97.1 (b)"); ("rustc.version.stderr", []);
  ("cargo.argv", argv_bytes (cargo_argv "/opt/rust" root directory));
  ("cargo.environment.json", as_bytes "environment");
  ("cargo.stdout", as_bytes (text_lines ["compiled"; "finished"])); ("cargo.stderr", []);
  ("cargo.exit", as_bytes (text_lines ["0"])); ("artifact.json", as_bytes "artifact");
  ("tools.readback.stdout", []); ("tools.readback.stderr", [])].
Definition build_files : list (string * bytes) := Eval vm_compute in
  map (λ kv, (directory +:+ "/" +:+ fst kv, snd kv))
    (receipts ++ [("subjects.sha256", concat (map (λ kv, checksum_line (fst kv) (snd kv)) receipts));
                  ("bootstrap.exit", as_bytes (text_lines ["0"])); (BINARY, binary)]).

(** The entries of a directory of the run. *)
Definition entry_of (d path : string) : option (string * entry_kind) :=
  match (if String.eqb d "" then Some path else strip_prefix (d +:+ "/") path) with
  | Some rest =>
      match split "/" rest with
      | [name] => Some (name, KFile)
      | name :: _ => Some (name, KDir)
      | [] => None
      end
  | None => None
  end.
Fixpoint distinct (seen : list string) (l : list (string * entry_kind)) : list (string * entry_kind) :=
  match l with
  | [] => []
  | (name, kind) :: l =>
      if bool_decide (name ∈ seen) then distinct seen l else (name, kind) :: distinct (name :: seen) l
  end.
Definition run_listing (path : string) : list (result dirent string) :=
  let d := default "" (strip_prefix (run +:+ "/") path) in
  map (λ '(name, kind), Ok {| de_name := as_bytes name; de_kind := Ok kind |})
    (distinct [] (omap (entry_of d ∘ fst) run_files)).

Definition repository_files : list (string * bytes) :=
  map (λ kv, (root +:+ "/" +:+ fst kv, as_bytes (snd kv))) ((BASELINE, "baseline") :: staged ++ copied).

Definition disk : list (string * bytes) := Eval vm_compute in
  map (λ kv, (run +:+ "/" +:+ fst kv, snd kv)) run_files ++ build_files ++ repository_files
  ++ [(root +:+ "/agent/audit-policy.toml", policy_source);
      (run +:+ "/observation.json", as_bytes "observation");
      (root +:+ "/.ci-artifacts/observations/audit.json", as_bytes "observation")].

End Disk.

Section World.
Context (docs : list (string * Json)).
#[local] Instance crates : PolicyCrates Z := crates_of docs.

Definition read_disk (path : string) : result (Artifact (float:=Z)) string :=
  match lookup_file disk path with Some b => read_bytes path b | None => Err "OS_ERROR: not found" end.
(** The last readings are of the same disk, and of the same sources. *)
Definition read_again (path : string) : result (Artifact (float:=Z)) string :=
  read_bytes path (default source_text (lookup_file disk path)).

Definition git (args : list string) : result bytes string :=
  match args with
  | ["rev-parse"; "--verify"; "HEAD"] => Ok (as_bytes (text_lines [commit]))
  | ["rev-parse"; "--verify"; _] => Ok (as_bytes (text_lines ["89abcdef0123456789abcdef0123456789abcdef"]))
  | "show" :: _ => Ok policy_source
  | "status" :: _ => Ok []
  | _ => Err "OS_ERROR: git"
  end.

Definition env : capture_env := {|
  ce_uid := 1000; ce_run_directory := Ok (metadata 16832 0); ce_invocation := read_disk;
  ce_scan := {| rd_list := λ path, Ok (run_listing path); rd_read := read_disk |};
  ce_boot := build_env build_files; ce_git_config := λ path, read_bytes path [];
  ce_new_directory := λ _, Ok tt; ce_pin := Ok VNull; ce_git := git; ce_policy := read_disk;
  ce_place := {| pl_present := λ path, Ok (bool_decide (is_Some (lookup_file disk path))); pl_read := read_disk |};
  ce_again := read_again; ce_git_again := git |}.

Definition observed : result Json string := default (Err "") (collect env root run 0 None runtime).
End World.

(** The observation of the run is a document too. *)
Definition observation_now : Json := Eval vm_compute in
  default VNull (res_ok (observed documents)).
Definition all_documents : list (string * Json) := ("observation", observation_now) :: documents.

Lemma outcome_passes :
  check (H := crates all_documents) (env all_documents) (read_disk all_documents) root commit runtime
  = Some (Ok tt).
Proof. vm_compute. reflexivity. Qed.

Lemma checked_observation_is_a_passing_audit_witness :
  ∃ run raw original saved current inv scanned policy pol,
    published_observation (H := crates all_documents) (env all_documents) (read_disk all_documents) root commit
      runtime run raw original saved current ∧
    audited (H := crates all_documents) (env all_documents) root commit run inv scanned policy pol.
Proof.
  exact (checked_observation_is_a_passing_audit (H := crates all_documents) (env all_documents)
    (read_disk all_documents) root commit runtime outcome_passes).
Defined.

(** Another commit is refused, and so is an observation of other documents. *)
Example other_commit_refused :
  check (H := crates all_documents) (env all_documents) (read_disk all_documents) root
    "ffffffffffffffffffffffffffffffffffffffff" runtime = Some (Err "LOCAL_AUDIT_NOT_PASSING").
Proof. vm_compute. reflexivity. Qed.
End AuditCaptureReference.
